(* ===== verification/_CoqProject ===== *)
-Q . S2P
Prelude.v
GoFloat.v
RateLimit.v
GoRegexp.v
Detectors.v
Policy.v
TokenBucket.v
Json.v
GuardEngine.v
Outbound.v
EventStream.v
CacheStore.v
GoText.v
RetryAfter.v
ErrorClassify.v
Egress.v
SseCopy.v
SseRelay.v
SseScanner.v
Capabilities.v
History.v
ToolCalls.v
Combo.v
Resolution.v
Access.v
Rotation.v
Accounts.v
Deprecation.v
Locks.v
Fallback.v
Router.v
ClaudeBody.v
PromptCache.v
ClaudeToOpenAI.v
Usage.v
ToolArgs.v
ClaudeStream.v
StreamProtocol.v
StreamAnswer.v
ClaudeAnswer.v
JsonLaws.v
StreamBridge.v
AnswerTranslation.v
AnswerFold.v
CodexStream.v
CodexRelay.v
CommandCode.v
KiroStream.v
GeminiStores.v
GeminiStream.v
