(* ===== verification/Prelude.v ===== *)
(** * A model of the 9router gateway

    9router-go is a proxy between coding agents and providers of language
    models. A request passes the limits of its API key and the guardrails, names
    a model or a combo of models, is sent through one of the accounts of a
    provider, and comes back as a stream that is inspected once more. Accounts
    that fail are locked, cooled down and passed over. This library models the
    parts of the Go code under [src/internal] that make these decisions, as
    executable functions on explicit state, and proves what they promise.

    ** Parts, and the files that model them

    Foundations.
    - [Prelude]: bytes, the string functions of Go, machine integers, and the
      tactics the other files share ([zcases], [bsplit]).
    - [GoFloat]: an interface to [float64], with exact arithmetic as the
      instance the witnesses compute with.
    - [GoRegexp]: the regular expressions of the detectors, matched by
      backtracking with Go's preferences; UTF-8 rune widths.
    - [Json]: decoded values, an interface to the codec ([JsonCodec]), an RFC
      8259 decoder, and a codec with a proved round trip for witnesses.
    - [GoText]: case mapping, trimming, [strconv], [time.ParseDuration],
      decimal literals to integers, decoding into structs.
    - [JsonLaws]: what the codec promises of a value that is encoded and read
      back ([sound_codec]): valid texts, distinct names and small integers come
      back, other numbers may be spelled anew; and a codec that keeps it.

    Admission.
    - [RateLimit] ([middleware/ratelimit.go]): the sliding RPM window, the
      concurrency slots and the FIFO queue of parked requests. A critical
      section is one transition on a [limiter]; a system of callers, timers and
      releases is a step relation whose reachable states carry the invariants.
    - [TokenBucket]: the token-bucket half of the limiter, [Check] and the
      middleware that composes both. [Policy] ([policy], [middleware]): the
      limits of a key from its plan and overrides.

    Guardrails ([guardrails]).
    - [Detectors]: patterns, validators (Luhn, IBAN, addresses), masking.
    - [GuardEngine]: policy resolution, the scan of a JSON body, the inbound
      and buffered taps.
    - [Outbound]: the streaming tap: frames, the window that waits for a split
      value, redaction mapped back on the frames, blocking. What the client
      receives of header, writes and flushes is read as [net/http] does: the
      first write or flush without a status line is a 200 ([received]).

    Choosing and using an account.
    - [Resolution] ([handlers/chat/resolution.go]): from the name of a model to
      a provider, an account or the leaves of a combo.
    - [Rotation] ([db/rotation.go]): the stamps that order accounts by recency.
    - [Accounts] ([handlers/chat/connections.go], [force_fallback.go],
      [db/accounts.go]): filters, cooldowns, the pin, the strategy, the forced
      fallback, proxy pools.
    - [Locks] ([db/accounts.go], [db/accounts_oauth_lock.go]): the writes of
      locks, cooldowns and parks, against what the selector reads.
    - [RetryAfter], [ErrorClassify], [Deprecation]: how long to wait, which
      failures concern the account, which retire the model.
    - [Egress] ([proxy]): the route of an upstream request and its retries.
    - [Fallback] ([handlers/chat/fallback.go]): the account loop of a request
      that names one model.
    - [Access] ([handlers/chat/access.go], [providers/modelpattern.go]): the
      models a key may use, as the gate and the model list ask for them.
    - [Capabilities], [History], [ToolCalls]: what a combo does to a request
      before a model gets it. [Combo] ([handlers/chat/combo.go]): rotation of
      models and the loops over models and accounts, against the interface
      [Gateway], whose calls may panic. [Router]: that interface implemented
      with the parts above.

    The Claude format ([translator/request.go], [claude_blocks.go],
    [claude_trailing_turn.go]).
    - [ClaudeBody]: cleaning the history of a request that is passed through,
      and the repair of its tail. [PromptCache]: placing the cache markers within
      the upstream's budget. [ClaudeToOpenAI]: the translation of a request, and
      the repair that answers every tool call.

    Answers in the Claude format ([translator/response.go], [usage.go],
    [sanitize.go], [claude_response.go], [handlers/chat/forward.go]).
    - [Usage]: the token counts of a response. [ToolArgs]: what happens to the
      arguments of a tool call on the way to the client.
    - [ClaudeStream]: an OpenAI stream rewritten as the events of a Claude
      message: a chunk is a [step] on the state of a session, sessions live in a
      [store] with the fragments of cut chunks, [handleStreamResponse] drives one
      request. [StreamProtocol]: the protocol of those events as an automaton, and
      the streams that keep to it. [StreamAnswer]: what they say.
    - [ClaudeAnswer]: the opposite stream, and whole answers both ways, with
      [StreamBridge] and [AnswerTranslation] on what they preserve.
    - [AnswerFold] ([proxy/empty_success.go], [executor/codebuddy.go],
      [executor/openai.go], [handlers/chat/forward.go]): a stream folded into one
      document, the check that a success carries an answer, and the answer of a
      request for a document, which the streams below end in as well.

    Streams of other upstreams, rewritten for Chat Completions
    ([executor/stream.go]). Each event changes a state and gives chunks; a driver
    writes them, and tells failures as its kind of client can read them.
    - [CodexStream]: a Responses upstream, answered to an OpenAI client, to a
      Claude client through [ClaudeStream], or as a document through [AnswerFold];
      [CodexRelay]: what these clients get.
    - [CommandCode]: an upstream of lines. [KiroStream]: an upstream of the frames
      of [EventStream], whose tool calls are put together at the end.
    - [GeminiStream] ([translator/gemini.go], [handlers/chat/gemini_handler.go]):
      answers of Gemini, as a document and as a stream, with [GeminiStores]
      ([translator/tool_name_store.go], [thought_signature_store.go]): what the
      process remembers of the calls it handed out.

    Streams relayed as they come ([proxy/sse_copy.go], [sse_inband.go],
    [sse_error.go], [sse_scanner.go]).
    - [SseCopy]: the copier of an OpenAI stream; [copier] is its state, a method is
      an [act] on it that may fail to write. [SseRelay]: what the client gets.
    - [SseScanner]: the events of a stream over [bufio.Scanner], with the array
      the scanner and the held lines share.

    Stores and codecs.
    - [CacheStore] ([semanticcache/store.go]): the LRU store, with the list,
      the map and the elements they share as an explicit heap.
    - [EventStream] ([providers/eventstream.go]): AWS event frames.

    ** Conventions

    A definition keeps the name of the Go function it translates; a branch cut
    out of a longer function has a name of its own and the map of the
    development gives its lines. State is passed explicitly: a [limiter], an
    [LRUStore], a table of rows, or a type [W] or [U] with a class of operations
    where the rest of the process matters. A panic is a value ([None], or a
    constructor such as [Panicked]). Integers are [Z], wrapped by [int32] and
    [int64] where the code can overflow. Instants are nanoseconds; every reading
    of the clock is an argument. What Go leaves open (the order of a map, the
    loser of a [select], a random draw) is an argument as well. Services outside
    the code modelled are classes whose laws are their documented behaviour:
    [JsonCodec], [SqliteJson], [RotationTime], [GoTime], [UnicodeCase],
    [UnicodeUpper], [UnicodeFold], [GoFloat], [Registry], [Upstreams],
    [AccessRepo]; every property that uses
    laws has a witness over concrete instances.

    ** What the theorems show

    - Safety of admission: at most the allowed requests are in flight
      ([concurrency_cap]) and, below the bound of the table of keys, in any window
      ([sliding_window_limit]); a parked
      request is never forgotten ([queue_never_stranded]) nor overtaken
      ([pump_is_fifo]), eviction spares keys in use, tokens stay within the
      bucket and the long-run rate.
    - Accounts: each write of an account's health refines its specification
      ([writes_refine_health]); a selected account may serve the request
      ([selected_account_is_eligible]); one that failed sits out
      ([failed_account_sits_out]) and a combo spares it
      ([router_spares_limited_accounts]); round robin takes turns; the loops
      end, answer once and stop at an answer ([fallback_outcome],
      [combo_stops_at_answer]).
    - Termination: nested combos with cycles are flattened within the number of
      combos ([combo_expansion_terminates], [resolveModel_terminates]), and the
      one shape of name that is resolved forever ([marked_combo_diverges]).
    - Guardrails: masking removes every reported span; a scan rewrites what the
      policy says; the streaming tap judges a stream the same however it is cut
      in pieces ([chunking_does_not_matter]), ends it with a block, in the format
      of the client only if the status line was written through the tap
      ([block_is_final]), and leaves a clean stream alone; closing an idle tap
      spends the status ([idle_tap_spends_the_status]).
    - The Claude format: a cleaned history holds no foreign and no blank blocks,
      keeps the messages with content, and of the others user turns that are not
      last ([sanitized_history_is_clean], [empty_user_turn_survives]); at most four cache markers go out, the same
      ones when a request passes twice ([anchored_request_within_budget],
      [anchoring_is_idempotent]); after translation every tool call is answered
      ([translated_calls_are_answered], [response_repair_is_reference]).
    - Answers: the events a client gets form a message of the protocol, complete
      when the upstream gave one reason ([translated_stream_is_wellformed]) and
      left open when it gave none ([interrupted_stream_is_left_open]); they say
      what the chunks said ([stream_keeps_the_answer],
      [claude_stream_reaches_openai]), even when a chunk comes in pieces
      ([split_chunk_is_rejoined]); a whole answer survives the way to OpenAI and
      back ([claude_answer_round_trip]), its cache counted twice
      ([translated_answer_counts_cache_twice]), or is refused
      ([answer_translation_outcome]); sanitized arguments are within bounds
      ([read_arguments_in_bounds], [search_arguments_have_a_query]).
    - Streams of other upstreams: what a stream says in the plain form (item after
      item, calls in parts) reaches the client whole ([codex_items_reach_client], [commandcode_items_reach_client],
      [kiro_frames_reach_client]); failures are told ([failed_turn_is_reported],
      [commandcode_error_outcome], [silent_stream_is_a_failure]); folding keeps what
      was said, except arguments whose parts repeat
      ([folded_stream_says_the_same]). Where it goes wrong: a stream that breaks
      off is told as served ([broken_stream_is_served], [cut_kiro_stream]), calls
      told whole are doubled or run together ([whole_call_is_doubled],
      [whole_calls_run_together]). A stream and a document of Gemini with the same
      parts say the same, but for the reason of a cut turn with calls
      ([gemini_stream_and_answer_agree], [cut_gemini_stream]); the table of the
      names of calls stays exact and bounded ([name_table_is_exact]), the list of
      the signatures does not ([signature_list_grows]).
    - Relayed streams: the client gets the lines the upstream sent and one end,
      which is told from a cut or an error of the provider when not both come
      ([done_stream_outcome], [cut_stream_outcome],
      [terminal_seen_however_read]); events survive the scanner when reads end
      with them ([events_are_delivered]), and a long line need not
      ([held_line_is_overwritten]).
    - Access: what a plan adds and takes ([plan_union_decision]), where the gate
      and the list part ([gate_and_list_decisions]), and what a bare entry does
      not cover ([bare_entries_miss_qualified_calls]).
    - Refinement and round trips: the LRU store and a bounded recency list, event
      frames, payloads of the tap.

    ** Bounds and fuel

    Recursion that is not structural carries fuel, and a theorem shows that the
    fuel given is enough: the flattening of combos gets one more than the number
    of combos, the insertion of tool responses one more than the messages,
    [rmatch] and the parsers the length of their input, the loops of
    the tap the number of frames. The combo loop's ten attempts per model and two
    passes are the code's. The power of the decimal conversion keeps 1200 binary
    places, below the smallest binary64. Small counts are read back up to 1000. Block
    and call indices are integers without bound (a session has no more of them
    than the upstream sent calls); a count read through a float is exact below
    2^53. A relayed line is held back up to 4096 bytes, the window for terminal
    tokens has 64 (a token with up to sixteen blanks before its value), the
    scanner's buffer starts at 64 KiB; the theorems name these bounds. A stream of
    event frames is read with the length of the stream as fuel, a frame takes
    sixteen bytes. A document made of a Responses stream keeps 10 MB of chunks. The
    stores of Gemini calls keep an hour and 2000 keys, and the keys of one more call.

    ** Not modelled

    The requests of the executors and their other streams (web clients),
    the relay of a Responses stream to a Responses client, writes to a client that
    fail in the middle of [stream.go], the
    translators of requests to the other dialects (Gemini, Responses,
    Kiro, Antigravity), Gemini answers for clients of the other two formats, the assembly and
    streaming of one upstream request ([tryForwardWithConnection] is a
    parameter), the dashboard, media and OAuth handlers, the model catalogs
    (tables of data), the rest of the database layer, the interception proxy,
    tunnels, vault, updater, logging and metrics: I/O, data or operating-system
    glue, or left for later. Concurrency inside one request (fusion) and between
    selections is not modelled: a selection reads one state of the table; nor
    are the deadline of a scanned stream (timers, a second goroutine) and the
    assembly of the model list.
    Database errors are modelled where the code branches on them. *)

From Stdlib Require Export ZArith Lia Ascii.
From stdpp Require Export sorting.
From stdpp Require Export base numbers list gmap strings.

Declare Scope router_scope.
Delimit Scope router_scope with router.
Open Scope Z_scope.

(** ** Bytes and Go strings

    A Go [string] or [[]byte] is a sequence of bytes. *)
Abbreviation byte := ascii (only parsing).
Abbreviation bytes := (list ascii) (only parsing).

(** Byte string literal: [B "data:"]. *)
Definition B (s : string) : bytes := String.list_ascii_of_string s.

(** The numeric value of a byte, and the byte of a value modulo 256. *)
Definition zb (c : ascii) : Z := Z.of_N (N_of_ascii c).
Definition bz (z : Z) : ascii := ascii_of_N (Z.to_N (z mod 256)).

Definition ch_lf : ascii := "010"%char.
Definition ch_cr : ascii := "013"%char.

(** ** Lists as Go slices *)

Definition zlen {A} (l : list A) : Z := Z.of_nat (length l).

(** [strings.HasPrefix], [strings.HasSuffix], [strings.TrimPrefix]. *)
Fixpoint has_prefix (p s : bytes) : bool :=
  match p, s with
  | [], _ => true
  | a :: p', b :: s' => bool_decide (a = b) && has_prefix p' s'
  | _ :: _, [] => false
  end.

Definition has_suffix (p s : bytes) : bool := has_prefix (rev p) (rev s).

Definition trim_prefix (p s : bytes) : bytes :=
  if has_prefix p s then drop (length p) s else s.

(** [bytes.Index]: offset of the first occurrence of [p]. *)
Fixpoint index_of (p s : bytes) : option nat :=
  if has_prefix p s then Some 0%nat
  else match s with
       | [] => None
       | _ :: s' => S <$> index_of p s'
       end.

(** [strings.Contains]. *)
Definition contains (p s : bytes) : bool :=
  match index_of p s with Some _ => true | None => false end.

(** [strings.Split s sep] for a one-byte separator; never empty. *)
Fixpoint split_on (sep : ascii) (s : bytes) : list bytes :=
  match s with
  | [] => [[]]
  | c :: s' =>
      if bool_decide (c = sep) then [] :: split_on sep s'
      else match split_on sep s' with
           | w :: ws => (c :: w) :: ws
           | [] => [[c]]
           end
  end.

(** [strings.Join parts sep]. *)
Fixpoint join (sep : bytes) (parts : list bytes) : bytes :=
  match parts with
  | [] => []
  | [p] => p
  | p :: ps => p ++ sep ++ join sep ps
  end.

(** [bytes.Cut s sep] for a one-byte separator. *)
Fixpoint cut (sep : ascii) (s : bytes) : bytes * bytes * bool :=
  match s with
  | [] => ([], [], false)
  | c :: s' =>
      if bool_decide (c = sep) then ([], s', true)
      else let '(a, b, ok) := cut sep s' in (c :: a, b, ok)
  end.

(** [bytes.TrimRight s cutset] for a predicate cutset, and [strings.TrimLeft]. *)
Fixpoint trim_left (f : ascii → bool) (s : bytes) : bytes :=
  match s with
  | [] => []
  | c :: s' => if f c then trim_left f s' else s
  end.

Definition trim_right (f : ascii → bool) (s : bytes) : bytes :=
  rev (trim_left f (rev s)).

(** ASCII white space as [unicode.IsSpace] sees it. *)
Definition is_space (c : ascii) : bool :=
  let n := zb c in (n =? 32) || ((9 <=? n) && (n <=? 13)).

Definition is_digit (c : ascii) : bool := let n := zb c in (48 <=? n) && (n <=? 57).

(** [strings.TrimSpace]: strips the UTF-8 encodings of Unicode white space from
    both ends. *)
Definition utf8_spaces : list bytes :=
  map (λ c, [bz c]) [9; 10; 11; 12; 13; 32] ++
  map (map bz)
    [[194; 133]; [194; 160]; [225; 154; 128]; [226; 128; 128]; [226; 128; 129]; [226; 128; 130];
     [226; 128; 131]; [226; 128; 132]; [226; 128; 133]; [226; 128; 134]; [226; 128; 135];
     [226; 128; 136]; [226; 128; 137]; [226; 128; 138]; [226; 128; 168]; [226; 128; 169];
     [226; 128; 175]; [226; 129; 159]; [227; 128; 128]].

Fixpoint trim_runes (fuel : nat) (sps : list bytes) (s : bytes) : bytes :=
  match fuel with
  | O => s
  | S fuel' =>
      match List.find (λ p, has_prefix p s) sps with
      | Some p => trim_runes fuel' sps (drop (length p) s)
      | None => s
      end
  end.

Definition trim_space (s : bytes) : bytes :=
  let l := trim_runes (length s) utf8_spaces s in
  rev (trim_runes (length l) (map (@rev ascii) utf8_spaces) (rev l)).

(** ** Machine integers *)

(** Two's complement conversion to [w] bits, as Go's [intW(x)]. *)
Definition wrap_signed (w : Z) (x : Z) : Z :=
  let m := x mod 2 ^ w in if m <? 2 ^ (w - 1) then m else m - 2 ^ w.

Definition int32 (x : Z) : Z := wrap_signed 32 x.
Definition int64 (x : Z) : Z := wrap_signed 64 x.

Lemma wrap_signed_id w x :
  0 < w → - 2 ^ (w - 1) <= x < 2 ^ (w - 1) → wrap_signed w x = x.
Proof.
  intros Hw Hx. unfold wrap_signed.
  assert (2 ^ w = 2 * 2 ^ (w - 1)) as Hp.
  { rewrite <- Z.pow_succ_r by lia. f_equal. lia. }
  assert (0 < 2 ^ (w - 1)) by (apply Z.pow_pos_nonneg; lia).
  destruct (decide (0 <= x)) as [Hpos|Hneg].
  - rewrite Z.mod_small by lia. case (Z.ltb_spec x (2 ^ (w - 1))); lia.
  - assert (x mod 2 ^ w = x + 2 ^ w) as ->.
    { replace (x mod 2 ^ w) with ((x + 1 * 2 ^ w) mod 2 ^ w) by (apply Z.mod_add; lia).
      rewrite Z.mod_small; lia. }
    case (Z.ltb_spec (x + 2 ^ w) (2 ^ (w - 1))); lia.
Qed.

Lemma wrap_signed_range w x :
  0 < w → - 2 ^ (w - 1) <= wrap_signed w x < 2 ^ (w - 1).
Proof.
  intros Hw. unfold wrap_signed.
  assert (2 ^ w = 2 * 2 ^ (w - 1)) as Hp.
  { rewrite <- Z.pow_succ_r by lia. f_equal. lia. }
  assert (0 < 2 ^ (w - 1)) by (apply Z.pow_pos_nonneg; lia).
  pose proof (Z.mod_pos_bound x (2 ^ w) ltac:(lia)).
  case (Z.ltb_spec (x mod 2 ^ w) (2 ^ (w - 1))); lia.
Qed.

Lemma int32_id x : - 2 ^ 31 <= x < 2 ^ 31 → int32 x = x.
Proof. intros ?. by apply (wrap_signed_id 32). Qed.

Lemma int32_range x : - 2 ^ 31 <= int32 x < 2 ^ 31.
Proof. by apply (wrap_signed_range 32). Qed.

Lemma int64_id x : - 2 ^ 63 <= x < 2 ^ 63 → int64 x = x.
Proof. intros ?. by apply (wrap_signed_id 64). Qed.

Lemma int64_range x : - 2 ^ 63 <= int64 x < 2 ^ 63.
Proof. by apply (wrap_signed_range 64). Qed.

(** ** Bytes and their values *)

Lemma zb_range c : 0 <= zb c < 256.
Proof. unfold zb. pose proof (N_ascii_bounded c). lia. Qed.

Lemma bz_zb c : bz (zb c) = c.
Proof.
  unfold bz. pose proof (zb_range c). rewrite Z.mod_small by done.
  unfold zb. by rewrite N2Z.id, ascii_N_embedding.
Qed.

Lemma zb_bz z : 0 <= z < 256 → zb (bz z) = z.
Proof.
  intros Hz. unfold bz, zb. rewrite Z.mod_small by done.
  rewrite N_ascii_embedding by lia. lia.
Qed.

Lemma zb_inj c d : zb c = zb d → c = d.
Proof. intros H. by rewrite <- (bz_zb c), <- (bz_zb d), H. Qed.

(** ** Generic list lemmas *)

Lemma zlen_app {A} (l k : list A) : zlen (l ++ k) = zlen l + zlen k.
Proof. unfold zlen. rewrite length_app. lia. Qed.

Lemma zlen_nonneg {A} (l : list A) : 0 <= zlen l.
Proof. unfold zlen. lia. Qed.

Lemma filter_id {A} (P : A → Prop) `{∀ x, Decision (P x)} l : Forall P l → filter P l = l.
Proof. induction 1 as [|x l Hx _ IH]; [done|]. by rewrite filter_cons_True, IH. Qed.

Lemma filter_none {A} (P : A → Prop) `{∀ x, Decision (P x)} l : Forall (λ x, ¬ P x) l → filter P l = [].
Proof. induction 1 as [|x l Hx _ IH]; [done|]. by rewrite filter_cons_False. Qed.

Lemma zlen_filter {A} (P : A → Prop) `{∀ x, Decision (P x)} (l : list A) :
  zlen (filter P l) <= zlen l.
Proof.
  unfold zlen. pose proof (length_filter P l). lia.
Qed.

(** ** Automation

    [gw] holds the facts about lengths, ranges and wrap-around that the
    components use in side conditions. *)
Create HintDb gw.
#[export] Hint Resolve zlen_nonneg zb_range int32_range int64_range zlen_filter : gw.

(** Decide boolean comparisons on integers appearing in the goal, leaving the
    arithmetic facts they stand for in the context. *)
Ltac zcase :=
  match goal with
  | |- context [?a <? ?b] => case (Z.ltb_spec a b); intros ?
  | |- context [?a <=? ?b] => case (Z.leb_spec a b); intros ?
  | |- context [?a =? ?b] => case (Z.eqb_spec a b); intros ?
  end.
Ltac zcases := repeat (zcase; cbn [andb orb negb]; try lia).

(** Split the conjunctions of boolean tests in the hypotheses. *)
Ltac bsplit :=
  repeat match goal with
  | H : (_ && _) = true |- _ => apply andb_prop in H as [? ?]
  | H : (_ || _) = false |- _ => apply orb_false_elim in H as [? ?]
  | H : negb _ = true |- _ => apply negb_true_iff in H
  | H : negb _ = false |- _ => apply negb_false_iff in H
  | H : bool_decide _ = true |- _ => apply bool_decide_eq_true in H
  | H : bool_decide _ = false |- _ => apply bool_decide_eq_false in H
  end.

Lemma has_prefix_app p s q : has_prefix p s = true → has_prefix p (s ++ q) = true.
Proof.
  revert s. induction p as [|a p IH]; intros [|b s]; try done. cbn [has_prefix app].
  intros [Hab Hp]%andb_prop. rewrite Hab. by apply IH.
Qed.

Lemma B_inj s t : B s = B t → s = t.
Proof.
  unfold B. intros E. by rewrite <- (String.string_of_list_ascii_of_string s), E, String.string_of_list_ascii_of_string.
Qed.
