(* ===== verification/GoFloat.v ===== *)
(** * Floating point as the source uses it

    The interface the token bucket and the cooldown arithmetic are proved
    against: the operations of [float64] and the order facts of IEEE 754
    arithmetic they rely on.  The laws are stated through [f_ltb] being false,
    so they also hold of NaN and of the infinities; [Q], exact arithmetic, is
    the instance the witnesses compute with. *)

From Stdlib Require Import QArith.
From S2P Require Import Prelude.

Class GoFloat (F : Type) := {
  f_of_int : Z → F;
  f_add : F → F → F;
  f_sub : F → F → F;
  f_mul : F → F → F;
  f_div : F → F → F;
  f_ltb : F → F → bool;
  f_trunc : F → Z              (* int(x) *)
}.

Definition f_zero {F} `{GoFloat F} : F := f_of_int 0.

(** [x] is not below zero, [x] is not above [m]. *)
Definition f_nonneg {F} `{GoFloat F} (x : F) : Prop := f_ltb x f_zero = false.
Definition f_atmost {F} `{GoFloat F} (m x : F) : Prop := f_ltb m x = false.

Class GoFloatLaws (F : Type) `{GoFloat F} := {
  f_ltb_irrefl : ∀ x, f_ltb x x = false;
  f_ltb_asym : ∀ x y, f_ltb x y = true → f_ltb y x = false;
  f_of_int_nonneg : ∀ z, 0 <= z → f_nonneg (f_of_int z);
  f_sub_nonneg : ∀ x y, f_ltb x y = false → f_nonneg (f_sub x y);
  f_sub_atmost : ∀ m x y, f_nonneg y → f_atmost m x → f_atmost m (f_sub x y);
  f_add_nonneg : ∀ x y, f_nonneg x → f_nonneg y → f_nonneg (f_add x y);
  f_mul_nonneg : ∀ x y, f_nonneg x → f_nonneg y → f_nonneg (f_mul x y);
  f_div_nonneg : ∀ x y, f_nonneg x → f_ltb f_zero y = true → f_nonneg (f_div x y)
}.

(** [time.Duration.Seconds]. *)
Definition duration_seconds {F} `{GoFloat F} (d : Z) : F :=
  f_add (f_of_int (Z.quot d 1000000000))
        (f_div (f_of_int (Z.rem d 1000000000)) (f_of_int 1000000000)).

(** ** Exact arithmetic *)

#[export] Instance GoFloat_Q : GoFloat Q := {
  f_of_int := inject_Z;
  f_add := Qplus;
  f_sub := Qminus;
  f_mul := Qmult;
  f_div := Qdiv;
  f_ltb x y := negb (Qle_bool y x);
  f_trunc q := Z.quot (Qnum q) (Zpos (Qden q))
}.

Lemma Q_ltb_false (x y : Q) : f_ltb x y = false ↔ (y <= x)%Q.
Proof. unfold f_ltb; simpl. rewrite negb_false_iff. apply Qle_bool_iff. Qed.

Lemma Q_ltb_true (x y : Q) : f_ltb x y = true ↔ (x < y)%Q.
Proof.
  rewrite <- not_false_iff_true, Q_ltb_false. split.
  - apply Qnot_le_lt.
  - apply Qlt_not_le.
Qed.

#[export] Instance GoFloatLaws_Q : GoFloatLaws Q.
Proof.
  split; unfold f_nonneg, f_atmost, f_zero; simpl f_of_int; simpl f_add; simpl f_sub;
    simpl f_mul; simpl f_div; setoid_rewrite Q_ltb_false.
  - apply Qle_refl.
  - intros x y Hlt%Q_ltb_true. by apply Qlt_le_weak.
  - intros z Hz. rewrite <- Zle_Qle. lia.
  - intros x y Hle. unfold Qminus. by apply -> Qle_minus_iff.
  - intros m x y Hy Hm. apply Qle_trans with x; [|done].
    rewrite <- (Qplus_0_r x) at 2. apply Qplus_le_r.
    apply Qopp_le_compat in Hy. exact Hy.
  - intros x y Hx Hy. by apply (Qplus_le_compat 0 x 0 y).
  - intros x y Hx Hy. by apply Qmult_le_0_compat.
  - intros x y Hx Hy%Q_ltb_true. apply Qle_shift_div_l; [done|].
    by rewrite Qmult_0_l.
Qed.
