(* ===== verification/RateLimit.v ===== *)
(** * Rate limiter ([internal/middleware/ratelimit.go])

    The per-key limiter: sliding-window RPM, concurrency slots, the FIFO queue
    of parked requests and the eviction that bounds the per-key maps.  Every
    function that runs under [rl.mu] in the source is one atomic transition on
    a [limiter]; the readings of [time.Now()] a critical section takes are its
    arguments, in nanoseconds.  The token-bucket (TPM) half is in [TokenBucket]. *)

From S2P Require Import Prelude GoFloat.

(** ** State *)

(** A parked request, the [waiter] object shared by its caller and the queue:
    the queue holds its address, so marking it done is seen by the pump.
    [w_key] is the key the caller of [Acquire] was called with. *)
Record waiter := Waiter {
  w_key : string;
  w_grant : bool;   (* the one-place grant channel holds a token *)
  w_rpm : Z;
  w_conc : Z;
  w_done : bool
}.

Record bucket (F : Type) := Bucket { b_tokens : F; b_lastRefill : Z }.
Arguments Bucket {F} _ _.
Arguments b_tokens {F} _.
Arguments b_lastRefill {F} _.

Record limiter (F : Type) := Limiter {
  rl_windows : gmap string (list Z);
  rl_tokens : gmap string (bucket F);
  rl_active : gmap string Z;
  rl_queues : gmap string (list nat);
  rl_timers : gmap string Z;       (* fire time of the pending window timer *)
  rl_window : Z;
  rl_maxKeys : Z;
  rl_maxQueueDepth : Z;
  rl_waiters : gmap nat waiter;    (* the heap of waiter objects *)
  rl_next : nat;                   (* next free address of that heap *)
  rl_hist : list (string * Z)      (* ghost: every stamp ever recorded *)
}.
Arguments Limiter {F} _ _ _ _ _ _ _ _ _ _ _.
Arguments rl_windows {F} _.
Arguments rl_tokens {F} _.
Arguments rl_active {F} _.
Arguments rl_queues {F} _.
Arguments rl_timers {F} _.
Arguments rl_window {F} _.
Arguments rl_maxKeys {F} _.
Arguments rl_maxQueueDepth {F} _.
Arguments rl_waiters {F} _.
Arguments rl_next {F} _.
Arguments rl_hist {F} _.

Definition DefaultMaxQueueDepth : Z := 1024.
Definition Millisecond : Z := 1000000.
Definition Second : Z := 1000000000.
Definition Minute : Z := 60 * Second.

Section Setters.
Context {F : Type}.
Implicit Types rl : limiter F.

Definition set_windows v (rl : limiter F) : limiter F :=
  Limiter v (rl_tokens rl) (rl_active rl) (rl_queues rl) (rl_timers rl) (rl_window rl)
    (rl_maxKeys rl) (rl_maxQueueDepth rl) (rl_waiters rl) (rl_next rl) (rl_hist rl).
Definition set_tokens v (rl : limiter F) : limiter F :=
  Limiter (rl_windows rl) v (rl_active rl) (rl_queues rl) (rl_timers rl) (rl_window rl)
    (rl_maxKeys rl) (rl_maxQueueDepth rl) (rl_waiters rl) (rl_next rl) (rl_hist rl).
Definition set_active v (rl : limiter F) : limiter F :=
  Limiter (rl_windows rl) (rl_tokens rl) v (rl_queues rl) (rl_timers rl) (rl_window rl)
    (rl_maxKeys rl) (rl_maxQueueDepth rl) (rl_waiters rl) (rl_next rl) (rl_hist rl).
Definition set_queues v (rl : limiter F) : limiter F :=
  Limiter (rl_windows rl) (rl_tokens rl) (rl_active rl) v (rl_timers rl) (rl_window rl)
    (rl_maxKeys rl) (rl_maxQueueDepth rl) (rl_waiters rl) (rl_next rl) (rl_hist rl).
Definition set_timers v (rl : limiter F) : limiter F :=
  Limiter (rl_windows rl) (rl_tokens rl) (rl_active rl) (rl_queues rl) v (rl_window rl)
    (rl_maxKeys rl) (rl_maxQueueDepth rl) (rl_waiters rl) (rl_next rl) (rl_hist rl).
Definition set_waiters v (rl : limiter F) : limiter F :=
  Limiter (rl_windows rl) (rl_tokens rl) (rl_active rl) (rl_queues rl) (rl_timers rl)
    (rl_window rl) (rl_maxKeys rl) (rl_maxQueueDepth rl) v (rl_next rl) (rl_hist rl).
Definition set_next v (rl : limiter F) : limiter F :=
  Limiter (rl_windows rl) (rl_tokens rl) (rl_active rl) (rl_queues rl) (rl_timers rl)
    (rl_window rl) (rl_maxKeys rl) (rl_maxQueueDepth rl) (rl_waiters rl) v (rl_hist rl).
Definition set_maxKeys v (rl : limiter F) : limiter F :=
  Limiter (rl_windows rl) (rl_tokens rl) (rl_active rl) (rl_queues rl) (rl_timers rl)
    (rl_window rl) v (rl_maxQueueDepth rl) (rl_waiters rl) (rl_next rl) (rl_hist rl).
Definition set_hist v (rl : limiter F) : limiter F :=
  Limiter (rl_windows rl) (rl_tokens rl) (rl_active rl) (rl_queues rl) (rl_timers rl)
    (rl_window rl) (rl_maxKeys rl) (rl_maxQueueDepth rl) (rl_waiters rl) (rl_next rl) v.
End Setters.

(** ** Operations *)

Section Limiter.
Context {F : Type}.
Implicit Types rl : limiter F.

(** The order in which [for k := range rl.windows] visits the keys: Go leaves
    it open, so it is an argument of everything that may evict. *)
Variable iter : Z → gmap string (list Z) → list string.

Definition NewRateLimiter (window : Z) : limiter F :=
  let window := if window <=? 0 then Minute else window in
  Limiter ∅ ∅ ∅ ∅ ∅ window 10000 DefaultMaxQueueDepth ∅ 0 [].

(** [window.stamps], [counter] and [q.waiters] of a key, empty when absent. *)
Definition stamps rl k : list Z := default [] (rl_windows rl !! k).
Definition active rl k : Z := default 0 (rl_active rl !! k).
Definition queue rl k : list nat := default [] (rl_queues rl !! k).

Definition windowForLocked (k : string) rl : limiter F :=
  match rl_windows rl !! k with
  | Some _ => rl
  | None => set_windows (<[k := []]> (rl_windows rl)) rl
  end.

Definition activeCounterLocked (k : string) rl : limiter F :=
  match rl_active rl !! k with
  | Some _ => rl
  | None => set_active (<[k := 0]> (rl_active rl)) rl
  end.

Definition queueForLocked (k : string) rl : limiter F :=
  match rl_queues rl !! k with
  | Some _ => rl
  | None => set_queues (<[k := []]> (rl_queues rl)) rl
  end.

Definition keyBusy rl k : bool :=
  match rl_active rl !! k with
  | None => false
  | Some n => 0 <? n
  end.

(** The deletions one eviction performs, the timer stopped with its entry. *)
Definition drop_key (k : string) rl : limiter F :=
  set_windows (delete k (rl_windows rl))
    (set_tokens (delete k (rl_tokens rl))
      (set_active (delete k (rl_active rl))
        (set_queues (delete k (rl_queues rl))
          (set_timers (delete k (rl_timers rl)) rl)))).

Definition has_waiters rl k : bool :=
  match rl_queues rl !! k with
  | Some (_ :: _) => true
  | _ => false
  end.

Fixpoint evict_loop (keep : string) (target : Z) (ks : list string) rl : limiter F :=
  match ks with
  | [] => rl
  | k :: ks' =>
      if bool_decide (k = keep) then evict_loop keep target ks' rl
      else if keyBusy rl k then evict_loop keep target ks' rl
      else if has_waiters rl k then evict_loop keep target ks' rl
      else
        let rl' := drop_key k rl in
        if Z.of_nat (size (rl_windows rl')) <=? target then rl'
        else evict_loop keep target ks' rl'
  end.

Definition evictIfNeededLocked (keep : string) (now : Z) rl : limiter F :=
  if Z.of_nat (size (rl_windows rl)) <? rl_maxKeys rl then rl
  else evict_loop keep (rl_maxKeys rl * 9 / 10) (iter now (rl_windows rl)) rl.

(** Compacts the key's window and reports whether it has room. *)
Definition windowHasRoomLocked (k : string) (rpm now : Z) rl : limiter F * bool :=
  let rl := windowForLocked k rl in
  let cutoff := now - rl_window rl in
  let valid := filter (λ t, cutoff < t) (stamps rl k) in
  (set_windows (<[k := valid]> (rl_windows rl)) rl, zlen valid <? rpm).

Definition recordStampLocked (k : string) (now : Z) rl : limiter F :=
  let rl := windowForLocked k (evictIfNeededLocked k now rl) in
  set_hist (rl_hist rl ++ [(k, now)])
    (set_windows (<[k := stamps rl k ++ [now]]> (rl_windows rl)) rl).

Definition tryAdmitLocked (k : string) (rpm conc now : Z) rl : limiter F * bool :=
  let '(rl, room, hasStamp) :=
    if 0 <? rpm then
      let '(rl, room) := windowHasRoomLocked k rpm now rl in (rl, room, true)
    else (rl, true, false) in
  if negb room then (rl, false)
  else
    let '(rl, free) :=
      if 0 <? conc then
        let rl := activeCounterLocked k rl in
        if int32 conc <=? active rl k then (rl, false)
        else (set_active (<[k := int32 (active rl k + 1)]> (rl_active rl)) rl, true)
      else (rl, true) in
    if negb free then (rl, false)
    else (if hasStamp : bool then recordStampLocked k now rl else rl, true).

Definition tryAdmitLockedForWaiter := tryAdmitLocked.

Definition rpmBlockedLocked (k : string) (rpm now : Z) rl : bool :=
  if rpm <=? 0 then false
  else match rl_windows rl !! k with
       | None => false
       | Some w => rpm <=? zlen (filter (λ t, now - rl_window rl < t) w)
       end.

Definition scheduleWindowWakeLocked (k : string) (now : Z) rl : limiter F :=
  match rl_windows rl !! k with
  | None | Some [] => rl
  | Some (oldest :: _) =>
      match rl_timers rl !! k with
      | Some _ => rl
      | None =>
          let wakeIn := oldest + rl_window rl - now in
          let wakeIn := if wakeIn <=? 0 then Millisecond else wakeIn in
          set_timers (<[k := now + wakeIn]> (rl_timers rl)) rl
      end
  end.

(** The waiter an address denotes; a queue only ever holds allocated ones. *)
Definition waiter_at rl (id : nat) : waiter :=
  default (Waiter EmptyString false 0 0 true) (rl_waiters rl !! id).

Definition set_grant (b : bool) (w : waiter) : waiter :=
  Waiter (w_key w) b (w_rpm w) (w_conc w) (w_done w).
Definition set_done (w : waiter) : waiter :=
  Waiter (w_key w) (w_grant w) (w_rpm w) (w_conc w) true.

(** The non-blocking send on the grant channel. *)
Definition grant (id : nat) rl : limiter F :=
  set_waiters (<[id := set_grant true (waiter_at rl id)]> (rl_waiters rl)) rl.

(** The pump's loop over the parked waiters [q] of [k]; [pnow] is the reading
    taken on entry and [clk i] the one of the [i]-th admission test. *)
Fixpoint pump_loop (k : string) (pnow : Z) (clk : nat → Z) (i : nat) (q : list nat)
    rl : limiter F :=
  match q with
  | [] => set_queues (delete k (rl_queues rl)) rl
  | h :: q' =>
      let head := waiter_at rl h in
      if w_done head then
        pump_loop k pnow clk i q' (set_queues (<[k := q']> (rl_queues rl)) rl)
      else
        let '(rl, ok) := tryAdmitLockedForWaiter k (w_rpm head) (w_conc head) (clk i) rl in
        if negb ok then
          if rpmBlockedLocked k (w_rpm head) pnow rl
          then scheduleWindowWakeLocked k pnow rl else rl
        else
          pump_loop k pnow clk (S i) q'
            (grant h (set_queues (<[k := q']> (rl_queues rl)) rl))
  end.

Definition pumpLocked (k : string) (pnow : Z) (clk : nat → Z) rl : limiter F :=
  match rl_queues rl !! k with
  | None => rl
  | Some q => pump_loop k pnow clk 0 q rl
  end.

(** The critical sections of [Acquire]: park (after the fast path failed), and
    give up; taking the grant is the receive on the waiter's own channel. *)
Definition enqueue (k : string) (rpm conc : Z) rl : limiter F :=
  let id := rl_next rl in
  set_queues (<[k := queue rl k ++ [id]]> (rl_queues rl))
    (set_next (S id)
      (set_waiters (<[id := Waiter k false rpm conc false]> (rl_waiters rl)) rl)).

Definition acquire_park (k : string) (rpm conc pnow : Z) (clk : nat → Z) rl
    : limiter F * option nat :=
  let depth := rl_maxQueueDepth rl in
  let depth := if depth <=? 0 then DefaultMaxQueueDepth else depth in
  let rl := queueForLocked k rl in
  if depth <=? zlen (queue rl k) then (rl, None)
  else (pumpLocked k pnow clk (enqueue k rpm conc rl), Some (rl_next rl)).

Definition acquire_take (id : nat) rl : limiter F :=
  set_waiters (<[id := set_grant false (waiter_at rl id)]> (rl_waiters rl)) rl.

(** Marks the waiter done and drains a grant that raced in, handing the
    concurrency slot (not the RPM stamp) back. *)
Definition giveup_mark (id : nat) rl : limiter F :=
  let w := set_done (waiter_at rl id) in
  let k := w_key w in
  let rl := set_waiters (<[id := w]> (rl_waiters rl)) rl in
  if w_grant w then
    let rl := acquire_take id rl in
    if 0 <? w_conc w then
      match rl_active rl !! k with
      | Some n => set_active (<[k := n - 1]> (rl_active rl)) rl
      | None => rl
      end
    else rl
  else rl.

Definition acquire_giveup (id : nat) (pnow : Z) (clk : nat → Z) rl : limiter F :=
  pumpLocked (w_key (waiter_at rl id)) pnow clk (giveup_mark id rl).

Definition ReleaseConcurrency (k : string) (pnow : Z) (clk : nat → Z) rl : limiter F :=
  let rl :=
    match rl_active rl !! k with
    | Some n => set_active (<[k := if n - 1 <? 0 then 0 else n - 1]> (rl_active rl)) rl
    | None => rl
    end in
  pumpLocked k pnow clk rl.

(** The body of the timer [scheduleWindowWakeLocked] arms. *)
Definition windowWake (k : string) (pnow : Z) (clk : nat → Z) rl : limiter F :=
  pumpLocked k pnow clk (set_timers (delete k (rl_timers rl)) rl).

Definition concurrencyFull (k : string) (limit : Z) rl : bool :=
  match rl_active rl !! k with
  | Some n => int32 limit <=? n
  | None => false
  end.

Definition rpmRetryAfter (k : string) (now : Z) rl : Z :=
  match rl_windows rl !! k with
  | None | Some [] => 1
  | Some (oldest :: _) =>
      let retryAfter := rl_window rl - (now - oldest) in
      let retryAfter := if retryAfter <? 0 then 0 else retryAfter in
      retryAfter / Second + 1
  end.
End Limiter.

#[global] Arguments windowForLocked : simpl never.
#[global] Arguments activeCounterLocked : simpl never.
#[global] Arguments windowHasRoomLocked : simpl never.
#[global] Arguments evictIfNeededLocked : simpl never.
#[global] Arguments recordStampLocked : simpl never.
#[global] Arguments tryAdmitLocked : simpl never.
#[global] Arguments tryAdmitLockedForWaiter : simpl never.
#[global] Arguments pumpLocked : simpl never.
#[global] Arguments rpmBlockedLocked : simpl never.
#[global] Arguments scheduleWindowWakeLocked : simpl never.

(** ** Views and frames

    What the limiter knows about one key, and the relation "only key [k]
    changed, and other keys were at most evicted while idle", which every
    operation on [k] satisfies. *)

Section Frames.
Context {F : Type}.
Implicit Types rl : limiter F.

Definition view rl k : option (list Z) * option Z * option (list nat) * option Z :=
  (rl_windows rl !! k, rl_active rl !! k, rl_queues rl !! k, rl_timers rl !! k).

Definition kwaiters (k : string) rl : gmap nat waiter :=
  filter (λ p, w_key p.2 = k) (rl_waiters rl).

Definition khist (k : string) rl : list Z := (filter (λ p, p.1 = k) (rl_hist rl)).*2.

Definition idle rl k : Prop := keyBusy rl k = false ∧ has_waiters rl k = false.

Definition same_config rl rl' : Prop :=
  rl_window rl' = rl_window rl ∧ rl_maxKeys rl' = rl_maxKeys rl ∧
  rl_maxQueueDepth rl' = rl_maxQueueDepth rl.

Definition frame_at rl rl' k' : Prop :=
  (view rl' k' = view rl k' ∨ idle rl k' ∧ view rl' k' = (None, None, None, None)) ∧
  kwaiters k' rl' = kwaiters k' rl ∧ khist k' rl' = khist k' rl.

Definition frame (k : string) rl rl' : Prop :=
  same_config rl rl' ∧ ∀ k', k' ≠ k → frame_at rl rl' k'.

Lemma idle_view rl rl' k : view rl' k = view rl k → idle rl' k ↔ idle rl k.
Proof.
  unfold view, idle, keyBusy, has_waiters. intros [= _ Ha Hq _]. by rewrite Ha, Hq.
Qed.

Lemma frame_at_refl rl k : frame_at rl rl k.
Proof. split; auto. Qed.

Lemma frame_refl k rl : frame k rl rl.
Proof. split; [by split|]. intros; apply frame_at_refl. Qed.

Lemma frame_at_trans rl1 rl2 rl3 k :
  frame_at rl1 rl2 k → frame_at rl2 rl3 k → frame_at rl1 rl3 k.
Proof.
  intros (Hv1 & Hw1 & Hh1) (Hv2 & Hw2 & Hh2). split; [|split; congruence].
  destruct Hv1 as [E1|[I1 E1]], Hv2 as [E2|[I2 E2]].
  - left; congruence.
  - right. split; [|done]. by apply (idle_view _ _ _ E1).
  - right. split; [done|congruence].
  - right. split; done.
Qed.

Lemma frame_trans k rl1 rl2 rl3 : frame k rl1 rl2 → frame k rl2 rl3 → frame k rl1 rl3.
Proof.
  intros [(Ha & Hb & Hc) Hf] [(Ha' & Hb' & Hc') Hf']. split.
  - split; [|split]; congruence.
  - intros k' Hk. eapply frame_at_trans; eauto.
Qed.

#[export] Instance frame_preorder k : PreOrder (frame k).
Proof. split; [exact (frame_refl k)|exact (frame_trans k)]. Qed.

(** Updating the entry of [k] in any one map is within the frame of [k]. *)
Ltac frame_map := split; [by split|]; intros k' Hk; split; [left|split; reflexivity];
  unfold view; simpl; by rewrite ?lookup_insert_ne, ?lookup_delete_ne by done.

Lemma frame_windows k v rl : frame k rl (set_windows (<[k := v]> (rl_windows rl)) rl).
Proof. frame_map. Qed.
Lemma frame_active k v rl : frame k rl (set_active (<[k := v]> (rl_active rl)) rl).
Proof. frame_map. Qed.
Lemma frame_queues k v rl : frame k rl (set_queues (<[k := v]> (rl_queues rl)) rl).
Proof. frame_map. Qed.
Lemma frame_queues_del k rl : frame k rl (set_queues (delete k (rl_queues rl)) rl).
Proof. frame_map. Qed.
Lemma frame_timers k v rl : frame k rl (set_timers (<[k := v]> (rl_timers rl)) rl).
Proof. frame_map. Qed.
Lemma frame_timers_del k rl : frame k rl (set_timers (delete k (rl_timers rl)) rl).
Proof. frame_map. Qed.
Lemma frame_next k v rl : frame k rl (set_next v rl).
Proof. frame_map. Qed.

Lemma frame_hist k t rl : frame k rl (set_hist (rl_hist rl ++ [(k, t)]) rl).
Proof.
  split; [by split|]. intros k' Hk. split; [by left|]. split; [done|].
  unfold khist; simpl. rewrite filter_app, filter_cons_False by (simpl; congruence).
  by rewrite filter_nil, app_nil_r.
Qed.

(** Rewriting a waiter of [k] leaves the waiters of the other keys alone. *)
Lemma kwaiters_insert_ne k k' id w rl :
  k' ≠ k → w_key w = k →
  (∀ w0, rl_waiters rl !! id = Some w0 → w_key w0 = k) →
  kwaiters k' (set_waiters (<[id := w]> (rl_waiters rl)) rl) = kwaiters k' rl.
Proof.
  intros Hk Hw Hold. unfold kwaiters; simpl.
  rewrite map_filter_insert_False by (simpl; congruence).
  rewrite map_filter_delete. apply delete_id.
  apply map_lookup_filter_None. right. simpl. intros w0 H0. rewrite (Hold _ H0). congruence.
Qed.

Lemma frame_waiters k id w rl :
  w_key w = k → (∀ w0, rl_waiters rl !! id = Some w0 → w_key w0 = k) →
  frame k rl (set_waiters (<[id := w]> (rl_waiters rl)) rl).
Proof.
  intros Hw Hold. split; [by split|]. intros k' Hk.
  split; [by left|]. split; [|done]. by eapply kwaiters_insert_ne.
Qed.

(** ** Eviction *)

Variable iter : Z → gmap string (list Z) → list string.

(** What one eviction pass may do: drop idle keys other than [keep]. *)
Definition evict_rel (keep : string) rl rl' : Prop :=
  same_config rl rl' ∧ rl_waiters rl' = rl_waiters rl ∧ rl_next rl' = rl_next rl ∧
  rl_hist rl' = rl_hist rl ∧ view rl' keep = view rl keep ∧
  (∀ k, view rl' k = view rl k ∨ idle rl k ∧ view rl' k = (None, None, None, None)).

Lemma evict_rel_refl keep rl : evict_rel keep rl rl.
Proof. repeat split; auto. Qed.

Lemma evict_rel_trans keep rl1 rl2 rl3 :
  evict_rel keep rl1 rl2 → evict_rel keep rl2 rl3 → evict_rel keep rl1 rl3.
Proof.
  intros ((Ha & Hb & Hc) & Hw & Hn & Hh & Hk & V1) ((Ha' & Hb' & Hc') & Hw' & Hn' & Hh' & Hk' & V2).
  split; [split; [|split]; congruence|]. split_and!; [congruence..|].
  intros k. destruct (V1 k) as [E1|[I1 E1]], (V2 k) as [E2|[I2 E2]].
  - left; congruence.
  - right. split; [|done]. by apply (idle_view _ _ _ E1).
  - right. split; [done|congruence].
  - by right.
Qed.

Lemma drop_key_rel keep k rl :
  k ≠ keep → keyBusy rl k = false → has_waiters rl k = false →
  evict_rel keep rl (drop_key k rl).
Proof.
  intros Hk Hb Hw. split; [by split|]. split_and!; try done.
  - unfold view, drop_key; simpl. by rewrite !lookup_delete_ne.
  - intros k'. destruct (decide (k' = k)) as [->|Hne].
    + right. split; [done|]. unfold view, drop_key; simpl. by rewrite !lookup_delete_eq.
    + left. unfold view, drop_key; simpl. by rewrite !lookup_delete_ne.
Qed.

Lemma evict_loop_rel keep target ks rl : evict_rel keep rl (evict_loop keep target ks rl).
Proof.
  revert rl. induction ks as [|k ks IH]; intros rl; simpl; [apply evict_rel_refl|].
  case_bool_decide as Hk; [apply IH|].
  destruct (keyBusy rl k) eqn:Hb; [apply IH|].
  destruct (has_waiters rl k) eqn:Hw; [apply IH|].
  pose proof (drop_key_rel keep k rl Hk Hb Hw) as Hd.
  case_match; [done|]. eapply evict_rel_trans; [exact Hd|apply IH].
Qed.

Lemma evictIfNeeded_rel keep now rl :
  evict_rel keep rl (evictIfNeededLocked iter keep now rl).
Proof.
  unfold evictIfNeededLocked. case_match; [apply evict_rel_refl|apply evict_loop_rel].
Qed.

Lemma evict_rel_frame keep rl rl' : evict_rel keep rl rl' → frame keep rl rl'.
Proof.
  intros (Hc & Hw & _ & Hh & _ & Hv). split; [done|]. intros k' _.
  split; [apply Hv|]. unfold kwaiters, khist. by rewrite Hw, Hh.
Qed.
End Frames.

(** ** The admission test *)

Section Admit.
Context {F : Type}.
Implicit Types rl : limiter F.
Variable iter : Z → gmap string (list Z) → list string.

(** The stamps of [k] still inside the window at [now]. *)
Definition live rl k now : list Z := filter (λ t, now - rl_window rl < t) (stamps rl k).

Lemma windowFor_facts k rl rl' :
  windowForLocked k rl = rl' →
  frame k rl rl' ∧ stamps rl' k = stamps rl k ∧
  rl_active rl' = rl_active rl ∧ rl_queues rl' = rl_queues rl ∧
  rl_timers rl' = rl_timers rl ∧ rl_waiters rl' = rl_waiters rl ∧
  rl_next rl' = rl_next rl ∧ rl_hist rl' = rl_hist rl.
Proof.
  intros <-. unfold windowForLocked.
  destruct (rl_windows rl !! k) as [w|] eqn:Hw; [by split_and!; try apply frame_refl|].
  split_and!; try done; [apply frame_windows|].
  unfold stamps; simpl. by rewrite lookup_insert_eq, Hw.
Qed.

Lemma windowHasRoom_facts k rpm now rl rl' b :
  windowHasRoomLocked k rpm now rl = (rl', b) →
  frame k rl rl' ∧ stamps rl' k = live rl k now ∧ b = (zlen (live rl k now) <? rpm) ∧
  rl_active rl' = rl_active rl ∧ rl_queues rl' = rl_queues rl ∧
  rl_timers rl' = rl_timers rl ∧ rl_waiters rl' = rl_waiters rl ∧
  rl_next rl' = rl_next rl ∧ rl_hist rl' = rl_hist rl.
Proof.
  unfold windowHasRoomLocked. intros [= <- <-].
  destruct (windowFor_facts k rl _ eq_refl) as (Hf & Hs & Ha & Hq & Ht & Hw & Hn & Hh).
  assert (filter (λ t, now - rl_window (windowForLocked k rl) < t)
            (stamps (windowForLocked k rl) k) = live rl k now) as E.
  { unfold live. rewrite Hs. by destruct Hf as [(-> & _) _]. }
  rewrite E. split_and!; try done.
  - etrans; [exact Hf|apply frame_windows].
  - unfold stamps; simpl. by rewrite lookup_insert_eq.
Qed.

Lemma recordStamp_facts k now rl rl' :
  recordStampLocked iter k now rl = rl' →
  frame k rl rl' ∧ stamps rl' k = stamps rl k ++ [now] ∧
  rl_active rl' !! k = rl_active rl !! k ∧ rl_queues rl' !! k = rl_queues rl !! k ∧
  rl_timers rl' !! k = rl_timers rl !! k ∧ rl_waiters rl' = rl_waiters rl ∧
  rl_next rl' = rl_next rl ∧ rl_hist rl' = rl_hist rl ++ [(k, now)].
Proof.
  intros <-. unfold recordStampLocked.
  pose proof (evictIfNeeded_rel iter k now rl) as He.
  pose proof (evict_rel_frame _ _ _ He) as Hef.
  destruct He as (_ & Hew & Hen & Heh & Hev & _).
  set (rl1 := evictIfNeededLocked iter k now rl) in *.
  destruct (windowFor_facts k rl1 _ eq_refl) as (Hf & Hs & Ha & Hq & Ht & Hw & Hn & Hh).
  injection Hev as Hv1 Hv2 Hv3 Hv4.
  assert (stamps rl1 k = stamps rl k) as Hst by (unfold stamps; by rewrite Hv1).
  split_and!; simpl; try congruence.
  - etrans; [exact Hef|]. etrans; [exact Hf|].
    etrans; [apply frame_windows|].
    match goal with |- frame _ ?r _ => exact (frame_hist k now r) end.
  - unfold stamps at 1; simpl. rewrite lookup_insert_eq; simpl. congruence.
Qed.

(** Which axis, if any, refuses a request of [k]. *)
Definition rpm_room rl k rpm now : bool := (rpm <=? 0) || (zlen (live rl k now) <? rpm).
Definition conc_room rl k conc : bool := (conc <=? 0) || (active rl k <? int32 conc).

Lemma claim_facts k conc rl rl' b :
  (if 0 <? conc then
     let rl := activeCounterLocked k rl in
     if int32 conc <=? active rl k then (rl, false)
     else (set_active (<[k := int32 (active rl k + 1)]> (rl_active rl)) rl, true)
   else (rl, true)) = (rl', b) →
  frame k rl rl' ∧ b = conc_room rl k conc ∧
  active rl' k = (if b && (0 <? conc) then int32 (active rl k + 1) else active rl k) ∧
  rl_windows rl' = rl_windows rl ∧ rl_queues rl' = rl_queues rl ∧
  rl_timers rl' = rl_timers rl ∧ rl_waiters rl' = rl_waiters rl ∧
  rl_next rl' = rl_next rl ∧ rl_hist rl' = rl_hist rl.
Proof.
  assert (frame k rl (activeCounterLocked k rl) ∧ active (activeCounterLocked k rl) k = active rl k ∧
          rl_windows (activeCounterLocked k rl) = rl_windows rl ∧
          rl_queues (activeCounterLocked k rl) = rl_queues rl ∧
          rl_timers (activeCounterLocked k rl) = rl_timers rl ∧
          rl_waiters (activeCounterLocked k rl) = rl_waiters rl ∧
          rl_next (activeCounterLocked k rl) = rl_next rl ∧
          rl_hist (activeCounterLocked k rl) = rl_hist rl) as (Hf & Ha & ? & ? & ? & ? & ? & ?).
  { unfold activeCounterLocked. destruct (rl_active rl !! k) eqn:Hk.
    - by split_and!.
    - split_and!; try done; [apply frame_active|].
      unfold active; simpl. by rewrite lookup_insert_eq, Hk. }
  unfold conc_room. case (Z.ltb_spec 0 conc); intros Hc; simpl.
  2:{ intros [= <- <-]. rewrite (proj2 (Z.leb_le conc 0)) by lia.
      by split_and!. }
  rewrite (proj2 (Z.leb_gt conc 0)) by lia. simpl. rewrite Ha.
  case (Z.leb_spec (int32 conc) (active rl k)); intros Hl [= <- <-].
  - rewrite (proj2 (Z.ltb_ge _ _)) by lia. by split_and!.
  - rewrite (proj2 (Z.ltb_lt _ _)) by lia. split_and!; try done.
    + etrans; [exact Hf|apply frame_active].
    + unfold active at 1; simpl. by rewrite lookup_insert_eq.
Qed.

(** The decision is the conjunction of the two axes, and a request is either
    charged on both or on neither. *)
Lemma tryAdmit_facts k rpm conc now rl rl' b :
  tryAdmitLocked iter k rpm conc now rl = (rl', b) →
  frame k rl rl' ∧
  b = rpm_room rl k rpm now && conc_room rl k conc ∧
  active rl' k = (if b && (0 <? conc) then int32 (active rl k + 1) else active rl k) ∧
  stamps rl' k = (if 0 <? rpm then live rl k now ++ (if b : bool then [now] else [])
                  else stamps rl k) ∧
  rl_hist rl' = rl_hist rl ++ (if b && (0 <? rpm) then [(k, now)] else []) ∧
  rl_queues rl' !! k = rl_queues rl !! k ∧ rl_timers rl' !! k = rl_timers rl !! k ∧
  rl_waiters rl' = rl_waiters rl ∧ rl_next rl' = rl_next rl.
Proof.
  unfold tryAdmitLocked, rpm_room.
  case (Z.ltb_spec 0 rpm); intros Hrpm.
  - rewrite (proj2 (Z.leb_gt rpm 0)) by lia. cbn.
    destruct (windowHasRoomLocked k rpm now rl) as [rl1 room] eqn:H1.
    apply windowHasRoom_facts in H1 as (Hf1 & Hs1 & -> & Ha1 & Hq1 & Ht1 & Hw1 & Hn1 & Hh1).
    destruct (zlen (live rl k now) <? rpm) eqn:Hroom; cbn.
    2:{ intros [= <- <-]. rewrite ?app_nil_r.
        split_and!; try done; try congruence. unfold active; by rewrite Ha1. }
    match goal with |- context [match ?x with (_, _) => _ end] => destruct x as [l b0] eqn:Hc end.
    apply claim_facts in Hc as (Hf2 & Hb & Ha2 & Hw2 & Hq2 & Ht2 & Hwt2 & Hn2 & Hh2).
    assert (active rl1 k = active rl k) as Ea by (unfold active; by rewrite Ha1).
    assert (conc_room rl1 k conc = conc_room rl k conc) as Ec by (unfold conc_room; by rewrite Ea).
    rewrite Ec in Hb. rewrite Ea in Ha2. rewrite <- Hb.
    destruct b0; cbn; intros [= <- <-]; cbn.
    + destruct (recordStamp_facts k now l _ eq_refl)
        as (Hf3 & Hs3 & Ha3 & Hq3 & Ht3 & Hw3 & Hn3 & Hh3).
      split_and!; try congruence.
      * etrans; [exact Hf1|]. etrans; [exact Hf2|exact Hf3].
      * unfold active at 1. rewrite Ha3. exact Ha2.
      * rewrite Hs3. f_equal. rewrite <- Hs1. unfold stamps. by rewrite Hw2.
    + rewrite ?app_nil_r. split_and!; try congruence.
      * etrans; [exact Hf1|exact Hf2].
      * exact Ha2.
      * rewrite <- Hs1. unfold stamps. by rewrite Hw2.
  - rewrite (proj2 (Z.leb_le rpm 0)) by lia. cbn.
    match goal with |- context [match ?x with (_, _) => _ end] => destruct x as [l b0] eqn:Hc end.
    apply claim_facts in Hc as (Hf2 & Hb & Ha2 & Hw2 & Hq2 & Ht2 & Hwt2 & Hn2 & Hh2).
    rewrite <- Hb. assert (stamps l k = stamps rl k) by (unfold stamps; by rewrite Hw2).
    destruct b0; cbn; intros [= <- <-]; cbn; rewrite ?andb_false_r, ?app_nil_r;
      split_and!; try congruence; exact Ha2.
Qed.
End Admit.

(** ** The pump *)

Section Pump.
Context {F : Type}.
Implicit Types rl : limiter F.
Variable iter : Z → gmap string (list Z) → list string.

Lemma waiter_at_Some rl id w : rl_waiters rl !! id = Some w → waiter_at rl id = w.
Proof. unfold waiter_at. by intros ->. Qed.

Lemma queue_insert rl k q : queue (set_queues (<[k := q]> (rl_queues rl)) rl) k = q.
Proof. unfold queue; simpl. by rewrite lookup_insert_eq. Qed.

Lemma queue_delete rl k : queue (set_queues (delete k (rl_queues rl)) rl) k = [].
Proof. unfold queue; simpl. by rewrite lookup_delete_eq. Qed.

Lemma list_elem_of_take {A} (x : A) n l : x ∈ take n l → x ∈ l.
Proof. intros H. rewrite <- (take_drop n l). set_solver. Qed.

Lemma list_elem_of_drop {A} (x : A) n l : x ∈ drop n l → x ∈ l.
Proof. intros H. rewrite <- (take_drop n l). set_solver. Qed.

(** A refused head that no slot is missing for is refused by its window, and
    the pump then finds it blocked by time at its own, earlier, reading. *)
Lemma refused_rpm_blocked k rpm conc pnow now rl rl' :
  tryAdmitLocked iter k rpm conc now rl = (rl', false) → pnow <= now →
  conc_room rl k conc = true →
  rpmBlockedLocked k rpm pnow rl' = true ∧ stamps rl' k ≠ [].
Proof.
  intros Ht Hle Hc.
  apply tryAdmit_facts in Ht as (Hf & Hb & _ & Hs & _).
  rewrite Hc, andb_true_r in Hb. unfold rpm_room in Hb.
  symmetry in Hb. apply orb_false_iff in Hb as [Hr Hl].
  apply Z.leb_gt in Hr. apply Z.ltb_ge in Hl.
  rewrite (proj2 (Z.ltb_lt 0 rpm)), app_nil_r in Hs by done.
  assert (rl_windows rl' !! k = Some (live rl k now)) as Hw.
  { unfold stamps in Hs. destruct (rl_windows rl' !! k) eqn:E; simpl in Hs; [by rewrite Hs|].
    rewrite <- Hs in Hl. unfold zlen in Hl; simpl in Hl. lia. }
  split.
  - unfold rpmBlockedLocked. rewrite (proj2 (Z.leb_gt rpm 0)) by done. rewrite Hw.
    apply Z.leb_le. etrans; [exact Hl|]. apply Z.eq_le_incl. f_equal.
    destruct Hf as [(Hwin & _) _]. unfold live. rewrite Hwin.
    symmetry. apply list_filter_filter_r. intros t; lia.
  - rewrite Hs. intros E. rewrite E in Hl. unfold zlen in Hl; simpl in Hl. lia.
Qed.

Lemma schedule_facts k pnow rl rl' :
  scheduleWindowWakeLocked k pnow rl = rl' →
  frame k rl rl' ∧ (stamps rl k ≠ [] → is_Some (rl_timers rl' !! k)) ∧
  rl_windows rl' = rl_windows rl ∧ rl_active rl' = rl_active rl ∧
  rl_queues rl' = rl_queues rl ∧ rl_waiters rl' = rl_waiters rl ∧
  rl_next rl' = rl_next rl ∧ rl_hist rl' = rl_hist rl.
Proof.
  intros <-. unfold scheduleWindowWakeLocked, stamps.
  destruct (rl_windows rl !! k) as [[|o w]|] eqn:Hw; [by split_and!| |by split_and!].
  destruct (rl_timers rl !! k) eqn:Ht; [by split_and!|].
  split_and!; try done; [apply frame_timers|].
  intros _. simpl. rewrite lookup_insert_eq. eauto.
Qed.

(** One grant step of the loop, on a waiter of [k]. *)
Lemma grant_facts k q id w rl :
  rl_waiters rl !! id = Some w → w_key w = k →
  let rl' := grant id (set_queues (<[k := q]> (rl_queues rl)) rl) in
  frame k rl rl' ∧ queue rl' k = q ∧ rl_queues rl' !! k = Some q ∧
  rl_windows rl' = rl_windows rl ∧ rl_active rl' = rl_active rl ∧
  rl_timers rl' = rl_timers rl ∧ rl_next rl' = rl_next rl ∧ rl_hist rl' = rl_hist rl ∧
  rl_waiters rl' = <[id := set_grant true w]> (rl_waiters rl).
Proof.
  intros Hw Hk rl'. unfold rl', grant. rewrite (waiter_at_Some _ _ w) by done.
  split_and!; try done.
  - etrans; [apply (frame_queues k q)|]. apply frame_waiters; [done|]. simpl. congruence.
  - apply queue_insert.
  - simpl. by rewrite lookup_insert_eq.
Qed.

(** FIFO: the pump removes a prefix of the queue, grants exactly the requests
    of that prefix that have not given up, touches no other waiter, and stops
    only at a request that is still waiting. *)
Definition pump_outcome (q : list nat) rl rl' k : Prop :=
  ∃ n, queue rl' k = drop n q ∧
    (∀ id, id ∈ take n q → w_done (waiter_at rl id) = false →
           rl_waiters rl' !! id = Some (set_grant true (waiter_at rl id))) ∧
    (∀ id, id ∉ take n q ∨ w_done (waiter_at rl id) = true →
           rl_waiters rl' !! id = rl_waiters rl !! id) ∧
    (∀ id, head (drop n q) = Some id → w_done (waiter_at rl id) = false).

(** Every parked request of [k] is an allocated, ungranted waiter of [k]. *)
Definition queue_ok k q rl : Prop :=
  NoDup q ∧ ∀ id, id ∈ q → ∃ w, rl_waiters rl !! id = Some w ∧ w_key w = k ∧ w_grant w = false.

Lemma queue_ok_tail k id q rl rl' :
  queue_ok k (id :: q) rl →
  (∀ id', id' ≠ id → rl_waiters rl' !! id' = rl_waiters rl !! id') → queue_ok k q rl'.
Proof.
  intros [Hnd Hw] Heq. apply NoDup_cons in Hnd as [Hni Hnd]. split; [done|].
  intros id' Hin. rewrite Heq by (intros ->; done). apply Hw. by right.
Qed.

Lemma pump_loop_fifo k pnow clk q : ∀ i rl,
  rl_queues rl !! k = Some q → queue_ok k q rl →
  pump_outcome q rl (pump_loop iter k pnow clk i q rl) k.
Proof.
  induction q as [|h q IH]; intros i rl Hq Hok; simpl.
  { exists 0%nat. simpl. rewrite queue_delete. split_and!; try done. set_solver. }
  destruct (w_done (waiter_at rl h)) eqn:Hd.
  - destruct (IH i (set_queues (<[k := q]> (rl_queues rl)) rl)) as (n & Hn & Hg & Ho & Hh).
    { simpl. by rewrite lookup_insert_eq. }
    { eapply queue_ok_tail; [exact Hok|done]. }
    exists (S n). simpl. split_and!; [done| | |done].
    + intros id [->|Hin]%elem_of_cons Hnd; [congruence|]. by apply Hg.
    + intros id Hid. apply Ho. destruct Hid as [Hid|]; [left|by right]. set_solver.
  - destruct Hok as [Hnd Hok]. pose proof (conj Hnd Hok : queue_ok k (h :: q) rl) as Hokq.
    destruct (Hok h ltac:(left)) as (w & Hw & Hk & Hgr).
    unfold tryAdmitLockedForWaiter.
    destruct (tryAdmitLocked _ _ _ _ _ rl) as [rl1 ok] eqn:Ht.
    apply tryAdmit_facts in Ht as (_ & _ & _ & _ & _ & Hq1 & _ & Hw1 & _).
    destruct ok; cbn.
    + destruct (grant_facts k q h w rl1) as (_ & _ & Hq2 & _ & _ & _ & _ & _ & Hw2);
        [by rewrite Hw1|done|].
      set (rl2 := grant h _) in *.
      assert (∀ id, id ≠ h → rl_waiters rl2 !! id = rl_waiters rl !! id) as Hother.
      { intros id Hne. by rewrite Hw2, lookup_insert_ne, Hw1 by done. }
      assert (h ∉ q) as Hnin by (by apply NoDup_cons in Hnd as [? _]).
      destruct (IH (S i) rl2 Hq2) as (n & Hn & Hg & Ho & Hh).
      { eapply queue_ok_tail; [exact Hokq|done]. }
      assert (∀ id, id ≠ h → waiter_at rl2 id = waiter_at rl id) as Hat.
      { intros id Hne. unfold waiter_at. by rewrite Hother. }
      exists (S n). simpl. split_and!; [done| | |].
      * intros id [->|Hin]%elem_of_cons Hndone.
        -- rewrite Ho by (left; intros Hin%list_elem_of_take; done).
           rewrite Hw2, lookup_insert_eq. by rewrite (waiter_at_Some rl h w).
        -- assert (id ≠ h) by (intros ->; by apply list_elem_of_take in Hin).
           rewrite <- (Hat id) by done. apply Hg; [done|]. by rewrite Hat.
      * intros id Hid. destruct (decide (id = h)) as [->|Hne].
        { destruct Hid as [Hid|Hid]; [|congruence]. set_solver. }
        rewrite <- Hother by done. apply Ho. rewrite Hat by done.
        destruct Hid; [left|by right]. set_solver.
      * intros id Hid. rewrite <- Hat; [by apply Hh|]. intros ->.
        apply Hnin. destruct (drop n q) as [|x l] eqn:E; [done|]. injection Hid as ->.
        apply (list_elem_of_drop h n). rewrite E. left.
    + exists 0%nat. simpl. assert (∀ rl2, (rl_queues rl2 = rl_queues rl1 ∧ rl_waiters rl2 = rl_waiters rl1) →
          queue rl2 k = h :: q ∧ ∀ id, rl_waiters rl2 !! id = rl_waiters rl !! id) as HH.
      { intros rl2 [E1 E2]. unfold queue. by rewrite E1, E2, Hq1, Hq, Hw1. }
      assert (rl_queues (if rpmBlockedLocked k (w_rpm (waiter_at rl h)) pnow rl1
          then scheduleWindowWakeLocked k pnow rl1 else rl1) = rl_queues rl1 ∧
          rl_waiters (if rpmBlockedLocked k (w_rpm (waiter_at rl h)) pnow rl1
          then scheduleWindowWakeLocked k pnow rl1 else rl1) = rl_waiters rl1) as E.
      { case_match; [|done]. by destruct (schedule_facts k pnow rl1 _ eq_refl) as (_&_&_&_&?&?&_). }
      destruct (HH _ E) as [Hqq Hww]. split_and!; try done.
      * intros id Hin. by apply elem_of_nil in Hin.
      * intros id [= <-]. done.
Qed.
End Pump.

(** ** The limiter as a transition system

    Keys have a fixed configuration (the limits a request is checked under) and
    come from a finite universe [U].  [s_hold] lists, once per request, the keys
    whose request is in flight and holds a concurrency slot; it is what the
    callers of [Acquire] owe [ReleaseConcurrency]. *)

Section System.
Context {F : Type}.
Implicit Types rl : limiter F.
Variable iter : Z → gmap string (list Z) → list string.
Variables (rpm conc : string → Z) (U : gset string).

Record sys := Sys { s_rl : limiter F; s_hold : list string; s_now : Z }.

Definition holder_of (k : string) : list string := if 0 <? conc k then [k] else [].

(** Readings of the clock inside one critical section. *)
Definition clock_ok (t0 pnow : Z) (clk : nat → Z) (t1 : Z) : Prop :=
  t0 <= pnow ∧ (∀ i, pnow <= clk i <= t1) ∧ (∀ i, clk i <= clk (S i)).

Inductive step : sys → sys → Prop :=
| step_admit k rl rl' h t0 now :
    k ∈ U → t0 <= now →
    tryAdmitLocked iter k (rpm k) (conc k) now rl = (rl', true) →
    step (Sys rl h t0) (Sys rl' (holder_of k ++ h) now)
| step_refuse k rl rl' h t0 now :
    k ∈ U → t0 <= now →
    tryAdmitLocked iter k (rpm k) (conc k) now rl = (rl', false) →
    step (Sys rl h t0) (Sys rl' h now)
| step_park k rl rl' o h t0 pnow clk t1 :
    k ∈ U → clock_ok t0 pnow clk t1 →
    acquire_park iter k (rpm k) (conc k) pnow clk rl = (rl', o) →
    step (Sys rl h t0) (Sys rl' h t1)
| step_take id w rl h t0 :
    rl_waiters rl !! id = Some w → w_grant w = true →
    step (Sys rl h t0) (Sys (acquire_take id rl) (holder_of (w_key w) ++ h) t0)
| step_giveup id w rl h t0 pnow clk t1 :
    rl_waiters rl !! id = Some w → w_key w ∈ U → clock_ok t0 pnow clk t1 →
    step (Sys rl h t0) (Sys (acquire_giveup iter id pnow clk rl) h t1)
| step_release k rl h1 h2 t0 pnow clk t1 :
    k ∈ U → clock_ok t0 pnow clk t1 →
    step (Sys rl (h1 ++ k :: h2) t0) (Sys (ReleaseConcurrency iter k pnow clk rl) (h1 ++ h2) t1)
| step_wake k rl h t0 pnow clk t1 :
    k ∈ U → is_Some (rl_timers rl !! k) → clock_ok t0 pnow clk t1 →
    step (Sys rl h t0) (Sys (windowWake iter k pnow clk rl) h t1).

Definition initial (s : sys) : Prop :=
  ∃ w t, s = Sys (NewRateLimiter w) [] t.

Definition reachable (s : sys) : Prop := ∃ s0, initial s0 ∧ rtc step s0 s.

(** Slots of [k] granted to a parked request that has not yet picked them up. *)
Definition granted k rl : Z :=
  Z.of_nat (size (filter (λ p, w_grant p.2 = true) (kwaiters k rl))).
Definition pending_slots k rl : Z := if 0 <? conc k then granted k rl else 0.

Definition held (k : string) (h : list string) : Z := zlen (filter (λ x, x = k) h).

(** The invariant of one key. *)
Record key_inv (k : string) (h : Z) (rl : limiter F) : Prop := {
  ki_count : active rl k = h + pending_slots k rl;
  ki_hold : 0 <= h;
  ki_cap : 0 < conc k → active rl k <= conc k;
  ki_queue : queue_ok k (queue rl k) rl;
  ki_conf : ∀ id w, kwaiters k rl !! id = Some w → w_rpm w = rpm k ∧ w_conc w = conc k
}.

(** A parked request is always about to be looked at again: a window timer is
    armed for its key, or every slot of the key is taken. *)
Definition unstranded k rl : Prop :=
  queue rl k = [] ∨ is_Some (rl_timers rl !! k) ∨ (0 < conc k ∧ conc k <= active rl k).

Definition heap_ok (rl : limiter F) : Prop :=
  ∀ id, is_Some (rl_waiters rl !! id) → (id < rl_next rl)%nat.

Definition sys_inv (s : sys) : Prop :=
  heap_ok (s_rl s) ∧ ∀ k, key_inv k (held k (s_hold s)) (s_rl s) ∧ unstranded k (s_rl s).

Hypothesis conc_bound : ∀ k, conc k < 2 ^ 31.

(** *** Counting grants *)

Lemma size_filter_insert {A} (P : nat * A → Prop) `{∀ x, Decision (P x)}
    (m : gmap nat A) i x y :
  m !! i = Some y →
  Z.of_nat (size (filter P (<[i := x]> m))) =
  Z.of_nat (size (filter P m)) - (if decide (P (i, y)) then 1 else 0)
                               + (if decide (P (i, x)) then 1 else 0).
Proof.
  intros Hy.
  assert (∀ z, Z.of_nat (size (filter P (<[i := z]> (delete i m)))) =
               Z.of_nat (size (filter P (delete i m))) + (if decide (P (i, z)) then 1 else 0)) as E.
  { intros z. case_decide as Hz.
    - rewrite map_filter_insert_True by done. rewrite map_size_insert_None; [lia|].
      apply map_lookup_filter_None. left. apply lookup_delete_eq.
    - rewrite map_filter_insert_False by done. rewrite delete_delete_eq. lia. }
  rewrite <- (insert_id m i y Hy) at 2.
  rewrite <- (insert_delete_eq m i x), <- (insert_delete_eq m i y), !E. lia.
Qed.

Lemma kwaiters_lookup k rl id w :
  kwaiters k rl !! id = Some w ↔ rl_waiters rl !! id = Some w ∧ w_key w = k.
Proof. unfold kwaiters. rewrite map_lookup_filter_Some. done. Qed.

(** Rewriting the waiter [id] of [k]. *)
Lemma granted_update k rl rl' id w w' :
  rl_waiters rl !! id = Some w → w_key w = k → w_key w' = k →
  rl_waiters rl' = <[id := w']> (rl_waiters rl) →
  granted k rl' = granted k rl - Z.b2z (w_grant w) + Z.b2z (w_grant w').
Proof.
  intros Hw Hk Hk' Hrl. unfold granted.
  assert (kwaiters k rl' = <[id := w']> (kwaiters k rl)) as ->.
  { unfold kwaiters. rewrite Hrl. by rewrite map_filter_insert_True. }
  rewrite (size_filter_insert _ _ id w' w) by (by apply kwaiters_lookup).
  simpl. destruct (w_grant w), (w_grant w'); simpl; by repeat case_decide.
Qed.

Lemma granted_same k rl rl' : rl_waiters rl' = rl_waiters rl → granted k rl' = granted k rl.
Proof. intros E. unfold granted, kwaiters. by rewrite E. Qed.

Lemma granted_nonneg k rl : 0 <= granted k rl.
Proof. unfold granted. lia. Qed.

Lemma pending_nonneg k rl : 0 <= pending_slots k rl.
Proof. unfold pending_slots. case_match; [apply granted_nonneg|lia]. Qed.

Lemma int32_conc k : 0 < conc k → int32 (conc k) = conc k.
Proof. intros H. apply int32_id. specialize (conc_bound k). lia. Qed.

(** *** Other keys *)

Lemma frame_at_inv k h rl rl' :
  frame_at rl rl' k → key_inv k h rl → key_inv k h rl'.
Proof.
  intros (Hv & Hw & _) [Hc Hh Hcap Hq Hcf].
  assert (∀ id w, rl_waiters rl !! id = Some w → w_key w = k →
            rl_waiters rl' !! id = Some w) as Hpres.
  { intros id w Hid Hwk. assert (kwaiters k rl' !! id = Some w) as Hl.
    { rewrite Hw. by apply kwaiters_lookup. }
    by apply kwaiters_lookup in Hl as [? _]. }
  assert (pending_slots k rl' = pending_slots k rl) as Hp.
  { unfold pending_slots, granted. by rewrite Hw. }
  destruct Hv as [Hv|[[Hb Hwt] Hv]]; unfold view in Hv.
  - injection Hv as Hv1 Hv2 Hv3 Hv4.
    assert (active rl' k = active rl k) as Ha by (unfold active; by rewrite Hv2).
    assert (queue rl' k = queue rl k) as Hqq by (unfold queue; by rewrite Hv3).
    split; [congruence|done|by rewrite Ha| |by rewrite Hw].
    rewrite Hqq. destruct Hq as [Hnd Hq]. split; [done|].
    intros id (w & Hid & Hwk & Hg)%Hq. eauto 6.
  - injection Hv as Hv1 Hv2 Hv3 Hv4.
    assert (active rl' k = 0) as Ha by (unfold active; by rewrite Hv2).
    assert (active rl k <= 0) as Hle.
    { unfold keyBusy in Hb. unfold active. destruct (rl_active rl !! k); simpl; [lia|done]. }
    pose proof (pending_nonneg k rl). split.
    + lia.
    + done.
    + lia.
    + unfold queue. rewrite Hv3. split; [constructor|]. intros id Hin. by apply elem_of_nil in Hin.
    + by rewrite Hw.
Qed.

Lemma frame_at_unstranded k rl rl' :
  frame_at rl rl' k → unstranded k rl → unstranded k rl'.
Proof.
  intros (Hv & _) Hu. destruct Hv as [Hv|[_ Hv]]; injection Hv as Hv1 Hv2 Hv3 Hv4.
  - unfold unstranded, queue, active in *. by rewrite Hv2, Hv3, Hv4.
  - left. unfold queue. by rewrite Hv3.
Qed.

(** *** The pump preserves the invariant of its key *)

Lemma key_inv_same k h rl rl' :
  key_inv k h rl → active rl' k = active rl k → rl_waiters rl' = rl_waiters rl →
  queue_ok k (queue rl' k) rl' → key_inv k h rl'.
Proof.
  intros [Hc Hh Hcap Hq Hcf] Ha Hw Hqq.
  assert (pending_slots k rl' = pending_slots k rl) as Hp.
  { unfold pending_slots. by rewrite (granted_same k rl rl' Hw). }
  assert (kwaiters k rl' = kwaiters k rl) as Hk by (unfold kwaiters; by rewrite Hw).
  split; rewrite ?Ha, ?Hp, ?Hk; done.
Qed.

Lemma queue_ok_weaken k q q' rl rl' :
  queue_ok k q rl → NoDup q' → (∀ id, id ∈ q' → id ∈ q) →
  rl_waiters rl' = rl_waiters rl → queue_ok k q' rl'.
Proof.
  intros [_ Hq] Hnd Hin Hw. split; [done|]. intros id Hid. rewrite Hw. by apply Hq, Hin.
Qed.

Lemma queue_same rl rl' k : rl_queues rl' !! k = rl_queues rl !! k → queue rl' k = queue rl k.
Proof. unfold queue. by intros ->. Qed.

(** What the invariant says of the request at the head of the queue. *)
Lemma queue_head k h id q rl :
  key_inv k h rl → queue rl k = id :: q →
  ∃ w, rl_waiters rl !! id = Some w ∧ waiter_at rl id = w ∧ w_key w = k ∧
       w_grant w = false ∧ w_rpm w = rpm k ∧ w_conc w = conc k.
Proof.
  intros Hinv Eq. pose proof (ki_queue _ _ _ Hinv) as [_ Hq]. rewrite Eq in Hq.
  destruct (Hq id ltac:(left)) as (w & Hw & Hk & Hg).
  destruct (ki_conf _ _ _ Hinv id w) as [Hr Hc]; [by apply kwaiters_lookup|].
  exists w. split_and!; try done. by apply waiter_at_Some.
Qed.

(** Claiming a slot never overflows the counter and stays within the cap. *)
Lemma claimed_count k h rl :
  key_inv k h rl → conc_room rl k (conc k) = true →
  (if true && (0 <? conc k) then int32 (active rl k + 1) else active rl k) =
    (if 0 <? conc k then active rl k + 1 else active rl k) ∧
  (0 < conc k → active rl k + 1 <= conc k).
Proof.
  intros Hinv Hroom. simpl. unfold conc_room in Hroom.
  case (Z.ltb_spec 0 (conc k)); intros Hc; [|split; [done|lia]].
  rewrite (proj2 (Z.leb_gt _ _) Hc) in Hroom; simpl in Hroom.
  rewrite (int32_conc k Hc) in Hroom. apply Z.ltb_lt in Hroom.
  pose proof (ki_count _ _ _ Hinv). pose proof (ki_hold _ _ _ Hinv).
  pose proof (pending_nonneg k rl). pose proof (conc_bound k).
  split; [apply int32_id; lia|lia].
Qed.

Lemma grant_step_inv k h now id q rl rl1 :
  key_inv k h rl → heap_ok rl → queue rl k = id :: q →
  tryAdmitLocked iter k (rpm k) (conc k) now rl = (rl1, true) →
  let rl2 := grant id (set_queues (<[k := q]> (rl_queues rl1)) rl1) in
  key_inv k h rl2 ∧ heap_ok rl2 ∧ frame k rl rl2 ∧ rl_queues rl2 !! k = Some q.
Proof.
  intros Hinv Hheap Eq Ht rl2.
  destruct (queue_head k h id q rl Hinv Eq) as (w & Hw & _ & Hk & Hgr & Hrpm & Hconc).
  apply tryAdmit_facts in Ht as (Hf1 & Hb & Ha1 & _ & _ & Hq1 & _ & Hw1 & Hn1).
  symmetry in Hb. apply andb_true_iff in Hb as [_ Hroom].
  destruct (claimed_count k h rl Hinv Hroom) as [Ecl Hcap]. rewrite Ecl in Ha1.
  destruct (grant_facts k q id w rl1) as (Hf2 & Eq2 & Hq2 & _ & Ha2 & _ & Hn2 & _ & Hw2);
    [by rewrite Hw1|done|]. fold rl2 in Hf2, Eq2, Hq2, Ha2, Hn2, Hw2.
  assert (active rl2 k = if 0 <? conc k then active rl k + 1 else active rl k) as Eact.
  { rewrite <- Ha1. unfold active. by rewrite Ha2. }
  assert (granted k rl2 = granted k rl + 1) as Egr.
  { rewrite (granted_update k rl1 rl2 id w (set_grant true w)) by (done || by rewrite Hw1).
    rewrite (granted_same k rl rl1) by done. rewrite Hgr. simpl. lia. }
  pose proof (ki_queue _ _ _ Hinv) as Hqok. rewrite Eq in Hqok.
  split_and!; try done.
  - split.
    + rewrite Eact, (ki_count _ _ _ Hinv). unfold pending_slots.
      case_match; rewrite ?Egr; lia.
    + apply (ki_hold _ _ _ Hinv).
    + intros Hc. rewrite Eact, (proj2 (Z.ltb_lt 0 _) Hc). by apply Hcap.
    + rewrite Eq2. eapply queue_ok_tail; [exact Hqok|].
      intros id' Hne. by rewrite Hw2, lookup_insert_ne, Hw1 by done.
    + intros id' w' Hid'. apply kwaiters_lookup in Hid' as [Hid' Hk'].
      rewrite Hw2, Hw1 in Hid'. destruct (decide (id' = id)) as [->|Hne].
      * rewrite lookup_insert_eq in Hid'. by injection Hid' as <-.
      * rewrite lookup_insert_ne in Hid' by done.
        apply (ki_conf _ _ _ Hinv id'). by apply kwaiters_lookup.
  - intros id'. rewrite Hw2, Hn2, Hw1, Hn1. destruct (decide (id' = id)) as [->|Hne].
    + intros _. apply Hheap. rewrite Hw. eauto.
    + rewrite lookup_insert_ne by done. apply Hheap.
  - etrans; [exact Hf1|exact Hf2].
Qed.

Lemma block_step_inv k h pnow now id q rl rl1 :
  key_inv k h rl → heap_ok rl → queue rl k = id :: q → pnow <= now →
  tryAdmitLocked iter k (rpm k) (conc k) now rl = (rl1, false) →
  let rl2 := if rpmBlockedLocked k (rpm k) pnow rl1
             then scheduleWindowWakeLocked k pnow rl1 else rl1 in
  key_inv k h rl2 ∧ heap_ok rl2 ∧ frame k rl rl2 ∧ unstranded k rl2.
Proof.
  intros Hinv Hheap Eq Hle Ht rl2.
  pose proof Ht as Ht'.
  apply tryAdmit_facts in Ht' as (Hf1 & _ & Ha1 & _ & _ & Hq1 & _ & Hw1 & Hn1). cbn in Ha1.
  destruct (schedule_facts k pnow rl1 _ eq_refl) as (Hfs & Hts & _ & Has & Hqs & Hws & Hns & _).
  assert (active rl2 k = active rl k ∧ queue rl2 k = queue rl k ∧
          rl_waiters rl2 = rl_waiters rl ∧ rl_next rl2 = rl_next rl ∧ frame k rl rl2)
    as (Ea & Eq2 & Ew & En & Hf).
  { rewrite <- (queue_same rl rl1 k Hq1), <- Hw1, <- Hn1, <- Ha1. unfold rl2, active, queue.
    case_match; rewrite ?Has, ?Hqs, ?Hws, ?Hns; split_and!; try done.
    etrans; [exact Hf1|exact Hfs]. }
  split_and!; [|unfold heap_ok; by rewrite Ew, En|done|].
  - apply (key_inv_same k h rl); try done. rewrite Eq2.
    eapply queue_ok_weaken; [apply (ki_queue _ _ _ Hinv)|apply (ki_queue _ _ _ Hinv)|done|done].
  - destruct (conc_room rl k (conc k)) eqn:Hroom.
    + destruct (refused_rpm_blocked iter k _ _ pnow _ _ _ Ht Hle Hroom) as [Hbl Hst].
      right; left. unfold rl2. rewrite Hbl. by apply Hts.
    + right; right. rewrite Ea. unfold conc_room in Hroom.
      apply orb_false_iff in Hroom as [Hc Hl].
      apply Z.leb_gt in Hc. apply Z.ltb_ge in Hl. rewrite (int32_conc k Hc) in Hl. lia.
Qed.

Lemma pump_loop_inv k h pnow clk q : (∀ i, pnow <= clk i) → ∀ i rl,
  rl_queues rl !! k = Some q → key_inv k h rl → heap_ok rl →
  let rl' := pump_loop iter k pnow clk i q rl in
  key_inv k h rl' ∧ heap_ok rl' ∧ frame k rl rl' ∧ unstranded k rl'.
Proof.
  intros Hclk. induction q as [|id q IH]; intros i rl Hq Hinv Hheap; simpl.
  { split_and!; [|done| |left; apply queue_delete].
    - apply (key_inv_same k h rl); try done. rewrite queue_delete.
      split; [constructor|]. intros id Hin. by apply elem_of_nil in Hin.
    - apply frame_queues_del. }
  assert (queue rl k = id :: q) as Eq by (unfold queue; by rewrite Hq).
  destruct (queue_head k h id q rl Hinv Eq) as (w & Hw & -> & Hk & Hgr & Hrpm & Hconc).
  destruct (w_done w).
  { set (rl1 := set_queues (<[k := q]> (rl_queues rl)) rl).
    destruct (IH i rl1) as (Hi & Hhp & Hf & Hu); [| |done|].
    - simpl. by rewrite lookup_insert_eq.
    - apply (key_inv_same k h rl); try done. unfold rl1. rewrite queue_insert.
      pose proof (ki_queue _ _ _ Hinv) as Hqok. rewrite Eq in Hqok.
      eapply queue_ok_tail; [exact Hqok|done].
    - split_and!; try done. etrans; [apply frame_queues|exact Hf]. }
  unfold tryAdmitLockedForWaiter. rewrite Hrpm, Hconc.
  destruct (tryAdmitLocked iter k (rpm k) (conc k) (clk i) rl) as [rl1 ok] eqn:Ht.
  destruct ok; cbn.
  - destruct (grant_step_inv k h (clk i) id q rl rl1 Hinv Hheap Eq Ht) as (Hi2 & Hh2 & Hf2 & Hq2).
    destruct (IH (S i) _ Hq2 Hi2 Hh2) as (Hi & Hhp & Hf & Hu).
    split_and!; try done. etrans; [exact Hf2|exact Hf].
  - by apply (block_step_inv k h pnow (clk i) id q rl rl1).
Qed.

Lemma pump_inv k h pnow clk rl :
  (∀ i, pnow <= clk i) → key_inv k h rl → heap_ok rl →
  let rl' := pumpLocked iter k pnow clk rl in
  key_inv k h rl' ∧ heap_ok rl' ∧ frame k rl rl' ∧ unstranded k rl'.
Proof.
  intros Hclk Hinv Hheap. unfold pumpLocked.
  destruct (rl_queues rl !! k) as [q|] eqn:Hq; [by apply pump_loop_inv|].
  split_and!; try done. left. unfold queue. by rewrite Hq.
Qed.

(** *** Every step preserves the invariant *)

Lemma held_app k h1 h2 : held k (h1 ++ h2) = held k h1 + held k h2.
Proof. unfold held. by rewrite filter_app, zlen_app. Qed.

Lemma held_single k k' : held k [k'] = if decide (k' = k) then 1 else 0.
Proof. unfold held. rewrite filter_cons, filter_nil. by case_decide. Qed.

Lemma held_holder k : held k (holder_of k) = if 0 <? conc k then 1 else 0.
Proof. unfold holder_of. case_match; [|done]. rewrite held_single. by rewrite decide_True. Qed.

Lemma held_holder_ne k k' : k' ≠ k → held k' (holder_of k) = 0.
Proof.
  intros Hne. unfold holder_of. case_match; [|done].
  rewrite held_single. by rewrite decide_False.
Qed.

Lemma held_nonneg k h : 0 <= held k h.
Proof. apply zlen_nonneg. Qed.

(** A step on [k] only has [k]'s own part of the invariant to restore. *)
Lemma inv_lift k rl rl' h h' t t' :
  sys_inv (Sys rl h t) → frame k rl rl' → heap_ok rl' →
  key_inv k (held k h') rl' → unstranded k rl' →
  (∀ k', k' ≠ k → held k' h' = held k' h) → sys_inv (Sys rl' h' t').
Proof.
  intros [_ Hinv] [_ Hf] Hheap Hk Hu Hh. split; [done|]. intros k'; simpl in *.
  destruct (decide (k' = k)) as [->|Hne]; [done|]. destruct (Hinv k') as [Hi Hun].
  rewrite Hh by done. split; [eapply frame_at_inv|eapply frame_at_unstranded]; eauto.
Qed.

Lemma admit_inv k rl rl' h t now :
  sys_inv (Sys rl h t) → tryAdmitLocked iter k (rpm k) (conc k) now rl = (rl', true) →
  sys_inv (Sys rl' (holder_of k ++ h) now).
Proof.
  intros Hinv Ht. pose proof Hinv as [Hheap Hk]. destruct (Hk k) as [Hik Huk]. simpl in *.
  apply tryAdmit_facts in Ht as (Hf & Hb & Ha & _ & _ & Hq & Htm & Hw & Hn).
  symmetry in Hb. apply andb_true_iff in Hb as [_ Hroom].
  destruct (claimed_count k _ rl Hik Hroom) as [Ecl Hcap]. rewrite Ecl in Ha.
  assert (queue rl' k = queue rl k) as Eq by by apply queue_same.
  apply (inv_lift k rl rl' h _ t now Hinv Hf).
  - unfold heap_ok. by rewrite Hw, Hn.
  - rewrite held_app, held_holder. destruct Hik as [Hc Hh Hcp Hqk Hcf]. split.
    + rewrite Ha, Hc. unfold pending_slots. rewrite (granted_same k rl rl') by done.
      case (Z.ltb_spec 0 (conc k)); lia.
    + case (Z.ltb_spec 0 (conc k)); lia.
    + intros Hc0. rewrite Ha, (proj2 (Z.ltb_lt 0 _) Hc0). by apply Hcap.
    + rewrite Eq. eapply queue_ok_weaken; [exact Hqk|apply Hqk|done|done].
    + unfold kwaiters. rewrite Hw. exact Hcf.
  - destruct Huk as [Hu|[Hu|Hu]]; [left; by rewrite Eq|right; left; by rewrite Htm|].
    right; right. rewrite Ha. case (Z.ltb_spec 0 (conc k)); lia.
  - intros k' Hne. by rewrite held_app, held_holder_ne.
Qed.

Lemma refuse_inv k rl rl' h t now :
  sys_inv (Sys rl h t) → tryAdmitLocked iter k (rpm k) (conc k) now rl = (rl', false) →
  sys_inv (Sys rl' h now).
Proof.
  intros Hinv Ht. pose proof Hinv as [Hheap Hk]. destruct (Hk k) as [Hik Huk]. simpl in *.
  apply tryAdmit_facts in Ht as (Hf & _ & Ha & _ & _ & Hq & Htm & Hw & Hn). cbn in Ha.
  assert (queue rl' k = queue rl k) as Eq by by apply queue_same.
  apply (inv_lift k rl rl' h _ t now Hinv Hf); [|..|done].
  - unfold heap_ok. by rewrite Hw, Hn.
  - apply (key_inv_same k _ rl); try done. rewrite Eq.
    eapply queue_ok_weaken; [apply (ki_queue _ _ _ Hik)|apply (ki_queue _ _ _ Hik)|done|done].
  - unfold unstranded. by rewrite Eq, Htm, Ha.
Qed.

Lemma enqueue_inv k h rl :
  key_inv k h rl → heap_ok rl →
  let rl' := enqueue k (rpm k) (conc k) rl in
  frame k rl rl' ∧ key_inv k h rl' ∧ heap_ok rl' ∧ queue rl' k = queue rl k ++ [rl_next rl].
Proof.
  intros [Hc Hh0 Hcp [Hnd Hqw] Hcf] Hheap rl'. set (id := rl_next rl).
  set (w := Waiter k false (rpm k) (conc k) false).
  assert (rl_waiters rl !! id = None) as Hfresh.
  { destruct (rl_waiters rl !! id) eqn:E; [|done].
    specialize (Hheap id ltac:(eauto)). unfold id in Hheap. lia. }
  assert (queue rl' k = queue rl k ++ [id]) as Eq2.
  { unfold queue at 1, rl', enqueue; simpl. by rewrite lookup_insert_eq. }
  assert (rl_waiters rl' = <[id := w]> (rl_waiters rl)) as Ew by done.
  split_and!; [| | |done].
  - split; [by split|]. intros k' Hne. split; [left|split; [|done]].
    + unfold view; simpl. by rewrite lookup_insert_ne.
    + apply (kwaiters_insert_ne k k' id w); [done..|]. by rewrite Hfresh.
  - assert (pending_slots k rl' = pending_slots k rl) as Ep.
    { unfold pending_slots, granted. do 4 f_equal. unfold kwaiters. rewrite Ew.
      rewrite (map_filter_insert_True (λ p, w_key p.2 = k)) by done.
      rewrite map_filter_insert_False by done. rewrite delete_id; [done|].
      apply map_lookup_filter_None. by left. }
    split; [by rewrite Ep|done|done| |].
    + rewrite Eq2. split.
      * apply NoDup_app. split_and!; [done| |apply NoDup_singleton].
        intros id' Hin ->%list_elem_of_singleton. destruct (Hqw _ Hin) as (? & ? & _). congruence.
      * intros id' [Hin| ->%list_elem_of_singleton]%elem_of_app.
        -- destruct (Hqw _ Hin) as (w' & Hw' & ? & ?). exists w'. rewrite Ew.
           rewrite lookup_insert_ne; [done|]. congruence.
        -- exists w. by rewrite Ew, lookup_insert_eq.
    + intros id' w' Hw'. apply kwaiters_lookup in Hw' as [Hw' Hk'].
      rewrite Ew in Hw'. destruct (decide (id' = id)) as [->|Hne].
      * rewrite lookup_insert_eq in Hw'. by injection Hw' as <-.
      * rewrite lookup_insert_ne in Hw' by done. apply (Hcf id'). by apply kwaiters_lookup.
  - intros id'. rewrite Ew. destruct (decide (id' = id)) as [->|Hne]; [simpl; lia|].
    rewrite lookup_insert_ne by done. intros H'. specialize (Hheap id' H'). simpl. lia.
Qed.

Lemma park_inv k rl rl' o h t pnow clk t' :
  sys_inv (Sys rl h t) → (∀ i, pnow <= clk i) →
  acquire_park iter k (rpm k) (conc k) pnow clk rl = (rl', o) → sys_inv (Sys rl' h t').
Proof.
  intros Hinv Hclk. pose proof Hinv as [Hheap Hk]. destruct (Hk k) as [Hik Huk]. simpl in *.
  unfold acquire_park. set (rl1 := queueForLocked k rl).
  assert (frame k rl rl1 ∧ queue rl1 k = queue rl k ∧ rl_active rl1 = rl_active rl ∧
          rl_timers rl1 = rl_timers rl ∧ rl_waiters rl1 = rl_waiters rl ∧ rl_next rl1 = rl_next rl)
    as (Hf & Eq & Ea & Et & Ew & En).
  { unfold rl1, queueForLocked. destruct (rl_queues rl !! k) eqn:E; [by split_and!|].
    split_and!; try done; [apply frame_queues|]. rewrite queue_insert. unfold queue. by rewrite E. }
  assert (heap_ok rl1) as Hheap1 by (unfold heap_ok; by rewrite Ew, En).
  assert (key_inv k (held k h) rl1) as Hik1.
  { pose proof (ki_queue _ _ _ Hik) as Hqok.
    apply (key_inv_same k _ rl); try done; [unfold active; by rewrite Ea|].
    rewrite Eq. eapply queue_ok_weaken; [exact Hqok|apply Hqok|done|done]. }
  case_match; intros [= <- _].
  - apply (inv_lift k rl rl1 h h t t' Hinv Hf); try done.
    unfold unstranded, active in *. by rewrite Eq, Et, Ea.
  - destruct (enqueue_inv k _ rl1 Hik1 Hheap1) as (Hf2 & Hi2 & Hh2 & _).
    destruct (pump_inv k (held k h) pnow clk _ Hclk Hi2 Hh2) as (Hi' & Hh' & Hf' & Hu').
    apply (inv_lift k rl _ h h t t' Hinv); try done.
    etrans; [exact Hf|]. etrans; [exact Hf2|exact Hf'].
Qed.

(** Rewriting one waiter of [k], which is not parked, to [w']. *)
Lemma waiter_update_inv k h h' rl rl' id w w' :
  key_inv k h rl → heap_ok rl →
  rl_waiters rl !! id = Some w → w_key w = k → set_grant (w_grant w) w' = set_grant (w_grant w) w ∨
    set_grant (w_grant w) w' = set_grant (w_grant w) (set_done w) →
  (id ∈ queue rl k → w_grant w' = false) →
  rl_waiters rl' = <[id := w']> (rl_waiters rl) → rl_next rl' = rl_next rl →
  queue rl' k = queue rl k →
  active rl' k = h' + (if 0 <? conc k then granted k rl - Z.b2z (w_grant w) + Z.b2z (w_grant w') else 0) →
  active rl' k <= active rl k → 0 <= h' →
  key_inv k h' rl' ∧ heap_ok rl'.
Proof.
  intros [Hc Hh Hcp Hq Hcf] Hheap Hw Hk Hsame Hg Ew En Eq Ea Hle Hh'.
  assert (w_key w' = k ∧ w_rpm w' = w_rpm w ∧ w_conc w' = w_conc w) as (Hk' & Hr' & Hc').
  { unfold set_grant, set_done in Hsame; simpl in Hsame.
    destruct Hsame as [[= ???]|[= ???]]; split_and!; congruence. }
  split.
  - split.
    + rewrite Ea. unfold pending_slots.
      by rewrite (granted_update k rl rl' id w w' Hw Hk Hk' Ew).
    + done.
    + intros Hc0. specialize (Hcp Hc0). lia.
    + rewrite Eq. destruct Hq as [Hnd Hq]. split; [done|]. intros id' Hin.
      rewrite Ew. destruct (decide (id' = id)) as [->|Hne].
      * rewrite lookup_insert_eq. exists w'. eauto.
      * rewrite lookup_insert_ne by done. by apply Hq.
    + intros id' w0 Hw0. apply kwaiters_lookup in Hw0 as [Hw0 Hk0]. rewrite Ew in Hw0.
      destruct (decide (id' = id)) as [->|Hne].
      * rewrite lookup_insert_eq in Hw0. injection Hw0 as <-. rewrite Hr', Hc'.
        apply (Hcf id). by apply kwaiters_lookup.
      * rewrite lookup_insert_ne in Hw0 by done. apply (Hcf id'). by apply kwaiters_lookup.
  - intros id'. rewrite Ew, En. destruct (decide (id' = id)) as [->|Hne].
    + intros _. apply Hheap. rewrite Hw. eauto.
    + rewrite lookup_insert_ne by done. apply Hheap.
Qed.

Lemma frame_waiter_update k id w w' rl :
  rl_waiters rl !! id = Some w → w_key w = k → w_key w' = k →
  frame k rl (set_waiters (<[id := w']> (rl_waiters rl)) rl).
Proof. intros Hw Hk Hk'. apply frame_waiters; [done|]. intros w0. congruence. Qed.

Lemma take_inv id w rl h t :
  sys_inv (Sys rl h t) → rl_waiters rl !! id = Some w → w_grant w = true →
  sys_inv (Sys (acquire_take id rl) (holder_of (w_key w) ++ h) t).
Proof.
  intros Hinv Hw Hg. pose proof Hinv as [Hheap Hk]. set (k := w_key w).
  destruct (Hk k) as [Hik Huk]. simpl in *. unfold acquire_take.
  rewrite (waiter_at_Some _ _ _ Hw).
  destruct (waiter_update_inv k (held k h) (held k (holder_of k ++ h)) rl
    (set_waiters (<[id := set_grant false w]> (rl_waiters rl)) rl) id w (set_grant false w))
    as [Hi' Hh']; try done.
  - by left.
  - rewrite held_app, held_holder, Hg. simpl. pose proof (ki_count _ _ _ Hik) as Hc.
    unfold pending_slots in Hc. change (active _ k) with (active rl k).
    revert Hc. case (Z.ltb_spec 0 (conc k)); lia.
  - rewrite held_app, held_holder. pose proof (held_nonneg k h). case_match; lia.
  - apply (inv_lift k rl _ h _ t t Hinv); try done.
    + by apply (frame_waiter_update k id w).
    + intros k' Hne. by rewrite held_app, held_holder_ne.
Qed.

Lemma release_inv k rl h1 h2 t pnow clk t' :
  sys_inv (Sys rl (h1 ++ k :: h2) t) → (∀ i, pnow <= clk i) →
  sys_inv (Sys (ReleaseConcurrency iter k pnow clk rl) (h1 ++ h2) t').
Proof.
  intros Hinv Hclk. pose proof Hinv as [Hheap Hk]. destruct (Hk k) as [Hik Huk]. simpl in *.
  assert (held k (h1 ++ k :: h2) = held k (h1 ++ h2) + 1) as Eh.
  { rewrite (cons_middle k), !held_app, held_single, decide_True by done. lia. }
  pose proof (held_nonneg k (h1 ++ h2)) as Hnn. pose proof (ki_count _ _ _ Hik) as Hc.
  pose proof (pending_nonneg k rl) as Hpn. rewrite Eh in Hc.
  unfold ReleaseConcurrency. destruct (rl_active rl !! k) as [n|] eqn:En.
  2:{ unfold active in Hc. rewrite En in Hc. simpl in Hc. lia. }
  assert (n = active rl k) as -> by (unfold active; by rewrite En).
  rewrite (proj2 (Z.ltb_ge _ _)) by lia.
  set (rl1 := set_active _ rl).
  assert (active rl1 k = active rl k - 1) as Ea.
  { unfold active at 1, rl1; simpl. by rewrite lookup_insert_eq. }
  destruct (pump_inv k (held k (h1 ++ h2)) pnow clk rl1) as (Hi' & Hh' & Hf' & Hu'); [done| |done|].
  - destruct Hik as [_ Hh Hcp Hq Hcf]. split; try done.
    + rewrite Ea, Hc. change (pending_slots k rl1) with (pending_slots k rl). lia.
    + intros H0. specialize (Hcp H0). lia.
  - apply (inv_lift k rl _ (h1 ++ k :: h2) _ t t' Hinv); try done.
    + etrans; [apply frame_active|exact Hf'].
    + intros k' Hne. rewrite (cons_middle k), !held_app, held_single.
      rewrite decide_False by done. lia.
Qed.

Lemma wake_inv k rl h t pnow clk t' :
  sys_inv (Sys rl h t) → (∀ i, pnow <= clk i) →
  sys_inv (Sys (windowWake iter k pnow clk rl) h t').
Proof.
  intros Hinv Hclk. pose proof Hinv as [Hheap Hk]. destruct (Hk k) as [Hik Huk]. simpl in *.
  unfold windowWake.
  destruct (pump_inv k (held k h) pnow clk (set_timers (delete k (rl_timers rl)) rl))
    as (Hi' & Hh' & Hf' & Hu'); [done| |done|].
  - by destruct Hik; split.
  - apply (inv_lift k rl _ h _ t t' Hinv); try done.
    etrans; [apply frame_timers_del|exact Hf'].
Qed.

(** A grant that is waiting to be picked up stands for a held slot. *)
Lemma grant_pins_slot k h id w rl :
  key_inv k h rl → rl_waiters rl !! id = Some w → w_key w = k → w_grant w = true →
  0 < conc k → 0 < active rl k.
Proof.
  intros Hik Hw Hk Hg H0. rewrite (ki_count _ _ _ Hik). unfold pending_slots.
  rewrite (proj2 (Z.ltb_lt _ _) H0). pose proof (ki_hold _ _ _ Hik).
  enough (0 < granted k rl) by lia. unfold granted.
  enough (filter (λ p, w_grant p.2 = true) (kwaiters k rl) ≠ ∅) as Hne.
  { apply map_size_non_empty_iff in Hne. lia. }
  intros E. apply (f_equal (.!! id)) in E. rewrite lookup_empty in E.
  apply map_lookup_filter_None in E as [E|E].
  - apply eq_None_not_Some in E. apply E. exists w. by apply kwaiters_lookup.
  - apply (E w); [by apply kwaiters_lookup|done].
Qed.

Lemma giveup_mark_facts k h id w rl :
  key_inv k h rl → rl_waiters rl !! id = Some w → w_key w = k →
  let rl' := giveup_mark id rl in
  frame k rl rl' ∧ rl_waiters rl' = <[id := set_grant false (set_done w)]> (rl_waiters rl) ∧
  rl_next rl' = rl_next rl ∧ queue rl' k = queue rl k ∧
  active rl' k = (if 0 <? conc k then active rl k - Z.b2z (w_grant w) else active rl k).
Proof.
  intros Hik Hw Hk. destruct (ki_conf _ _ _ Hik id w) as [_ Hcw]; [by apply kwaiters_lookup|].
  unfold giveup_mark. rewrite (waiter_at_Some _ _ _ Hw). cbn. rewrite Hk, Hcw.
  set (rl1 := set_waiters (<[id := set_done w]> (rl_waiters rl)) rl).
  assert (frame k rl rl1) as Hf1 by by apply (frame_waiter_update k id w).
  destruct (w_grant w) eqn:Hg.
  2:{ split_and!; try done.
      - simpl. f_equal. unfold set_grant, set_done; simpl. by rewrite Hg.
      - simpl. rewrite Z.sub_0_r. by case_match. }
  unfold acquire_take. rewrite (waiter_at_Some rl1 id (set_done w)) by (simpl; apply lookup_insert_eq).
  set (rl2 := set_waiters _ rl1).
  assert (rl_waiters rl2 = <[id := set_grant false (set_done w)]> (rl_waiters rl)) as Ew2.
  { simpl. by rewrite insert_insert_eq. }
  assert (frame k rl rl2) as Hf2.
  { etrans; [exact Hf1|]. apply (frame_waiter_update k id (set_done w)); [|done..].
    simpl. apply lookup_insert_eq. }
  case (Z.ltb_spec 0 (conc k)); intros H0; [|by split_and!].
  pose proof (grant_pins_slot k h id w rl Hik Hw Hk Hg H0) as Hpos.
  change (rl_active rl2) with (rl_active rl). destruct (rl_active rl !! k) as [n|] eqn:En.
  2:{ unfold active in Hpos. rewrite En in Hpos. simpl in Hpos. lia. }
  split_and!; try done.
  - etrans; [exact Hf2|]. exact (frame_active k (n - 1) rl2).
  - unfold active; simpl. by rewrite lookup_insert_eq, En.
Qed.

Lemma giveup_inv id w rl h t pnow clk t' :
  sys_inv (Sys rl h t) → (∀ i, pnow <= clk i) → rl_waiters rl !! id = Some w →
  sys_inv (Sys (acquire_giveup iter id pnow clk rl) h t').
Proof.
  intros Hinv Hclk Hw. pose proof Hinv as [Hheap Hk]. set (k := w_key w).
  destruct (Hk k) as [Hik Huk]. simpl in *.
  unfold acquire_giveup. rewrite (waiter_at_Some _ _ _ Hw). fold k.
  destruct (giveup_mark_facts k _ id w rl Hik Hw eq_refl) as (Hf & Ew & En & Eq & Ea).
  pose proof (ki_count _ _ _ Hik) as Hc. unfold pending_slots in Hc.
  destruct (waiter_update_inv k (held k h) (held k h) rl (giveup_mark id rl) id w
    (set_grant false (set_done w))) as [Hi2 Hh2]; try done.
  - by right.
  - rewrite Ea. revert Hc. simpl. case (Z.ltb_spec 0 (conc k)); lia.
  - rewrite Ea. destruct (w_grant w); simpl; case (Z.ltb_spec 0 (conc k)); lia.
  - apply held_nonneg.
  - destruct (pump_inv k (held k h) pnow clk _ Hclk Hi2 Hh2) as (Hi' & Hh' & Hf' & Hu').
    apply (inv_lift k rl _ h _ t t' Hinv); try done. etrans; [exact Hf|exact Hf'].
Qed.

Lemma step_inv s s' : step s s' → sys_inv s → sys_inv s'.
Proof.
  intros Hstep Hinv. destruct Hstep; try match goal with H : clock_ok _ _ _ _ |- _ =>
    destruct H as (_ & Hclk & _); assert (∀ i, pnow <= clk i) by (intros i; specialize (Hclk i); lia) end.
  - by eapply admit_inv.
  - by eapply refuse_inv.
  - by eapply park_inv.
  - by eapply take_inv.
  - by eapply giveup_inv.
  - by eapply release_inv.
  - by eapply wake_inv.
Qed.

Lemma initial_inv s : initial s → sys_inv s.
Proof.
  intros (w & t & ->). split; [intros id [? H]; simpl in H; by rewrite lookup_empty in H|].
  intros k. split; [split|left; done].
  - unfold active, pending_slots, granted, kwaiters; simpl. case_match; done.
  - done.
  - intros Hc. unfold active; simpl. rewrite lookup_empty; simpl. lia.
  - split; [constructor|]. intros id Hin. by apply elem_of_nil in Hin.
  - intros id w' Hw. apply kwaiters_lookup in Hw as [Hw _]. simpl in Hw. by rewrite lookup_empty in Hw.
Qed.

Lemma reachable_inv s : reachable s → sys_inv s.
Proof.
  intros (s0 & Hi & Hr). apply initial_inv in Hi. induction Hr; [done|].
  by apply IHHr, (step_inv x).
Qed.

(** *** The sliding window *)

(** The admissions of [k] in the half-open window of length [W] ending at [T]. *)
Definition in_window (W T : Z) (l : list Z) : list Z := filter (λ t, T - W < t <= T) l.

(** The recorded stamps are the history as far as any later window can see,
    and no window of the history holds more than the limit. *)
Record window_inv (t : Z) (rl : limiter F) : Prop := {
  wi_keys : dom (rl_windows rl) ⊆ U;
  wi_cap : Z.of_nat (size U) < rl_maxKeys rl;
  wi_past : ∀ k a, a ∈ khist k rl → a <= t;
  wi_live : ∀ k c, 0 < rpm k → t <= c →
    filter (λ a, c - rl_window rl < a) (stamps rl k) =
    filter (λ a, c - rl_window rl < a) (khist k rl);
  wi_bound : ∀ k T, 0 < rpm k → zlen (in_window (rl_window rl) T (khist k rl)) <= rpm k
}.

Lemma window_inv_mono t t' rl : t <= t' → window_inv t rl → window_inv t' rl.
Proof.
  intros Hle [Hk Hc Hp Hl Hb]. split; try done.
  - intros k a Ha. specialize (Hp k a Ha). lia.
  - intros k c Hr Hc'. apply Hl; [done|lia].
Qed.

Lemma window_inv_same t rl rl' :
  rl_windows rl' = rl_windows rl → rl_hist rl' = rl_hist rl →
  rl_window rl' = rl_window rl → rl_maxKeys rl' = rl_maxKeys rl →
  window_inv t rl → window_inv t rl'.
Proof.
  intros E1 E2 E3 E4 [Hk Hc Hp Hl Hb]. unfold khist, stamps in *.
  split; unfold khist, stamps; rewrite ?E1, ?E2, ?E3, ?E4; done.
Qed.

(** With room for every key of the universe nothing is ever evicted. *)
Lemma tryAdmit_windows k r c now rl rl' b :
  dom (rl_windows rl) ⊆ U → k ∈ U → Z.of_nat (size U) < rl_maxKeys rl →
  tryAdmitLocked iter k r c now rl = (rl', b) →
  (∀ k', k' ≠ k → stamps rl' k' = stamps rl k') ∧ dom (rl_windows rl') ⊆ U.
Proof.
  intros Hdom Hk Hcap Ht.
  assert (∀ (rl0 : limiter F) v, dom (rl_windows rl0) ⊆ U → dom (<[k := v]> (rl_windows rl0)) ⊆ U) as Hins
    by (intros; set_solver).
  assert (∀ rl0 : limiter F, dom (rl_windows rl0) ⊆ U → rl_maxKeys rl0 = rl_maxKeys rl →
            evictIfNeededLocked iter k now rl0 = rl0) as Hev.
  { intros rl0 Hd Hm. unfold evictIfNeededLocked. rewrite Hm, (proj2 (Z.ltb_lt _ _)); [done|].
    apply subseteq_size in Hd. rewrite size_dom in Hd. lia. }
  assert (∀ (rl0 : limiter F), dom (rl_windows rl0) ⊆ U → dom (rl_windows (windowForLocked k rl0)) ⊆ U) as Hwf.
  { intros rl0 Hd. unfold windowForLocked. case_match; [done|]. simpl. by apply Hins. }
  assert (∀ (rl0 : limiter F) k', k' ≠ k → stamps (windowForLocked k rl0) k' = stamps rl0 k') as Hws.
  { intros rl0 k' Hne. unfold windowForLocked. case_match; [done|].
    unfold stamps; simpl. by rewrite lookup_insert_ne. }
  assert (∀ rl0 : limiter F, dom (rl_windows rl0) ⊆ U → rl_maxKeys rl0 = rl_maxKeys rl →
    (∀ k', k' ≠ k → stamps (recordStampLocked iter k now rl0) k' = stamps rl0 k') ∧
    dom (rl_windows (recordStampLocked iter k now rl0)) ⊆ U) as Hrec.
  { intros rl0 Hd Hm. unfold recordStampLocked. rewrite Hev by done. split.
    - intros k' Hne. rewrite <- (Hws rl0 k' Hne). unfold stamps; simpl. by rewrite lookup_insert_ne.
    - simpl. by apply Hins, Hwf. }
  revert Ht. unfold tryAdmitLocked.
  assert (∃ rl1 room stamp, (if 0 <? r then let '(rl, room) := windowHasRoomLocked k r now rl in (rl, room, true)
      else (rl, true, false)) = (rl1, room, stamp) ∧
      (∀ k', k' ≠ k → stamps rl1 k' = stamps rl k') ∧ dom (rl_windows rl1) ⊆ U ∧
      rl_maxKeys rl1 = rl_maxKeys rl) as (rl1 & room & st & -> & Hs1 & Hd1 & Hm1).
  { case_match; [|by eexists _, _, _].
    unfold windowHasRoomLocked. eexists _, _, _. split; [done|]. split_and!.
    - intros k' Hne. rewrite <- (Hws rl k' Hne). unfold stamps; simpl. by rewrite lookup_insert_ne.
    - simpl. by apply Hins, Hwf.
    - simpl. unfold windowForLocked. by case_match. }
  destruct room; cbn; [|by intros [= <- <-]].
  match goal with |- context [match ?x with (_, _) => _ end] => destruct x as [rl2 fr] eqn:Hc end.
  assert (rl_maxKeys rl2 = rl_maxKeys rl1) as Hm2
    by (apply claim_facts in Hc as ([(_ & ? & _) _] & _); done).
  apply claim_facts in Hc as (_ & _ & _ & Hw2 & _).
  assert (∀ k', stamps rl2 k' = stamps rl1 k') as Hs2 by (intros; unfold stamps; by rewrite Hw2).
  destruct fr; cbn; [|intros [= <- <-]; split; [|by rewrite Hw2]; intros; rewrite Hs2; by apply Hs1].
  destruct st; intros [= <- <-].
  - destruct (Hrec rl2) as [Hr1 Hr2]; [by rewrite Hw2|congruence|].
    split; [|done]. intros k' Hne. rewrite Hr1, Hs2 by done. by apply Hs1.
  - split; [|by rewrite Hw2]. intros. rewrite Hs2. by apply Hs1.
Qed.

Lemma khist_app k rl rl' l :
  rl_hist rl' = rl_hist rl ++ l → khist k rl' = khist k rl ++ (filter (λ p, p.1 = k) l).*2.
Proof. intros E. unfold khist. by rewrite E, filter_app, fmap_app. Qed.

Lemma zlen_filter_le {A} (P Q : A → Prop) `{∀ x, Decision (P x)} `{∀ x, Decision (Q x)} (l : list A) :
  (∀ x, x ∈ l → P x → Q x) → zlen (filter P l) <= zlen (filter Q l).
Proof.
  unfold zlen. induction l as [|x l IH]; intros HPQ; [done|].
  rewrite !filter_cons. specialize (IH ltac:(intros; apply HPQ; [by right|done])).
  pose proof (HPQ x ltac:(left)). repeat case_decide; simpl; try lia. tauto.
Qed.

(** Adding a stamp while fewer than [r] are live keeps every window within [r]. *)
Lemma window_bound_snoc W r now l :
  (∀ a, a ∈ l → a <= now) →
  zlen (filter (λ a, now - W < a) l) < r →
  (∀ T, zlen (in_window W T l) <= r) → ∀ T, zlen (in_window W T (l ++ [now])) <= r.
Proof.
  intros Hle Hlive Hb T. unfold in_window. rewrite filter_app, zlen_app.
  rewrite filter_cons, filter_nil. case_decide as Hin; [|unfold zlen at 2; simpl;
    specialize (Hb T); unfold in_window in Hb; lia].
  pose proof (zlen_filter_le (λ t, T - W < t <= T) (λ a, now - W < a) l
    ltac:(intros x _ Hx; simpl in *; lia)).
  unfold zlen at 2; simpl. lia.
Qed.

Lemma tryAdmit_window t k c now rl rl' b :
  window_inv t rl → t <= now → k ∈ U →
  tryAdmitLocked iter k (rpm k) c now rl = (rl', b) → window_inv now rl'.
Proof.
  intros [Hd Hcap Hp Hl Hb] Hle Hk Ht.
  destruct (tryAdmit_windows k _ c now rl rl' b Hd Hk Hcap Ht) as [Hs' Hd'].
  apply tryAdmit_facts in Ht as ([(EW & EM & _) Hf] & Hdec & _ & Hst & Hh & _).
  assert (∀ k' l, k' ≠ k → (filter (λ p : string * Z, p.1 = k') (if b && (0 <? rpm k) then [(k, now)] else [])).*2 = l → l = []) as Hne0.
  { intros k' l Hne <-. case_match; [|done].
    rewrite filter_cons_False; [done|]. simpl. congruence. }
  assert (∀ k', k' ≠ k → khist k' rl' = khist k' rl) as Hkh.
  { intros k' Hne. rewrite (khist_app k' _ _ _ Hh), (Hne0 k' _ Hne eq_refl). apply app_nil_r. }
  assert (khist k rl' = khist k rl ++ if b && (0 <? rpm k) then [now] else []) as Hkk.
  { rewrite (khist_app k _ _ _ Hh). f_equal. case_match; [|done].
    by rewrite filter_cons_True. }
  split; [done|by rewrite EM| | |].
  - intros k' a. destruct (decide (k' = k)) as [->|Hne].
    + rewrite Hkk. intros [Ha|Ha]%elem_of_app; [specialize (Hp k a Ha); lia|].
      case_match; [|by apply elem_of_nil in Ha]. apply list_elem_of_singleton in Ha. lia.
    + rewrite Hkh by done. intros Ha. specialize (Hp k' a Ha). lia.
  - intros k' c' Hr Hc'. rewrite EW. destruct (decide (k' = k)) as [->|Hne].
    + rewrite Hst, Hkk, (proj2 (Z.ltb_lt _ _) Hr), andb_true_r, !filter_app. f_equal.
      unfold live. rewrite list_filter_filter_l by (intros; lia). apply Hl; [done|lia].
    + rewrite (Hs' k' Hne), (Hkh k' Hne). apply Hl; [done|lia].
  - intros k' T Hr. rewrite EW. destruct (decide (k' = k)) as [->|Hne]; [|rewrite Hkh by done; auto].
    rewrite Hkk, (proj2 (Z.ltb_lt _ _) Hr), andb_true_r.
    destruct b; [|rewrite app_nil_r; auto].
    apply window_bound_snoc; [|..|auto].
    + intros a Ha. specialize (Hp k a Ha). lia.
    + rewrite <- (Hl k now Hr Hle). symmetry in Hdec. apply andb_true_iff in Hdec as [Hroom _].
      unfold rpm_room in Hroom. apply orb_true_iff in Hroom as [Hroom%Z.leb_le|Hroom]; [lia|].
      by apply Z.ltb_lt in Hroom.
Qed.

Lemma pump_loop_window k pnow clk t1 q :
  k ∈ U → (∀ i, clk i <= t1) → (∀ i, clk i <= clk (S i)) → ∀ i t rl,
  t <= clk i → window_inv t rl →
  (∀ id, id ∈ q → w_rpm (waiter_at rl id) = rpm k) →
  window_inv t1 (pump_loop iter k pnow clk i q rl).
Proof.
  intros Hk Hmax Hmono. induction q as [|h q IH]; intros i t rl Ht Hw Hq; simpl.
  { apply (window_inv_mono t); [specialize (Hmax i); lia|].
    by apply (window_inv_same t rl). }
  case_match.
  { apply (IH i t); [done| |intros id Hin; apply Hq; by right].
    by apply (window_inv_same t rl). }
  unfold tryAdmitLockedForWaiter. rewrite Hq by left.
  destruct (tryAdmitLocked _ _ _ _ _ rl) as [rl1 ok] eqn:Ha.
  assert (rl_waiters rl1 = rl_waiters rl) as Ew by (by apply tryAdmit_facts in Ha as (_&_&_&_&_&_&_&?&_)).
  apply (tryAdmit_window t) in Ha; [|done..].
  destruct ok; cbn.
  - apply (IH (S i) (clk i)); [apply Hmono|by apply (window_inv_same (clk i) rl1)|].
    intros id Hin. unfold grant, waiter_at; simpl.
    destruct (decide (id = h)) as [->|Hne].
    + rewrite lookup_insert_eq; simpl. rewrite Ew. apply Hq. left.
    + rewrite lookup_insert_ne, Ew by done. apply Hq. by right.
  - apply (window_inv_mono (clk i)); [done|]. case_match; [|done].
    destruct (schedule_facts k pnow rl1 _ eq_refl) as ([(? & ? & _) _] & _ & ? & _ & _ & _ & _ & ?).
    by apply (window_inv_same (clk i) rl1).
Qed.

Definition queue_rpm k (rl : limiter F) : Prop :=
  ∀ id, id ∈ queue rl k → w_rpm (waiter_at rl id) = rpm k.

Lemma key_inv_queue_rpm k h rl : key_inv k h rl → queue_rpm k rl.
Proof.
  intros Hik id (w & Hid & Hkw & _)%(proj2 (ki_queue _ _ _ Hik)).
  rewrite (waiter_at_Some _ _ _ Hid). apply (ki_conf _ _ _ Hik id w). by apply kwaiters_lookup.
Qed.

Lemma pump_window k t0 pnow clk t1 rl :
  k ∈ U → clock_ok t0 pnow clk t1 → queue_rpm k rl →
  window_inv t0 rl → window_inv t1 (pumpLocked iter k pnow clk rl).
Proof.
  intros Hk (H0 & Hc & Hm) Hik Hw. unfold pumpLocked.
  assert (t0 <= clk 0%nat) by (specialize (Hc 0%nat); lia).
  assert (∀ i, clk i <= t1) by (intros i; specialize (Hc i); lia).
  destruct (rl_queues rl !! k) as [q|] eqn:Hq.
  - apply (pump_loop_window k pnow clk t1 q Hk) with t0; try done.
    intros id Hin. apply Hik. unfold queue. by rewrite Hq.
  - apply (window_inv_mono t0); [|done]. specialize (Hc 0%nat). lia.
Qed.

Lemma park_window k rl rl' o h t pnow clk t' :
  sys_inv (Sys rl h t) → k ∈ U → clock_ok t pnow clk t' → window_inv t rl →
  acquire_park iter k (rpm k) (conc k) pnow clk rl = (rl', o) → window_inv t' rl'.
Proof.
  intros [_ Hk] HU Hclk Hw. destruct (Hk k) as [Hik _]. simpl in Hik. unfold acquire_park.
  set (rl1 := queueForLocked k rl).
  assert (window_inv t rl1 ∧ queue rl1 k = queue rl k ∧ rl_waiters rl1 = rl_waiters rl) as (Hw1 & Eq & Ew).
  { unfold rl1, queueForLocked. destruct (rl_queues rl !! k) eqn:E; [done|]. split_and!; [|..|done].
    - by apply (window_inv_same t rl).
    - rewrite queue_insert. unfold queue. by rewrite E. }
  case_match; intros [= <- _].
  { apply (window_inv_mono t); [|done]. destruct Hclk as (? & Hc & _). specialize (Hc 0%nat). lia. }
  apply (pump_window k t pnow clk t'); [done..| |by apply (window_inv_same t rl1)].
  intros id. unfold queue at 1; simpl. rewrite lookup_insert_eq; simpl.
  unfold waiter_at; simpl. destruct (decide (id = rl_next rl1)) as [->|Hne].
  - by rewrite lookup_insert_eq.
  - rewrite lookup_insert_ne by done. rewrite Eq, Ew.
    intros [Hin|Hin]%elem_of_app; [by apply (key_inv_queue_rpm _ _ _ Hik)|set_solver].
Qed.

Lemma giveup_window id w rl h t pnow clk t' :
  sys_inv (Sys rl h t) → w_key w ∈ U → clock_ok t pnow clk t' → window_inv t rl →
  rl_waiters rl !! id = Some w → window_inv t' (acquire_giveup iter id pnow clk rl).
Proof.
  intros [_ Hk] HU Hclk Hw Hid. destruct (Hk (w_key w)) as [Hik _]. simpl in Hik.
  unfold acquire_giveup. rewrite (waiter_at_Some _ _ _ Hid).
  destruct (giveup_mark_facts _ _ id w rl Hik Hid eq_refl) as (_ & Ew & _ & Eq & _).
  apply (pump_window _ t pnow clk t'); [done..| |].
  - intros id'. rewrite Eq. intros Hin. unfold waiter_at. rewrite Ew.
    pose proof (key_inv_queue_rpm _ _ _ Hik id' Hin) as Hr.
    destruct (decide (id' = id)) as [->|Hne].
    + rewrite lookup_insert_eq; simpl. by rewrite (waiter_at_Some _ _ _ Hid) in Hr.
    + by rewrite lookup_insert_ne.
  - unfold giveup_mark. repeat case_match; by apply (window_inv_same t rl).
Qed.

Lemma step_window s s' :
  step s s' → sys_inv s → window_inv (s_now s) (s_rl s) → window_inv (s_now s') (s_rl s').
Proof.
  intros Hstep Hinv Hw. destruct Hstep; simpl in *.
  - by eapply tryAdmit_window.
  - by eapply tryAdmit_window.
  - by eapply park_window.
  - by apply (window_inv_same t0 rl).
  - by eapply giveup_window.
  - destruct Hinv as [_ Hk]. destruct (Hk k) as [Hik _]. simpl in Hik.
    apply (pump_window k t0 pnow clk t1); [done..| |].
    + pose proof (key_inv_queue_rpm _ _ _ Hik) as Hq. by case_match.
    + case_match; by apply (window_inv_same t0 rl).
  - destruct Hinv as [_ Hk]. destruct (Hk k) as [Hik _]. simpl in Hik.
    apply (pump_window k t0 pnow clk t1); [done..| |by apply (window_inv_same t0 rl)].
    by apply (key_inv_queue_rpm _ _ _ Hik).
Qed.

Lemma reachable_window s :
  Z.of_nat (size U) < 10000 → reachable s → window_inv (s_now s) (s_rl s).
Proof.
  intros HU (s0 & Hi & Hr).
  assert (sys_inv s0 ∧ window_inv (s_now s0) (s_rl s0)) as [H1 H2].
  { split; [by apply initial_inv|]. destruct Hi as (w & t & ->). split; simpl; try done.
    - intros k a Ha. by apply elem_of_nil in Ha.
    - intros k T Hr0. unfold zlen; simpl. lia. }
  clear Hi. induction Hr; [done|]. apply IHHr; [by eapply step_inv|by eapply step_window].
Qed.
End System.

(** ** Properties of the limiter *)

(** C1. At most [conc k] requests of a key are ever in flight or about to be:
    in every reachable state the concurrency counter of a key is exactly the
    number of its requests that hold a slot plus the grants its parked requests
    have not picked up yet, and that sum never exceeds the key's cap; in
    particular no slot leaks through a time-out racing a grant. *)
Theorem concurrency_cap {F} iter rpm conc U (s : sys (F := F)) :
  (∀ k, conc k < 2 ^ 31) → reachable iter rpm conc U s →
  ∀ k, 0 < conc k →
    active (s_rl s) k = held k (s_hold s) + granted k (s_rl s) ∧
    held k (s_hold s) + granted k (s_rl s) <= conc k.
Proof.
  intros Hb Hr k Hk. destruct (reachable_inv iter rpm conc U Hb s Hr) as [_ Hi].
  destruct (Hi k) as [[Hc _ Hcap _ _] _].
  assert (pending_slots conc k (s_rl s) = granted k (s_rl s)) as Hp.
  { unfold pending_slots. by rewrite (proj2 (Z.ltb_lt _ _) Hk). }
  rewrite Hp in Hc. specialize (Hcap Hk). lia.
Qed.

(** C4. The RPM limit is a true sliding window while the keys in use are fewer than
    the 10000 of [maxKeys], so that no window is evicted: then, whatever the
    interleaving of admissions, queueing, releases, time-outs and timers, no interval
    of the window's length contains more than [rpm k] admissions of key [k]. With more
    keys an idle window can be evicted, and the bound is not claimed. *)
Theorem sliding_window_limit {F} iter rpm conc U (s : sys (F := F)) :
  (∀ k, conc k < 2 ^ 31) → Z.of_nat (size U) < 10000 → reachable iter rpm conc U s →
  ∀ k T, 0 < rpm k →
    zlen (in_window (rl_window (s_rl s)) T (khist k (s_rl s))) <= rpm k.
Proof.
  intros Hb HU Hr k T Hk. apply (wi_bound _ _ _ _ (reachable_window iter rpm conc U Hb s HU Hr)).
  exact Hk.
Qed.

(** C8. No parked request is forgotten: in every reachable state, a key with a
    non-empty queue has a window timer armed, or has a slot out (held by a
    request in flight, or granted and not yet picked up), so the pump of that
    key is bound to run again. *)
Theorem queue_never_stranded {F} iter rpm conc U (s : sys (F := F)) :
  (∀ k, conc k < 2 ^ 31) → reachable iter rpm conc U s →
  ∀ k, queue (s_rl s) k ≠ [] →
    is_Some (rl_timers (s_rl s) !! k) ∨ k ∈ s_hold s ∨ 0 < granted k (s_rl s).
Proof.
  intros Hb Hr k Hq. destruct (reachable_inv iter rpm conc U Hb s Hr) as [_ Hi].
  destruct (Hi k) as [[Hc Hh _ _ _] [Hu|[Hu|[H0 Hfull]]]]; [done|by left|].
  unfold pending_slots in Hc. rewrite (proj2 (Z.ltb_lt _ _) H0) in Hc.
  destruct (decide (held k (s_hold s) = 0)) as [E|E]; [right; right; lia|].
  right; left. unfold held in E. destruct (filter _ _) as [|x l] eqn:Ef; [done|].
  assert (x ∈ filter (λ x, x = k) (s_hold s)) as Hx by (rewrite Ef; left).
  by apply list_elem_of_filter in Hx as [-> ?].
Qed.

(** Strict FIFO service: in a reachable state a pump of key [k] removes a
    prefix of the queue, hands a grant to exactly the requests of that prefix
    that are still waiting, changes no other waiter, and stops at a request that
    is still waiting; nobody overtakes the head. *)
Theorem pump_is_fifo {F} iter rpm conc U (s : sys (F := F)) k pnow clk :
  (∀ k, conc k < 2 ^ 31) → reachable iter rpm conc U s →
  pump_outcome (queue (s_rl s) k) (s_rl s) (pumpLocked iter k pnow clk (s_rl s)) k.
Proof.
  intros Hb Hr. destruct (reachable_inv iter rpm conc U Hb s Hr) as [_ Hi].
  destruct (Hi k) as [Hk _]. pose proof (ki_queue _ _ _ _ _ Hk) as Hq.
  unfold pumpLocked, queue in *. destruct (rl_queues (s_rl s) !! k) as [q|] eqn:E; simpl in *.
  - by apply pump_loop_fifo.
  - exists 0%nat. unfold queue. rewrite E. split_and!; try done. intros id Hin. by apply elem_of_nil in Hin.
Qed.

(** Admission is all-or-nothing and exact: a request is admitted iff both
    axes have room; an admitted request is charged one stamp (when RPM-limited)
    and one slot (when capped), a refused one is charged neither: the history
    and the counter are unchanged and its window only loses expired stamps. *)
Theorem tryAdmit_all_or_nothing {F} iter k rpm conc now (rl rl' : limiter F) b :
  tryAdmitLocked iter k rpm conc now rl = (rl', b) →
  (b = true ↔ (rpm <= 0 ∨ zlen (live rl k now) < rpm) ∧ (conc <= 0 ∨ active rl k < int32 conc)) ∧
  (b = true → rl_hist rl' = rl_hist rl ++ (if 0 <? rpm then [(k, now)] else []) ∧
     active rl' k = (if 0 <? conc then int32 (active rl k + 1) else active rl k)) ∧
  (b = false → rl_hist rl' = rl_hist rl ∧ active rl' k = active rl k ∧
     live rl' k now = live rl k now).
Proof.
  intros Ht. apply tryAdmit_facts in Ht as ([(Ew & _) _] & Hb & Ha & Hs & Hh & _).
  split_and!.
  - rewrite Hb, andb_true_iff. unfold rpm_room, conc_room.
    rewrite !orb_true_iff, !Z.leb_le, !Z.ltb_lt. done.
  - intros ->. cbn in *. done.
  - intros ->. cbn in *. rewrite app_nil_r in Hh. split_and!; [done..|].
    unfold live. rewrite Ew, Hs. case_match; [|done]. rewrite app_nil_r.
    unfold live. by rewrite list_filter_filter_l.
Qed.

(** Eviction never touches a key in use: the key being admitted, a key that
    holds a concurrency slot and a key with parked requests keep every entry
    they have, whatever order the map is visited in. *)
Theorem eviction_spares_keys_in_use {F} iter keep now (rl : limiter F) k :
  k = keep ∨ keyBusy rl k = true ∨ has_waiters rl k = true →
  view (evictIfNeededLocked iter keep now rl) k = view rl k.
Proof.
  intros Hk. destruct (evictIfNeeded_rel iter keep now rl) as (_ & _ & _ & _ & Hkeep & Hall).
  destruct Hk as [->|Hk]; [done|]. destruct (Hall k) as [|[[Hb Hw] _]]; [done|].
  rewrite Hb, Hw in Hk. by destruct Hk.
Qed.

(** *** Witnesses *)

Module Demo.
Definition iter (_ : Z) (_ : gmap string (list Z)) : list string := [].
Definition key : string := "k".
Definition rpm (_ : string) : Z := 2.
Definition conc (_ : string) : Z := 1.
Definition U : gset string := {[ key ]}.
Definition clk (t : Z) (_ : nat) : Z := t.

(** One request in flight, a second one parked behind it. *)
Definition rl0 : limiter unit := NewRateLimiter Minute.
Definition rl1 := (tryAdmitLocked iter key 2 1 5 rl0).1.
Definition rl2 := (acquire_park iter key 2 1 6 (clk 6) rl1).1.
Definition state : sys := Sys rl2 [key] 6.

Lemma conc_ok k : conc k < 2 ^ 31.
Proof. done. Qed.

Lemma clk_ok t0 t : t0 <= t → clock_ok t0 t (clk t) t.
Proof. intros H. split_and!; unfold clk; intros; lia. Qed.

Lemma state_reachable : reachable iter rpm conc U state.
Proof.
  exists (Sys rl0 [] 0). split; [by exists Minute, 0|].
  eapply rtc_l; [apply (step_admit iter rpm conc U key rl0 rl1 [] 0 5)|].
  - by apply elem_of_singleton.
  - done.
  - vm_compute. reflexivity.
  - apply rtc_once.
    apply (step_park iter rpm conc U key rl1 rl2 (Some 0%nat) [key] 5 6 (clk 6) 6).
    + by apply elem_of_singleton.
    + by apply clk_ok.
    + vm_compute. reflexivity.
Qed.
End Demo.

Lemma concurrency_cap_witness :
  active (s_rl Demo.state) Demo.key = 1 ∧
  held Demo.key (s_hold Demo.state) + granted Demo.key (s_rl Demo.state) <= 1.
Proof.
  destruct (concurrency_cap Demo.iter Demo.rpm Demo.conc Demo.U Demo.state
    Demo.conc_ok Demo.state_reachable Demo.key eq_refl) as [H1 H2].
  split; [vm_compute; reflexivity|exact H2].
Defined.

Lemma sliding_window_limit_witness :
  zlen (in_window (rl_window (s_rl Demo.state)) 100 (khist Demo.key (s_rl Demo.state))) <=
    Demo.rpm Demo.key.
Proof.
  exact (sliding_window_limit Demo.iter Demo.rpm Demo.conc Demo.U Demo.state
    Demo.conc_ok ltac:(vm_compute; reflexivity) Demo.state_reachable Demo.key 100 eq_refl).
Defined.

Lemma queue_never_stranded_witness :
  queue (s_rl Demo.state) Demo.key = [0%nat] ∧
  (is_Some (rl_timers (s_rl Demo.state) !! Demo.key) ∨ Demo.key ∈ s_hold Demo.state ∨
   0 < granted Demo.key (s_rl Demo.state)).
Proof.
  split; [vm_compute; reflexivity|].
  apply (queue_never_stranded Demo.iter Demo.rpm Demo.conc Demo.U Demo.state
    Demo.conc_ok Demo.state_reachable Demo.key).
  vm_compute. discriminate.
Defined.

Lemma pump_is_fifo_witness :
  pump_outcome (queue (s_rl Demo.state) Demo.key) (s_rl Demo.state)
    (pumpLocked Demo.iter Demo.key 7 (Demo.clk 7) (s_rl Demo.state)) Demo.key.
Proof.
  exact (pump_is_fifo Demo.iter Demo.rpm Demo.conc Demo.U Demo.state Demo.key 7 (Demo.clk 7)
    Demo.conc_ok Demo.state_reachable).
Defined.

Lemma tryAdmit_all_or_nothing_witness :
  rl_hist (tryAdmitLocked Demo.iter Demo.key 2 1 9 Demo.rl1).1 = rl_hist Demo.rl1.
Proof.
  destruct (tryAdmit_all_or_nothing Demo.iter Demo.key 2 1 9 Demo.rl1
    (tryAdmitLocked Demo.iter Demo.key 2 1 9 Demo.rl1).1 false) as (_ & _ & H).
  - vm_compute. reflexivity.
  - by apply H.
Defined.

Lemma eviction_spares_keys_in_use_witness :
  let rl := set_maxKeys 1 Demo.rl1 in
  view (evictIfNeededLocked (λ _ _, [Demo.key; "other"%string]) "other"%string 9 rl) Demo.key =
  view rl Demo.key.
Proof.
  intros rl. apply eviction_spares_keys_in_use. right; left. vm_compute. reflexivity.
Defined.
