(* ===== verification/GoRegexp.v ===== *)
(** * Regular expressions as [regexp] matches them

    The part of Go's [regexp] package the detectors use: leftmost-first
    (Perl-like) matching of a pattern, and [FindAllStringIndex].  Patterns are
    abstract syntax; matching is a backtracking search in priority order, which
    returns the match the package documents.  Positions are byte offsets.

    Characters are matched bytewise.  That agrees with the package's
    rune-by-rune matching for every pattern built from ASCII literals and
    positive ASCII classes; under [(?i)] the two non-ASCII characters that fold
    to ASCII letters (U+212A to k, U+017F to s) are added by [fold_class]. *)

From S2P Require Import Prelude.

Inductive re :=
| REps                             (* the empty string *)
| RClass (f : ascii → bool)        (* one byte of a class *)
| RNotIn (f : ascii → bool)        (* one rune outside an ASCII class *)
| RSeq (r1 r2 : re)
| RAlt (r1 r2 : re)                (* r1 preferred *)
| RStar (r : re)                   (* greedy *)
| RWordB                           (* \b *)
| RBegin.                          (* \A *)

(** The width of the rune at the front of a string: [utf8.DecodeRune], which
    takes an invalid byte as a rune of width one. *)
Definition in_range (lo hi : Z) (c : ascii) : bool := (lo <=? zb c) && (zb c <=? hi).
Definition is_cont : ascii → bool := in_range 128 191.

Definition rune_width (s : bytes) : nat :=
  match s with
  | [] => 0%nat
  | b0 :: t =>
      let n := zb b0 in
      let second := if n =? 224 then in_range 160 191
                    else if n =? 237 then in_range 128 159
                    else if n =? 240 then in_range 144 191
                    else if n =? 244 then in_range 128 143
                    else is_cont in
      if n <? 194 then 1%nat
      else if n <? 224 then match t with b1 :: _ => if is_cont b1 then 2%nat else 1%nat | _ => 1%nat end
      else if n <? 240 then
        match t with
        | b1 :: b2 :: _ => if second b1 && is_cont b2 then 3%nat else 1%nat
        | _ => 1%nat
        end
      else if n <? 245 then
        match t with
        | b1 :: b2 :: b3 :: _ => if second b1 && is_cont b2 && is_cont b3 then 4%nat else 1%nat
        | _ => 1%nat
        end
      else 1%nat
  end.

(** ASCII word characters, for [\b]. *)
Definition is_alpha (c : ascii) : bool :=
  let n := zb c in ((65 <=? n) && (n <=? 90)) || ((97 <=? n) && (n <=? 122)).
Definition is_word (c : ascii) : bool := is_alpha c || is_digit c || (zb c =? 95).

Definition word_at (o : option ascii) : bool := from_option is_word false o.

(** [rmatch r prev s k]: match [r] at the front of [s], whose preceding byte is
    [prev], then run the continuation on what is left.  A star iteration must
    consume input, so [length s] bounds the iterations. *)
Fixpoint rmatch {A} (r : re) (prev : option ascii) (s : bytes)
    (k : option ascii → bytes → option A) {struct r} : option A :=
  match r with
  | REps => k prev s
  | RClass f =>
      match s with
      | c :: s' => if f c then k (Some c) s' else None
      | [] => None
      end
  | RNotIn f =>
      match s with
      | c :: _ =>
          if (zb c <? 128) && f c then None
          else let w := rune_width s in k (s !! (w - 1)%nat) (drop w s)
      | [] => None
      end
  | RSeq r1 r2 => rmatch r1 prev s (λ p t, rmatch r2 p t k)
  | RAlt r1 r2 =>
      match rmatch r1 prev s k with
      | Some x => Some x
      | None => rmatch r2 prev s k
      end
  | RStar r1 =>
      (fix star (n : nat) (prev : option ascii) (s : bytes) {struct n} : option A :=
         match n with
         | O => k prev s
         | S n' =>
             match rmatch r1 prev s (λ p t,
                     if (length t <? length s)%nat then star n' p t else None) with
             | Some x => Some x
             | None => k prev s
             end
         end) (length s) prev s
  | RWordB => if xorb (word_at prev) (word_at (head s)) then k prev s else None
  | RBegin => match prev with None => k prev s | Some _ => None end
  end.

(** The length of the match at the front of [s]. *)
Definition match_len (r : re) (prev : option ascii) (s : bytes) : option nat :=
  rmatch r prev s (λ _ t, Some (length s - length t)%nat).

(** The byte before position [n] of [s], [prev] when [n = 0]. *)
Definition prev_after (prev : option ascii) (s : bytes) (n : nat) : option ascii :=
  match n with
  | O => prev
  | S m => s !! m
  end.

(** [re.FindAllStringIndex(text, -1)]: successive non-overlapping matches; an
    empty match is dropped here, none of the patterns below has one. *)
Fixpoint find_all_from (fuel : nat) (r : re) (prev : option ascii) (off : nat) (s : bytes)
    : list (nat * nat) :=
  match fuel with
  | O => []
  | S fuel' =>
      match match_len r prev s with
      | Some (S n) =>
          (off, off + S n)%nat ::
          find_all_from fuel' r (prev_after prev s (S n)) (off + S n) (drop (S n) s)
      | _ =>
          match s with
          | [] => []
          | c :: s' => find_all_from fuel' r (Some c) (S off) s'
          end
      end
  end.

Definition find_all (r : re) (text : bytes) : list (nat * nat) :=
  find_all_from (S (length text)) r None 0 text.

(** ** Pattern combinators *)

Fixpoint rseq (rs : list re) : re :=
  match rs with
  | [] => REps
  | [r] => r
  | r :: rs' => RSeq r (rseq rs')
  end.

Fixpoint ralt (r : re) (rs : list re) : re :=
  match rs with
  | [] => r
  | r' :: rs' => RAlt r (ralt r' rs')
  end.

Definition ropt (r : re) : re := RAlt r REps.
Definition rplus (r : re) : re := RSeq r (RStar r).

(** [r{lo,hi}], greedy. *)
Fixpoint rupto (n : nat) (r : re) : re :=
  match n with
  | O => REps
  | S n' => ropt (RSeq r (rupto n' r))
  end.
Fixpoint rtimes (n : nat) (r : re) : re :=
  match n with
  | O => REps
  | S n' => RSeq r (rtimes n' r)
  end.
Definition rrange (lo hi : nat) (r : re) : re := RSeq (rtimes lo r) (rupto (hi - lo) r).

Definition rchar (c : ascii) : re := RClass (λ x, bool_decide (x = c)).
Definition rlit (s : string) : re := rseq (rchar <$> B s).
Definition rrun (lo hi : Z) : ascii → bool := λ c, (lo <=? zb c) && (zb c <=? hi).

(** A class or literal under [(?i)]: ASCII letters in both cases, plus the two
    non-ASCII characters that fold to [k] and [s]. *)
Definition ascii_lower (c : ascii) : ascii :=
  if (65 <=? zb c) && (zb c <=? 90) then bz (zb c + 32) else c.
Definition kelvin : bytes := [bz 226; bz 132; bz 170].
Definition long_s : bytes := [bz 197; bz 191].
Definition fold_class (f : ascii → bool) : re :=
  ralt (RClass (λ c, f (ascii_lower c)))
    ((if f "k"%char then [rseq (rchar <$> kelvin)] else []) ++
     (if f "s"%char then [rseq (rchar <$> long_s)] else [])).
Definition fold_lit (s : string) : re :=
  rseq ((λ c, fold_class (λ x, bool_decide (x = ascii_lower c))) <$> B s).

(** ** What a search returns

    Every reported match is non-empty, lies in the text, and starts where the
    previous ones have ended. *)

Lemma rmatch_cont (r : re) : ∀ A (k : option ascii → bytes → option A) p t x,
  rmatch r p t k = Some x → ∃ p' t', k p' t' = Some x.
Proof.
  induction r as [|f|f|r1 IH1 r2 IH2|r1 IH1 r2 IH2|r IH| |]; intros A k p t x; simpl.
  - eauto.
  - destruct t; [done|]. case_match; [eauto|done].
  - destruct t; [done|]. case_match; [done|eauto].
  - intros (p' & t' & H)%IH1. by apply IH2 in H.
  - destruct (rmatch r1 p t k) eqn:E; [intros [= <-]; eauto|eauto].
  - generalize (length t). intros n. revert p t. induction n as [|n IHn]; intros p t; [eauto|].
    destruct (rmatch r p t _) eqn:E; [|eauto]. intros [= <-].
    apply IH in E as (p' & t' & E). case_match; [eauto|done].
  - case_match; [eauto|done].
  - case_match; [done|eauto].
Qed.

Lemma find_all_from_sorted fuel r : ∀ prev off s,
  Forall (λ p, off <= p.1 < p.2 ∧ p.2 <= off + length s)%nat (find_all_from fuel r prev off s) ∧
  StronglySorted (λ p q, p.2 <= q.1)%nat (find_all_from fuel r prev off s).
Proof.
  induction fuel as [|fuel IH]; intros prev off s; simpl; [split; constructor|].
  destruct (match_len r prev s) as [[|n]|] eqn:Hm.
  1,3: destruct s as [|c s]; [split; constructor|]; destruct (IH (Some c) (S off) s) as [H1 H2];
    split; [|done]; eapply Forall_impl; [exact H1|]; simpl; lia.
  destruct (IH (prev_after prev s (S n)) (off + S n)%nat (drop (S n) s)) as [H1 H2].
  assert (S n <= length s)%nat as Hlen.
  { unfold match_len in Hm.
    destruct (rmatch_cont _ _ _ _ _ _ Hm) as (p' & t' & [= E]). lia. }
  rewrite length_drop in H1. split.
  - constructor; [simpl; lia|]. eapply Forall_impl; [exact H1|]. simpl. lia.
  - constructor; [done|]. eapply Forall_impl; [exact H1|]. simpl. lia.
Qed.

Lemma find_all_bounds r text p :
  p ∈ find_all r text → (p.1 < p.2 <= length text)%nat.
Proof.
  intros Hp. destruct (find_all_from_sorted (S (length text)) r None 0 text) as [H _].
  rewrite Forall_forall in H. specialize (H p Hp). lia.
Qed.
