(* ===== verification/Detectors.v ===== *)
(** * Guardrail detectors ([internal/guardrails/detectors.go], [types.go])

    The compiled patterns, the validators that separate identifiers from
    look-alikes (Luhn, IBAN mod 97, public IPv4), the scan of one text by a
    detector set and the masking of its findings. *)

From S2P Require Import Prelude GoRegexp.

(** ** Types *)

Inductive Severity := SeverityLow | SeverityMedium | SeverityHigh.

(** A match: byte offsets into the scanned text and its replacement. *)
Record Finding := mkFinding {
  f_detector : string;
  f_entity : string;
  f_start : nat;
  f_end : nat;
  f_severity : Severity;
  f_redacted : bytes
}.

Record detector := mkDetector {
  d_name : string;
  d_re : re;
  d_entity : string;
  d_severity : Severity;
  d_validate : option (bytes → bool)
}.

Definition redactMask : bytes := B "[REDACTED]".

(** ** Validators *)

Definition digit_val (c : ascii) : Z := zb c - 48.

(** One step of the right-to-left scan: the running sum, the number of digits
    and whether the next digit is doubled. *)
Definition luhn_step (st : Z * Z * bool) (c : ascii) : Z * Z * bool :=
  let '(sum, digits, double) := st in
  if negb (is_digit c) then st
  else
    let n := digit_val c in
    let n := if double : bool then let d := n * 2 in if 9 <? d then d - 9 else d else n in
    (sum + n, digits + 1, negb double).

Definition luhn (s : bytes) : bool :=
  let '(sum, digits, _) := foldl luhn_step (0, 0, false) (rev s) in
  if digits <? 12 then false else sum mod 10 =? 0.

(** [None]: a character that cannot occur in an IBAN. *)
Definition iban_step (sum : Z) (c : ascii) : option Z :=
  if is_digit c then Some ((sum * 10 + digit_val c) mod 97)
  else if (65 <=? zb c) && (zb c <=? 90) then Some ((sum * 100 + (zb c - 65 + 10)) mod 97)
  else None.

Fixpoint iban_loop (sum : Z) (s : bytes) : option Z :=
  match s with
  | [] => Some sum
  | c :: s' => match iban_step sum c with Some sum' => iban_loop sum' s' | None => None end
  end.

(** Slicing [s[4:]] needs four characters; the pattern supplies at least 15. *)
Definition validIBAN (s : bytes) : bool :=
  match iban_loop 0 (drop 4 s ++ take 4 s) with
  | Some sum => sum =? 1
  | None => false
  end.

(** One dotted part: its value, or [None] when it is not a decimal octet. *)
Fixpoint octet_loop (n : Z) (s : bytes) : option Z :=
  match s with
  | [] => Some n
  | c :: s' => if is_digit c then octet_loop (int64 (n * 10 + digit_val c)) s' else None
  end.

Definition octet (part : bytes) : option Z :=
  match part with
  | [] => None
  | _ => match octet_loop 0 part with
         | Some n => if 255 <? n then None else Some n
         | None => None
         end
  end.

(** The array filled by the loop; unset entries stay 0, a fifth part fails. *)
Fixpoint octets_loop (i : nat) (parts : list bytes) (acc : list Z) : option (list Z) :=
  match parts with
  | [] => Some acc
  | p :: ps =>
      if (4 <=? i)%nat then None
      else match octet p with
           | Some n => octets_loop (S i) ps (<[i := n]> acc)
           | None => None
           end
  end.

Definition isPublicIPv4 (s : bytes) : bool :=
  match octets_loop 0 (split_on "."%char s) [0; 0; 0; 0] with
  | Some [o0; o1; _; _] =>
      if (o0 =? 0) || (o0 =? 10) then false
      else if o0 =? 127 then false
      else if (o0 =? 169) && (o1 =? 254) then false
      else if (o0 =? 172) && (16 <=? o1) && (o1 <=? 31) then false
      else if (o0 =? 192) && (o1 =? 168) then false
      else if 224 <=? o0 then false
      else true
  | _ => false
  end.

(** ** Patterns *)

Definition rdigit : re := RClass is_digit.
Definition lower : ascii → bool := rrun 97 122.
Definition upper : ascii → bool := rrun 65 90.
Definition one_of (s : string) : ascii → bool := λ c, bool_decide (c ∈ B s).
(** [\s] *)
Definition rspace : re := RClass (one_of (String.string_of_list_ascii
  [ch_lf; ch_cr; bz 9; bz 12; bz 32])).

Definition emailRe : re :=
  rseq [RWordB;
    rplus (fold_class (λ c, lower c || is_digit c || one_of "._%+-" c));
    rchar "@"%char;
    rplus (fold_class (λ c, lower c || is_digit c || one_of ".-" c));
    rchar "."%char;
    ralt (fold_lit "com") (fold_lit <$> ["net"; "org"; "io"; "ai"; "co"; "dev"; "id"; "jp";
      "de"; "uk"; "us"; "nl"; "fr"; "br"; "in"; "ca"; "au"; "sg"; "my"]%string);
    RWordB].

Definition octetRe : re :=
  ralt (rseq [rlit "25"; RClass (rrun 48 53)])
    [rseq [rlit "2"; RClass (rrun 48 52); rdigit];
     rseq [rlit "1"; rdigit; rdigit];
     rseq [ropt (RClass (rrun 49 57)); rdigit]].

Definition ipv4Re : re :=
  rseq [RWordB; rtimes 3 (RSeq octetRe (rchar "."%char)); octetRe; RWordB].

Definition nikRe : re := rseq [RWordB; rtimes 16 rdigit; RWordB].
Definition cardRe : re :=
  rseq [RWordB; rrange 13 19 (RSeq rdigit (ropt (RClass (one_of " -")))); RWordB].
Definition ibanRe : re :=
  rseq [RWordB; rtimes 2 (RClass upper); rtimes 2 rdigit;
        rrange 11 30 (RClass (λ c, upper c || is_digit c)); RWordB].

(** Injection patterns: [[^.\n]{0,n}] is a run of runes. *)
Definition gap (n : nat) : re := rrange 0 n (RNotIn (λ c, bool_decide (c = "."%char) || bool_decide (c = ch_lf))).
Definition fold_words (w : string) (ws : list string) : re := ralt (fold_lit w) (fold_lit <$> ws).
Definition word_b (r : re) : re := rseq [RWordB; r; RWordB].

Definition ignorePreviousRe : re :=
  rseq [word_b (fold_words "ignore" ["disregard"; "forget"; "override"]%string); gap 40;
        word_b (fold_words "previous" ["prior"; "earlier"; "above"; "preceding"; "all"]%string);
        gap 40;
        word_b (fold_words "instruction" ["instructions"; "prompt"; "prompts"; "rule"; "rules";
          "direction"; "directions"; "context"]%string)].

Definition roleOverrideRe : re :=
  ralt (rseq [RWordB; fold_lit "you"; rplus rspace; fold_lit "are"; rplus rspace;
              RAlt (fold_lit "now") (rseq [fold_lit "no"; rplus rspace; fold_lit "longer"]); RWordB])
    [rseq [RWordB; fold_lit "act"; rplus rspace; fold_lit "as"; rplus rspace;
       ralt (rseq [fold_lit "if"; rplus rspace; fold_lit "you"; rplus rspace;
                   RAlt (fold_lit "are") (fold_lit "were")])
         [rseq [fold_lit "a"; rplus rspace; RAlt (fold_lit "different") (fold_lit "new")];
          fold_lit "without"]; RWordB];
     rseq [RWordB; fold_lit "system"; RStar rspace; fold_lit "prompt"; RStar rspace;
           RAlt (fold_lit "override") (fold_lit "replacement"); RWordB]].

Definition danRe : re :=
  word_b (ralt (fold_lit "DAN")
    [rseq [fold_lit "do"; rplus rspace; fold_lit "anything"; rplus rspace; fold_lit "now"];
     rseq [fold_lit "developer"; rplus rspace; fold_lit "mode"];
     fold_lit "jailbreak";
     rseq [fold_lit "unfiltered"; rplus rspace; fold_lit "mode"]]).

Definition systemLeakRe : re :=
  rseq [word_b (fold_words "repeat" ["print"; "output"; "show"; "reveal"; "display"; "echo"]%string);
        gap 40; RWordB; ropt (rseq [fold_lit "your"; rplus rspace]);
        fold_words "initial" ["system"; "original"]%string; rplus rspace;
        fold_words "instruction" ["instructions"; "prompt"; "prompts"]%string; RWordB].

Definition safetyBypassRe : re :=
  rseq [ralt RBegin
          [RSeq (RClass (one_of ".!?;")) (RStar rspace);
           rseq [RWordB; fold_words "please" ["now"; "then"]%string; rplus rspace]];
        word_b (ralt (fold_lit "bypass")
          [fold_lit "disable"; rseq [fold_lit "turn"; rplus rspace; fold_lit "off"];
           fold_lit "circumvent"; fold_lit "remove"]);
        gap 30;
        word_b (ralt (fold_lit "safety")
          [fold_lit "filter"; fold_lit "filters"; fold_lit "guardrail"; fold_lit "guardrails";
           fold_lit "restriction"; fold_lit "restrictions";
           rseq [fold_lit "content"; rplus rspace; fold_lit "polic"; RStar (fold_class (λ c, lower c || is_digit c || (zb c =? 95)))];
           fold_lit "moderation"])].

Definition piiDetectors : list detector :=
  [ mkDetector "email" emailRe "EMAIL_ADDRESS" SeverityMedium None;
    mkDetector "ipv4" ipv4Re "IP_ADDRESS" SeverityLow (Some isPublicIPv4);
    mkDetector "id_nik" nikRe "ID_NIK" SeverityHigh (Some luhn);
    mkDetector "credit_card" cardRe "CREDIT_CARD" SeverityHigh (Some luhn);
    mkDetector "iban" ibanRe "IBAN" SeverityHigh (Some validIBAN) ].

Definition injectionDetectors : list detector :=
  [ mkDetector "ignore_previous" ignorePreviousRe "PROMPT_INJECTION" SeverityHigh None;
    mkDetector "role_override" roleOverrideRe "PROMPT_INJECTION" SeverityMedium None;
    mkDetector "jailbreak_dan" danRe "JAILBREAK" SeverityHigh None;
    mkDetector "system_leak" systemLeakRe "SYSTEM_PROMPT_LEAK" SeverityHigh None;
    mkDetector "safety_bypass" safetyBypassRe "SAFETY_BYPASS" SeverityHigh None ].

(** ** Scanning and masking *)

Definition slice (from to : nat) (s : bytes) : bytes := take (to - from) (drop from s).

Definition accepts (d : detector) (text : bytes) (loc : nat * nat) : bool :=
  match d_validate d with
  | Some v => v (slice loc.1 loc.2 text)
  | None => true
  end.

Definition run_one (d : detector) (text : bytes) : list Finding :=
  (λ loc, mkFinding (d_name d) (d_entity d) loc.1 loc.2 (d_severity d) redactMask) <$>
    filter (λ loc, accepts d text loc = true) (find_all (d_re d) text).

Definition run (ds : list detector) (text : bytes) : list Finding :=
  concat ((λ d, run_one d text) <$> ds).

(** The insertion sort: [x] moves left past the entries that start later; the
    sorted prefix is kept last entry first. *)
Fixpoint sift (x : Finding) (rsorted : list Finding) : list Finding :=
  match rsorted with
  | [] => [x]
  | y :: t => if (f_start x <? f_start y)%nat then y :: sift x t else x :: y :: t
  end.

Definition sort_findings (fs : list Finding) : list Finding :=
  rev (foldl (λ acc x, sift x acc) [] fs).

Fixpoint mask_loop (text : bytes) (cursor : nat) (fs : list Finding) : bytes :=
  match fs with
  | [] => drop cursor text
  | f :: fs' =>
      if (f_start f <? cursor)%nat || (length text <? f_end f)%nat || (f_end f <=? f_start f)%nat
      then mask_loop text cursor fs'
      else slice cursor (f_start f) text ++ f_redacted f ++ mask_loop text (f_end f) fs'
  end.

Definition maskFindings (text : bytes) (findings : list Finding) : bytes :=
  match findings with
  | [] => text
  | _ => mask_loop text 0 (sort_findings findings)
  end.

(** ** Luhn *)

(** The digits from the right, and what each contributes: a doubled digit
    counts as the sum of the digits of its double. *)
Definition rdigits (s : bytes) : list Z := digit_val <$> filter (λ c, is_digit c = true) (rev s).
Definition luhn_weight (double : bool) (d : Z) : Z :=
  if double then (2 * d) / 10 + (2 * d) mod 10 else d.
Fixpoint luhn_sum (double : bool) (ds : list Z) : Z :=
  match ds with
  | [] => 0
  | d :: ds' => luhn_weight double d + luhn_sum (negb double) ds'
  end.

Lemma digit_val_range c : is_digit c = true → 0 <= digit_val c <= 9.
Proof. unfold is_digit, digit_val. lia. Qed.

Lemma luhn_weight_code d : 0 <= d <= 9 →
  (if 9 <? d * 2 then d * 2 - 9 else d * 2) = luhn_weight true d.
Proof.
  intros Hd. unfold luhn_weight.
  assert (d = 0 ∨ d = 1 ∨ d = 2 ∨ d = 3 ∨ d = 4 ∨ d = 5 ∨ d = 6 ∨ d = 7 ∨ d = 8 ∨ d = 9) as H by lia.
  by repeat (destruct H as [->|H]; [done|]); subst.
Qed.

Lemma luhn_fold l : ∀ sum digits double,
  foldl luhn_step (sum, digits, double) l =
  (let ds := digit_val <$> filter (λ c, is_digit c = true) l in
   (sum + luhn_sum double ds, digits + zlen ds, xorb double (Nat.odd (length ds)))).
Proof.
  induction l as [|c l IH]; intros sum digits double; cbn [foldl].
  { simpl. unfold zlen; simpl. by rewrite !Z.add_0_r, xorb_false_r. }
  unfold luhn_step at 2. destruct (is_digit c) eqn:Hc; cbn [negb].
  - rewrite filter_cons_True by done. rewrite IH. cbn -[Z.mul Z.ltb].
    unfold zlen; cbn [length]. rewrite Nat.odd_succ, <- Nat.negb_odd.
    pose proof (luhn_weight_code _ (digit_val_range c Hc)) as E.
    f_equal; [f_equal|].
    + destruct double; [rewrite E|]; simpl luhn_weight; lia.
    + lia.
    + destruct double; simpl; by destruct (Nat.odd _).
  - rewrite filter_cons_False by congruence. apply IH.
Qed.

Lemma luhn_ref s :
  luhn s = (12 <=? zlen (rdigits s)) && (luhn_sum false (rdigits s) mod 10 =? 0).
Proof.
  unfold luhn. rewrite luhn_fold. fold (rdigits s). cbn zeta.
  rewrite !Z.add_0_l. case (Z.ltb_spec (zlen (rdigits s)) 12); intros H.
  - by rewrite (proj2 (Z.leb_gt _ _) H).
  - by rewrite (proj2 (Z.leb_le _ _) H).
Qed.

Lemma luhn_weight_inj double d d' : 0 <= d <= 9 → 0 <= d' <= 9 →
  (luhn_weight double d - luhn_weight double d') mod 10 = 0 → d = d'.
Proof.
  intros Hd Hd'.
  assert (∀ x, 0 <= x <= 9 → x = 0 ∨ x = 1 ∨ x = 2 ∨ x = 3 ∨ x = 4 ∨ x = 5 ∨ x = 6 ∨ x = 7 ∨ x = 8 ∨ x = 9)
    as Hin by lia.
  apply Hin in Hd, Hd'. clear Hin. destruct_or!; subst; by destruct double.
Qed.

Lemma luhn_sum_app l k double :
  luhn_sum double (l ++ k) = luhn_sum double l + luhn_sum (xorb double (Nat.odd (length l))) k.
Proof.
  revert double. induction l as [|d l IH]; intros double; cbn [app luhn_sum length].
  - by rewrite xorb_false_r.
  - rewrite IH, Nat.odd_succ, <- Nat.negb_odd. rewrite Z.add_assoc. do 2 f_equal.
    destruct double; simpl; by destruct (Nat.odd _).
Qed.

Lemma rdigits_split a c b : is_digit c = true →
  rdigits (a ++ c :: b) = rdigits b ++ digit_val c :: rdigits a.
Proof.
  intros Hc. unfold rdigits. rewrite rev_app_distr. cbn [rev].
  rewrite !filter_app, !fmap_app, filter_cons_True, filter_nil by done.
  by rewrite <- app_assoc.
Qed.

(** ** IBAN *)

Definition iban_char (c : ascii) : bool := is_digit c || ((65 <=? zb c) && (zb c <=? 90)).
(** The decimal number an IBAN spells, letters standing for 10..35. *)
Definition iban_append (v : Z) (c : ascii) : Z :=
  if is_digit c then v * 10 + digit_val c else v * 100 + (zb c - 55).
Definition iban_value (s : bytes) : Z := foldl iban_append 0 s.

Lemma iban_loop_spec s : ∀ v sum, sum = v mod 97 →
  iban_loop sum s = if forallb iban_char s then Some (foldl iban_append v s mod 97) else None.
Proof.
  induction s as [|c s IH]; intros v sum ->; cbn [iban_loop forallb foldl]; [done|].
  unfold iban_step, iban_char. destruct (is_digit c) eqn:Hd; cbn [orb andb].
  - apply IH. unfold iban_append. rewrite Hd.
    rewrite <- (Z.add_mod_idemp_l (v * 10)), <- (Z.mul_mod_idemp_l v), Z.add_mod_idemp_l by done. done.
  - destruct ((65 <=? zb c) && (zb c <=? 90)); cbn [andb]; [|done].
    apply IH. unfold iban_append. rewrite Hd.
    replace (zb c - 65 + 10) with (zb c - 55) by lia.
    rewrite <- (Z.add_mod_idemp_l (v * 100)), <- (Z.mul_mod_idemp_l v), Z.add_mod_idemp_l by done. done.
Qed.

(** ** Masking *)

(** The text with the spans of [ks], in order, replaced by their redactions. *)
Fixpoint render (text : bytes) (cursor : nat) (ks : list Finding) : bytes :=
  match ks with
  | [] => drop cursor text
  | f :: ks' => slice cursor (f_start f) text ++ f_redacted f ++ render text (f_end f) ks'
  end.

Definition in_text (text : bytes) (f : Finding) : Prop :=
  (f_start f < f_end f <= length text)%nat.
Definition before (f g : Finding) : Prop := (f_end f <= f_start g)%nat.
Definition disjoint_findings (fs : list Finding) : Prop :=
  ∀ i j f g, i ≠ j → fs !! i = Some f → fs !! j = Some g → before f g ∨ before g f.

Lemma mask_loop_render text fs : ∀ cursor,
  Forall (in_text text) fs → StronglySorted before fs →
  match fs with [] => True | f :: _ => (cursor <= f_start f)%nat end →
  mask_loop text cursor fs = render text cursor fs.
Proof.
  induction fs as [|f fs IH]; intros cursor Hin Hs Hc; [done|]. simpl.
  apply Forall_cons in Hin as [[Hf1 Hf2] Hin]. apply StronglySorted_inv in Hs as [Hs Hb].
  rewrite (proj2 (Nat.ltb_ge _ _) Hc), (proj2 (Nat.ltb_ge _ _) Hf2),
    (proj2 (Nat.leb_gt _ _) Hf1). cbn [orb]. do 2 f_equal. apply IH; [done..|].
  destruct fs; [done|]. by apply Forall_cons in Hb as [? _].
Qed.

Lemma sift_perm x l : sift x l ≡ₚ x :: l.
Proof.
  induction l as [|y l IH]; simpl; [done|]. case_match; [|done].
  rewrite IH. apply Permutation_swap.
Qed.

Lemma sort_findings_perm fs : sort_findings fs ≡ₚ fs.
Proof.
  unfold sort_findings. rewrite <- Permutation_rev.
  assert (∀ acc, foldl (λ acc x, sift x acc) acc fs ≡ₚ fs ++ acc) as H.
  { induction fs as [|x fs IH]; intros acc; simpl; [done|].
    rewrite IH, sift_perm. by rewrite Permutation_middle. }
  rewrite H. by rewrite app_nil_r.
Qed.

Definition start_ge (f g : Finding) : Prop := (f_start g <= f_start f)%nat.

Lemma sift_sorted x l : StronglySorted start_ge l → StronglySorted start_ge (sift x l).
Proof.
  induction l as [|y l IH]; intros Hs; simpl; [repeat constructor|].
  apply StronglySorted_inv in Hs as [Hs Hy]. case (Nat.ltb_spec (f_start x) (f_start y)); intros Hlt.
  - constructor; [by apply IH|]. rewrite sift_perm. constructor; [unfold start_ge; lia|done].
  - constructor; [by constructor|]. constructor; [done|].
    eapply Forall_impl; [exact Hy|]. unfold start_ge; simpl. lia.
Qed.

Lemma sorted_snoc {A} (R : A → A → Prop) l x :
  StronglySorted R l → Forall (λ y, R y x) l → StronglySorted R (l ++ [x]).
Proof.
  induction l as [|y l IH]; simpl; intros Hs Hf; [repeat constructor|].
  apply StronglySorted_inv in Hs as [Hs Hy]. apply Forall_cons in Hf as [Hyx Hf].
  constructor; [by apply IH|]. apply Forall_app. split; [done|by repeat constructor].
Qed.

Lemma sort_findings_sorted fs :
  StronglySorted (λ f g, (f_start f <= f_start g)%nat) (sort_findings fs).
Proof.
  unfold sort_findings.
  assert (∀ acc, StronglySorted start_ge acc →
    StronglySorted start_ge (foldl (λ acc x, sift x acc) acc fs)) as H.
  { induction fs as [|x fs IH]; intros acc Ha; simpl; [done|]. by apply IH, sift_sorted. }
  specialize (H [] ltac:(constructor)). induction H as [|y l Hl IH Hy]; simpl; [constructor|].
  apply sorted_snoc; [done|]. rewrite <- Permutation_rev. done.
Qed.

(** Sorting pairwise disjoint, non-empty spans by start puts each before the next. *)
Lemma sorted_disjoint_before text fs :
  Forall (in_text text) fs → StronglySorted (λ f g, (f_start f <= f_start g)%nat) fs →
  disjoint_findings fs → StronglySorted before fs.
Proof.
  induction fs as [|f fs IH]; intros Hin Hs Hd; [constructor|].
  apply Forall_cons in Hin as [Hf Hin]. apply StronglySorted_inv in Hs as [Hs Hle].
  constructor.
  - apply IH; [done..|]. intros i j a b Hne Ha Hb. apply (Hd (S i) (S j)); [congruence|done..].
  - apply Forall_forall. intros g Hg. pose proof Hg as Hg'.
    apply list_elem_of_lookup in Hg' as [j Hj].
    rewrite Forall_forall in Hle, Hin. specialize (Hle g Hg). specialize (Hin g Hg).
    destruct (Hd 0%nat (S j) f g) as [H|H]; try done.
    unfold before, in_text in *. lia.
Qed.

Lemma disjoint_perm fs fs' : fs ≡ₚ fs' → disjoint_findings fs → disjoint_findings fs'.
Proof.
  intros Hp Hd i j f g Hne Hi Hj.
  symmetry in Hp. apply Permutation_inj in Hp as (_ & h & Hinj & Hh).
  rewrite Hh in Hi, Hj. apply (Hd (h i) (h j)); [|done..]. intros E. by apply Hne, Hinj.
Qed.

(** ** IPv4 *)

(** Address blocks, as a base address and a prefix length. *)
Definition ipv4_addr (a b c d : Z) : Z := a * 2 ^ 24 + b * 2 ^ 16 + c * 2 ^ 8 + d.
Definition in_block (ip : Z) (blk : Z * Z) : bool :=
  ip / 2 ^ (32 - blk.2) =? blk.1 / 2 ^ (32 - blk.2).
(** The blocks that never identify a host on the public Internet:
    this-network, the three private ones, loopback, link-local, and multicast
    with the reserved space above it. *)
Definition special_blocks : list (Z * Z) :=
  [ (ipv4_addr 0 0 0 0, 8); (ipv4_addr 10 0 0 0, 8); (ipv4_addr 127 0 0 0, 8);
    (ipv4_addr 169 254 0 0, 16); (ipv4_addr 172 16 0 0, 12); (ipv4_addr 192 168 0 0, 16);
    (ipv4_addr 224 0 0 0, 3) ].

(** The octet a decimal string spells, without overflow. *)
Definition dec_append (n : Z) (c : ascii) : Z := n * 10 + digit_val c.
Definition dec_octet (p : bytes) : option Z :=
  if negb (bool_decide (p = [])) && forallb is_digit p && (foldl dec_append 0 p <=? 255)
  then Some (foldl dec_append 0 p) else None.

Lemma octet_loop_dec s : ∀ n k, 0 <= n < 10 ^ k → 0 <= k → k + zlen s <= 18 →
  octet_loop n s = if forallb is_digit s then Some (foldl dec_append n s) else None.
Proof.
  induction s as [|c s IH]; intros n k Hn Hk Hl; [done|]. cbn [octet_loop forallb foldl].
  destruct (is_digit c) eqn:Hc; [|done]. cbn [andb].
  pose proof (digit_val_range c Hc). unfold zlen in *; cbn [length] in Hl.
  pose proof (Z.pow_le_mono_r 10 k 17). pose proof (Z.pow_succ_r 10 k).
  rewrite int64_id by lia. apply (IH _ (k + 1)); unfold dec_append; lia.
Qed.

Lemma octet_dec p : zlen p <= 18 → octet p = dec_octet p.
Proof.
  intros Hl. unfold octet, dec_octet. destruct p as [|c p]; [done|].
  rewrite (octet_loop_dec _ 0 0) by lia. rewrite bool_decide_eq_false_2 by done. cbn [negb andb].
  destruct (forallb is_digit (c :: p)); [|done]. cbn [andb].
  case (Z.ltb_spec 255 (foldl dec_append 0 (c :: p))); intros H.
  - by rewrite (proj2 (Z.leb_gt _ _) H).
  - by rewrite (proj2 (Z.leb_le _ _) H).
Qed.

Lemma dec_fold_nonneg s : ∀ n, 0 <= n → forallb is_digit s = true → 0 <= foldl dec_append n s.
Proof.
  induction s as [|c s IH]; intros n Hn; [done|]. cbn [forallb foldl]. intros [Hc Hs]%andb_prop.
  apply IH; [|done]. unfold dec_append. pose proof (digit_val_range c Hc). lia.
Qed.

Lemma dec_octet_range p v : dec_octet p = Some v → 0 <= v <= 255.
Proof.
  unfold dec_octet. destruct (forallb is_digit p) eqn:Hp; [|by rewrite andb_false_r].
  pose proof (dec_fold_nonneg p 0 ltac:(lia) Hp).
  destruct (negb _ && _ && _) eqn:H1; [|done]. intros [= <-].
  apply andb_prop in H1 as [_ H1]. lia.
Qed.

Lemma in_block_8 a b c d x : 0 <= b <= 255 → 0 <= c <= 255 → 0 <= d <= 255 →
  in_block (ipv4_addr a b c d) (ipv4_addr x 0 0 0, 8) = (a =? x).
Proof.
  intros Hb Hc Hd. unfold in_block, ipv4_addr; cbn [fst snd].
  change (2 ^ (32 - 8)) with 16777216. change (2 ^ 24) with 16777216.
  change (2 ^ 16) with 65536. change (2 ^ 8) with 256.
  replace ((a * 16777216 + b * 65536 + c * 256 + d) / 16777216) with a
    by (apply Z.div_unique with (b * 65536 + c * 256 + d); lia).
  replace ((x * 16777216 + 0 * 65536 + 0 * 256 + 0) / 16777216) with x
    by (apply Z.div_unique with 0; lia). done.
Qed.

Lemma in_block_16 a b c d x y : 0 <= b <= 255 → 0 <= c <= 255 → 0 <= d <= 255 → 0 <= y <= 255 →
  in_block (ipv4_addr a b c d) (ipv4_addr x y 0 0, 16) = (a =? x) && (b =? y).
Proof.
  intros Hb Hc Hd Hy. unfold in_block, ipv4_addr; cbn [fst snd].
  change (2 ^ (32 - 16)) with 65536. change (2 ^ 24) with 16777216.
  change (2 ^ 16) with 65536. change (2 ^ 8) with 256.
  replace ((a * 16777216 + b * 65536 + c * 256 + d) / 65536) with (a * 256 + b)
    by (apply Z.div_unique with (c * 256 + d); lia).
  replace ((x * 16777216 + y * 65536 + 0 * 256 + 0) / 65536) with (x * 256 + y)
    by (apply Z.div_unique with 0; lia). lia.
Qed.

Lemma in_block_172 a b c d : 0 <= b <= 255 → 0 <= c <= 255 → 0 <= d <= 255 →
  in_block (ipv4_addr a b c d) (ipv4_addr 172 16 0 0, 12) = (a =? 172) && (16 <=? b) && (b <=? 31).
Proof.
  intros Hb Hc Hd. unfold in_block, ipv4_addr; cbn [fst snd].
  change (2 ^ (32 - 12)) with 1048576. change (2 ^ 24) with 16777216.
  change (2 ^ 16) with 65536. change (2 ^ 8) with 256.
  replace ((a * 16777216 + b * 65536 + c * 256 + d) / 1048576) with (a * 16 + b / 16).
  2:{ apply Z.div_unique with (b mod 16 * 65536 + c * 256 + d);
      pose proof (Z.mod_pos_bound b 16); pose proof (Z.div_mod b 16); lia. }
  change ((172 * 16777216 + 16 * 65536 + 0 * 256 + 0) / 1048576) with 2753.
  pose proof (Z.mod_pos_bound b 16). pose proof (Z.div_mod b 16). lia.
Qed.

Lemma in_block_224 a b c d : 0 <= a <= 255 → 0 <= b <= 255 → 0 <= c <= 255 → 0 <= d <= 255 →
  in_block (ipv4_addr a b c d) (ipv4_addr 224 0 0 0, 3) = (224 <=? a).
Proof.
  intros Ha Hb Hc Hd. unfold in_block, ipv4_addr; cbn [fst snd].
  change (2 ^ (32 - 3)) with 536870912. change (2 ^ 24) with 16777216.
  change (2 ^ 16) with 65536. change (2 ^ 8) with 256.
  replace ((a * 16777216 + b * 65536 + c * 256 + d) / 536870912) with (a / 32).
  2:{ apply Z.div_unique with (a mod 32 * 16777216 + b * 65536 + c * 256 + d);
      pose proof (Z.mod_pos_bound a 32); pose proof (Z.div_mod a 32); lia. }
  change ((224 * 16777216 + 0 * 65536 + 0 * 256 + 0) / 536870912) with 7.
  pose proof (Z.mod_pos_bound a 32). pose proof (Z.div_mod a 32). lia.
Qed.

Lemma octets_loop_dec p0 p1 p2 p3 : Forall (λ p, zlen p <= 18) [p0; p1; p2; p3] →
  octets_loop 0 [p0; p1; p2; p3] [0; 0; 0; 0] = mapM dec_octet [p0; p1; p2; p3].
Proof.
  intros Hf. repeat (apply Forall_cons in Hf as [? Hf]). simpl. rewrite !octet_dec by done.
  destruct (dec_octet p0); [|done]. destruct (dec_octet p1); [|done].
  destruct (dec_octet p2); [|done]. by destruct (dec_octet p3).
Qed.

Lemma public_switch a b c d : 0 <= a <= 255 → 0 <= b <= 255 → 0 <= c <= 255 → 0 <= d <= 255 →
  (if (a =? 0) || (a =? 10) then false
   else if a =? 127 then false
   else if (a =? 169) && (b =? 254) then false
   else if (a =? 172) && (16 <=? b) && (b <=? 31) then false
   else if (a =? 192) && (b =? 168) then false
   else if 224 <=? a then false
   else true) = forallb (λ blk, negb (in_block (ipv4_addr a b c d) blk)) special_blocks.
Proof.
  intros. unfold special_blocks. cbn [forallb].
  rewrite !in_block_8, !in_block_16, in_block_172, in_block_224 by lia. rewrite andb_true_r.
  destruct (a =? 0), (a =? 10), (a =? 127), ((a =? 169) && (b =? 254)),
    ((a =? 172) && (16 <=? b) && (b <=? 31)), ((a =? 192) && (b =? 168)), (224 <=? a); done.
Qed.

(** ** Main properties *)

(** Masking findings that lie in the text and do not overlap replaces
    every one of their spans, in text order, by its redaction and copies
    everything between them: no span survives and no other byte changes,
    whatever order the detectors reported them in. *)
Theorem maskFindings_redacts_every_span text fs :
  Forall (in_text text) fs → disjoint_findings fs →
  ∃ ks, ks ≡ₚ fs ∧ StronglySorted before ks ∧ maskFindings text fs = render text 0 ks.
Proof.
  intros Hin Hd. exists (sort_findings fs). pose proof (sort_findings_perm fs) as Hp.
  assert (Forall (in_text text) (sort_findings fs)) as Hin' by by rewrite Hp.
  assert (StronglySorted before (sort_findings fs)) as Hs.
  { apply (sorted_disjoint_before text); [done|apply sort_findings_sorted|].
    by eapply disjoint_perm. }
  split_and!; [done..|]. unfold maskFindings. destruct fs as [|f fs]; [done|].
  apply mask_loop_render; [done..|]. destruct (sort_findings (f :: fs)); [done|lia].
Qed.

(** A card or national-id candidate accepted by [luhn] is rejected after
    any single digit is replaced by another one. *)
Theorem luhn_detects_digit_error a c c' b :
  is_digit c = true → is_digit c' = true → c ≠ c' →
  luhn (a ++ c :: b) = true → luhn (a ++ c' :: b) = false.
Proof.
  intros Hc Hc' Hne. rewrite !luhn_ref, !rdigits_split by done. rewrite !luhn_sum_app.
  cbn [luhn_sum]. intros [_ H]%andb_prop. apply andb_false_intro2.
  apply Z.eqb_eq in H. apply Z.eqb_neq. intros H'. apply Hne.
  assert (digit_val c = digit_val c') as E.
  { eapply (luhn_weight_inj _ _ _ (digit_val_range c Hc) (digit_val_range c' Hc')).
    apply Z.mod_divide; [done|]. apply Z.mod_divide in H, H'; [|done..].
    pose proof (Z.divide_sub_r _ _ _ H H') as Hs.
    match goal with |- (_ | ?x - ?y) => match type of Hs with (_ | ?z) => by replace (x - y) with z by ring end end. }
  revert E. unfold digit_val. intros E.
  apply zb_inj. lia.
Qed.

(** [validIBAN] is the ISO 13616 test: every character is a digit or an
    upper-case letter and the decimal number spelled by the rearranged string,
    letters standing for 10 to 35, is 1 modulo 97 (the code reduces after every
    character; the number itself has up to 60 digits). *)
Theorem validIBAN_iso13616 s :
  validIBAN s = forallb iban_char s && (iban_value (drop 4 s ++ take 4 s) mod 97 =? 1).
Proof.
  unfold validIBAN. rewrite (iban_loop_spec _ 0) by done.
  rewrite forallb_app, andb_comm, <- forallb_app, take_drop.
  unfold iban_value. by destruct (forallb iban_char s).
Qed.

(** On four dotted parts [isPublicIPv4] accepts exactly the decimal
    addresses outside the special-purpose blocks (this-network, private,
    loopback, link-local, multicast and reserved): a non-digit, an empty part
    or a value above 255 rejects. Parts are at most 18 characters, so the
    accumulated value cannot wrap; the pattern supplies at most three. *)
Theorem isPublicIPv4_outside_special_blocks s p0 p1 p2 p3 :
  split_on "."%char s = [p0; p1; p2; p3] → Forall (λ p, zlen p <= 18) [p0; p1; p2; p3] →
  isPublicIPv4 s = match mapM dec_octet [p0; p1; p2; p3] with
                   | Some [a; b; c; d] =>
                       forallb (λ blk, negb (in_block (ipv4_addr a b c d) blk)) special_blocks
                   | _ => false
                   end.
Proof.
  intros Hs Hl. unfold isPublicIPv4. rewrite Hs, octets_loop_dec by done. simpl.
  destruct (dec_octet p0) as [a|] eqn:Ha; [|done]. destruct (dec_octet p1) as [b|] eqn:Hb; [|done].
  destruct (dec_octet p2) as [c|] eqn:Hc; [|done]. destruct (dec_octet p3) as [d|] eqn:Hd; [|done].
  apply public_switch; by eapply dec_octet_range.
Qed.

(** Of two findings in the text of which the second starts inside the
    first, only the first is redacted: the spans are not merged, so whatever
    the second covers past the end of the first is copied to the output. *)
Theorem maskFindings_drops_overlap text f g :
  in_text text f → in_text text g → (f_start f <= f_start g < f_end f)%nat →
  maskFindings text [f; g] =
    take (f_start f) text ++ f_redacted f ++ slice (f_end f) (f_end g) text ++
    drop (Nat.max (f_end f) (f_end g)) text.
Proof.
  intros [Hf1 Hf2] [Hg1 Hg2] [Hs1 Hs2].
  unfold maskFindings, sort_findings. cbn [foldl sift].
  rewrite (proj2 (Nat.ltb_ge _ _)) by done. cbn [rev app mask_loop].
  rewrite (proj2 (Nat.ltb_ge (f_start f) 0)) by lia.
  rewrite (proj2 (Nat.ltb_ge _ _) Hf2), (proj2 (Nat.leb_gt _ _) Hf1), (proj2 (Nat.ltb_lt _ _) Hs2).
  cbn [orb]. unfold slice. rewrite Nat.sub_0_r, drop_0. do 2 f_equal.
  rewrite <- (take_drop (f_end g - f_end f) (drop (f_end f) text)) at 1. f_equal.
  rewrite drop_drop. f_equal. lia.
Qed.

(** The shipped detectors produce such a pair: a grouped card number followed
    by an e-mail address that shares its last digits. *)
Example overlap_tail_leaks :
  let text := B "pay 4111 1111 1111 1111-bob@x.com now" in
  (λ f, (f_entity f, slice (f_start f) (f_end f) text)) <$> run piiDetectors text =
    [("EMAIL_ADDRESS"%string, B "1111-bob@x.com");
     ("CREDIT_CARD"%string, B "4111 1111 1111 1111-")] ∧
  maskFindings text (run piiDetectors text) = B "pay [REDACTED]bob@x.com now".
Proof. by vm_compute. Qed.

(** ** Witnesses *)
Definition demo_text : bytes := B "a@b.com 8.8.8.8".
Definition demo_findings : list Finding :=
  [mkFinding "ipv4" "IP_ADDRESS" 8 15 SeverityLow redactMask;
   mkFinding "email" "EMAIL_ADDRESS" 0 7 SeverityMedium redactMask].

Lemma demo_in_text : Forall (in_text demo_text) demo_findings.
Proof. repeat constructor. Qed.

Lemma demo_disjoint : disjoint_findings demo_findings.
Proof.
  intros [|[|i]] [|[|j]] f g Hne Hi Hj; simplify_eq/=; unfold before; simpl; lia.
Qed.

Lemma maskFindings_redacts_witness :
  ∃ ks, ks ≡ₚ demo_findings ∧ StronglySorted before ks ∧
        maskFindings demo_text demo_findings = render demo_text 0 ks.
Proof. exact (maskFindings_redacts_every_span demo_text demo_findings demo_in_text demo_disjoint). Defined.

Lemma luhn_detects_witness :
  luhn (B "411111111111111" ++ "1"%char :: []) = true ∧
  luhn (B "411111111111111" ++ "2"%char :: []) = false.
Proof.
  split; [by vm_compute|].
  apply (luhn_detects_digit_error _ "1"%char); by vm_compute.
Defined.

Lemma isPublicIPv4_witness :
  isPublicIPv4 (B "172.20.1.9") = false.
Proof.
  rewrite (isPublicIPv4_outside_special_blocks _ (B "172") (B "20") (B "1") (B "9"));
    [by vm_compute|by vm_compute|by repeat constructor].
Defined.

Lemma maskFindings_overlap_witness :
  let text := B "0123456789" in
  let f := mkFinding "a" "A" 1 5 SeverityHigh redactMask in
  let g := mkFinding "b" "B" 3 8 SeverityHigh redactMask in
  maskFindings text [f; g] = B "0[REDACTED]56789".
Proof.
  cbv zeta. rewrite maskFindings_drops_overlap; [by vm_compute|..]; unfold in_text; simpl; lia.
Defined.
