(* ===== verification/Policy.v ===== *)
(** * Effective policy of an API key

    [internal/policy/policy.go] and the resolution of a key's limits in
    [internal/middleware/ratelimit.go]: the operator's default, then the plan,
    then the key's own columns. *)

From S2P Require Import Prelude.

(** ** Data *)

(** The fields of a [db.Plan] the resolution reads. *)
Record Plan := MkPlan {
  plan_ID : bytes;
  LimitMicros : Z;
  LimitTokens : Z;
  RPMLimit : Z;
  TPMLimit : Z;
  ConcurrencyLimit : Z;
  Period : bytes;
  AlertPct : Z;
  HardCutoff : bool;
  AllowedModels : list bytes
}.

(** The columns of a [models.APIKey] the resolution reads; [None] is a NULL. *)
Record APIKey := MkAPIKey {
  key_ID : string;
  key_Key : bytes;
  key_PlanID : option bytes;
  RateLimitRPM : option Z;
  RateLimitTPM : option Z;
  RateLimitConcurrency : option Z;
  key_QueueTimeoutMs : option Z;
  key_TokenQuota : option Z
}.

Record EffectivePolicy := MkPolicy {
  pol_PlanID : bytes;
  pol_RPM : Z;
  pol_TPM : Z;
  pol_Concurrency : Z;
  pol_QueueTimeoutMs : Z;
  pol_TokenQuota : Z;
  pol_LimitMicros : Z;
  pol_LimitTokens : Z;
  pol_Period : bytes;
  pol_AlertPct : Z;
  pol_HardCutoff : bool;
  pol_AllowedModels : list bytes
}.

Definition zero_policy : EffectivePolicy := MkPolicy [] 0 0 0 0 0 0 0 [] 0 false [].

Definition derefInt (v : option Z) : Z := default 0 v.

Section Resolve.
(** A [PlanSource]: [None] for no source wired; a source answers [None] when
    the read fails. *)
Context (plans : option (bytes → option Plan)).

Definition applyPlan (out : EffectivePolicy) (planID : option bytes) : EffectivePolicy :=
  match plans, planID with
  | Some src, Some pid =>
      let id := trim_space pid in
      match id with
      | [] => out
      | _ =>
          match src id with
          | None => out
          | Some plan =>
              MkPolicy (plan_ID plan) (RPMLimit plan) (TPMLimit plan) (ConcurrencyLimit plan)
                (pol_QueueTimeoutMs out) (pol_TokenQuota out) (LimitMicros plan)
                (LimitTokens plan) (Period plan) (AlertPct plan) (HardCutoff plan)
                (AllowedModels plan)
          end
      end
  | _, _ => out
  end.

Definition applyKeyOverrides (out : EffectivePolicy) (key : APIKey) : EffectivePolicy :=
  let over (col : option Z) (cur : Z) := let v := derefInt col in if 0 <? v then v else cur in
  MkPolicy (pol_PlanID out)
    (over (RateLimitRPM key) (pol_RPM out))
    (over (RateLimitTPM key) (pol_TPM out))
    (over (RateLimitConcurrency key) (pol_Concurrency out))
    (over (key_QueueTimeoutMs key) (pol_QueueTimeoutMs out))
    (over (key_TokenQuota key) (pol_TokenQuota out))
    (pol_LimitMicros out) (pol_LimitTokens out) (pol_Period out) (pol_AlertPct out)
    (pol_HardCutoff out) (pol_AllowedModels out).

Definition Resolve (key : option APIKey) : EffectivePolicy :=
  match key with
  | None => zero_policy
  | Some key => applyKeyOverrides (applyPlan zero_policy (key_PlanID key)) key
  end.

(** ** Limits ([limitsFor]) *)

Record Limits := MkLimits {
  RPM : Z;
  TPM : Z;
  Concurrency : Z;
  TokenQuota : Z;
  QueueTimeout : Z      (* a [time.Duration], nanoseconds *)
}.

Definition DefaultQueueTimeout : Z := 60 * 1000000000.

Definition limitsFor (key : APIKey) (d : option Limits) : Limits :=
  let out := default (MkLimits 0 0 0 0 0) d in
  let pol := Resolve (Some key) in
  let rpm := if 0 <? pol_RPM pol then pol_RPM pol else RPM out in
  let tpm := if 0 <? pol_TPM pol then pol_TPM pol else TPM out in
  let conc := if 0 <? pol_Concurrency pol then pol_Concurrency pol else Concurrency out in
  let quota := if 0 <? pol_TokenQuota pol then pol_TokenQuota pol else TokenQuota out in
  let keyConc := derefInt (RateLimitConcurrency key) in
  let keyQueue := derefInt (key_QueueTimeoutMs key) in
  let queue :=
    if 0 <? keyQueue then int64 (keyQueue * 1000000)
    else if 0 <? keyConc then DefaultQueueTimeout
    else if negb (bool_decide (pol_PlanID pol = [])) && (0 <? pol_Concurrency pol)
         then DefaultQueueTimeout
    else if 0 <? conc then 0
    else QueueTimeout out in
  MkLimits rpm tpm conc quota queue.

Definition EffectiveTPM (d : option Limits) (key : APIKey) : Z := TPM (limitsFor key d).

(** [queueScope]: the axis a queue time-out is attributed to. *)
Definition queueScope (limits : Limits) : string :=
  if 0 <? Concurrency limits then "concurrency" else "rpm".

(** [int(d.Seconds()) + 1] on a positive duration: whole seconds, rounded down. *)
Definition queueRetryAfter (limits : Limits) : Z :=
  if QueueTimeout limits <=? 0 then 1 else Z.quot (QueueTimeout limits) 1000000000 + 1.

Definition rateLimitScope (scope : string) : string :=
  if bool_decide (scope ∈ ["rpm"; "tpm"; "concurrency"; "token_quota"]%string) then scope
  else "rpm".

(** ** Specification *)

(** The plan in force: assigned, readable and not a blank id. *)
Definition plan_of (key : APIKey) : option Plan :=
  src ← plans; pid ← key_PlanID key;
  if bool_decide (trim_space pid = []) then None else src (trim_space pid).

(** The first positive value of a list of sources, else the fallback. *)
Fixpoint first_positive (vs : list (option Z)) (fallback : Z) : Z :=
  match vs with
  | [] => fallback
  | Some v :: vs' => if 0 <? v then v else first_positive vs' fallback
  | None :: vs' => first_positive vs' fallback
  end.

Lemma applyPlan_plan key :
  applyPlan zero_policy (key_PlanID key) =
  match plan_of key with
  | Some p => MkPolicy (plan_ID p) (RPMLimit p) (TPMLimit p) (ConcurrencyLimit p) 0 0
                (LimitMicros p) (LimitTokens p) (Period p) (AlertPct p) (HardCutoff p)
                (AllowedModels p)
  | None => zero_policy
  end.
Proof.
  unfold applyPlan, plan_of. destruct plans as [src|]; simpl; [|done].
  destruct (key_PlanID key) as [pid|]; simpl; [|done].
  destruct (trim_space pid) eqn:E; simpl; [done|].
  rewrite <- E. by destruct (src (trim_space pid)).
Qed.

Lemma override_first col cur fallback :
  (if 0 <? (if 0 <? derefInt col then derefInt col else cur)
   then (if 0 <? derefInt col then derefInt col else cur) else fallback) =
  first_positive [col; Some cur] fallback.
Proof.
  destruct col as [v|]; simpl; [|done].
  case (Z.ltb_spec 0 v); intros H; [|done]. by rewrite (proj2 (Z.ltb_lt _ _) H).
Qed.

Lemma override_none col fallback :
  (if 0 <? (if 0 <? derefInt col then derefInt col else 0)
   then (if 0 <? derefInt col then derefInt col else 0) else fallback) =
  first_positive [col] fallback.
Proof. by rewrite override_first. Qed.

(** The limits of a key are, axis by axis, the first positive value among
    the key's own column, its plan's and the operator's default; the lifetime
    quota skips the plan, and a failed or blank plan read counts as no plan.
    The key waits in the queue only when the operator gave it a timeout, or its
    concurrency cap is its own or its plan's. *)
Theorem limitsFor_precedence key d :
  let dflt := default (MkLimits 0 0 0 0 0) d in
  let L := limitsFor key d in
  RPM L = first_positive [RateLimitRPM key; RPMLimit <$> plan_of key] (RPM dflt) ∧
  TPM L = first_positive [RateLimitTPM key; TPMLimit <$> plan_of key] (TPM dflt) ∧
  Concurrency L =
    first_positive [RateLimitConcurrency key; ConcurrencyLimit <$> plan_of key] (Concurrency dflt) ∧
  TokenQuota L = first_positive [key_TokenQuota key] (TokenQuota dflt) ∧
  QueueTimeout L =
    (if 0 <? derefInt (key_QueueTimeoutMs key)
     then int64 (derefInt (key_QueueTimeoutMs key) * 1000000)
     else if 0 <? derefInt (RateLimitConcurrency key) then DefaultQueueTimeout
     else match plan_of key with
          | Some p => if negb (bool_decide (plan_ID p = [])) && (0 <? ConcurrencyLimit p)
                      then DefaultQueueTimeout
                      else if 0 <? Concurrency L then 0 else QueueTimeout dflt
          | None => if 0 <? Concurrency L then 0 else QueueTimeout dflt
          end).
Proof.
  cbv zeta. unfold limitsFor, Resolve. rewrite applyPlan_plan.
  destruct (plan_of key) as [p|]; cbn [applyKeyOverrides pol_RPM pol_TPM pol_Concurrency
      pol_TokenQuota pol_PlanID zero_policy RPM TPM Concurrency TokenQuota QueueTimeout];
    split_and!; try first [apply override_first | apply override_none];
    destruct (0 <? derefInt (key_QueueTimeoutMs key)); try done;
    destruct (0 <? derefInt (RateLimitConcurrency key)); done.
Qed.

End Resolve.
