(* ===== verification/TokenBucket.v ===== *)
(** * Token bucket and the limiter's middleware

    The TPM half of [internal/middleware/ratelimit.go] (charge, settle, refund,
    retry hint), the non-blocking [Check] and the [RequireRateLimit] handler
    that orders quota, token bucket and queue. *)

From Stdlib Require Import QArith.
From S2P Require Import Prelude GoFloat RateLimit Policy.
Open Scope Z_scope.

(** ** Operations *)

Section Bucket.
Context {F : Type} `{GoFloat F}.
Implicit Types rl : limiter F.

(** [float64(tpm) / rl.window.Seconds()]: tokens per second. *)
Definition refillRate (tpm window : Z) : F := f_div (f_of_int tpm) (duration_seconds window).

Definition refill (tpm window now : Z) (b : bucket F) : bucket F :=
  let elapsed := duration_seconds (now - b_lastRefill b) in
  if f_ltb f_zero elapsed then
    let t := f_add (b_tokens b) (f_mul elapsed (refillRate tpm window)) in
    Bucket (if f_ltb (f_of_int tpm) t then f_of_int tpm else t) now
  else b.

(** The bucket a charge starts from: full when the key has none. *)
Definition bucket_or_full (k : string) (tpm now : Z) rl : bucket F :=
  default (Bucket (f_of_int tpm) now) (rl_tokens rl !! k).

Definition checkTPM (k : string) (tpm tokens now : Z) rl : limiter F * bool :=
  let b := refill tpm (rl_window rl) now (bucket_or_full k tpm now rl) in
  if f_ltb (b_tokens b) (f_of_int tokens) then (set_tokens (<[k := b]> (rl_tokens rl)) rl, false)
  else (set_tokens (<[k := Bucket (f_sub (b_tokens b) (f_of_int tokens)) (b_lastRefill b)]>
                     (rl_tokens rl)) rl, true).

Definition SettleTokenUsage (k : string) (tpm reserved actual : Z) rl : limiter F :=
  if (tpm <=? 0) || bool_decide (k = ""%string) || (actual <=? reserved) then rl
  else match rl_tokens rl !! k with
       | None => rl
       | Some b =>
           let t := f_sub (b_tokens b) (f_of_int (actual - reserved)) in
           set_tokens (<[k := Bucket (if f_ltb t f_zero then f_zero else t) (b_lastRefill b)]>
                        (rl_tokens rl)) rl
       end.

Definition RefundTPM (k : string) (tpm amount : Z) rl : limiter F :=
  if (tpm <=? 0) || bool_decide (k = ""%string) || (amount <=? 0) then rl
  else match rl_tokens rl !! k with
       | None => rl
       | Some b =>
           let t := f_add (b_tokens b) (f_of_int amount) in
           set_tokens (<[k := Bucket (if f_ltb (f_of_int tpm) t then f_of_int tpm else t)
                               (b_lastRefill b)]> (rl_tokens rl)) rl
       end.

Definition tpmRetryAfter (k : string) (tpm tokens : Z) rl : Z :=
  match rl_tokens rl !! k with
  | None => 1
  | Some b =>
      let deficit := f_sub (f_of_int tokens) (b_tokens b) in
      if negb (f_ltb f_zero deficit) then 1
      else f_trunc (f_div deficit (refillRate tpm (rl_window rl))) + 1
  end.

Definition checkTPMOnly (k : string) (tpm tokens now : Z) rl : limiter F * (bool * Z * string) :=
  let '(rl', ok) := checkTPM k tpm tokens now rl in
  if ok : bool then (rl', (true, 0, ""%string))
  else (rl', (false, tpmRetryAfter k tpm tokens rl', "tpm"%string)).

(** [Check], with the three readings of the clock it takes. *)
Definition Check iter (k : string) (rpm tpm conc promptTokens now1 now2 now3 : Z) rl
    : limiter F * (bool * Z * string) :=
  let '(rl, ok) := tryAdmitLocked iter k rpm conc now1 rl in
  if negb ok then
    if (0 <? conc) && concurrencyFull k conc rl then (rl, (false, 1, "concurrency"%string))
    else (rl, (false, rpmRetryAfter k now2 rl, "rpm"%string))
  else if 0 <? tpm then
    let '(rl, ok) := checkTPM k tpm promptTokens now3 rl in
    if negb ok then (rl, (false, tpmRetryAfter k tpm promptTokens rl, "tpm"%string))
    else (rl, (true, 0, ""%string))
  else (rl, (true, 0, ""%string)).

(** ** The middleware *)

Inductive response :=
  | Served
  | QuotaExhausted (used quota : Z)               (* 403 *)
  | RateLimited (retryAfter : Z) (scope : string). (* 429 *)

(** [None]: the handler goes on. The reader answers [None] on a failed read,
    which lets the request through. *)
Definition quotaCheck (key : APIKey) (limits : Limits) (usage : option (bytes → option Z))
    : option response :=
  match usage with
  | None => None
  | Some read =>
      if (TokenQuota limits <=? 0) || bool_decide (key_Key key = []) then None
      else match read (key_Key key) with
           | None => None
           | Some used =>
               if used <? TokenQuota limits then None
               else Some (QuotaExhausted used (TokenQuota limits))
           end
  end.

(** Everything between the call of [Acquire] and its return, other requests'
    steps included, is the argument [acquire]; likewise [next] is the rest of
    the chain, run with the reservation it carries in its context, and
    [release] the deferred [ReleaseConcurrency]. *)
Definition RequireRateLimit (acquire : string → Z → Z → Z → limiter F → limiter F * bool)
    (next : option Z → limiter F → limiter F) (release : string → limiter F → limiter F)
    (usage : option (bytes → option Z)) (d : option Limits) (plans : option (bytes → option Plan))
    (apiKey : option APIKey) (promptTokens now : Z) rl : limiter F * response :=
  match apiKey with
  | None => (next None rl, Served)
  | Some key =>
      let limits := limitsFor plans key d in
      match quotaCheck key limits usage with
      | Some r => (rl, r)
      | None =>
          let k := key_ID key in
          let '(rl, (allowed, retryAfter, scope), pendingTPM) :=
            if 0 <? TPM limits
            then (checkTPMOnly k (TPM limits) promptTokens now rl, promptTokens)
            else ((rl, (true, 0, ""%string)), 0) in
          if negb allowed then (rl, RateLimited retryAfter scope)
          else
            let '(rl, ok) := acquire k (RPM limits) (Concurrency limits) (QueueTimeout limits) rl in
            if negb ok then
              let rl := if 0 <? pendingTPM then RefundTPM k (TPM limits) pendingTPM rl else rl in
              (rl, RateLimited (queueRetryAfter limits) (queueScope limits))
            else
              let rl := next (if 0 <? TPM limits then Some pendingTPM else None) rl in
              ((if 0 <? Concurrency limits then release k rl else rl), Served)
      end
  end.
End Bucket.

(** ** The level stays between empty and full *)

Section Bounds.
Context {F : Type} `{GoFloatLaws F}.
Implicit Types rl : limiter F.

Definition level_ok (tpm : Z) (b : bucket F) : Prop :=
  f_nonneg (b_tokens b) ∧ f_atmost (f_of_int tpm) (b_tokens b).
Definition bucket_ok (k : string) (tpm : Z) rl : Prop :=
  match rl_tokens rl !! k with Some b => level_ok tpm b | None => True end.

(** One use of the bucket of [k]. *)
Inductive tpm_op :=
  | OCheck (tokens now : Z)
  | OSettle (reserved actual : Z)
  | ORefund (amount : Z).

Definition run_op (k : string) (tpm : Z) rl (o : tpm_op) : limiter F :=
  match o with
  | OCheck tokens now => (checkTPM k tpm tokens now rl).1
  | OSettle reserved actual => SettleTokenUsage k tpm reserved actual rl
  | ORefund amount => RefundTPM k tpm amount rl
  end.

Definition op_ok (o : tpm_op) : Prop :=
  match o with OCheck tokens _ => 0 <= tokens | _ => True end.

Lemma f_clamp_top m x : f_nonneg m → f_nonneg x →
  f_nonneg (if f_ltb m x then m else x) ∧ f_atmost m (if f_ltb m x then m else x).
Proof.
  intros Hm Hx. destruct (f_ltb m x) eqn:E; split; try done. apply f_ltb_irrefl.
Qed.

Lemma refill_ok tpm window now b :
  0 <= tpm → f_ltb f_zero (duration_seconds window) = true →
  level_ok tpm b → level_ok tpm (refill tpm window now b).
Proof.
  intros Ht Hw [Hb Hm]. unfold refill.
  destruct (f_ltb f_zero (duration_seconds (now - _))) eqn:E; [|done].
  apply f_clamp_top; [by apply f_of_int_nonneg|]. simpl.
  apply f_add_nonneg; [done|]. apply f_mul_nonneg; [by apply f_ltb_asym|].
  unfold refillRate. apply f_div_nonneg; [by apply f_of_int_nonneg|done].
Qed.

Lemma full_ok tpm now : 0 <= tpm → level_ok tpm (Bucket (f_of_int (F := F) tpm) now).
Proof. intros Ht. split; [by apply f_of_int_nonneg|apply f_ltb_irrefl]. Qed.

Lemma bucket_or_full_ok k tpm now rl :
  0 <= tpm → bucket_ok k tpm rl → level_ok tpm (bucket_or_full k tpm now rl).
Proof.
  intros Ht. unfold bucket_ok, bucket_or_full.
  destruct (rl_tokens rl !! k); [done|intros _; by apply full_ok].
Qed.

Lemma bucket_ok_insert k tpm b rl :
  level_ok tpm b → bucket_ok k tpm (set_tokens (<[k := b]> (rl_tokens rl)) rl).
Proof. intros Hb. unfold bucket_ok; cbn. by rewrite lookup_insert_eq. Qed.

Lemma run_op_ok k tpm o rl :
  0 <= tpm → f_ltb (F := F) f_zero (duration_seconds (rl_window rl)) = true → op_ok o →
  bucket_ok k tpm rl → bucket_ok k tpm (run_op k tpm rl o).
Proof.
  intros Ht Hw Ho Hb. destruct o as [tokens now|reserved actual|amount]; cbn.
  - pose proof (refill_ok tpm _ now _ Ht Hw (bucket_or_full_ok k tpm now rl Ht Hb)) as [Hlo Hhi].
    unfold checkTPM. destruct (f_ltb _ (f_of_int tokens)) eqn:E; cbn;
      apply bucket_ok_insert; [done|].
    split; [by apply f_sub_nonneg|]. apply f_sub_atmost; [by apply f_of_int_nonneg|done].
  - unfold SettleTokenUsage. destruct (_ || _ || _) eqn:E; [done|]. bsplit.
    destruct (rl_tokens rl !! k) as [b|] eqn:Eb; [|done]. apply bucket_ok_insert.
    unfold bucket_ok in Hb. rewrite Eb in Hb. destruct Hb as [Hlo Hhi]. split; cbn.
    + destruct (f_ltb (f_sub _ _) f_zero) eqn:El; [apply f_ltb_irrefl|done].
    + destruct (f_ltb (f_sub _ _) f_zero) eqn:El; [by apply f_of_int_nonneg|].
      apply f_sub_atmost; [apply f_of_int_nonneg; lia|done].
  - unfold RefundTPM. destruct (_ || _ || _) eqn:E; [done|]. bsplit.
    destruct (rl_tokens rl !! k) as [b|] eqn:Eb; [|done]. apply bucket_ok_insert.
    unfold bucket_ok in Hb. rewrite Eb in Hb. destruct Hb as [Hlo Hhi].
    apply f_clamp_top; [by apply f_of_int_nonneg|].
    apply f_add_nonneg; [done|apply f_of_int_nonneg; lia].
Qed.

Lemma run_op_window k tpm o rl : rl_window (run_op k tpm rl o) = rl_window rl.
Proof.
  destruct o; cbn; unfold checkTPM, SettleTokenUsage, RefundTPM; by repeat (case_match; cbn; try done).
Qed.
End Bounds.

(** ** Exact arithmetic: long-run rate and retry hint *)

Section Rate.
Implicit Types rl : limiter Q.

Lemma duration_seconds_Q d : (duration_seconds (F := Q) d == inject_Z d / inject_Z Second)%Q.
Proof.
  unfold duration_seconds; cbn [f_add f_div f_of_int GoFloat_Q]. change 1000000000 with Second.
  pose proof (Z.quot_rem' d Second) as E. rewrite E at 3.
  rewrite inject_Z_plus, inject_Z_mult. field. done.
Qed.

Lemma seconds_pos d : f_ltb (F := Q) f_zero (duration_seconds d) = true ↔ 0 < d.
Proof.
  rewrite Q_ltb_true, duration_seconds_Q. unfold f_zero; cbn. rewrite Zlt_Qlt. split; intros Hq.
  - apply (Qmult_lt_r _ _ (inject_Z Second)) in Hq; [|done].
    by rewrite Qmult_0_l, Qmult_comm, Qmult_div_r in Hq.
  - apply Qlt_shift_div_l; [done|]. by rewrite Qmult_0_l.
Qed.

(** Tokens per nanosecond, times a number of nanoseconds. *)
Definition accrued (tpm window dt : Z) : Q := inject_Z dt * (inject_Z tpm / inject_Z window).

Lemma refill_accrues tpm window now (b : bucket Q) : 0 < window → 0 <= tpm →
  let b' := refill tpm window now b in
  b_lastRefill b <= b_lastRefill b' ∧
  (b_tokens b' <= b_tokens b + accrued tpm window (b_lastRefill b' - b_lastRefill b))%Q.
Proof.
  intros Hw Ht. cbv zeta. unfold refill. destruct (f_ltb f_zero _) eqn:E.
  - apply seconds_pos in E. cbn [b_lastRefill b_tokens]. split; [lia|].
    apply Qle_trans with (f_add (b_tokens b) (f_mul (duration_seconds (now - b_lastRefill b)) (refillRate tpm window))).
    + destruct (f_ltb (f_of_int tpm) _) eqn:El; [|apply Qle_refl].
      apply Q_ltb_true in El. by apply Qlt_le_weak.
    + cbn [f_add f_mul GoFloat_Q]. apply Qplus_le_r. unfold refillRate, accrued.
      cbn [f_div f_of_int GoFloat_Q]. rewrite !duration_seconds_Q.
      apply Qle_lteq. right. field. split; [|done].
      intros Hz. assert (0 < inject_Z window)%Q by (change 0%Q with (inject_Z 0); by rewrite <- Zlt_Qlt).
      rewrite Hz in *. by apply Qlt_irrefl in H.
  - split; [lia|]. rewrite Z.sub_diag. unfold accrued. rewrite Qmult_0_l, Qplus_0_r. apply Qle_refl.
Qed.

(** Tokens an operation takes out of the budget for good, refunds counted
    negatively (settling only takes more out, and is left out of the sum). *)
Definition net_charge (k : string) (tpm : Z) rl (o : tpm_op) : Z :=
  match o with
  | OCheck tokens now => if (checkTPM k tpm tokens now rl).2 then tokens else 0
  | OSettle _ _ => 0
  | ORefund amount => - Z.max 0 amount
  end.

Fixpoint net_charges (k : string) (tpm : Z) rl (os : list tpm_op) : Z :=
  match os with
  | [] => 0
  | o :: os' => net_charge k tpm rl o + net_charges k tpm (run_op k tpm rl o) os'
  end.

Definition op_time_le (T : Z) (o : tpm_op) : Prop :=
  match o with OCheck _ now => now <= T | _ => True end.

Lemma settle_drop (t : Q) n : 0 <= n →
  (0 <= t)%Q →
  ((if f_ltb (f_sub t (f_of_int n)) f_zero then f_zero else f_sub t (f_of_int n)) <= t)%Q.
Proof.
  intros Hn Ht. destruct (f_ltb _ _); [done|]. cbn. unfold Qminus.
  rewrite <- (Qplus_0_r t) at 2. apply Qplus_le_r. change 0%Q with (- inject_Z 0)%Q.
  apply Qopp_le_compat. by rewrite <- Zle_Qle.
Qed.

Lemma run_op_budget k tpm o rl b T :
  0 < rl_window rl → 0 <= tpm → op_ok o → op_time_le T o → b_lastRefill b <= T →
  rl_tokens rl !! k = Some b → (0 <= b_tokens b)%Q →
  ∃ b', rl_tokens (run_op k tpm rl o) !! k = Some b' ∧
    b_lastRefill b <= b_lastRefill b' <= T ∧
    (inject_Z (net_charge k tpm rl o) + b_tokens b' <=
     b_tokens b + accrued tpm (rl_window rl) (b_lastRefill b' - b_lastRefill b))%Q.
Proof.
  intros Hw Ht Ho HT Hl Hb Hpos.
  assert (accrued tpm (rl_window rl) (b_lastRefill b - b_lastRefill b) == 0)%Q as Hz.
  { rewrite Z.sub_diag. unfold accrued. by rewrite Qmult_0_l. }
  destruct o as [tokens now|reserved actual|amount]; cbn in Ho, HT; cbn [run_op net_charge].
  - unfold checkTPM, bucket_or_full. rewrite Hb; cbn [from_option id].
    destruct (refill_accrues tpm (rl_window rl) now b Hw Ht) as [H1 H2].
    assert (b_lastRefill (refill tpm (rl_window rl) now b) <= T) as H3.
    { unfold refill. destruct (f_ltb _ _); cbn; lia. }
    set (b1 := refill tpm (rl_window rl) now b) in *.
    destruct (f_ltb (b_tokens b1) (f_of_int tokens)) eqn:E; cbn [fst snd].
    + exists b1. cbn. rewrite lookup_insert_eq. split_and!; try done. by rewrite Qplus_0_l.
    + eexists. cbn. rewrite lookup_insert_eq. split_and!; [done|cbn; lia..|]. cbn.
      eapply Qle_trans; [|exact H2]. apply Qle_lteq. right. ring.
  - exists (default b (rl_tokens (SettleTokenUsage k tpm reserved actual rl) !! k)).
    unfold SettleTokenUsage. destruct (_ || _ || _) eqn:E.
    + rewrite Hb; cbn. split_and!; try done. rewrite Hz, Qplus_0_l, Qplus_0_r. apply Qle_refl.
    + bsplit. rewrite Hb. cbn. rewrite lookup_insert_eq; cbn. split_and!; try done.
      rewrite Hz, Qplus_0_l, Qplus_0_r. apply settle_drop; [lia|done].
  - exists (default b (rl_tokens (RefundTPM k tpm amount rl) !! k)).
    unfold RefundTPM. destruct (_ || _ || _) eqn:E.
    + rewrite Hb; cbn. split_and!; try done. rewrite Hz, Qplus_0_r.
      rewrite <- (Qplus_0_l (b_tokens b)) at 2. apply Qplus_le_l. change 0%Q with (inject_Z 0).
      rewrite <- Zle_Qle. lia.
    + bsplit. rewrite Hb. cbn. rewrite lookup_insert_eq; cbn. split_and!; try done.
      rewrite Hz, Qplus_0_r, Z.max_r by lia. rewrite inject_Z_opp.
      assert ((if f_ltb (f_of_int tpm) (f_add (b_tokens b) (f_of_int amount)) then f_of_int tpm
               else f_add (b_tokens b) (f_of_int amount)) <= b_tokens b + inject_Z amount)%Q as Hle.
      { destruct (f_ltb (f_of_int tpm) _) eqn:El; [|apply Qle_refl].
        apply Q_ltb_true in El. by apply Qlt_le_weak. }
      cbn in Hle. rewrite <- (Qplus_0_r (b_tokens b)) at 3.
      rewrite <- (Qplus_opp_r (inject_Z amount)), Qplus_assoc, Qplus_comm. by apply Qplus_le_l.
Qed.

Lemma run_ops_budget k tpm os : ∀ rl b T,
  0 < rl_window rl → 0 <= tpm → Forall op_ok os → Forall (op_time_le T) os →
  b_lastRefill b <= T → rl_tokens rl !! k = Some b → level_ok tpm b →
  (inject_Z (net_charges k tpm rl os) <=
   b_tokens b + accrued tpm (rl_window rl) (T - b_lastRefill b))%Q.
Proof.
  induction os as [|o os IH]; intros rl b T Hw Ht Ho HT Hl Hb Hok; cbn [net_charges].
  - destruct Hok as [Hp _]. apply Q_ltb_false in Hp.
    rewrite <- (Qplus_0_r (inject_Z 0)). apply Qplus_le_compat; [exact Hp|].
    unfold accrued. apply Qmult_le_0_compat; [change 0%Q with (inject_Z 0); rewrite <- Zle_Qle; lia|].
    apply Qle_shift_div_l; [change 0%Q with (inject_Z 0); by rewrite <- Zlt_Qlt|].
    rewrite Qmult_0_l. change 0%Q with (inject_Z 0). by rewrite <- Zle_Qle.
  - apply Forall_cons in Ho as [Ho Hos]. apply Forall_cons in HT as [HT HTs].
    pose proof Hok as [Hp _]. apply Q_ltb_false in Hp.
    destruct (run_op_budget k tpm o rl b T Hw Ht Ho HT Hl Hb Hp) as (b' & Hb' & [Hl1 Hl2] & Hle).
    assert (bucket_ok k tpm (run_op k tpm rl o)) as Hok'.
    { apply run_op_ok; [done|by apply seconds_pos|done|]. unfold bucket_ok. by rewrite Hb. }
    unfold bucket_ok in Hok'. rewrite Hb' in Hok'.
    specialize (IH (run_op k tpm rl o) b' T). rewrite run_op_window in IH.
    specialize (IH Hw Ht Hos HTs Hl2 Hb' Hok').
    rewrite inject_Z_plus.
    apply Qle_trans with (inject_Z (net_charge k tpm rl o) +
      (b_tokens b' + accrued tpm (rl_window rl) (T - b_lastRefill b')))%Q.
    { by apply Qplus_le_r. }
    rewrite Qplus_assoc.
    apply Qle_trans with (b_tokens b + accrued tpm (rl_window rl) (b_lastRefill b' - b_lastRefill b)
      + accrued tpm (rl_window rl) (T - b_lastRefill b'))%Q.
    { by apply Qplus_le_l. }
    apply Qle_lteq. right. rewrite <- Qplus_assoc. apply Qplus_comp; [reflexivity|].
    unfold accrued. rewrite <- Qmult_plus_distr_l, <- inject_Z_plus.
    by replace (b_lastRefill b' - b_lastRefill b + (T - b_lastRefill b')) with (T - b_lastRefill b) by lia.
Qed.

Lemma refill_idem tpm window now (b : bucket Q) :
  refill tpm window now (refill tpm window now b) = refill tpm window now b.
Proof.
  unfold refill at 2 3. destruct (f_ltb f_zero (duration_seconds (now - b_lastRefill b))) eqn:E.
  - unfold refill. cbn [b_lastRefill]. rewrite Z.sub_diag.
    by destruct (f_ltb f_zero (duration_seconds 0)) eqn:E0; [vm_compute in E0|].
  - unfold refill. by rewrite E.
Qed.

Lemma refill_tokens_indep tpm window now (b : bucket Q) t :
  refill tpm window now b = b → refill tpm window now (Bucket t (b_lastRefill b)) = Bucket t (b_lastRefill b).
Proof.
  unfold refill. cbn [b_lastRefill b_tokens]. destruct (f_ltb f_zero _) eqn:E; [|done].
  intros Hb. rewrite <- Hb in E. cbn [b_lastRefill] in E. rewrite Z.sub_diag in E. by vm_compute in E.
Qed.

(** The level of [k] once refilled to [now]. *)
Definition level_at (k : string) (tpm now : Z) rl : Q :=
  b_tokens (refill tpm (rl_window rl) now (bucket_or_full k tpm now rl)).

Lemma level_at_same k tpm now rl rl' :
  rl_tokens rl' !! k = rl_tokens rl !! k → rl_window rl' = rl_window rl →
  level_at k tpm now rl' = level_at k tpm now rl.
Proof. intros E1 E2. unfold level_at, bucket_or_full. by rewrite E1, E2. Qed.

Lemma level_at_insert k tpm now rl b :
  level_at k tpm now (set_tokens (<[k := b]> (rl_tokens rl)) rl) =
  b_tokens (refill tpm (rl_window rl) now b).
Proof.
  unfold level_at, bucket_or_full. cbn [rl_tokens rl_window set_tokens].
  by rewrite lookup_insert_eq.
Qed.

Lemma refused_charge_free k tpm tokens now rl rl' :
  checkTPM k tpm tokens now rl = (rl', false) → level_at k tpm now rl' = level_at k tpm now rl.
Proof.
  unfold checkTPM. destruct (f_ltb _ _) eqn:E; intros [= <-].
  rewrite level_at_insert. by rewrite refill_idem.
Qed.

Lemma charge_refund k tpm tokens now rl rl1 rl2 :
  0 <= tpm → 0 < rl_window rl → 0 <= tokens → k ≠ ""%string → bucket_ok k tpm rl →
  checkTPM k tpm tokens now rl = (rl1, true) →
  rl_tokens rl2 !! k = rl_tokens rl1 !! k → rl_window rl2 = rl_window rl1 →
  (level_at k tpm now (if 0 <? tokens then RefundTPM k tpm tokens rl2 else rl2) == level_at k tpm now rl)%Q.
Proof.
  intros Ht Hw Hp Hk Hok. unfold checkTPM.
  set (b := refill tpm (rl_window rl) now (bucket_or_full k tpm now rl)).
  assert (level_ok tpm b) as [Hlo Hhi].
  { apply refill_ok; [done|by apply seconds_pos|by apply bucket_or_full_ok]. }
  destruct (f_ltb (b_tokens b) _) eqn:E; intros [= <-] Ek Ew.
  cbn in Ek, Ew. rewrite lookup_insert_eq in Ek.
  assert (refill tpm (rl_window rl) now b = b) as Hid by apply refill_idem.
  assert (∀ rl3 t, rl_tokens rl3 !! k = Some (Bucket t (b_lastRefill b)) →
            rl_window rl3 = rl_window rl → level_at k tpm now rl3 = t) as Hlvl.
  { intros rl3 t E3 Ew3. unfold level_at, bucket_or_full. rewrite E3, Ew3; cbn [from_option id].
    by rewrite refill_tokens_indep. }
  change (level_at k tpm now rl) with (b_tokens b).
  case (Z.ltb_spec 0 tokens); intros Hpos.
  - unfold RefundTPM. destruct (_ || _ || _) eqn:Eg.
    { apply orb_true_iff in Eg as [Eg|Eg]; [|lia]. apply orb_true_iff in Eg as [Eg|Eg].
      - assert (tpm = 0) as -> by lia. apply Q_ltb_false in Hlo, Hhi, E. cbn in E.
        assert (inject_Z tokens <= inject_Z 0)%Q as Hle by (by eapply Qle_trans).
        rewrite <- Zle_Qle in Hle. lia.
      - by bsplit. }
    rewrite Ek. erewrite Hlvl; [|cbn; by rewrite lookup_insert_eq|done]. cbn.
    assert (b_tokens b - inject_Z tokens + inject_Z tokens == b_tokens b)%Q as Eq by ring.
    destruct (negb _) eqn:El; [|done].
    change (f_ltb (inject_Z tpm) (b_tokens b - inject_Z tokens + inject_Z tokens)%Q = true) in El.
    apply Q_ltb_true in El. rewrite Eq in El. apply Q_ltb_false in Hhi.
    exfalso. by apply (Qlt_not_le _ _ El).
  - rewrite (Hlvl _ _ Ek Ew). assert (tokens = 0) as -> by lia. cbn. ring.
Qed.

Lemma checkTPMOnly_refused k tpm tokens now rl rl' ra sc :
  checkTPMOnly (F := Q) k tpm tokens now rl = (rl', (false, ra, sc)) →
  checkTPM k tpm tokens now rl = (rl', false) ∧ ra = tpmRetryAfter k tpm tokens rl' ∧ sc = "tpm"%string.
Proof. unfold checkTPMOnly. destruct (checkTPM _ _ _ _ _) as [rl1 []]; [done|]. by intros [= <- <- <-]. Qed.

Lemma refillRate_pos tpm window : 0 < tpm → 0 < window → (0 < refillRate (F := Q) tpm window)%Q.
Proof.
  intros Ht Hw. unfold refillRate; cbn. apply Qlt_shift_div_l.
  - by apply Q_ltb_true, seconds_pos.
  - rewrite Qmult_0_l. change 0%Q with (inject_Z 0). by rewrite <- Zlt_Qlt.
Qed.

(** Truncation plus one is above a positive quotient. *)
Lemma trunc_succ (x : Q) : (0 <= x)%Q → (x < inject_Z (f_trunc x + 1))%Q.
Proof.
  destruct x as [n d]. unfold Qle, Qlt; cbn. rewrite !Z.mul_1_r. intros Hn.
  rewrite Z.quot_div_nonneg by lia.
  pose proof (Z.mod_pos_bound n (Zpos d) ltac:(lia)). pose proof (Z.div_mod n (Zpos d) ltac:(lia)). nia.
Qed.

(** Enough time has passed for the missing tokens to accrue. *)
Lemma retry_accepts tpm window now (b : bucket Q) tokens r :
  0 < window → tokens <= tpm → (0 < refillRate (F := Q) tpm window)%Q →
  ((inject_Z tokens - b_tokens b) / refillRate tpm window < inject_Z r)%Q →
  0 < r → b_lastRefill b + r * Second <= now →
  f_ltb (b_tokens (refill tpm window now b)) (f_of_int tokens) = false.
Proof.
  intros Hw Htok HR Hx Hr Hnow. apply Q_ltb_false. unfold refill.
  assert (inject_Z r <= duration_seconds (now - b_lastRefill b))%Q as Hel.
  { rewrite duration_seconds_Q. apply Qle_shift_div_l; [done|].
    rewrite <- inject_Z_mult, <- Zle_Qle. lia. }
  rewrite (proj2 (seconds_pos _)) by (unfold Second in *; lia). cbn [b_tokens].
  destruct (f_ltb (f_of_int tpm) _) eqn:El; [cbn; by rewrite <- Zle_Qle|].
  cbn [f_of_int f_add f_mul GoFloat_Q].
  assert (inject_Z tokens - b_tokens b <= duration_seconds (now - b_lastRefill b) * refillRate tpm window)%Q as Hm.
  { apply Qle_trans with (inject_Z r * refillRate tpm window)%Q.
    - apply Qlt_le_weak. apply (Qmult_lt_r _ _ (refillRate tpm window)) in Hx; [|done].
      rewrite Qmult_comm, Qmult_div_r in Hx; [done|]. intros Hz. rewrite Hz in HR. by apply Qlt_irrefl in HR.
    - apply Qmult_le_compat_r; [done|by apply Qlt_le_weak]. }
  apply (Qplus_le_r _ _ (b_tokens b)) in Hm.
  eapply Qle_trans; [|exact Hm]. apply Qle_lteq. right. ring.
Qed.

End Rate.

(** ** Properties *)

(** The level of a key's token bucket never leaves [0, tpm], whatever
    sequence of charges, settlements and refunds it goes through, in any
    arithmetic that obeys the order laws of IEEE 754 (so rounding cannot bank
    credit, and an over-long request cannot push the level below zero). *)
Theorem tpm_level_bounded {F} `{GoFloatLaws F} k tpm os (rl : limiter F) :
  0 <= tpm → f_ltb (F := F) f_zero (duration_seconds (rl_window rl)) = true → Forall op_ok os →
  bucket_ok k tpm rl → bucket_ok k tpm (foldl (run_op k tpm) rl os).
Proof.
  intros Ht Hw Ho. revert rl Hw. induction Ho as [|o os Ho Hos IH]; intros rl Hw Hb; [done|].
  cbn [foldl]. apply IH; [by rewrite run_op_window|by apply run_op_ok].
Qed.

(** Long-run conformance: over any sequence of charges, settlements and
    refunds up to time [T], the tokens admitted, less the tokens refunded, are
    at most one full bucket plus what the rate [tpm / window] accrues since the
    bucket's last refill (exact arithmetic). *)
Theorem tpm_long_run_rate k tpm os (rl : limiter Q) b T :
  0 < rl_window rl → 0 <= tpm → Forall op_ok os → Forall (op_time_le T) os →
  b_lastRefill b <= T → rl_tokens rl !! k = Some b → level_ok tpm b →
  (inject_Z (net_charges k tpm rl os) <=
   inject_Z tpm + accrued tpm (rl_window rl) (T - b_lastRefill b))%Q.
Proof.
  intros Hw Ht Ho HT Hl Hb Hok. eapply Qle_trans; [by eapply run_ops_budget|].
  apply Qplus_le_l. destruct Hok as [_ Hhi]. by apply Q_ltb_false in Hhi.
Qed.

(** The Retry-After of a TPM refusal is enough: the same charge, repeated
    that many seconds later with no other traffic on the key, is accepted
    (exact arithmetic; a charge above the whole budget never is). *)
Theorem tpmRetryAfter_suffices k tpm tokens now now' (rl rl' : limiter Q) ra sc :
  0 < tpm → 0 < rl_window rl → tokens <= tpm →
  b_lastRefill (bucket_or_full k tpm now rl) <= now →
  checkTPMOnly k tpm tokens now rl = (rl', (false, ra, sc)) →
  now + ra * Second <= now' → (checkTPM k tpm tokens now' rl').2 = true.
Proof.
  intros Ht Hw Htok Hl (Hc & -> & ->)%checkTPMOnly_refused Hra. unfold checkTPM in Hc.
  set (b := refill tpm (rl_window rl) now (bucket_or_full k tpm now rl)) in *.
  destruct (f_ltb (b_tokens b) (f_of_int tokens)) eqn:E; simplify_eq.
  assert (b_lastRefill b <= now) as Hb by (unfold b, refill; destruct (f_ltb f_zero _); cbn; lia).
  unfold tpmRetryAfter in Hra. cbn [rl_tokens rl_window set_tokens] in Hra.
  rewrite lookup_insert_eq in Hra.
  apply Q_ltb_true in E. cbn in E.
  assert (f_ltb f_zero (f_sub (f_of_int tokens) (b_tokens b)) = true) as Hd
    by (apply Q_ltb_true; by apply -> Qlt_minus_iff).
  rewrite Hd in Hra. cbn [negb] in Hra. apply Q_ltb_true in Hd.
  pose proof (refillRate_pos tpm (rl_window rl) Ht Hw) as HR.
  set (R := refillRate tpm (rl_window rl)) in *.
  set (x := f_div (f_sub (f_of_int tokens) (b_tokens b)) R) in *.
  assert (0 <= x)%Q as Hx0.
  { unfold x; cbn. apply Qle_shift_div_l; [done|]. rewrite Qmult_0_l. by apply Qlt_le_weak. }
  pose proof (trunc_succ x Hx0) as Hx.
  set (r := f_trunc x + 1) in *.
  assert (0 < r) by (apply (Qle_lt_trans _ _ _ Hx0) in Hx; by rewrite Zlt_Qlt).
  unfold checkTPM, bucket_or_full. cbn [rl_tokens rl_window set_tokens].
  rewrite lookup_insert_eq. cbn [from_option id].
  rewrite (retry_accepts tpm (rl_window rl) now' b tokens r); [done..|lia].
Qed.

(** A refused request costs no tokens: whether the handler answers 403 for
    a spent quota, 429 because the bucket is short, or 429 because the queue
    refused or timed out (after the charge was taken), the key's level at that
    moment is what refilling alone gives. [acquire] stands for the wait and
    everything that runs meanwhile, as long as that leaves this bucket alone. *)
Theorem refused_request_costs_no_tokens acquire next release usage d plans key prompt now
    (rl rl' : limiter Q) r :
  (∀ k rpm c q rl, rl_tokens (acquire k rpm c q rl).1 !! k = rl_tokens rl !! k ∧
                   rl_window (acquire k rpm c q rl).1 = rl_window rl) →
  let k := key_ID key in let tpm := TPM (limitsFor plans key d) in
  0 < rl_window rl → 0 <= prompt → k ≠ ""%string → 0 <= tpm → bucket_ok k tpm rl →
  RequireRateLimit acquire next release usage d plans (Some key) prompt now rl = (rl', r) →
  r ≠ Served → (level_at k tpm now rl' == level_at k tpm now rl)%Q.
Proof.
  intros Hacq k tpm Hw Hp Hk Ht Hok. unfold RequireRateLimit. fold k tpm.
  destruct (quotaCheck key _ usage); [by intros [= <- <-]|].
  case (Z.ltb_spec 0 tpm); intros Hpos.
  - destruct (checkTPMOnly k tpm prompt now rl) as [rl1 [[ok ra] sc]] eqn:Hc.
    unfold checkTPMOnly in Hc. destruct (checkTPM k tpm prompt now rl) as [rl0 []] eqn:Ec;
      simplify_eq; cbn [negb].
    + destruct (Hacq k (RPM (limitsFor plans key d)) (Concurrency (limitsFor plans key d))
        (QueueTimeout (limitsFor plans key d)) rl1) as [E1 E2].
      destruct (acquire k _ _ _ rl1) as [rl2 []]; cbn [negb fst] in *; intros [= <- <-]; [done|].
      intros _. by apply (charge_refund k tpm prompt now rl rl1 rl2).
    + intros [= <- <-] _. by rewrite (refused_charge_free _ _ _ _ _ _ Ec).
  - cbn [negb]. destruct (Hacq k (RPM (limitsFor plans key d)) (Concurrency (limitsFor plans key d))
        (QueueTimeout (limitsFor plans key d)) rl) as [E1 E2].
    destruct (acquire k _ _ _ rl) as [rl2 []]; cbn [negb fst] in *; intros [= <- <-]; [done|].
    intros _. by rewrite (level_at_same _ _ _ rl rl2).
Qed.

(** *** Witnesses *)

Module TpmDemo.
Definition k : string := "k".
Definition rl0 : limiter Q := set_tokens {[ k := Bucket (inject_Z 10) 0 ]} (NewRateLimiter Minute).
Definition ops : list tpm_op := [OCheck 8 0; OCheck 8 0; ORefund 3; OCheck 20 (30 * Second); OSettle 5 9].
Definition key : APIKey := MkAPIKey k (B "sk") None None (Some 100) (Some 1) None None.
Definition busy (_ : string) (_ _ _ : Z) (rl : limiter Q) : limiter Q * bool := (rl, false).

Lemma ops_ok : Forall op_ok ops.
Proof. repeat constructor; cbn; lia. Qed.

Lemma ops_time : Forall (op_time_le (30 * Second)) ops.
Proof. repeat constructor; cbn; unfold Second; lia. Qed.

Lemma rl0_ok : bucket_ok k 60 rl0.
Proof. split; by vm_compute. Qed.
End TpmDemo.

Lemma tpm_level_bounded_witness :
  bucket_ok TpmDemo.k 60 (foldl (run_op TpmDemo.k 60) TpmDemo.rl0 TpmDemo.ops).
Proof.
  exact (tpm_level_bounded TpmDemo.k 60 TpmDemo.ops TpmDemo.rl0 ltac:(lia) eq_refl
    TpmDemo.ops_ok TpmDemo.rl0_ok).
Defined.

Lemma tpm_long_run_rate_witness :
  (inject_Z (net_charges TpmDemo.k 60 TpmDemo.rl0 TpmDemo.ops) <=
   inject_Z 60 + accrued 60 (rl_window TpmDemo.rl0) (30 * Second - b_lastRefill (Bucket (inject_Z 10) 0)))%Q.
Proof.
  exact (tpm_long_run_rate TpmDemo.k 60 TpmDemo.ops TpmDemo.rl0 (Bucket (inject_Z 10) 0) (30 * Second)
    eq_refl ltac:(lia) TpmDemo.ops_ok TpmDemo.ops_time ltac:(cbn; unfold Second; lia) eq_refl
    TpmDemo.rl0_ok).
Defined.

Lemma tpmRetryAfter_suffices_witness :
  (checkTPMOnly TpmDemo.k 60 25 0 TpmDemo.rl0).2 = (false, 16, "tpm"%string) ∧
  (checkTPM TpmDemo.k 60 25 (16 * Second) (checkTPMOnly TpmDemo.k 60 25 0 TpmDemo.rl0).1).2 = true.
Proof.
  split; [by vm_compute|].
  apply (tpmRetryAfter_suffices TpmDemo.k 60 25 0 (16 * Second) TpmDemo.rl0
    (checkTPMOnly TpmDemo.k 60 25 0 TpmDemo.rl0).1 16 "tpm"); by vm_compute.
Defined.

Lemma refused_request_witness :
  let run := RequireRateLimit TpmDemo.busy (λ _ rl, rl) (λ _ rl, rl) None None None
    (Some TpmDemo.key) 4 Second TpmDemo.rl0 in
  run.2 = RateLimited 61 "concurrency" ∧
  (level_at TpmDemo.k 100 Second run.1 == level_at TpmDemo.k 100 Second TpmDemo.rl0)%Q.
Proof.
  split; [by vm_compute|].
  apply (refused_request_costs_no_tokens TpmDemo.busy (λ _ rl, rl) (λ _ rl, rl) None None None
    TpmDemo.key 4 Second TpmDemo.rl0 _ (RateLimited 61 "concurrency")); try done;
    try by vm_compute.
Defined.
