(* ===== verification/Json.v ===== *)
(** * JSON values ([encoding/json/v2])

    A decoded [any], field access on decoded objects, the interface of the
    codec the components are stated against, and a concrete codec that the
    witnesses and examples compute with. *)

From S2P Require Import Prelude GoRegexp.

(** ** Values

    An object is the association list of its members in some iteration order
    of the Go map; the decoder rejects duplicate names. A number keeps its
    literal. *)
Inductive json :=
  | JNull
  | JBool (b : bool)
  | JNum (lit : bytes)
  | JStr (s : bytes)
  | JArr (l : list json)
  | JObj (m : list (bytes * json)).

Section JsonInd.
Variable P : json → Prop.
Hypothesis Hnull : P JNull.
Hypothesis Hbool : ∀ b, P (JBool b).
Hypothesis Hnum : ∀ n, P (JNum n).
Hypothesis Hstr : ∀ s, P (JStr s).
Hypothesis Harr : ∀ l, Forall P l → P (JArr l).
Hypothesis Hobj : ∀ m, Forall (λ kv, P kv.2) m → P (JObj m).

Fixpoint json_nested_ind (j : json) : P j :=
  match j with
  | JNull => Hnull
  | JBool b => Hbool b
  | JNum n => Hnum n
  | JStr s => Hstr s
  | JArr l =>
      Harr l ((fix go l : Forall P l :=
                 match l with
                 | [] => Forall_nil_2 P
                 | x :: l' => Forall_cons_2 P x l' (json_nested_ind x) (go l')
                 end) l)
  | JObj m =>
      Hobj m ((fix go m : Forall (λ kv, P kv.2) m :=
                 match m with
                 | [] => Forall_nil_2 _
                 | kv :: m' => Forall_cons_2 (λ kv, P kv.2) kv m' (json_nested_ind kv.2) (go m')
                 end) m)
  end.
End JsonInd.

(** ** Members of an object *)

Definition object := list (bytes * json).

(** [m[k]]: [JNull] stands for an absent member, which every reader in the
    source treats like one of the wrong type. *)
Fixpoint obj_get (k : bytes) (m : object) : json :=
  match m with
  | [] => JNull
  | (k', v) :: m' => if bool_decide (k = k') then v else obj_get k m'
  end.

(** [m[k] = v] on a member that exists. *)
Fixpoint obj_set (k : bytes) (v : json) (m : object) : object :=
  match m with
  | [] => []
  | (k', v') :: m' => if bool_decide (k = k') then (k', v) :: m' else (k', v') :: obj_set k v m'
  end.

Definition as_str (j : json) : option bytes := match j with JStr s => Some s | _ => None end.
Definition as_obj (j : json) : option object := match j with JObj m => Some m | _ => None end.
Definition as_arr (j : json) : option (list json) := match j with JArr l => Some l | _ => None end.

Lemma obj_get_set k v m : obj_get k m ≠ JNull → obj_get k (obj_set k v m) = v.
Proof.
  induction m as [|[k' v'] m IH]; simpl; [done|]. case_bool_decide; simpl.
  - by rewrite bool_decide_eq_true_2.
  - rewrite bool_decide_eq_false_2 by done. apply IH.
Qed.

Lemma obj_get_set_ne k k2 v m : k ≠ k2 → obj_get k (obj_set k2 v m) = obj_get k m.
Proof.
  intros Hne. induction m as [|[k' v'] m IH]; simpl; [done|].
  destruct (decide (k2 = k')) as [->|Hk].
  - rewrite bool_decide_eq_true_2 by done. simpl. by rewrite bool_decide_eq_false_2.
  - rewrite bool_decide_eq_false_2 by done. simpl. case_bool_decide; [done|exact IH].
Qed.

(** [m[k] = v]; a new member comes last. *)
Definition obj_put (k : bytes) (v : json) (m : object) : object :=
  if bool_decide (k ∈ m.*1) then obj_set k v m else m ++ [(k, v)].

Lemma obj_get_set_in k v m : k ∈ m.*1 → obj_get k (obj_set k v m) = v.
Proof.
  induction m as [|[k' v'] m IH]; cbn; [by intros ?%elem_of_nil|]. intros Hin. case_bool_decide as E; cbn.
  - by rewrite bool_decide_eq_true_2.
  - rewrite bool_decide_eq_false_2 by done. apply IH. set_solver.
Qed.

Lemma obj_get_app k m m' : k ∉ m.*1 → obj_get k (m ++ m') = obj_get k m'.
Proof.
  induction m as [|[k' v'] m IH]; cbn; [done|]. intros [? ?]%not_elem_of_cons.
  rewrite bool_decide_eq_false_2 by done. by apply IH.
Qed.

(** Reading back a member just written. *)
Lemma obj_get_put_eq k v m : obj_get k (obj_put k v m) = v.
Proof.
  unfold obj_put. case_bool_decide as Hin; [by apply obj_get_set_in|].
  rewrite obj_get_app by done. cbn. by rewrite bool_decide_eq_true_2.
Qed.

Lemma obj_get_put_ne k k2 v m : k ≠ k2 → obj_get k (obj_put k2 v m) = obj_get k m.
Proof.
  intros Hne. unfold obj_put. case_bool_decide; [by apply obj_get_set_ne|].
  induction m as [|[k' v'] m IH]; cbn.
  - by rewrite bool_decide_eq_false_2.
  - case_bool_decide; [done|]. apply IH. set_solver.
Qed.

(** ** The codec *)

Class JsonCodec := {
  unmarshal : bytes → option json;   (* into [any]; [None] is an error *)
  marshal : json → bytes;
  unmarshal_nil : unmarshal [] = None   (* an empty text *)
}.

(** *** A concrete decoder: RFC 8259, rejecting invalid UTF-8 and duplicate
    names as version 2 of the package does. *)

Definition is_json_ws (c : ascii) : bool := let n := zb c in (n =? 32) || (n =? 9) || (n =? 10) || (n =? 13).
Definition skip_ws (s : bytes) : bytes := trim_left is_json_ws s.

Definition hex_val (c : ascii) : option Z :=
  let n := zb c in
  if (48 <=? n) && (n <=? 57) then Some (n - 48)
  else if (97 <=? n) && (n <=? 102) then Some (n - 87)
  else if (65 <=? n) && (n <=? 70) then Some (n - 55)
  else None.

Definition hex4 (s : bytes) : option (Z * bytes) :=
  match s with
  | a :: b :: c :: d :: s' =>
      x ← hex_val a; y ← hex_val b; z ← hex_val c; w ← hex_val d;
      Some (((x * 16 + y) * 16 + z) * 16 + w, s')
  | _ => None
  end.

Definition utf8_encode (r : Z) : bytes :=
  if r <? 128 then [bz r]
  else if r <? 2048 then [bz (192 + r / 64); bz (128 + r mod 64)]
  else if r <? 65536 then [bz (224 + r / 4096); bz (128 + r / 64 mod 64); bz (128 + r mod 64)]
  else [bz (240 + r / 262144); bz (128 + r / 4096 mod 64); bz (128 + r / 64 mod 64); bz (128 + r mod 64)].

(** After the escape [\u]; surrogates must come in pairs. *)
Definition parse_u (s : bytes) : option (bytes * bytes) :=
  '(r, s1) ← hex4 s;
  if (55296 <=? r) && (r <? 56320) then
    match s1 with
    | b1 :: b2 :: s2 =>
        if bool_decide (b1 = "\"%char) && bool_decide (b2 = "u"%char) then
          '(r2, s3) ← hex4 s2;
          if (56320 <=? r2) && (r2 <? 57344)
          then Some (utf8_encode (65536 + (r - 55296) * 1024 + (r2 - 56320)), s3) else None
        else None
    | _ => None
    end
  else if (56320 <=? r) && (r <? 57344) then None
  else Some (utf8_encode r, s1).

Definition escape_char (c : ascii) : option bytes :=
  if bool_decide (c ∈ ["034"; "\"; "/"]%char) then Some [c]
  else if bool_decide (c = "b"%char) then Some [bz 8]
  else if bool_decide (c = "f"%char) then Some [bz 12]
  else if bool_decide (c = "n"%char) then Some [ch_lf]
  else if bool_decide (c = "r"%char) then Some [ch_cr]
  else if bool_decide (c = "t"%char) then Some [bz 9]
  else None.

(** The string up to its closing quote, and the rest. *)
Fixpoint parse_string (fuel : nat) (s : bytes) : option (bytes * bytes) :=
  match fuel with
  | O => None
  | S fuel' =>
      match s with
      | [] => None
      | c :: s' =>
          if bool_decide (c = "034"%char) then Some ([], s')
          else if bool_decide (c = "\"%char) then
            match s' with
            | e :: s2 =>
                if bool_decide (e = "u"%char) then
                  '(u, s3) ← parse_u s2; '(r, t) ← parse_string fuel' s3; Some (u ++ r, t)
                else u ← escape_char e; '(r, t) ← parse_string fuel' s2; Some (u ++ r, t)
            | [] => None
            end
          else if zb c <? 32 then None
          else if zb c <? 128 then '(r, t) ← parse_string fuel' s'; Some (c :: r, t)
          else let w := rune_width s in
               if (w <=? 1)%nat then None
               else '(r, t) ← parse_string fuel' (drop w s); Some (take w s ++ r, t)
      end
  end.

(** The span of a number literal: sign, integer part without leading zeros,
    fraction, exponent. *)
Definition span_digits (s : bytes) : bytes * bytes :=
  let t := trim_left is_digit s in (take (length s - length t) s, t).

Definition parse_number (s : bytes) : option (bytes * bytes) :=
  let '(sign, s1) := match s with c :: t => if bool_decide (c = "-"%char) then ([c], t) else ([], s) | [] => ([], s) end in
  let '(i, s2) := span_digits s1 in
  match i with
  | [] => None
  | d :: ds =>
      if bool_decide (d = "0"%char) && negb (bool_decide (ds = [])) then None
      else
        let frac := match s2 with
                    | c :: t => if bool_decide (c = "."%char)
                                then let '(f, t') := span_digits t in
                                     match f with [] => None | _ => Some (c :: f, t') end
                                else Some ([], s2)
                    | [] => Some ([], s2)
                    end in
        '(f, s3) ← frac;
        let expo := match s3 with
                    | c :: t =>
                        if bool_decide (c ∈ ["e"; "E"]%char) then
                          let '(sg, t1) := match t with
                                           | p :: t' => if bool_decide (p ∈ ["+"; "-"]%char) then ([p], t') else ([], t)
                                           | [] => ([], t) end in
                          let '(x, t2) := span_digits t1 in
                          match x with [] => None | _ => Some (c :: sg ++ x, t2) end
                        else Some ([], s3)
                    | [] => Some ([], s3)
                    end in
        '(x, s4) ← expo;
        Some (sign ++ i ++ f ++ x, s4)
  end.

Definition literal (w : string) (v : json) (s : bytes) : option (json * bytes) :=
  if has_prefix (B w) s then Some (v, drop (length (B w)) s) else None.

(** [parse_value] and the loops over array elements and object members; the
    fuel bounds the total number of values and separators. *)
Fixpoint parse_value (fuel : nat) (s : bytes) : option (json * bytes) :=
  match fuel with
  | O => None
  | S fuel' =>
      match skip_ws s with
      | [] => None
      | c :: s' =>
          if bool_decide (c = "034"%char) then
            '(x, t) ← parse_string (length s) s'; Some (JStr x, t)
          else if bool_decide (c = "["%char) then
            match skip_ws s' with
            | "]"%char :: t => Some (JArr [], t)
            | _ => '(l, t) ← parse_elems fuel' s'; Some (JArr l, t)
            end
          else if bool_decide (c = "{"%char) then
            match skip_ws s' with
            | "}"%char :: t => Some (JObj [], t)
            | _ => '(m, t) ← parse_members fuel' [] s'; Some (JObj m, t)
            end
          else if bool_decide (c = "t"%char) then literal "true" (JBool true) (c :: s')
          else if bool_decide (c = "f"%char) then literal "false" (JBool false) (c :: s')
          else if bool_decide (c = "n"%char) then literal "null" JNull (c :: s')
          else '(n, t) ← parse_number (c :: s'); Some (JNum n, t)
      end
  end
with parse_elems (fuel : nat) (s : bytes) : option (list json * bytes) :=
  match fuel with
  | O => None
  | S fuel' =>
      '(v, t) ← parse_value fuel' s;
      match skip_ws t with
      | ","%char :: t' => '(l, r) ← parse_elems fuel' t'; Some (v :: l, r)
      | "]"%char :: t' => Some ([v], t')
      | _ => None
      end
  end
with parse_members (fuel : nat) (seen : list bytes) (s : bytes) : option (object * bytes) :=
  match fuel with
  | O => None
  | S fuel' =>
      match skip_ws s with
      | "034"%char :: s' =>
          '(k, t) ← parse_string (length s) s';
          if bool_decide (k ∈ seen) then None
          else match skip_ws t with
               | ":"%char :: t1 =>
                   '(v, t2) ← parse_value fuel' t1;
                   match skip_ws t2 with
                   | ","%char :: t3 => '(m, r) ← parse_members fuel' (k :: seen) t3; Some ((k, v) :: m, r)
                   | "}"%char :: t3 => Some ([(k, v)], t3)
                   | _ => None
                   end
               | _ => None
               end
      | _ => None
      end
  end.

Definition json_decode (s : bytes) : option json :=
  '(v, t) ← parse_value (S (length s)) s;
  match skip_ws t with [] => Some v | _ => None end.

(** *** The encoder: no white space, the escapes JSON requires. *)

Definition hex_digit (n : Z) : ascii := if n <? 10 then bz (48 + n) else bz (87 + n).

Definition quote_char (c : ascii) : bytes :=
  if bool_decide (c ∈ ["034"; "\"]%char) then ["\"%char; c]
  else if bool_decide (c = bz 8) then B "\b"
  else if bool_decide (c = bz 12) then B "\f"
  else if bool_decide (c = ch_lf) then B "\n"
  else if bool_decide (c = ch_cr) then B "\r"
  else if bool_decide (c = bz 9) then B "\t"
  else if zb c <? 32 then B "\u00" ++ [hex_digit (zb c / 16); hex_digit (zb c mod 16)]
  else [c].

Definition quote (s : bytes) : bytes := "034"%char :: concat (map quote_char s) ++ ["034"%char].

Fixpoint json_encode (j : json) : bytes :=
  match j with
  | JNull => B "null"
  | JBool true => B "true"
  | JBool false => B "false"
  | JNum n => n
  | JStr s => quote s
  | JArr l => B "[" ++ join (B ",") (map json_encode l) ++ B "]"
  | JObj m => B "{" ++ join (B ",") (map (λ kv, quote kv.1 ++ B ":" ++ json_encode kv.2) m) ++ B "}"
  end.

Definition json_codec : JsonCodec := {| unmarshal := json_decode; marshal := json_encode; unmarshal_nil := eq_refl |}.

(** JSON text written with [~] for the double quote. *)
Definition js (s : string) : bytes := map (λ c, if bool_decide (c = "~"%char) then "034"%char else c) (B s).

Example json_sample :
  json_decode (js "{ ~a~ : [1, -2.5e3, ~x\n\u0041~, null], ~b~:{}}") =
    Some (JObj [(B "a", JArr [JNum (B "1"); JNum (B "-2.5e3"); JStr (B "x" ++ [ch_lf] ++ B "A"); JNull]);
                (B "b", JObj [])]) ∧
  json_decode (js "{~a~:1,~a~:2}") = None ∧ json_decode (js "[1,]") = None.
Proof. by vm_compute. Qed.

(** *** A codec with a round trip

    For witnesses that write data and read it back: every text is preceded by
    its length in strokes, members and elements by a comma. *)
Module Strokes.

Definition write_text (s : bytes) : bytes := replicate (length s) "|"%char ++ "."%char :: s.

Fixpoint read_text (n : nat) (s : bytes) : option (bytes * bytes) :=
  match s with
  | "|"%char :: s' => read_text (S n) s'
  | "."%char :: s' => Some (take n s', drop n s')
  | _ => None
  end.

Fixpoint encode (j : json) : bytes :=
  match j with
  | JNull => B "n"
  | JBool b => if b then B "t" else B "f"
  | JNum l => "#"%char :: write_text l
  | JStr s => "$"%char :: write_text s
  | JArr l => "["%char :: concat (map (λ x, ","%char :: encode x) l) ++ B "]"
  | JObj m => "{"%char :: concat (map (λ kv, ","%char :: write_text kv.1 ++ encode kv.2) m) ++ B "}"
  end.

(** Comma-separated items up to a closing bracket. *)
Fixpoint items {A} (close : ascii) (item : bytes → option (A * bytes)) (k : nat) (s : bytes) : option (list A * bytes) :=
  match k, s with
  | S k', c :: s' =>
      if bool_decide (c = close) then Some ([], s')
      else if bool_decide (c = ","%char) then
        '(x, r) ← item s'; '(xs, r) ← items close item k' r; Some (x :: xs, r)
      else None
  | _, _ => None
  end.

Fixpoint decode (n : nat) (s : bytes) : option (json * bytes) :=
  match n, s with
  | S n', "n"%char :: s' => Some (JNull, s')
  | S n', "t"%char :: s' => Some (JBool true, s')
  | S n', "f"%char :: s' => Some (JBool false, s')
  | S n', "#"%char :: s' => '(l, r) ← read_text 0 s'; Some (JNum l, r)
  | S n', "$"%char :: s' => '(t, r) ← read_text 0 s'; Some (JStr t, r)
  | S n', "["%char :: s' => '(l, r) ← items "]"%char (decode n') n s'; Some (JArr l, r)
  | S n', "{"%char :: s' =>
      '(m, r) ← items "}"%char (λ s, '(k, r) ← read_text 0 s; '(v, r) ← decode n' r; Some ((k, v), r)) n s'; Some (JObj m, r)
  | _, _ => None
  end.

Definition read (s : bytes) : option json :=
  match decode (length s) s with Some (j, []) => Some j | _ => None end.

Lemma read_write_text n s r : read_text n (write_text s ++ r) = Some (take (n + length s) (s ++ r), drop (n + length s) (s ++ r)).
Proof.
  unfold write_text. generalize (length s) as k. intros k. revert n. induction k as [|k IH]; intros n; cbn.
  - by rewrite Nat.add_0_r.
  - rewrite IH. by replace (S n + k)%nat with (n + S k)%nat by lia.
Qed.

Lemma read_write s r : read_text 0 (write_text s ++ r) = Some (s, r).
Proof. rewrite read_write_text. cbn [Nat.add]. by rewrite take_app_length, drop_app_length. Qed.

Lemma items_spec {A} close (item : bytes → option (A * bytes)) (enc : A → bytes) (l : list A) :
  close ≠ ","%char → ∀ k r, (length l < k)%nat →
  Forall (λ x, ∀ r, item (enc x ++ r) = Some (x, r)) l →
  items close item k (concat (map (λ x, ","%char :: enc x) l) ++ close :: r) = Some (l, r).
Proof.
  intros Hc. induction l as [|x l IH]; intros [|k] r Hk Hl; cbn [length] in Hk; try lia.
  - cbn. by rewrite bool_decide_eq_true_2.
  - inversion Hl as [|? ? Hx Hl']; subst. cbn. rewrite bool_decide_eq_false_2 by done. rewrite <- !app_assoc, Hx. cbn.
    rewrite IH; [done|lia|done].
Qed.

Lemma length_items {A} (f : A → bytes) (l : list A) : (length l <= length (concat (map (λ x, ","%char :: f x) l)))%nat.
Proof. induction l as [|x l IH]; cbn; [lia|]. rewrite length_app. lia. Qed.

Lemma item_shorter {A} (f : A → bytes) (l : list A) x :
  x ∈ l → (length (f x) < length (concat (map (λ x, ","%char :: f x) l)))%nat.
Proof.
  induction l as [|y l IH]; [by intros ?%elem_of_nil|]. intros [->|Hx]%elem_of_cons; cbn; rewrite length_app; [lia|].
  specialize (IH Hx). lia.
Qed.

Lemma decode_encode j : ∀ n r, (length (encode j) <= n)%nat → decode n (encode j ++ r) = Some (j, r).
Proof.
  induction j as [| | | |l IH|m IH] using json_nested_ind; intros [|k] r Hn; cbn [encode] in *; try (cbn in Hn; lia).
  - done.
  - destruct b; cbn in Hn; lia.
  - by destruct b.
  - cbn. by rewrite read_write.
  - cbn. by rewrite read_write.
  - cbn [length] in Hn. rewrite length_app in Hn. cbn [length B String.list_ascii_of_string] in Hn.
    pose proof (length_items encode l). cbn [app]. cbn [decode]. rewrite <- app_assoc.
    change (B "]" ++ r) with ("]"%char :: r). rewrite (items_spec "]"%char (decode k) encode l); [done|done|lia|].
    apply Forall_forall. intros x Hx r'. rewrite Forall_forall in IH. apply IH; [done|].
    pose proof (item_shorter encode l x Hx). lia.
  - cbn [length] in Hn. rewrite length_app in Hn. cbn [length B String.list_ascii_of_string] in Hn.
    pose (enc := λ kv : bytes * json, write_text kv.1 ++ encode kv.2).
    change (λ kv : bytes * json, ","%char :: write_text kv.1 ++ encode kv.2) with (λ kv : bytes * json, ","%char :: enc kv) in *.
    pose proof (length_items enc m). cbn [app]. cbn [decode]. rewrite <- app_assoc.
    change (B "}" ++ r) with ("}"%char :: r). rewrite (items_spec "}"%char _ enc m); [done|done|lia|].
    apply Forall_forall. intros [key v] Hx r'. unfold enc at 1. cbn [fst snd]. rewrite <- app_assoc, read_write. cbn [mbind option_bind].
    rewrite Forall_forall in IH. pose proof (item_shorter enc m _ Hx) as Hl. unfold enc at 1 in Hl. cbn [fst snd] in Hl.
    rewrite length_app in Hl. rewrite (IH (key, v) Hx); [done|]. cbn [snd]. lia.
Qed.

Definition codec : JsonCodec := {| unmarshal := read; marshal := encode; unmarshal_nil := eq_refl |}.

Lemma read_encode j : read (encode j) = Some j.
Proof. unfold read. rewrite <- (app_nil_r (encode j)) at 2. by rewrite decode_encode. Qed.

End Strokes.
