(* ===== verification/GuardEngine.v ===== *)
(** * Guardrail engine, policy resolution and the buffered taps

    [internal/guardrails/types.go], [engine.go], [resolver.go], [middleware.go],
    [context.go] and the buffered half of [outbound.go]: applying a policy to a
    text, to a decoded payload, to a request body and to a response body. *)

From S2P Require Import Prelude GoRegexp Detectors Json.

(** ** Actions and decisions *)

Definition Action := string.
Definition ActionAllow : Action := "allow".
Definition ActionLogOnly : Action := "log_only".
Definition ActionWarn : Action := "warn".
Definition ActionMask : Action := "mask".
Definition ActionBlock : Action := "block".

(** A missing map entry reads as 0. *)
Definition actionRank (a : Action) : Z :=
  if bool_decide (a = ActionLogOnly) then 1
  else if bool_decide (a = ActionWarn) then 2
  else if bool_decide (a = ActionMask) then 3
  else if bool_decide (a = ActionBlock) then 4
  else 0.

Definition StrictestAction (a b : Action) : Action :=
  if actionRank b <=? actionRank a then a else b.

Record Decision := mkDecision {
  dec_action : Action;
  dec_findings : list Finding;
  dec_mutated : bytes
}.

Definition allow : Decision := mkDecision ActionAllow [] [].
Definition Blocked (d : Decision) : bool := bool_decide (dec_action d = ActionBlock).
Definition WasMutated (d : Decision) : bool := negb (bool_decide (dec_mutated d = [])).

(** ** The engine; [None] is a nil [*Engine] *)

Record Engine := mkEngine { e_detectors : list string; e_action : Action }.

Definition NewEngine (detectors : list string) (action : Action) : Engine :=
  mkEngine detectors (if bool_decide (action = ""%string) then ActionLogOnly else action).

Definition Enabled (e : option Engine) : bool :=
  match e with
  | None => false
  | Some e => negb (bool_decide (e_detectors e = [])) && negb (bool_decide (e_action e = ActionAllow))
  end.

Definition runs (e : Engine) (name : string) : bool := existsb (λ d, bool_decide (d = name)) (e_detectors e).

Definition scan_findings (e : Engine) (text : bytes) : list Finding :=
  (if runs e "pii" then run piiDetectors text else []) ++
  (if runs e "injection" then run injectionDetectors text else []).

Definition Scan (eo : option Engine) (text : bytes) : Decision :=
  match eo with
  | None => allow
  | Some e =>
      if negb (Enabled eo) || bool_decide (text = []) then allow
      else
        let findings := scan_findings e text in
        match findings with
        | [] => allow
        | _ =>
            let mutated :=
              if bool_decide (e_action e = ActionMask) then
                let m := maskFindings text findings in
                if bool_decide (m = text) then [] else m
              else [] in
            mkDecision (e_action e) findings mutated
        end
  end.

(** The variables the closure [walk] updates. *)
Record walk_state := mkWalk { w_worst : Action; w_all : list Finding; w_mutated : bool }.

Definition walk_string (e : option Engine) (s : bytes) (st : walk_state) : bytes * walk_state :=
  let d := Scan e s in
  let st := mkWalk (StrictestAction (w_worst st) (dec_action d)) (w_all st ++ dec_findings d) (w_mutated st) in
  if WasMutated d then (dec_mutated d, mkWalk (w_worst st) (w_all st) true) else (s, st).

Fixpoint walk (e : option Engine) (v : json) (st : walk_state) : json * walk_state :=
  match v with
  | JStr s => let '(s', st') := walk_string e s st in (JStr s', st')
  | JArr l =>
      let '(l', st') :=
        (fix go l st := match l with
           | [] => ([], st)
           | x :: l' => let '(x', st) := walk e x st in
                        let '(l'', st) := go l' st in (x' :: l'', st)
           end) l st in
      (JArr l', st')
  | JObj m =>
      let '(m', st') :=
        (fix go m st := match m with
           | [] => ([], st)
           | kv :: m' => let '(x', st) := walk e kv.2 st in
                         let '(m'', st) := go m' st in ((kv.1, x') :: m'', st)
           end) m st in
      (JObj m', st')
  | _ => (v, st)
  end.

Definition boolMutated (b : bool) : bytes := if b then B "1" else [].

Definition ScanJSON (e : option Engine) (payload : json) : json * Decision :=
  if negb (Enabled e) then (payload, allow)
  else
    let '(out, st) := walk e payload (mkWalk ActionAllow [] false) in
    match w_all st with
    | [] => (out, allow)
    | _ => (out, mkDecision (w_worst st) (w_all st) (boolMutated (w_mutated st)))
    end.

(** ** Policy resolution *)

Record Target := mkTarget { t_Provider : bytes; t_Model : bytes; t_APIKeyID : bytes }.

Definition scopeChain (t : Target) : list (string * bytes) :=
  ("global"%string, []) ::
  (if bool_decide (t_Provider t = []) then [] else [("provider"%string, t_Provider t)]) ++
  (if bool_decide (t_Model t = []) then [] else [("model"%string, t_Model t)]) ++
  (if bool_decide (t_APIKeyID t = []) then [] else [("apikey"%string, t_APIKeyID t)]).

Definition policyConfig : Type := list string * Action.

Definition go_string (s : bytes) : string := String.string_of_list_ascii s.

(** Decoding into a [[]string] and a [string] field; JSON null is the zero value. *)
Definition field_strings (j : json) : option (list string) :=
  match j with
  | JNull => Some []
  | JArr l => mapM (λ x, match x with JStr s => Some (go_string s) | JNull => Some ""%string | _ => None end) l
  | _ => None
  end.
Definition field_string (j : json) : option string :=
  match j with JNull => Some ""%string | JStr s => Some (go_string s) | _ => None end.

Section Codec.
Context `{JsonCodec}.

Definition parsePolicyConfig (raw : bytes) : option policyConfig :=
  if bool_decide (trim_space raw = []) then None
  else match unmarshal raw with
       | Some (JObj m) =>
           dets ← field_strings (obj_get (B "detectors") m);
           act ← field_string (obj_get (B "action") m);
           Some (dets, act)
       | Some JNull => Some ([], ""%string)
       | _ => None
       end.

(** One row of a scope: malformed rows and rows without detectors are skipped. *)
Definition row_config (raw : bytes) : option policyConfig :=
  match parsePolicyConfig raw with
  | Some ([], _) | None => None
  | Some cfg => Some cfg
  end.

Fixpoint resolve_loop (store : string → bytes → option (list bytes)) (chain : list (string * bytes))
    (resolved : option policyConfig) : option (option policyConfig) :=
  match chain with
  | [] => Some resolved
  | (scope, id) :: chain' =>
      match store scope id with
      | None => None
      | Some policies =>
          resolve_loop store chain'
            (foldl (λ acc raw, match row_config raw with Some cfg => Some cfg | None => acc end)
                   resolved policies)
      end
  end.

(** [None]: the store failed. *)
Definition Resolve (store : string → bytes → option (list bytes)) (t : Target) : option (option Engine) :=
  match resolve_loop store (scopeChain t) None with
  | None => None
  | Some None => Some None
  | Some (Some (dets, act)) => Some (Some (NewEngine dets act))
  end.

(** ** The inbound tap *)

Definition maxScanBody : Z := 8 * 2 ^ 20.

(** What the handler does with the request: [NextAsIs] passes it on without
    having touched the body, [NextDrained] after a failed read, [NextBody] with
    the body replaced. *)
Inductive inbound :=
  | NextAsIs
  | NextDrained
  | NextBody (body : bytes)
  | Reject400.

(** [body]: [None] for a nil body; [Some None] when reading it fails. The second
    component is the decision handed to the audit sink. *)
Definition Inbound (on : bool) (engine : option (option Engine)) (contentLength : Z)
    (body : option (option bytes)) : inbound * option Decision :=
  if negb on then (NextAsIs, None)
  else match engine with
  | None => (NextAsIs, None)
  | Some e =>
      if negb (Enabled e) then (NextAsIs, None)
      else match body with
      | None => (NextAsIs, None)
      | Some rd =>
          if contentLength =? 0 then (NextAsIs, None)
          else match rd with
          | None => (NextDrained, None)
          | Some all =>
              let body := take (Z.to_nat maxScanBody) all in
              let scan m :=
                let '(scanned, decision) := ScanJSON e (JObj m) in
                if bool_decide (dec_action decision = ActionAllow) then (NextBody body, None)
                else if Blocked decision then (Reject400, Some decision)
                else if negb (WasMutated decision) then (NextBody body, Some decision)
                else (NextBody (marshal scanned), Some decision) in
              match unmarshal body with
              | Some (JObj m) => scan m
              | Some JNull => scan []
              | _ => (NextBody body, None)
              end
          end
      end
  end.

(** ** Buffered responses *)

Definition ScanResponseBody (e : option Engine) (body : bytes) : bytes * Decision :=
  if negb (Enabled e) || bool_decide (body = []) then (body, allow)
  else match unmarshal body with
  | None =>
      let decision := Scan e body in
      if Blocked decision || negb (WasMutated decision) then (body, decision)
      else (dec_mutated decision, decision)
  | Some payload =>
      let '(scanned, decision) := ScanJSON e payload in
      if negb (WasMutated decision) then (body, decision) else (marshal scanned, decision)
  end.

(** The policy found on the context, if any; [inr tt] is [ErrBlocked]. *)
Definition ApplyBuffered (on : bool) (policy : option (option Engine)) (body : bytes)
    : bytes + unit :=
  if negb on then inl body
  else match policy with
  | None => inl body
  | Some e =>
      if negb (Enabled e) || bool_decide (body = []) then inl body
      else
        let '(filtered, decision) := ScanResponseBody e body in
        if negb (WasMutated decision) && negb (Blocked decision) then inl filtered
        else if Blocked decision then inr tt
        else inl filtered
  end.
End Codec.

(** ** Lemmas *)

Fixpoint strings (v : json) : list bytes :=
  match v with
  | JStr s => [s]
  | JArr l => concat (map strings l)
  | JObj m => concat (map (λ kv, strings kv.2) m)
  | _ => []
  end.

Fixpoint map_strings (f : bytes → bytes) (v : json) : json :=
  match v with
  | JStr s => JStr (f s)
  | JArr l => JArr (map (map_strings f) l)
  | JObj m => JObj (map (λ kv, (kv.1, map_strings f kv.2)) m)
  | _ => v
  end.

(** What becomes of one string. *)
Definition redact (e : option Engine) (s : bytes) : bytes :=
  if WasMutated (Scan e s) then dec_mutated (Scan e s) else s.

Definition walk_strings (e : option Engine) (ss : list bytes) (st : walk_state) : walk_state :=
  foldl (λ st s, (walk_string e s st).2) st ss.

Lemma walk_string_redact e s st : (walk_string e s st).1 = redact e s.
Proof. unfold walk_string, redact. by destruct (WasMutated _). Qed.

Lemma walk_spec e v : ∀ st, walk e v st = (map_strings (redact e) v, walk_strings e (strings v) st).
Proof.
  induction v as [| | |s|l IH|m IH] using json_nested_ind; intros st; try done.
  - cbn [walk map_strings strings]. unfold walk_strings; cbn [foldl].
    rewrite <- (walk_string_redact e s st). by destruct (walk_string e s st).
  - cbn [walk map_strings strings].
    match goal with |- context [let '(l', st') := ?go l st in _] =>
      assert (∀ st, go l st = (map (map_strings (redact e)) l, walk_strings e (concat (map strings l)) st)) as Hgo end.
    { clear st. induction IH as [|x l Hx _ IHl]; intros st; [done|].
      cbn [map concat]. rewrite Hx, IHl. unfold walk_strings. by rewrite foldl_app. }
    by rewrite Hgo.
  - cbn [walk map_strings strings].
    match goal with |- context [let '(m', st') := ?go m st in _] =>
      assert (∀ st, go m st = (map (λ kv, (kv.1, map_strings (redact e) kv.2)) m,
                               walk_strings e (concat (map (λ kv, strings kv.2) m)) st)) as Hgo end.
    { clear st. induction IH as [|x l Hx _ IHl]; intros st; [done|].
      cbn [map concat]. rewrite Hx, IHl. unfold walk_strings. by rewrite foldl_app. }
    by rewrite Hgo.
Qed.

Lemma StrictestAction_rank a b :
  actionRank (StrictestAction a b) = Z.max (actionRank a) (actionRank b).
Proof. unfold StrictestAction. zcase; lia. Qed.

Lemma Scan_action e s : dec_action (Scan (Some e) s) =
  match dec_findings (Scan (Some e) s) with [] => ActionAllow | _ => e_action e end.
Proof.
  unfold Scan. destruct (_ || _); [done|]. by destruct (scan_findings e s).
Qed.

Lemma walk_strings_fields e ss : ∀ st,
  w_all (walk_strings e ss st) = w_all st ++ concat (map (λ s, dec_findings (Scan e s)) ss) ∧
  w_mutated (walk_strings e ss st) = w_mutated st || existsb (λ s, WasMutated (Scan e s)) ss ∧
  w_worst (walk_strings e ss st) = foldl (λ a s, StrictestAction a (dec_action (Scan e s))) (w_worst st) ss.
Proof.
  unfold walk_strings. induction ss as [|s ss IH]; intros st; cbn [foldl map concat existsb].
  - by rewrite app_nil_r, orb_false_r.
  - destruct (IH (walk_string e s st).2) as (-> & -> & ->). unfold walk_string.
    destruct (WasMutated (Scan e s)); cbn; rewrite <- app_assoc; split_and!; try done.
    by rewrite orb_true_r.
Qed.

Lemma worst_action e ss : 0 < actionRank (e_action e) → ∀ w, w = ActionAllow ∨ w = e_action e →
  foldl (λ a s, StrictestAction a (dec_action (Scan (Some e) s))) w ss =
  match concat (map (λ s, dec_findings (Scan (Some e) s)) ss) with
  | [] => w
  | _ => e_action e
  end.
Proof.
  intros Hr. induction ss as [|s ss IH]; intros w Hw; [done|]. cbn [foldl map concat].
  rewrite Scan_action. destruct (dec_findings (Scan (Some e) s)) as [|f fs] eqn:Ef; cbn [app].
  - replace (StrictestAction w ActionAllow) with w; [by apply IH|].
    unfold StrictestAction. change (actionRank ActionAllow) with 0.
    destruct Hw as [->| ->]; [done|]. by rewrite (proj2 (Z.leb_le _ _)) by lia.
  - replace (StrictestAction w (e_action e)) with (e_action e).
    + rewrite IH by (by right). by destruct (concat _).
    + unfold StrictestAction. destruct Hw as [->| ->].
      * change (actionRank ActionAllow) with 0. by rewrite (proj2 (Z.leb_gt _ _)) by lia.
      * by destruct (_ <=? _).
Qed.

Lemma find_last_foldl `{JsonCodec} rows acc :
  foldl (λ acc raw, match row_config raw with Some cfg => Some cfg | None => acc end) acc rows =
  match last (omap row_config rows) with Some cfg => Some cfg | None => acc end.
Proof.
  revert acc. induction rows as [|r rows IH]; intros acc; [done|]. cbn [foldl omap list_omap].
  rewrite IH. destruct (row_config r) as [cfg|]; [|done].
  rewrite last_cons. by destruct (last _).
Qed.

(** The rows along a chain; [None] when some scope cannot be read. *)
Fixpoint chain_rows (store : string → bytes → option (list bytes)) (chain : list (string * bytes))
    : option (list bytes) :=
  match chain with
  | [] => Some []
  | (scope, id) :: chain' =>
      ps ← store scope id; qs ← chain_rows store chain'; Some (ps ++ qs)
  end.

Lemma resolve_loop_rows `{JsonCodec} store chain : ∀ acc,
  resolve_loop store chain acc =
  rows ← chain_rows store chain;
  Some (match last (omap row_config rows) with Some cfg => Some cfg | None => acc end).
Proof.
  induction chain as [|[scope id] chain IH]; intros acc; [done|]. cbn [resolve_loop chain_rows].
  destruct (store scope id) as [ps|]; [|done]. cbn. rewrite IH, find_last_foldl.
  destruct (chain_rows store chain) as [qs|]; [|done]. cbn. rewrite omap_app, last_app.
  by destruct (last (omap row_config qs)).
Qed.

Lemma ScanJSON_facts e v :
  Enabled (Some e) = true → 0 < actionRank (e_action e) →
  let '(out, d) := ScanJSON (Some e) v in
  out = map_strings (redact (Some e)) v ∧
  dec_findings d = concat (map (λ s, dec_findings (Scan (Some e) s)) (strings v)) ∧
  dec_action d = match dec_findings d with [] => ActionAllow | _ => e_action e end ∧
  (dec_findings d ≠ [] → WasMutated d = existsb (λ s, WasMutated (Scan (Some e) s)) (strings v)).
Proof.
  intros He Hr. unfold ScanJSON. rewrite He, walk_spec. cbn [negb].
  destruct (walk_strings_fields (Some e) (strings v) (mkWalk ActionAllow [] false)) as (Ha & Hm & Hw).
  rewrite worst_action in Hw by (try done; by left). cbn in Ha, Hm, Hw. rewrite Ha, Hm, Hw.
  destruct (concat _) as [|f fs] eqn:Ef; cbn; split_and!; try done.
  intros _. by destruct (existsb _ _).
Qed.

Lemma Scan_mutated_mask e s : WasMutated (Scan (Some e) s) = true → e_action e = ActionMask.
Proof.
  unfold Scan. destruct (_ || _); [done|]. destruct (scan_findings e s); [done|].
  case_bool_decide; [done|]. done.
Qed.

Lemma existsb_mutated_mask e ss :
  existsb (λ s, WasMutated (Scan (Some e) s)) ss = true → e_action e = ActionMask.
Proof. intros (s & _ & Hs)%existsb_exists. by eapply Scan_mutated_mask. Qed.

Lemma Scan_mutated_value e s :
  WasMutated (Scan (Some e) s) = true → dec_mutated (Scan (Some e) s) = maskFindings s (scan_findings e s).
Proof.
  unfold Scan. destruct (_ || _); [done|]. destruct (scan_findings e s); [done|].
  case_bool_decide; [|done]. by case_bool_decide.
Qed.

Lemma ScanJSON_clean e v : Enabled (Some e) = true →
  dec_findings (ScanJSON (Some e) v).2 = [] → WasMutated (ScanJSON (Some e) v).2 = false.
Proof.
  intros He. unfold ScanJSON. rewrite He. cbn [negb]. destruct (walk _ _ _) as [out st].
  by destruct (w_all st).
Qed.

(** What [Inbound] makes of the scan of an object. *)
Lemma inbound_scan `{JsonCodec} e m body out aud :
  Enabled (Some e) = true → 0 < actionRank (e_action e) →
  (let '(scanned, decision) := ScanJSON (Some e) (JObj m) in
   if bool_decide (dec_action decision = ActionAllow) then (NextBody body, None)
   else if Blocked decision then (Reject400, Some decision)
   else if negb (WasMutated decision) then (NextBody body, Some decision)
   else (NextBody (marshal scanned), Some decision)) = (out, aud) →
  (∀ b, out = NextBody b → b ≠ body →
     e_action e = ActionMask ∧ b = marshal (map_strings (redact (Some e)) (JObj m)) ∧
     existsb (λ s, WasMutated (Scan (Some e) s)) (strings (JObj m)) = true) ∧
  (out = Reject400 → e_action e = ActionBlock ∧
     concat (map (λ s, dec_findings (Scan (Some e) s)) (strings (JObj m))) ≠ []).
Proof.
  intros He Hr. pose proof (ScanJSON_facts e (JObj m) He Hr) as Hs.
  destruct (ScanJSON (Some e) (JObj m)) as [scanned d]. destruct Hs as (-> & Hf & Ha & Hm).
  rewrite <- Hf. case_bool_decide as Hallow; [intros [= <- <-]; split; [by intros b [= ->]|done]|].
  assert (dec_findings d ≠ []) as Hne by (intros E; rewrite E in Ha; done).
  specialize (Hm Hne). unfold Blocked. case_bool_decide as Hb.
  - intros [= <- <-]. split; [done|]. intros _. split; [|done].
    rewrite Ha in Hb. by destruct (dec_findings d).
  - destruct (WasMutated d) eqn:Hw; cbn [negb]; intros [= <- <-].
    + split; [|done]. intros b [= <-] _. symmetry in Hm.
      split_and!; [by eapply existsb_mutated_mask|done|done].
    + split; [by intros b [= ->]|done].
Qed.

(** ** Properties *)

(** Scanning a decoded payload preserves its structure: keys, numbers,
    booleans and nulls stay, every string is replaced by its own scan result.
    The decision lists every string's findings, reports a rewrite iff some
    string was rewritten, and carries the policy's action exactly when anything
    was found. *)
Theorem ScanJSON_spec e v :
  Enabled (Some e) = true → 0 < actionRank (e_action e) →
  let '(out, d) := ScanJSON (Some e) v in
  out = map_strings (redact (Some e)) v ∧
  dec_findings d = concat (map (λ s, dec_findings (Scan (Some e) s)) (strings v)) ∧
  dec_action d = match dec_findings d with [] => ActionAllow | _ => e_action e end ∧
  (dec_findings d ≠ [] → WasMutated d = existsb (λ s, WasMutated (Scan (Some e) s)) (strings v)).
Proof. exact (ScanJSON_facts e v). Qed.

(** The most specific policy wins outright: the engine is built from the
    last well-formed row with detectors along the chain global, provider,
    model, key; rows that are malformed or name no detector are ignored, and a
    failed read of any scope on the chain fails the resolution. *)
Theorem Resolve_last_wins `{JsonCodec} store t :
  Resolve store t =
  rows ← chain_rows store (scopeChain t);
  Some ((λ cfg, NewEngine cfg.1 cfg.2) <$> last (omap row_config rows)).
Proof.
  unfold Resolve. rewrite resolve_loop_rows. destruct (chain_rows _ _) as [rows|]; [|done]. cbn.
  by destruct (last (omap row_config rows)) as [[]|].
Qed.

(** The inbound tap re-encodes a body only to redact it: the next handler
    receives a body other than the client's only when a masking policy rewrote
    some string of it, provided the body fits the scan limit; and a request is
    rejected only under a blocking policy with findings. *)
Theorem Inbound_rewrites_only_to_redact `{JsonCodec} e len body out aud :
  zlen body <= maxScanBody → 0 < actionRank (e_action e) →
  Inbound true (Some (Some e)) len (Some (Some body)) = (out, aud) →
  (∀ b, out = NextBody b → b ≠ body →
     ∃ m, unmarshal body = Some (JObj m) ∧ e_action e = ActionMask ∧
          b = marshal (map_strings (redact (Some e)) (JObj m)) ∧
          existsb (λ s, WasMutated (Scan (Some e) s)) (strings (JObj m)) = true) ∧
  (out = Reject400 → e_action e = ActionBlock ∧
     ∃ m, unmarshal body = Some m ∧ concat (map (λ s, dec_findings (Scan (Some e) s)) (strings m)) ≠ []).
Proof.
  intros Hlen Hr. unfold Inbound. cbn [negb].
  destruct (Enabled (Some e)) eqn:He; cbn [negb]; [|by intros [= <- <-]].
  destruct (len =? 0); [by intros [= <- <-]|].
  rewrite take_ge by (unfold zlen in Hlen; lia).
  destruct (unmarshal body) as [j|] eqn:Hu; [|intros [= <- <-]; split; [by intros b [= ->]|done]].
  destruct j as [| | | | |m]; try (intros [= <- <-]; split; [by intros c [= ->]|done]); intros Heq.
  - destruct (inbound_scan e [] body out aud He Hr Heq) as [H1 H2]. split.
    + intros b Hb Hne. by destruct (H1 b Hb Hne) as (_ & _ & Hex).
    + intros Hrej. by destruct (H2 Hrej) as [_ Hne].
  - destruct (inbound_scan e m body out aud He Hr Heq) as [H1 H2]. split.
    + intros b Hb Hne. destruct (H1 b Hb Hne) as (? & ? & ?). by exists m.
    + intros Hrej. destruct (H2 Hrej). split; [done|]. by exists (JObj m).
Qed.

(** A body above the scan limit reaches the next handler truncated: the
    tap reads only the first 8 MiB, fails to decode them and replaces the body
    with what it read, under any enabled policy. *)
Theorem Inbound_truncates_large_body `{JsonCodec} e len body :
  maxScanBody < zlen body → Enabled (Some e) = true → len ≠ 0 →
  unmarshal (take (Z.to_nat maxScanBody) body) = None →
  Inbound true (Some (Some e)) len (Some (Some body)) = (NextBody (take (Z.to_nat maxScanBody) body), None) ∧
  zlen (take (Z.to_nat maxScanBody) body) = maxScanBody.
Proof.
  intros Hl He Hlen Hu. unfold Inbound. rewrite He, (proj2 (Z.eqb_neq _ _) Hlen), Hu. split; [done|].
  assert (0 <= maxScanBody) by done. unfold zlen in *. rewrite length_take. lia.
Qed.

(** Two verdicts never soften each other: the stricter of two actions
    ranks as high as both, and an unnamed action counts as allow. *)
Theorem StrictestAction_max a b :
  actionRank (StrictestAction a b) = Z.max (actionRank a) (actionRank b) ∧
  actionRank ""%string = actionRank ActionAllow.
Proof. split; [apply StrictestAction_rank|done]. Qed.

(** A buffered response is refused only by a blocking policy with
    findings, and is relayed byte for byte unless a masking policy redacted it:
    as text when it is not JSON, string by string when it is. *)
Theorem ApplyBuffered_spec `{JsonCodec} on e body :
  0 < actionRank (e_action e) →
  match ApplyBuffered on (Some (Some e)) body with
  | inr _ => on = true ∧ e_action e = ActionBlock ∧ dec_findings (ScanResponseBody (Some e) body).2 ≠ []
  | inl out => out = body ∨ (on = true ∧ e_action e = ActionMask ∧
       match unmarshal body with
       | None => out = maskFindings body (scan_findings e body)
       | Some v => out = marshal (map_strings (redact (Some e)) v)
       end)
  end.
Proof.
  intros Hr. unfold ApplyBuffered. destruct on; [|by left]. cbn [negb].
  destruct (Enabled (Some e)) eqn:He; [|by left]. cbn [negb orb].
  case_bool_decide as Hb; [by left|]. unfold ScanResponseBody. rewrite He. cbn [negb orb].
  rewrite bool_decide_eq_false_2 by done. destruct (unmarshal body) as [v|].
  - pose proof (ScanJSON_facts e v He Hr) as Hs. pose proof (ScanJSON_clean e v He) as Hcl.
    destruct (ScanJSON (Some e) v) as [out d]. destruct Hs as (-> & Hf & Ha & Hm). cbn [snd] in Hcl.
    cbv beta iota. destruct (dec_findings d) as [|f fs] eqn:Ef.
    { rewrite (Hcl eq_refl). cbv beta iota delta [negb andb Blocked].
      rewrite (Hcl eq_refl), Ha. by left. }
    specialize (Hm ltac:(done)). unfold Blocked.
    destruct (WasMutated d) eqn:Hw; cbv beta iota delta [negb andb]; rewrite Hw; cbv beta iota.
    + symmetry in Hm. apply existsb_mutated_mask in Hm as Hmask.
      rewrite Ha, Hmask. right. done.
    + case_bool_decide as Hblk.
      * rewrite Ha in Hblk. cbn [snd]. by rewrite Ef.
      * by left.
  - destruct (WasMutated (Scan (Some e) body)) eqn:Hw.
    + pose proof (Scan_mutated_mask e body Hw) as Hmask.
      assert (Blocked (Scan (Some e) body) = false) as Hblk.
      { unfold Blocked. apply bool_decide_eq_false. rewrite Scan_action, Hmask.
        by destruct (dec_findings _). }
      rewrite Hblk. cbv beta iota delta [negb andb orb]. rewrite Hw, Hblk. cbv beta iota.
      right. split_and!; [done..|]. by apply Scan_mutated_value.
    + rewrite orb_true_r. cbv beta iota. rewrite Hw. cbv beta iota delta [negb andb].
      destruct (Blocked (Scan (Some e) body)) eqn:Hblk; [|by left].
      unfold Blocked in Hblk. bsplit. rewrite Scan_action in Hblk. cbn [snd].
      by destruct (dec_findings (Scan (Some e) body)).
Qed.

(** *** Witnesses *)

Module GuardDemo.
Definition e : Engine := NewEngine ["pii"%string] ActionMask.
Definition blocker : Engine := NewEngine ["injection"%string] ActionBlock.
Definition v : json := JObj [(B "to", JStr (B "mail bob@x.com")); (B "n", JNum (B "3"))].
Definition body : bytes := js "{~to~:~mail bob@x.com~,~n~:3}".
Definition masked : bytes := js "{~to~:~mail [REDACTED]~,~n~:3}".
Definition big : bytes := replicate (S (Z.to_nat maxScanBody)) "x"%char.
Definition no_codec : JsonCodec := {| unmarshal _ := None; marshal _ := []; unmarshal_nil := eq_refl |}.
End GuardDemo.

Lemma ScanJSON_spec_witness :
  let '(out, d) := ScanJSON (Some GuardDemo.e) GuardDemo.v in
  out = map_strings (redact (Some GuardDemo.e)) GuardDemo.v ∧ dec_action d = ActionMask.
Proof.
  pose proof (ScanJSON_spec GuardDemo.e GuardDemo.v ltac:(by vm_compute) ltac:(by vm_compute)) as H.
  destruct (ScanJSON (Some GuardDemo.e) GuardDemo.v) as [out d].
  destruct H as (Ho & Hf & Ha & _). split; [exact Ho|]. rewrite Ha, Hf. by vm_compute.
Defined.

Lemma Inbound_rewrites_witness :
  ∃ m, json_decode GuardDemo.body = Some (JObj m) ∧ e_action GuardDemo.e = ActionMask ∧
    GuardDemo.masked = json_encode (map_strings (redact (Some GuardDemo.e)) (JObj m)) ∧
    existsb (λ s, WasMutated (Scan (Some GuardDemo.e) s)) (strings (JObj m)) = true.
Proof.
  eapply (Inbound_rewrites_only_to_redact (H := json_codec) GuardDemo.e 10 GuardDemo.body
    (NextBody GuardDemo.masked)); by vm_compute.
Defined.

Lemma Inbound_truncates_witness :
  Inbound (H := GuardDemo.no_codec) true (Some (Some GuardDemo.e)) 9 (Some (Some GuardDemo.big)) =
    (NextBody (take (Z.to_nat maxScanBody) GuardDemo.big), None) ∧
  zlen (take (Z.to_nat maxScanBody) GuardDemo.big) = maxScanBody.
Proof.
  apply (Inbound_truncates_large_body (H := GuardDemo.no_codec) GuardDemo.e 9 GuardDemo.big);
    [|by vm_compute|done|done].
  unfold GuardDemo.big, zlen. rewrite length_replicate.
  assert (0 <= maxScanBody) by done. lia.
Defined.

Lemma ApplyBuffered_witness :
  match ApplyBuffered (H := json_codec) true (Some (Some GuardDemo.e)) GuardDemo.body with
  | inr _ => True
  | inl out => out = GuardDemo.body ∨ out = json_encode (map_strings (redact (Some GuardDemo.e)) GuardDemo.v)
  end.
Proof.
  pose proof (ApplyBuffered_spec (H := json_codec) true GuardDemo.e GuardDemo.body ltac:(by vm_compute)) as H.
  destruct (ApplyBuffered (H := json_codec) true (Some (Some GuardDemo.e)) GuardDemo.body) as [out|]; [|done].
  destruct H as [H|(_ & _ & H)]; [by left|right]. revert H. by vm_compute.
Defined.
