(* ===== verification/Outbound.v ===== *)
(** * The streaming guardrail tap

    [internal/guardrails/sse_frame.go] and the [Outbound] writer of
    [outbound.go]: splitting a byte stream into SSE events, the held window of
    frames, the distribution of a redaction over frames ([remap]), blocking and
    the terminal frames. *)

From S2P Require Import Prelude GoRegexp Detectors Json GuardEngine.

(** ** Events *)

Definition sseEventSeparator : bytes := [ch_lf; ch_lf].

(** [bytes.ReplaceAll(buf, CRLF, LF)]. *)
Fixpoint replace_crlf (s : bytes) : bytes :=
  match s with
  | [] => []
  | c :: s' =>
      match s' with
      | d :: s'' => if bool_decide (c = ch_cr) && bool_decide (d = ch_lf)
                    then ch_lf :: replace_crlf s'' else c :: replace_crlf s'
      | [] => [c]
      end
  end.

Definition nextSSEEvent (buf : bytes) : option (bytes * bytes) :=
  let normalized := replace_crlf buf in
  match index_of sseEventSeparator normalized with
  | None => None
  | Some idx => let e := (idx + 2)%nat in Some (take e normalized, drop e normalized)
  end.

Definition event_lines (event : bytes) : list bytes :=
  split_on ch_lf (trim_right (λ c, bool_decide (c = ch_lf)) event).

Definition is_comment (line : bytes) : bool := has_prefix (B ":") line.

(** The value of a [data] line, one leading space stripped. *)
Definition data_value (line : bytes) : option bytes :=
  let '(field, value, found) := cut ":"%char line in
  if found && bool_decide (field = B "data") then Some (trim_prefix (B " ") value) else None.

Definition sseDataFields (event : bytes) : list bytes :=
  omap (λ line, if is_comment line then None else data_value line) (event_lines event).

Definition ssePayload (event : bytes) : option bytes :=
  match sseDataFields event with
  | [] => None
  | fields => Some (join [ch_lf] fields)
  end.

(** The prefix half of [splitEvent]; its fields are not used by the tap. *)
Definition splitEvent_prefix (event : bytes) : bytes :=
  concat (map (λ line,
    if is_comment line then line ++ [ch_lf]
    else match data_value line with Some _ => [] | None => line ++ [ch_lf] end)
    (event_lines event)).

Definition rebuildEvent (prefix payload : bytes) : bytes :=
  prefix ++ B "data: " ++ payload ++ sseEventSeparator.

(** ** Judged text of a payload *)

(** [v.(map[string]any)["content"].(string)] under a choice's delta. *)
Definition choice_content (choice : json) : option bytes :=
  m ← as_obj choice; d ← as_obj (obj_get (B "delta") m); as_str (obj_get (B "content") d).

Definition sliceOf (v : json) : list json := default [] (as_arr v).

Definition block_text (payload : object) : option bytes :=
  m ← as_obj (obj_get (B "content_block") payload); as_str (obj_get (B "text") m).

Definition payloadText (payload : object) : list bytes :=
  omap choice_content (sliceOf (obj_get (B "choices") payload)) ++
  option_list (block_text payload) ++
  option_list (as_str (obj_get (B "delta") payload)).

(** [next()] past the end of the values panics: [None]. *)
Definition set_choice (choice : json) (v : bytes) : json :=
  match choice with
  | JObj m =>
      match obj_get (B "delta") m with
      | JObj d => JObj (obj_set (B "delta") (JObj (obj_set (B "content") (JStr v) d)) m)
      | _ => choice
      end
  | _ => choice
  end.

Fixpoint set_choices (cs : list json) (values : list bytes) : option (list json * list bytes) :=
  match cs with
  | [] => Some ([], values)
  | c :: cs' =>
      match choice_content c with
      | None => '(cs'', vs) ← set_choices cs' values; Some (c :: cs'', vs)
      | Some _ =>
          match values with
          | [] => None
          | v :: vs => '(cs'', vs') ← set_choices cs' vs; Some (set_choice c v :: cs'', vs')
          end
      end
  end.

Definition setPayloadText (payload : object) (values : list bytes) : option object :=
  '(cs, vs) ← set_choices (sliceOf (obj_get (B "choices") payload)) values;
  let p1 := match obj_get (B "choices") payload with
            | JArr _ => obj_set (B "choices") (JArr cs) payload
            | _ => payload
            end in
  '(p2, vs2) ←
    match obj_get (B "content_block") p1 with
    | JObj blk =>
        match as_str (obj_get (B "text") blk), vs with
        | None, _ => Some (p1, vs)
        | Some _, [] => None
        | Some _, v :: vs' =>
            Some (obj_set (B "content_block") (JObj (obj_set (B "text") (JStr v) blk)) p1, vs')
        end
    | _ => Some (p1, vs)
    end;
  match as_str (obj_get (B "delta") p2), vs2 with
  | None, _ => Some p2
  | Some _, [] => None
  | Some _, v :: _ => Some (obj_set (B "delta") (JStr v) p2)
  end.

Definition joinText (parts : list bytes) : bytes := concat parts.

(** ** Distributing a redaction *)

Definition clamp (n lo hi : nat) : nat := Nat.min (Nat.max n lo) hi.

Fixpoint commonPrefixLen (a b : bytes) : nat :=
  match a, b with
  | x :: a', y :: b' => if bool_decide (x = y) then S (commonPrefixLen a' b') else 0%nat
  | _, _ => 0%nat
  end.

Fixpoint suffix_loop (fuel : nat) (ra rb : bytes) : nat :=
  match fuel, ra, rb with
  | S fuel', x :: ra', y :: rb' => if bool_decide (x = y) then S (suffix_loop fuel' ra' rb') else 0%nat
  | _, _, _ => 0%nat
  end.

(** At most [min(len a, len b) - prefix] bytes are compared. *)
Definition commonSuffixLen (a b : bytes) (prefix : nat) : nat :=
  suffix_loop (Nat.min (length a) (length b) - prefix) (rev a) (rev b).

Definition sub_bytes (from to : nat) (s : bytes) : bytes := take (to - from) (drop from s).

(** One frame's part; [pos - tailStart] is clamped at 0 in the source. *)
Definition remap_part (original replacement tail : bytes) (prefix suffix pos e : nat) : bytes :=
  sub_bytes pos (clamp prefix pos e) original ++
  (if (pos <=? prefix)%nat && (prefix <=? e)%nat then replacement else []) ++
  (let tailStart := (length original - suffix)%nat in
   if (tailStart <? e)%nat then
     let from := clamp (pos - tailStart) 0 (length tail) in
     sub_bytes from (clamp (e - tailStart) 0 (length tail)) tail
   else []).

Fixpoint remap_loop (original replacement tail : bytes) (prefix suffix pos : nat) (spans : list nat) : list bytes :=
  match spans with
  | [] => []
  | size :: spans' =>
      let e := Nat.min (pos + size) (length original) in
      let e := if (e <? pos)%nat then pos else e in
      remap_part original replacement tail prefix suffix pos e ::
      remap_loop original replacement tail prefix suffix e spans'
  end.

Definition remap (original masked : bytes) (spans : list nat) : list bytes :=
  let prefix := commonPrefixLen original masked in
  let suffix := commonSuffixLen original masked prefix in
  let replacement := sub_bytes prefix (length masked - suffix) masked in
  let tail := drop (length original - suffix) original in
  remap_loop original replacement tail prefix suffix 0 spans.

(** ** The tap *)

Definition scanWindowChars : nat := 512.
Definition BlockedMessage : bytes := B "Response blocked by a configured guardrail policy".
Definition sseDoneFrame : bytes := B "data: [DONE]" ++ sseEventSeparator.
Definition sseStopTerminal : bytes :=
  js "data: {~choices~:[{~index~:0,~delta~:{},~finish_reason~:~stop~}]}" ++ sseEventSeparator.
Definition claudeBlockFrame : bytes := js "data: {~type~:~message_stop~}" ++ sseEventSeparator.
Definition responsesBlockFrames : bytes :=
  B "event: response.failed" ++ [ch_lf] ++
  js "data: {~type~:~response.failed~,~response~:{~id~:~guardrail~,~status~:~failed~,~error~:{~code~:~guardrail_blocked~,~message~:~" ++
  BlockedMessage ++ js "~}}}" ++ sseEventSeparator.

Inductive StreamFormat := FormatOpenAI | FormatClaude | FormatResponses.

Record pendingFrame := mkFrame {
  fr_prefix : bytes;
  fr_payload : object;    (* [] for a nil map *)
  fr_raw : bytes;
  fr_text : bytes
}.

(** The calls on the writer of [net/http] below: a status line, bytes (flushed at
    once), a flush, and [http.Error] with status 502. *)
Inductive sent := SHeader (code : Z) | SWrite (b : bytes) | SFlush | SError502 (b : bytes).

(** What they amount to for the client: the status is the first one, given or
    implied by bytes or a flush; a later one is ignored, its text is not. *)
Definition receive (r : option Z * bytes) (c : sent) : option Z * bytes :=
  match c with
  | SHeader code => (Some (default code r.1), r.2)
  | SWrite b => (Some (default 200%Z r.1), r.2 ++ b)
  | SFlush => (Some (default 200%Z r.1), r.2)
  | SError502 b => (Some (default 502%Z r.1), r.2 ++ b)
  end.
Definition received (l : list sent) : option Z * bytes := foldl receive (None, []) l.

Record outbound := mkOut {
  ob_held : list pendingFrame;
  ob_frame : bytes;
  ob_blocked : bool;
  ob_terminated : bool;
  ob_committed : bool;
  ob_sent : list sent;
  ob_audit : list Decision
}.

(** A step succeeds, returns the writer's error, or panics. *)
Inductive status := Ok | Err | Panic.

Section Tap.
Context `{JsonCodec}.
Context (engine : option Engine) (format : StreamFormat).
(** Whether the client accepts the next write, given what it received. *)
Context (accepts_write : list sent → bool).
Implicit Types o : outbound.

Definition set_held v o := mkOut v (ob_frame o) (ob_blocked o) (ob_terminated o) (ob_committed o) (ob_sent o) (ob_audit o).
Definition set_frame v o := mkOut (ob_held o) v (ob_blocked o) (ob_terminated o) (ob_committed o) (ob_sent o) (ob_audit o).
Definition set_terminated v o := mkOut (ob_held o) (ob_frame o) (ob_blocked o) v (ob_committed o) (ob_sent o) (ob_audit o).
Definition set_committed v o := mkOut (ob_held o) (ob_frame o) (ob_blocked o) (ob_terminated o) v (ob_sent o) (ob_audit o).
Definition send s o := mkOut (ob_held o) (ob_frame o) (ob_blocked o) (ob_terminated o) (ob_committed o) (ob_sent o ++ [s]) (ob_audit o).
Definition audit d o := mkOut (ob_held o) (ob_frame o) (ob_blocked o) (ob_terminated o) (ob_committed o) (ob_sent o) (ob_audit o ++ [d]).

Definition NewOutboundFor : option outbound :=
  if negb (Enabled engine) then None else Some (mkOut [] [] false false false [] []).

Definition WriteHeader (code : Z) o : outbound := send (SHeader code) (set_committed true o).

Definition writeFrame (event : bytes) o : outbound * status :=
  if bool_decide (event = []) then (o, Ok)
  else if accepts_write (ob_sent o) then (send (SWrite event) o, Ok)
  else (o, Err).

Fixpoint write_all (events : list bytes) o : outbound * status :=
  match events with
  | [] => (o, Ok)
  | ev :: events' =>
      match writeFrame ev o with
      | (o', Ok) => write_all events' o'
      | r => r
      end
  end.

Definition windowText (frames : list pendingFrame) : bytes := concat (map fr_text frames).

Definition decodePayload (payload : bytes) : option object :=
  match unmarshal payload with
  | Some (JObj m) => Some m
  | Some JNull => Some []
  | _ => None
  end.

Definition encodePayload (payload : object) (text : bytes) : option bytes :=
  m ← setPayloadText payload [text]; Some (marshal (JObj m)).

(** The frames of a redacted window, in order. *)
Fixpoint write_masked (frames : list pendingFrame) (parts : list bytes) o : outbound * status :=
  match frames, parts with
  | f :: frames', part :: parts' =>
      let frame := if bool_decide (part = fr_text f) then Some (fr_raw f)
                   else p ← encodePayload (fr_payload f) part; Some (rebuildEvent (fr_prefix f) p) in
      match frame with
      | None => (o, Panic)
      | Some ev =>
          match writeFrame ev o with
          | (o', Ok) => write_masked frames' parts' o'
          | r => r
          end
      end
  | _, _ => (o, Ok)
  end.

Definition writeFrames (window : list pendingFrame) o : outbound * status :=
  match window with
  | [] => (o, Ok)
  | _ =>
      let decision := Scan engine (windowText window) in
      if negb (WasMutated decision) then write_all (map fr_raw window) o
      else
        let o := audit decision o in
        let parts := remap (windowText window) (dec_mutated decision)
                       (map (λ f, length (fr_text f)) window) in
        write_masked window parts o
  end.

Fixpoint tail_loop (rheld : list pendingFrame) (budget keep : nat) : nat :=
  match rheld with
  | [] => keep
  | f :: rheld' =>
      let budget := (budget + length (fr_text f))%nat in
      if (scanWindowChars <=? budget)%nat then S keep else tail_loop rheld' budget (S keep)
  end.

Definition tailFrames (held : list pendingFrame) : nat := tail_loop (rev held) 0 0.

Definition release (final : bool) o : outbound * status :=
  match ob_held o with
  | [] => (o, Ok)
  | held =>
      let keep := if final then 0%nat else tailFrames held in
      if negb final && (keep =? length held)%nat then (o, Ok)
      else
        let n := (length held - keep)%nat in
        match writeFrames (take n held) o with
        | (o', Ok) => (set_held (drop n held) o', Ok)
        | r => r
        end
  end.

Definition writeTerminalFrames o : outbound * status :=
  if ob_terminated o || negb (ob_blocked o) then (o, Ok)
  else
    let o := set_terminated true o in
    match format with
    | FormatClaude => writeFrame claudeBlockFrame o
    | FormatResponses => writeFrame responsesBlockFrames o
    | FormatOpenAI => write_all [sseStopTerminal; sseDoneFrame] o
    end.

Definition block (decision : Decision) o : outbound * status :=
  let o := mkOut [] [] true (ob_terminated o) (ob_committed o) (ob_sent o) (ob_audit o ++ [decision]) in
  if negb (ob_committed o)
  then (send (SError502 (BlockedMessage ++ B "." ++ [ch_lf])) (set_terminated true (set_committed true o)), Ok)
  else writeTerminalFrames o.

Definition event_frame (event : bytes) : pendingFrame :=
  match ssePayload event with
  | Some payload =>
      match decodePayload payload with
      | Some decoded => mkFrame (splitEvent_prefix event) decoded event (joinText (payloadText decoded))
      | None => mkFrame (splitEvent_prefix event) [] event []
      end
  | None => mkFrame (splitEvent_prefix event) [] event []
  end.

Definition handleEvent (event : bytes) o : outbound * status :=
  let frame := event_frame event in
  let decision := Scan engine (windowText (ob_held o) ++ fr_text frame) in
  if Blocked decision then block decision o
  else release false (set_held (ob_held o ++ [frame]) o).

(** The loop of [Write]; an event consumes at least two bytes of the buffer. *)
Fixpoint write_loop (fuel : nat) o : outbound * status :=
  match fuel with
  | O => (o, Ok)
  | S fuel' =>
      if ob_blocked o then (o, Ok)
      else match nextSSEEvent (ob_frame o) with
           | None => (o, Ok)
           | Some (event, rest) =>
               match handleEvent event (set_frame rest o) with
               | (o', Ok) => write_loop fuel' o'
               | r => r
               end
           end
  end.

Definition Write (p : bytes) o : outbound * status :=
  if ob_blocked o then (o, Ok)
  else let o := set_frame (ob_frame o ++ p) o in write_loop (S (length (ob_frame o))) o.

Definition Flush o : outbound := if ob_blocked o then o else send SFlush o.

Definition Close o : outbound * status :=
  let '(o, st) :=
    if ob_blocked o then (o, Ok)
    else
      let pending := ob_frame o in
      let '(o, st) :=
        if bool_decide (trim_space pending = []) then (o, Ok)
        else match nextSSEEvent (pending ++ sseEventSeparator) with
             | Some (event, _) => handleEvent event (set_frame [] o)
             | None => (set_frame [] o, Ok)
             end in
      match st with Ok => release true o | _ => (o, st) end in
  match st with Ok => (send SFlush (writeTerminalFrames o).1, Ok) | _ => (o, st) end.
End Tap.

(** ** Lemmas on [remap] *)

Lemma commonPrefixLen_spec a : ∀ b,
  take (commonPrefixLen a b) a = take (commonPrefixLen a b) b ∧
  (commonPrefixLen a b <= length a)%nat ∧ (commonPrefixLen a b <= length b)%nat.
Proof.
  induction a as [|x a IH]; intros [|y b]; simpl; try (split_and!; (done || lia)).
  case_bool_decide as Hxy; simpl; [|split_and!; (done || lia)].
  subst y. destruct (IH b) as (E & H1 & H2). rewrite E. split_and!; (done || lia).
Qed.

Lemma suffix_loop_spec fuel : ∀ ra rb,
  take (suffix_loop fuel ra rb) ra = take (suffix_loop fuel ra rb) rb ∧
  (suffix_loop fuel ra rb <= fuel)%nat ∧
  (suffix_loop fuel ra rb <= length ra)%nat ∧ (suffix_loop fuel ra rb <= length rb)%nat.
Proof.
  induction fuel as [|fuel IH]; intros [|x ra] [|y rb]; simpl; try (split_and!; (done || lia)).
  case_bool_decide as Hxy; simpl; [|split_and!; (done || lia)].
  subst y. destruct (IH ra rb) as (E & ? & ? & ?). rewrite E. split_and!; (done || lia).
Qed.

Lemma take_rev {A} n (l : list A) : take n (rev l) = rev (drop (length l - n) l).
Proof.
  rewrite <- (rev_involutive (take n (rev l))). f_equal.
  rewrite <- (firstn_skipn (length l - n) l) at 1. rewrite rev_app_distr.
  destruct (decide (n <= length l)%nat).
  - rewrite take_app_le by (rewrite length_rev, length_drop; lia).
    rewrite take_ge by (rewrite length_rev, length_drop; lia). apply rev_involutive.
  - rewrite take_ge by (rewrite length_app, !length_rev, length_take, length_drop; lia).
    replace (length l - n)%nat with 0%nat by lia. rewrite take_0, drop_0. cbn.
    by rewrite app_nil_r, rev_involutive.
Qed.

Lemma commonSuffixLen_spec a b prefix :
  (prefix <= length a)%nat → (prefix <= length b)%nat →
  let n := commonSuffixLen a b prefix in
  drop (length a - n) a = drop (length b - n) b ∧
  (prefix + n <= length a)%nat ∧ (prefix + n <= length b)%nat.
Proof.
  intros Ha Hb n. unfold commonSuffixLen in n.
  destruct (suffix_loop_spec (Nat.min (length a) (length b) - prefix) (rev a) (rev b)) as (E & H1 & H2 & H3).
  fold n in E, H1, H2, H3. rewrite length_rev in H2, H3. rewrite !take_rev in E.
  apply (f_equal (@rev ascii)) in E. rewrite !rev_involutive in E. split_and!; [done|lia..].
Qed.

Lemma sub_bytes_split a b c s : (a <= b <= c)%nat → sub_bytes a b s ++ sub_bytes b c s = sub_bytes a c s.
Proof.
  intros [Hab Hbc]. unfold sub_bytes.
  replace (c - a)%nat with ((b - a) + (c - b))%nat by lia.
  rewrite <- (take_drop (b - a) (drop a s)) at 2.
  rewrite take_app. rewrite length_take, length_drop.
  destruct (decide (b - a <= length s - a)%nat).
  - rewrite Nat.min_l by lia. replace (b - a + (c - b) - (b - a))%nat with (c - b)%nat by lia.
    rewrite take_take, Nat.min_r by lia. rewrite drop_drop. by replace (a + (b - a))%nat with b by lia.
  - rewrite (drop_ge s b) by lia. rewrite (drop_ge (drop a s)) by (rewrite length_drop; lia).
    rewrite !take_nil. by rewrite take_take, Nat.min_r by lia.
Qed.

Lemma sub_bytes_nil a b s : (b <= a)%nat → sub_bytes a b s = [].
Proof. intros H. unfold sub_bytes. by replace (b - a)%nat with 0%nat by lia. Qed.

Lemma sub_bytes_end a s : sub_bytes a (length s) s = drop a s.
Proof. unfold sub_bytes. rewrite take_ge; [done|]. rewrite length_drop. lia. Qed.

(** How many frames, from position [pos] on, touch the start of the change. *)
Fixpoint touches (prefix pos : nat) (spans : list nat) : nat :=
  match spans with
  | [] => 0
  | size :: spans' =>
      (if (pos <=? prefix)%nat && (prefix <=? pos + size)%nat then 1 else 0) +
      touches prefix (pos + size) spans'
  end.

Lemma touches_past prefix spans : ∀ pos, (prefix < pos)%nat → touches prefix pos spans = 0%nat.
Proof.
  induction spans as [|n spans IH]; intros pos Hp; simpl; [done|].
  rewrite (proj2 (Nat.leb_gt pos prefix)) by done. simpl. apply IH. lia.
Qed.

Definition repeat_bytes (n : nat) (r : bytes) : bytes := concat (repeat r n).

Section Remap.
Context (o r : bytes) (prefix suffix : nat).
Hypothesis Hfit : (prefix + suffix <= length o)%nat.
Let tailStart := (length o - suffix)%nat.
Let tail := drop tailStart o.

Lemma length_tail : length tail = suffix.
Proof using Hfit. unfold tail, tailStart. rewrite length_drop. lia. Qed.

Lemma remap_part_eq pos e : (pos <= e <= length o)%nat →
  remap_part o r tail prefix suffix pos e =
  sub_bytes pos (Nat.max pos (Nat.min prefix e)) o ++
  (if (pos <=? prefix)%nat && (prefix <=? e)%nat then r else []) ++
  sub_bytes (pos - tailStart) (e - tailStart) tail.
Proof using Hfit.
  intros He. unfold remap_part. rewrite length_tail. fold tailStart. unfold clamp.
  replace (Nat.min (Nat.max prefix pos) e) with (Nat.max pos (Nat.min prefix e)) by lia.
  do 2 f_equal. case (Nat.ltb_spec tailStart e); intros Ht.
  - f_equal; lia.
  - rewrite sub_bytes_nil by lia. done.
Qed.

Lemma remap_loop_concat spans : ∀ pos,
  (pos + sum_list spans = length o)%nat →
  concat (remap_loop o r tail prefix suffix pos spans) =
  sub_bytes pos (Nat.max pos prefix) o ++ repeat_bytes (touches prefix pos spans) r ++
  drop (pos - tailStart) tail.
Proof using Hfit.
  induction spans as [|n spans IH]; intros pos Hs; cbn [remap_loop concat touches]; simpl in Hs.
  - rewrite sub_bytes_nil by lia. rewrite drop_ge by (rewrite length_tail; unfold tailStart; lia). done.
  - rewrite (Nat.min_l (pos + n)) by lia. rewrite (proj2 (Nat.ltb_ge _ _)) by lia.
    rewrite IH by lia. rewrite remap_part_eq by lia.
    assert (sub_bytes (pos - tailStart) (pos + n - tailStart) tail ++ drop (pos + n - tailStart) tail =
            drop (pos - tailStart) tail) as Htl.
    { rewrite <- !sub_bytes_end. apply sub_bytes_split. rewrite length_tail. unfold tailStart. lia. }
    case (Nat.leb_spec pos prefix); intros H1; cbn [andb].
    + case (Nat.leb_spec prefix (pos + n)); intros H2.
      * rewrite (Nat.min_l prefix) by lia. rewrite (Nat.max_r pos prefix) by lia.
        rewrite (sub_bytes_nil (pos + n) (Nat.max (pos + n) prefix)) by lia. cbn [Nat.add].
        unfold repeat_bytes; cbn [repeat concat app].
        destruct (decide (prefix = pos + n)%nat) as [Eq|Ne].
        { rewrite <- !app_assoc. do 2 f_equal. subst prefix.
          rewrite (sub_bytes_nil (pos - tailStart)) by (unfold tailStart; lia). cbn [app]. f_equal.
          replace (pos + n - tailStart)%nat with 0%nat by (unfold tailStart; lia).
          by replace (pos - tailStart)%nat with 0%nat by (unfold tailStart; lia). }
        rewrite touches_past by lia. cbn [repeat concat app]. rewrite <- !app_assoc. do 2 f_equal. exact Htl.
      * rewrite (Nat.min_r prefix) by lia. rewrite (Nat.max_r pos (pos + n)), (Nat.max_r pos prefix) by lia.
        rewrite (Nat.max_r (pos + n) prefix) by lia. cbn [app Nat.add].
        rewrite (sub_bytes_nil (pos - tailStart)) by (unfold tailStart; lia). rewrite app_nil_r.
        rewrite app_assoc, sub_bytes_split by lia. do 2 f_equal.
        f_equal; unfold tailStart; lia.
    + rewrite (Nat.max_l pos (Nat.min prefix (pos + n))) by lia. rewrite (Nat.max_l pos prefix) by lia.
      rewrite (Nat.max_l (pos + n) prefix) by lia. rewrite !(sub_bytes_nil _ _ o) by lia.
      rewrite touches_past by lia. cbn. exact Htl.
Qed.
End Remap.

(** ** Splitting into events *)

Definition cr_free (s : bytes) : Prop := ch_cr ∉ s.

Lemma replace_crlf_id s : cr_free s → replace_crlf s = s.
Proof.
  unfold cr_free. induction s as [|c s IH]; intros Hs; [done|].
  apply not_elem_of_cons in Hs as [Hc Hs]. destruct s as [|d s]; [done|].
  change (replace_crlf (c :: d :: s)) with
    (if bool_decide (c = ch_cr) && bool_decide (d = ch_lf)
     then ch_lf :: replace_crlf s else c :: replace_crlf (d :: s)).
  rewrite (bool_decide_eq_false_2 (c = ch_cr)) by congruence. cbn [andb]. by rewrite IH.
Qed.

Lemma cr_free_app a b : cr_free (a ++ b) ↔ cr_free a ∧ cr_free b.
Proof. unfold cr_free. rewrite elem_of_app. tauto. Qed.

Lemma has_prefix_len p s : has_prefix p s = true → (length p <= length s)%nat.
Proof.
  revert s. induction p as [|a p IH]; intros [|b s]; simpl; try (done || lia).
  intros [_ Hp]%andb_prop. apply IH in Hp. lia.
Qed.

Lemma has_prefix_app_inv p s q :
  (length p <= length s)%nat → has_prefix p (s ++ q) = has_prefix p s.
Proof.
  revert s. induction p as [|a p IH]; intros [|b s]; simpl; try (done || lia).
  intros Hl. rewrite IH by lia. done.
Qed.

Lemma index_of_len p s i : index_of p s = Some i → (i + length p <= length s)%nat.
Proof.
  revert i. induction s as [|c s IH]; intros i; cbn [index_of].
  - destruct (has_prefix p []) eqn:E; [|done]. intros [= <-]. apply has_prefix_len in E. lia.
  - destruct (has_prefix p (c :: s)) eqn:E; [intros [= <-]; apply has_prefix_len in E; lia|].
    destruct (index_of p s) as [j|] eqn:Ej; [|done]. intros [= <-]. specialize (IH j eq_refl). simpl. lia.
Qed.

(** An occurrence found in a buffer is the first one of any extension. *)
Lemma index_of_app p s q i : index_of p s = Some i → index_of p (s ++ q) = Some i.
Proof.
  revert i. induction s as [|c s IH]; intros i; cbn [index_of app].
  - destruct (has_prefix p []) eqn:E; [|done]. intros [= <-].
    apply (has_prefix_app _ _ q) in E. cbn [app] in E. destruct q; cbn [index_of]; by rewrite E.
  - destruct (has_prefix p (c :: s)) eqn:E.
    + intros [= <-]. apply (has_prefix_app _ _ q) in E. cbn [app] in E. by rewrite E.
    + destruct (index_of p s) as [j|] eqn:Ej; [|done]. intros [= <-].
      rewrite app_comm_cons, has_prefix_app_inv, E.
      * by rewrite (IH j eq_refl).
      * apply index_of_len in Ej. simpl. lia.
Qed.

(** A complete event, separator included and nowhere else before its end. *)
Definition is_event (ev : bytes) : Prop := cr_free ev ∧ nextSSEEvent ev = Some (ev, []).

Lemma next_event_app buf q e rest :
  cr_free (buf ++ q) → nextSSEEvent buf = Some (e, rest) → nextSSEEvent (buf ++ q) = Some (e, rest ++ q).
Proof.
  intros Hcr. pose proof (proj1 (cr_free_app _ _) Hcr) as [Hb _]. unfold nextSSEEvent.
  rewrite !replace_crlf_id by done. destruct (index_of _ buf) as [i|] eqn:Ei; [|done].
  intros [= <- <-]. rewrite (index_of_app _ _ q i Ei). apply index_of_len in Ei. simpl in Ei.
  by rewrite take_app_le, drop_app_le by lia.
Qed.

Lemma next_event_parts buf e rest : cr_free buf → nextSSEEvent buf = Some (e, rest) →
  buf = e ++ rest ∧ (2 <= length e)%nat.
Proof.
  intros Hcr. unfold nextSSEEvent. rewrite replace_crlf_id by done.
  destruct (index_of _ buf) as [i|] eqn:Ei; [|done]. intros [= <- <-].
  apply index_of_len in Ei. simpl in Ei. rewrite take_drop, length_take. split; [done|lia].
Qed.

(** The first event a buffer yields is the first event of the stream it begins. *)
Lemma next_event_stream buf q ev evs e rest :
  is_event ev → cr_free (buf ++ q) → buf ++ q = ev ++ concat evs →
  nextSSEEvent buf = Some (e, rest) → e = ev ∧ rest ++ q = concat evs.
Proof.
  intros [Hcr Hev] Hf Heq Hn. pose proof (next_event_app buf q e rest Hf Hn) as H1.
  rewrite Heq in Hf, H1. pose proof (next_event_app ev (concat evs) ev [] Hf Hev) as H2.
  rewrite H1 in H2. by simplify_eq.
Qed.

Lemma next_event_none_stream buf evs :
  Forall is_event evs → buf = concat evs → cr_free buf → nextSSEEvent buf = None → evs = [].
Proof.
  intros Hevs -> Hcr Hn. destruct Hevs as [|ev evs [Hc He] _]; [done|]. cbn [concat] in *.
  pose proof (next_event_app ev (concat evs) ev [] Hcr He) as H. by rewrite Hn in H.
Qed.

(** ** The tap, event by event *)

Section TapLemmas.
Context `{JsonCodec} (engine : option Engine) (format : StreamFormat).
Context (accepts_write : list sent → bool).
Implicit Types o : outbound.

Abbreviation writeFrame := (writeFrame accepts_write).
Abbreviation write_all := (write_all accepts_write).
Abbreviation write_masked := (write_masked accepts_write).
Abbreviation writeFrames := (writeFrames engine accepts_write).
Abbreviation release := (release engine accepts_write).
Abbreviation handleEvent := (handleEvent engine format accepts_write).
Abbreviation write_loop := (write_loop engine format accepts_write).
Abbreviation Write := (Write engine format accepts_write).
Abbreviation Close := (Close engine format accepts_write).

(** [f] only moves [ob_sent], [ob_held] and [ob_audit]: it commutes with the
    buffer and keeps the flags. *)
Definition keeps_frame (f : outbound → outbound * status) : Prop :=
  ∀ fr o, f (set_frame fr o) = (set_frame fr (f o).1, (f o).2).
Definition keeps_flags (f : outbound → outbound * status) : Prop :=
  ∀ o, ob_blocked (f o).1 = ob_blocked o ∧ ob_terminated (f o).1 = ob_terminated o ∧
       ob_committed (f o).1 = ob_committed o.

Lemma writeFrame_frame ev : keeps_frame (writeFrame ev).
Proof. intros fr o. unfold Outbound.writeFrame. case_bool_decide; [done|]. cbn. by destruct (accepts_write _). Qed.

Lemma writeFrame_flags ev : keeps_flags (writeFrame ev).
Proof. intros o. unfold Outbound.writeFrame. case_bool_decide; [done|]. by destruct (accepts_write _). Qed.

Lemma seq_frame f g : keeps_frame f → keeps_frame g →
  keeps_frame (λ o, match f o with (o', Ok) => g o' | r => r end).
Proof. intros Hf Hg fr o. rewrite Hf. destruct (f o) as [o' []]; cbn; [apply Hg|done|done]. Qed.

Lemma seq_flags f g : keeps_flags f → keeps_flags g →
  keeps_flags (λ o, match f o with (o', Ok) => g o' | r => r end).
Proof.
  intros Hf Hg o. specialize (Hf o). destruct (f o) as [o' []]; cbn in *; [|done|done].
  destruct (Hg o') as (-> & -> & ->). done.
Qed.

Lemma write_all_frame evs : keeps_frame (write_all evs).
Proof. induction evs as [|ev evs IH]; [done|]. exact (seq_frame _ _ (writeFrame_frame ev) IH). Qed.

Lemma write_all_flags evs : keeps_flags (write_all evs).
Proof. induction evs as [|ev evs IH]; [done|]. exact (seq_flags _ _ (writeFrame_flags ev) IH). Qed.

Lemma write_masked_frame fs : ∀ parts, keeps_frame (write_masked fs parts).
Proof.
  induction fs as [|f fs IH]; intros [|p parts]; try done. intros fr o. cbn [Outbound.write_masked].
  destruct (if bool_decide _ then _ else _) as [ev|]; [|done].
  exact (seq_frame _ _ (writeFrame_frame ev) (IH parts) fr o).
Qed.

Lemma write_masked_flags fs : ∀ parts, keeps_flags (write_masked fs parts).
Proof.
  induction fs as [|f fs IH]; intros [|p parts]; try done. intros o. cbn [Outbound.write_masked].
  destruct (if bool_decide _ then _ else _) as [ev|]; [|done].
  exact (seq_flags _ _ (writeFrame_flags ev) (IH parts) o).
Qed.

Lemma writeFrames_frame w : keeps_frame (writeFrames w).
Proof.
  intros fr o. destruct w as [|f w]; [done|]. unfold Outbound.writeFrames. cbv zeta.
  destruct (WasMutated _); cbn [negb].
  - change (audit ?d (set_frame fr o)) with (set_frame fr (audit d o)). apply write_masked_frame.
  - apply write_all_frame.
Qed.

Lemma writeFrames_flags w : keeps_flags (writeFrames w).
Proof.
  intros o. destruct w as [|f w]; [done|]. unfold Outbound.writeFrames. cbv zeta.
  destruct (WasMutated _); cbn [negb].
  - apply (write_masked_flags _ _ (audit _ o)).
  - apply write_all_flags.
Qed.

Lemma release_frame b : keeps_frame (release b).
Proof.
  intros fr o. unfold Outbound.release. cbn [ob_held set_frame].
  destruct (ob_held o) as [|f held]; [done|]. cbv zeta. destruct (_ && _); [done|].
  rewrite writeFrames_frame. by destruct (writeFrames _ o) as [o' []].
Qed.

Lemma release_flags b : keeps_flags (release b).
Proof.
  intros o. unfold Outbound.release. destruct (ob_held o) as [|f held]; [done|]. cbv zeta.
  destruct (_ && _); [done|]. pose proof (writeFrames_flags (take (length (f :: held) -
    (if b then 0 else tailFrames (f :: held))) (f :: held)) o) as Hf.
  by destruct (writeFrames _ o) as [o' []].
Qed.

(** Handling an event does not look at the buffer; blocking empties it. *)
Lemma handleEvent_frame ev fr o :
  handleEvent ev (set_frame fr o) =
  (if Blocked (Scan engine (windowText (ob_held o) ++ fr_text (event_frame ev)))
   then handleEvent ev o
   else (set_frame fr (handleEvent ev o).1, (handleEvent ev o).2)).
Proof.
  unfold Outbound.handleEvent. cbn [ob_held set_frame]. destruct (Blocked _); [done|].
  change (set_held ?h (set_frame fr o)) with (set_frame fr (set_held h o)). apply release_frame.
Qed.

Lemma terminal_blocked o :
  ob_blocked (writeTerminalFrames format accepts_write o).1 = ob_blocked o.
Proof.
  unfold writeTerminalFrames. destruct (_ || _); [done|].
  destruct format.
  - by destruct (write_all_flags [sseStopTerminal; sseDoneFrame] (set_terminated true o)) as (-> & _).
  - by destruct (writeFrame_flags claudeBlockFrame (set_terminated true o)) as (-> & _).
  - by destruct (writeFrame_flags responsesBlockFrames (set_terminated true o)) as (-> & _).
Qed.

Lemma handleEvent_blocked ev o :
  ob_blocked o = false →
  ob_blocked (handleEvent ev o).1 = Blocked (Scan engine (windowText (ob_held o) ++ fr_text (event_frame ev))).
Proof.
  intros Ho. unfold Outbound.handleEvent. destruct (Blocked _) eqn:E.
  - unfold block. destruct (negb _); [done|]. by rewrite terminal_blocked.
  - destruct (release_flags false (set_held (ob_held o ++ [event_frame ev]) o)) as (-> & _). done.
Qed.

(** The events of a stream handled one after the other, until one fails or
    blocks. *)
Fixpoint run_events (evs : list bytes) o : outbound * status :=
  match evs with
  | [] => (o, Ok)
  | ev :: evs' =>
      if ob_blocked o then (o, Ok)
      else match handleEvent ev o with
           | (o', Ok) => run_events evs' o'
           | r => r
           end
  end.

(** Successive writes, until one fails. *)
Fixpoint writes (ps : list bytes) o : outbound * status :=
  match ps with
  | [] => (o, Ok)
  | p :: ps' =>
      match Write p o with
      | (o', Ok) => writes ps' o'
      | r => r
      end
  end.

Lemma run_events_blocked evs o : ob_blocked o = true → run_events evs o = (o, Ok).
Proof. destruct evs; [done|]. cbn. by intros ->. Qed.

Lemma writes_blocked ps : ∀ o, ob_blocked o = true → writes ps o = (o, Ok).
Proof. induction ps as [|p ps IH]; intros o Ho; [done|]. cbn. unfold Outbound.Write. rewrite Ho. by apply IH. Qed.

(** Two states that differ in the buffer only. *)
Definition same_but_frame o o' : Prop := set_frame [] o = set_frame [] o'.

Lemma same_set_frame fr o : same_but_frame (set_frame fr o) o.
Proof. done. Qed.

Lemma same_blocked o o' : same_but_frame o o' → ob_blocked o = ob_blocked o'.
Proof. intros E. by apply (f_equal ob_blocked) in E. Qed.

Lemma same_sent o o' : same_but_frame o o' → ob_sent o = ob_sent o' ∧ ob_audit o = ob_audit o'.
Proof. intros E. split; [by apply (f_equal ob_sent) in E|by apply (f_equal ob_audit) in E]. Qed.

Lemma same_eq o o' : same_but_frame o o' → ob_frame o = ob_frame o' → o = o'.
Proof. destruct o, o'. unfold same_but_frame. cbn. intros [= -> -> -> -> -> ->] ->. done. Qed.

Lemma handleEvent_same ev o o' : same_but_frame o o' →
  same_but_frame (handleEvent ev o).1 (handleEvent ev o').1 ∧ (handleEvent ev o).2 = (handleEvent ev o').2 ∧
  (ob_blocked o = false → ob_blocked (handleEvent ev o).1 = false → ob_frame (handleEvent ev o).1 = ob_frame o).
Proof.
  intros E. assert (o' = set_frame (ob_frame o') o) as ->.
  { destruct o, o'. unfold same_but_frame in E. by injection E as -> -> -> -> -> ->. }
  cbn [ob_frame set_frame]. rewrite handleEvent_frame.
  pose proof (handleEvent_frame ev (ob_frame o) o) as Hself.
  replace (set_frame (ob_frame o) o) with o in Hself by by destruct o.
  destruct (Blocked _) eqn:Eb.
  - split_and!; [done..|]. intros Ho Hn. rewrite handleEvent_blocked in Hn by done. congruence.
  - split_and!; [done..|]. intros _ _. by rewrite Hself.
Qed.

Lemma run_events_same evs : ∀ o o', same_but_frame o o' →
  same_but_frame (run_events evs o).1 (run_events evs o').1 ∧ (run_events evs o).2 = (run_events evs o').2.
Proof.
  induction evs as [|ev evs IH]; intros o o' E; [done|]. cbn [run_events].
  rewrite <- (same_blocked o o' E). destruct (ob_blocked o); [done|].
  destruct (handleEvent_same ev o o' E) as (E1 & E2 & _).
  destruct (handleEvent ev o) as [o1 st], (handleEvent ev o') as [o2 st']. cbn in E1, E2. subst st'.
  destruct st; [by apply IH|done|done].
Qed.

Lemma run_events_app evs1 evs2 : ∀ o, run_events (evs1 ++ evs2) o =
  match run_events evs1 o with (o', Ok) => run_events evs2 o' | r => r end.
Proof.
  induction evs1 as [|ev evs1 IH]; intros o; [done|]. cbn [run_events app].
  destruct (ob_blocked o) eqn:Eb; [by rewrite run_events_blocked|].
  destruct (handleEvent ev o) as [o' []]; [apply IH|done|done].
Qed.

(** The loop of one [Write] handles a prefix of the stream's events; unless it
    fails or blocks it stops when the buffer holds no complete event. *)
Lemma write_loop_events fuel : ∀ o q evs,
  Forall is_event evs → cr_free (ob_frame o ++ q) → ob_frame o ++ q = concat evs →
  (length (ob_frame o) < fuel)%nat → ob_blocked o = false →
  ∃ evs1 evs2, evs = evs1 ++ evs2 ∧
    same_but_frame (write_loop fuel o).1 (run_events evs1 o).1 ∧
    (write_loop fuel o).2 = (run_events evs1 o).2 ∧
    ((write_loop fuel o).2 = Ok → ob_blocked (write_loop fuel o).1 = false →
       ob_frame (write_loop fuel o).1 ++ q = concat evs2 ∧
       nextSSEEvent (ob_frame (write_loop fuel o).1) = None).
Proof.
  induction fuel as [|fuel IH]; intros o q evs Hevs Hcr Heq Hf Hb; [lia|].
  cbn [Outbound.write_loop]. rewrite Hb.
  destruct (nextSSEEvent (ob_frame o)) as [[e rest]|] eqn:En; [|by exists [], evs].
  pose proof (proj1 (cr_free_app _ _) Hcr) as [Hcr1 Hcr2].
  destruct (next_event_parts _ _ _ Hcr1 En) as [Hparts Hlen].
  destruct evs as [|ev evs].
  { exfalso. cbn in Heq. apply (f_equal length) in Heq. rewrite Hparts, !length_app in Heq. simpl in Heq. lia. }
  apply Forall_cons in Hevs as [Hev Hevs]. cbn [concat] in Heq.
  destruct (next_event_stream _ q ev evs e rest Hev Hcr Heq En) as [-> Hrest].
  destruct (handleEvent_same ev (set_frame rest o) o (same_set_frame rest o)) as (E1 & E2 & E3).
  destruct (handleEvent ev (set_frame rest o)) as [o1 st] eqn:E4.
  destruct (handleEvent ev o) as [o2 st2] eqn:E5. cbn [fst snd] in *. subst st2.
  destruct st; [|exists [ev], evs; cbn; by rewrite Hb, E5..].
  destruct (ob_blocked o1) eqn:Eb1.
  - exists [ev], evs. cbn [run_events]. rewrite Hb, E5. destruct fuel; cbn [Outbound.write_loop];
      rewrite ?Eb1; cbn; by rewrite ?Eb1.
  - specialize (E3 Hb eq_refl). cbn in E3.
    destruct (IH o1 q evs) as (evs1 & evs2 & -> & H1 & H2 & H3); [done| | | |done|].
    + rewrite E3, Hrest. apply cr_free_app in Hcr as [Hc1 Hc2]. rewrite Hparts in Hc1.
      apply cr_free_app in Hc1 as [_ Hc1]. rewrite <- Hrest. by apply cr_free_app.
    + by rewrite E3.
    + rewrite E3. rewrite Hparts, length_app in Hf. lia.
    + exists (ev :: evs1), evs2. cbn [run_events app]. rewrite Hb, E5.
      destruct (run_events_same evs1 o1 o2 E1) as [G1 G2]. rewrite <- G2. split_and!; try done.
      unfold same_but_frame in *. by rewrite H1, G1.
Qed.

Lemma writes_run_events ps : ∀ o evs,
  Forall is_event evs → cr_free (ob_frame o ++ concat ps) → ob_frame o ++ concat ps = concat evs →
  ob_blocked o = false → nextSSEEvent (ob_frame o) = None →
  same_but_frame (writes ps o).1 (run_events evs o).1 ∧ (writes ps o).2 = (run_events evs o).2 ∧
  ((writes ps o).2 = Ok → ob_blocked (writes ps o).1 = false → ob_frame (writes ps o).1 = []).
Proof.
  induction ps as [|p ps IH]; intros o evs Hevs Hcr Heq Hb Hn; cbn [concat writes] in *.
  - rewrite app_nil_r in *. pose proof (next_event_none_stream _ evs Hevs Heq Hcr Hn) as ->. by split_and!.
  - unfold Outbound.Write. rewrite Hb. set (o0 := set_frame (ob_frame o ++ p) o). cbv zeta.
    destruct (write_loop_events (S (length (ob_frame o0))) o0 (concat ps) evs) as (evs1 & evs2 & -> & H1 & H2 & H3);
      [done|cbn; by rewrite <- app_assoc|cbn; by rewrite <- app_assoc|lia|done|].
    destruct (run_events_same evs1 o0 o (same_set_frame _ o)) as [G1 G2]. rewrite G2 in H2.
    assert (same_but_frame (write_loop (S (length (ob_frame o0))) o0).1 (run_events evs1 o).1) as G3
      by (unfold same_but_frame in *; by rewrite H1, G1).
    rewrite run_events_app. clear G1 G2 H1.
    destruct (write_loop _ o0) as [o1 st]. destruct (run_events evs1 o) as [o2 st2].
    cbn [fst snd] in *. subst st2. destruct st; [|done|done].
    destruct (ob_blocked o1) eqn:Eb1.
    + rewrite writes_blocked by done. rewrite run_events_blocked by (by rewrite <- (same_blocked _ _ G3)).
      cbn. split_and!; try done. congruence.
    + destruct (H3 eq_refl eq_refl) as [K1 K2].
      apply Forall_app in Hevs as [Hevs1 Hevs2].
      destruct (IH o1 evs2 Hevs2) as (J1 & J2 & J3); [|done..|].
      { rewrite K1. rewrite Heq, concat_app in Hcr. by apply cr_free_app in Hcr as [_ ?]. }
      destruct (run_events_same evs2 o1 o2 G3) as [L1 L2]. rewrite <- L2. split_and!; try done.
      unfold same_but_frame in *. by rewrite J1, L1.
Qed.
End TapLemmas.

(** ** Payload text: reading back what was written *)

Lemma set_choice_content c v t : choice_content c = Some t → choice_content (set_choice c v) = Some v.
Proof.
  unfold choice_content. destruct c as [| | | | |m]; try done. cbn [as_obj mbind option_bind set_choice].
  destruct (obj_get (B "delta") m) as [| | | | |d] eqn:Ed; try done. cbn [as_obj mbind option_bind].
  intros Ht. rewrite obj_get_set by (by rewrite Ed). cbn [as_obj mbind option_bind].
  rewrite obj_get_set; [done|]. intros E. by rewrite E in Ht.
Qed.

Lemma set_choices_spec cs : ∀ vs,
  (length (omap choice_content cs) <= length vs)%nat →
  ∃ cs', set_choices cs vs = Some (cs', drop (length (omap choice_content cs)) vs) ∧
    omap choice_content cs' = take (length (omap choice_content cs)) vs.
Proof.
  induction cs as [|c cs IH]; intros vs Hl; [by exists []|]. cbn [omap list_omap set_choices] in *.
  destruct (choice_content c) as [t|] eqn:Ec; cbn [length] in *.
  - destruct vs as [|v vs]; [cbn in Hl; lia|].
    destruct (IH vs ltac:(cbn in Hl; lia)) as (cs' & E1 & E2). rewrite E1. cbn.
    eexists. split; [done|]. cbn [omap list_omap]. by rewrite (set_choice_content c v t Ec), E2.
  - destruct (IH vs Hl) as (cs' & E1 & E2). rewrite E1. cbn.
    eexists. split; [done|]. cbn [omap list_omap]. by rewrite Ec, E2.
Qed.

Lemma set_choices_panic cs : ∀ vs,
  (length vs < length (omap choice_content cs))%nat → set_choices cs vs = None.
Proof.
  induction cs as [|c cs IH]; intros vs Hl; [simpl in Hl; lia|]. cbn [omap list_omap set_choices] in *.
  destruct (choice_content c) as [t|] eqn:Ec; cbn [length] in *.
  - destruct vs as [|v vs]; [done|]. rewrite IH; [done|]. cbn in Hl. lia.
  - by rewrite IH.
Qed.

(** The two optional values after the choices. *)
Lemma block_text_set k v p : k ≠ B "content_block" → block_text (obj_set k v p) = block_text p.
Proof. intros Hk. unfold block_text. by rewrite obj_get_set_ne. Qed.

Definition set_choices_in (p : object) (cs : list json) : object :=
  match obj_get (B "choices") p with
  | JArr _ => obj_set (B "choices") (JArr cs) p
  | _ => p
  end.

Lemma set_choices_in_get k p cs : k ≠ B "choices" → obj_get k (set_choices_in p cs) = obj_get k p.
Proof. intros Hk. unfold set_choices_in. destruct (obj_get (B "choices") p); try done. by rewrite obj_get_set_ne. Qed.

Lemma set_choices_in_choices p cs cs' vs :
  set_choices (sliceOf (obj_get (B "choices") p)) vs = Some (cs, cs') →
  omap choice_content (sliceOf (obj_get (B "choices") (set_choices_in p cs))) = omap choice_content cs.
Proof.
  unfold set_choices_in. destruct (obj_get (B "choices") p) eqn:Ec; rewrite ?Ec;
    try (cbn; by intros [= <- <-]).
  intros _. rewrite obj_get_set by (by rewrite Ec). done.
Qed.

(** The second half of [setPayloadText]. *)
Definition set_block (p1 : object) (vs : list bytes) : option (object * list bytes) :=
  match obj_get (B "content_block") p1 with
  | JObj blk =>
      match as_str (obj_get (B "text") blk), vs with
      | None, _ => Some (p1, vs)
      | Some _, [] => None
      | Some _, v :: vs' =>
          Some (obj_set (B "content_block") (JObj (obj_set (B "text") (JStr v) blk)) p1, vs')
      end
  | _ => Some (p1, vs)
  end.

Definition set_delta (p2 : object) (vs2 : list bytes) : option object :=
  match as_str (obj_get (B "delta") p2), vs2 with
  | None, _ => Some p2
  | Some _, [] => None
  | Some _, v :: _ => Some (obj_set (B "delta") (JStr v) p2)
  end.

Lemma setPayloadText_eq p vs :
  setPayloadText p vs =
  '(cs, vs1) ← set_choices (sliceOf (obj_get (B "choices") p)) vs;
  '(p2, vs2) ← set_block (set_choices_in p cs) vs1; set_delta p2 vs2.
Proof. done. Qed.

Lemma set_block_spec p vs :
  match block_text p with
  | None => set_block p vs = Some (p, vs)
  | Some _ => match vs with
              | [] => set_block p vs = None
              | v :: vs' => ∃ p', set_block p vs = Some (p', vs') ∧ block_text p' = Some v ∧
                  ∀ k, k ≠ B "content_block" → obj_get k p' = obj_get k p
              end
  end.
Proof.
  unfold block_text, set_block. destruct (obj_get (B "content_block") p) as [| | | | |blk] eqn:Eb;
    cbn [as_obj mbind option_bind]; try done.
  destruct (obj_get (B "text") blk) as [| | |t| |] eqn:Et; cbn [as_str]; try done.
  destruct vs as [|v vs]; [done|]. eexists. split; [done|]. rewrite obj_get_set by (by rewrite Eb).
  cbn [as_obj mbind option_bind]. rewrite obj_get_set by (by rewrite Et). split; [done|].
  intros k Hk. by apply obj_get_set_ne.
Qed.

Lemma set_delta_spec p vs :
  match as_str (obj_get (B "delta") p) with
  | None => set_delta p vs = Some p
  | Some _ => match vs with
              | [] => set_delta p vs = None
              | v :: _ => ∃ p', set_delta p vs = Some p' ∧ as_str (obj_get (B "delta") p') = Some v ∧
                  ∀ k, k ≠ B "delta" → obj_get k p' = obj_get k p
              end
  end.
Proof.
  unfold set_delta. destruct (as_str (obj_get (B "delta") p)) as [t|] eqn:Ed; [|done].
  destruct vs as [|v vs]; [done|]. eexists. split; [done|]. rewrite obj_get_set.
  - split; [done|]. intros k Hk. by apply obj_get_set_ne.
  - intros E. by rewrite E in Ed.
Qed.

Lemma payloadText_get p p' :
  omap choice_content (sliceOf (obj_get (B "choices") p')) = omap choice_content (sliceOf (obj_get (B "choices") p)) →
  obj_get (B "content_block") p' = obj_get (B "content_block") p →
  obj_get (B "delta") p' = obj_get (B "delta") p → payloadText p' = payloadText p.
Proof. intros E1 E2 E3. unfold payloadText, block_text. by rewrite E1, E2, E3. Qed.

Lemma keys_distinct : B "content_block" ≠ B "choices" ∧ B "delta" ≠ B "choices" ∧
  B "delta" ≠ B "content_block" ∧ B "choices" ≠ B "content_block".
Proof. split_and!; by vm_compute. Qed.

Lemma take_plus {A} n k (l : list A) : take (n + k) l = take n l ++ take k (drop n l).
Proof.
  revert l. induction n as [|n IH]; intros [|x l]; cbn; rewrite ?take_nil; [done..|]. by rewrite IH.
Qed.

Lemma drop_nil_len {A} n (l : list A) : drop n l = [] → (length l <= n)%nat.
Proof. intros E. apply (f_equal length) in E. rewrite length_drop in E. cbn [length] in E. lia. Qed.

Lemma setPayloadText_enough p vs :
  (length (payloadText p) <= length vs)%nat →
  ∃ p', setPayloadText p vs = Some p' ∧ payloadText p' = take (length (payloadText p)) vs.
Proof.
  destruct keys_distinct as (K1 & K2 & K3 & K4).
  rewrite setPayloadText_eq. unfold payloadText at 1 3. rewrite !length_app. intros Hl.
  destruct (set_choices_spec (sliceOf (obj_get (B "choices") p)) vs ltac:(lia)) as (cs & E1 & E2).
  set (n := length (omap choice_content (sliceOf (obj_get (B "choices") p)))) in *.
  rewrite E1. cbn [mbind option_bind]. set (p1 := set_choices_in p cs).
  assert (omap choice_content (sliceOf (obj_get (B "choices") p1)) = take n vs) as Hc1
    by (unfold p1; by rewrite (set_choices_in_choices p cs _ vs E1)).
  assert (block_text p1 = block_text p) as Hb1 by (unfold block_text, p1; by rewrite set_choices_in_get).
  assert (obj_get (B "delta") p1 = obj_get (B "delta") p) as Hd1 by (unfold p1; by rewrite set_choices_in_get).
  pose proof (set_block_spec p1 (drop n vs)) as Hb. rewrite Hb1 in Hb.
  destruct (block_text p) as [t2|] eqn:Eb; cbn [option_list option_rect length] in *.
  - destruct (drop n vs) as [|v2 vs2] eqn:Ev; [apply drop_nil_len in Ev; lia|].
    destruct Hb as (p2 & -> & Hb2 & Hk2). cbn [mbind option_bind].
    assert (drop (S n) vs = vs2) as Ev2 by (rewrite <- Nat.add_1_r, <- drop_drop, Ev; done).
    pose proof (set_delta_spec p2 vs2) as Hd. rewrite Hk2, Hd1 in Hd by done.
    destruct (as_str (obj_get (B "delta") p)) as [t3|] eqn:Ed; cbn [option_list option_rect length] in *.
    + destruct vs2 as [|v3 vs3]; [apply drop_nil_len in Ev2; lia|].
      destruct Hd as (p3 & -> & Hd3 & Hk3). eexists. split; [done|].
      unfold payloadText, block_text. rewrite !Hk3 by done. fold (block_text p2). rewrite Hk2 by done.
      rewrite Hc1, Hb2, Hd3. cbn [option_list option_rect app].
      by rewrite take_plus, Ev.
    + rewrite Hd. eexists. split; [done|]. unfold payloadText. rewrite !Hk2 by done.
      rewrite Hc1, Hb2, Hd1, Ed. cbn [option_list option_rect app].
      by rewrite take_plus, Ev.
  - rewrite Hb. cbn [mbind option_bind]. pose proof (set_delta_spec p1 (drop n vs)) as Hd.
    rewrite Hd1 in Hd. destruct (as_str (obj_get (B "delta") p)) as [t3|] eqn:Ed; cbn [option_list option_rect length] in *.
    + destruct (drop n vs) as [|v3 vs3] eqn:Ev; [apply drop_nil_len in Ev; lia|].
      destruct Hd as (p3 & -> & Hd3 & Hk3). eexists. split; [done|].
      unfold payloadText, block_text. rewrite !Hk3 by done. fold (block_text p1).
      rewrite Hc1, Hb1, Hd3. cbn [option_list option_rect app].
      by rewrite take_plus, Ev.
    + rewrite Hd. eexists. split; [done|]. unfold payloadText.
      rewrite Hc1, Hb1, Hd1, Ed. cbn [option_list option_rect]. rewrite !app_nil_r.
      by replace (n + (0 + 0))%nat with n by lia.
Qed.

Lemma setPayloadText_short p vs :
  (length vs < length (payloadText p))%nat → setPayloadText p vs = None.
Proof.
  destruct keys_distinct as (K1 & K2 & K3 & K4).
  rewrite setPayloadText_eq. unfold payloadText. rewrite !length_app. intros Hl.
  set (n := length (omap choice_content (sliceOf (obj_get (B "choices") p)))) in *.
  destruct (decide (length vs < n)%nat) as [Hn|Hn].
  { by rewrite set_choices_panic. }
  destruct (set_choices_spec (sliceOf (obj_get (B "choices") p)) vs ltac:(unfold n in Hn; lia)) as (cs & E1 & _).
  fold n in E1. rewrite E1. cbn [mbind option_bind]. set (p1 := set_choices_in p cs).
  assert (block_text p1 = block_text p) as Hb1 by (unfold block_text, p1; by rewrite set_choices_in_get).
  assert (obj_get (B "delta") p1 = obj_get (B "delta") p) as Hd1 by (unfold p1; by rewrite set_choices_in_get).
  pose proof (set_block_spec p1 (drop n vs)) as Hb. rewrite Hb1 in Hb.
  pose proof (length_drop vs n) as Hld.
  destruct (block_text p) as [t2|] eqn:Eb; cbn [option_list option_rect length] in *.
  - destruct (drop n vs) as [|v2 vs2]; [by rewrite Hb|].
    destruct Hb as (p2 & -> & Hb2 & Hk2). cbn [mbind option_bind].
    pose proof (set_delta_spec p2 vs2) as Hd. rewrite Hk2, Hd1 in Hd by done.
    destruct (as_str (obj_get (B "delta") p)); cbn [option_list option_rect length] in *; [|lia].
    destruct vs2; [done|cbn in Hld; lia].
  - rewrite Hb. cbn [mbind option_bind]. pose proof (set_delta_spec p1 (drop n vs)) as Hd.
    rewrite Hd1 in Hd. destruct (as_str (obj_get (B "delta") p)); cbn [option_list option_rect length] in *; [|lia].
    destruct (drop n vs); [done|cbn in Hld; lia].
Qed.

(** ** Behaviour against a client that accepts every write *)

Definition accept_all (_ : list sent) : bool := true.
(** Behind the status line. *)
Definition fresh : outbound := mkOut [] [] false false true [SHeader 200] [].

Section Accepting.
Context `{JsonCodec} (engine : option Engine) (format : StreamFormat).
Implicit Types o : outbound.

Abbreviation handleEvent := (handleEvent engine format accept_all).
Abbreviation run_events := (run_events engine format accept_all).
Abbreviation release := (release engine accept_all).

Definition add_sent (l : list sent) o : outbound :=
  mkOut (ob_held o) (ob_frame o) (ob_blocked o) (ob_terminated o) (ob_committed o) (ob_sent o ++ l) (ob_audit o).

Lemma add_sent_nil o : add_sent [] o = o.
Proof. unfold add_sent. rewrite app_nil_r. by destruct o. Qed.

Lemma add_sent_add l1 l2 o : add_sent l2 (add_sent l1 o) = add_sent (l1 ++ l2) o.
Proof. unfold add_sent; cbn. by rewrite app_assoc. Qed.

Lemma write_all_accept evs o : Forall (λ ev, ev ≠ []) evs →
  write_all accept_all evs o = (add_sent (map SWrite evs) o, Ok).
Proof.
  intros Hevs. revert o. induction Hevs as [|ev evs Hev _ IH]; intros o; [by rewrite add_sent_nil|].
  cbn [write_all]. unfold writeFrame. rewrite bool_decide_eq_false_2 by done. cbn. rewrite IH.
  unfold add_sent, send; cbn. by rewrite <- app_assoc.
Qed.

Definition raw_ok (f : pendingFrame) : Prop := fr_raw f ≠ [].

Lemma event_frame_raw ev : fr_raw (event_frame ev) = ev.
Proof. unfold event_frame. destruct (ssePayload ev) as [p|]; [|done]. by destruct (decodePayload p). Qed.

Lemma writeFrames_raw w o : Forall raw_ok w → WasMutated (Scan engine (windowText w)) = false →
  writeFrames engine accept_all w o = (add_sent (map (λ f, SWrite (fr_raw f)) w) o, Ok).
Proof.
  intros Hw Hm. destruct w as [|f w]; [by rewrite add_sent_nil|]. unfold writeFrames. cbv zeta.
  rewrite Hm. cbn [negb]. rewrite write_all_accept by (apply Forall_map; exact Hw). by rewrite map_map.
Qed.

(** A policy that neither blocks nor redacts. *)
Definition passive : Prop := ∀ t, Blocked (Scan engine t) = false ∧ WasMutated (Scan engine t) = false.

Lemma release_passive b o : passive → Forall raw_ok (ob_held o) →
  ∃ n, release b o = (set_held (drop n (ob_held o))
                       (add_sent (map (λ f, SWrite (fr_raw f)) (take n (ob_held o))) o), Ok) ∧
    (b = true → (length (ob_held o) <= n)%nat).
Proof.
  intros Hp Hraw. unfold Outbound.release. destruct (ob_held o) as [|f held] eqn:Eh.
  - exists 0%nat. split; [|done]. cbn. rewrite add_sent_nil, <- Eh. by destruct o.
  - cbv zeta. set (keep := if b then 0%nat else tailFrames (f :: held)).
    destruct (negb b && _) eqn:Ek.
    + exists 0%nat. apply andb_prop in Ek as [Hb _]. split; [|by destruct b].
      rewrite drop_0, take_0. cbn [map]. rewrite add_sent_nil, <- Eh. by destruct o.
    + exists (length (f :: held) - keep)%nat. rewrite writeFrames_raw; [|by apply Forall_take|apply Hp].
      split; [done|]. intros ->. unfold keep. lia.
Qed.

Definition shown o : list sent := ob_sent o ++ map (λ f, SWrite (fr_raw f)) (ob_held o).

Lemma handleEvent_passive ev o : passive → ev ≠ [] → Forall raw_ok (ob_held o) →
  (handleEvent ev o).2 = Ok ∧ shown (handleEvent ev o).1 = shown o ++ [SWrite ev] ∧
  Forall raw_ok (ob_held (handleEvent ev o).1) ∧ ob_blocked (handleEvent ev o).1 = ob_blocked o.
Proof.
  intros Hp Hev Hraw. unfold Outbound.handleEvent. destruct (Hp (windowText (ob_held o) ++ fr_text (event_frame ev))) as [-> _].
  set (o1 := set_held (ob_held o ++ [event_frame ev]) o).
  assert (Forall raw_ok (ob_held o1)) as Hraw1.
  { apply Forall_app. split; [done|]. constructor; [|done]. unfold raw_ok. by rewrite event_frame_raw. }
  destruct (release_passive false o1 Hp Hraw1) as (n & -> & _). cbn. split_and!; [done| |by apply Forall_drop|done].
  unfold shown; cbn. rewrite <- !app_assoc. f_equal. rewrite <- map_app, take_drop, map_app. cbn.
  by rewrite event_frame_raw.
Qed.

Lemma run_events_passive evs : ∀ o, passive → Forall (λ ev, ev ≠ []) evs → Forall raw_ok (ob_held o) →
  ob_blocked o = false →
  (run_events evs o).2 = Ok ∧ shown (run_events evs o).1 = shown o ++ map SWrite evs ∧
  Forall raw_ok (ob_held (run_events evs o).1) ∧ ob_blocked (run_events evs o).1 = false.
Proof.
  induction evs as [|ev evs IH]; intros o Hp Hevs Hraw Hb; cbn [Outbound.run_events].
  - cbn. by rewrite app_nil_r.
  - rewrite Hb. apply Forall_cons in Hevs as [Hev Hevs].
    destruct (handleEvent_passive ev o Hp Hev Hraw) as (E1 & E2 & E3 & E4).
    destruct (handleEvent ev o) as [o' st]. cbn in *. subst st.
    destruct (IH o' Hp Hevs E3) as (G1 & G2 & G3 & G4); [by rewrite E4|].
    split_and!; [done| |done..]. rewrite G2, E2, <- app_assoc. done.
Qed.

Lemma run_events_audit evs : ∀ o, passive → Forall (λ ev, ev ≠ []) evs → Forall raw_ok (ob_held o) →
  ob_blocked o = false → ob_audit (run_events evs o).1 = ob_audit o.
Proof.
  induction evs as [|ev evs IH]; intros o Hp Hevs Hraw Hb; [done|]. cbn [Outbound.run_events].
  rewrite Hb. apply Forall_cons in Hevs as [Hev Hevs].
  destruct (handleEvent_passive ev o Hp Hev Hraw) as (E1 & E2 & E3 & E4).
  assert (ob_audit (handleEvent ev o).1 = ob_audit o) as Ea.
  { unfold Outbound.handleEvent. destruct (Hp (windowText (ob_held o) ++ fr_text (event_frame ev))) as [-> _].
    destruct (release_passive false (set_held (ob_held o ++ [event_frame ev]) o) Hp) as (n & -> & _); [|done].
    apply Forall_app. split; [done|]. constructor; [|done]. unfold raw_ok. by rewrite event_frame_raw. }
  destruct (handleEvent ev o) as [o' st]. cbn in *. subst st.
  rewrite IH by (done || congruence). done.
Qed.

(** ** Short streams *)

Definition text_total (fs : list pendingFrame) : nat := sum_list_with (λ f, length (fr_text f)) fs.

Lemma tail_loop_short l : ∀ budget keep,
  (budget + text_total l < scanWindowChars)%nat → tail_loop l budget keep = (keep + length l)%nat.
Proof.
  induction l as [|f l IH]; intros budget keep Hl; cbn [tail_loop length].
  - lia.
  - unfold text_total in Hl; cbn [sum_list_with] in Hl. cbv zeta.
    rewrite (proj2 (Nat.leb_gt _ _)) by lia. rewrite IH by (unfold text_total; lia). lia.
Qed.

Lemma text_total_rev l : text_total (rev l) = text_total l.
Proof.
  unfold text_total. induction l as [|f l IH]; [done|]. cbn [rev].
  rewrite sum_list_with_app, IH. cbn. lia.
Qed.

Lemma tailFrames_short held : (text_total held < scanWindowChars)%nat → tailFrames held = length held.
Proof. intros Hl. unfold tailFrames. rewrite tail_loop_short, length_rev by (rewrite text_total_rev; lia). done. Qed.

Lemma text_total_app a b : text_total (a ++ b) = (text_total a + text_total b)%nat.
Proof. apply sum_list_with_app. Qed.

(** While the text of a stream stays below the window nothing is released. *)
Lemma run_events_short evs : ∀ o,
  (∀ t, Blocked (Scan engine t) = false) → ob_blocked o = false →
  (text_total (ob_held o ++ map event_frame evs) < scanWindowChars)%nat →
  run_events evs o = (set_held (ob_held o ++ map event_frame evs) o, Ok).
Proof.
  induction evs as [|ev evs IH]; intros o Hp Hb Hl; cbn [Outbound.run_events map].
  - rewrite app_nil_r. by destruct o.
  - rewrite Hb. unfold Outbound.handleEvent. rewrite Hp. unfold Outbound.release.
    cbn [ob_held set_held]. cbn [map] in Hl. rewrite cons_middle, app_assoc in Hl.
    assert (text_total (ob_held o ++ [event_frame ev]) < scanWindowChars)%nat as Hl1
      by (rewrite text_total_app in Hl; lia).
    destruct (ob_held o ++ [event_frame ev]) as [|f held] eqn:Eh; [by destruct (ob_held o)|].
    cbv zeta. rewrite tailFrames_short by done. rewrite Nat.eqb_refl. cbn [negb andb].
    rewrite IH; [|done..|by cbn]. cbn [ob_held set_held]. rewrite <- Eh, <- app_assoc. done.
Qed.
End Accepting.

(** ** Whole streams *)

Section Streams.
Context `{JsonCodec} (engine : option Engine) (format : StreamFormat) (accepts_write : list sent → bool).
Implicit Types o : outbound.

(** What was sent, what was audited and how it ended, once the chunks [ps] were
    written, up to the first that failed, and the tap closed, which it is also when a
    write failed or panicked; of [Close] only a panic is seen by the caller. *)
Definition client_view (ps : list bytes) o : list sent * list Decision * status :=
  let '(o1, st1) := writes engine format accepts_write ps o in
  let '(o2, st2) := Close engine format accepts_write o1 in
  (ob_sent o2, ob_audit o2, match st1, st2 with Panic, _ | _, Panic => Panic | Err, _ => Err | Ok, _ => Ok end).

Lemma terminal_frame : keeps_frame (writeTerminalFrames format accepts_write).
Proof.
  intros fr o. unfold writeTerminalFrames. cbn [ob_terminated ob_blocked set_frame].
  destruct (_ || _); [done|]. cbv zeta. change (set_terminated true (set_frame fr o)) with (set_frame fr (set_terminated true o)).
  destruct format; [apply write_all_frame|apply writeFrame_frame..].
Qed.

Lemma Close_blocked o o' : same_but_frame o o' → ob_blocked o = true →
  ob_sent (Close engine format accepts_write o).1 = ob_sent (Close engine format accepts_write o').1 ∧
  ob_audit (Close engine format accepts_write o).1 = ob_audit (Close engine format accepts_write o').1 ∧
  (Close engine format accepts_write o).2 = (Close engine format accepts_write o').2.
Proof.
  intros E Hb. assert (o' = set_frame (ob_frame o') o) as ->.
  { destruct o, o'. unfold same_but_frame in E. by injection E as -> -> -> -> -> ->. }
  unfold Close. cbn [ob_blocked set_frame]. rewrite Hb. rewrite terminal_frame. done.
Qed.

Lemma client_view_pivot ps ps' evs o :
  Forall is_event evs → concat ps = concat evs → concat ps' = concat evs →
  ob_frame o = [] → ob_blocked o = false → (writes engine format accepts_write ps o).2 = Ok →
  client_view ps o = client_view ps' o.
Proof.
  intros Hevs H1 H2 Hf Hb Hok.
  assert (cr_free (concat evs)) as Hcr.
  { clear H1 H2. induction Hevs as [|ev evs [Hev _] _ IH]; cbn; [unfold cr_free; by apply not_elem_of_nil|].
    by apply cr_free_app. }
  assert (nextSSEEvent (ob_frame o) = None) as Hn by by rewrite Hf.
  destruct (writes_run_events engine format accepts_write ps o evs) as (A1 & A2 & A3);
    [done|by rewrite Hf, H1|by rewrite Hf, H1|done..|].
  destruct (writes_run_events engine format accepts_write ps' o evs) as (B1 & B2 & B3);
    [done|by rewrite Hf, H2|by rewrite Hf, H2|done..|].
  unfold client_view. destruct (writes _ _ _ ps o) as [o1 st1], (writes _ _ _ ps' o) as [o2 st2].
  cbn [fst snd] in *. rewrite A2 in A3 |- *. rewrite B2 in B3 |- *.
  assert (same_but_frame o1 o2) as E by (unfold same_but_frame in *; by rewrite A1, B1).
  rewrite Hok in A2. rewrite <- A2 in A3, B2, B3. subst st1 st2. destruct (ob_blocked o1) eqn:Eb.
  - destruct (Close_blocked o1 o2 E Eb) as (C1 & C2 & C3).
    destruct (Close _ _ _ o1) as [o3 st3], (Close _ _ _ o2) as [o4 st4]. cbn in *. by subst st4; rewrite C1, C2.
  - specialize (A3 eq_refl eq_refl). specialize (B3 eq_refl). rewrite <- (same_blocked _ _ E) in B3.
    specialize (B3 Eb). by rewrite (same_eq o1 o2 E) by congruence.
Qed.
End Streams.

(** Feeding the events one by one is a chunking of the stream. *)
Lemma client_view_events `{JsonCodec} engine format accepts ps evs o :
  Forall is_event evs → concat ps = concat evs → ob_frame o = [] → ob_blocked o = false →
  (run_events engine format accepts evs o).2 = Ok →
  client_view engine format accepts ps o =
  let '(o2, st) := Close engine format accepts (set_frame [] (run_events engine format accepts evs o).1) in
  (ob_sent o2, ob_audit o2, match st with Panic => Panic | _ => Ok end).
Proof.
  intros Hevs Hc Hf Hb Hok.
  assert (cr_free (concat evs)) as Hcr.
  { clear Hc Hok. induction Hevs as [|ev evs [Hev _] _ IH]; cbn; [unfold cr_free; by apply not_elem_of_nil|].
    by apply cr_free_app. }
  destruct (writes_run_events engine format accepts ps o evs) as (A1 & A2 & A3);
    [done|by rewrite Hf, Hc|by rewrite Hf, Hc|done|by rewrite Hf|].
  unfold client_view. destruct (writes _ _ _ ps o) as [o1 st1], (run_events _ _ _ evs o) as [o2 st2].
  cbn [fst snd] in *. subst st2. subst st1.
  destruct (ob_blocked o1) eqn:Eb.
  - destruct (Close_blocked engine format accepts o1 (set_frame [] o2) A1 Eb) as (C1 & C2 & C3).
    destruct (Close _ _ _ o1) as [o3 st3], (Close _ _ _ (set_frame [] o2)) as [o4 st4]. cbn in *. subst st4. rewrite C1, C2. by destruct st3.
  - specialize (A3 eq_refl eq_refl). replace (set_frame [] o2) with o1; [done|].
    rewrite <- A1. destruct o1. cbn in A3. by subst.
Qed.

(** ** Properties *)

(** [remap] distributes a redaction over the frames of a window without
    losing or reordering a byte of the unchanged text: the parts concatenate to
    the text before the change, the replacement once for every frame that
    touches the position where the change begins, and the text after it. When
    exactly one frame touches it the parts spell the masked text; a change that
    begins on a frame boundary is written at least twice. *)
Theorem remap_concat original masked spans :
  sum_list spans = length original →
  let p := commonPrefixLen original masked in
  let s := commonSuffixLen original masked p in
  let replacement := sub_bytes p (length masked - s) masked in
  concat (remap original masked spans) =
    take p masked ++ repeat_bytes (touches p 0 spans) replacement ++ drop (length masked - s) masked ∧
  (touches p 0 spans = 1%nat → concat (remap original masked spans) = masked).
Proof.
  intros Hs p s replacement. destruct (commonPrefixLen_spec original masked) as (Hp & Hp1 & Hp2).
  fold p in Hp, Hp1, Hp2. destruct (commonSuffixLen_spec original masked p Hp1 Hp2) as (Hd & Hs1 & Hs2).
  fold s in Hd, Hs1, Hs2.
  assert (concat (remap original masked spans) =
    take p masked ++ repeat_bytes (touches p 0 spans) replacement ++ drop (length masked - s) masked) as E.
  { unfold remap. fold p s replacement. rewrite remap_loop_concat by (done || lia).
    rewrite Nat.max_r by lia. cbn [Nat.sub]. rewrite drop_0, <- Hd. unfold sub_bytes at 1.
    rewrite drop_0, Nat.sub_0_r. by rewrite Hp. }
  split; [exact E|]. intros H1. rewrite E, H1. unfold repeat_bytes; cbn. rewrite app_nil_r.
  unfold replacement. rewrite <- sub_bytes_end. rewrite sub_bytes_split by lia.
  rewrite sub_bytes_end. apply take_drop.
Qed.

(** C35. How a response reaches the client does not depend on how the upstream
    bytes were cut into writes: when the writes of one chunking of a CR-free
    sequence of complete events succeed, every other chunking sends the same,
    audits the same and ends the same once the tap is closed, for any policy and
    codec, and for any client that took those writes. *)
Theorem chunking_does_not_matter `{JsonCodec} engine format accepts ps ps' evs o :
  Forall is_event evs → concat ps = concat evs → concat ps' = concat evs →
  ob_frame o = [] → ob_blocked o = false → (writes engine format accepts ps o).2 = Ok →
  client_view engine format accepts ps o = client_view engine format accepts ps' o.
Proof. intros. by apply (client_view_pivot engine format accepts ps ps' evs). Qed.

(** A stream in which the policy neither blocks nor redacts is relayed
    event for event, byte for byte and in order, nothing held back once the tap
    is closed. *)
Theorem clean_stream_is_transparent `{JsonCodec} engine format ps evs :
  passive engine → Forall is_event evs → concat ps = concat evs →
  client_view engine format accept_all ps fresh = (SHeader 200 :: map SWrite evs ++ [SFlush], [], Ok).
Proof.
  intros Hp Hevs Hc. assert (Forall (λ ev, ev ≠ []) evs) as Hne.
  { eapply Forall_impl; [exact Hevs|]. intros ev [_ Hn] ->. by vm_compute in Hn. }
  destruct (run_events_passive engine format evs fresh Hp Hne) as (E1 & E2 & E3 & E4); [done..|].
  rewrite (client_view_events _ _ _ ps evs) by done.
  pose proof (run_events_audit engine format evs fresh Hp Hne ltac:(constructor) eq_refl) as E5.
  destruct (run_events _ _ _ evs fresh) as [o1 st]. cbn [fst snd] in *. subst st. unfold Close.
  cbn [ob_blocked ob_frame set_frame]. rewrite E4, bool_decide_eq_true_2 by done.
  destruct (release_passive engine true (set_frame [] o1) Hp E3) as (n & -> & Hn).
  specialize (Hn eq_refl). cbn [ob_held set_frame] in *. rewrite (take_ge _ n) by done.
  unfold writeTerminalFrames. cbn. rewrite E4, orb_true_r. cbn. unfold shown in E2. cbn in E2.
  rewrite E2. by rewrite E5.
Qed.

(** A stream whose judged text stays below the 512-byte window is judged as
    one text: the client receives exactly what masking the concatenated text of
    all frames gives, so a value split over any number of deltas is caught. *)
Theorem short_stream_judged_as_one `{JsonCodec} engine format ps evs :
  (∀ t, Blocked (Scan engine t) = false) → Forall is_event evs → concat ps = concat evs →
  (text_total (map event_frame evs) < scanWindowChars)%nat →
  client_view engine format accept_all ps fresh =
  (let '(o, st) := writeFrames engine accept_all (map event_frame evs)
                     (set_held (map event_frame evs) fresh) in
   (ob_sent o ++ match st with Ok => [SFlush] | _ => [] end, ob_audit o, match st with Panic => Panic | _ => Ok end)).
Proof.
  intros Hnb Hevs Hc Hl. rewrite (client_view_events _ _ _ ps evs) by (done || by rewrite run_events_short).
  rewrite run_events_short by done. cbn [fst ob_held fresh app]. unfold Close.
  cbn [ob_blocked ob_frame set_frame set_held fresh]. rewrite bool_decide_eq_true_2 by done.
  unfold release. cbn [ob_held set_held set_frame]. destruct (map event_frame evs) as [|f fs] eqn:Em; [done|].
  cbv zeta. cbn [negb andb]. rewrite Nat.sub_0_r, take_ge by done.
  change (set_frame [] ?x) with x.
  pose proof (writeFrames_flags engine accept_all (f :: fs) (set_held (f :: fs) fresh)) as (Hb & _ & _).
  destruct (writeFrames _ _ _ _) as [o st]. cbn in Hb. destruct st; [|by rewrite app_nil_r..].
  unfold writeTerminalFrames. cbn [ob_terminated ob_blocked set_held]. rewrite Hb, orb_true_r. done.
Qed.

(** The frames that close a blocked stream. *)
Definition terminal_bytes (format : StreamFormat) : bytes :=
  match format with
  | FormatOpenAI => sseStopTerminal ++ sseDoneFrame
  | FormatClaude => claudeBlockFrame
  | FormatResponses => responsesBlockFrames
  end.

Definition block_message : bytes := BlockedMessage ++ B "." ++ [ch_lf].

Lemma received_app l1 l2 : received (l1 ++ l2) = foldl receive (received l1) l2.
Proof. apply foldl_app. Qed.

Lemma received_some l r s b : received l = (Some s, b) → r = SFlush → received (l ++ [r]) = received l.
Proof. intros E ->. by rewrite received_app, E. Qed.

(** C38. A block is final: when the window with the new event is refused, what was held
    is dropped, further writes and flushes do nothing and closing the tap changes
    nothing for the client. A client whose status line was written through the tap gets
    the terminal frames of its format, once; one that was sent nothing gets a 502 with
    the message; but one that was sent bytes or a flush without a status line keeps its
    status, and gets the message as a line of text, without an end of the stream. *)
Theorem block_is_final `{JsonCodec} engine format ev ps o :
  ob_blocked o = false → ob_terminated o = false →
  Blocked (Scan engine (windowText (ob_held o) ++ fr_text (event_frame ev))) = true →
  ∃ o' closed, handleEvent engine format accept_all ev o = (o', Ok) ∧
    ob_held o' = [] ∧ writes engine format accept_all ps o' = (o', Ok) ∧ Flush o' = o' ∧
    Close engine format accept_all o' = (closed, Ok) ∧ received (ob_sent closed) = received (ob_sent o') ∧
    received (ob_sent o') =
      let '(status, body) := received (ob_sent o) in
      if ob_committed o then (Some (default 200 status), body ++ terminal_bytes format)
      else match status with
           | None => (Some 502, body ++ block_message)
           | Some code => (Some code, body ++ block_message)
           end.
Proof.
  intros Hb Ht Hbl. unfold handleEvent. rewrite Hbl. unfold block. cbn [ob_committed].
  destruct (received (ob_sent o)) as [status body] eqn:Er. destruct (ob_committed o) eqn:Hc; cbn [negb].
  - unfold writeTerminalFrames at 1. cbn [ob_terminated ob_blocked]. rewrite Ht. cbn [orb negb].
    destruct format; (eexists _, _; split_and!; [reflexivity|done|by apply writes_blocked|done|reflexivity| |]);
      cbn; rewrite <- ?app_assoc, ?received_app, ?Er; cbn; by rewrite <- ?app_assoc.
  - eexists _, _. split_and!; [reflexivity|done|by apply writes_blocked|done|reflexivity|..]; cbn; rewrite ?received_app, ?Er; by destruct status.
Qed.

(** Closing a tap that was sent nothing spends the status: the flush behind a request
    that failed before its first byte is a 200. *)
Theorem idle_tap_spends_the_status `{JsonCodec} engine format o :
  ob_blocked o = false → ob_held o = [] → ob_frame o = [] → received (ob_sent o) = (None, []) →
  ∃ o', Close engine format accept_all o = (o', Ok) ∧ received (ob_sent o') = (Some 200, []).
Proof.
  intros Hb Hh Hf Hr. unfold Close. rewrite Hb, Hf, bool_decide_eq_true_2 by done. unfold release. rewrite Hh.
  unfold writeTerminalFrames. rewrite Hb, orb_true_r. eexists. split; [done|]. cbn. by rewrite received_app, Hr.
Qed.

(** Writing strings back into a payload reads back: with at least as many
    values as the payload has judged strings the call succeeds and the judged
    strings are exactly those values; with fewer it panics, so re-encoding a
    frame that carries two judged strings (a chunk with two choices) panics. *)
Theorem setPayloadText_roundtrip payload values :
  ((length (payloadText payload) <= length values)%nat →
     ∃ p', setPayloadText payload values = Some p' ∧
           payloadText p' = take (length (payloadText payload)) values) ∧
  ((length values < length (payloadText payload))%nat → setPayloadText payload values = None).
Proof. split; [apply setPayloadText_enough|apply setPayloadText_short]. Qed.

(** A frame that leaves the window is judged without the text that follows
    it: once the next frame fills the window, the first is sent as it came
    unless its own text matches, even when the two texts together match. *)
Theorem value_split_at_window_edge_leaks `{JsonCodec} engine format f ev o :
  (∀ t, Blocked (Scan engine t) = false) → ob_held o = [f] → fr_raw f ≠ [] →
  (scanWindowChars <= length (fr_text (event_frame ev)))%nat →
  WasMutated (Scan engine (fr_text f)) = false →
  ∃ o', handleEvent engine format accept_all ev o = (o', Ok) ∧
    ob_sent o' = ob_sent o ++ [SWrite (fr_raw f)] ∧ ob_held o' = [event_frame ev].
Proof.
  intros Hnb Hh Hraw Hl Hm. unfold handleEvent. rewrite Hnb, Hh. unfold release.
  cbn [ob_held set_held app]. cbv zeta.
  assert (tailFrames [f; event_frame ev] = 1%nat) as ->.
  { unfold tailFrames. cbn [rev app tail_loop]. cbv zeta. by rewrite (proj2 (Nat.leb_le _ _)) by lia. }
  cbn [negb andb length Nat.eqb Nat.sub take drop].
  rewrite writeFrames_raw.
  - eexists. split_and!; [reflexivity|done|done].
  - by repeat constructor.
  - unfold windowText. cbn. by rewrite app_nil_r.
Qed.

(** The text of an Anthropic [content_block_delta] event is not judged: the
    payload's [delta] is an object there, and only a string [delta], a choice's
    delta content and a [content_block] text are read. *)
Theorem anthropic_text_delta_is_not_judged index text :
  payloadText [(B "type", JStr (B "content_block_delta")); (B "index", index);
               (B "delta", JObj [(B "type", JStr (B "text_delta")); (B "text", JStr text)])] = [].
Proof. by vm_compute. Qed.

(** *** Witnesses *)

Lemma never_blocks e : e_action e ≠ ActionBlock → ∀ t, Blocked (Scan (Some e) t) = false.
Proof.
  intros He t. unfold Blocked. apply bool_decide_eq_false. rewrite Scan_action.
  by destruct (dec_findings _).
Qed.

Lemma passive_engine e : e_action e ≠ ActionBlock → e_action e ≠ ActionMask → passive (Some e).
Proof.
  intros H1 H2 t. split; [by apply never_blocks|].
  apply not_true_is_false. intros Hm. by apply Scan_mutated_mask in Hm.
Qed.

Module TapDemo.
Definition mask : Engine := NewEngine ["pii"%string] ActionMask.
Definition log : Engine := NewEngine ["pii"%string] ActionLogOnly.
Definition cut : Engine := NewEngine ["pii"%string] ActionBlock.
Definition delta (s : bytes) : bytes :=
  js "data: {~choices~:[{~delta~:{~content~:~" ++ s ++ js "~}}]}" ++ sseEventSeparator.
Definition e1 : bytes := delta (B "mail billing@acme-").
Definition e2 : bytes := delta (B "corp.com now").
(** A frame that fills the window. *)
Definition e3 : bytes := delta (B "corp.com" ++ concat (repeat (B " filler.") 70)).
(** One that fills it with clean text, and one that is blocked. *)
Definition e4 : bytes := delta (concat (repeat (B " filler.") 70)).
Definition bad : bytes := delta (B " mail a@b.com now").
Definition chunks : list bytes := [take 30 e1; drop 30 e1 ++ take 5 e2; drop 5 e2].
Definition held : outbound := set_held [event_frame (H := json_codec) e1] fresh.
(** An executor that writes its first event without a status line. *)
Definition implicit : outbound := mkOut [event_frame (H := json_codec) e1] [] false false false [SWrite e1] [].

Lemma events : Forall is_event [e1; e2].
Proof.
  assert (∀ s, bool_decide (ch_cr ∉ s) = true → cr_free s) as Hcr by (intros s; apply bool_decide_eq_true).
  repeat constructor; try (apply Hcr); by vm_compute.
Qed.
End TapDemo.

Lemma remap_concat_witness :
  concat (remap (B "mail billing@acme-corp.com now") (B "mail [REDACTED] now") [18; 12]%nat) = B "mail [REDACTED] now" ∧
  concat (remap (B "mail billing@acme-corp.com now") (B "mail [REDACTED] now") [5; 25]%nat) =
    B "mail [REDACTED][REDACTED] now".
Proof.
  destruct (remap_concat (B "mail billing@acme-corp.com now") (B "mail [REDACTED] now") [18; 12]%nat eq_refl) as [_ H].
  split; [apply H; by vm_compute|].
  destruct (remap_concat (B "mail billing@acme-corp.com now") (B "mail [REDACTED] now") [5; 25]%nat eq_refl) as [H2 _].
  rewrite H2. by vm_compute.
Defined.

Lemma chunking_witness :
  client_view (H := json_codec) (Some TapDemo.mask) FormatOpenAI accept_all TapDemo.chunks fresh =
  client_view (H := json_codec) (Some TapDemo.mask) FormatOpenAI accept_all [TapDemo.e1; TapDemo.e2] fresh.
Proof.
  apply (chunking_does_not_matter (H := json_codec) (Some TapDemo.mask) FormatOpenAI accept_all
    TapDemo.chunks [TapDemo.e1; TapDemo.e2] [TapDemo.e1; TapDemo.e2] fresh TapDemo.events);
    by vm_compute.
Defined.

Lemma clean_stream_witness :
  client_view (H := json_codec) (Some TapDemo.log) FormatOpenAI accept_all TapDemo.chunks fresh =
    ([SHeader 200; SWrite TapDemo.e1; SWrite TapDemo.e2; SFlush], [], Ok).
Proof.
  apply (clean_stream_is_transparent (H := json_codec) (Some TapDemo.log) FormatOpenAI TapDemo.chunks
    [TapDemo.e1; TapDemo.e2]); [by apply passive_engine|exact TapDemo.events|by vm_compute].
Defined.

Lemma short_stream_witness :
  client_view (H := json_codec) (Some TapDemo.mask) FormatOpenAI accept_all TapDemo.chunks fresh =
    ([SHeader 200; SWrite (TapDemo.delta (B "mail [REDACTED]")); SWrite (TapDemo.delta (B " now")); SFlush],
     [Scan (Some TapDemo.mask) (B "mail billing@acme-corp.com now")], Ok).
Proof.
  rewrite (short_stream_judged_as_one (H := json_codec) (Some TapDemo.mask) FormatOpenAI TapDemo.chunks
    [TapDemo.e1; TapDemo.e2]);
    [by vm_compute|by apply never_blocks|exact TapDemo.events|by vm_compute|apply Nat.ltb_lt; by vm_compute].
Defined.

Lemma block_is_final_witness :
  (∃ o', handleEvent (H := json_codec) (Some TapDemo.cut) FormatClaude accept_all TapDemo.e2 TapDemo.held = (o', Ok) ∧
     received (ob_sent o') = (Some 200, claudeBlockFrame)) ∧
  ∃ o', handleEvent (H := json_codec) (Some TapDemo.cut) FormatOpenAI accept_all TapDemo.e2 TapDemo.implicit = (o', Ok) ∧
    received (ob_sent o') = (Some 200, TapDemo.e1 ++ block_message).
Proof.
  split.
  - destruct (block_is_final (H := json_codec) (Some TapDemo.cut) FormatClaude TapDemo.e2 [TapDemo.e1] TapDemo.held
      eq_refl eq_refl ltac:(by vm_compute)) as (o' & _ & H1 & _ & _ & _ & _ & _ & H2).
    exists o'. split; [exact H1|]. rewrite H2. by vm_compute.
  - destruct (block_is_final (H := json_codec) (Some TapDemo.cut) FormatOpenAI TapDemo.e2 [] TapDemo.implicit
      eq_refl eq_refl ltac:(by vm_compute)) as (o' & _ & H1 & _ & _ & _ & _ & _ & H2).
    exists o'. split; [exact H1|]. rewrite H2. by vm_compute.
Defined.

(** A client that stops taking bytes shows how the events were cut: the events
    behind the failed write are judged when the tap is closed, if they came with it. *)
Definition takes_none (_ : list sent) : bool := false.
Definition audits (ps : list bytes) : nat :=
  length (client_view (H := json_codec) (Some TapDemo.cut) FormatOpenAI takes_none ps fresh).1.2.
Example refused_write_shows_the_cut :
  audits [TapDemo.e4 ++ TapDemo.e4 ++ TapDemo.bad] = 1%nat ∧ audits [TapDemo.e4; TapDemo.e4; TapDemo.bad] = 0%nat.
Proof. by vm_compute. Qed.

Lemma idle_tap_witness : ∃ o', Close (H := json_codec) (Some TapDemo.cut) FormatOpenAI accept_all (mkOut [] [] false false false [] []) = (o', Ok) ∧
  received (ob_sent o') = (Some 200, []).
Proof. by apply idle_tap_spends_the_status. Defined.

Lemma setPayloadText_witness :
  setPayloadText [(B "choices", JArr [JObj [(B "delta", JObj [(B "content", JStr (B "a"))])];
                                      JObj [(B "delta", JObj [(B "content", JStr (B "b"))])]])] [B "x"] = None.
Proof. apply setPayloadText_roundtrip. apply Nat.ltb_lt. by vm_compute. Defined.

Lemma value_split_witness :
  WasMutated (Scan (Some TapDemo.mask) (fr_text (event_frame (H := json_codec) TapDemo.e1) ++
                                        fr_text (event_frame (H := json_codec) TapDemo.e3))) = true ∧
  ∃ o', handleEvent (H := json_codec) (Some TapDemo.mask) FormatOpenAI accept_all TapDemo.e3 TapDemo.held = (o', Ok) ∧
    ob_sent o' = [SHeader 200; SWrite TapDemo.e1].
Proof.
  split; [by vm_compute|].
  destruct (value_split_at_window_edge_leaks (H := json_codec) (Some TapDemo.mask) FormatOpenAI
    (event_frame (H := json_codec) TapDemo.e1) TapDemo.e3 TapDemo.held) as (o' & H1 & H2 & _);
    [by apply never_blocks|done|by vm_compute|apply Nat.leb_le; by vm_compute|by vm_compute|].
  exists o'. split; [exact H1|]. rewrite H2. by vm_compute.
Defined.
