(* ===== verification/EventStream.v ===== *)
(** * AWS EventStream frames ([internal/providers/eventstream.go])

    The binary framing shared by the Bedrock and Kiro streams: the reader with
    its integrity and bounds checks, and the encoder used for fixtures. *)

From stdpp Require Import pretty.
From S2P Require Import Prelude.

(** ** Results: a value, an error, or a run-time panic (an index or slice out
    of range; running out of fuel counts as one, so it is proved impossible). *)
Inductive res (A : Type) := Ret (a : A) | Fail (msg : string) | Crash.
Arguments Ret {A} _.
Arguments Fail {A} _.
Arguments Crash {A}.

#[global] Instance res_bind : MBind res := λ A C f x,
  match x with Ret a => f a | Fail m => Fail m | Crash => Crash end.

(** [s[i]], [s[a:b]]. *)
Definition at_ (s : bytes) (i : nat) : res ascii :=
  match s !! i with Some c => Ret c | None => Crash end.
Definition slice_ (s : bytes) (a b : nat) : res bytes :=
  if (a <=? b)%nat && (b <=? length s)%nat then Ret (take (b - a) (drop a s)) else Crash.

(** [binary.BigEndian.Uint16(s[i:])] and its siblings read the first bytes. *)
Fixpoint be_value (s : bytes) : Z :=
  match s with [] => 0 | c :: s' => zb c * 256 ^ zlen s' + be_value s' end.
Definition be_at (s : bytes) (i n : nat) : res Z :=
  w ← slice_ s i (i + n); Ret (be_value w).
Fixpoint be_bytes (n : nat) (z : Z) : bytes :=
  match n with O => [] | S n' => bz (z / 256 ^ Z.of_nat n') :: be_bytes n' z end.

Definition uint32 (z : Z) : Z := z mod 2 ^ 32.
Definition uint16 (z : Z) : Z := z mod 2 ^ 16.

(** [crc32.ChecksumIEEE]: reflected polynomial 0xEDB88320, bit by bit. *)
Definition crc_bit (c : Z) : Z :=
  if Z.testbit c 0 then Z.lxor (Z.shiftr c 1) 3988292384 else Z.shiftr c 1.
Definition crc_byte (c : Z) (b : ascii) : Z :=
  Nat.iter 8 crc_bit (Z.lxor c (zb b)).
Definition crc32 (s : bytes) : Z := uint32 (Z.lxor (foldl crc_byte 4294967295 s) 4294967295).

Example crc32_check : crc32 (B "123456789") = 3421780262.
Proof. by vm_compute. Qed.

(** ** Constants *)

Definition MaxEventStreamMessageBytes : Z := 24 * 1024 * 1024.
Definition MaxEventStreamHeadersBytes : Z := 128 * 1024.
Definition eventStreamPreludeLen : nat := 12.
Definition eventStreamTrailerLen : nat := 4.
Definition eventStreamMinFrameLen : nat := 16.

Abbreviation headers := (gmap string bytes).
Record EventStreamFrame := MkFrame { f_headers : headers; f_payload : bytes }.

Definition go_str (s : bytes) : string := String.string_of_list_ascii s.

(** ** Header values *)

Definition hex_digits : bytes := B "0123456789abcdef".
Definition hexUUID (b : bytes) : bytes :=
  concat (imap (λ i c,
    (if bool_decide (i ∈ [4; 6; 8; 10]%nat) then B "-" else []) ++
    [default "0"%char (hex_digits !! Z.to_nat (zb c / 16));
     default "0"%char (hex_digits !! Z.to_nat (zb c mod 16))]) b).

Definition itoa (z : Z) : bytes := B (pretty z).

(** The value's text and how many bytes it occupied. *)
Definition decodeEventHeaderValue (frame : bytes) (offset headerEnd : nat) (valueType : Z)
    : res (bytes * nat) :=
  let need count k := if (headerEnd <? offset + count)%nat
                      then Fail "value exceeds header bounds" else k in
  if (valueType =? 0) || (valueType =? 1) then
    Ret (if valueType =? 0 then B "true" else B "false", 0%nat)
  else if valueType =? 2 then
    need 1%nat (c ← at_ frame offset; Ret (itoa (wrap_signed 8 (zb c)), 1%nat))
  else if valueType =? 3 then
    need 2%nat (v ← be_at frame offset 2; Ret (itoa (wrap_signed 16 v), 2%nat))
  else if valueType =? 4 then
    need 4%nat (v ← be_at frame offset 4; Ret (itoa (wrap_signed 32 v), 4%nat))
  else if (valueType =? 5) || (valueType =? 8) then
    need 8%nat (v ← be_at frame offset 8; Ret (itoa v, 8%nat))
  else if (valueType =? 6) || (valueType =? 7) then
    need 2%nat (
      v ← be_at frame offset 2;
      let valueLen := Z.to_nat v in
      let offset := (offset + 2)%nat in
      if (headerEnd <? offset + valueLen)%nat then Fail "value exceeds header bounds"
      else s ← slice_ frame offset (offset + valueLen); Ret (s, (2 + valueLen)%nat))
  else if valueType =? 9 then
    need 16%nat (s ← slice_ frame offset (offset + 16); Ret (hexUUID s, 16%nat))
  else Fail "unknown header value type".

(** One turn of the header loop: the next offset and the extended map. *)
Definition decode_header (frame : bytes) (headerEnd offset : nat) (hs : headers) : res (nat * headers) :=
  let need count := (offset + count <=? headerEnd)%nat in
  if negb (need 1%nat) then Fail "header exceeds its declared bounds"
  else
    n ← at_ frame offset;
    let nameLen := Z.to_nat (zb n) in
    let offset := (offset + 1)%nat in
    if negb (offset + (nameLen + 1) <=? headerEnd)%nat then Fail "header exceeds its declared bounds"
    else
      nm ← slice_ frame offset (offset + nameLen);
      let name := go_str nm in
      let offset := (offset + nameLen)%nat in
      match hs !! name with
      | Some _ => Fail "duplicate header"
      | None =>
          t ← at_ frame offset;
          let offset := (offset + 1)%nat in
          '(value, consumed) ← decodeEventHeaderValue frame offset headerEnd (zb t);
          Ret ((offset + consumed)%nat, <[name := value]> hs)
      end.

Fixpoint decodeEventHeaders (fuel : nat) (frame : bytes) (headerEnd offset : nat) (hs : headers)
    : res headers :=
  if (headerEnd <=? offset)%nat then Ret hs
  else match fuel with
       | O => Crash
       | S fuel' =>
           '(offset, hs) ← decode_header frame headerEnd offset hs;
           decodeEventHeaders fuel' frame headerEnd offset hs
       end.

Definition parseEventFrame (frame : bytes) (headerLen : nat) : res EventStreamFrame :=
  let headerEnd := (eventStreamPreludeLen + headerLen)%nat in
  hs ← decodeEventHeaders headerEnd frame headerEnd eventStreamPreludeLen ∅;
  let payloadEnd := (length frame - eventStreamTrailerLen)%nat in
  if (payloadEnd <=? headerEnd)%nat then Ret (MkFrame hs [])
  else p ← slice_ frame headerEnd payloadEnd; Ret (MkFrame hs p).

(** ** The reader

    The stream is the bytes still to come and whether the connection fails
    (rather than ends) after them. [Ret None] is a clean end. *)
Definition ReadFrame (stream : bytes) (broken : bool) : res (option EventStreamFrame * bytes) :=
  if (length stream <? eventStreamPreludeLen)%nat then
    if broken then Fail "read eventstream prelude"
    else if bool_decide (stream = []) then Ret (None, []) else Fail "ended mid-frame"
  else
    let prelude := take eventStreamPreludeLen stream in
    totalLen ← be_at prelude 0 4;
    headerLen ← be_at prelude 4 4;
    if (totalLen <? Z.of_nat eventStreamMinFrameLen) || (MaxEventStreamMessageBytes <? totalLen)
    then Fail "invalid eventstream frame length"
    else if (MaxEventStreamHeadersBytes <? headerLen) ||
            (totalLen - Z.of_nat eventStreamMinFrameLen <? headerLen)
    then Fail "invalid eventstream header length"
    else
      pc ← be_at prelude 8 4;
      if negb (pc =? crc32 (take 8 prelude)) then Fail "prelude CRC mismatch"
      else
        let total := Z.to_nat totalLen in
        if (length stream <? total)%nat then Fail "ended mid-frame"
        else
          let frame := take total stream in
          mc ← be_at frame (total - 4) 4;
          body ← slice_ frame 0 (total - 4);
          if negb (mc =? crc32 body) then Fail "message CRC mismatch"
          else f ← parseEventFrame frame (Z.to_nat headerLen);
               Ret (Some f, drop total stream).

(** ** The encoder *)

(** [sort.Strings] on the header names: byte-wise insertion. *)
Fixpoint bytes_leb (a b : bytes) : bool :=
  match a, b with
  | [], _ => true
  | _ :: _, [] => false
  | x :: a', y :: b' => if zb x <? zb y then true else if zb y <? zb x then false else bytes_leb a' b'
  end.
Fixpoint insert_name (x : string * bytes) (l : list (string * bytes)) : list (string * bytes) :=
  match l with
  | [] => [x]
  | y :: l' => if bytes_leb (B x.1) (B y.1) then x :: y :: l' else y :: insert_name x l'
  end.
Definition sorted_headers (hs : headers) : list (string * bytes) :=
  foldr insert_name [] (map_to_list hs).

Definition encode_header (kv : string * bytes) : bytes :=
  [bz (zlen (B kv.1))] ++ B kv.1 ++ [bz 7] ++ be_bytes 2 (uint16 (zlen kv.2)) ++ kv.2.
Definition encodeEventHeaders (hs : list (string * bytes)) : bytes := concat (map encode_header hs).

Definition EncodeEventFrame (hs : headers) (payload : bytes) : bytes :=
  let headerBlock := encodeEventHeaders (sorted_headers hs) in
  let totalLen := Z.of_nat eventStreamMinFrameLen + zlen headerBlock + zlen payload in
  let lens := be_bytes 4 (uint32 totalLen) ++ be_bytes 4 (uint32 (zlen headerBlock)) in
  let body := lens ++ be_bytes 4 (crc32 lens) ++ headerBlock ++ payload in
  body ++ be_bytes 4 (crc32 body).

(** ** Bounds: no read leaves the frame *)

Definition no_crash {A} (r : res A) : Prop := r ≠ Crash.

Lemma bind_no_crash {A C} (r : res A) (f : A → res C) :
  no_crash r → (∀ a, r = Ret a → no_crash (f a)) → no_crash (r ≫= f).
Proof. destruct r; cbn; unfold no_crash; try done. intros _ H. by apply H. Qed.

Lemma at_ok s i : (i < length s)%nat → ∃ c, at_ s i = Ret c.
Proof.
  intros Hi. unfold at_. destruct (lookup_lt_is_Some_2 s i Hi) as [c Hc]. rewrite Hc. by exists c.
Qed.

Lemma slice_ok s a b : (a <= b <= length s)%nat → slice_ s a b = Ret (take (b - a) (drop a s)).
Proof.
  intros [H1 H2]. unfold slice_. by rewrite (proj2 (Nat.leb_le _ _) H1), (proj2 (Nat.leb_le _ _) H2).
Qed.

Lemma be_at_ok s i n : (i + n <= length s)%nat → be_at s i n = Ret (be_value (take n (drop i s))).
Proof. intros H. unfold be_at. rewrite slice_ok by lia. cbn. by replace (i + n - i)%nat with n by lia. Qed.

Lemma be_value_nonneg s : 0 <= be_value s.
Proof.
  induction s as [|c s IH]; cbn [be_value]; [lia|]. pose proof (zb_range c).
  pose proof (Z.pow_nonneg 256 (zlen s)). nia.
Qed.

Definition value_ok (offset headerEnd : nat) (r : res (bytes * nat)) : Prop :=
  no_crash r ∧ ∀ v n, r = Ret (v, n) → (offset + n <= headerEnd)%nat.

Lemma value_ok_ret offset headerEnd v n :
  (offset + n <= headerEnd)%nat → value_ok offset headerEnd (Ret (v, n)).
Proof. intros H. split; [done|]. by intros v' n' [= <- <-]. Qed.

Lemma need_ok offset headerEnd count k :
  ((offset + count <= headerEnd)%nat → value_ok offset headerEnd k) →
  value_ok offset headerEnd (if (headerEnd <? offset + count)%nat then Fail "value exceeds header bounds" else k).
Proof. intros H. case (Nat.ltb_spec headerEnd (offset + count)); intros Hn; [done|by apply H]. Qed.

Lemma value_bounds frame offset headerEnd t :
  (headerEnd <= length frame)%nat → (offset <= headerEnd)%nat →
  no_crash (decodeEventHeaderValue frame offset headerEnd t) ∧
  ∀ v n, decodeEventHeaderValue frame offset headerEnd t = Ret (v, n) → (offset + n <= headerEnd)%nat.
Proof.
  intros Hh Ho. fold (value_ok offset headerEnd (decodeEventHeaderValue frame offset headerEnd t)).
  unfold decodeEventHeaderValue. cbv zeta.
  destruct ((t =? 0) || (t =? 1)); [apply value_ok_ret; lia|].
  destruct (t =? 2).
  { apply need_ok. intros Hn. destruct (at_ok frame offset) as [c ->]; [lia|]. by apply value_ok_ret. }
  destruct (t =? 3); [apply need_ok; intros Hn; rewrite be_at_ok by lia; by apply value_ok_ret|].
  destruct (t =? 4); [apply need_ok; intros Hn; rewrite be_at_ok by lia; by apply value_ok_ret|].
  destruct ((t =? 5) || (t =? 8)); [apply need_ok; intros Hn; rewrite be_at_ok by lia; by apply value_ok_ret|].
  destruct ((t =? 6) || (t =? 7)).
  { apply need_ok. intros Hn. rewrite be_at_ok by lia. cbn [mbind res_bind].
    match goal with |- context [(headerEnd <? ?x)%nat] => case (Nat.ltb_spec headerEnd x); intros Hv; [done|] end.
    rewrite slice_ok by lia. apply value_ok_ret. lia. }
  destruct (t =? 9); [|done].
  apply need_ok. intros Hn. rewrite slice_ok by lia. by apply value_ok_ret.
Qed.

Lemma decode_header_bounds frame headerEnd offset hs :
  (headerEnd <= length frame)%nat →
  no_crash (decode_header frame headerEnd offset hs) ∧
  ∀ o' hs', decode_header frame headerEnd offset hs = Ret (o', hs') → (offset + 2 <= o' <= headerEnd)%nat.
Proof.
  intros Hh. unfold decode_header. cbv zeta.
  case (Nat.leb_spec (offset + 1) headerEnd); intros H1; cbn [negb]; [|done].
  destruct (at_ok frame offset) as [n ->]; [lia|]. cbn [mbind res_bind].
  case (Nat.leb_spec (offset + 1 + (Z.to_nat (zb n) + 1)) headerEnd); intros H2; cbn [negb]; [|done].
  rewrite slice_ok by lia. cbn [mbind res_bind].
  destruct (hs !! _); [done|].
  destruct (at_ok frame (offset + 1 + Z.to_nat (zb n))) as [t ->]; [lia|]. cbn [mbind res_bind].
  destruct (value_bounds frame (offset + 1 + Z.to_nat (zb n) + 1) headerEnd (zb t) Hh) as [V1 V2]; [lia|].
  destruct (decodeEventHeaderValue _ _ _ _) as [[v k]|m|]; cbn; [|done|by destruct V1].
  split; [done|]. intros o' hs' [= <- <-]. specialize (V2 v k eq_refl). lia.
Qed.

Lemma decodeEventHeaders_bounds fuel : ∀ frame headerEnd offset hs,
  (headerEnd <= length frame)%nat → (headerEnd - offset <= fuel)%nat →
  no_crash (decodeEventHeaders fuel frame headerEnd offset hs).
Proof.
  induction fuel as [|fuel IH]; intros frame headerEnd offset hs Hh Hf; cbn [decodeEventHeaders].
  - by rewrite (proj2 (Nat.leb_le _ _)) by lia.
  - case (Nat.leb_spec headerEnd offset); intros Ho; [done|].
    destruct (decode_header_bounds frame headerEnd offset hs Hh) as [D1 D2].
    apply bind_no_crash; [exact D1|]. intros [o' hs'] E. specialize (D2 _ _ E). apply IH; lia.
Qed.

Lemma parse_no_crash frame n : (16 + n <= length frame)%nat → no_crash (parseEventFrame frame n).
Proof.
  intros Hn. unfold parseEventFrame, eventStreamPreludeLen, eventStreamTrailerLen. cbv zeta.
  apply bind_no_crash; [apply decodeEventHeaders_bounds; lia|]. intros hs _.
  case (Nat.leb_spec (length frame - 4) (12 + n)); intros Hl; [done|].
  by rewrite slice_ok by lia.
Qed.

(** ** Round trip *)

Lemma be_bytes_length n z : length (be_bytes n z) = n.
Proof. induction n; cbn; [done|by f_equal]. Qed.

Lemma be_bytes_mod n : ∀ m z, (n <= m)%nat → be_bytes n z = be_bytes n (z mod 256 ^ Z.of_nat m).
Proof.
  induction n as [|n IH]; intros m z Hm; [done|]. cbn [be_bytes]. f_equal; [|apply IH; lia].
  unfold bz. do 2 f_equal.
  replace (Z.of_nat m) with (Z.of_nat n + (1 + (Z.of_nat m - Z.of_nat n - 1))) by lia.
  rewrite Z.pow_add_r by lia. rewrite Z.rem_mul_r; [|lia|apply Z.pow_pos_nonneg; lia].
  rewrite (Z.mul_comm (256 ^ Z.of_nat n)), Z.div_add by lia.
  rewrite (Z.div_small (z mod _)) by (apply Z.mod_pos_bound, Z.pow_pos_nonneg; lia).
  rewrite Z.add_0_l, Z.pow_add_r by lia. change (256 ^ 1) with 256.
  rewrite Z.rem_mul_r; [|lia|apply Z.pow_pos_nonneg; lia].
  rewrite (Z.mul_comm 256), Z.mod_add by lia. by rewrite Z.mod_mod.
Qed.

Lemma be_value_bytes n z : 0 <= z < 256 ^ Z.of_nat n → be_value (be_bytes n z) = z.
Proof.
  revert z. induction n as [|n IH]; intros z Hz; [cbn in *; lia|].
  cbn [be_bytes be_value]. unfold zlen. rewrite be_bytes_length.
  assert (256 ^ Z.of_nat (S n) = 256 * 256 ^ Z.of_nat n) as E
    by (rewrite Nat2Z.inj_succ, Z.pow_succ_r; lia).
  pose proof (Z.pow_pos_nonneg 256 (Z.of_nat n) ltac:(lia) ltac:(lia)) as Hp.
  set (w := 256 ^ Z.of_nat n) in *.
  assert (be_bytes n z = be_bytes n (z mod w)) as ->.
  { by apply be_bytes_mod. }
  rewrite IH by (apply Z.mod_pos_bound; lia).
  rewrite zb_bz; [pose proof (Z.div_mod z w); lia|].
  split; [apply Z.div_pos; lia|]. apply Z.div_lt_upper_bound; lia.
Qed.

Lemma take_app_eq {A} n (a b : list A) : n = length a → take n (a ++ b) = a.
Proof. intros ->. apply take_app_length. Qed.

Lemma drop_app_eq {A} n (a b : list A) : n = length a → drop n (a ++ b) = b.
Proof. intros ->. apply drop_app_length. Qed.

Lemma go_str_B s : go_str (B s) = s.
Proof. apply String.string_of_list_ascii_of_string. Qed.

Lemma at_mid a x c : at_ (a ++ x :: c) (length a) = Ret x.
Proof. unfold at_. by rewrite list_lookup_middle. Qed.

Lemma slice_mid a b c i j : i = length a → j = (length a + length b)%nat → slice_ (a ++ b ++ c) i j = Ret b.
Proof.
  intros -> ->. rewrite slice_ok by (rewrite !length_app; lia).
  rewrite drop_app_eq by done. by rewrite take_app_eq by lia.
Qed.

Lemma be_at_mid a n z c i : i = length a → 0 <= z < 256 ^ Z.of_nat n →
  be_at (a ++ be_bytes n z ++ c) i n = Ret z.
Proof.
  intros -> Hz. unfold be_at. rewrite (slice_mid a (be_bytes n z) c) by (rewrite ?be_bytes_length; done).
  cbn. by rewrite be_value_bytes.
Qed.

Definition header_fits (kv : string * bytes) : Prop := zlen (B kv.1) < 256 ∧ zlen kv.2 < 2 ^ 16.

Lemma encode_header_length k v : length (encode_header (k, v)) = (4 + length (B k) + length v)%nat.
Proof. unfold encode_header. cbn [fst snd]. rewrite !length_app, be_bytes_length. cbn [length]. lia. Qed.

Lemma decode_string_value p2 v post headerEnd :
  zlen v < 2 ^ 16 → (length p2 + 2 + length v <= headerEnd)%nat →
  decodeEventHeaderValue (p2 ++ (be_bytes 2 (uint16 (zlen v)) ++ v) ++ post) (length p2) headerEnd (zb (bz 7)) =
    Ret (v, (2 + length v)%nat).
Proof.
  intros Hv Hle. pose proof (zlen_nonneg v). rewrite zb_bz by lia. unfold decodeEventHeaderValue.
  cbn [Z.eqb Pos.eqb orb]. cbv zeta.
  rewrite (proj2 (Nat.ltb_ge _ _)) by lia. unfold uint16. rewrite Z.mod_small by lia.
  rewrite <- app_assoc. rewrite be_at_mid by (done || (change (256 ^ Z.of_nat 2) with (2 ^ 16); lia)).
  cbn [mbind res_bind]. replace (Z.to_nat (zlen v)) with (length v) by (unfold zlen; lia).
  rewrite (proj2 (Nat.ltb_ge _ _)) by lia.
  rewrite app_assoc. rewrite slice_mid by (rewrite length_app, be_bytes_length; lia). by cbn [mbind res_bind].
Qed.

Lemma decode_header_encoded pre k v post headerEnd hs :
  header_fits (k, v) → hs !! k = None →
  (length pre + length (encode_header (k, v)) <= headerEnd)%nat →
  decode_header (pre ++ encode_header (k, v) ++ post) headerEnd (length pre) hs =
    Ret ((length pre + length (encode_header (k, v)))%nat, <[k := v]> hs).
Proof.
  intros [Hk Hv] Hn. rewrite encode_header_length. intros Hle. cbn [fst snd] in *.
  assert (Z.to_nat (zb (bz (zlen (B k)))) = length (B k)) as Elen
    by (rewrite zb_bz by (pose proof (zlen_nonneg (B k)); lia); unfold zlen; lia).
  unfold decode_header. cbv zeta. rewrite (proj2 (Nat.leb_le _ _)) by lia. cbn [negb].
  unfold encode_header. cbn [fst snd].
  set (tail := be_bytes 2 (uint16 (zlen v)) ++ v).
  replace (pre ++ ([bz (zlen (B k))] ++ B k ++ [bz 7] ++ tail) ++ post)
    with (pre ++ bz (zlen (B k)) :: (B k ++ [bz 7] ++ tail ++ post)) by (cbn; by rewrite <- !app_assoc).
  rewrite at_mid. cbn [mbind res_bind]. rewrite Elen.
  rewrite (proj2 (Nat.leb_le _ _)) by lia. cbn [negb].
  replace (pre ++ bz (zlen (B k)) :: (B k ++ [bz 7] ++ tail ++ post))
    with ((pre ++ [bz (zlen (B k))]) ++ B k ++ ([bz 7] ++ tail ++ post)) by (by rewrite <- app_assoc).
  rewrite slice_mid by (rewrite length_app; cbn [length]; lia). cbn [mbind res_bind].
  rewrite go_str_B, Hn.
  replace ((pre ++ [bz (zlen (B k))]) ++ B k ++ ([bz 7] ++ tail ++ post))
    with (((pre ++ [bz (zlen (B k))]) ++ B k) ++ bz 7 :: (tail ++ post)) by (by rewrite <- !app_assoc).
  replace (length pre + 1 + length (B k))%nat with (length ((pre ++ [bz (zlen (B k))]) ++ B k))
    by (rewrite !length_app; cbn [length]; lia).
  rewrite at_mid. cbn [mbind res_bind].
  replace (((pre ++ [bz (zlen (B k))]) ++ B k) ++ bz 7 :: (tail ++ post))
    with ((((pre ++ [bz (zlen (B k))]) ++ B k) ++ [bz 7]) ++ tail ++ post) by (by rewrite <- !app_assoc).
  set (p2 := ((pre ++ [bz (zlen (B k))]) ++ B k) ++ [bz 7]).
  assert (length p2 = (length pre + 2 + length (B k))%nat) as Ep2
    by (unfold p2; rewrite !length_app; cbn [length]; lia).
  replace (length ((pre ++ [bz (zlen (B k))]) ++ B k) + 1)%nat with (length p2)
    by (unfold p2; rewrite !length_app; cbn [length]; lia).
  unfold tail. rewrite decode_string_value by (rewrite ?Ep2; lia). cbn [mbind res_bind]. do 2 f_equal.
  rewrite Ep2. lia.
Qed.

Lemma decodeEventHeaders_encoded l : ∀ pre post headerEnd hs fuel,
  Forall header_fits l → NoDup l.*1 → (∀ k, k ∈ l.*1 → hs !! k = None) →
  headerEnd = (length pre + length (encodeEventHeaders l))%nat → (length l <= fuel)%nat →
  decodeEventHeaders fuel (pre ++ encodeEventHeaders l ++ post) headerEnd (length pre) hs =
    Ret (foldl (λ m kv, <[kv.1 := kv.2]> m) hs l).
Proof.
  induction l as [|[k v] l IH]; intros pre post headerEnd hs fuel Hfit Hnd Hhs -> Hf.
  - cbn. destruct fuel; cbn [decodeEventHeaders]; by rewrite (proj2 (Nat.leb_le _ _)) by lia.
  - destruct fuel as [|fuel]; [cbn in Hf; lia|]. apply Forall_cons in Hfit as [Hkv Hfit].
    cbn [fmap list_fmap] in *. apply NoDup_cons in Hnd as [Hk Hnd].
    unfold encodeEventHeaders in *. cbn [map concat]. cbn [decodeEventHeaders].
    rewrite (proj2 (Nat.leb_gt _ _)) by (rewrite length_app, encode_header_length; lia).
    rewrite <- app_assoc. rewrite decode_header_encoded; [|done|apply Hhs; by left|rewrite length_app; lia].
    cbn [mbind res_bind].
    rewrite (app_assoc pre). replace (length pre + length (encode_header (k, v)))%nat
      with (length (pre ++ encode_header (k, v))) by apply length_app.
    rewrite IH; [done|done|done| |rewrite !length_app; lia|cbn in Hf; lia].
    intros k' Hk'. rewrite lookup_insert_ne by (intros ->; by apply Hk). apply Hhs. by right.
Qed.

Lemma insert_name_perm x l : insert_name x l ≡ₚ x :: l.
Proof. induction l as [|y l IH]; cbn; [done|]. case_match; [done|]. rewrite IH. apply Permutation_swap. Qed.

Lemma sorted_headers_perm hs : sorted_headers hs ≡ₚ map_to_list hs.
Proof.
  unfold sorted_headers. induction (map_to_list hs) as [|x l IH]; cbn; [done|].
  by rewrite insert_name_perm, IH.
Qed.

Lemma foldl_insert_union (l : list (string * bytes)) : ∀ m : headers,
  NoDup l.*1 → foldl (λ m kv, <[kv.1 := kv.2]> m) m l = list_to_map l ∪ m.
Proof.
  induction l as [|[k v] l IH]; intros m Hnd; cbn; [by rewrite left_id_L by apply _|].
  apply NoDup_cons in Hnd as [Hk Hnd]. rewrite IH by done.
  rewrite <- insert_union_r; [|by apply not_elem_of_list_to_map]. by rewrite insert_union_l.
Qed.

Lemma sorted_headers_map hs : foldl (λ m kv, <[kv.1 := kv.2]> m) (∅ : headers) (sorted_headers hs) = hs.
Proof.
  assert (NoDup (sorted_headers hs).*1) as Hnd by (rewrite sorted_headers_perm; apply NoDup_fst_map_to_list).
  rewrite foldl_insert_union by done. rewrite right_id_L by apply _.
  rewrite <- (list_to_map_to_list hs) at 2. apply list_to_map_proper; [done|]. apply sorted_headers_perm.
Qed.

(** ** Properties *)

(** Reading never panics and always answers: on any bytes a peer can send,
    whatever lengths, header counts or value types they claim, [ReadFrame]
    returns a frame, a clean end or an error; no index or slice leaves the
    frame, and the header walk ends within the frame's length. *)
Theorem ReadFrame_never_panics stream broken : ReadFrame stream broken ≠ Crash.
Proof.
  fold (no_crash (ReadFrame stream broken)). unfold ReadFrame, eventStreamPreludeLen, eventStreamMinFrameLen.
  case (Nat.ltb_spec (length stream) 12); intros Hl.
  { destruct broken; [done|]. by case_bool_decide. }
  cbv zeta. assert (length (take 12 stream) = 12%nat) as Hp by (rewrite length_take; lia).
  rewrite !be_at_ok by lia. cbn [mbind res_bind].
  set (total := be_value (take 4 (drop 0 (take 12 stream)))).
  set (hl := be_value (take 4 (drop 4 (take 12 stream)))).
  destruct (_ || _) eqn:E1; [done|]. destruct ((_ <? hl) || _) eqn:E2; [done|]. bsplit.
  destruct (negb _); [done|].
  assert (0 <= hl) by apply be_value_nonneg.
  rewrite ?Z.ltb_ge in *. change (Z.of_nat 16) with 16 in *. clearbody total hl.
  case (Nat.ltb_spec (length stream) (Z.to_nat total)); intros Ht; [done|].
  assert (length (take (Z.to_nat total) stream) = Z.to_nat total) as Hlt by (rewrite length_take; lia).
  rewrite be_at_ok by lia. rewrite slice_ok by lia. cbn [mbind res_bind].
  destruct (negb _); [done|]. apply bind_no_crash; [|done].
  apply parse_no_crash. lia.
Qed.

Lemma crc32_range s : 0 <= crc32 s < 256 ^ Z.of_nat 4.
Proof. unfold crc32, uint32. by apply Z.mod_pos_bound. Qed.

Lemma parse_encoded lens crc block payload mcrc hs :
  length lens = 8%nat → length crc = 4%nat → length mcrc = 4%nat →
  Forall header_fits (sorted_headers hs) → block = encodeEventHeaders (sorted_headers hs) →
  parseEventFrame ((lens ++ crc ++ block ++ payload) ++ mcrc) (length block) = Ret (MkFrame hs payload).
Proof.
  intros Hl Hc Hm Hfit Hb.
  unfold parseEventFrame, eventStreamPreludeLen, eventStreamTrailerLen. cbv zeta.
  replace ((lens ++ crc ++ block ++ payload) ++ mcrc)
    with ((lens ++ crc) ++ block ++ (payload ++ mcrc)) by (by rewrite <- !app_assoc).
  assert (length (lens ++ crc) = 12%nat) as Hp by (rewrite length_app; lia).
  rewrite <- Hp. set (pre := lens ++ crc) in *.
  assert (decodeEventHeaders (length pre + length block) (pre ++ block ++ (payload ++ mcrc))
            (length pre + length block) (length pre) ∅ = Ret hs) as ->.
  { rewrite Hb at 2. rewrite decodeEventHeaders_encoded; [by rewrite sorted_headers_map|done| | |by rewrite Hb|].
    - rewrite sorted_headers_perm. apply NoDup_fst_map_to_list.
    - intros k _. apply lookup_empty.
    - rewrite Hb. apply Nat.le_trans with (length (encodeEventHeaders (sorted_headers hs))); [|lia].
      clear. unfold encodeEventHeaders. induction (sorted_headers hs) as [|[k v] l IH]; cbn [map concat length]; [lia|].
      rewrite length_app, encode_header_length. lia. }
  cbn [mbind res_bind]. rewrite !length_app, Hm.
  case (Nat.leb_spec (length pre + (length block + (length payload + 4)) - 4) (length pre + length block)); intros Hle.
  - assert (length payload = 0%nat) as H0 by lia. by apply nil_length_inv in H0 as ->.
  - rewrite (app_assoc pre block), (slice_mid _ payload mcrc); [done|rewrite length_app; lia..].
Qed.

(** The lengths of an encoded frame pass the checks of the prelude. *)
Lemma prelude_accepted stream broken total block
    (b1 := be_bytes 4 total) (b2 := be_bytes 4 block) (crc := be_bytes 4 (crc32 (b1 ++ b2))) :
  16 + block <= total <= MaxEventStreamMessageBytes → 0 <= block <= MaxEventStreamHeadersBytes →
  (12 <= length stream)%nat → take 12 stream = b1 ++ b2 ++ crc →
  ReadFrame stream broken =
    if (length stream <? Z.to_nat total)%nat then Fail "ended mid-frame"
    else
      let frame := take (Z.to_nat total) stream in
      mc ← be_at frame (Z.to_nat total - 4) 4;
      body ← slice_ frame 0 (Z.to_nat total - 4);
      if negb (mc =? crc32 body) then Fail "message CRC mismatch"
      else f ← parseEventFrame frame (Z.to_nat block); Ret (Some f, drop (Z.to_nat total) stream).
Proof.
  unfold MaxEventStreamMessageBytes, MaxEventStreamHeadersBytes. intros Ht Hb Hl Epre.
  assert (length b1 = 4%nat ∧ length b2 = 4%nat ∧ length crc = 4%nat) as (L1 & L2 & L3) by (split_and!; apply be_bytes_length).
  unfold ReadFrame, eventStreamPreludeLen. rewrite (proj2 (Nat.ltb_ge _ _)) by done. rewrite Epre. cbv zeta. change (Z.of_nat eventStreamMinFrameLen) with 16.
  change (be_at (b1 ++ b2 ++ crc) 0 4) with (be_at ([] ++ be_bytes 4 total ++ b2 ++ crc) 0 4).
  rewrite (be_at_mid [] 4 total (b2 ++ crc) 0) by (done || (change (256 ^ Z.of_nat 4) with (2 ^ 32); lia)).
  cbn [mbind res_bind].
  change (be_at (b1 ++ b2 ++ crc) 4 4) with (be_at (b1 ++ be_bytes 4 block ++ crc) 4 4).
  rewrite (be_at_mid b1 4 block crc 4) by (done || (change (256 ^ Z.of_nat 4) with (2 ^ 32); lia)).
  cbn [mbind res_bind]. unfold MaxEventStreamMessageBytes, MaxEventStreamHeadersBytes.
  rewrite (proj2 (Z.ltb_ge total 16)), (proj2 (Z.ltb_ge _ total)) by lia. cbn [orb].
  rewrite (proj2 (Z.ltb_ge _ block)), (proj2 (Z.ltb_ge (total - 16) _)) by lia. cbn [orb].
  assert (be_at (b1 ++ b2 ++ crc) 8 4 = Ret (crc32 (b1 ++ b2)) ∧ take 8 (b1 ++ b2 ++ crc) = b1 ++ b2) as [-> ->].
  { rewrite (app_assoc b1). split; [|apply take_app_eq; rewrite length_app; lia].
    rewrite <- (app_nil_r crc). apply be_at_mid; [rewrite length_app; lia|apply crc32_range]. }
  cbn [mbind res_bind]. by rewrite Z.eqb_refl.
Qed.

(** An encoded frame: its prelude, the block and the payload, and the last checksum. *)
Section Encoded.
Variables (hs : headers) (payload : bytes).
Let block := encodeEventHeaders (sorted_headers hs).
Let total := 16 + zlen block + zlen payload.
Let b1 := be_bytes 4 total.
Let b2 := be_bytes 4 (zlen block).
Let crc := be_bytes 4 (crc32 (b1 ++ b2)).
Let body := (b1 ++ b2) ++ crc ++ block ++ payload.
Let mcrc := be_bytes 4 (crc32 body).

Definition frame_fits : Prop := Forall header_fits (map_to_list hs) ∧ zlen block <= MaxEventStreamHeadersBytes ∧ total <= MaxEventStreamMessageBytes.

Lemma encoded_parts : frame_fits → EncodeEventFrame hs payload = body ++ mcrc ∧ length (body ++ mcrc) = Z.to_nat total ∧
  ∀ rest, take 12 ((body ++ mcrc) ++ rest) = b1 ++ b2 ++ crc.
Proof.
  intros (_ & Hh & Ht). assert (Hb := zlen_nonneg block). assert (Hp := zlen_nonneg payload).
  assert (length b1 = 4%nat ∧ length b2 = 4%nat ∧ length crc = 4%nat ∧ length mcrc = 4%nat) as (L1 & L2 & L3 & L4)
    by (split_and!; apply be_bytes_length).
  split; [|split].
  - unfold EncodeEventFrame. cbv zeta. fold block. change (Z.of_nat eventStreamMinFrameLen) with 16. fold total.
    unfold MaxEventStreamMessageBytes, MaxEventStreamHeadersBytes in *. unfold uint32. by rewrite !Z.mod_small by (unfold total in *; lia).
  - unfold body, total, zlen. rewrite !length_app. lia.
  - intros rest. unfold body. rewrite <- !app_assoc. rewrite (app_assoc b2), (app_assoc b1). apply take_app_eq. rewrite !length_app. lia.
Qed.

Lemma read_encoded rest broken : frame_fits → ReadFrame (EncodeEventFrame hs payload ++ rest) broken = Ret (Some (MkFrame hs payload), rest).
Proof.
  intros Hfits. destruct (encoded_parts Hfits) as (-> & Ltot & Epre). destruct Hfits as (Hfit & Hh & Ht).
  rewrite <- sorted_headers_perm in Hfit. assert (Hb := zlen_nonneg block). assert (Hp := zlen_nonneg payload).
  assert (L4 : length mcrc = 4%nat) by apply be_bytes_length. assert (Lt : (16 <= Z.to_nat total)%nat) by (unfold total; lia).
  rewrite (prelude_accepted _ broken total (zlen block)); [|unfold total in *; lia|lia|rewrite length_app; lia|apply Epre].
  rewrite (proj2 (Nat.ltb_ge _ _)) by (rewrite length_app; lia). cbv zeta. rewrite take_app_eq, drop_app_eq by done.
  assert (be_at (body ++ mcrc) (Z.to_nat total - 4) 4 = Ret (crc32 body)) as ->.
  { rewrite <- (app_nil_r mcrc). apply be_at_mid; [rewrite length_app, L4 in Ltot; lia|apply crc32_range]. }
  cbn [mbind res_bind]. rewrite slice_ok by (rewrite !length_app in *; lia).
  rewrite drop_0, Nat.sub_0_r, take_app_eq by (rewrite length_app, L4 in Ltot; lia).
  cbn [mbind res_bind]. rewrite Z.eqb_refl. cbn [negb].
  replace (Z.to_nat (zlen block)) with (length block) by (unfold zlen; lia).
  assert (L1 : length b1 = 4%nat) by apply be_bytes_length. assert (L2 : length b2 = 4%nat) by apply be_bytes_length.
  unfold body. rewrite (parse_encoded (b1 ++ b2) crc block payload mcrc hs); [done|rewrite length_app; lia|apply be_bytes_length|done..].
Qed.

(** A stream that ends in the middle of a frame. *)
Lemma read_cut k : frame_fits → (0 < k < length (EncodeEventFrame hs payload))%nat →
  ReadFrame (take k (EncodeEventFrame hs payload)) false = Fail "ended mid-frame".
Proof.
  intros Hfits Hk. destruct (encoded_parts Hfits) as (E & Ltot & Epre). rewrite E in *. destruct Hfits as (Hfit & Hh & Ht).
  assert (Hb := zlen_nonneg block). assert (Hp := zlen_nonneg payload).
  assert (Lk : length (take k (body ++ mcrc)) = k) by (rewrite length_take; lia).
  destruct (Nat.lt_ge_cases k 12) as [Hs|Hs].
  - unfold ReadFrame, eventStreamPreludeLen. rewrite Lk, (proj2 (Nat.ltb_lt k 12)) by done. rewrite bool_decide_eq_false_2; [done|].
    intros E'. rewrite E' in Lk. cbn in Lk. lia.
  - rewrite (prelude_accepted _ false total (zlen block)); [|unfold total in *; lia|lia|lia|].
    + by rewrite Lk, (proj2 (Nat.ltb_lt _ _)) by lia.
    + rewrite take_take, Nat.min_l by lia. specialize (Epre []). rewrite app_nil_r in Epre. exact Epre.
Qed.

End Encoded.

(** Encoding then reading gives back the headers and the payload and leaves
    the rest of the stream, for every header map and payload within the wire
    format's limits (names below 256 bytes, values below 64 KiB, at most
    128 KiB of headers and 24 MiB in all). *)
Theorem EncodeEventFrame_roundtrip hs payload rest broken :
  Forall header_fits (map_to_list hs) →
  zlen (encodeEventHeaders (sorted_headers hs)) <= MaxEventStreamHeadersBytes →
  16 + zlen (encodeEventHeaders (sorted_headers hs)) + zlen payload <= MaxEventStreamMessageBytes →
  ReadFrame (EncodeEventFrame hs payload ++ rest) broken = Ret (Some (MkFrame hs payload), rest).
Proof. intros H1 H2 H3. by apply read_encoded. Qed.

(** *** Witness *)
Module FrameDemo.
Definition hs : headers := <[":event-type"%string := B "chunk"]> (<[":x"%string := B "1"]> ∅).
End FrameDemo.

Lemma EncodeEventFrame_roundtrip_witness :
  ReadFrame (EncodeEventFrame FrameDemo.hs (B "{}") ++ B "more") false =
    Ret (Some (MkFrame FrameDemo.hs (B "{}")), B "more").
Proof.
  apply EncodeEventFrame_roundtrip; [|by vm_compute..].
  apply (bool_decide_eq_true _). by vm_compute.
Defined.
