(* ===== verification/CacheStore.v ===== *)
(** * LRU response cache ([internal/semanticcache/store.go])

    The bounded in-memory store behind the semantic cache: a map from keys to
    list elements and a recency list of those elements, as the code keeps them,
    and the recency list of entries they implement. *)

From S2P Require Import Prelude.

(** ** State *)

Record Entry := MkEntry {
  en_Key : string;
  en_Model : string;
  en_ResponseBody : bytes;
  en_ContentType : string;
  en_StoredAt : option Z;      (* [None]: the zero time *)
  en_HitCount : Z;
  en_TokensSaved : Z
}.

Definition set_StoredAt v e := MkEntry (en_Key e) (en_Model e) (en_ResponseBody e) (en_ContentType e) v (en_HitCount e) (en_TokensSaved e).
Definition bump_hit (saved : Z) e :=
  MkEntry (en_Key e) (en_Model e) (en_ResponseBody e) (en_ContentType e) (en_StoredAt e)
    (int64 (en_HitCount e + 1)) (int64 (en_TokensSaved e + saved)).

Abbreviation lruItem := (string * Entry)%type.

(** [evictList] holds element addresses, most recently used first; [elems] is
    the heap of elements, each carrying its [lruItem]. *)
Record LRUStore := MkStore {
  items : gmap string nat;
  evictList : list nat;
  elems : gmap nat lruItem;
  next_elem : nat;
  maxEntries : Z;
  ttl : Z
}.

Definition NewLRUStore (max ttl : Z) : LRUStore :=
  MkStore ∅ [] ∅ 0 (if max <=? 0 then 1000 else max) ttl.

(** [time.Since(storedAt) > ttl], a zero time being very long ago. *)
Definition expired (ttl now : Z) (e : Entry) : bool :=
  (0 <? ttl) && match en_StoredAt e with Some t => ttl <? now - t | None => true end.

(** ** Operations *)

Definition without (el : nat) (l : list nat) : list nat := filter (λ x, x ≠ el) l.

Definition MoveToFront (el : nat) (s : LRUStore) : LRUStore :=
  MkStore (items s) (el :: without el (evictList s)) (elems s) (next_elem s) (maxEntries s) (ttl s).

Definition removeElement (el : nat) (s : LRUStore) : LRUStore :=
  match elems s !! el with
  | Some item =>
      MkStore (delete item.1 (items s)) (without el (evictList s)) (delete el (elems s))
        (next_elem s) (maxEntries s) (ttl s)
  | None => s
  end.

Definition removeOldest (s : LRUStore) : LRUStore :=
  match last (evictList s) with Some el => removeElement el s | None => s end.

Definition set_elem (el : nat) (item : lruItem) (s : LRUStore) : LRUStore :=
  MkStore (items s) (evictList s) (<[el := item]> (elems s)) (next_elem s) (maxEntries s) (ttl s).

Definition PushFront (item : lruItem) (s : LRUStore) : LRUStore :=
  MkStore (<[item.1 := next_elem s]> (items s)) (next_elem s :: evictList s)
    (<[next_elem s := item]> (elems s)) (S (next_elem s)) (maxEntries s) (ttl s).

Definition Get (key : string) (now : Z) (s : LRUStore) : LRUStore * option Entry :=
  match items s !! key with
  | None => (s, None)
  | Some el =>
      match elems s !! el with
      | None => (s, None)
      | Some item =>
          if expired (ttl s) now item.2 then (removeElement el s, None)
          else (MoveToFront el s, Some item.2)
      end
  end.

(** The eviction loop of [Put]; each turn shortens the list. *)
Fixpoint evict_full (fuel : nat) (s : LRUStore) : LRUStore :=
  match fuel with
  | O => s
  | S fuel' =>
      if (0 <? maxEntries s) && (maxEntries s <=? zlen (evictList s))
      then evict_full fuel' (removeOldest s) else s
  end.

Definition Put (key : string) (e : Entry) (now : Z) (s : LRUStore) : LRUStore :=
  let e := match en_StoredAt e with None => set_StoredAt (Some now) e | Some _ => e end in
  match items s !! key with
  | Some el => set_elem el (key, e) (MoveToFront el s)
  | None => PushFront (key, e) (evict_full (length (evictList s)) s)
  end.

Definition Delete (key : string) (s : LRUStore) : LRUStore * bool :=
  match items s !! key with
  | None => (s, false)
  | Some el => (removeElement el s, true)
  end.

Definition RecordHit (key : string) (tokensSaved : Z) (s : LRUStore) : LRUStore :=
  match items s !! key with
  | None => s
  | Some el =>
      match elems s !! el with
      | Some item => set_elem el (item.1, bump_hit tokensSaved item.2) s
      | None => s
      end
  end.

(** The elements a predicate selects, in the map's iteration order. *)
Definition elem_holds (P : Entry → bool) (s : LRUStore) (el : nat) : bool :=
  match elems s !! el with Some item => P item.2 | None => false end.
Definition selected (P : Entry → bool) (s : LRUStore) : list nat :=
  filter (λ el, elem_holds P s el = true) (map_to_list (items s)).*2.

Definition invalidate (P : Entry → bool) (s : LRUStore) : LRUStore * Z :=
  let toRemove := selected P s in
  (foldl (λ s el, removeElement el s) s toRemove, zlen toRemove).

Definition InvalidateByModel (model : string) : LRUStore → LRUStore * Z :=
  invalidate (λ e, bool_decide (en_Model e = model)).

Definition InvalidateOlderThan (d now : Z) : LRUStore → LRUStore * Z :=
  invalidate (λ e, match en_StoredAt e with Some t => d <? now - t | None => true end).

Definition Entries (now : Z) (s : LRUStore) : list Entry :=
  filter (λ e, expired (ttl s) now e = false)
    (omap (λ el, snd <$> elems s !! el) (map_to_list (items s)).*2).

Definition Len (s : LRUStore) : Z := Z.of_nat (size (items s)).

Definition Clear (s : LRUStore) : LRUStore :=
  MkStore ∅ [] (elems s) (next_elem s) (maxEntries s) (ttl s).

(** ** Specification: a bounded recency list *)

Definition spec_remove (k : string) (l : list lruItem) : list lruItem := filter (λ kv, kv.1 ≠ k) l.
Fixpoint spec_find (k : string) (l : list lruItem) : option Entry :=
  match l with
  | [] => None
  | kv :: l' => if bool_decide (kv.1 = k) then Some kv.2 else spec_find k l'
  end.

Definition spec_get (ttl : Z) (k : string) (now : Z) (l : list lruItem) : list lruItem * option Entry :=
  match spec_find k l with
  | None => (l, None)
  | Some e => if expired ttl now e then (spec_remove k l, None)
              else ((k, e) :: spec_remove k l, Some e)
  end.

(** A new key displaces the least recently used entries beyond the bound. *)
Definition spec_put (max : nat) (k : string) (e : Entry) (now : Z) (l : list lruItem) : list lruItem :=
  let e := match en_StoredAt e with None => set_StoredAt (Some now) e | Some _ => e end in
  match spec_find k l with
  | Some _ => (k, e) :: spec_remove k l
  | None => (k, e) :: take (max - 1) l
  end.

Definition spec_hit (k : string) (saved : Z) (l : list lruItem) : list lruItem :=
  map (λ kv, if bool_decide (kv.1 = k) then (kv.1, bump_hit saved kv.2) else kv) l.

Definition spec_invalidate (P : Entry → bool) (l : list lruItem) : list lruItem * Z :=
  (filter (λ kv, P kv.2 = false) l, zlen (filter (λ kv, P kv.2 = true) l)).

(** The list the concrete state stands for, and what makes it well formed. *)
Record refines (s : LRUStore) (l : list lruItem) : Prop := {
  rf_list : Forall2 (λ el kv, elems s !! el = Some kv) (evictList s) l;
  rf_nodup : NoDup (evictList s);
  rf_keys : NoDup l.*1;
  rf_items : ∀ k el, items s !! k = Some el ↔ el ∈ evictList s ∧ (∃ e, elems s !! el = Some (k, e));
  rf_next : ∀ el, el ∈ evictList s → (el < next_elem s)%nat
}.

Lemma refines_lookup s l k el : refines s l → items s !! k = Some el →
  ∃ e, elems s !! el = Some (k, e) ∧ spec_find k l = Some e ∧ el ∈ evictList s.
Proof.
  intros [Hl Hn Hk Hi _] Hel. apply Hi in Hel as [Hin [e He]]. exists e. split_and!; [done| |done].
  clear Hn Hi. revert Hk. induction Hl as [|el' [k' e'] ev l H1 Hl IH]; [by apply elem_of_nil in Hin|].
  cbn. intros [Hk' Hnd]%NoDup_cons. apply elem_of_cons in Hin as [->|Hin].
  - rewrite H1 in He. simplify_eq. by rewrite bool_decide_eq_true_2.
  - rewrite bool_decide_eq_false_2; [by apply IH|]. intros ->. apply Hk'.
    apply list_elem_of_lookup in Hin as [i Hi]. destruct (Forall2_lookup_l _ _ _ _ _ Hl Hi) as (kv & Hkv & He').
    rewrite He in He'. simplify_eq. apply list_elem_of_fmap. exists (k, e). split; [done|]. by eapply list_elem_of_lookup_2.
Qed.

Lemma refines_absent s l k : refines s l → items s !! k = None → spec_find k l = None ∧ k ∉ l.*1.
Proof.
  intros [Hl Hn Hk Hi _] Hel.
  assert (k ∉ l.*1) as Hnot.
  { intros ([k' e] & -> & Hin)%list_elem_of_fmap. cbn in Hel.
    apply list_elem_of_lookup in Hin as [i Hin].
    destruct (Forall2_lookup_r _ _ _ _ _ Hl Hin) as (el & H1 & H2).
    assert (items s !! k' = Some el) as E by (apply Hi; split; [by eapply list_elem_of_lookup_2|by exists e]).
    by rewrite E in Hel. }
  split; [|done]. clear - Hnot. induction l as [|[k' e] l IH]; [done|]. cbn in *.
  apply not_elem_of_cons in Hnot as [H1 H2]. rewrite bool_decide_eq_false_2 by congruence. by apply IH.
Qed.

(** Dropping an element and dropping its key are the same thing. *)
Lemma without_spec ev l (m : gmap nat lruItem) el k e :
  Forall2 (λ el kv, m !! el = Some kv) ev l → NoDup l.*1 → m !! el = Some (k, e) → el ∈ ev →
  Forall2 (λ el' kv, m !! el' = Some kv ∧ el' ≠ el) (without el ev) (spec_remove k l).
Proof.
  intros Hl. induction Hl as [|x [k' e'] ev l H1 Hl IH]; intros Hk He Hin; [by apply elem_of_nil in Hin|].
  cbn in Hk. apply NoDup_cons in Hk as [Hk' Hk]. unfold without, spec_remove in *.
  destruct (decide (x = el)) as [->|Hne].
  - rewrite H1 in He. simplify_eq. rewrite filter_cons_False by (cbn; tauto).
    rewrite filter_cons_False by (cbn; tauto). clear IH Hin Hk.
    assert (∀ x, x ∈ ev → x ≠ el) as Hev.
    { intros x Hx ->. apply list_elem_of_lookup in Hx as [i Hx].
      destruct (Forall2_lookup_l _ _ _ _ _ Hl Hx) as (kv & Hkv & Hx'). rewrite H1 in Hx'. simplify_eq.
      apply Hk'. apply list_elem_of_fmap. exists (k, e). split; [done|]. by eapply list_elem_of_lookup_2. }
    induction Hl as [|x [k2 e2] ev l H2 Hl IH]; [constructor|].
    cbn in Hk'. apply not_elem_of_cons in Hk' as [Hk2 Hk'].
    rewrite filter_cons_True by (apply Hev; left). rewrite filter_cons_True by (cbn; congruence).
    constructor; [split; [done|apply Hev; left]|]. apply IH; [done|]. intros y Hy. apply Hev. by right.
  - apply elem_of_cons in Hin as [->|Hin]; [done|].
    rewrite filter_cons_True by done. rewrite filter_cons_True.
    + constructor; [done|]. by apply IH.
    + cbn. intros ->. apply Hk'. apply list_elem_of_lookup in Hin as [i Hin].
      destruct (Forall2_lookup_l _ _ _ _ _ Hl Hin) as (kv & Hkv & Hx). rewrite He in Hx. simplify_eq.
      apply list_elem_of_fmap. exists (k, e). split; [done|]. by eapply list_elem_of_lookup_2.
Qed.

Lemma without_elem x el l : x ∈ without el l ↔ x ∈ l ∧ x ≠ el.
Proof. unfold without. rewrite list_elem_of_filter. tauto. Qed.

Lemma without_nodup el l : NoDup l → NoDup (without el l).
Proof. apply NoDup_filter. Qed.

Lemma spec_remove_keys k l : NoDup l.*1 → NoDup (spec_remove k l).*1 ∧ k ∉ (spec_remove k l).*1.
Proof.
  intros Hk. split.
  - unfold spec_remove. induction l as [|kv l IH]; [constructor|]. cbn in Hk. apply NoDup_cons in Hk as [Hk1 Hk].
    rewrite filter_cons. destruct (decide _); [|by apply IH]. cbn. apply NoDup_cons. split; [|by apply IH].
    intros (kv' & E & Hin%list_elem_of_filter)%list_elem_of_fmap. apply Hk1. rewrite E.
    apply list_elem_of_fmap. exists kv'. tauto.
  - intros (kv & -> & [Hne _]%list_elem_of_filter)%list_elem_of_fmap. by apply Hne.
Qed.

(** ** Each operation refines its specification *)

Lemma Forall2_elems_delete (m : gmap nat lruItem) el ev l :
  Forall2 (λ el' kv, m !! el' = Some kv ∧ el' ≠ el) ev l →
  Forall2 (λ el' kv, delete el m !! el' = Some kv) ev l.
Proof.
  intros Hf. eapply Forall2_impl; [exact Hf|]. intros x kv [H1 H2]. by rewrite lookup_delete_ne.
Qed.

Lemma elem_key_unique s l el el' k e e' :
  refines s l → el ∈ evictList s → el' ∈ evictList s →
  elems s !! el = Some (k, e) → elems s !! el' = Some (k, e') → el = el'.
Proof.
  intros Hr H1 H2 E1 E2.
  assert (items s !! k = Some el) as I1 by (apply (rf_items _ _ Hr); eauto).
  assert (items s !! k = Some el') as I2 by (apply (rf_items _ _ Hr); eauto). congruence.
Qed.

Lemma removeElement_refines s l el k e :
  refines s l → elems s !! el = Some (k, e) → el ∈ evictList s →
  refines (removeElement el s) (spec_remove k l).
Proof.
  intros Hr He Hin. pose proof Hr as [Hl Hn Hk Hi Hx]. unfold removeElement. rewrite He. split; cbn.
  - apply Forall2_elems_delete. by eapply without_spec.
  - by apply without_nodup.
  - by apply spec_remove_keys.
  - intros k' el'. rewrite without_elem. destruct (decide (k' = k)) as [->|Hne].
    + rewrite lookup_delete_eq. split; [done|]. intros [[Hin' Hel] [e' He']]. exfalso.
      rewrite lookup_delete_ne in He' by done. apply Hel. by eapply elem_key_unique.
    + rewrite lookup_delete_ne by done. rewrite Hi. split.
      * intros [Hin' [e' He']]. assert (el' ≠ el) by congruence.
        rewrite lookup_delete_ne by done. eauto.
      * intros [[Hin' Hel] He']. rewrite lookup_delete_ne in He' by done. done.
  - intros el' [Hin' _]%without_elem. by apply Hx.
Qed.

Lemma MoveToFront_refines s l el k e :
  refines s l → elems s !! el = Some (k, e) → el ∈ evictList s →
  refines (MoveToFront el s) ((k, e) :: spec_remove k l).
Proof.
  intros [Hl Hn Hk Hi Hx] He Hin. split; cbn.
  - constructor; [done|]. eapply Forall2_impl; [by eapply without_spec|]. by intros x kv [? _].
  - constructor; [rewrite without_elem; tauto|by apply without_nodup].
  - apply NoDup_cons. split; by apply spec_remove_keys.
  - intros k' el'. rewrite Hi, elem_of_cons, without_elem. split; [|intros [[->|[? ?]] ?]; done].
    intros [? ?]. split; [|done]. destruct (decide (el' = el)); tauto.
  - intros el' [->|[? _]%without_elem]%elem_of_cons; by apply Hx.
Qed.

Lemma set_elem_refines s l el k e e' ev :
  refines s ((k, e) :: l) → evictList s = el :: ev → refines (set_elem el (k, e') s) ((k, e') :: l).
Proof.
  intros [Hl Hn Hk Hi Hx] Hev. rewrite Hev in *. inversion Hl as [|? ? ? ? He Hl']; subst. apply NoDup_cons in Hn as [Hel Hn].
  split; cbn; rewrite ?Hev; [constructor; [by rewrite lookup_insert_eq|]|by constructor|done| |done].
  - clear - Hl' Hel. induction Hl' as [|x kv ev l H1 _ IH]; constructor.
    + apply not_elem_of_cons in Hel as [? ?]. by rewrite lookup_insert_ne.
    + apply IH. by apply not_elem_of_cons in Hel as [_ ?].
  - intros k' el'. rewrite Hi. apply and_iff_compat_l. destruct (decide (el' = el)) as [->|Hne].
    + rewrite lookup_insert_eq, He. split; intros [? [= <- _]]; eauto.
    + by rewrite lookup_insert_ne.
Qed.

Lemma PushFront_refines s l k e :
  refines s l → k ∉ l.*1 → items s !! k = None → refines (PushFront (k, e) s) ((k, e) :: l).
Proof.
  intros [Hl Hn Hk Hi Hx] Hnot Hnone.
  assert (∀ x, x ∈ evictList s → x ≠ next_elem s) as Hfresh by (intros x Hin ->; specialize (Hx _ Hin); lia).
  split; cbn.
  - constructor; [by rewrite lookup_insert_eq|]. clear - Hl Hfresh.
    induction Hl as [|x kv ev l H1 _ IH]; constructor.
    + rewrite lookup_insert_ne; [done|]. intros E. by apply (Hfresh x); [left|].
    + apply IH. intros y Hy. apply Hfresh. by right.
  - constructor; [|done]. intros Hin. by apply (Hfresh _ Hin).
  - by constructor.
  - intros k' el'. rewrite elem_of_cons. destruct (decide (k' = k)) as [->|Hne].
    + rewrite lookup_insert_eq. split.
      * intros [= <-]. split; [by left|]. rewrite lookup_insert_eq. eauto.
      * intros [[->|Hin] [e' He']]; [done|]. rewrite lookup_insert_ne in He' by (intros E; by apply (Hfresh el')).
        assert (items s !! k = Some el') by (apply Hi; eauto). congruence.
    + rewrite lookup_insert_ne by done. rewrite Hi. split.
      * intros [Hin He']. split; [by right|]. rewrite lookup_insert_ne by (intros E; by apply (Hfresh el')). done.
      * intros [[->|Hin] [e' He']]; [rewrite lookup_insert_eq in He'; by simplify_eq|].
        rewrite lookup_insert_ne in He' by (intros E; by apply (Hfresh el')). eauto.
  - intros el' [->|Hin]%elem_of_cons; [lia|]. specialize (Hx _ Hin). lia.
Qed.

Lemma spec_remove_last l k e : NoDup (l ++ [(k, e)]).*1 → spec_remove k (l ++ [(k, e)]) = l.
Proof.
  rewrite fmap_app. intros (_ & Hd & _)%NoDup_app. unfold spec_remove. rewrite filter_app.
  rewrite filter_cons_False by (cbn; tauto). rewrite filter_nil, app_nil_r.
  assert (Forall (λ kv, kv.1 ≠ k) l) as Hf.
  { apply Forall_forall. intros kv Hin E. apply (Hd kv.1); [by apply list_elem_of_fmap; exists kv|].
    rewrite E. by left. }
  clear Hd. induction Hf as [|kv l Hkv Hf IH]; [done|]. rewrite filter_cons_True by done. by rewrite IH.
Qed.

Lemma removeOldest_refines s l kv :
  refines s (l ++ [kv]) → refines (removeOldest s) l.
Proof.
  intros Hr. destruct kv as [k e]. pose proof Hr as [Hl _ Hk _ _].
  apply Forall2_app_inv_r in Hl as (ev1 & ev2 & Hl1 & Hl2 & Hev).
  inversion Hl2 as [|el ? ? ? He Hnil]; subst. inversion Hnil; subst.
  unfold removeOldest. rewrite Hev, last_snoc.
  rewrite <- (spec_remove_last l k e Hk). apply (removeElement_refines _ _ _ _ e); [done|done|].
  rewrite Hev. apply elem_of_app. right. by left.
Qed.

Lemma evict_full_refines fuel : ∀ s l, refines s l → 0 < maxEntries s → (length l <= fuel)%nat →
  refines (evict_full fuel s) (take (Z.to_nat (maxEntries s) - 1) l) ∧
  maxEntries (evict_full fuel s) = maxEntries s.
Proof.
  induction fuel as [|fuel IH]; intros s l Hr Hm Hf; cbn [evict_full].
  - destruct l; [by rewrite take_nil|cbn in Hf; lia].
  - pose proof (Forall2_length _ _ _ (rf_list _ _ Hr)) as Hlen. unfold zlen.
    rewrite (proj2 (Z.ltb_lt _ _) Hm). cbn [andb].
    case (Z.leb_spec (maxEntries s) (Z.of_nat (length (evictList s)))); intros Hfull.
    + destruct l as [|kv l' _] using rev_ind; [cbn in Hlen; lia|].
      rewrite length_app in Hlen, Hf. cbn in Hlen, Hf.
      assert (maxEntries (removeOldest s) = maxEntries s) as Em.
      { unfold removeOldest, removeElement. destruct (last (evictList s)) as [el|]; [|done]. by destruct (elems s !! el). }
      destruct (IH (removeOldest s) l') as [H1 H2]; [by eapply removeOldest_refines|by rewrite Em|lia|].
      rewrite Em in *. split; [|done]. rewrite take_app_le; [done|lia].
    + split; [|done]. rewrite take_ge; [done|lia].
Qed.

Lemma Get_refines s l k now : refines s l →
  refines (Get k now s).1 (spec_get (ttl s) k now l).1 ∧ (Get k now s).2 = (spec_get (ttl s) k now l).2.
Proof.
  intros Hr. unfold Get, spec_get. destruct (items s !! k) as [el|] eqn:Ei.
  - destruct (refines_lookup s l k el Hr Ei) as (e & He & -> & Hin). rewrite He. cbn [snd].
    destruct (expired _ _ _); cbn; split; try done; [by eapply removeElement_refines|by eapply MoveToFront_refines].
  - by destruct (refines_absent s l k Hr Ei) as [-> _].
Qed.

Lemma take_keys n (l : list lruItem) k : k ∉ l.*1 → k ∉ (take n l).*1.
Proof.
  intros Hk (kv & -> & Hin)%list_elem_of_fmap. apply Hk, list_elem_of_fmap. exists kv. split; [done|].
  rewrite <- (take_drop n l). apply elem_of_app. by left.
Qed.

Lemma refines_items_none s l k : refines s l → k ∉ l.*1 → items s !! k = None.
Proof.
  intros Hr Hk. destruct (items s !! k) as [el|] eqn:E; [|done]. exfalso. apply Hk.
  destruct (refines_lookup s l k el Hr E) as (e & He & _ & Hin).
  apply list_elem_of_lookup in Hin as [i Hi].
  destruct (Forall2_lookup_l _ _ _ _ _ (rf_list _ _ Hr) Hi) as (kv & Hkv & He'). rewrite He in He'. simplify_eq.
  apply list_elem_of_fmap. exists (k, e). split; [done|]. by eapply list_elem_of_lookup_2.
Qed.

Lemma Put_refines s l k e now : refines s l → 0 < maxEntries s →
  refines (Put k e now s) (spec_put (Z.to_nat (maxEntries s)) k e now l).
Proof.
  intros Hr Hm. unfold Put, spec_put. set (e' := match en_StoredAt e with None => _ | Some _ => _ end).
  destruct (items s !! k) as [el|] eqn:Ei.
  - destruct (refines_lookup s l k el Hr Ei) as (e0 & He & -> & Hin).
    eapply set_elem_refines; [by eapply MoveToFront_refines|done].
  - destruct (refines_absent s l k Hr Ei) as [-> Hk].
    assert (length l <= length (evictList s))%nat as Hlen
      by (rewrite (Forall2_length _ _ _ (rf_list _ _ Hr)); lia).
    destruct (evict_full_refines _ s l Hr Hm Hlen) as [H1 _].
    apply PushFront_refines; [done|by apply take_keys|].
    eapply refines_items_none; [exact H1|by apply take_keys].
Qed.

Lemma Delete_refines s l k : refines s l →
  refines (Delete k s).1 (spec_remove k l) ∧ (Delete k s).2 = bool_decide (k ∈ l.*1).
Proof.
  intros Hr. unfold Delete. destruct (items s !! k) as [el|] eqn:Ei; cbn.
  - destruct (refines_lookup s l k el Hr Ei) as (e & He & _ & Hin).
    split; [by eapply removeElement_refines|]. symmetry. apply bool_decide_eq_true.
    destruct (decide (k ∈ l.*1)) as [|Hn]; [done|]. by rewrite (refines_items_none s l k Hr Hn) in Ei.
  - destruct (refines_absent s l k Hr Ei) as [_ Hk]. rewrite bool_decide_eq_false_2 by done. split; [|done].
    replace (spec_remove k l) with l; [done|]. clear - Hk. unfold spec_remove.
    induction l as [|kv l IH]; [done|]. cbn in Hk. apply not_elem_of_cons in Hk as [H1 H2].
    rewrite filter_cons_True by congruence. by rewrite <- IH.
Qed.

Lemma RecordHit_refines s l k saved : refines s l → refines (RecordHit k saved s) (spec_hit k saved l).
Proof.
  intros Hr. unfold RecordHit. destruct (items s !! k) as [el|] eqn:Ei.
  - destruct (refines_lookup s l k el Hr Ei) as (e & He & _ & Hin). rewrite He. cbn [fst snd].
    pose proof Hr as [Hl Hn Hk Hi Hx]. split; cbn; [|done| | |done].
    + assert (∀ x kv, x ∈ evictList s → elems s !! x = Some kv → (x = el ↔ kv.1 = k)) as Hiff.
      { intros x [k' e'] Hx' E. cbn. split; [intros ->; congruence|]. intros ->. by eapply elem_key_unique. }
      clear - Hl Hiff He. induction Hl as [|x [k' e'] ev l H1 Hl IH]; constructor.
      * specialize (Hiff x (k', e') ltac:(left) H1). cbn in *. case_bool_decide as E.
        -- destruct Hiff as [_ Hx]. rewrite (Hx E). rewrite lookup_insert_eq.
           rewrite (Hx E), He in H1. by simplify_eq.
        -- rewrite lookup_insert_ne; [done|]. intros <-. by apply E, Hiff.
      * apply IH. intros y kv Hy. apply Hiff. by right.
    + replace (spec_hit k saved l).*1 with l.*1; [done|]. unfold spec_hit. clear.
      induction l as [|kv l IH]; cbn; [done|]. f_equal; [by case_bool_decide|exact IH].
    + intros k' el'. rewrite Hi. apply and_iff_compat_l. destruct (decide (el' = el)) as [->|Hne].
      * rewrite lookup_insert_eq, He. split; intros [? [= <- _]]; eauto.
      * by rewrite lookup_insert_ne.
  - destruct (refines_absent s l k Hr Ei) as [_ Hk]. replace (spec_hit k saved l) with l; [done|].
    clear - Hk. unfold spec_hit. induction l as [|kv l IH]; cbn; [done|]. cbn in Hk.
    apply not_elem_of_cons in Hk as [H1 H2]. rewrite bool_decide_eq_false_2 by congruence. by rewrite <- IH.
Qed.

Lemma items_elems s l : refines s l → (map_to_list (items s)).*2 ≡ₚ evictList s.
Proof.
  intros Hr. apply NoDup_Permutation.
  - apply NoDup_fmap_2_strong; [|apply NoDup_map_to_list].
    intros [k1 e1] [k2 e2] H1 H2 E. apply elem_of_map_to_list in H1, H2. cbn in E. subst e2.
    destruct (refines_lookup s l k1 e1 Hr H1) as (x & Hx & _). destruct (refines_lookup s l k2 e1 Hr H2) as (y & Hy & _).
    rewrite Hx in Hy. by simplify_eq.
  - apply (rf_nodup _ _ Hr).
  - intros el. split.
    + intros ([k el'] & -> & Hin)%list_elem_of_fmap. apply elem_of_map_to_list in Hin.
      by destruct (refines_lookup s l k el' Hr Hin) as (_ & _ & _ & ?).
    + intros Hin. pose proof Hin as Hin'. apply list_elem_of_lookup in Hin' as [i Hi].
      destruct (Forall2_lookup_l _ _ _ _ _ (rf_list _ _ Hr) Hi) as ([k e] & _ & He).
      apply list_elem_of_fmap. exists (k, el). split; [done|]. apply elem_of_map_to_list.
      apply (rf_items _ _ Hr). eauto.
Qed.

Definition elem_keys (s : LRUStore) (rs : list nat) : list string := omap (λ el, fst <$> elems s !! el) rs.

Lemma filter_all {A} (P : A → Prop) `{∀ x, Decision (P x)} (l : list A) : (∀ x, x ∈ l → P x) → filter P l = l.
Proof.
  induction l as [|x l IH]; intros Hp; [done|]. rewrite filter_cons_True by (apply Hp; left).
  rewrite IH; [done|]. intros y Hy. apply Hp. by right.
Qed.

Lemma filter_ext_in {A} (P Q : A → Prop) `{∀ x, Decision (P x)} `{∀ x, Decision (Q x)} (l : list A) :
  (∀ x, x ∈ l → (P x ↔ Q x)) → filter P l = filter Q l.
Proof.
  induction l as [|x l IH]; intros Hpq; [done|]. pose proof (Hpq x ltac:(left)) as Hx.
  rewrite !filter_cons. rewrite IH by (intros y Hy; apply Hpq; by right).
  destruct (decide (P x)), (decide (Q x)); tauto.
Qed.

Lemma remove_all_refines rs : ∀ s l, refines s l → NoDup rs → (∀ el, el ∈ rs → el ∈ evictList s) →
  refines (foldl (λ s el, removeElement el s) s rs) (filter (λ kv, kv.1 ∉ elem_keys s rs) l).
Proof.
  induction rs as [|el rs IH]; intros s l Hr Hn Hin; cbn [foldl].
  - rewrite filter_all; [done|]. intros kv _. apply not_elem_of_nil.
  - apply NoDup_cons in Hn as [Hel Hn]. pose proof (Hin el ltac:(left)) as Hine.
    pose proof Hine as Hl. apply list_elem_of_lookup in Hl as [i Hi].
    destruct (Forall2_lookup_l _ _ _ _ _ (rf_list _ _ Hr) Hi) as ([k e] & _ & He).
    assert (elem_keys (removeElement el s) rs = elem_keys s rs) as Ek.
    { unfold elem_keys, removeElement. rewrite He. cbn. clear - Hel. induction rs as [|x rs IHr]; [done|].
      apply not_elem_of_cons in Hel as [H1 H2]. cbn. rewrite lookup_delete_ne by done. by rewrite IHr. }
    pose proof (IH (removeElement el s) (spec_remove k l) (removeElement_refines s l el k e Hr He Hine) Hn) as H1.
    rewrite Ek in H1. replace (filter (λ kv, kv.1 ∉ elem_keys s (el :: rs)) l)
      with (filter (λ kv, kv.1 ∉ elem_keys s rs) (spec_remove k l)).
    + apply H1. intros x Hx. unfold removeElement. rewrite He. cbn. apply without_elem.
      split; [apply Hin; by right|]. intros ->. done.
    + unfold spec_remove. rewrite list_filter_filter. apply list_filter_iff. intros kv.
      unfold elem_keys. cbn. rewrite He. cbn. rewrite not_elem_of_cons. tauto.
Qed.

Lemma invalidate_refines s l P : refines s l →
  refines (invalidate P s).1 (spec_invalidate P l).1 ∧ (invalidate P s).2 = (spec_invalidate P l).2.
Proof.
  intros Hr. unfold invalidate, spec_invalidate. cbn [fst snd]. pose proof (items_elems s l Hr) as Hp.
  assert (NoDup (selected P s)) as Hn by (apply NoDup_filter; rewrite Hp; apply (rf_nodup _ _ Hr)).
  assert (∀ el, el ∈ selected P s ↔ el ∈ evictList s ∧ elem_holds P s el = true) as Hsel.
  { intros el. unfold selected. rewrite list_elem_of_filter, Hp. tauto. }
  split.
  - pose proof (remove_all_refines (selected P s) s l Hr Hn) as H1.
    rewrite (filter_ext_in _ (λ kv, P kv.2 = false)) in H1; [apply H1; intros el; by rewrite Hsel; intros [? _]|].
    intros [k e] Hin. cbn. apply list_elem_of_lookup in Hin as [i Hi].
    destruct (Forall2_lookup_r _ _ _ _ _ (rf_list _ _ Hr) Hi) as (el & Hel & He).
    apply list_elem_of_lookup_2 in Hel. split.
    + intros Hk. apply not_true_is_false. intros HP. apply Hk. unfold elem_keys.
      apply list_elem_of_omap. exists el. rewrite Hsel, He. split; [|done]. split; [done|].
      unfold elem_holds. by rewrite He.
    + intros HP (el' & [Hin' Hh]%Hsel & Ek)%list_elem_of_omap.
      unfold elem_holds in Hh. destruct (elems s !! el') as [[k' e']|] eqn:E'; [|done]. cbn in Ek. simplify_eq.
      rewrite (elem_key_unique s l el' el k e' e Hr Hin' Hel E' He) in E'. rewrite He in E'. simplify_eq. cbn in Hh. congruence.
  - unfold selected, zlen. rewrite Hp. f_equal. clear - Hr. pose proof (rf_list _ _ Hr) as Hl.
    clear Hr. unfold elem_holds. induction Hl as [|el kv ev l' H1 Hl IH]; [done|]. rewrite !filter_cons.
    rewrite H1. repeat case_decide; cbn; try done; by rewrite IH.
Qed.

Lemma Len_refines s l : refines s l → Len s = zlen l.
Proof.
  intros Hr. unfold Len, zlen. rewrite <- (Forall2_length _ _ _ (rf_list _ _ Hr)).
  rewrite <- (items_elems s l Hr), length_fmap, length_map_to_list. done.
Qed.

Lemma Clear_refines s l : refines s l → refines (Clear s) [].
Proof.
  intros _. split; cbn; [constructor..| |].
  - intros k el. rewrite lookup_empty. split; [done|]. by intros [?%elem_of_nil _].
  - by intros el ?%elem_of_nil.
Qed.

(** ** Runs *)

Inductive op :=
  | OGet (k : string) (now : Z) | OPut (k : string) (e : Entry) (now : Z) | ODelete (k : string)
  | OHit (k : string) (saved : Z) | OModel (m : string) | OOlder (d now : Z) | OLen | OClear.

Inductive reply := REntry (e : option Entry) | RBool (b : bool) | RCount (n : Z) | RNone.

Definition exec (s : LRUStore) (o : op) : LRUStore * reply :=
  match o with
  | OGet k now => let '(s, r) := Get k now s in (s, REntry r)
  | OPut k e now => (Put k e now s, RNone)
  | ODelete k => let '(s, b) := Delete k s in (s, RBool b)
  | OHit k n => (RecordHit k n s, RNone)
  | OModel m => let '(s, n) := InvalidateByModel m s in (s, RCount n)
  | OOlder d now => let '(s, n) := InvalidateOlderThan d now s in (s, RCount n)
  | OLen => (s, RCount (Len s))
  | OClear => (Clear s, RNone)
  end.

Definition spec_exec (max ttl : Z) (l : list lruItem) (o : op) : list lruItem * reply :=
  match o with
  | OGet k now => let '(l, r) := spec_get ttl k now l in (l, REntry r)
  | OPut k e now => (spec_put (Z.to_nat max) k e now l, RNone)
  | ODelete k => (spec_remove k l, RBool (bool_decide (k ∈ l.*1)))
  | OHit k n => (spec_hit k n l, RNone)
  | OModel m => let '(l, n) := spec_invalidate (λ e, bool_decide (en_Model e = m)) l in (l, RCount n)
  | OOlder d now =>
      let '(l, n) := spec_invalidate (λ e, match en_StoredAt e with Some t => d <? now - t | None => true end) l in
      (l, RCount n)
  | OLen => (l, RCount (zlen l))
  | OClear => ([], RNone)
  end.

Fixpoint run {S} (step : S → op → S * reply) (s : S) (os : list op) : S * list reply :=
  match os with
  | [] => (s, [])
  | o :: os' => let '(s', r) := step s o in let '(s'', rs) := run step s' os' in (s'', r :: rs)
  end.

Lemma removeElement_config el s : maxEntries (removeElement el s) = maxEntries s ∧ ttl (removeElement el s) = ttl s.
Proof. unfold removeElement. by destruct (elems s !! el). Qed.

Lemma evict_full_ttl n : ∀ s, ttl (evict_full n s) = ttl s ∧ maxEntries (evict_full n s) = maxEntries s.
Proof.
  induction n as [|n IH]; intros s; [done|]. cbn. destruct (_ && _); [|done].
  destruct (IH (removeOldest s)) as [-> ->]. unfold removeOldest. destruct (last _); [|done].
  destruct (removeElement_config n0 s) as [-> ->]. done.
Qed.

Lemma remove_all_config rs : ∀ s, maxEntries (foldl (λ s el, removeElement el s) s rs) = maxEntries s ∧
  ttl (foldl (λ s el, removeElement el s) s rs) = ttl s.
Proof.
  induction rs as [|el rs IH]; intros s; [done|]. cbn. destruct (IH (removeElement el s)) as [-> ->].
  apply removeElement_config.
Qed.

Lemma exec_config s o : maxEntries (exec s o).1 = maxEntries s ∧ ttl (exec s o).1 = ttl s.
Proof.
  destruct o; cbn; try done.
  - unfold Get. destruct (items s !! k) as [el|]; [|done]. destruct (elems s !! el) as [it|]; [|done].
    destruct (expired _ _ _); [apply removeElement_config|done].
  - unfold Put. destruct (items s !! k); [done|]. cbn. destruct (evict_full_ttl (length (evictList s)) s). done.
  - unfold Delete. destruct (items s !! k); [apply removeElement_config|done].
  - unfold RecordHit. destruct (items s !! k) as [el|]; [|done]. by destruct (elems s !! el).
  - apply remove_all_config.
  - apply remove_all_config.
Qed.

Lemma exec_refines s l o : refines s l → 0 < maxEntries s →
  refines (exec s o).1 (spec_exec (maxEntries s) (ttl s) l o).1 ∧
  (exec s o).2 = (spec_exec (maxEntries s) (ttl s) l o).2.
Proof.
  intros Hr Hm. destruct o; unfold exec, spec_exec.
  - destruct (Get_refines s l k now Hr) as [H1 H2].
    destruct (Get k now s) as [s1 r1], (spec_get _ k now l) as [l1 r2]. cbn in *. by subst.
  - split; [by apply Put_refines|done].
  - destruct (Delete_refines s l k Hr) as [H1 H2]. destruct (Delete k s). cbn in *. by subst.
  - split; [by apply RecordHit_refines|done].
  - destruct (invalidate_refines s l (λ e, bool_decide (en_Model e = m)) Hr) as [H1 H2].
    unfold InvalidateByModel. destruct (invalidate _ s), (spec_invalidate _ l). cbn in H1, H2 |- *. by subst.
  - destruct (invalidate_refines s l (λ e, match en_StoredAt e with Some t => d <? now - t | None => true end) Hr) as [H1 H2].
    unfold InvalidateOlderThan. destruct (invalidate _ s), (spec_invalidate _ l). cbn in H1, H2 |- *. by subst.
  - split; [done|]. by rewrite (Len_refines s l Hr).
  - split; [by eapply Clear_refines|done].
Qed.

Lemma new_refines max ttl : refines (NewLRUStore max ttl) [] ∧ 0 < maxEntries (NewLRUStore max ttl).
Proof.
  split.
  - split; cbn; [constructor..| |].
    + intros k el. rewrite lookup_empty. split; [done|]. by intros [?%elem_of_nil _].
    + by intros el ?%elem_of_nil.
  - cbn. case (Z.leb_spec max 0); lia.
Qed.

Lemma run_refines os : ∀ s l, refines s l → 0 < maxEntries s →
  refines (run exec s os).1 (run (spec_exec (maxEntries s) (ttl s)) l os).1 ∧
  (run exec s os).2 = (run (spec_exec (maxEntries s) (ttl s)) l os).2.
Proof.
  induction os as [|o os IH]; intros s l Hr Hm; [done|]. cbn.
  destruct (exec_refines s l o Hr Hm) as [H1 H2]. destruct (exec_config s o) as [C1 C2].
  destruct (exec s o) as [s1 r1], (spec_exec _ _ l o) as [l1 r2]. cbn in *. subst r2.
  destruct (IH s1 l1 H1) as [J1 J2]; [by rewrite C1|]. rewrite C1, C2 in *.
  destruct (run exec s1 os) as [s2 rs], (run _ l1 os) as [l2 rs2]. cbn in *. by subst.
Qed.

Lemma spec_remove_length k l : (length (spec_remove k l) <= length l)%nat.
Proof. apply length_filter. Qed.

Lemma spec_remove_found k l e : spec_find k l = Some e → (length (spec_remove k l) < length l)%nat.
Proof.
  intros Hf. unfold spec_remove. assert (∃ kv, kv ∈ l ∧ kv.1 = k) as (kv & Hin & Hk).
  { induction l as [|kv l IH]; [done|]. cbn in Hf. case_bool_decide as E; [exists kv; split; [left|done]|].
    destruct (IH Hf) as (kv' & ? & ?). exists kv'. split; [by right|done]. }
  apply (length_filter_lt _ _ kv); [done|tauto].
Qed.

Lemma spec_exec_bound max ttl l o : 0 < max → zlen l <= max → zlen (spec_exec max ttl l o).1 <= max.
Proof.
  intros Hm Hl. unfold zlen in *. destruct o; cbn; try lia.
  - unfold spec_get. destruct (spec_find k l) as [e|] eqn:Ef; [|done].
    pose proof (spec_remove_found k l e Ef). pose proof (spec_remove_length k l).
    destruct (expired _ _ _); cbn; lia.
  - unfold spec_put. destruct (spec_find k l) as [e0|] eqn:Ef; cbn; [pose proof (spec_remove_found k l e0 Ef); lia|].
    rewrite length_take. lia.
  - pose proof (spec_remove_length k l). lia.
  - unfold spec_hit. rewrite length_map. lia.
  - pose proof (length_filter (λ kv : lruItem, bool_decide (en_Model kv.2 = m) = false) l). lia.
  - match goal with |- context [filter ?P l] => pose proof (length_filter P l) end. lia.
Qed.

Lemma spec_run_bound max ttl os : ∀ l, 0 < max → zlen l <= max → zlen (run (spec_exec max ttl) l os).1 <= max.
Proof.
  induction os as [|o os IH]; intros l Hm Hl; [done|]. cbn.
  pose proof (spec_exec_bound max ttl l o Hm Hl) as H1. destruct (spec_exec _ _ l o) as [l1 r]. cbn in *.
  specialize (IH l1 Hm H1). by destruct (run _ l1 os).
Qed.

(** C36. The store implements a bounded recency list: over every sequence of
    reads, writes, deletions, hit records and invalidations, the map, the
    element list and the heap of elements answer exactly like one list of
    entries, most recently used first, from which a new key displaces the least
    recently used one; and the store never holds more than its bound. *)
Theorem LRUStore_refines_recency_list max ttl0 os :
  let s0 := NewLRUStore max ttl0 in
  (run exec s0 os).2 = (run (spec_exec (maxEntries s0) ttl0) [] os).2 ∧
  refines (run exec s0 os).1 (run (spec_exec (maxEntries s0) ttl0) [] os).1 ∧
  Len (run exec s0 os).1 <= maxEntries s0.
Proof.
  intros s0. destruct (new_refines max ttl0) as [Hr Hm]. fold s0 in Hr, Hm.
  destruct (run_refines os s0 [] Hr Hm) as [H1 H2]. change (ttl s0) with ttl0 in *.
  split_and!; [done|done|]. rewrite (Len_refines _ _ H1). apply spec_run_bound; [done|].
  unfold zlen. cbn [length]. lia.
Qed.
