(* ===== verification/GoText.v ===== *)
(** * Text, numbers and durations of the Go standard library

    [strings.ToLower] over UTF-8, [strconv.Atoi], [time.ParseDuration] with its
    binary64 fraction, and the typed view [encoding/json/v2] gives of a decoded
    value when the destination is a struct. *)

From Stdlib Require Import SpecFloat.
From stdpp Require Import pretty.
From S2P Require Import Prelude GoRegexp Json.

(** ** Runes and case *)

(** The value of the rune [rune_width] finds; an invalid byte is U+FFFD. *)
Definition rune_error : Z := 65533.

Definition rune_value (s : bytes) : Z :=
  match rune_width s, s with
  | 2%nat, a :: b :: _ => (zb a - 192) * 64 + (zb b - 128)
  | 3%nat, a :: b :: c :: _ => ((zb a - 224) * 64 + (zb b - 128)) * 64 + (zb c - 128)
  | 4%nat, a :: b :: c :: d :: _ =>
      (((zb a - 240) * 64 + (zb b - 128)) * 64 + (zb c - 128)) * 64 + (zb d - 128)
  | _, a :: _ => if zb a <? 128 then zb a else rune_error
  | _, [] => rune_error
  end.

(** [utf8.ValidString]. *)
Fixpoint valid_utf8_from (fuel : nat) (s : bytes) : bool :=
  match fuel, s with
  | _, [] => true
  | O, _ => false
  | S fuel', _ => negb ((rune_width s =? 1)%nat && (rune_value s =? rune_error)) && valid_utf8_from fuel' (drop (rune_width s) s)
  end.
Definition valid_utf8 (s : bytes) : bool := valid_utf8_from (length s) s.

(** The Unicode case table above ASCII; the replacement character has no case. *)
Class UnicodeCase := {
  unicode_lower : Z → Z;
  unicode_lower_error : unicode_lower rune_error = rune_error
}.

Definition ascii_lower (n : Z) : Z := if (65 <=? n) && (n <=? 90) then n + 32 else n.

Section Case.
Context `{UnicodeCase}.

Definition lower_rune (r : Z) : Z := if r <? 128 then ascii_lower r else unicode_lower r.

(** [strings.Map(unicode.ToLower, s)]: an invalid byte becomes U+FFFD. *)
Fixpoint lower_runes (fuel : nat) (s : bytes) : bytes :=
  match fuel with
  | O => []
  | S fuel' =>
      match s with
      | [] => []
      | _ => utf8_encode (lower_rune (rune_value s)) ++ lower_runes fuel' (drop (rune_width s) s)
      end
  end.

Definition to_lower (s : bytes) : bytes := lower_runes (length s) s.

End Case.

(** [strings.ToUpper]. *)
Class UnicodeUpper := { unicode_upper : Z → Z }.

Definition ascii_upper (n : Z) : Z := if (97 <=? n) && (n <=? 122) then n - 32 else n.

Section Upper.
Context `{UnicodeUpper}.

Definition upper_rune (r : Z) : Z := if r <? 128 then ascii_upper r else unicode_upper r.

Fixpoint upper_runes (fuel : nat) (s : bytes) : bytes :=
  match fuel with
  | O => []
  | S fuel' =>
      match s with
      | [] => []
      | _ => utf8_encode (upper_rune (rune_value s)) ++ upper_runes fuel' (drop (rune_width s) s)
      end
  end.

Definition to_upper (s : bytes) : bytes := upper_runes (length s) s.

End Upper.

(** Lowering keeps the length of an ASCII string. *)
Section CaseFacts.
Context `{UnicodeCase}.

Definition is_ascii (s : bytes) : Prop := Forall (λ c, zb c < 128) s.

Lemma ascii_rune c s : zb c < 128 → rune_width (c :: s) = 1%nat ∧ rune_value (c :: s) = zb c.
Proof.
  intros Hc. assert (rune_width (c :: s) = 1%nat) as Hw by (unfold rune_width; zcases).
  split; [done|]. unfold rune_value. rewrite Hw. zcases.
Qed.

Lemma to_lower_one c s : rune_width (c :: s) = 1%nat →
  to_lower (c :: s) = utf8_encode (lower_rune (rune_value (c :: s))) ++ to_lower s.
Proof. intros Hw. unfold to_lower at 1. cbn [length lower_runes]. by rewrite Hw. Qed.

Lemma to_lower_ascii_cons c s : zb c < 128 → to_lower (c :: s) = bz (ascii_lower (zb c)) :: to_lower s.
Proof.
  intros Hc. destruct (ascii_rune c s Hc) as [Hw Hv]. rewrite to_lower_one, Hv by done.
  unfold lower_rune. rewrite (proj2 (Z.ltb_lt (zb c) 128)) by done. unfold utf8_encode.
  rewrite (proj2 (Z.ltb_lt (ascii_lower (zb c)) 128)); [done|]. unfold ascii_lower. zcases.
Qed.

(** An invalid byte. *)
Lemma to_lower_invalid c s : 128 <= zb c → rune_width (c :: s) = 1%nat →
  to_lower (c :: s) = map bz [239; 191; 189] ++ to_lower s.
Proof.
  intros Hc Hw. rewrite to_lower_one by done. unfold rune_value. rewrite Hw.
  rewrite (proj2 (Z.ltb_ge _ _)) by done. unfold lower_rune. cbn -[rune_error utf8_encode].
  by rewrite unicode_lower_error.
Qed.

Lemma utf8_encode_ascii n : n < 128 → length (utf8_encode n) = 1%nat.
Proof. intros Hn. unfold utf8_encode. by zcases. Qed.

Lemma to_lower_ascii_length s : is_ascii s → length (to_lower s) = length s.
Proof.
  intros Hs. unfold to_lower.
  assert (∀ n, (length s <= n)%nat → length (lower_runes n s) = length s) as Hn; [|by apply Hn].
  induction Hs as [|c s Hc Hs IH]; intros [|n] Hl; cbn [length lower_runes] in *; try done; try lia.
  destruct (ascii_rune c s Hc) as [-> ->]. rewrite length_app. cbn [drop]. rewrite IH by lia.
  rewrite utf8_encode_ascii; [done|]. unfold lower_rune, ascii_lower. pose proof (zb_range c). zcases.
Qed.

End CaseFacts.

(** A table with no case mapping above ASCII, for examples and witnesses. *)
Definition ascii_case : UnicodeCase :=
  {| unicode_lower := λ r, r; unicode_lower_error := eq_refl |}.

Example to_lower_sample :
  @to_lower ascii_case (B "Rate LIMIT" ++ [bz 195; bz 137]) = B "rate limit" ++ [bz 195; bz 137] ∧
  @to_lower ascii_case [bz 233] = map bz [239; 191; 189].
Proof. by vm_compute. Qed.

Lemma has_prefix_take p s : has_prefix p s = true ↔ take (length p) s = p.
Proof.
  revert s. induction p as [|a p IH]; intros [|b s]; cbn; try done.
  rewrite andb_true_iff, bool_decide_eq_true, IH. naive_solver congruence.
Qed.

Lemma index_of_bound p s i : index_of p s = Some i →
  (i + length p <= length s)%nat ∧ has_prefix p (drop i s) = true.
Proof.
  revert i. induction s as [|c s IH]; intros i; cbn [index_of].
  - destruct (has_prefix p []) eqn:E; [|done]. intros [= <-]. split; [|done]. by destruct p.
  - destruct (has_prefix p (c :: s)) eqn:E.
    + intros [= <-]. split; [|done]. apply has_prefix_take in E. rewrite <- E, length_take. lia.
    + destruct (index_of p s) as [j|] eqn:Ej; [|done]. intros [= <-]. destruct (IH j eq_refl). split; [cbn; lia|done].
Qed.

(** [strings.Contains] *)
Lemma contains_spec p s : contains p s = true ↔ ∃ x y, s = x ++ p ++ y.
Proof.
  unfold contains. split.
  - destruct (index_of p s) as [i|] eqn:Ei; [|done]. intros _. apply index_of_bound in Ei as [_ Hp%has_prefix_take].
    exists (take i s), (drop (length p) (drop i s)). rewrite <- Hp at 1. by rewrite take_drop, take_drop.
  - intros (x & y & ->). induction x as [|c x IH]; cbn [app].
    + assert (Hp : has_prefix p (p ++ y) = true) by by apply has_prefix_take, take_app_length.
      destruct (p ++ y); cbn [index_of]; by rewrite Hp.
    + cbn [index_of]. destruct (has_prefix p (c :: x ++ p ++ y)); [done|].
      destruct (index_of p (x ++ p ++ y)); [done|]. by cbn in IH.
Qed.

Lemma has_suffix_spec p s : has_suffix p s = true ↔ ∃ x, s = x ++ p.
Proof.
  unfold has_suffix. rewrite has_prefix_take, length_rev. split.
  - intros E. exists (rev (drop (length p) (rev s))). rewrite <- (rev_involutive p) at 2. rewrite <- E, <- rev_app_distr, take_drop.
    by rewrite rev_involutive.
  - intros (x & ->). rewrite rev_app_distr, <- (length_rev p). by rewrite take_app_length.
Qed.

Lemma Forall_trim_runes P n sps s : Forall P s → Forall P (trim_runes n sps s).
Proof.
  revert s. induction n as [|n IH]; intros s Hs; cbn; [done|]. destruct (List.find _ _); [|done].
  by apply IH, Forall_drop.
Qed.

Lemma Forall_trim_space (P : ascii → Prop) s : Forall P s → Forall P (trim_space s).
Proof. intros Hs. unfold trim_space. by apply Forall_rev, Forall_trim_runes, Forall_rev, Forall_trim_runes. Qed.

Lemma elem_of_rev {A} (x : A) l : x ∈ rev l ↔ x ∈ l.
Proof. rewrite !list_elem_of_In. symmetry. apply in_rev. Qed.

(** A byte of no blank survives the trimming. *)
Lemma trim_runes_keeps x n sps s : x ∈ s → x ∉ concat sps → x ∈ trim_runes n sps s.
Proof.
  intros Hx Hb. revert s Hx. induction n as [|n IH]; intros s Hx; cbn; [done|].
  destruct (List.find _ _) as [p|] eqn:Ef; [|done]. apply List.find_some in Ef as [Hp%list_elem_of_In Hpre%has_prefix_take].
  apply IH. rewrite <- (take_drop (length p) s), Hpre in Hx. apply elem_of_app in Hx as [Hx|Hx]; [|done].
  contradict Hb. apply list_elem_of_In, in_concat. exists p. by rewrite <- !list_elem_of_In.
Qed.

Lemma trim_space_keeps x s : x ∈ s → x ∉ concat utf8_spaces → x ∈ trim_space s.
Proof.
  intros Hx Hb. unfold trim_space. apply elem_of_rev, trim_runes_keeps.
  - by apply elem_of_rev, trim_runes_keeps.
  - contradict Hb. apply list_elem_of_In, in_concat in Hb as (p & [q [<- Hq]]%in_map_iff & Hin).
    apply list_elem_of_In, in_concat. exists q. split; [done|by apply in_rev].
Qed.

(** [strings.TrimSpace] leaves nothing to trim. *)
Lemma trim_runes_find n sps s : Forall (λ p, p ≠ []) sps → (length s <= n)%nat →
  List.find (λ p, has_prefix p (trim_runes n sps s)) sps = None.
Proof.
  intros Hne. revert s. induction n as [|n IH]; intros s Hl; cbn [trim_runes].
  - destruct s; [|cbn in Hl; lia]. clear -Hne. induction Hne as [|p sps Hp _ IH]; cbn; [done|]. by destruct p.
  - destruct (List.find (λ p, has_prefix p s) sps) as [p|] eqn:Ef; [|exact Ef]. apply IH. rewrite length_drop.
    apply List.find_some in Ef as [Hin%list_elem_of_In Hp]. rewrite Forall_forall in Hne.
    destruct p as [|c p]; [by destruct (Hne [])|]. destruct s; [done|]. cbn in *. lia.
Qed.

Lemma trim_runes_stop n sps s : List.find (λ p, has_prefix p s) sps = None → trim_runes n sps s = s.
Proof. destruct n; cbn; [done|]. by intros ->. Qed.

Lemma trim_runes_suffix n sps s : ∃ k, s = k ++ trim_runes n sps s.
Proof.
  revert s. induction n as [|n IH]; intros s; cbn; [by exists []|]. destruct (List.find (λ p, has_prefix p s) sps) as [p|]; [|by exists []].
  destruct (IH (drop (length p) s)) as [k E]. exists (take (length p) s ++ k). by rewrite <- app_assoc, <- E, take_drop.
Qed.

Lemma find_prefix_app sps s t : List.find (λ p, has_prefix p (s ++ t)) sps = None → List.find (λ p, has_prefix p s) sps = None.
Proof.
  induction sps as [|p sps IH]; cbn; [done|]. destruct (has_prefix p (s ++ t)) eqn:E; [done|].
  destruct (has_prefix p s) eqn:E'; [|done]. by rewrite (has_prefix_app p s t E') in E.
Qed.

Lemma trim_space_idem s : trim_space (trim_space s) = trim_space s.
Proof.
  assert (Hne : Forall (λ p, p ≠ []) utf8_spaces).
  { unfold utf8_spaces. apply Forall_app; split; repeat (apply Forall_cons; split; [done|]); apply Forall_nil_2. }
  assert (Hne' : Forall (λ p, p ≠ []) (map (@rev ascii) utf8_spaces)).
  { apply Forall_map. eapply Forall_impl; [exact Hne|]. intros p Hp E. apply Hp. rewrite <- (rev_involutive p). by rewrite E. }
  unfold trim_space at 2 3. set (l := trim_runes (length s) utf8_spaces s).
  set (r := trim_runes (length l) (map (@rev ascii) utf8_spaces) (rev l)).
  assert (Hl : List.find (λ p, has_prefix p l) utf8_spaces = None) by (apply trim_runes_find; [done|lia]).
  assert (Hr : List.find (λ p, has_prefix p r) (map (@rev ascii) utf8_spaces) = None).
  { apply trim_runes_find; [done|]. by rewrite length_rev. }
  destruct (trim_runes_suffix (length l) (map (@rev ascii) utf8_spaces) (rev l)) as [k E]. fold r in E.
  assert (El : l = rev r ++ rev k) by (rewrite <- (rev_involutive l), E; apply rev_app_distr).
  unfold trim_space. rewrite (trim_runes_stop _ _ (rev r)) by (rewrite El in Hl; exact (find_prefix_app _ _ _ Hl)).
  rewrite rev_involutive. by rewrite trim_runes_stop.
Qed.

Lemma no_blank_front c t sps : c ∉ concat sps → Forall (λ p, p ≠ []) sps → List.find (λ p, has_prefix p (c :: t)) sps = None.
Proof.
  intros Hc Hne. destruct (List.find _ _) as [p|] eqn:Ef; [|done]. apply List.find_some in Ef as [Hp%list_elem_of_In Hpre].
  rewrite Forall_forall in Hne. destruct p as [|x p]; [by destruct (Hne _ Hp)|]. cbn in Hpre. apply andb_prop in Hpre as [->%bool_decide_eq_true _].
  contradict Hc. apply list_elem_of_In, in_concat. exists (c :: p). rewrite <- !list_elem_of_In. split; [done|left].
Qed.

(** Nothing to trim between two bytes of no blank. *)
Lemma trim_space_fixed c t d : c ∉ concat utf8_spaces → d ∉ concat utf8_spaces → trim_space (c :: t ++ [d]) = c :: t ++ [d].
Proof.
  assert (Hne : Forall (λ p, p ≠ []) utf8_spaces).
  { unfold utf8_spaces. apply Forall_app; split; repeat (apply Forall_cons; split; [done|]); apply Forall_nil_2. }
  intros Hc Hd. unfold trim_space. rewrite (trim_runes_stop _ _ (c :: t ++ [d])) by (by apply no_blank_front).
  rewrite trim_runes_stop; [apply rev_involutive|]. change (c :: t ++ [d]) with ((c :: t) ++ [d]). rewrite rev_app_distr. cbn [rev app].
  apply no_blank_front; [|apply Forall_map; eapply Forall_impl; [exact Hne|]; intros p Hp E; apply Hp; rewrite <- (rev_involutive p); by rewrite E].
  contradict Hd. apply list_elem_of_In, in_concat in Hd as (p & [q [<- Hq]]%in_map_iff & Hin).
  apply list_elem_of_In, in_concat. exists q. split; [done|by apply in_rev].
Qed.

(** [strings.TrimRight(s, ".")]. *)
Definition trim_dots (s : bytes) : bytes := trim_right (λ c, bool_decide (c = "."%char)) s.

(** ** [strconv.Atoi] *)

Definition digit_val (c : ascii) : Z := zb c - 48.
Definition dec_value (s : bytes) : Z := foldl (λ acc c, acc * 10 + digit_val c) 0 s.

Definition Atoi (s : bytes) : option Z :=
  let '(neg, d) := match s with
                   | c :: t => if bool_decide (c = "-"%char) then (true, t)
                               else if bool_decide (c = "+"%char) then (false, t) else (false, s)
                   | [] => (false, s)
                   end in
  if bool_decide (d = []) || negb (forallb is_digit d) then None
  else let v := if neg then - dec_value d else dec_value d in
       if (- 2 ^ 63 <=? v) && (v <? 2 ^ 63) then Some v else None.

(** [strconv.Itoa]. *)
Definition itoa (z : Z) : bytes := B (pretty z).

(** ** [time.ParseDuration] *)

Definition sf_of_Z (z : Z) : spec_float := binary_normalize 53 1024 z 0 false.
Definition sf_trunc (x : spec_float) : Z :=
  match x with
  | S754_finite false m e => if 0 <=? e then Z.pos m * 2 ^ e else Z.pos m / 2 ^ (- e)
  | _ => 0
  end.

Definition unit_ns (u : bytes) : option Z :=
  if bool_decide (u = B "ns") then Some 1
  else if bool_decide (u = B "us") then Some 1000
  else if bool_decide (u = map bz [194; 181; 115]) || bool_decide (u = map bz [206; 188; 115]) then Some 1000
  else if bool_decide (u = B "ms") then Some 1000000
  else if bool_decide (u = B "s") then Some 1000000000
  else if bool_decide (u = B "m") then Some (60 * 1000000000)
  else if bool_decide (u = B "h") then Some (3600 * 1000000000)
  else None.

(** [leadingFraction]: digits past the precision of the accumulator are read
    and dropped. *)
Fixpoint leading_fraction (s : bytes) (f scale : Z) (overflow : bool) : Z * Z * bytes :=
  match s with
  | [] => (f, scale, s)
  | c :: s' =>
      if is_digit c then
        if overflow then leading_fraction s' f scale true
        else if (2 ^ 63 - 1) / 10 <? f then leading_fraction s' f scale true
        else let y := f * 10 + digit_val c in
             if 2 ^ 63 <? y then leading_fraction s' f scale true
             else leading_fraction s' y (scale * 10) false
      else (f, scale, s)
  end.

Definition is_unit_char (c : ascii) : bool := negb (bool_decide (c = "."%char)) && negb (is_digit c).

Definition span (f : ascii → bool) (s : bytes) : bytes * bytes :=
  let t := trim_left f s in (take (length s - length t) s, t).

Fixpoint duration_terms (fuel : nat) (s : bytes) (d : Z) : option Z :=
  match fuel with
  | O => None
  | S fuel' =>
      match s with
      | [] => Some d
      | c :: _ =>
          if negb (bool_decide (c = "."%char) || is_digit c) then None else
          let '(i, s1) := span is_digit s in
          let v := dec_value i in
          if 2 ^ 63 <? v then None else
          let '(f, scale, s2, post) :=
            match s1 with
            | p :: t => if bool_decide (p = "."%char)
                        then let '(f, scale, r) := leading_fraction t 0 1 false in
                             (f, scale, r, negb (length r =? length t)%nat)
                        else (0, 1, s1, false)
            | [] => (0, 1, s1, false)
            end in
          if bool_decide (i = []) && negb post then None else
          let '(u, s3) := span is_unit_char s2 in
          match unit_ns u with
          | None => None
          | Some unit =>
              if 2 ^ 63 / unit <? v then None else
              let v := v * unit in
              let v := if 0 <? f
                       then v + sf_trunc (SFmul 53 1024 (sf_of_Z f) (SFdiv 53 1024 (sf_of_Z unit) (sf_of_Z scale)))
                       else v in
              if 2 ^ 63 <? v then None else
              if 2 ^ 63 <? d + v then None else duration_terms fuel' s3 (d + v)
          end
      end
  end.

Definition ParseDuration (s : bytes) : option Z :=
  let '(neg, t) := match s with
                   | c :: t => if bool_decide (c = "-"%char) then (true, t)
                               else if bool_decide (c = "+"%char) then (false, t) else (false, s)
                   | [] => (false, s)
                   end in
  if bool_decide (t = B "0") then Some 0
  else if bool_decide (t = []) then None
  else match duration_terms (S (length t)) t 0 with
       | None => None
       | Some d => if neg then Some (- d) else if 2 ^ 63 - 1 <? d then None else Some d
       end.

Example ParseDuration_sample :
  ParseDuration (B "1h12m28.109534319s") = Some 4348109534319 ∧
  ParseDuration (B "1.5s") = Some 1500000000 ∧ ParseDuration (B "120") = None ∧
  ParseDuration (B "-2m") = Some (-120000000000) ∧ ParseDuration (B ".s") = None.
Proof. by vm_compute. Qed.

(** ** A decoded number as an integer

    A JSON number is the binary64 nearest to its literal: the sign, the digits
    without the point, and the power of ten. Division keeps a sticky bit below
    1200 binary places, so the rounding sees which side the exact value is on. *)

Definition number_parts (lit : bytes) : bool * Z * Z :=
  let neg := has_prefix (B "-") lit in
  let body := if neg then drop 1 lit else lit in
  let '(mant, expo) := span (λ c, negb (bool_decide (c = "e"%char) || bool_decide (c = "E"%char))) body in
  let '(i, f) := span is_digit mant in
  (neg, dec_value (i ++ drop 1 f), default 0 (Atoi (drop 1 expo)) - zlen (drop 1 f)).

Definition float_of_decimal (m e : Z) : spec_float :=
  if 0 <=? e then sf_of_Z (m * 10 ^ e)
  else let n := m * 2 ^ 1200 in let d := 10 ^ (- e) in
       binary_normalize 53 1024 (2 * (n / d) + (if n mod d =? 0 then 0 else 1)) (-1201) false.

(** [int(v)] of a decoded number: the largest binary64 below [2^63] is
    [2^63 - 1024]; what a value outside [int] becomes depends on the machine. *)
Definition number_int (out_of_range : Z → Z) (lit : bytes) : Z :=
  let '(neg, m, e) := number_parts lit in
  let v := sf_trunc (float_of_decimal m e) in
  let z := if neg then - v else v in
  if (- 2 ^ 63 <=? z) && (z <=? 2 ^ 63 - 1024) then z else out_of_range z.

Lemma number_int_range out_of_range lit : (∀ z, - 2 ^ 63 <= out_of_range z < 2 ^ 63 - 1) →
  - 2 ^ 63 <= number_int out_of_range lit < 2 ^ 63 - 1.
Proof.
  intros Hoor. unfold number_int. destruct (number_parts lit) as [[neg m] e]. set (z := if neg then _ else _).
  case (Z.leb_spec (- 2 ^ 63) z); cbn [andb]; [|done]. case (Z.leb_spec z (2 ^ 63 - 1024)); [lia|done].
Qed.

Example number_int_sample :
  map (number_int id ∘ B) ["410"; "-3"; "2.999"; "1e3"; "-15e-1"; "9007199254740993"; "0"; "0.30000000000000004e1"]%string
    = [410; -3; 2; 1000; -1; 9007199254740992; 0; 3].
Proof. by vm_compute. Qed.

(** *** Integers below 2^53 are exact *)

Lemma digits2_bound p : 2 ^ (Z.pos (digits2_pos p) - 1) <= Z.pos p.
Proof.
  induction p as [p IH|p IH|]; cbn [digits2_pos]; [| |done];
    rewrite Pos2Z.inj_succ; replace (Z.succ (Z.pos (digits2_pos p)) - 1) with (Z.succ (Z.pos (digits2_pos p) - 1)) by lia;
    rewrite Z.pow_succ_r by lia; lia.
Qed.

Lemma shifted p k : digits2_pos (Pos.iter xO p k) = (digits2_pos p + k)%positive ∧ Z.pos (Pos.iter xO p k) = Z.pos p * 2 ^ Z.pos k.
Proof.
  induction k as [|k [IH1 IH2]] using Pos.peano_ind; [cbn; lia|].
  rewrite Pos.iter_succ. cbn [digits2_pos]. rewrite IH1, Pos2Z.inj_succ, Z.pow_succ_r, Pos2Z.inj_xO, IH2 by lia. lia.
Qed.

Lemma round_exact p e : fexp 53 1024 (Z.pos (digits2_pos p) + e) = e → e <= 0 →
  binary_round_aux 53 1024 false (Z.pos p) e loc_Exact = S754_finite false p e.
Proof.
  intros Hf He. unfold binary_round_aux, shr_fexp. cbn [Zdigits2]. rewrite Hf, Z.sub_diag.
  cbn [shr shr_record_of_loc shr_m loc_of_shr_record round_nearest_even Zdigits2]. rewrite Hf, Z.sub_diag.
  cbn [shr shr_record_of_loc shr_m]. rewrite (proj2 (Z.leb_le _ _)) by lia. done.
Qed.

Lemma sf_of_Z_exact m : 0 <= m < 2 ^ 53 → sf_trunc (sf_of_Z m) = m.
Proof.
  intros Hm. destruct m as [|p|p]; [done| |lia]. pose proof (digits2_bound p) as Hd.
  assert (Hd53 : Z.pos (digits2_pos p) <= 53).
  { apply Z.nlt_ge. intros Hlt. assert (2 ^ 53 <= 2 ^ (Z.pos (digits2_pos p) - 1)) by (apply Z.pow_le_mono_r; lia). lia. }
  unfold sf_of_Z, binary_normalize, binary_round.
  assert (Ef : fexp 53 1024 (Z.pos (digits2_pos p) + 0) = Z.pos (digits2_pos p) - 53) by (unfold fexp, emin; lia).
  rewrite Ef. unfold shl_align. rewrite Z.sub_0_r. destruct (Z.pos (digits2_pos p) - 53) as [|q|q] eqn:Eq; [|lia|].
  - rewrite round_exact by (rewrite ?Ef; lia). cbn. lia.
  - destruct (shifted p q) as [Es Ev]. rewrite round_exact; [|rewrite Es; unfold fexp, emin; lia|lia].
    cbn [sf_trunc]. rewrite (proj2 (Z.leb_gt _ _)) by lia. rewrite Ev. by rewrite Z.div_mul by (apply Z.pow_nonzero; lia).
Qed.

(** *** Decimal digits *)

Lemma digit_char_val n : (n < 10)%N → digit_val (pretty_N_char n) = Z.of_N n ∧ is_digit (pretty_N_char n) = true.
Proof.
  intros Hn. assert (n = 0 ∨ n = 1 ∨ n = 2 ∨ n = 3 ∨ n = 4 ∨ n = 5 ∨ n = 6 ∨ n = 7 ∨ n = 8 ∨ n = 9)%N as Hc by lia.
  repeat (destruct Hc as [ -> | Hc]; [done|]). by subst n.
Qed.

Lemma pretty_go_digits x s : 
  foldl (λ acc c, acc * 10 + digit_val c) 0 (B (pretty_N_go x s)) = foldl (λ acc c, acc * 10 + digit_val c) (Z.of_N x) (B s) ∧
  (Forall (λ c, is_digit c = true) (B s) → Forall (λ c, is_digit c = true) (B (pretty_N_go x s))) ∧
  ((0 < x)%N → B (pretty_N_go x s) ≠ []).
Proof.
  revert s. induction (N.lt_wf_0 x) as [x _ IH]. intros s. destruct (decide (x = 0)%N) as [->|Hx].
  - rewrite pretty_N_go_0. split; [done|]. split; [done|lia].
  - rewrite pretty_N_go_step by lia. assert (Hlt : (x `div` 10 < x)%N) by (apply N.div_lt; lia).
    destruct (IH _ Hlt (String (pretty_N_char (x `mod` 10)) s)) as (E & Hall & Hne).
    assert (Hm : (x `mod` 10 < 10)%N) by (apply N.mod_lt; lia). destruct (digit_char_val _ Hm) as [Hv Hdig].
    split; [|split].
    + rewrite E. cbn [B String.list_ascii_of_string foldl]. rewrite Hv.
      assert (Z.of_N (x `div` 10) * 10 + Z.of_N (x `mod` 10) = Z.of_N x) as ->; [|done].
      rewrite N2Z.inj_div, N2Z.inj_mod. pose proof (Z.div_mod (Z.of_N x) 10 ltac:(lia)). cbn [Z.of_N] in *. lia.
    + intros Hs. apply Hall. cbn. by constructor.
    + intros _. destruct (decide (x `div` 10 = 0)%N) as [E0|]; [rewrite E0, pretty_N_go_0; done|by apply Hne, N.neq_0_lt_0].
Qed.

Lemma itoa_digits n : 0 <= n → dec_value (itoa n) = n ∧ Forall (λ c, is_digit c = true) (itoa n) ∧ itoa n ≠ [].
Proof.
  intros Hn. destruct (decide (n = 0)) as [->|Hnz]; [split; [done|split; [by repeat constructor|done]]|].
  destruct n as [|p|p]; [done| |lia].
  assert (E : itoa (Z.pos p) = B (pretty_N_go (N.pos p) "")) by done. rewrite E. unfold dec_value.
  destruct (pretty_go_digits (N.pos p) "") as (-> & Hall & Hne). split; [done|]. split; [by apply Hall; constructor|by apply Hne].
Qed.

Lemma digit_not c d : is_digit c = true → is_digit d = false → bool_decide (c = d) = false.
Proof. intros Hc Hd. apply bool_decide_eq_false. congruence. Qed.

Lemma trim_left_all f s : Forall (λ c, f c = true) s → trim_left f s = [].
Proof. induction 1 as [|c s Hc _ IH]; cbn; [done|]. by rewrite Hc. Qed.

Lemma span_all f s : Forall (λ c, f c = true) s → span f s = (s, []).
Proof. intros Hs. unfold span. rewrite trim_left_all by done. cbn [length]. by rewrite Nat.sub_0_r, firstn_all. Qed.

Lemma number_parts_itoa n : 0 <= n → number_parts (itoa n) = (false, n, 0).
Proof.
  intros Hn. destruct (itoa_digits n Hn) as (Hv & Hall & Hne). unfold number_parts.
  assert (Hp : has_prefix (B "-") (itoa n) = false).
  { destruct (itoa n) as [|c s]; [done|]. apply Forall_cons in Hall as [Hc _]. cbn. rewrite bool_decide_eq_false_2; [done|].
    intros <-. done. }
  rewrite Hp. rewrite (span_all _ (itoa n)).
  - rewrite (span_all is_digit) by done. cbn [drop]. rewrite app_nil_r, Hv. done.
  - eapply Forall_impl; [exact Hall|]. intros c Hc. cbv beta. by rewrite !(digit_not c) by done.
Qed.

Lemma number_int_itoa oor n : 0 <= n < 2 ^ 53 → number_int oor (itoa n) = n.
Proof.
  intros Hn. unfold number_int. rewrite number_parts_itoa by lia.
  unfold float_of_decimal. cbn [Z.leb Z.compare Z.pow]. rewrite Z.mul_1_r, sf_of_Z_exact by done.
  rewrite (proj2 (Z.leb_le _ _)), (proj2 (Z.leb_le _ _)) by lia. done.
Qed.

(** An integer reads back from its digits. *)
Lemma digits_not_sign s : Forall (λ c, is_digit c = true) s → s ≠ [] →
  ∃ c t, s = c :: t ∧ bool_decide (c = "-"%char) = false ∧ bool_decide (c = "+"%char) = false.
Proof.
  intros Hs Hne. destruct s as [|c t]; [done|]. apply Forall_cons in Hs as [Hc _]. exists c, t. by rewrite !digit_not by done.
Qed.

Lemma forallb_digits s : Forall (λ c, is_digit c = true) s → forallb is_digit s = true.
Proof. intros Hs. by apply forallb_forall, List.Forall_forall. Qed.

Lemma Atoi_itoa n : - 2 ^ 63 <= n < 2 ^ 63 → Atoi (itoa n) = Some n.
Proof.
  intros Hn. destruct (decide (0 <= n)) as [Hp|Hp].
  - destruct (itoa_digits n Hp) as (Hv & Hall & Hne). destruct (digits_not_sign _ Hall Hne) as (c & t & E & E1 & E2).
    unfold Atoi. rewrite E, E1, E2, <- E, bool_decide_eq_false_2, forallb_digits, Hv by done. cbn [orb negb].
    by rewrite (proj2 (Z.leb_le _ _)), (proj2 (Z.ltb_lt _ _)) by lia.
  - destruct n as [|p|p]; [done|lia|]. change (itoa (Z.neg p)) with ("-"%char :: itoa (Z.pos p)).
    destruct (itoa_digits (Z.pos p)) as (Hv & Hall & Hne); [lia|]. unfold Atoi. rewrite bool_decide_eq_true_2 by done.
    rewrite bool_decide_eq_false_2, forallb_digits, Hv by done. cbn [orb negb].
    by rewrite (proj2 (Z.leb_le _ _)), (proj2 (Z.ltb_lt _ _)) by lia.
Qed.

(** So does a float that is a small integer. *)
Lemma sf_of_Z_form m : 0 <= m < 2 ^ 53 → sf_of_Z m = S754_zero false ∨ ∃ k e, sf_of_Z m = S754_finite false k e.
Proof.
  intros Hm. pose proof (sf_of_Z_exact m Hm) as E. destruct (sf_of_Z m) as [[]| | |[] k e] eqn:Es; cbn in E; subst; try done; try (by left); by (right; eauto).
Qed.

(** ** Decoding into a struct

    A member that is absent or null leaves the zero value; a member of another
    JSON type is an error of the whole decoding; unknown members are ignored. *)

Definition str_field (k : bytes) (m : object) : option bytes :=
  match obj_get k m with JNull => Some [] | JStr s => Some s | _ => None end.
Definition obj_field (k : bytes) (m : object) : option object :=
  match obj_get k m with JNull => Some [] | JObj o => Some o | _ => None end.
Definition arr_field (k : bytes) (m : object) : option (list json) :=
  match obj_get k m with JNull => Some [] | JArr l => Some l | _ => None end.
(** An element of a slice of structs, and a struct at the root. *)
Definition as_struct (j : json) : option object :=
  match j with JNull => Some [] | JObj o => Some o | _ => None end.

Definition bool_field (k : bytes) (m : object) : option bool :=
  match obj_get k m with JNull => Some false | JBool b => Some b | _ => None end.

(** [int]: a literal without fraction or exponent, within 64 bits. *)
Definition int_field (k : bytes) (m : object) : option Z :=
  match obj_get k m with JNull => Some 0 | JNum l => Atoi l | _ => None end.

Definition int_ptr (k : bytes) (m : object) : option (option Z) :=
  match obj_get k m with JNull => Some None | JNum l => Some <$> Atoi l | _ => None end.

(** [float64]: a literal beyond the largest float is an error. *)
Definition parse_float (lit : bytes) : option spec_float :=
  let '(neg, m, e) := number_parts lit in
  match float_of_decimal m e with
  | S754_infinity _ | S754_nan => None
  | x => Some (if neg then SFopp x else x)
  end.

Definition float_ptr (k : bytes) (m : object) : option (option spec_float) :=
  match obj_get k m with JNull => Some None | JNum l => Some <$> parse_float l | _ => None end.

Lemma parse_float_itoa m : 0 <= m < 2 ^ 53 → parse_float (itoa m) = Some (sf_of_Z m).
Proof.
  intros Hm. unfold parse_float. rewrite number_parts_itoa by lia. unfold float_of_decimal. cbn [Z.leb Z.compare Z.pow].
  rewrite Z.mul_1_r. by destruct (sf_of_Z_form m Hm) as [-> | (k & e & ->)].
Qed.

(** A pointer to a struct. *)
Definition ptr_field {A} (dec : object → option A) (k : bytes) (m : object) : option (option A) :=
  match obj_get k m with JNull => Some None | JObj o => Some <$> dec o | _ => None end.

(** A [jsontext.Value] member: empty when absent, the value null when null. *)
Definition raw_field (k : string) (m : object) : option json :=
  if bool_decide (B k ∈ m.*1) then Some (obj_get (B k) m) else None.

(** [json.Unmarshal(raw, &s)] for a string; an empty value is an error. *)
Definition unmarshal_string (v : option json) : option bytes :=
  match v with Some (JStr s) => Some s | Some JNull => Some [] | _ => None end.

Definition unmarshal_struct {A} (dec : object → option A) (v : option json) : option A :=
  j ← v; o ← as_struct j; dec o.

Definition unmarshal_slice {A} (dec : object → option A) (v : option json) : option (list A) :=
  match v with
  | Some JNull => Some []
  | Some (JArr l) => mapM (λ j, o ← as_struct j; dec o) l
  | _ => None
  end.

(** A pointer to a string. *)
Definition str_ptr (k : bytes) (m : object) : option (option bytes) :=
  match obj_get k m with JNull => Some None | JStr s => Some (Some s) | _ => None end.
