(* ===== verification/RetryAfter.v ===== *)
(** * How long a rate limit asks to wait ([internal/handlers/chat/retry_after.go],
    the reset readers of [fallback.go])

    Reading the carriers of a wait from an upstream error, the wait and the
    account cooldown derived from it, and the answer a fully failed combo gives. *)

From S2P Require Import Prelude GoRegexp Json GoText.

Definition Second : Z := 1000000000.

(** [proxy.UpstreamError]; of the headers only [Retry-After] is read here. *)
Record upstreamError := MkUE {
  ue_StatusCode : Z;
  ue_Body : bytes;
  ue_RetryAfter : bytes
}.

(** The calendar of [time] and [net/http]: instants in nanoseconds. *)
Class GoTime := {
  ParseRFC3339 : bytes → option Z;
  FormatRFC3339 : Z → bytes;
  ParseHTTPTime : bytes → option Z
}.

Definition brief429RetryTolerance : Z := 2 * Second.
Definition comboRetryWaitCap : Z := 8 * Second.
Definition minResetCooldown : Z := 5 * Second.
Definition maxResetCooldown : Z := 2 * 3600 * Second.

Definition comboPassRetryWait (earliest : Z) (rateLimited : bool) : Z :=
  let limit := if rateLimited then brief429RetryTolerance else comboRetryWaitCap in
  if (earliest <=? 0) || (limit <? earliest) then 0 else earliest.

Definition ceilSeconds (d : Z) : Z :=
  if d <=? 0 then 0 else Z.quot (int64 (d + Second - 1)) Second.

Definition clampResetDuration (dur : Z) : Z :=
  if dur <? minResetCooldown then minResetCooldown
  else if maxResetCooldown <? dur then maxResetCooldown
  else dur.

(** ** Durations in headers and bodies *)

(** [secs * time.Second] in 64-bit arithmetic. *)
Definition seconds (secs : Z) : Z := int64 (secs * Second).

Definition positive (d : Z) : option Z := if 0 <? d then Some d else None.

Definition parseDurationString (v : bytes) : option Z :=
  let v := trim_dots (trim_space v) in
  if bool_decide (v = []) then None
  else match ParseDuration v with
       | Some d => positive d
       | None => match Atoi v with
                 | Some secs => if 0 <? secs then Some (seconds secs) else None
                 | None => None
                 end
       end.

Section Carriers.
Context `{GoTime} `{JsonCodec}.

Definition parseRetryAfterHeader (now : Z) (v : bytes) : option Z :=
  let v := trim_space v in
  if bool_decide (v = []) then None
  else match Atoi v with
       | Some secs => if secs <=? 0 then None else Some (seconds secs)
       | None => match ParseHTTPTime v with Some t => positive (t - now) | None => None end
       end.

Definition parseRetryAfterValue (now : Z) (v : bytes) : option Z :=
  let v := trim_space v in
  if bool_decide (v = []) then None
  else match ParseRFC3339 v with
       | Some t => positive (t - now)
       | None => parseDurationString v
       end.

(** [(?i)resets?\s+in\s+([0-9hms\.]+)]: the text of the group. *)
Definition re_space : re := RClass (λ c, bool_decide (c ∈ map bz [9; 10; 12; 13; 32])).
Definition resets_in_prefix : re :=
  rseq [fold_lit "reset"; ropt (fold_lit "s"); rplus re_space; fold_lit "in"; rplus re_space].
Definition resets_in_group : re :=
  rplus (fold_class (λ c, is_digit c || bool_decide (c ∈ ["h"; "m"; "s"; "."]%char))).

Fixpoint resets_in (s : bytes) (prev : option ascii) : option bytes :=
  match rmatch resets_in_prefix prev s
          (λ p t, rmatch resets_in_group p t (λ _ u, Some (take (length t - length u) t))) with
  | Some g => Some g
  | None => match s with [] => None | c :: s' => resets_in s' (Some c) end
  end.

Definition reset_duration (raw : bytes) : option Z :=
  match ParseDuration (trim_dots raw) with
  | Some dur => if 0 <? dur then Some (clampResetDuration dur) else None
  | None => None
  end.

(** [map[string]string]. *)
Definition string_map (m : object) : option (list (bytes * bytes)) :=
  mapM (λ kv, match kv.2 with JNull => Some (kv.1, []) | JStr s => Some (kv.1, s) | _ => None end) m.

Definition map_get (k : bytes) (m : list (bytes * bytes)) : bytes :=
  match List.find (λ kv, bool_decide (kv.1 = k)) m with Some kv => kv.2 | None => [] end.

(** The message and the metadata of each detail of a google.rpc error. *)
Definition rpc_error (j : json) : option (bytes * list (list (bytes * bytes))) :=
  root ← as_struct j;
  err ← obj_field (B "error") root;
  msg ← str_field (B "message") err;
  details ← arr_field (B "details") err;
  metas ← mapM (λ d, o ← as_struct d; m ← obj_field (B "metadata") o; string_map m) details;
  Some (msg, metas).

Fixpoint first_delay (metas : list (list (bytes * bytes))) : option Z :=
  match metas with
  | [] => None
  | m :: metas' =>
      let delay := map_get (B "quotaResetDelay") m in
      if bool_decide (delay = []) then first_delay metas'
      else match reset_duration delay with Some d => Some d | None => first_delay metas' end
  end.

Definition reset_in_text (text : bytes) : option Z := resets_in text None ≫= reset_duration.

Definition extractResetDuration (body : bytes) : option Z :=
  if bool_decide (body = []) then None
  else
    let structured :=
      match unmarshal body ≫= rpc_error with
      | Some (msg, metas) =>
          match first_delay metas with
          | Some d => Some d
          | None => if bool_decide (msg = []) then None else reset_in_text msg
          end
      | None => None
      end in
    match structured with Some d => Some d | None => reset_in_text body end.

(** The first non-empty of the five fields. *)
Definition retry_fields (j : json) : option (list bytes) :=
  root ← as_struct j;
  a ← str_field (B "retryAfter") root;
  b ← str_field (B "retry_after") root;
  c ← str_field (B "resetsAt") root;
  d ← str_field (B "resets_at") root;
  err ← obj_field (B "error") root;
  e ← str_field (B "retryAfter") err;
  Some [a; b; c; d; e].

Definition extractRetryAfter (now : Z) (body : bytes) : bytes :=
  match extractResetDuration body with
  | Some dur => FormatRFC3339 (now + dur)
  | None =>
      match unmarshal body ≫= retry_fields with
      | Some fs => default [] (List.find (λ f, negb (bool_decide (f = []))) fs)
      | None => []
      end
  end.

(** The type, delay and metadata delay of each detail. *)
Definition retry_details (j : json) : option (list (bytes * bytes * bytes)) :=
  root ← as_struct j;
  err ← obj_field (B "error") root;
  details ← arr_field (B "details") err;
  mapM (λ d, o ← as_struct d; t ← str_field (B "@type") o; r ← str_field (B "retryDelay") o;
             m ← obj_field (B "metadata") o; mr ← str_field (B "retryDelay") m; Some (t, r, mr)) details.

Fixpoint first_retry_delay (ds : list (bytes * bytes * bytes)) : option Z :=
  match ds with
  | [] => None
  | (t, r, mr) :: ds' =>
      if negb (contains (B "RetryInfo") t) && bool_decide (r = []) && bool_decide (mr = [])
      then first_retry_delay ds'
      else match parseDurationString r with
           | Some dur => Some dur
           | None => match parseDurationString mr with
                     | Some dur => Some dur
                     | None => first_retry_delay ds'
                     end
           end
  end.

Definition retryInfoDelay (body : bytes) : option Z :=
  if bool_decide (body = []) then None
  else match unmarshal body ≫= retry_details with
       | Some ds => first_retry_delay ds
       | None => None
       end.

(** ** The wait of an error

    [clock i] is the [i]-th reading of the clock during the call. *)
Definition longer (longest : option Z) (d : option Z) : option Z :=
  match d with
  | Some d => if default 0 longest <? d then Some d else longest
  | None => longest
  end.

Definition carriers (clock : nat → Z) (ue : upstreamError) : list (option Z) :=
  [ parseRetryAfterHeader (clock 0%nat) (ue_RetryAfter ue);
    retryInfoDelay (ue_Body ue);
    parseRetryAfterValue (clock 2%nat) (extractRetryAfter (clock 1%nat) (ue_Body ue)) ].

Definition retryAfterWait (clock : nat → Z) (ue : upstreamError) : option Z :=
  foldl longer None (carriers clock ue).

Definition retryableCooldownSec (clock : nat → Z) (statusCode base : Z) (ue : upstreamError) : Z :=
  let cooldown :=
    if statusCode =? 429 then default base (retryAfterWait clock ue)
    else default base (extractResetDuration (ue_Body ue)) in
  ceilSeconds (Z.min cooldown maxResetCooldown).

(** ** The bookkeeping of a combo pass *)

Record passRetry := MkPass { earliest : Z; rateLimited : bool }.

Definition pass_reset : passRetry := MkPass 0 false.

Definition note (clock : nat → Z) (ue : upstreamError) (p : passRetry) : passRetry :=
  let limited := rateLimited p || (ue_StatusCode ue =? 429) in
  match retryAfterWait clock ue with
  | Some wait => MkPass (if (earliest p =? 0) || (wait <? earliest p) then wait else earliest p) limited
  | None => MkPass (earliest p) limited
  end.

Definition wait (p : passRetry) : Z := comboPassRetryWait (earliest p) (rateLimited p).

(** ** The answer *)

Definition formatRetryAfter (now : Z) (iso : bytes) : bytes :=
  if bool_decide (iso = []) then []
  else match ParseRFC3339 iso with
       | None => []
       | Some parsed =>
           let remaining := parsed - now in
           if remaining <=? 0 then B "reset after 0s"
           else
             let totalSec := Z.quot (int64 (remaining + Second - 1)) Second in
             let h := totalSec / 3600 in
             let m := (totalSec mod 3600) / 60 in
             let s := totalSec mod 60 in
             let parts := (if 0 <? h then [itoa h ++ B "h"] else []) ++
                          (if 0 <? m then [itoa m ++ B "m"] else []) in
             let parts := parts ++ (if (0 <? s) || bool_decide (parts = []) then [itoa s ++ B "s"] else []) in
             B "reset after " ++ join (B " ") parts
       end.

Record Response := MkResp { r_Status : Z; r_RetryAfter : option bytes; r_Body : bytes }.

Definition writeError (clock : nat → Z) (p : passRetry) (lastErr : upstreamError) : Response :=
  if 0 <? earliest p then
    let sec := Z.max (ceilSeconds (earliest p)) 1 in
    let header := Some (itoa sec) in
    let retryAt := FormatRFC3339 (clock 0%nat + earliest p) in
    let retryHuman := formatRetryAfter (clock 1%nat) retryAt in
    let untouched := MkResp (ue_StatusCode lastErr) header (ue_Body lastErr) in
    match unmarshal (ue_Body lastErr) with
    | Some (JObj errBody) =>
        match obj_get (B "error") errBody with
        | JObj errObj =>
            match obj_get (B "message") errObj with
            | JStr msg =>
                if bool_decide (msg = []) then untouched
                else
                  let errObj := obj_put (B "message") (JStr (msg ++ B " (" ++ retryHuman ++ B ")")) errObj in
                  let errObj := obj_put (B "reset_at") (JStr retryAt) errObj in
                  let errObj := obj_put (B "retry_after") (JNum (itoa sec)) errObj in
                  MkResp (ue_StatusCode lastErr) header
                    (marshal (JObj (obj_set (B "error") (JObj errObj) errBody)))
            | _ => untouched
            end
        | _ => untouched
        end
    | _ => untouched
    end
  else MkResp (ue_StatusCode lastErr) None (ue_Body lastErr).

End Carriers.

(** ** Properties *)

Section Facts.
Context `{GoTime} `{JsonCodec} (clock : nat → Z).

(** The longest of a list of waits, none when no wait is positive. *)
Lemma longer_spec ds : ∀ acc, (∀ d, acc = Some d → 0 < d) →
  match foldl longer acc ds with
  | Some d => 0 < d ∧ (acc = Some d ∨ Some d ∈ ds) ∧ default 0 acc <= d ∧ (∀ x, Some x ∈ ds → x <= d)
  | None => acc = None ∧ ∀ x, Some x ∈ ds → x <= 0
  end.
Proof.
  induction ds as [|o ds IH]; intros acc Ha; cbn [foldl].
  - destruct acc as [d|]; [|by split; [|intros x ?%elem_of_nil]].
    split_and!; [by apply Ha|by left|done|by intros x ?%elem_of_nil].
  - assert (∀ d, longer acc o = Some d → 0 < d) as Ha'.
    { intros d. destruct o as [x|]; cbn; [|by apply Ha]. case (Z.ltb_spec (default 0 acc) x); intros Hx E; [|by apply Ha].
      destruct acc as [a|]; cbn in *; simplify_eq; [pose proof (Ha a eq_refl)|]; lia. }
    specialize (IH (longer acc o) Ha'). destruct (foldl longer (longer acc o) ds) as [d|].
    + destruct IH as (H1 & H2 & H3 & H4). split; [done|].
      assert (default 0 acc <= default 0 (longer acc o) ∧ (∀ x, o = Some x → x <= default 0 (longer acc o))) as [H5 H6].
      { destruct o as [x|]; cbn; [|done]. case (Z.ltb_spec (default 0 acc) x); cbn; naive_solver lia. }
      split_and!; [|lia|].
      * destruct H2 as [H2|H2]; [|right; by right]. destruct o as [x|]; cbn in H2; [|by left].
        destruct (default 0 acc <? x); [right; rewrite H2; by left|by left].
      * intros x [Hx|Hx]%elem_of_cons; [specialize (H6 x (eq_sym Hx)); lia|by apply H4].
    + destruct IH as [H1 H2]. destruct o as [x|]; cbn in H1.
      * revert H1. case (Z.ltb_spec (default 0 acc) x); [done|]. intros Hx ->. cbn in Hx.
        split; [done|]. intros y [[= ->]|Hy]%elem_of_cons; [done|by apply H2].
      * split; [done|]. intros y [?|Hy]%elem_of_cons; [done|by apply H2].
Qed.

Lemma retryAfterWait_spec ue :
  match retryAfterWait clock ue with
  | Some d => 0 < d ∧ Some d ∈ carriers clock ue ∧ ∀ x, Some x ∈ carriers clock ue → x <= d
  | None => ∀ x, Some x ∈ carriers clock ue → x <= 0
  end.
Proof.
  pose proof (longer_spec (carriers clock ue) None ltac:(done)) as Hs. unfold retryAfterWait.
  destruct (foldl _ _ _); [|by destruct Hs]. destruct Hs as (? & [?|?] & ? & ?); done.
Qed.

Lemma retryAfterWait_pos ue d : retryAfterWait clock ue = Some d → 0 < d.
Proof. intros E. pose proof (retryAfterWait_spec ue) as Hs. rewrite E in Hs. tauto. Qed.

(** The waits a list of failures asked for. *)
Definition waits (ues : list upstreamError) : list Z := omap (retryAfterWait clock) ues.
Definition pass_of (ues : list upstreamError) : passRetry := foldl (λ p ue, note clock ue p) pass_reset ues.

Lemma waits_pos ues x : x ∈ waits ues → 0 < x.
Proof. intros (ue & _ & E)%list_elem_of_omap. by eapply retryAfterWait_pos. Qed.

Lemma pass_of_snoc ues ue : pass_of (ues ++ [ue]) = note clock ue (pass_of ues).
Proof. unfold pass_of. by rewrite foldl_app. Qed.

Lemma pass_of_spec ues :
  (rateLimited (pass_of ues) = true ↔ ∃ ue, ue ∈ ues ∧ ue_StatusCode ue = 429) ∧
  (waits ues = [] → earliest (pass_of ues) = 0) ∧
  (waits ues ≠ [] → earliest (pass_of ues) ∈ waits ues ∧ ∀ x, x ∈ waits ues → earliest (pass_of ues) <= x).
Proof.
  induction ues as [|ue ues (IH1 & IH2 & IH3)] using rev_ind.
  { split_and!; [|done|done]. split; [done|]. by intros (? & ?%elem_of_nil & _). }
  rewrite pass_of_snoc. unfold note. split.
  - assert (rateLimited (pass_of ues) || (ue_StatusCode ue =? 429) = true ↔
      ∃ u, u ∈ ues ++ [ue] ∧ ue_StatusCode u = 429) as Hl.
    { rewrite orb_true_iff, IH1, Z.eqb_eq. setoid_rewrite elem_of_app. setoid_rewrite list_elem_of_singleton. naive_solver. }
    by destruct (retryAfterWait clock ue); cbn [rateLimited].
  - unfold waits in *. rewrite omap_app. cbn [omap list_omap].
    destruct (retryAfterWait clock ue) as [w|] eqn:Ew; cbn [earliest]; [|rewrite app_nil_r; done].
    split; [by intros [_ ?]%app_eq_nil|]. intros _. pose proof (retryAfterWait_pos ue w Ew) as Hw.
    setoid_rewrite elem_of_app. setoid_rewrite list_elem_of_singleton.
    destruct (decide (omap (retryAfterWait clock) ues = [])) as [E|E].
    + rewrite (IH2 E). cbn. rewrite E. split; [by right|]. intros x [?%elem_of_nil| ->]; done.
    + destruct (IH3 E) as [H1 H2]. pose proof (waits_pos ues _ H1). rewrite (proj2 (Z.eqb_neq _ _)) by lia. cbn.
      case (Z.ltb_spec w (earliest (pass_of ues))); intros Hlt.
      * split; [by right|]. intros x [Hx| ->]; [specialize (H2 x Hx)|]; lia.
      * split; [by left|]. intros x [Hx| ->]; [by apply H2|lia].
Qed.

Lemma ceilSeconds_spec d : 0 < d <= maxResetCooldown →
  d <= ceilSeconds d * Second < d + Second ∧ 0 < ceilSeconds d <= 7200.
Proof.
  unfold ceilSeconds, maxResetCooldown, Second. intros Hd. case (Z.leb_spec d 0); [lia|]. intros _.
  rewrite int64_id by lia. rewrite Z.quot_div_nonneg by lia.
  pose proof (Z.div_mod (d + 1000000000 - 1) 1000000000 ltac:(lia)).
  pose proof (Z.mod_pos_bound (d + 1000000000 - 1) 1000000000 ltac:(lia)). lia.
Qed.

Lemma reset_duration_pos raw d : reset_duration raw = Some d → 0 < d.
Proof.
  unfold reset_duration. destruct (ParseDuration _) as [dur|]; [|done]. case (Z.ltb_spec 0 dur); [|done]. intros ? [= <-].
  unfold clampResetDuration, minResetCooldown, maxResetCooldown, Second. zcases.
Qed.

Lemma extractResetDuration_pos body d : extractResetDuration body = Some d → 0 < d.
Proof.
  assert (∀ text d, reset_in_text text = Some d → 0 < d) as Htext.
  { intros text x. unfold reset_in_text. destruct (resets_in text None); [|done]. apply reset_duration_pos. }
  assert (∀ metas d, first_delay metas = Some d → 0 < d) as Hmetas.
  { intros metas x. induction metas as [|m metas IH]; [done|]. cbn. case_bool_decide; [done|].
    destruct (reset_duration _) eqn:E; [|done]. intros [= <-]. by eapply reset_duration_pos. }
  unfold extractResetDuration. case_bool_decide; [done|]. destruct (unmarshal body ≫= rpc_error) as [[msg metas]|]; [|apply Htext].
  destruct (first_delay metas) eqn:E; [intros [= <-]; by eapply Hmetas|].
  case_bool_decide; [apply Htext|]. destruct (reset_in_text msg) eqn:Et; [intros [= <-]; by eapply Htext|apply Htext].
Qed.

(** An account that failed is locked for at least a second and at most two
    hours. *)
Lemma retryableCooldown_bounds status base ue : 0 < base → 1 <= retryableCooldownSec clock status base ue <= 7200.
Proof.
  intros Hb. unfold retryableCooldownSec.
  assert (0 < (if status =? 429 then default base (retryAfterWait clock ue) else default base (extractResetDuration (ue_Body ue)))) as Hpos.
  { destruct (status =? 429).
    - destruct (retryAfterWait clock ue) eqn:E; [by eapply retryAfterWait_pos|done].
    - destruct (extractResetDuration _) eqn:E; [by eapply extractResetDuration_pos|done]. }
  set (x := if status =? 429 then _ else _) in *. destruct (ceilSeconds_spec (Z.min x maxResetCooldown)); [|lia].
  unfold maxResetCooldown, Second in *. lia.
Qed.

(** A failed combo pass is repeated only after the smallest wait any of its
    failures asked for, and only when that is at most eight seconds, or two when
    a 429 was among them. The cooldown of a rate-limited account covers the wait
    it asked for, in whole seconds: it ends with the wait exactly when the wait
    is a whole number of seconds, and outlasts it by less than a second
    otherwise. *)
Theorem pass_wait_and_account_lock ues ue w base :
  let p := pass_of ues in
  retryAfterWait clock ue = Some w → w <= maxResetCooldown →
  let cooldown := retryableCooldownSec clock 429 base ue in
  (wait p ≠ 0 → wait p ∈ waits ues ∧ (∀ x, x ∈ waits ues → wait p <= x) ∧
     0 < wait p <= comboRetryWaitCap ∧
     ((∃ u, u ∈ ues ∧ ue_StatusCode u = 429) → wait p <= brief429RetryTolerance)) ∧
  (wait p = 0 → ∀ x, x ∈ waits ues → brief429RetryTolerance < x) ∧
  w <= cooldown * Second < w + Second ∧ (cooldown * Second = w ↔ w mod Second = 0).
Proof.
  intros p Ew Hw cooldown. destruct (pass_of_spec ues) as (H1 & H2 & H3). fold p in H1, H2, H3.
  assert (cooldown = ceilSeconds w) as Hcd.
  { unfold cooldown, retryableCooldownSec. rewrite Z.eqb_refl, Ew. change (default base (Some w)) with w.
    by rewrite Z.min_l. }
  destruct (ceilSeconds_spec w) as [Hc _]; [pose proof (retryAfterWait_pos ue w Ew); lia|].
  assert (wait p ≠ 0 → wait p = earliest p ∧ 0 < earliest p ∧
    earliest p <= (if rateLimited p then brief429RetryTolerance else comboRetryWaitCap)) as Hwait.
  { unfold wait, comboPassRetryWait. case (Z.leb_spec (earliest p) 0); cbn; [done|]. intros ?.
    case (Z.ltb_spec _ (earliest p)); [done|]. lia. }
  split; [|split; [|split]].
  - intros (E & H4 & H5)%Hwait. rewrite E. destruct (decide (waits ues = [])) as [Hn|Hn]; [rewrite H2 in H4 by done; lia|].
    destruct (H3 Hn) as [H6 H7]. split_and!; [done|done|done| |].
    + unfold comboRetryWaitCap, brief429RetryTolerance, Second in *. destruct (rateLimited p); lia.
    + intros Hr%H1. by rewrite Hr in H5.
  - intros E x Hx. destruct (H3 ltac:(intros Hn; rewrite Hn in Hx; by apply elem_of_nil in Hx)) as [H6 H7].
    pose proof (waits_pos ues _ H6) as H8. revert E. unfold wait, comboPassRetryWait.
    case (Z.leb_spec (earliest p) 0); cbn; [lia|]. intros _. specialize (H7 x Hx).
    case (Z.ltb_spec _ (earliest p)); [|lia].
    unfold comboRetryWaitCap, brief429RetryTolerance, Second in *. destruct (rateLimited p); lia.
  - rewrite Hcd. tauto.
  - rewrite Hcd. split; [intros <-; apply Z.mod_mul; unfold Second; lia|]. intros Hm.
    apply Z.mod_divide in Hm as [q Hq]; [|unfold Second; lia]. unfold Second in *. lia.
Qed.

End Facts.

(** A calendar that reads nothing. *)
#[local] Instance no_calendar : GoTime :=
  {| ParseRFC3339 := λ _, None; FormatRFC3339 := λ _, []; ParseHTTPTime := λ _, None |}.
#[local] Existing Instance json_codec.

Definition limited : upstreamError :=
  MkUE 429 (js "{~error~:{~details~:[{~@type~:~type.googleapis.com/google.rpc.RetryInfo~,~retryDelay~:~1.5s~}]}}") [].

(** A rate limit of 1.5 s: the second pass starts after 1.5 s, and the account
    is locked for two. *)
Lemma pass_wait_witness :
  wait (pass_of (λ _, 0) [limited]) = 1500000000 ∧ retryableCooldownSec (λ _, 0) 429 0 limited = 2 ∧
  1500000000 < retryableCooldownSec (λ _, 0) 429 0 limited * Second < 1500000000 + Second.
Proof.
  assert (retryAfterWait (λ _, 0) limited = Some 1500000000) as E by (vm_compute; reflexivity).
  destruct (pass_wait_and_account_lock (λ _, 0) [limited] limited 1500000000 0 E ltac:(vm_compute; discriminate))
    as (_ & _ & [H1 H2] & H3).
  split_and!; [vm_compute; reflexivity|vm_compute; reflexivity| |exact H2].
  vm_compute. reflexivity.
Defined.

Example writeError_sample :
  r_Body (writeError (λ _, 0) (MkPass 1500000000 true) (MkUE 429 (js "{~error~:{~message~:~slow~}}") [])) =
    js "{~error~:{~message~:~slow ()~,~reset_at~:~~,~retry_after~:2}}" ∧
  parseRetryAfterHeader 0 (B " 30 ") = Some (30 * Second) ∧
  extractResetDuration (B "quota: Resets in 1h12m28s.") = Some (4348 * Second).
Proof. by vm_compute. Qed.
