(* ===== verification/ErrorClassify.v ===== *)
(** * Classification of upstream errors ([internal/providers/errorclassify.go],
    [extractErrorText] of [internal/handlers/chat/fallback.go])

    Which failures move a request to another account, how long the failed
    account stays out, and the text the classification reads. *)

From S2P Require Import Prelude GoRegexp Json GoText.

(** ** Rules *)

Record ErrorRule := MkRule {
  er_Text : bytes;        (* empty: not text-based *)
  er_Status : Z;          (* 0: not status-based *)
  er_CooldownMs : Z;
  er_Backoff : bool
}.

Definition BaseMs : Z := 2000.
Definition MaxMs : Z := 5 * 60 * 1000.
Definition MaxLevel : Z := 15.

Definition TransientCooldownMs : Z := 30 * 1000.
Definition cooldownLong : Z := 2 * 60 * 1000.
Definition cooldownShort : Z := 5 * 1000.

Definition text_rule (t : string) (cooldown : Z) : ErrorRule := MkRule (B t) 0 cooldown false.
Definition text_backoff (t : string) : ErrorRule := MkRule (B t) 0 0 true.

Definition ErrorRules : list ErrorRule := [
  text_rule "no credentials" cooldownLong;
  text_rule "request not allowed" cooldownShort;
  text_rule "improperly formed request" cooldownLong;
  text_backoff "rate limit";
  text_backoff "too many requests";
  text_backoff "quota exceeded";
  text_backoff "capacity";
  text_backoff "overloaded";
  text_backoff "resource_exhausted";
  text_backoff "resource has been exhausted";
  text_backoff "model_capacity_exhausted";
  text_backoff "server is temporarily unavailable";
  MkRule [] 401 cooldownLong false;
  MkRule [] 402 cooldownLong false;
  MkRule [] 403 cooldownLong false;
  MkRule [] 404 cooldownLong false;
  MkRule [] 429 0 true;
  MkRule [] 502 0 true;
  MkRule [] 503 0 true;
  MkRule [] 504 0 true ].

Definition ModelFitErrorPatterns : list bytes := map B [
  "context_length_exceeded"; "maximum context length"; "prompt is too long";
  "reduce the length of the messages"; "input is too long"; "too many tokens";
  "context window"; "exceeds the maximum number of tokens" ]%string.

Definition ModelFitStatusCodes (status : Z) : bool := (status =? 400) || (status =? 413) || (status =? 422).

(** [RetryableStatusCodes] of [providers.go]. *)
Definition RetryableStatusCodes (status : Z) : bool :=
  bool_decide (status ∈ [401; 402; 403; 429; 502; 503; 504]).

Section Classify.
Context `{UnicodeCase}.

Definition IsModelFitError (statusCode : Z) (body : bytes) : bool :=
  if negb (ModelFitStatusCodes statusCode) || bool_decide (body = []) then false
  else let text := to_lower body in existsb (λ p, contains p text) ModelFitErrorPatterns.

(** ** Backoff

    The product is computed in binary64, exact below [2^63]; what a conversion
    out of the range of [int] yields depends on the machine. *)
Variable out_of_range : Z → Z.

Definition GetQuotaCooldown (backoffLevel : Z) : Z :=
  let level := Z.max (int64 (backoffLevel - 1)) 0 in
  let product := BaseMs * 2 ^ level in
  let cooldown := if product <? 2 ^ 63 then product else out_of_range level in
  Z.min cooldown MaxMs.

Record ErrorClassification := MkClass {
  ShouldFallback : bool;
  CooldownMs : Z;
  NewBackoffLevel : Z
}.

Definition apply_rule (rule : ErrorRule) (backoffLevel : Z) : ErrorClassification :=
  if er_Backoff rule then
    let newLevel := Z.min (int64 (backoffLevel + 1)) MaxLevel in
    MkClass true (GetQuotaCooldown newLevel) newLevel
  else MkClass true (er_CooldownMs rule) backoffLevel.

Fixpoint classify_loop (rules : list ErrorRule) (statusCode : Z) (lowerError : bytes) (backoffLevel : Z)
    : option ErrorClassification :=
  match rules with
  | [] => None
  | rule :: rules' =>
      if negb (bool_decide (er_Text rule = [])) && negb (bool_decide (lowerError = [])) &&
         contains (er_Text rule) lowerError
      then Some (apply_rule rule backoffLevel)
      else if negb (er_Status rule =? 0) && (er_Status rule =? statusCode)
      then Some (apply_rule rule backoffLevel)
      else classify_loop rules' statusCode lowerError backoffLevel
  end.

Definition ClassifyError (statusCode : Z) (errorText : bytes) (backoffLevel : Z) : ErrorClassification :=
  let lowerError := if bool_decide (errorText = []) then [] else to_lower errorText in
  match classify_loop ErrorRules statusCode lowerError backoffLevel with
  | Some c => c
  | None =>
      if (400 <=? statusCode) && (statusCode <? 500) && negb (statusCode =? 401) &&
         negb (statusCode =? 402) && negb (statusCode =? 403) && negb (statusCode =? 429)
      then MkClass false 0 0
      else MkClass true TransientCooldownMs backoffLevel
  end.

End Classify.

(** ** The text of an error body

    [None] is the slice out of range that panics. *)
Definition slice_opt (s : bytes) (a b : nat) : option bytes :=
  if ((a <=? b) && (b <=? length s))%nat then Some (take (b - a) (drop a s)) else None.

Definition detail_reasons (l : list json) : option (list bytes) :=
  mapM (λ d, o ← as_struct d; str_field (B "reason") o) l.

(** The struct [extractErrorText] decodes into: message, status and reasons of
    the error object, and the message at the root. *)
Definition error_fields (j : json) : option (bytes * bytes * list bytes * bytes) :=
  root ← as_struct j;
  err ← obj_field (B "error") root;
  msg ← str_field (B "message") err;
  status ← str_field (B "status") err;
  details ← arr_field (B "details") err;
  reasons ← detail_reasons details;
  root_msg ← str_field (B "message") root;
  Some (msg, status, reasons, root_msg).

Definition nonempty (s : bytes) : bool := negb (bool_decide (s = [])).

Lemma nonempty_true s : s ≠ [] → nonempty s = true.
Proof. by destruct s. Qed.

Definition error_parts (f : bytes * bytes * list bytes * bytes) : list bytes :=
  let '(msg, status, reasons, root_msg) := f in
  (if nonempty msg then [msg] else if nonempty root_msg then [root_msg] else []) ++
  (if nonempty status then [status] else []) ++ filter (λ r, nonempty r = true) reasons.

Section ErrorText.
Context `{UnicodeCase} `{JsonCodec}.

Definition is_html (s : bytes) : bool := has_prefix (B "<!DOCTYPE html") s || has_prefix (B "<html") s.

(** What an HTML page says, as both readers of error pages look it up. *)
Inductive html_page := Cloudflare | Titled (title : bytes) | Untitled.

Definition read_html (trimmed : bytes) : option html_page :=
  let lower := to_lower trimmed in
  if contains (B "cloudflare") lower || contains (B "attention required") lower then Some Cloudflare
  else match index_of (B "<title>") lower with
       | None => Some Untitled
       | Some titleStart =>
           match index_of (B "</title>") (drop titleStart lower) with
           | None => Some Untitled
           | Some titleEnd =>
               title ← slice_opt trimmed (titleStart + 7) (titleStart + titleEnd);
               Some (Titled (trim_space title))
           end
       end.

Definition waf_text : bytes :=
  B "Cloudflare WAF challenge (Attention Required!): check User-Agent or network proxy".

Definition html_error_text (trimmed : bytes) : option bytes :=
  page ← read_html trimmed;
  Some match page with
       | Cloudflare => waf_text
       | Titled title => B "upstream returned HTML: " ++ title
       | Untitled => B "upstream returned HTML error page"
       end.

(** [UpstreamError.Error]. *)
Definition UpstreamError_Error (status : Z) (body : bytes) : option bytes :=
  let prefix := B "upstream returned " ++ itoa status in
  let body := trim_space body in
  if is_html body then
    page ← read_html body;
    Some (prefix ++ B ": " ++
          match page with
          | Cloudflare => waf_text
          | Titled title => B "HTML page (" ++ title ++ B ")"
          | Untitled => B "HTML error page"
          end)
  else
    let body := if 512 <? zlen body then take 512 body ++ B "... (truncated)" else body in
    if bool_decide (body = []) then Some prefix else Some (prefix ++ B ": " ++ body).

Definition extractErrorText (body : bytes) : option bytes :=
  let parts := match unmarshal body ≫= error_fields with Some f => error_parts f | None => [] end in
  match parts with
  | _ :: _ => Some (join (B " ") parts)
  | [] =>
      let trimmed := trim_space body in
      if is_html trimmed then html_error_text trimmed else Some []
  end.

End ErrorText.

(** ** Properties of the classification *)

Section ClassifyFacts.
Context `{UnicodeCase} (oor : Z → Z).

Definition text_matches (errorText : bytes) (rule : ErrorRule) : bool :=
  nonempty (er_Text rule) && contains (er_Text rule) (to_lower errorText).

(** The statuses that blame the request and match no rule of their own. *)
Definition request_scoped (status : Z) : Prop :=
  400 <= status < 500 ∧ status ∉ [401; 402; 403; 404; 429].

Definition status_rule (status : Z) (rule : ErrorRule) : bool :=
  negb (er_Status rule =? 0) && (er_Status rule =? status).

Lemma GetQuotaCooldown_level l : l <= 15 → - 2 ^ 63 < l →
  GetQuotaCooldown oor l = Z.min (2000 * 2 ^ Z.max (l - 1) 0) MaxMs.
Proof.
  intros Hl Hlo. unfold GetQuotaCooldown, BaseMs. rewrite int64_id by lia.
  assert (2 ^ Z.max (l - 1) 0 <= 2 ^ 14) by (apply Z.pow_le_mono_r; lia).
  case (Z.ltb_spec (2000 * 2 ^ Z.max (l - 1) 0) (2 ^ 63)); intros; lia.
Qed.

Lemma GetQuotaCooldown_bounds l : l <= 15 → - 2 ^ 63 < l →
  2000 <= GetQuotaCooldown oor l <= MaxMs.
Proof.
  intros Hl Hlo. rewrite GetQuotaCooldown_level by done.
  assert (2 ^ 0 <= 2 ^ Z.max (l - 1) 0) by (apply Z.pow_le_mono_r; lia). unfold MaxMs. lia.
Qed.

Lemma contains_nil p : nonempty p = true → contains p [] = false.
Proof. destruct p; [done|reflexivity]. Qed.

Lemma classify_loop_app rs1 rs2 status text lvl :
  Forall (λ r, er_Status r = 0) rs1 → Forall (λ r, er_Text r = []) rs2 →
  classify_loop oor (rs1 ++ rs2) status (to_lower text) lvl =
    match List.find (text_matches text) (rs1 ++ rs2) with
    | Some r => Some (apply_rule oor r lvl)
    | None => (λ r, apply_rule oor r lvl) <$> List.find (status_rule status) rs2
    end.
Proof.
  intros H1 H2. induction H1 as [|r rs1 Hr H1 IH]; cbn.
  - induction H2 as [|r rs2 Hr H2 IH]; cbn; [done|]. unfold text_matches at 1, status_rule at 1. rewrite Hr. cbn.
    destruct (_ && (er_Status r =? status)) eqn:Es; [|exact IH].
    destruct (List.find (text_matches text) rs2) as [r'|] eqn:Ef; [|done].
    apply List.find_some in Ef as [Hin Hm]. rewrite Forall_forall in H2. unfold text_matches in Hm.
    rewrite (H2 r') in Hm by by apply list_elem_of_In. done.
  - rewrite Hr. cbn. unfold text_matches at 1, nonempty.
    destruct (bool_decide (er_Text r = [])) eqn:Et; cbn; [exact IH|].
    destruct (bool_decide (to_lower text = [])) eqn:El; cbn; [|by destruct (contains _ _)].
    bsplit. rewrite El, contains_nil; [by rewrite <- El at 1|]. unfold nonempty. by rewrite bool_decide_eq_false_2.
Qed.

Definition ruled_statuses : list Z := [401; 402; 403; 404; 429; 502; 503; 504].

Lemma no_status_rule status : List.find (status_rule status) (drop 12 ErrorRules) = None →
  bool_decide (status ∈ ruled_statuses) = false.
Proof.
  intros Hf. apply bool_decide_eq_false_2. intros Hs. revert Hf. unfold ruled_statuses in Hs.
  repeat (apply elem_of_cons in Hs as [->|Hs]; [vm_compute; done|]). by apply elem_of_nil in Hs.
Qed.

Lemma status_rule_range r : r ∈ drop 12 ErrorRules →
  er_Status r ∈ [401; 402; 403; 404; 429] ∨ 500 <= er_Status r.
Proof.
  revert r. apply Forall_forall. cbn [drop ErrorRules].
  repeat (apply Forall_cons_2); try apply Forall_nil_2; cbn; (right; lia) || (left; set_solver).
Qed.

(** What decides a classification: the first text rule found in the text, else
    the rule of the status, else the default of its range. *)
Lemma ClassifyError_cases status text lvl :
  ClassifyError oor status text lvl =
    match List.find (text_matches text) ErrorRules with
    | Some r => apply_rule oor r lvl
    | None =>
        match List.find (status_rule status) (drop 12 ErrorRules) with
        | Some r => apply_rule oor r lvl
        | None => if bool_decide (400 <= status < 500) then MkClass false 0 0
                  else MkClass true TransientCooldownMs lvl
        end
    end.
Proof.
  unfold ClassifyError.
  replace (if bool_decide (text = []) then [] else to_lower text) with (to_lower text)
    by (case_bool_decide; [by subst|done]).
  change ErrorRules with (take 12 ErrorRules ++ drop 12 ErrorRules) at 1.
  rewrite classify_loop_app by (repeat constructor).
  change (take 12 ErrorRules ++ drop 12 ErrorRules) with ErrorRules.
  destruct (List.find (text_matches text) ErrorRules) as [r|]; [done|].
  destruct (List.find (status_rule status) (drop 12 ErrorRules)) as [r|] eqn:Ef; [done|]. cbn [fmap option_fmap option_map].
  pose proof (no_status_rule status Ef) as Hne%bool_decide_eq_false.
  rewrite !(proj2 (Z.eqb_neq _ _)) by (intros ->; by vm_compute in Ef).
  cbn [negb]. rewrite !andb_true_r. by case_bool_decide; zcases.
Qed.

Lemma apply_rule_bounds r lvl : r ∈ ErrorRules → - 2 ^ 63 <= lvl < 2 ^ 63 - 1 →
  ShouldFallback (apply_rule oor r lvl) = true ∧ 0 < CooldownMs (apply_rule oor r lvl) <= MaxMs ∧
  (NewBackoffLevel (apply_rule oor r lvl) = lvl ∨ NewBackoffLevel (apply_rule oor r lvl) = Z.min (lvl + 1) MaxLevel).
Proof.
  intros Hin Hl. unfold apply_rule. rewrite int64_id by lia.
  assert (er_Backoff r = true ∨ 0 < er_CooldownMs r <= MaxMs) as Hr.
  { revert r Hin. apply Forall_forall. unfold ErrorRules. repeat (apply Forall_cons_2); try apply Forall_nil_2; cbn; unfold MaxMs, cooldownLong, cooldownShort; (by left) || (right; lia). }
  pose proof (GetQuotaCooldown_bounds (Z.min (lvl + 1) MaxLevel) ltac:(unfold MaxLevel; lia) ltac:(unfold MaxLevel; lia)).
  destruct (er_Backoff r); cbn; [split_and!; [done|lia|lia|by right]|].
  destruct Hr as [|Hr]; [done|]. split_and!; [done|lia|lia|by left].
Qed.

Lemma classify_contract status text level : - 2 ^ 63 <= level < 2 ^ 63 - 1 →
  let c := ClassifyError oor status text level in
  (ShouldFallback c = false ↔ request_scoped status ∧ List.find (text_matches text) ErrorRules = None) ∧
  (ShouldFallback c = true → 0 < CooldownMs c <= MaxMs ∧
     (NewBackoffLevel c = level ∨ NewBackoffLevel c = Z.min (level + 1) MaxLevel)) ∧
  (RetryableStatusCodes status = true → ShouldFallback c = true) ∧
  (∀ r, List.find (text_matches text) ErrorRules = Some r → c = apply_rule oor r level).
Proof.
  intros Hl c. subst c. rewrite ClassifyError_cases.
  assert (∀ l r, List.find l ErrorRules = Some r → r ∈ ErrorRules) as Hin
    by (intros l r [? _]%List.find_some; by apply list_elem_of_In).
  destruct (List.find (text_matches text) ErrorRules) as [r|] eqn:Et.
  { destruct (apply_rule_bounds r level (Hin _ _ Et) Hl) as (H1 & H2 & H3). rewrite H1.
    split_and!; [naive_solver|done|done|by intros ? [= ->]]. }
  destruct (List.find (status_rule status) (drop 12 ErrorRules)) as [r|] eqn:Es.
  { assert (r ∈ ErrorRules) as Hr.
    { apply List.find_some in Es as [Hi%list_elem_of_In _]. by apply (subseteq_drop 12 ErrorRules). }
    destruct (apply_rule_bounds r level Hr Hl) as (H1 & H2 & H3). rewrite H1.
    split_and!; [|done|done|done]. split; [done|]. intros [[Hr4 Hs] _]. exfalso.
    apply List.find_some in Es as [Hi%list_elem_of_In Hm]. unfold status_rule in Hm.
    apply andb_prop in Hm as [_ Hm%Z.eqb_eq]. subst status. revert Hr4 Hs.
    assert (er_Status r ∈ [401; 402; 403; 404; 429] ∨ 500 <= er_Status r) as [?|?]; [|done|lia].
    by apply status_rule_range. }
  pose proof (no_status_rule status Es) as Hno%bool_decide_eq_false. unfold ruled_statuses in Hno.
  case_bool_decide as H4; cbn; unfold MaxMs, TransientCooldownMs, RetryableStatusCodes.
  - split_and!; [|done| |done].
    + split; [|done]. intros _. split; [|done]. split; [done|]. set_solver.
    + intros Hr%bool_decide_eq_true. set_solver.
  - split_and!; [|intros _; split; [lia|by left]|done|done]. split; [done|]. by intros [[? _] _].
Qed.

(** A failure keeps the account in rotation only when it blames the
    request: a 4xx with no rule of its own and no rule's text in the message.
    Every other failure moves on with a cooldown between 1 ms and five minutes
    and a backoff level that stays or grows by one up to 15; every status the
    fallback retries on is among them. A rule found in the text decides before
    the status does. *)
Theorem ClassifyError_contract status text level : - 2 ^ 63 <= level < 2 ^ 63 - 1 →
  let c := ClassifyError oor status text level in
  (ShouldFallback c = false ↔ request_scoped status ∧ List.find (text_matches text) ErrorRules = None) ∧
  (ShouldFallback c = true → 0 < CooldownMs c <= MaxMs ∧
     (NewBackoffLevel c = level ∨ NewBackoffLevel c = Z.min (level + 1) MaxLevel)) ∧
  (RetryableStatusCodes status = true → ShouldFallback c = true) ∧
  (∀ r, List.find (text_matches text) ErrorRules = Some r → c = apply_rule oor r level).
Proof. apply classify_contract. Qed.

(** Consecutive failures of the same kind, starting from level 0. *)
Fixpoint level_after (status : Z) (text : bytes) (n : nat) : Z :=
  match n with
  | O => 0
  | S n' => NewBackoffLevel (ClassifyError oor status text (level_after status text n'))
  end.

(** The failures answered with exponential backoff. *)
Definition backs_off (status : Z) (text : bytes) : bool :=
  match List.find (text_matches text) ErrorRules with
  | Some r => er_Backoff r
  | None => bool_decide (status ∈ [429; 502; 503; 504])
  end.

Lemma backs_off_rule status text lvl : backs_off status text = true →
  ∃ r, er_Backoff r = true ∧ ClassifyError oor status text lvl = apply_rule oor r lvl.
Proof.
  unfold backs_off. rewrite ClassifyError_cases.
  destruct (List.find (text_matches text) ErrorRules) as [r|]; [by exists r|].
  intros Hs%bool_decide_eq_true.
  repeat (apply elem_of_cons in Hs as [->|Hs]; [by eexists (MkRule [] _ 0 true)|]). by apply elem_of_nil in Hs.
Qed.

Lemma level_after_min status text n : backs_off status text = true →
  level_after status text n = Z.min (Z.of_nat n) MaxLevel.
Proof.
  intros Hb. induction n as [|n IH]; [done|]. cbn [level_after]. rewrite IH.
  destruct (backs_off_rule status text (Z.min (Z.of_nat n) MaxLevel) Hb) as (r & Hr & ->).
  unfold apply_rule. rewrite Hr. cbn. unfold MaxLevel. rewrite int64_id; lia.
Qed.

(** Consecutive rate limits of an account double its cooldown from two
    seconds, and hold it at five minutes from the ninth on, for ever. *)
Theorem backoff_doubles_to_cap status text n : backs_off status text = true →
  CooldownMs (ClassifyError oor status text (level_after status text n)) = Z.min (2000 * 2 ^ Z.of_nat n) MaxMs.
Proof.
  intros Hb. rewrite level_after_min by done.
  destruct (backs_off_rule status text (Z.min (Z.of_nat n) MaxLevel) Hb) as (r & Hr & ->).
  unfold apply_rule. rewrite Hr. cbn [CooldownMs]. unfold MaxLevel, MaxMs. rewrite int64_id by lia.
  rewrite GetQuotaCooldown_level by lia. unfold MaxMs.
  destruct (decide (Z.of_nat n <= 14)).
  - do 3 f_equal. lia.
  - assert (2 ^ 14 <= 2 ^ Z.of_nat n) by (apply Z.pow_le_mono_r; lia).
    replace (Z.max _ 0) with 14 by lia. lia.
Qed.

End ClassifyFacts.

(** ** The text of an error page *)

Section ErrorTextFacts.
Context `{UnicodeCase} `{JsonCodec}.

Lemma title_end_after_open s i : has_prefix (B "<title>") s = true → index_of (B "</title>") s = Some i → (7 <= i)%nat.
Proof.
  intros Hp%has_prefix_take Hi. assert (s = B "<title>" ++ drop 7 s) as Es by (rewrite <- Hp at 1; by rewrite take_drop).
  rewrite Es in Hi. revert Hi. cbn. destruct (index_of _ _) as [j|]; cbn; [intros [= <-]; lia|done].
Qed.

Lemma read_html_ascii s : is_ascii s → is_Some (read_html s).
Proof.
  intros Hs. unfold read_html. destruct (_ || _); [by eexists|].
  destruct (index_of (B "<title>") (to_lower s)) as [i|] eqn:Ei; [|by eexists].
  destruct (index_of (B "</title>") _) as [j|] eqn:Ej; [|by eexists].
  apply index_of_bound in Ei as [H1 H2]. pose proof (title_end_after_open _ _ H2 Ej) as H7.
  apply index_of_bound in Ej as [H3 _]. rewrite length_drop, to_lower_ascii_length in H3 by done.
  rewrite to_lower_ascii_length in H1 by done. change (length (B "</title>")) with 8%nat in H3.
  unfold slice_opt. rewrite (proj2 (Nat.leb_le (i + 7) (i + j))) by lia.
  rewrite (proj2 (Nat.leb_le (i + j) (length s))) by lia. by eexists.
Qed.

(** An HTML error page in a legacy encoding: the title is five bytes that are
    not UTF-8. *)
Definition legacy_page : bytes := B "<html><title>" ++ replicate 5 (bz 233) ++ B "</title>".

Lemma legacy_page_lower : to_lower legacy_page =
  B "<html><title>" ++ concat (replicate 5 (map bz [239; 191; 189])) ++ B "</title>".
Proof.
  unfold legacy_page. cbn [B String.list_ascii_of_string replicate app].
  repeat first [ rewrite to_lower_ascii_cons by done | rewrite to_lower_invalid by done ].
  reflexivity.
Qed.

Lemma legacy_page_panics : read_html legacy_page = None.
Proof. unfold read_html. rewrite legacy_page_lower. by vm_compute. Qed.

(** The text of an upstream error, for the classification and for every
    log line and wrapped error, is produced when the body is ASCII; offsets
    found in the lower-cased copy are used on the original, so an HTML page in
    a legacy encoding makes both readers panic. *)
Theorem error_text_panics_only_off_ascii :
  (∀ status body, is_ascii body → is_Some (extractErrorText body) ∧ is_Some (UpstreamError_Error status body)) ∧
  (unmarshal legacy_page = None → extractErrorText legacy_page = None) ∧
  (∀ status, UpstreamError_Error status legacy_page = None).
Proof.
  split_and!.
  - intros status body Hb. pose proof (read_html_ascii _ (Forall_trim_space _ _ Hb)) as [page Hp].
    unfold extractErrorText, html_error_text, UpstreamError_Error. rewrite Hp. split.
    + destruct (match _ with Some f => error_parts f | None => [] end); [|by eexists]. destruct (is_html _); by eexists.
    + destruct (is_html _); [by eexists|]. destruct (bool_decide _); by eexists.
  - intros Hu. unfold extractErrorText. rewrite Hu. cbn [mbind option_bind].
    change (trim_space legacy_page) with legacy_page. unfold html_error_text. by rewrite legacy_page_panics.
  - intros status. unfold UpstreamError_Error. change (trim_space legacy_page) with legacy_page.
    change (is_html legacy_page) with true. cbv beta iota zeta. by rewrite legacy_page_panics.
Qed.

End ErrorTextFacts.

#[local] Existing Instance ascii_case.

Lemma error_text_panics_witness :
  @extractErrorText ascii_case json_codec legacy_page = None ∧
  is_Some (@UpstreamError_Error ascii_case 503 (B "busy")) ∧ @UpstreamError_Error ascii_case 503 legacy_page = None.
Proof.
  destruct (@error_text_panics_only_off_ascii ascii_case json_codec) as (H1 & H2 & H3).
  split; [exact (H2 eq_refl)|]. split; [|exact (H3 503)]. apply (H1 503 (B "busy")). vm_compute. repeat constructor.
Defined.

Definition saturate (_ : Z) : Z := 2 ^ 63 - 1.

Lemma ClassifyError_contract_witness :
  RetryableStatusCodes 429 = true ∧
  ShouldFallback (ClassifyError saturate 429 (B "quota") 3) = true ∧
  CooldownMs (ClassifyError saturate 429 (B "No Credentials") 3) = 120000.
Proof.
  destruct (ClassifyError_contract saturate 429 (B "quota") 3 ltac:(lia)) as (_ & _ & H & _).
  split; [reflexivity|split; [exact (H eq_refl)|by vm_compute]].
Defined.

Lemma backoff_doubles_witness :
  CooldownMs (ClassifyError saturate 429 [] (level_after saturate 429 [] 3)) = 16000 ∧
  CooldownMs (ClassifyError saturate 429 [] (level_after saturate 429 [] 100)) = 300000.
Proof.
  split; [exact (backoff_doubles_to_cap saturate 429 [] 3 eq_refl)|exact (backoff_doubles_to_cap saturate 429 [] 100 eq_refl)].
Defined.
