(* ===== verification/Egress.v ===== *)
(** * Sending a request upstream ([internal/proxy/proxy.go], [retry.go],
    [proxy_egress.go], [fallback_transport.go])

    One attempt through the client a connection is given, its replays after a
    proxy or certificate failure, and the retries around it. The network is a
    parameter; the trace records which way every attempt left the host. *)

From S2P Require Import Prelude GoRegexp Json GoText RetryAfter ErrorClassify.

(** ** Errors and responses

    An error carries its text and what [errors.Is] and [errors.As] find in its
    chain; wrapping keeps the chain. *)
Record go_error := MkErr {
  err_text : bytes;
  err_upstream : option upstreamError;
  err_cert : bool;        (* the certificate failures of crypto/tls and crypto/x509 *)
  err_canceled : bool;
  err_deadline : bool;
  err_dns : bool;
  err_net : bool;         (* net.Error; the client wraps every failure in url.Error, which is one *)
  err_conn : bool         (* EOF, unexpected EOF, ECONNRESET, ECONNREFUSED, EPIPE *)
}.

Record http_response := MkResponse {
  resp_StatusCode : Z;
  resp_XProxyError : bytes;
  resp_ContentType : bytes;
  resp_RetryAfter : bytes;
  resp_Body : bytes
}.

Abbreviation result := (option http_response * option go_error)%type.

Definition wrap (prefix : string) (e : go_error) : go_error :=
  MkErr (B prefix ++ err_text e) (err_upstream e) (err_cert e) (err_canceled e) (err_deadline e)
    (err_dns e) (err_net e) (err_conn e).

Definition plain_error (text : bytes) : go_error := MkErr text None false false false false false false.

(** ** Clients *)

Inductive proxy_fn := NoProxy | Ambient | Fixed (u : bytes).

Inductive transport :=
  | TNil                                  (* the default transport *)
  | TStd (p : proxy_fn)                   (* http.Transport *)
  | TFallback (base direct : transport)   (* FallbackTransport *)
  | TForbid (base : transport).           (* forbidDirectReplayTransport *)

Definition proxyFuncIsAssigned (p : proxy_fn) : bool :=
  match p with Fixed _ => true | NoProxy | Ambient => false end.

Fixpoint transportProxyIsAssigned (t : transport) : bool :=
  match t with
  | TNil => false
  | TStd p => proxyFuncIsAssigned p
  | TFallback base _ => transportProxyIsAssigned base
  | TForbid _ => false
  end.

(** A nil client is [None]. *)
Definition proxiesViaAssignment (client : option transport) : bool :=
  match client with None => false | Some t => transportProxyIsAssigned t end.

Definition forbidsDirectReplay (client : option transport) : bool :=
  match client with Some (TForbid _) => true | _ => false end.

Definition ForbidDirectReplay (client : transport) : transport := TForbid client.

Section Egress.
Context `{UnicodeCase}.

Definition isProxyFailure (err : option go_error) (resp : option http_response) : bool :=
  match resp with
  | Some r =>
      (resp_StatusCode r =? 403) &&
      (negb (bool_decide (resp_XProxyError r = [])) || contains (B "text/plain") (to_lower (resp_ContentType r)))
  | None => false
  end ||
  match err with
  | Some e =>
      let s := to_lower (err_text e) in
      contains (B "proxy") s || contains (B "connect tunnel failed") s ||
      contains (B "blocked-by-allowlist") s || contains (B "forbidden") s
  | None => false
  end.

Definition isCertificateFailure (err : option go_error) : bool :=
  match err with Some e => err_cert e | None => false end.

Definition IsTransientTransportError (err : option go_error) : bool :=
  match err with
  | None => false
  | Some e =>
      if isProxyFailure err None then false
      else if err_canceled e || err_deadline e then false
      else if err_dns e then false
      else if err_net e then true
      else err_conn e
  end.

(** ** The network *)

Inductive egress := EDirect | EAmbient | EVia (u : bytes).

Inductive event := ESend (way : egress) (insecure : bool) | ESleep (d : Z).

Record net_state (W : Type) := MkNet { world : W; trace : list event }.
Arguments MkNet {W}. Arguments world {W}. Arguments trace {W}.

Context {W : Type}.
(** One connection attempt, and a wait that the context may cut short. *)
Variable dial : W → egress → bool → W * result.
Variable elapse : W → Z → W * option go_error.

Definition egress_of (p : proxy_fn) : egress :=
  match p with NoProxy => EDirect | Ambient => EAmbient | Fixed u => EVia u end.

Definition dial_out (way : egress) (insecure : bool) (s : net_state W) : net_state W * result :=
  let '(w, r) := dial (world s) way insecure in
  (MkNet w (trace s ++ [ESend way insecure]), r).

Definition sleepCtx (d : Z) (s : net_state W) : net_state W * option go_error :=
  let '(w, e) := elapse (world s) d in (MkNet w (trace s ++ [ESleep d]), e).

Fixpoint RoundTrip (insecure : bool) (t : transport) (s : net_state W) : net_state W * result :=
  match t with
  | TNil => dial_out EAmbient insecure s
  | TStd p => dial_out (egress_of p) insecure s
  | TForbid base => RoundTrip insecure base s
  | TFallback base direct =>
      let '(s1, r) := RoundTrip insecure base s in
      if isProxyFailure r.2 r.1 then RoundTrip insecure direct s1 else (s1, r)
  end.

(** [http.DefaultClient] stands in for a nil client. *)
Definition send (client : option transport) (insecure : bool) (s : net_state W) : net_state W * result :=
  RoundTrip insecure (default TNil client) s.

(** The proxy the environment names for an https target, and the URLs that
    parse with a host. *)
Variable env_proxy : option bytes.
Variable url_has_host : bytes → bool.

Definition proxyURLFor (client : option transport) : bytes :=
  match client with
  | Some (TStd (Fixed u)) => u
  | Some (TStd Ambient) => default [] env_proxy
  | _ => []
  end.

(** [NewTransport] leaves the proxy nil, which makes net/http dial direct. *)
Definition NewSafeTransportForProxy (proxyURL : bytes) : transport :=
  if negb (bool_decide (proxyURL = [])) && url_has_host proxyURL then TStd (Fixed proxyURL) else TStd NoProxy.

Definition directProxyClient : transport := NewSafeTransportForProxy [].

Definition replayDirect (s : net_state W) : net_state W * result := send (Some directProxyClient) false s.

Definition replayInsecureTLS (proxyURL : bytes) (s : net_state W) : net_state W * result :=
  send (Some (NewSafeTransportForProxy proxyURL)) true s.

Definition strict_refusal (err : option go_error) : go_error :=
  let text := B "assigned proxy failed, refusing to route direct (" ++
              match err with Some e => err_text e | None => B "%!w(<nil>)" end ++
              B "): proxy required but failed (strictProxy=true)" in
  match err with
  | Some e => MkErr text (err_upstream e) (err_cert e) (err_canceled e) (err_deadline e) (err_dns e) (err_net e) (err_conn e)
  | None => plain_error text
  end.

(** The end of an attempt: an error, or an answer other than 200, fails it.
    The text of a page whose rendering panics ([ErrorClassify]) counts as empty
    here. *)
Definition conclude (r : result) : result :=
  match r with
  | (_, Some e) => (None, Some (wrap "upstream request: " e))
  | (Some resp, None) =>
      if resp_StatusCode resp =? 200 then r
      else let ue := MkUE (resp_StatusCode resp) (take (Z.to_nat (1024 * 1024)) (resp_Body resp)) (resp_RetryAfter resp) in
           (None, Some (MkErr (default [] (UpstreamError_Error (ue_StatusCode ue) (ue_Body ue))) (Some ue) false false false false false false))
  | (None, None) => r
  end.

(** [bad_request] is the error building the request reports, the same for every
    replay. *)
Definition doRequestOnce (bad_request : option go_error) (strictOnly strictTLS : bool)
    (client : option transport) (s : net_state W) : net_state W * result :=
  match bad_request with
  | Some e => (s, (None, Some (wrap "create request: " e)))
  | None =>
      let '(s1, (resp, err)) := send client false s in
      if isCertificateFailure err then
        if strictTLS then (s1, conclude (resp, err))
        else
          let '(s2, (resp2, err2)) := replayInsecureTLS (proxyURLFor client) s1 in
          match err2 with
          | Some e => (s2, (None, Some (wrap "upstream request after insecure TLS retry: " e)))
          | None => (s2, conclude (resp2, None))
          end
      else if isProxyFailure err resp then
        if strictOnly || forbidsDirectReplay client || proxiesViaAssignment client
        then (s1, (None, Some (strict_refusal err)))
        else
          let '(s2, (resp2, err2)) := replayDirect s1 in
          match err2 with
          | Some e => (s2, (None, Some (wrap "upstream request direct after proxy failure: " e)))
          | None => (s2, conclude (resp2, None))
          end
      else (s1, conclude (resp, err))
  end.

(** ** Retries *)

Record transientRetry := MkRetry { attempts : nat; delay : Z }.

Definition transientRetryPolicy (status : Z) : option transientRetry :=
  if status =? 502 then Some (MkRetry 3 (3 * Second))
  else if status =? 503 then Some (MkRetry 3 (2 * Second))
  else if status =? 504 then Some (MkRetry 2 (3 * Second))
  else None.

Definition transportRetryPolicy : transientRetry := MkRetry 2 (400 * 1000000).

Definition as_upstream (err : option go_error) : option upstreamError := err ≫= err_upstream.

Section Retry.
Variable attempt : net_state W → net_state W * result.

Fixpoint transport_loop (n : nat) (first : option go_error) (r : result) (s : net_state W)
    : net_state W * result :=
  match n with
  | O => (s, r)
  | S n' =>
      if IsTransientTransportError r.2 then
        let '(s1, waitErr) := sleepCtx (delay transportRetryPolicy) s in
        match waitErr with
        | Some _ => (s1, (None, first))
        | None => let '(s2, r2) := attempt s1 in transport_loop n' first r2 s2
        end
      else (s, r)
  end.

Definition retryTransport (first : option go_error) (s : net_state W) : net_state W * result :=
  let '(s1, r) := attempt s in transport_loop (attempts transportRetryPolicy) first r s1.

Fixpoint status_loop (n : nat) (d : Z) (r : result) (s : net_state W) : net_state W * result :=
  match n with
  | O => (s, r)
  | S n' =>
      let '(s1, waitErr) := sleepCtx d s in
      match waitErr with
      | Some _ => (s1, (None, r.2))
      | None =>
          let '(s2, r2) := attempt s1 in
          match as_upstream r2.2 with
          | None => (s2, r2)
          | Some ue =>
              match transientRetryPolicy (ue_StatusCode ue) with
              | Some _ => status_loop n' d r2 s2
              | None => (s2, r2)
              end
          end
      end
  end.

Definition retryTransientUpstream (s : net_state W) : net_state W * result :=
  let '(s1, r) := attempt s in
  match r.2 with
  | None => (s1, (r.1, None))
  | Some e =>
      if IsTransientTransportError r.2 then retryTransport r.2 s1
      else match err_upstream e with
           | None => (s1, r)
           | Some ue =>
               match transientRetryPolicy (ue_StatusCode ue) with
               | Some policy => status_loop (attempts policy) (delay policy) r s1
               | None => (s1, r)
               end
           end
  end.

End Retry.

Definition DoRequest (bad_request : option go_error) (strictOnly strictTLS : bool)
    (client : option transport) : net_state W → net_state W * result :=
  retryTransientUpstream (doRequestOnce bad_request strictOnly strictTLS client).

End Egress.
Arguments MkNet {W}. Arguments world {W}. Arguments trace {W}.

(** ** Properties *)

Section Facts.
Context `{UnicodeCase} {W : Type}.
Variable dial : W → egress → bool → W * result.
Variable elapse : W → Z → W * option go_error.

(** Whatever holds of every event of an attempt, and of the waits, holds of the
    whole retried request. *)
Section TraceInvariant.
Variable P : event → Prop.
Variable attempt : net_state W → net_state W * result.
Hypothesis attempt_ok : ∀ s, Forall P (trace s) → Forall P (trace (attempt s).1).
Hypothesis sleep_ok : ∀ d, P (ESleep d).

Lemma sleepCtx_trace d s : Forall P (trace s) → Forall P (trace (sleepCtx elapse d s).1).
Proof.
  intros Hs. unfold sleepCtx. destruct (elapse _ _). cbn. apply Forall_app. split; [done|]. by constructor.
Qed.

Lemma transport_loop_trace n first : ∀ r s, Forall P (trace s) →
  Forall P (trace (transport_loop elapse attempt n first r s).1).
Proof.
  induction n as [|n IH]; intros r s Hs; cbn [transport_loop]; [done|].
  destruct (IsTransientTransportError _); [|done].
  pose proof (sleepCtx_trace (delay transportRetryPolicy) s Hs) as H1. destruct (sleepCtx _ _ s) as [s1 [e|]]; [done|].
  pose proof (attempt_ok s1 H1) as H2. destruct (attempt s1) as [s2 r2]. by apply IH.
Qed.

Lemma status_loop_trace n d : ∀ r s, Forall P (trace s) →
  Forall P (trace (status_loop elapse attempt n d r s).1).
Proof.
  induction n as [|n IH]; intros r s Hs; cbn [status_loop]; [done|].
  pose proof (sleepCtx_trace d s Hs) as H1. destruct (sleepCtx _ _ s) as [s1 [e|]]; [done|].
  pose proof (attempt_ok s1 H1) as H2. destruct (attempt s1) as [s2 r2]. cbn in H2.
  destruct (as_upstream r2.2) as [ue|]; [|done]. destruct (transientRetryPolicy _); [|done]. by apply IH.
Qed.

Lemma retry_trace s : Forall P (trace s) → Forall P (trace (retryTransientUpstream elapse attempt s).1).
Proof.
  intros Hs. unfold retryTransientUpstream. pose proof (attempt_ok s Hs) as H1. destruct (attempt s) as [s1 r].
  cbn in H1. destruct (r.2) as [e|]; [|done]. destruct (IsTransientTransportError _).
  - unfold retryTransport. pose proof (attempt_ok s1 H1) as H2. destruct (attempt s1) as [s2 r2].
    by apply transport_loop_trace.
  - destruct (err_upstream e); [|done]. destruct (transientRetryPolicy _); [|done]. by apply status_loop_trace.
Qed.
End TraceInvariant.

Variable env_proxy : option bytes.
Variable url_has_host : bytes → bool.

Definition via (u : bytes) (e : event) : Prop := ∀ way insecure, e = ESend way insecure → way = EVia u.

Lemma dial_out_trace way insecure s :
  trace (dial_out dial way insecure s).1 = trace s ++ [ESend way insecure].
Proof. unfold dial_out. by destruct (dial _ _ _). Qed.

Lemma once_via_pool bad strict tls u s : url_has_host u = true → u ≠ [] → Forall (via u) (trace s) →
  Forall (via u) (trace (doRequestOnce dial env_proxy url_has_host bad strict tls (Some (TStd (Fixed u))) s).1).
Proof.
  intros Hu Hne Hs. unfold doRequestOnce. destruct bad as [e|]; [done|]. unfold send. cbn [default from_option id RoundTrip egress_of].
  assert (∀ i s, Forall (via u) (trace s) → Forall (via u) (trace (dial_out dial (EVia u) i s).1)) as Hd.
  { intros i s' Hs'. rewrite dial_out_trace. apply Forall_app. split; [done|]. constructor; [|done]. by intros ? ? [= <- <-]. }
  pose proof (Hd false s Hs) as H1. destruct (dial_out _ _ _ s) as [s1 [resp err]]. cbn in H1.
  destruct (isCertificateFailure err).
  - destruct tls; [done|]. unfold replayInsecureTLS, proxyURLFor, NewSafeTransportForProxy.
    rewrite Hu, bool_decide_eq_false_2 by done. cbn [negb andb send default from_option id RoundTrip egress_of].
    pose proof (Hd true s1 H1) as H2. unfold send. cbn [default from_option id RoundTrip egress_of].
    destruct (dial_out _ _ true s1) as [s2 [resp2 [e2|]]]; done.
  - destruct (isProxyFailure err resp); [|done]. cbn [forbidsDirectReplay proxiesViaAssignment transportProxyIsAssigned proxyFuncIsAssigned].
    by rewrite !orb_true_r.
Qed.

(** A request assigned to a proxy pool leaves the host only through the
    pool's proxy, over all replays and retries. A pool marked strict keeps that
    promise for proxy failures, but not for certificate failures: unless
    STRICT_SSL forbids it, the replay without certificate verification leaves
    through no proxy at all. *)
Theorem assigned_pool_egress bad strict tls u w :
  url_has_host u = true → u ≠ [] →
  Forall (via u) (trace (DoRequest dial elapse env_proxy url_has_host bad strict tls (Some (TStd (Fixed u))) (MkNet w [])).1) ∧
  trace (doRequestOnce dial env_proxy url_has_host None strict tls (Some (ForbidDirectReplay (TStd (Fixed u)))) (MkNet w [])).1 =
    ESend (EVia u) false ::
    (if isCertificateFailure (dial w (EVia u) false).2.2 && negb tls then [ESend EDirect true] else []).
Proof.
  intros Hu Hne. split.
  - unfold DoRequest. apply retry_trace; [| |constructor].
    + intros s Hs. by apply once_via_pool.
    + by intros d ? ?.
  - unfold doRequestOnce, send, dial_out. cbn -[isProxyFailure].
    unfold dial_out. cbn [world trace]. destruct (dial w (EVia u) false) as [w1 [resp err]]. cbn [snd app].
    destruct (isCertificateFailure err); cbn [andb].
    + destruct tls; [done|]. unfold replayInsecureTLS, send, NewSafeTransportForProxy. cbn.
      unfold dial_out. cbn [world trace]. by destruct (dial w1 EDirect true) as [w2 [resp2 [e2|]]].
    + rewrite orb_true_r. by destruct (isProxyFailure err resp).
Qed.

End Facts.

(** ** The schedule of retries

    [script i] is what the [i]-th attempt gives, and the client stays. *)
Section Schedule.
Context `{UnicodeCase}.
Variable script : nat → result.

Definition scripted (s : net_state nat) : net_state nat * result :=
  (MkNet (S (world s)) (trace s ++ [ESend EDirect false]), script (world s)).
Definition patient (w : nat) (_ : Z) : nat * option go_error := (w, None).

Definition retryable_status (r : result) : bool :=
  match as_upstream r.2 with
  | Some ue => match transientRetryPolicy (ue_StatusCode ue) with Some _ => true | None => false end
  | None => false
  end.

(** The first attempt from [i] on, at most [n] later, that is not [again]. *)
Fixpoint stop_at (again : result → bool) (i n : nat) : nat :=
  match n with
  | O => i
  | S n' => if again (script i) then stop_at again (S i) n' else i
  end.

Definition pause_and_send (d : Z) : list event := [ESleep d; ESend EDirect false].

Lemma stop_at_le again n : ∀ i, (i <= stop_at again i n <= i + n)%nat.
Proof.
  induction n as [|n IH]; intros i; cbn; [lia|]. destruct (again _); [specialize (IH (S i))|]; lia.
Qed.

Lemma transport_loop_schedule n first : ∀ i t,
  transport_loop patient scripted n first (script i) (MkNet (S i) t) =
  let k := stop_at (λ r, IsTransientTransportError r.2) i n in
  (MkNet (S k) (t ++ concat (replicate (k - i) (pause_and_send (delay transportRetryPolicy)))), script k).
Proof.
  induction n as [|n IH]; intros i t; cbn [transport_loop stop_at]; [by rewrite Nat.sub_diag, app_nil_r|].
  destruct (IsTransientTransportError (script i).2) eqn:E; [|by rewrite Nat.sub_diag, app_nil_r].
  unfold sleepCtx, patient, scripted. cbn [world trace]. rewrite IH. cbn zeta.
  pose proof (stop_at_le (λ r, IsTransientTransportError r.2) n (S i)) as Hk.
  set (k := stop_at _ (S i) n) in *. replace (k - i)%nat with (S (k - S i)) by lia.
  do 2 f_equal. rewrite <- !app_assoc. done.
Qed.

Lemma status_loop_schedule n d : ∀ i t, retryable_status (script i) = true →
  status_loop patient scripted n d (script i) (MkNet (S i) t) =
  let k := stop_at retryable_status i n in
  (MkNet (S k) (t ++ concat (replicate (k - i) (pause_and_send d))), script k).
Proof.
  induction n as [|n IH]; intros i t Hi; cbn [status_loop stop_at]; [by rewrite Nat.sub_diag, app_nil_r|].
  rewrite Hi. unfold sleepCtx, patient, scripted. cbn [world trace].
  pose proof (stop_at_le retryable_status n (S i)) as Hk.
  destruct (retryable_status (script (S i))) eqn:E.
  - pose proof E as E'. unfold retryable_status in E'. destruct (as_upstream (script (S i)).2) as [ue|]; [|done].
    destruct (transientRetryPolicy _); [|done]. rewrite IH by done. cbn zeta.
    set (k := stop_at _ (S i) n) in *. replace (k - i)%nat with (S (k - S i)) by lia.
    by rewrite <- !app_assoc.
  - assert (stop_at retryable_status (S i) n = S i) as -> by (destruct n; cbn; [done|by rewrite E]).
    replace (S i - i)%nat with 1%nat by lia. cbn [replicate concat app]. rewrite <- app_assoc. cbn [app].
    unfold retryable_status in E. destruct (as_upstream _) as [ue|]; [|done]. by destruct (transientRetryPolicy _).
Qed.

(** The schedule of a request whose client stays: a connection failure is
    sent again at once and then up to twice more 400 ms apart, four attempts in
    all; a 502, 503 or 504 is repeated after the pause its first status names,
    as long as the answers keep one of these statuses, at most that status's
    number of times; every other outcome, a 429 included, is final. *)
Theorem retry_schedule :
  retryTransientUpstream patient scripted (MkNet 0%nat []) =
  match script 0%nat with
  | (resp, None) => (MkNet 1%nat [ESend EDirect false], (resp, None))
  | (_, Some e) =>
      if IsTransientTransportError (Some e) then
        let k := stop_at (λ r, IsTransientTransportError r.2) 1 2 in
        (MkNet (S k) ([ESend EDirect false; ESend EDirect false] ++
                      concat (replicate (k - 1) (pause_and_send (400 * 1000000)))), script k)
      else
        match err_upstream e ≫= λ ue, transientRetryPolicy (ue_StatusCode ue) with
        | Some policy =>
            let k := stop_at retryable_status 0 (attempts policy) in
            (MkNet (S k) (ESend EDirect false :: concat (replicate k (pause_and_send (delay policy)))), script k)
        | None => (MkNet 1%nat [ESend EDirect false], script 0%nat)
        end
  end.
Proof.
  unfold retryTransientUpstream. unfold scripted at 1. cbn [world trace app].
  destruct (script 0%nat) as [resp [e|]] eqn:E0; cbn [fst snd]; [|done].
  destruct (IsTransientTransportError (Some e)) eqn:Et.
  - unfold retryTransport. unfold scripted at 1. cbn [world trace app attempts transportRetryPolicy].
    by rewrite (transport_loop_schedule 2 (Some e) 1).
  - destruct (err_upstream e) as [ue|] eqn:Eu; cbn [mbind option_bind]; [|done].
    destruct (transientRetryPolicy (ue_StatusCode ue)) as [p|] eqn:Ep; [|done].
    rewrite <- E0, (status_loop_schedule (attempts p) (delay p) 0).
    + cbn zeta. by rewrite Nat.sub_0_r.
    + unfold retryable_status. rewrite E0. cbn. rewrite Eu. cbn. by rewrite Ep.
Qed.

End Schedule.

#[local] Existing Instance ascii_case.

Definition cert_error : go_error := MkErr (B "x509: certificate signed by unknown authority") None true false false false true false.
Definition resigning_network (w : unit) (_ : egress) (insecure : bool) : unit * result :=
  (w, if insecure then (Some (MkResponse 200 [] [] [] []), None) else (None, Some cert_error)).
Definition at_once (w : unit) (_ : Z) : unit * option go_error := (w, None).
Definition pool_url : bytes := B "http://pool:8080".

(** Behind a proxy that re-signs TLS, the strict pool's request leaves direct. *)
Lemma assigned_pool_witness :
  Forall (via pool_url) (trace (DoRequest resigning_network at_once None (λ _, true) None true false
    (Some (TStd (Fixed pool_url))) (MkNet tt [])).1) ∧
  trace (doRequestOnce resigning_network None (λ _, true) None true false
    (Some (ForbidDirectReplay (TStd (Fixed pool_url)))) (MkNet tt [])).1 = [ESend (EVia pool_url) false; ESend EDirect true].
Proof.
  exact (assigned_pool_egress resigning_network at_once None (λ _, true) None true false pool_url tt eq_refl ltac:(done)).
Defined.

Definition reset_error : go_error := MkErr (B "read: connection reset by peer") None false false false false true true.

(** A persistent connection failure: four attempts, the second without a pause. *)
Example persistent_reset :
  trace (retryTransientUpstream patient (scripted (λ _, (None, Some reset_error))) (MkNet 0%nat [])).1 =
    [ESend EDirect false; ESend EDirect false; ESleep 400000000; ESend EDirect false; ESleep 400000000; ESend EDirect false].
Proof. by vm_compute. Qed.
