(* ===== verification/SseCopy.v ===== *)
(** * The passthrough of an event stream
    ([internal/proxy/sse_copy.go], [sse_inband.go], [sse_error.go])

    An OpenAI stream that needs no translation is relayed read by read. The
    copier watches line boundaries: it adds the terminal frame strict clients
    want, swallows errors a provider injects into a 200 answer, and closes a
    stream that dies. [accepts written p] tells whether the client takes [p]
    after [written]. [unmarshal] stands for decoding with the lenient options of
    [handlerutil.UpstreamBody]. *)

From Stdlib Require Import SpecFloat.
From S2P Require Import Prelude GoRegexp Json GoText ErrorClassify.

Local Open Scope nat_scope.

(** ** Errors injected into a stream *)

Definition defaultInbandErrorStatus : Z := 502.
Definition InbandStreamErrorMessage : bytes := B "upstream event stream carried an error".

Definition isEventErrorLine (line : bytes) : bool :=
  let t := trim_space line in
  has_prefix (B "event:") t && bool_decide (trim_space (drop 6 t) = B "error").

Definition done_mark : bytes := B "[DONE]".
Definition quoted (s : string) : bytes := "034"%char :: B s ++ ["034"%char].

Definition inbandPayload (line : bytes) : option bytes :=
  match trim_space line with
  | [] => None
  | (c :: _) as trimmed =>
      if bool_decide (c = ":"%char) || has_prefix (B "event:") trimmed then None
      else
        let payload := if has_prefix (B "data:") trimmed then trim_space (drop 5 trimmed) else trimmed in
        if bool_decide (payload = done_mark) then None
        else match payload with
             | "{"%char :: _ => if contains (quoted "error") payload then Some payload else None
             | _ => None
             end
  end.

Definition inbandMessage (providerMsg : bytes) : bytes :=
  if nonempty (trim_space providerMsg) then InbandStreamErrorMessage ++ B ": " ++ trim_space providerMsg
  else InbandStreamErrorMessage.

Definition usable_status (n : Z) : Z := if ((400 <=? n) && (n <? 600))%Z then n else 0%Z.

(** A number, or a string that is one. *)
Definition httpStatusFromJSON (raw : option json) : Z :=
  match raw with
  | Some (JNum lit) => match parse_float lit with Some x => usable_status (sf_trunc x) | None => 0 end
  | Some (JStr s) => match Atoi (trim_space s) with Some n => usable_status n | None => 0 end
  | _ => 0
  end%Z.

Definition inbandStatusCode (candidates : list (option json)) : Z :=
  match filter (λ n, n ≠ 0%Z) (map httpStatusFromJSON candidates) with n :: _ => n | [] => defaultInbandErrorStatus end.

(** The message and type of an error object. *)
Definition error_message (m : object) : option bytes :=
  msg ← str_field (B "message") m; typ ← str_field (B "type") m; Some (if nonempty msg then msg else typ).

Section Copier.
Context `{JsonCodec}.

Definition parseInbandError (payload : bytes) : option (Z * bytes) :=
  match unmarshal payload ≫= as_struct with
  | None => None
  | Some env =>
      match raw_field "error" env with
      | None | Some JNull => None
      | Some (JStr msg) => if nonempty (trim_space msg) then Some (defaultInbandErrorStatus, inbandMessage msg) else None
      | Some (JObj o) =>
          match error_message o with
          | Some msg => Some (inbandStatusCode [raw_field "code" o; raw_field "status" o], inbandMessage msg)
          | None => Some (defaultInbandErrorStatus, inbandMessage [])
          end
      | Some _ => Some (defaultInbandErrorStatus, inbandMessage [])
      end
  end.

Definition DetectInbandSSEError (line : bytes) : option (Z * bytes) := inbandPayload line ≫= parseInbandError.

(** ** Frames the gateway writes itself *)

Definition frame (payload : bytes) : bytes := B "data: " ++ payload ++ [ch_lf; ch_lf].

Definition sseDoneFrame : bytes := frame done_mark.
Definition terminal_payload (reason : string) : bytes :=
  B "{" ++ quoted "choices" ++ B ":[{" ++ quoted "index" ++ B ":0," ++ quoted "delta" ++ B ":{}," ++ quoted "finish_reason" ++
  B ":" ++ quoted reason ++ B "}]}".
Definition sseStopTerminal : bytes := frame (terminal_payload "stop").
Definition sseTruncatedTerminal : bytes := frame (terminal_payload "network_error").

Inductive client_format := SSEFormatOpenAI | SSEFormatClaude.

Definition sseErrorInfo (code : Z) : bytes * bytes :=
  if (code =? 499)%Z then (B "invalid_request_error", B "request_aborted")
  else if (code =? 502)%Z then (B "server_error", B "upstream_error")
  else if (code =? 504)%Z then (B "server_error", B "gateway_timeout")
  else if (500 <=? code)%Z then (B "server_error", B "internal_server_error")
  else (B "invalid_request_error", []).

Definition BuildStreamErrorBytes (code : Z) (message : bytes) (format : client_format) : bytes :=
  let '(typ, errCode) := sseErrorInfo code in
  let detail := JObj [(B "message", JStr message); (B "type", JStr typ); (B "code", JStr errCode)] in
  match format with
  | SSEFormatClaude => B "event: error" ++ [ch_lf] ++ frame (marshal (JObj [(B "type", JStr (B "error")); (B "error", detail)]))
  | SSEFormatOpenAI => frame (marshal (JObj [(B "error", detail)])) ++ sseDoneFrame
  end.

Inductive abort_cause := StreamStall | ContextCanceled | ConnectionLost.

Definition ClassifyStreamAbort (cause : abort_cause) : Z * bytes :=
  match cause with
  | StreamStall => (504%Z, B "stream stall timeout")
  | ContextCanceled => (499%Z, B "upstream request aborted")
  | ConnectionLost => (502%Z, B "upstream connection lost")
  end.

(** ** Terminal tokens *)

Definition is_blank (c : ascii) : bool := bool_decide (c = " "%char) || bool_decide (c = "009"%char).

Fixpoint non_null_value (fuel : nat) (needle p : bytes) : bool :=
  match fuel with
  | O => false
  | S fuel =>
      match index_of needle p with
      | None => false
      | Some idx =>
          match trim_left is_blank (drop (idx + length needle) p) with
          | [] => false
          | (c :: _) as rest => if bool_decide (c = "n"%char) then non_null_value fuel needle rest else true
          end
      end
  end.

Definition sseHasNonNullValue (p key : bytes) : bool := non_null_value (length p) (key ++ [":"%char]) p.

Definition sseHasTerminalToken (p : bytes) : bool :=
  contains (quoted "message_stop") p || sseHasNonNullValue p (quoted "stop_reason") || sseHasNonNullValue p (quoted "finish_reason").

Definition ssePayloadIsDone (line : bytes) : bool :=
  let t := trim_space line in
  bool_decide (t = done_mark) || (has_prefix (B "data:") t && bool_decide (trim_space (drop 5 t) = done_mark)).

(** ** The copier *)

Definition maxSSEHoldback : nat := 4096.
Definition sseTailSize : nat := 64.

Record copier := {
  written : bytes;            (* what the client got *)
  pending : bytes; tail : bytes; trailingNL : nat;
  hasTerminal : bool; hasDone : bool; seenSSE : bool;
  inband : option (Z * bytes) (* seenInbandError with its code and message *)
}.

Definition fresh_copier : copier :=
  {| written := []; pending := []; tail := []; trailingNL := 2; hasTerminal := false; hasDone := false; seenSSE := false; inband := None |}.

Inductive failure :=
  | WriteFailed
  | UpstreamFailure (code : Z) (message : bytes)
  | ReadFailed (cause : abort_cause).

Definition act := copier → copier * option failure.

(** [if err := f(); err != nil { return err }; g]. *)
Definition try (f g : act) : act := λ c,
  match f c with (c, None) => g c | (c, Some e) => (c, Some e) end.
(** [_ = f(); g]. *)
Definition ignoring (f g : act) : act := λ c, g (f c).1.
Definition done_ok : act := λ c, (c, None).

Notation "f ;? g" := (try f g) (at level 60, right associativity).
Notation "f ;_ g" := (ignoring f g) (at level 60, right associativity).

Definition with_written (w : bytes) (nl : nat) (c : copier) : copier :=
  {| written := w; pending := pending c; tail := tail c; trailingNL := nl; hasTerminal := hasTerminal c; hasDone := hasDone c;
     seenSSE := seenSSE c; inband := inband c |}.
Definition with_pending (p : bytes) (c : copier) : copier :=
  {| written := written c; pending := p; tail := tail c; trailingNL := trailingNL c; hasTerminal := hasTerminal c; hasDone := hasDone c;
     seenSSE := seenSSE c; inband := inband c |}.
Definition with_window (t : bytes) (terminal : bool) (c : copier) : copier :=
  {| written := written c; pending := pending c; tail := t; trailingNL := trailingNL c; hasTerminal := terminal; hasDone := hasDone c;
     seenSSE := seenSSE c; inband := inband c |}.
Definition with_flags (terminal done sse : bool) (c : copier) : copier :=
  {| written := written c; pending := pending c; tail := tail c; trailingNL := trailingNL c; hasTerminal := terminal; hasDone := done;
     seenSSE := sse; inband := inband c |}.
Definition with_inband (e : option (Z * bytes)) (c : copier) : copier :=
  {| written := written c; pending := pending c; tail := tail c; trailingNL := trailingNL c; hasTerminal := hasTerminal c; hasDone := hasDone c;
     seenSSE := seenSSE c; inband := e |}.

(** Trailing line feeds, two at most. *)
Definition trail (p : bytes) : nat :=
  match rev p with
  | a :: b :: _ => if bool_decide (a = ch_lf) then if bool_decide (b = ch_lf) then 2 else 1 else 0
  | [a] => if bool_decide (a = ch_lf) then 1 else 0
  | [] => 0
  end.

Definition noteWritten (p : bytes) (nl : nat) : nat :=
  if bool_decide (trail p = length p) then Nat.min 2 (nl + trail p) else trail p.

Variable accepts : bytes → bytes → bool.

Definition writeRaw (p : bytes) : act := λ c,
  if bool_decide (p = []) then (c, None)
  else if accepts (written c) p then (with_written (written c ++ p) (noteWritten p (trailingNL c)) c, None)
  else (c, Some WriteFailed).

Definition separator (nl : nat) : bytes := match nl with 0 => [ch_lf; ch_lf] | 1 => [ch_lf] | _ => [] end.

Definition ensureBlank : act := λ c, writeRaw (separator (trailingNL c)) c.

Definition observe (chunk : bytes) (c : copier) : copier :=
  let terminal :=
    hasTerminal c || sseHasTerminalToken chunk ||
    (nonempty (tail c) && sseHasTerminalToken (tail c ++ take 32 chunk)) in
  let total := length (tail c) + length chunk in
  let window :=
    if sseTailSize <=? length chunk then drop (length chunk - sseTailSize) chunk
    else if sseTailSize <? total then drop (total - sseTailSize) (tail c) ++ chunk
    else tail c ++ chunk in
  with_window window terminal c.

Definition swallowInbandError (line : bytes) (c : copier) : bool * copier :=
  if hasTerminal c then (false, c)
  else if isEventErrorLine line then (true, c)
  else match DetectInbandSSEError line with
       | None => (false, c)
       | Some e => (true, match inband c with Some _ => c | None => with_inband (Some e) c end)
       end.

Definition inbandFailure (c : copier) : option failure :=
  match inband c with
  | Some (code, msg) => if hasTerminal c then None else Some (UpstreamFailure code msg)
  | None => None
  end.

(** Both flags are set on the way out. *)
Definition close_flags : act := λ c, (with_flags true true (seenSSE c) c, None).

Definition writeErrorClose (e : Z * bytes) : act :=
  ensureBlank ;? writeRaw (BuildStreamErrorBytes e.1 e.2 SSEFormatOpenAI) ;?
  λ c, (with_flags true true (seenSSE c) c, Some (UpstreamFailure e.1 e.2)).

(** The error an error-only stream closes with. *)
Definition error_only (c : copier) : option (Z * bytes) := if hasTerminal c then None else inband c.

Definition writeDoneLine (line : bytes) : act := λ c,
  match error_only c with
  | Some e => writeErrorClose e c
  | None =>
      ((if hasTerminal c then done_ok else ensureBlank ;? writeRaw sseStopTerminal) ;? writeRaw line ;? close_flags) c
  end.

(** The lines of a read, each with its line feed, and the fragment after them. *)
Fixpoint split_lines (s : bytes) : list bytes * bytes :=
  match s with
  | [] => ([], [])
  | c :: s =>
      let '(ls, f) := split_lines s in
      if bool_decide (c = ch_lf) then ([c] :: ls, f)
      else match ls with l :: ls => ((c :: l) :: ls, f) | [] => ([], c :: f) end
  end.

Fixpoint writeEvents (lines : list bytes) (seg : bytes) : act :=
  match lines with
  | [] => writeRaw seg
  | line :: lines =>
      if ssePayloadIsDone line then writeRaw seg ;? writeDoneLine line
      else λ c,
        match swallowInbandError line c with
        | (true, c) => (writeRaw seg ;? writeEvents lines []) c
        | (false, c) => writeEvents lines (seg ++ line) c
        end
  end.

Definition hold (frag : bytes) : act :=
  let over := length frag - maxSSEHoldback in
  writeRaw (take over frag) ;? λ c, (with_pending (drop over frag) c, None).

Definition feed (chunk : bytes) : act := λ c,
  let c := observe chunk c in
  let data := pending c ++ chunk in
  let '(lines, frag) := split_lines data in
  (writeEvents lines [] ;? (λ c, if hasDone c then (c, None) else hold frag c)) (with_pending [] c).

(** *** The end of the stream *)

Definition close_unterminated : act := λ c,
  if seenSSE c && negb (hasDone c) then
    match error_only c with
    | Some e => writeErrorClose e c
    | None =>
        (ensureBlank ;_ (λ c, (if hasTerminal c then done_ok else writeRaw sseTruncatedTerminal) c) ;_ writeRaw sseDoneFrame ;_
         (λ c, let c := with_flags (hasTerminal c) true (seenSSE c) c in (c, inbandFailure c))) c
    end
  else (c, inbandFailure c).

Definition finish : act := λ c,
  let frag := pending c in
  let c := with_pending [] c in
  if nonempty frag then
    if ssePayloadIsDone frag then
      match error_only c with
      | Some e => writeErrorClose e c
      | None => ((if hasTerminal c then done_ok else ensureBlank ;_ writeRaw sseStopTerminal) ;_ writeRaw sseDoneFrame ;_ close_flags) c
      end
    else
      match swallowInbandError frag c with
      | (true, c) => close_unterminated c
      | (false, c) => (writeRaw frag ;_ close_unterminated) c
      end
  else close_unterminated c.

Definition abort (cause : abort_cause) : act := λ c,
  let frag := pending c in
  (writeRaw frag ;_ λ c,
     if negb (seenSSE c) || hasDone c then (c, Some (ReadFailed cause))
     else
       let '(code, message) := ClassifyStreamAbort cause in
       (ensureBlank ;_ writeRaw (BuildStreamErrorBytes code message SSEFormatOpenAI) ;_
        λ c, (with_flags true true (seenSSE c) c, Some (ReadFailed cause))) c)
    (with_pending [] c).

(** *** The loop *)

Inductive read_end := EOF | Aborted (cause : abort_cause).

(** One read; the result is [Some] when the loop returns. *)
Definition copy_step (chunk : bytes) (c : copier) : copier * option (option failure) :=
  match chunk with
  | [] => (c, None)
  | _ =>
      let c := with_flags (hasTerminal c) (hasDone c) (seenSSE c || contains (B "data:") chunk) c in
      match feed chunk c with
      | (c, Some e) => (c, Some (Some e))
      | (c, None) => if hasDone c then (c, Some (inbandFailure c)) else (c, None)
      end
  end.

Definition end_step (e : read_end) : act := match e with EOF => finish | Aborted cause => abort cause end.

(** The reads before the last, and the bytes that come with the end. *)
Fixpoint copy_loop (reads : list bytes) (last : bytes) (e : read_end) (c : copier) : copier * option failure :=
  match reads with
  | [] => match copy_step last c with (c, Some r) => (c, r) | (c, None) => end_step e c end
  | chunk :: reads => match copy_step chunk c with (c, Some r) => (c, r) | (c, None) => copy_loop reads last e c end
  end.

Definition SSECopy (reads : list bytes) (last : bytes) (e : read_end) : copier * option failure :=
  copy_loop reads last e fresh_copier.

End Copier.
