(* ===== verification/SseRelay.v ===== *)
(** * What the passthrough relays

    Terminal tokens are seen however the stream is cut into reads; a healthy
    stream is relayed as it came and closed once; an error a provider injects
    fails the turn, unless a terminal token comes with it. *)

From Stdlib Require Import SpecFloat.
From S2P Require Import Prelude GoRegexp Json GoText ErrorClassify SseCopy.

Local Open Scope nat_scope.

(** ** Occurrences *)

Lemma has_prefix_spec p s : has_prefix p s = true ↔ ∃ t, s = p ++ t.
Proof.
  split.
  - intros E%has_prefix_take. exists (drop (length p) s). rewrite <- E at 1. by rewrite take_drop.
  - intros [t ->]. apply has_prefix_take, take_app_length.
Qed.

Lemma has_prefix_self p t : has_prefix p (p ++ t) = true.
Proof. apply has_prefix_spec. by exists t. Qed.

(** The first occurrence. *)
Lemma index_of_spec p s i : index_of p s = Some i →
  (∃ a t, s = a ++ p ++ t ∧ length a = i) ∧ ∀ a t, s = a ++ p ++ t → i <= length a.
Proof.
  revert i. induction s as [|c s IH]; intros i; cbn [index_of].
  - destruct (has_prefix p []) eqn:E; [|done]. intros [= <-]. apply has_prefix_spec in E as [t E]. split; [by exists [], t|intros; lia].
  - destruct (has_prefix p (c :: s)) eqn:E.
    + intros [= <-]. apply has_prefix_spec in E as [t E]. split; [by exists [], t|intros; lia].
    + destruct (index_of p s) as [j|]; [|done]. intros [= <-]. destruct (IH j eq_refl) as [(a & t & -> & Ha) Hmin]. split.
      * exists (c :: a), t. cbn. by rewrite Ha.
      * intros [|x a'] t' E'; [|cbn in E' |- *; injection E' as -> E'; apply Hmin in E'; lia].
        assert (has_prefix p (c :: a ++ p ++ t) = true) by (apply has_prefix_spec; eexists; exact E'). congruence.
Qed.

Lemma index_of_some p a t : is_Some (index_of p (a ++ p ++ t)).
Proof.
  induction a as [|c a IH]; cbn [app].
  - destruct (p ++ t) eqn:E; cbn [index_of]; rewrite <- E, has_prefix_self; by eexists.
  - cbn [index_of]. destruct (has_prefix p (c :: a ++ p ++ t)); [by eexists|]. destruct IH as [i ->]. by eexists.
Qed.

Lemma trim_left_spec f s : ∃ b, s = b ++ trim_left f s ∧ Forall (λ c, f c = true) b.
Proof.
  induction s as [|c s IH]; [by exists []|]. cbn [trim_left]. destruct (f c) eqn:E; [|by exists []].
  destruct IH as (b & E' & Hb). exists (c :: b). split; [by rewrite <- app_comm_cons, <- E'|by constructor].
Qed.

Lemma trim_left_stop f b c t : Forall (λ c, f c = true) b → f c = false → trim_left f (b ++ c :: t) = c :: t.
Proof. intros Hb Hc. induction Hb as [|x b Hx Hb IH]; cbn; [by rewrite Hc|by rewrite Hx]. Qed.

Lemma trim_left_head f s c t : trim_left f s = c :: t → f c = false.
Proof. induction s as [|x s IH]; cbn; [done|]. destruct (f x) eqn:E; [done|]. by intros [= -> ->]. Qed.

(** ** Terminal tokens *)

(** A key, its colon, blanks, and the first character of a value that is not
    null. *)
Definition value_word (key w : bytes) : Prop :=
  ∃ b c, w = key ++ ":"%char :: b ++ [c] ∧ Forall (λ x, is_blank x = true) b ∧ is_blank c = false ∧ c ≠ "n"%char.

Definition occurs (P : bytes → Prop) (s : bytes) : Prop := ∃ a w t, P w ∧ s = a ++ w ++ t.

Lemma occurs_app_l P a s : occurs P s → occurs P (a ++ s).
Proof. intros (x & w & t & Hw & ->). exists (a ++ x), w, t. by rewrite app_assoc. Qed.

Lemma occurs_app_r P a s : occurs P s → occurs P (s ++ a).
Proof. intros (x & w & t & Hw & ->). exists x, w, (t ++ a). by rewrite <- !app_assoc. Qed.

Lemma non_null_value_sound key n p : non_null_value n (key ++ [":"%char]) p = true → occurs (value_word key) p.
Proof.
  revert p. induction n as [|n IH]; intros p; cbn [non_null_value]; [done|].
  destruct (index_of (key ++ [":"%char]) p) as [i|] eqn:E; [|done]. destruct (index_of_spec _ _ _ E) as [(a & t & -> & Ha) _].
  rewrite (app_assoc a (key ++ [":"%char]) t). rewrite drop_app_length' by (rewrite !length_app; cbn; lia).
  destruct (trim_left_spec is_blank t) as (b & Et & Hb). destruct (trim_left is_blank t) as [|c r] eqn:Er; [done|].
  case_bool_decide as Hc.
  - intros Hr%IH. rewrite Et. do 3 (try apply occurs_app_l). exact Hr.
  - intros _. exists a, (key ++ ":"%char :: b ++ [c]), r. split.
    + exists b, c. split_and!; [done|done|by eapply trim_left_head|done].
    + rewrite Et, <- !app_assoc. cbn. by rewrite <- app_assoc.
Qed.

(** A word that ends in a character it has nowhere else does not overlap itself. *)
Lemma no_overlap (k a x : bytes) y z : ":"%char ∉ k → x ++ k ++ ":"%char :: y = a ++ k ++ ":"%char :: z →
  length x < length a → length x + length k + 1 <= length a.
Proof.
  intros Hk E Hl. destruct (decide (length x + length k + 1 <= length a)) as [|Hn]; [done|]. exfalso. apply Hk.
  assert (E1 : (x ++ k ++ ":"%char :: y) !! (length x + length k) = Some ":"%char).
  { rewrite lookup_app_r by lia. rewrite lookup_app_r by lia. by replace (length x + length k - length x - length k) with 0 by lia. }
  rewrite E in E1. rewrite lookup_app_r in E1 by lia. rewrite lookup_app_l in E1 by lia. by eapply list_elem_of_lookup_2.
Qed.

Lemma non_null_value_complete key n p : ":"%char ∉ key → (∃ c k, key = c :: k ∧ is_blank c = false) → length p <= n →
  occurs (value_word key) p → non_null_value n (key ++ [":"%char]) p = true.
Proof.
  intros Hk (q & k & Eq & Hq). revert p. induction n as [|n IH]; intros p Hn (a & w & t & (b & c & -> & Hb & Hc & Hcn) & Ep).
  { exfalso. subst p. rewrite !length_app in Hn. cbn in Hn. lia. }
  assert (Ep' : p = a ++ (key ++ [":"%char]) ++ b ++ c :: t) by (rewrite Ep, <- !app_assoc; cbn; by rewrite <- app_assoc).
  clear Ep. cbn [non_null_value]. destruct (index_of (key ++ [":"%char]) p) as [i|] eqn:E.
  2: { destruct (index_of_some (key ++ [":"%char]) a (b ++ c :: t)) as [i Ei]. rewrite <- Ep' in Ei. congruence. }
  destruct (index_of_spec _ _ _ E) as [(x & y & Ex & Hx) Hmin]. specialize (Hmin _ _ Ep').
  rewrite Ex. rewrite (app_assoc x (key ++ [":"%char]) y), drop_app_length' by (rewrite !length_app; cbn; lia).
  destruct (decide (length x = length a)) as [Hl|Hl].
  - assert (Ey : y = b ++ c :: t).
    { assert (E2 : x ++ (key ++ [":"%char]) ++ y = a ++ (key ++ [":"%char]) ++ b ++ c :: t) by congruence.
      apply app_inj_1 in E2 as [_ E2]; [|done]. by apply app_inj_1 in E2 as [_ E2]. }
    rewrite Ey, trim_left_stop by done. by rewrite bool_decide_eq_false_2.
  - assert (Hov : length x + length key + 1 <= length a).
    { eapply (no_overlap key a x y (b ++ c :: t)); [done| |lia]. rewrite <- !app_assoc in Ex, Ep'. cbn in Ex, Ep'. congruence. }
    assert (Ha : ∃ m, a = x ++ (key ++ [":"%char]) ++ m ∧ y = m ++ (key ++ [":"%char]) ++ b ++ c :: t).
    { assert (E2 : (x ++ key ++ [":"%char]) ++ y = a ++ (key ++ [":"%char]) ++ b ++ c :: t) by (rewrite <- app_assoc; congruence).
      apply app_eq_inv in E2 as [(m & Em & E2)|(m & -> & ->)].
      - assert (length m = 0) by (apply (f_equal length) in Em; rewrite !length_app in Em; cbn in Em; lia).
        destruct m; [|done]. rewrite app_nil_r in Em. exists []. by rewrite app_nil_r, <- Em.
      - exists m. by rewrite <- app_assoc. }
    destruct Ha as (m & -> & Ey). destruct (trim_left_spec is_blank y) as (b' & Eb & Hb').
    assert (Hr : ∃ m', trim_left is_blank y = m' ++ (key ++ [":"%char]) ++ b ++ c :: t).
    { rewrite Ey in Eb at 1. apply app_eq_inv in Eb as [(m' & -> & E3)|(m' & -> & E3)]; [by exists m'|].
      destruct m' as [|z m']; [by exists []|]. exfalso. rewrite Eq in E3. cbn in E3. injection E3 as <- _.
      apply Forall_app in Hb' as [_ Hb']. inversion Hb'; subst. congruence. }
    destruct Hr as (m' & Hr). rewrite Hr.
    assert (Hne : ∃ c' r, m' ++ (key ++ [":"%char]) ++ b ++ c :: t = c' :: r) by (rewrite Eq; destruct m'; by eexists _, _).
    destruct Hne as (c' & r & Hne). rewrite Hne. case_bool_decide; [|done]. rewrite <- Hne. apply IH.
    + apply (f_equal length) in Ey, Eb. assert (Hp : length p = length x + length key + 1 + length y) by (rewrite Ex, !length_app; cbn; lia).
      rewrite Hr in Eb. rewrite length_app in Eb. lia.
    + exists m', (key ++ ":"%char :: b ++ [c]), t. split; [by exists b, c|]. rewrite <- !app_assoc. cbn. by rewrite <- app_assoc.
Qed.

(** The tokens that end a turn. *)
Definition terminal_word (w : bytes) : Prop :=
  w = quoted "message_stop" ∨ value_word (quoted "stop_reason") w ∨ value_word (quoted "finish_reason") w.

Lemma sseHasTerminalToken_spec p : sseHasTerminalToken p = true ↔ occurs terminal_word p.
Proof.
  unfold sseHasTerminalToken, sseHasNonNullValue. rewrite !orb_true_iff, contains_spec. split.
  - intros [[(a & t & ->)|H]|H].
    + exists a, (quoted "message_stop"), t. split; [by left|done].
    + apply non_null_value_sound in H as (a & w & t & H & ->). exists a, w, t. split; [by right; left|done].
    + apply non_null_value_sound in H as (a & w & t & H & ->). exists a, w, t. split; [by right; right|done].
  - intros (a & w & t & [->|[H|H]] & ->); [left; left; by exists a, t|left; right|right].
    + apply non_null_value_complete; [vm_compute; set_solver|by eexists _, _|lia|by exists a, w, t].
    + apply non_null_value_complete; [vm_compute; set_solver|by eexists _, _|lia|by exists a, w, t].
Qed.

Lemma terminal_word_nonempty w : terminal_word w → w ≠ [].
Proof. by intros [->|[(b & c & -> & _)|(b & c & -> & _)]]. Qed.

(** A token with at most sixteen blanks before its value. *)
Definition short_word (w : bytes) : Prop := terminal_word w ∧ length w <= 33.

Definition last_bytes (n : nat) (s : bytes) : bytes := drop (length s - n) s.

Section Relay.
Context `{JsonCodec}.

(** *** Tokens across reads *)

Definition watch (s : bytes) (c : copier) : Prop :=
  tail c = last_bytes sseTailSize s ∧ (hasTerminal c = true → occurs terminal_word s) ∧ (occurs short_word s → hasTerminal c = true).

Lemma window_last (c : copier) s chunk : tail c = last_bytes sseTailSize s → tail (observe chunk c) = last_bytes sseTailSize (s ++ chunk).
Proof.
  intros Ht. unfold observe. cbn [tail with_window]. rewrite Ht. unfold last_bytes, sseTailSize. rewrite !length_app, length_drop.
  destruct (Nat.leb_spec 64 (length chunk)).
  - rewrite drop_app_ge by lia. f_equal. lia.
  - destruct (Nat.ltb_spec 64 (length s - (length s - 64) + length chunk)).
    + rewrite drop_drop, drop_app_le by lia. f_equal. f_equal. lia.
    + rewrite <- drop_app_le by lia. f_equal. lia.
Qed.

(** A short word at the joint of two reads lies in the window. *)
Lemma joint_word s chunk w a t : s ++ chunk = a ++ w ++ t → length w <= 33 → length a < length s → length s < length a + length w →
  occurs (eq w) (last_bytes sseTailSize s ++ take 32 chunk).
Proof.
  intros E Hw Ha Hs. apply app_eq_inv in E as [(u & -> & E)|(u & -> & E)]; [|rewrite length_app in Ha; lia].
  rewrite length_app in Hs. apply app_eq_inv in E as [(v & -> & E)|(v & -> & E)].
  - rewrite length_app in Hw, Hs, Ha. assert (Hv : 0 < length v) by lia. exists (drop (length (a ++ u) - sseTailSize) a), (u ++ v), (take (32 - length v) t).
    split; [done|]. unfold last_bytes. rewrite drop_app_le by (rewrite length_app; unfold sseTailSize; lia). rewrite E.
    rewrite take_app_ge by lia. by rewrite <- !app_assoc.
  - rewrite length_app in Hs. lia.
Qed.

Lemma watch_observe c s chunk : watch s c → watch (s ++ chunk) (observe chunk c).
Proof.
  intros (Ht & Hsound & Hcomplete). split; [by apply window_last|]. unfold observe. cbn [hasTerminal with_window]. split.
  - rewrite !orb_true_iff, andb_true_iff, !sseHasTerminalToken_spec. intros [[Hc|Hc]|[_ Hc]].
    + by apply occurs_app_r, Hsound.
    + by apply occurs_app_l.
    + rewrite <- (take_drop (length s - sseTailSize) s), <- (take_drop 32 chunk). rewrite Ht in Hc.
      rewrite <- app_assoc. apply occurs_app_l. rewrite app_assoc. apply occurs_app_r. exact Hc.
  - intros (a & w & t & [Hw Hl] & E). rewrite !orb_true_iff, andb_true_iff, !sseHasTerminalToken_spec.
    destruct (le_lt_dec (length a + length w) (length s)).
    + left. left. apply Hcomplete. rewrite app_assoc in E. apply app_eq_inv in E as [(u & -> & E)|(u & E & ->)].
      * exists a, w, u. rewrite <- app_assoc. done.
      * assert (Hu : length u = 0) by (apply (f_equal length) in E; rewrite !length_app in E; lia). destruct u; [|done].
        rewrite app_nil_r in E. exists a, w, []. rewrite app_nil_r. done.
    + destruct (le_lt_dec (length s) (length a)).
      * left. right. apply app_eq_inv in E as [(u & -> & E)|(u & -> & E)].
        -- rewrite length_app in l0. destruct u; [|cbn in l0; lia]. exists [], w, t. done.
        -- exists u, w, t. done.
      * right. destruct (joint_word s chunk w a t E Hl) as (a' & w' & t' & <- & E'); [lia..|]. rewrite Ht. split.
        -- destruct s as [|x s]; [cbn in *; lia|]. unfold last_bytes, nonempty. rewrite bool_decide_eq_false_2; [done|].
           intros E2. apply (f_equal length) in E2. rewrite length_drop in E2. cbn in E2. lia.
        -- exists a', w, t'. done.
Qed.

Lemma watch_fresh : watch [] fresh_copier.
Proof.
  split; [done|]. split; [done|]. intros (a & w & t & [Hw _] & E). exfalso. apply (terminal_word_nonempty w Hw).
  destruct a, w; try done.
Qed.

(** Whether a stream ended its turn does not depend on how it was cut into reads:
    after any sequence of reads the flag is set when the stream holds a terminal
    token with at most sixteen blanks before its value, and only when it holds one. *)
Theorem terminal_seen_however_read reads :
  let c := foldl (λ c chunk, observe chunk c) fresh_copier reads in
  (occurs short_word (concat reads) → hasTerminal c = true) ∧ (hasTerminal c = true → occurs terminal_word (concat reads)).
Proof.
  cbv zeta. assert (Hw : ∀ s c, watch s c → watch (s ++ concat reads) (foldl (λ c chunk, observe chunk c) c reads)).
  { induction reads as [|chunk reads IH]; intros s c Hc; cbn [foldl concat]; [by rewrite app_nil_r|].
    rewrite app_assoc. by apply IH, watch_observe. }
  destruct (Hw [] _ watch_fresh) as (_ & H1 & H2). done.
Qed.

(** ** Lines *)

Lemma split_lines_concat s : concat (split_lines s).1 ++ (split_lines s).2 = s.
Proof.
  induction s as [|c s IH]; [done|]. cbn [split_lines]. destruct (split_lines s) as [ls f]. cbn [fst snd] in IH.
  case_bool_decide; [cbn; by rewrite IH|]. destruct ls as [|l ls]; cbn in IH |- *; by rewrite IH.
Qed.

Lemma split_lines_rest s : ch_lf ∉ (split_lines s).2.
Proof.
  induction s as [|c s IH]; [apply not_elem_of_nil|]. cbn [split_lines]. destruct (split_lines s) as [ls f]. cbn [snd] in IH.
  case_bool_decide; [done|]. destruct ls as [|l ls]; cbn; [|done]. apply not_elem_of_cons. naive_solver.
Qed.

Lemma split_lines_nonempty s : Forall (λ l, l ≠ []) (split_lines s).1.
Proof.
  induction s as [|c s IH]; [constructor|]. cbn [split_lines]. destruct (split_lines s) as [ls f]. cbn [fst] in IH.
  case_bool_decide; [by constructor|]. destruct ls as [|l ls]; cbn; [constructor|]. inversion IH; subst. by constructor.
Qed.

Lemma split_lines_fragment q t : ch_lf ∉ q →
  split_lines (q ++ t) = match split_lines t with (l :: ls, f) => ((q ++ l) :: ls, f) | ([], f) => ([], q ++ f) end.
Proof.
  induction q as [|c q IH]; intros Hq; cbn [app split_lines]; [by destruct (split_lines t) as [[|l ls] f]|].
  apply not_elem_of_cons in Hq as [Hc Hq]. rewrite (IH Hq). destruct (split_lines t) as [[|l ls] f]; by rewrite bool_decide_eq_false_2.
Qed.

Lemma split_lines_app s t : split_lines (s ++ t) =
  ((split_lines s).1 ++ (split_lines ((split_lines s).2 ++ t)).1, (split_lines ((split_lines s).2 ++ t)).2).
Proof.
  induction s as [|c s IH]; [cbn; by destruct (split_lines t)|]. cbn [app split_lines]. rewrite IH.
  pose proof (split_lines_rest s) as Hr. destruct (split_lines s) as [ls f]. cbn [fst snd] in *.
  case_bool_decide as Hc; [done|]. destruct ls as [|l ls]; cbn [app fst snd]; [|done].
  cbn [app split_lines]. rewrite bool_decide_eq_false_2 by done. by destruct (split_lines (f ++ t)) as [[|l ls] f'].
Qed.

(** A line a client must not see. *)
Definition is_bad (line : bytes) : bool :=
  isEventErrorLine line || match DetectInbandSSEError line with Some _ => true | None => false end.
Definition kept (lines : list bytes) : list bytes := filter (λ l, is_bad l = false) lines.
Lemma kept_cons l ls : kept (l :: ls) = if is_bad l then kept ls else l :: kept ls.
Proof. unfold kept. destruct (is_bad l) eqn:E; [by rewrite filter_cons_False by congruence|by rewrite filter_cons_True]. Qed.

Definition first_error (lines : list bytes) : option (Z * bytes) := head (omap DetectInbandSSEError lines).

(** The lines up to the first sentinel. *)
Fixpoint cut_done (lines : list bytes) : list bytes * option bytes :=
  match lines with
  | [] => ([], None)
  | l :: ls => if ssePayloadIsDone l then ([], Some l) else let '(b, d) := cut_done ls in (l :: b, d)
  end.

Lemma cut_done_app l1 l2 : cut_done (l1 ++ l2) =
  match cut_done l1 with (b, None) => (b ++ (cut_done l2).1, (cut_done l2).2) | (b, Some d) => (b, Some d) end.
Proof.
  induction l1 as [|l l1 IH]; cbn [app cut_done]; [by destruct (cut_done l2)|]. destruct (ssePayloadIsDone l); [done|]. rewrite IH.
  by destruct (cut_done l1) as [b [d|]].
Qed.

Lemma cut_done_whole l b : cut_done l = (b, None) → b = l.
Proof.
  revert b. induction l as [|x l IH]; intros b; cbn [cut_done]; [by intros [= <-]|]. destruct (ssePayloadIsDone x); [done|].
  destruct (cut_done l) as [b' d] eqn:E. intros [= <- ->]. f_equal. by apply IH.
Qed.

Lemma cut_done_parts l b d : cut_done l = (b, Some d) → ∃ r, l = b ++ d :: r.
Proof.
  revert b. induction l as [|x l IH]; intros b; cbn [cut_done]; [done|]. destruct (ssePayloadIsDone x); [intros [= <- <-]; by exists l|].
  destruct (cut_done l) as [b' d'] eqn:E. intros [= <- ->]. destruct (IH b' eq_refl) as [r ->]. by exists r.
Qed.

(** Nothing in the middle of a line longer than what is held back reads as a
    sentinel or an error. *)
Definition steady (l : bytes) : Prop :=
  length l <= maxSSEHoldback ∨ ∀ k, maxSSEHoldback <= length (drop k l) → ssePayloadIsDone (drop k l) = false ∧ is_bad (drop k l) = false.

Lemma event_line_undetected l : isEventErrorLine l = true → DetectInbandSSEError l = None.
Proof.
  unfold isEventErrorLine, DetectInbandSSEError, inbandPayload. rewrite andb_true_iff. intros [E _].
  destruct (trim_space l) as [|c t]; [done|]. rewrite E, orb_true_r. done.
Qed.

(** ** What the client has been written *)

Variable accepts : bytes → bytes → bool.
Hypothesis client_listens : ∀ w p, accepts w p = true.

Definition ends (w : bytes) : nat := trail (ch_lf :: ch_lf :: w).
Definition counted (c : copier) : Prop := trailingNL c = ends (written c).
Definition emit (p : bytes) (c : copier) : copier := with_written (written c ++ p) (ends (written c ++ p)) c.

Lemma trail_snoc w x : trail (w ++ [x]) = if bool_decide (x = ch_lf) then Nat.min 2 (S (trail w)) else 0.
Proof.
  unfold trail. rewrite rev_unit. case_bool_decide as Hx; [|by destruct (rev w)].
  destruct (rev w) as [|a [|b r]]; [done|by case_bool_decide|]. by repeat case_bool_decide.
Qed.

Lemma trail_le w : trail w <= length w.
Proof.
  induction w as [|x w IH] using rev_ind; [done|]. rewrite trail_snoc, length_app. cbn [length]. case_bool_decide; lia.
Qed.

Lemma note_ends w p n : n = ends w → noteWritten p n = ends (w ++ p).
Proof.
  intros ->. unfold ends, noteWritten. rewrite !app_comm_cons. generalize (ch_lf :: ch_lf :: w) as v. intros v.
  induction p as [|x p IH] using rev_ind.
  - rewrite app_nil_r. cbn [trail rev length]. rewrite bool_decide_eq_true_2, Nat.add_0_r by done. destruct v as [|y v _] using rev_ind; [done|]. rewrite trail_snoc. case_bool_decide; lia.
  - rewrite app_assoc, !trail_snoc, length_app, <- IH. cbn [length]. pose proof (trail_le p). destruct (decide (x = ch_lf)) as [Hx|Hx].
    + rewrite !(bool_decide_eq_true_2 (x = ch_lf)) by done. repeat case_bool_decide; lia.
    + rewrite !(bool_decide_eq_false_2 (x = ch_lf)) by done. rewrite bool_decide_eq_false_2 by lia. done.
Qed.

Lemma emit_nil c : counted c → emit [] c = c.
Proof. unfold counted, emit. rewrite app_nil_r. intros <-. by destruct c. Qed.

Lemma emit_emit p q c : emit q (emit p c) = emit (p ++ q) c.
Proof. unfold emit, with_written. cbn. by rewrite <- app_assoc. Qed.

Lemma write_emit p c : counted c → writeRaw accepts p c = (emit p c, None).
Proof.
  intros Hc. unfold writeRaw. case_bool_decide as Hp; [by subst p; rewrite emit_nil|]. rewrite client_listens. unfold emit.
  by rewrite (note_ends (written c) p).
Qed.

Lemma counted_emit p c : counted (emit p c).
Proof. done. Qed.

Lemma blank_emit c : counted c → ensureBlank accepts c = (emit (separator (ends (written c))) c, None).
Proof. intros Hc. unfold ensureBlank. rewrite Hc. by apply write_emit. Qed.

Definition noting (lines : list bytes) (c : copier) : copier :=
  with_inband (match inband c with Some e => Some e | None => first_error lines end) c.

Lemma noting_cons l ls c : noting ls (noting [l] c) = noting (l :: ls) c.
Proof.
  unfold noting, first_error. destruct c as [w p t n tm dn sn [e|]]; cbn; [done|]. destruct (DetectInbandSSEError l); done.
Qed.

Lemma noting_clean l c : is_bad l = false → noting [l] c = c.
Proof.
  unfold is_bad, noting, first_error. intros [_ E]%orb_false_iff. destruct c as [w p t n tm dn sn [e|]]; cbn; [done|].
  by destruct (DetectInbandSSEError l).
Qed.

Lemma swallow_spec l c : is_bad l = false ∨ hasTerminal c = false → swallowInbandError l c = (is_bad l, noting [l] c).
Proof.
  intros Hb. unfold swallowInbandError. destruct (hasTerminal c) eqn:Et.
  { destruct Hb as [Hb|]; [|done]. by rewrite noting_clean, Hb. }
  unfold is_bad, noting, first_error. destruct (isEventErrorLine l) eqn:Ee.
  - destruct c as [w p t n tm dn sn [e|]]; cbn; by rewrite ?(event_line_undetected l Ee).
  - destruct c as [w p t n tm dn sn [e|]]; cbn; by destruct (DetectInbandSSEError l).
Qed.

Lemma writeEvents_spec lines seg c : counted c → Forall (λ l, is_bad l = false) (cut_done lines).1 ∨ hasTerminal c = false →
  writeEvents accepts lines seg c =
  let '(b, d) := cut_done lines in
  let c' := emit (seg ++ concat (kept b)) (noting b c) in
  match d with Some dl => writeDoneLine accepts dl c' | None => (c', None) end.
Proof.
  revert seg c. induction lines as [|l lines IH]; intros seg c Hc Hb; cbn [writeEvents cut_done].
  - rewrite write_emit by done. cbn. rewrite app_nil_r. unfold noting. cbn. f_equal. f_equal. by destruct c as [w p t n tm dn sn [e|]].
  - cbn [cut_done] in Hb. destruct (ssePayloadIsDone l).
    + unfold try. rewrite write_emit by done. cbn. rewrite app_nil_r. do 2 f_equal. unfold noting. by destruct c as [w p t n tm dn sn [e|]].
    + destruct (cut_done lines) as [b d] eqn:Ed. cbn [fst] in Hb, IH.
      rewrite swallow_spec by (destruct Hb as [Hb|]; [left; by inversion Hb|by right]). rewrite <- (noting_cons l b).
      assert (Hb' : Forall (λ l, is_bad l = false) b ∨ hasTerminal (noting [l] c) = false).
      { destruct Hb as [Hb|]; [left; by inversion Hb|by right]. }
      destruct (is_bad l) eqn:El.
      * unfold try. rewrite write_emit by done. cbv beta iota. rewrite (IH [] (emit seg (noting [l] c))) by done. rewrite kept_cons, El.
        change (noting b (emit seg (noting [l] c))) with (emit seg (noting b (noting [l] c))). rewrite emit_emit. done.
      * rewrite (IH (seg ++ l) (noting [l] c)) by done. rewrite kept_cons, El. cbn [concat]. by rewrite <- app_assoc.
Qed.

(** ** Reads *)

Lemma kept_app l1 l2 : kept (l1 ++ l2) = kept l1 ++ kept l2.
Proof. apply filter_app. Qed.

Lemma noting_app l1 l2 c : noting l2 (noting l1 c) = noting (l1 ++ l2) c.
Proof.
  revert c. induction l1 as [|l l1 IH]; intros c.
  - unfold noting at 2. destruct c as [w p t n tm dn sn [e|]]; done.
  - rewrite <- (noting_cons l l1), IH, noting_cons. done.
Qed.

Lemma not_elem_drop {A} (x : A) k l : x ∉ l → x ∉ drop k l.
Proof. intros Hl Hd. apply Hl. rewrite <- (take_drop k l). apply elem_of_app. by right. Qed.

Definition clean (l : bytes) : Prop := is_bad l = false.

(** The lines the copier makes of a read it joins to the held end [drop k q] of a
    line, against those of the stream. *)
Lemma resumed k q chunk (N := (split_lines (q ++ chunk)).1) (N' := (split_lines (drop k q ++ chunk)).1) b d :
  ch_lf ∉ q → k <= length q → k = 0 ∨ length q = k + maxSSEHoldback → cut_done N = (b, d) → Forall steady (b ++ option_list d) →
  (split_lines (q ++ chunk)).2 = take (if decide (N = []) then k else 0) q ++ (split_lines (drop k q ++ chunk)).2 ∧
  ∃ b', cut_done N' = (b', d) ∧ (N ≠ [] → take k q ++ concat (kept b') = concat (kept b)) ∧ (∀ c, noting b' c = noting b c) ∧
    (Forall clean b → Forall clean b').
Proof.
  intros Hq Hk Hlong Hcut Hsteady. assert (Hq' : ch_lf ∉ drop k q) by by apply not_elem_drop.
  assert (EN : N = match (split_lines chunk).1 with l :: ls => (q ++ l) :: ls | [] => [] end).
  { unfold N. rewrite split_lines_fragment by done. by destruct (split_lines chunk) as [[|l ls] f]. }
  assert (EN' : N' = match (split_lines chunk).1 with l :: ls => (drop k q ++ l) :: ls | [] => [] end).
  { unfold N'. rewrite split_lines_fragment by done. by destruct (split_lines chunk) as [[|l ls] f]. }
  pose proof (split_lines_nonempty chunk) as Hne.
  split.
  { case_decide as HN; rewrite !split_lines_fragment by done; destruct (split_lines chunk) as [[|l ls] f]; cbn [fst snd] in *; try done.
    - rewrite app_assoc. by rewrite take_drop.
    - congruence. }
  clearbody N N'. destruct (split_lines chunk) as [ls f]. cbn [fst] in *. destruct ls as [|l ls].
  { subst N N'. cbn in Hcut. injection Hcut as <- <-. by exists []. }
  destruct Hlong as [->|Hlong].
  { subst N N'. exists b. rewrite drop_0. split_and!; done. }
  assert (Hcl : ssePayloadIsDone (q ++ l) = false ∧ clean (q ++ l) ∧ ssePayloadIsDone (drop k q ++ l) = false ∧ clean (drop k q ++ l)).
  { inversion Hne as [|? ? Hl _]; subst. assert (Hs : steady (q ++ l)).
    { cbn [cut_done] in Hcut. destruct (ssePayloadIsDone (q ++ l)); [injection Hcut as <- <-|destruct (cut_done ls) as [b0 d0]; injection Hcut as <- <-];
        cbn in Hsteady; by inversion Hsteady. }
    assert (0 < length l) by (destruct l; [done|cbn; lia]). destruct Hs as [Hs|Hs]; [rewrite length_app in Hs; lia|].
    destruct (Hs 0) as [H1 H2]; [rewrite drop_0, length_app; lia|]. destruct (Hs k) as [H3 H4]; [rewrite length_drop, length_app; lia|].
    rewrite drop_0 in H1, H2. rewrite drop_app_le in H3, H4 by lia. done. }
  destruct Hcl as (H1 & H2 & H3 & H4). subst N N'. cbn [cut_done] in *. rewrite H1 in Hcut. rewrite H3. destruct (cut_done ls) as [b0 d0].
  injection Hcut as <- <-. exists ((drop k q ++ l) :: b0). split; [done|]. split; [|split].
  - intros _. rewrite !kept_cons, H2, H4. cbn [concat]. rewrite !app_assoc, take_drop. done.
  - intros c. rewrite <- (noting_cons _ b0 c), <- (noting_cons (q ++ l) b0 c), !noting_clean; done.
  - inversion 1; subst. by constructor.
Qed.

(** The copier after it relayed [s], in which no sentinel came. *)
Record relayed (s : bytes) (c : copier) : Prop := {
  r_written : ∃ k, let '(L, q) := split_lines s in
    written c = concat (kept L) ++ take k q ∧ pending c = drop k q ∧ k <= length q ∧ (k = 0 ∨ length q = k + maxSSEHoldback);
  r_counted : counted c;
  r_inband : inband c = first_error (split_lines s).1;
  r_done : hasDone c = false;
  r_watch : watch s c
}.

Lemma first_error_app l1 l2 : first_error (l1 ++ l2) = match first_error l1 with Some e => Some e | None => first_error l2 end.
Proof. unfold first_error. rewrite omap_app. by destruct (omap DetectInbandSSEError l1). Qed.

Lemma noting_inband l c : inband (noting l c) = match inband c with Some e => Some e | None => first_error l end.
Proof. done. Qed.

Lemma hold_spec frag c : counted c →
  hold accepts frag c = (SseCopy.with_pending (drop (length frag - maxSSEHoldback) frag) (emit (take (length frag - maxSSEHoldback) frag) c), None).
Proof. intros Hc. unfold hold, try. by rewrite write_emit. Qed.

(** What a read does, up to the line that ends the stream. *)
Definition quiet (b : list bytes) (s : bytes) : Prop := Forall clean b ∨ ¬ occurs terminal_word s.

Lemma no_terminal s c b : quiet b s → watch s c → Forall clean b ∨ hasTerminal c = false.
Proof. intros [Hb|Hn] (_ & Hs & _); [by left|right]. destruct (hasTerminal c); [|done]. by destruct (Hn (Hs eq_refl)). Qed.

(** Before the sentinel: the copier has what it should have, the held line aside. *)
Record ready (s : bytes) (lines : list bytes) (sse : bool) (c : copier) : Prop := {
  y_written : written c = concat (kept lines);
  y_counted : counted c;
  y_inband : inband c = first_error lines;
  y_done : hasDone c = false;
  y_watch : watch s c;
  y_sse : seenSSE c = sse
}.

Lemma feed_spec s c chunk b d (q := (split_lines s).2) :
  relayed s c → cut_done (split_lines (q ++ chunk)).1 = (b, d) → Forall steady (b ++ option_list d) → quiet b (s ++ chunk) →
  match d with
  | None => ∃ c', feed accepts chunk c = (c', None) ∧ relayed (s ++ chunk) c' ∧ seenSSE c' = seenSSE c
  | Some dl => ∃ c', ready (s ++ chunk) ((split_lines s).1 ++ b) (seenSSE c) c' ∧
      feed accepts chunk c = SseCopy.try (writeDoneLine accepts dl) (λ c, if hasDone c then (c, None) else hold accepts (split_lines (q ++ chunk)).2 c) c'
  end.
Proof.
  intros [[k Hw] Hc Hi Hdn Hwatch] Hcut Hsteady Hquiet. subst q. pose proof (split_lines_app s chunk) as Eapp.
  pose proof (split_lines_rest s) as Hq. destruct (split_lines s) as [L q] eqn:Es. cbn [fst snd] in *.
  destruct Hw as (Hw & Hp & Hk & Hlong). destruct (resumed k q chunk b d Hq Hk Hlong Hcut Hsteady) as (Hfrag & b' & Hcut' & Hkept & Hnote & Hclean).
  set (c1 := SseCopy.with_pending [] (observe chunk c)). assert (Hw1 : watch (s ++ chunk) c1) by exact (watch_observe c s chunk Hwatch).
  assert (Hc1 : counted c1) by exact Hc.
  assert (Hfeed : feed accepts chunk c = SseCopy.try (writeEvents accepts (split_lines (drop k q ++ chunk)).1 [])
    (λ c, if hasDone c then (c, None) else hold accepts (split_lines (drop k q ++ chunk)).2 c) c1).
  { unfold feed. cbn [pending observe with_window]. change (pending (observe chunk c)) with (pending c). rewrite Hp.
    by destruct (split_lines (drop k q ++ chunk)). }
  unfold SseCopy.try in Hfeed. rewrite writeEvents_spec in Hfeed; [|done|].
  2: { rewrite Hcut'. cbn. destruct (no_terminal (s ++ chunk) c1 b Hquiet Hw1); [left; by apply Hclean|by right]. }
  rewrite Hcut' in Hfeed. cbn [app] in Hfeed. rewrite Hnote in Hfeed.
  destruct (decide ((split_lines (q ++ chunk)).1 = [])) as [HN|HN].
  - rewrite HN in Hcut. cbn in Hcut. injection Hcut as <- <-.
    assert (HN' : (split_lines (drop k q ++ chunk)).1 = []).
    { assert (Hq' : ch_lf ∉ drop k q) by by apply not_elem_drop.
      rewrite split_lines_fragment in HN |- * by done. by destruct (split_lines chunk) as [[|l ls] f]. }
    rewrite HN' in Hcut'. cbn in Hcut'. injection Hcut' as <-. cbn [kept filter list_filter concat] in Hfeed.
    rewrite emit_nil in Hfeed by done. cbn [hasDone] in Hfeed. change (hasDone (noting [] c1)) with (hasDone c) in Hfeed. rewrite Hdn in Hfeed.
    rewrite hold_spec in Hfeed by done. eexists. split; [exact Hfeed|]. split; [|done]. split; cbn [inband hasDone SseCopy.with_pending emit with_written].
    + exists (k + (length (split_lines (drop k q ++ chunk)).2 - maxSSEHoldback)). rewrite Eapp, HN, app_nil_r. set (f := (split_lines (drop k q ++ chunk)).2) in *.
      rewrite Hfrag. assert (Ht : length (take k q) = k) by (rewrite length_take; lia). split; [|split; [|split]].
      * cbn [written SseCopy.with_pending emit with_written]. change (written (noting [] c1)) with (written c). rewrite Hw, <- app_assoc. f_equal.
        rewrite take_app_ge by lia. rewrite Ht.
        by replace (k + (length f - maxSSEHoldback) - k) with (length f - maxSSEHoldback) by lia.
      * cbn [pending]. rewrite drop_app_ge by lia. rewrite Ht.
        by replace (k + (length f - maxSSEHoldback) - k) with (length f - maxSSEHoldback) by lia.
      * rewrite length_app. lia.
      * rewrite length_app, Ht. destruct Hlong as [->|Hlong]; [|right].
        -- destruct (le_lt_dec (length f) maxSSEHoldback); [left|right]; lia.
        -- assert (Hf : length f = length q - k + length chunk).
           { unfold f. pose proof (split_lines_concat (drop k q ++ chunk)) as E. rewrite HN' in E. cbn in E. rewrite E, length_app, length_drop. done. }
           lia.
    + done.
    + rewrite Eapp, HN, app_nil_r. cbn [fst]. change (inband (noting [] c1)) with (match inband c with Some e => Some e | None => None end). rewrite Hi.
      by destruct (first_error L).
    + exact Hdn.
    + exact Hw1.
  - assert (Hw' : written c1 ++ concat (kept b') = concat (kept (L ++ b))).
    { change (written c1) with (written c). rewrite Hw, kept_app, concat_app, <- app_assoc. f_equal. by apply Hkept. }
    assert (Hi' : inband (noting b c1) = first_error (L ++ b)).
    { rewrite noting_inband, first_error_app. change (inband c1) with (inband c). by rewrite Hi. }
    rewrite take_0 in Hfrag. cbn [app] in Hfrag. rewrite <- Hfrag in Hfeed.
    destruct d as [dl|].
    + eexists. split; [|exact Hfeed]. split; cbn [written emit with_written inband hasDone]; try done.
      all: change (written (noting b c1)) with (written c1); rewrite ?Hw'; done.
    + change (hasDone (emit (concat (kept b')) (noting b c1))) with (hasDone c) in Hfeed. rewrite Hdn in Hfeed. rewrite hold_spec in Hfeed by done.
      eexists. split; [exact Hfeed|]. split; [|done]. apply cut_done_whole in Hcut. subst b. set (f := (split_lines (q ++ chunk)).2) in *.
      split; rewrite ?Eapp; cbn [fst inband hasDone SseCopy.with_pending emit with_written]; try done.
      * exists (length f - maxSSEHoldback). cbn [written pending emit with_written SseCopy.with_pending].
        change (written (noting _ c1)) with (written c1). rewrite Hw'. split_and!; [done|done|lia|lia].
Qed.

Lemma occurs_mono (P Q : bytes → Prop) s : (∀ w, P w → Q w) → occurs P s → occurs Q s.
Proof. intros Hpq (a & w & t & Hw & ->). exists a, w, t. auto. Qed.

Lemma relayed_flags s c sse : relayed s c → relayed s (with_flags (hasTerminal c) (hasDone c) sse c).
Proof. intros [Hw Hc Hi Hd Hwatch]. split; [exact Hw|exact Hc|exact Hi|exact Hd|exact Hwatch]. Qed.

(** The loop over all the reads. *)
Fixpoint copy_all (chunks : list bytes) (c : copier) : copier * option (option failure) :=
  match chunks with
  | [] => (c, None)
  | chunk :: chunks => match copy_step accepts chunk c with (c, Some r) => (c, Some r) | (c, None) => copy_all chunks c end
  end.

Lemma copy_loop_all reads last e c : copy_loop accepts reads last e c =
  match copy_all (reads ++ [last]) c with (c, Some r) => (c, r) | (c, None) => end_step accepts e c end.
Proof.
  revert c. induction reads as [|chunk reads IH]; intros c; cbn [app copy_loop copy_all].
  - by destruct (copy_step accepts last c) as [c' [r|]].
  - by destruct (copy_step accepts chunk c) as [c' [r|]].
Qed.

Definition carries_data (chunks : list bytes) : bool := existsb (contains (B "data:")) chunks.

(** The write of the sentinel's line ends the loop. *)
Definition last_line (dl : bytes) (c : copier) : copier * option (option failure) :=
  match writeDoneLine accepts dl c with (c, Some e) => (c, Some (Some e)) | (c, None) => (c, Some (inbandFailure c)) end.

Lemma writeDoneLine_done dl c : match writeDoneLine accepts dl c with (c', None) => hasDone c' = true | _ => True end.
Proof.
  unfold writeDoneLine. destruct (error_only c) as [e|].
  - unfold writeErrorClose, SseCopy.try. destruct (ensureBlank accepts c) as [c1 [?|]]; [done|].
    by destruct (writeRaw accepts _ c1) as [c2 [?|]].
  - unfold SseCopy.try. destruct ((if hasTerminal c then done_ok else _) c) as [c1 [?|]]; [done|].
    by destruct (writeRaw accepts dl c1) as [c2 [?|]].
Qed.

Lemma copy_step_spec s c chunk b d : relayed s c → cut_done (split_lines ((split_lines s).2 ++ chunk)).1 = (b, d) →
  Forall steady (b ++ option_list d) → quiet b (s ++ chunk) →
  match d with
  | None => ∃ c', copy_step accepts chunk c = (c', None) ∧ relayed (s ++ chunk) c' ∧ seenSSE c' = seenSSE c || contains (B "data:") chunk
  | Some dl => ∃ c' sse, ready (s ++ chunk) ((split_lines s).1 ++ b) sse c' ∧ copy_step accepts chunk c = last_line dl c'
  end.
Proof.
  intros Hr Hcut Hsteady Hquiet. destruct chunk as [|x chunk].
  { rewrite app_nil_r in Hcut |- *. pose proof (split_lines_rest s) as Hq.
    assert (E : split_lines (split_lines s).2 = ([], (split_lines s).2)).
    { rewrite <- (app_nil_r (split_lines s).2) at 1. rewrite split_lines_fragment by done. cbn. by rewrite app_nil_r. }
    rewrite E in Hcut. cbn in Hcut. injection Hcut as <- <-. exists c. split; [done|]. split; [done|]. by rewrite orb_false_r. }
  pose proof (feed_spec s _ (x :: chunk) b d (relayed_flags s c (seenSSE c || contains (B "data:") (x :: chunk)) Hr) Hcut Hsteady Hquiet) as Hf.
  unfold copy_step. set (c0 := with_flags _ _ _ c) in *. destruct d as [dl|].
  - destruct Hf as (c' & Hready & ->). exists c', (seenSSE c0). split; [done|]. unfold last_line, SseCopy.try.
    pose proof (writeDoneLine_done dl c') as Hd. destruct (writeDoneLine accepts dl c') as [c2 [?|]]; [done|]. by rewrite Hd, Hd.
  - destruct Hf as (c' & -> & Hr' & Hs). rewrite (r_done _ _ Hr'). exists c'. done.
Qed.

Lemma cut_done_step s chunk t b d : cut_done (split_lines s).1 = ((split_lines s).1, None) →
  cut_done (split_lines (s ++ chunk ++ t)).1 = (b, d) →
  let n := cut_done (split_lines ((split_lines s).2 ++ chunk)).1 in
  match n with
  | (b1, Some dl) => b = (split_lines s).1 ++ b1 ∧ d = Some dl
  | (b1, None) => cut_done (split_lines (s ++ chunk)).1 = ((split_lines (s ++ chunk)).1, None) ∧ (split_lines (s ++ chunk)).1 = (split_lines s).1 ++ b1 ∧
      ∃ b2, b = (split_lines (s ++ chunk)).1 ++ b2
  end.
Proof.
  intros Hs Hb. cbv zeta. rewrite app_assoc, (split_lines_app (s ++ chunk) t) in Hb. cbn [fst] in Hb.
  assert (E : cut_done (split_lines (s ++ chunk)).1 =
    let '(b1, d1) := cut_done (split_lines ((split_lines s).2 ++ chunk)).1 in ((split_lines s).1 ++ b1, d1)).
  { rewrite split_lines_app. cbn [fst]. rewrite cut_done_app, Hs. by destruct (cut_done (split_lines ((split_lines s).2 ++ chunk)).1). }
  rewrite cut_done_app, E in Hb. destruct (cut_done (split_lines ((split_lines s).2 ++ chunk)).1) as [b1 [dl|]] eqn:E1.
  - by injection Hb as <- <-.
  - rewrite E. apply cut_done_whole in E1. assert (El : (split_lines (s ++ chunk)).1 = (split_lines s).1 ++ b1) by (rewrite split_lines_app; cbn; by rewrite <- E1).
    injection Hb as <- <-. rewrite El. split; [done|]. split; [done|]. by eexists.
Qed.

Lemma copy_all_spec chunks s c b d : relayed s c → cut_done (split_lines s).1 = ((split_lines s).1, None) →
  cut_done (split_lines (s ++ concat chunks)).1 = (b, d) → Forall steady (b ++ option_list d) → quiet b (s ++ concat chunks) →
  match d with
  | None => ∃ c', copy_all chunks c = (c', None) ∧ relayed (s ++ concat chunks) c' ∧ seenSSE c' = seenSSE c || carries_data chunks
  | Some dl => ∃ c' s' t sse, s ++ concat chunks = s' ++ t ∧ (∃ u, s' = concat b ++ dl ++ u) ∧ ready s' b sse c' ∧ copy_all chunks c = last_line dl c'
  end.
Proof.
  revert s c. induction chunks as [|chunk chunks IH]; intros s c Hr Hs Hcut Hsteady Hquiet; cbn [concat copy_all] in *.
  { rewrite app_nil_r in *. rewrite Hs in Hcut. injection Hcut as <- <-. exists c. rewrite orb_false_r. done. }
  pose proof (cut_done_step s chunk (concat chunks) b d Hs Hcut) as Hstep. cbv zeta in Hstep.
  assert (Hq : ∀ b1, Forall clean b → (∃ b2 b0, b = b0 ++ b1 ++ b2) → Forall clean b1).
  { intros b1 Hb (b2 & b0 & ->). by apply Forall_app in Hb as [_ [? _]%Forall_app]. }
  assert (Hquiet1 : ∀ b1, (∃ b2 b0, b = b0 ++ b1 ++ b2) → quiet b1 (s ++ chunk)).
  { intros b1 Hb. destruct Hquiet as [Hc|Hn]; [left; by apply Hq|right]. contradict Hn. rewrite app_assoc. by apply occurs_app_r. }
  destruct (cut_done (split_lines ((split_lines s).2 ++ chunk)).1) as [b1 [dl|]] eqn:E1.
  - destruct Hstep as [-> ->]. assert (Hsteady1 : Forall steady (b1 ++ option_list (Some dl))).
    { rewrite <- app_assoc in Hsteady. by apply Forall_app in Hsteady as [_ ?]. }
    destruct (copy_step_spec s c chunk b1 (Some dl) Hr E1 Hsteady1) as (c' & sse & Hready & Hcopy).
    { apply Hquiet1. exists [], (split_lines s).1. by rewrite app_nil_r. }
    exists c', (s ++ chunk), (concat chunks), sse. split; [by rewrite app_assoc|]. split.
    + destruct (cut_done_parts _ _ _ E1) as [r Er]. pose proof (split_lines_concat ((split_lines s).2 ++ chunk)) as E2. rewrite Er, concat_app in E2.
      eexists. transitivity ((concat (split_lines s).1 ++ (split_lines s).2) ++ chunk); [by rewrite split_lines_concat|].
      rewrite <- app_assoc, <- E2, concat_app. cbn [concat]. rewrite <- !app_assoc. reflexivity.
    + split; [done|]. rewrite Hcopy. unfold last_line. by destruct (writeDoneLine accepts dl c') as [? [?|]].
  - destruct Hstep as (Hs' & El & b2 & ->).
    assert (Hsteady1 : Forall steady (b1 ++ option_list None)).
    { cbn. rewrite app_nil_r. rewrite El in Hsteady. rewrite <- !app_assoc in Hsteady. by apply Forall_app in Hsteady as [_ [? _]%Forall_app]. }
    destruct (copy_step_spec s c chunk b1 None Hr E1 Hsteady1) as (c' & -> & Hr' & Hsse).
    { apply Hquiet1. exists b2, (split_lines s).1. by rewrite El, <- app_assoc. }
    rewrite app_assoc in Hcut, Hquiet. specialize (IH (s ++ chunk) c' Hr' Hs' Hcut Hsteady Hquiet). destruct d as [dl|].
    + rewrite app_assoc. exact IH.
    + destruct IH as (c2 & -> & Hr2 & Hsse2). exists c2. rewrite app_assoc. split; [done|]. split; [done|].
      rewrite Hsse2, Hsse. cbn [carries_data existsb]. by rewrite orb_assoc.
Qed.

Lemma relayed_fresh : relayed [] fresh_copier.
Proof. split; try done; [by exists 0; split_and!; [..|left]|apply watch_fresh]. Qed.

Lemma SSECopy_spec reads last e b d (whole := concat reads ++ last) : cut_done (split_lines whole).1 = (b, d) →
  Forall steady (b ++ option_list d) → quiet b whole →
  match d with
  | None => ∃ c, SSECopy accepts reads last e = end_step accepts e c ∧ relayed whole c ∧ seenSSE c = carries_data (reads ++ [last])
  | Some dl => ∃ c s' t sse, whole = s' ++ t ∧ (∃ u, s' = concat b ++ dl ++ u) ∧ ready s' b sse c ∧
      SSECopy accepts reads last e = match last_line dl c with (c, Some r) => (c, r) | (c, None) => end_step accepts e c end
  end.
Proof.
  intros Hcut Hsteady Hquiet. assert (Ew : [] ++ concat (reads ++ [last]) = whole) by (rewrite concat_app; cbn; by rewrite app_nil_r).
  rewrite <- Ew in Hcut, Hquiet. pose proof (copy_all_spec (reads ++ [last]) [] _ b d relayed_fresh eq_refl Hcut Hsteady Hquiet) as Hall.
  unfold SSECopy. rewrite copy_loop_all. rewrite Ew in Hall. destruct d as [dl|].
  - destruct Hall as (c & s' & t & sse & H1 & H2 & H3 & ->). by exists c, s', t, sse.
  - destruct Hall as (c & -> & Hr & Hs). by exists c.
Qed.

Definition separation (w : bytes) : bytes := separator (ends w).
Definition told (e : Z * bytes) : bytes := BuildStreamErrorBytes e.1 e.2 SSEFormatOpenAI.

(** The client's stream and the result of the call when a sentinel line came,
    after the lines that were relayed. *)
Definition closing (terminal : bool) (e : option (Z * bytes)) (w dl : bytes) : bytes * option failure :=
  if terminal then (w ++ dl, None)
  else match e with
       | Some e => (w ++ separation w ++ told e, Some (UpstreamFailure e.1 e.2))
       | None => (w ++ separation w ++ sseStopTerminal ++ dl, None)
       end.

Lemma write_error_close e c : counted c →
  let '(c', r) := writeErrorClose accepts e c in written c' = written c ++ separation (written c) ++ told e ∧ r = Some (UpstreamFailure e.1 e.2).
Proof.
  intros Hc. unfold writeErrorClose, SseCopy.try. rewrite blank_emit by done. cbv beta iota. rewrite write_emit by done. rewrite emit_emit. done.
Qed.

Lemma last_line_spec dl c : counted c →
  ∃ c' r, last_line dl c = (c', Some r) ∧ (written c', r) = closing (hasTerminal c) (inband c) (written c) dl.
Proof.
  intros Hc. unfold last_line, writeDoneLine, error_only, closing. destruct (hasTerminal c) eqn:Ht.
  - unfold SseCopy.try, done_ok. rewrite write_emit by done. cbv beta iota. unfold close_flags. do 2 eexists. split; [done|]. cbn.
    unfold inbandFailure. cbn. by destruct (inband c) as [[? ?]|].
  - destruct (inband c) as [e|] eqn:Ei.
    + pose proof (write_error_close e c Hc) as He. destruct (writeErrorClose accepts e c) as [c' r]. destruct He as [Hw ->].
      do 2 eexists. split; [done|]. by rewrite Hw.
    + unfold SseCopy.try. rewrite blank_emit by done. cbv beta iota. rewrite write_emit by done. rewrite emit_emit. cbv beta iota.
      rewrite write_emit by done. rewrite emit_emit. unfold close_flags. do 2 eexists. split; [done|]. cbn. rewrite <- app_assoc.
      unfold inbandFailure. cbn. by destruct (inband c) as [[? ?]|].
Qed.

(** C15. A stream with a sentinel line, told to a client that accepts every write, of
    which no line before the sentinel tells a provider's error or which has no word
    that could end a turn, and of which no overlong line reads as a sentinel or an
    error in its middle. However it is cut into reads, it is relayed up to the
    sentinel, line by line as it came, and nothing behind the sentinel is. When the
    stream carried no end of turn one is added, unless a provider's error was
    swallowed: then the client is told the error and the call fails with it. The
    sentinel is the last thing written, without the blank line that ends an event.
    With both an error and an end of turn the cuts matter ([read_boundary_matters]). *)
Theorem done_stream_outcome reads last e b dl (whole := concat reads ++ last) :
  cut_done (split_lines whole).1 = (b, Some dl) → Forall steady (b ++ [dl]) → quiet b whole →
  ∃ terminal : bool, (occurs short_word (concat b) → terminal = true) ∧ (terminal = true → occurs terminal_word whole) ∧
    let '(c, r) := SSECopy accepts reads last e in (written c, r) = closing terminal (first_error b) (concat (kept b)) dl.
Proof.
  intros Hcut Hsteady Hquiet. destruct (SSECopy_spec reads last e b (Some dl) Hcut Hsteady Hquiet) as (c & s' & t & sse & Ew & (u & Eu) & Hready & ->).
  destruct Hready as [Hw Hc Hi _ (_ & Hsound & Hcomplete) _]. exists (hasTerminal c). split; [|split].
  - intros Ho. apply Hcomplete. rewrite Eu. by apply occurs_app_r.
  - intros Ht. fold whole in Ew. rewrite Ew. by apply occurs_app_r, Hsound.
  - destruct (last_line_spec dl c Hc) as (c' & r & -> & E). rewrite E, Hw, Hi. done.
Qed.

(** The end of a stream that died without a sentinel, once its last line is out. *)
Definition cut_short (terminal : bool) (e : option (Z * bytes)) (w : bytes) : bytes * option failure :=
  if terminal then (w ++ separation w ++ sseDoneFrame, None)
  else match e with
       | Some e => (w ++ separation w ++ told e, Some (UpstreamFailure e.1 e.2))
       | None => (w ++ separation w ++ sseTruncatedTerminal ++ sseDoneFrame, None)
       end.

Lemma close_unterminated_spec c : counted c → seenSSE c = true → hasDone c = false →
  ∃ c' r, close_unterminated accepts c = (c', r) ∧ (written c', r) = cut_short (hasTerminal c) (inband c) (written c).
Proof.
  intros Hc Hs Hd. unfold close_unterminated, error_only, cut_short. rewrite Hs, Hd. cbn [negb andb].
  assert (Hok : ∀ c, hasTerminal c = true ∨ inband c = None → inbandFailure c = None).
  { intros c0. unfold inbandFailure. destruct (inband c0) as [[? ?]|]; [|done]. by intros [->|]. }
  destruct (hasTerminal c) eqn:Ht.
  - unfold ignoring. rewrite blank_emit by done. cbn [fst]. change (hasTerminal (emit _ c)) with (hasTerminal c). rewrite Ht. unfold done_ok. cbn [fst].
    rewrite write_emit by done. rewrite emit_emit. do 2 eexists. split; [done|]. apply pair_equal_spec. split; [done|apply Hok; by left].
  - destruct (inband c) as [e|] eqn:Ei.
    + pose proof (write_error_close e c Hc) as He. destruct (writeErrorClose accepts e c) as [c' r]. destruct He as [Hw ->].
      do 2 eexists. split; [done|]. by rewrite Hw.
    + unfold ignoring. rewrite blank_emit by done. cbn [fst]. change (hasTerminal (emit _ c)) with (hasTerminal c). rewrite Ht.
      rewrite (write_emit sseTruncatedTerminal) by done. cbn [fst]. rewrite write_emit by done. rewrite !emit_emit. do 2 eexists. split; [done|].
      apply pair_equal_spec. split; [cbn [written emit with_written with_flags]; by rewrite <- ?app_assoc|apply Hok; by right].
Qed.

Lemma nothing_is_clean : clean [] ∧ steady [] ∧ ssePayloadIsDone [] = false.
Proof. split_and!; [by vm_compute|left; unfold maxSSEHoldback; cbn; lia|by vm_compute]. Qed.

(** The held end of the last line, as the copier judges it. *)
Lemma fragment_spec k q : k <= length q → k = 0 ∨ length q = k + maxSSEHoldback → steady q → ssePayloadIsDone q = false →
  ssePayloadIsDone (drop k q) = false ∧ (k = 0 ∨ is_bad q = false ∧ is_bad (drop k q) = false ∧ DetectInbandSSEError q = DetectInbandSSEError (drop k q)).
Proof.
  intros Hk Hlong Hsteady Hd. destruct Hlong as [->|Hlong]; [rewrite drop_0; auto|].
  destruct (decide (k = 0)) as [->|Hk0]; [rewrite drop_0; auto|]. destruct Hsteady as [Hs|Hs]; [unfold maxSSEHoldback in *; lia|].
  destruct (Hs 0) as [_ H2]; [rewrite drop_0; lia|]. destruct (Hs k) as [H3 H4]; [rewrite length_drop; lia|]. rewrite drop_0 in H2.
  split; [done|]. right. split; [done|]. split; [done|]. unfold is_bad in H2, H4.
  destruct (DetectInbandSSEError q); [by rewrite orb_true_r in H2|]. destruct (DetectInbandSSEError (drop k q)); [by rewrite orb_true_r in H4|done].
Qed.

Lemma kept_snoc_nil b q : concat (kept (b ++ [q])) = concat (kept b) ++ (if is_bad q then [] else q).
Proof. rewrite kept_app, concat_app, kept_cons. cbn. destruct (is_bad q); cbn; by rewrite ?app_nil_r. Qed.

Lemma finish_spec s c (L := (split_lines s).1) (q := (split_lines s).2) : relayed s c → seenSSE c = true →
  steady q → ssePayloadIsDone q = false → clean q ∨ hasTerminal c = false →
  ∃ c' r, finish accepts c = (c', r) ∧ (written c', r) = cut_short (hasTerminal c) (first_error (L ++ [q])) (concat (kept (L ++ [q]))).
Proof.
  intros [[k Hw] Hc Hi Hd _] Hs Hsteady Hdone Hbad. subst L q. destruct (split_lines s) as [L q]. cbn [fst snd] in *.
  destruct Hw as (Hw & Hp & Hk & Hlong). destruct (fragment_spec k q Hk Hlong Hsteady Hdone) as [Hdone' Hsame].
  assert (Hbad' : is_bad (drop k q) = is_bad q) by (destruct Hsame as [->|(-> & -> & _)]; [by rewrite drop_0|done]).
  assert (Hdet : DetectInbandSSEError (drop k q) = DetectInbandSSEError q) by (destruct Hsame as [->|(_ & _ & ->)]; [by rewrite drop_0|done]).
  assert (Hk0 : is_bad q = true → k = 0) by (intros E; destruct Hsame as [|(E' & _)]; [done|congruence]).
  unfold finish. rewrite Hp. set (c0 := SseCopy.with_pending [] c). assert (Hc0 : counted c0) by exact Hc.
  rewrite first_error_app, kept_snoc_nil. unfold first_error at 2. cbn [omap list_omap head].
  destruct (nonempty (drop k q)) eqn:En.
  - rewrite Hdone'. rewrite swallow_spec by (rewrite Hbad'; destruct Hbad as [|]; [by left|by right]). rewrite Hbad'.
    assert (Hi' : inband (noting [drop k q] c0) = match first_error L with Some e => Some e | None => match DetectInbandSSEError q with Some x => Some x | None => None end end).
    { rewrite noting_inband. change (inband c0) with (inband c). rewrite Hi. unfold first_error at 2. cbn. rewrite Hdet. by destruct (DetectInbandSSEError q). }
    destruct (is_bad q) eqn:Eb.
    + rewrite (Hk0 eq_refl) in *. destruct (close_unterminated_spec (noting [drop 0 q] c0)) as (c' & r & -> & E); [done|done|done|].
      exists c', r. split; [done|]. rewrite E, Hi'. change (written (noting _ c0)) with (written c). rewrite Hw. cbn [take]. rewrite take_0, app_nil_r.
      by destruct (DetectInbandSSEError q).
    + unfold ignoring. rewrite write_emit by done. cbn [fst].
      destruct (close_unterminated_spec (emit (drop k q) (noting [drop k q] c0))) as (c' & r & -> & E); [done|done|done|].
      exists c', r. split; [done|]. rewrite E. change (inband (emit _ ?x)) with (inband x). rewrite Hi'.
      change (written (emit _ _)) with (written c ++ drop k q). rewrite Hw, <- app_assoc, take_drop. by destruct (DetectInbandSSEError q).
  - assert (Eq : drop k q = []) by (destruct (drop k q); done).
    assert (q = []) as ->.
    { destruct Hsame as [->|_]; [by rewrite drop_0 in Eq|]. destruct Hlong as [->|Hlong]; [by rewrite drop_0 in Eq|].
      apply (f_equal length) in Eq. rewrite length_drop in Eq. unfold maxSSEHoldback in *. cbn in Eq. lia. }
    destruct nothing_is_clean as (Hcl & _ & _). rewrite Hcl.
    destruct (close_unterminated_spec c0) as (c' & r & -> & E); [done|done|done|]. exists c', r. split; [done|]. rewrite E.
    change (inband c0) with (inband c). change (written c0) with (written c). rewrite Hi, Hw, take_nil. by destruct (first_error L).
Qed.

(** C16. A stream cut off without a sentinel line is closed for the client. At its end
    every line that is no provider's error has been relayed, the unfinished one too;
    then comes the missing end of turn as a network error, or the error that was
    swallowed, which the call fails with. A read that fails is told to the client as
    an error, never as an end of turn. *)
Theorem cut_stream_outcome reads last e (whole := concat reads ++ last) (L := (split_lines whole).1) (q := (split_lines whole).2) :
  cut_done (L ++ [q]) = (L ++ [q], None) → Forall steady (L ++ [q]) → quiet (L ++ [q]) whole → carries_data (reads ++ [last]) = true →
  ∃ terminal : bool, (occurs short_word whole → terminal = true) ∧ (terminal = true → occurs terminal_word whole) ∧
    let '(c, r) := SSECopy accepts reads last e in
    match e with
    | EOF => (written c, r) = cut_short terminal (first_error (L ++ [q])) (concat (kept (L ++ [q])))
    | Aborted cause =>
        let w := concat (kept L) ++ q in
        written c = w ++ separation w ++ told (ClassifyStreamAbort cause) ∧ r = Some (ReadFailed cause)
    end.
Proof.
  intros Hcut Hsteady Hquiet Hdata. rewrite cut_done_app in Hcut. destruct (cut_done L) as [b [d|]] eqn:EL; [congruence|].
  pose proof (cut_done_whole _ _ EL) as ->. apply Forall_app in Hsteady as [HsL Hsq]. rewrite Forall_singleton in Hsq.
  assert (Hq : ssePayloadIsDone q = false).
  { cbn [cut_done] in Hcut. destruct (ssePayloadIsDone q); [cbn in Hcut; by rewrite app_nil_r in Hcut|done]. }
  destruct (SSECopy_spec reads last e L None EL) as (c & -> & Hr & Hs).
  { cbn. by rewrite app_nil_r. }
  { destruct Hquiet as [Hc|]; [left; by apply Forall_app in Hc as [? _]|by right]. }
  rewrite Hdata in Hs. pose proof (r_watch _ _ Hr) as (_ & Hsound & Hcomplete). exists (hasTerminal c). split; [done|]. split; [done|].
  destruct e as [|cause]; cbn [end_step].
  - destruct (finish_spec whole c Hr Hs Hsq Hq) as (c' & r & -> & E); [|done].
    destruct (no_terminal whole c (L ++ [q]) Hquiet (r_watch _ _ Hr)) as [Hc|]; [left|by right].
    apply Forall_app in Hc as [_ Hc]. by rewrite Forall_singleton in Hc.
  - destruct Hr as [[k Hw] Hc _ Hd _]. subst L q. fold whole in Hw |- *. destruct (split_lines whole) as [L q]. cbn [fst snd] in *.
    destruct Hw as (Hw & Hp & _ & _). unfold abort, ignoring. rewrite Hp. rewrite write_emit by done. cbn [fst].
    change (seenSSE (emit _ _)) with (seenSSE c). change (hasDone (emit _ _)) with (hasDone c). rewrite Hs, Hd. cbn [negb orb].
    destruct (ClassifyStreamAbort cause) as [code message]. rewrite blank_emit by done. cbn [fst]. rewrite write_emit by done. cbn [fst].
    assert (Ew : written c ++ drop k q = concat (kept L) ++ q) by by rewrite Hw, <- app_assoc, take_drop.
    cbn [written emit with_written with_flags SseCopy.with_pending]. rewrite Ew. split; [by rewrite <- app_assoc|done].
Qed.

End Relay.

(** ** Examples *)

Module Sample.

#[local] Existing Instance json_codec.

(** A line of a stream: [~] is a double quote. *)
Definition line (s : string) : bytes := js s ++ [ch_lf].
Definition event (s : string) : bytes := line s ++ [ch_lf].

Definition hello : bytes := event "data: {~choices~:[{~delta~:{~content~:~hello~}}]}".
Definition stopped : bytes := event "data: {~choices~:[{~delta~:{},~finish_reason~: ~stop~}]}".
Definition provider_error : bytes := event "data: {~choices~:[],~error~:{~code~:~503~,~message~:~ down ~}}".
Definition sentinel : bytes := event "data: [DONE]".

Definition copy (reads : list bytes) (e : read_end) : bytes * option failure :=
  let '(c, r) := SSECopy (λ _ _, true) reads [] e in (written c, r).

(** A healthy stream comes through, cut anywhere; the blank line of the last
    event does not. *)
Example healthy : copy [take 70 (hello ++ stopped ++ sentinel); drop 70 (hello ++ stopped ++ sentinel)] EOF =
  (hello ++ stopped ++ line "data: [DONE]", None).
Proof. by vm_compute. Qed.

Example bare_sentinel : copy [hello ++ sentinel] EOF = (hello ++ sseStopTerminal ++ line "data: [DONE]", None).
Proof. by vm_compute. Qed.

(** An error that carries a finish reason is relayed and the call succeeds. *)
Definition error_with_reason : bytes :=
  event "data: {~error~:{~code~:502,~message~:~disconnected~},~choices~:[{~delta~:{},~finish_reason~:~error~}]}".
Example error_with_reason_is_served : copy [hello; error_with_reason; sentinel] EOF = (hello ++ error_with_reason ++ line "data: [DONE]", None).
Proof. by vm_compute. Qed.

(** An error is swallowed or relayed depending on whether the end of the turn comes
    in the same read. *)
Example read_boundary_matters :
  copy [hello; provider_error; stopped ++ sentinel] EOF = (hello ++ [ch_lf] ++ stopped ++ line "data: [DONE]", None) ∧
  copy [hello; provider_error ++ stopped ++ sentinel] EOF = (hello ++ provider_error ++ stopped ++ line "data: [DONE]", None).
Proof. split; by vm_compute. Qed.

Lemma no_token s : sseHasTerminalToken s = false → ¬ occurs terminal_word s.
Proof. intros E Ho%sseHasTerminalToken_spec. congruence. Qed.

Lemma all_steady ls : forallb (λ l, (length l <=? maxSSEHoldback)%nat) ls = true → Forall steady ls.
Proof.
  intros Hf. apply Forall_forall. intros l Hl. left. apply Nat.leb_le. rewrite forallb_forall in Hf. by apply Hf, list_elem_of_In.
Qed.

Definition sick : bytes := hello ++ provider_error ++ sentinel.

Definition sick_lines : list bytes :=
  [line "data: {~choices~:[{~delta~:{~content~:~hello~}}]}"; [ch_lf];
   line "data: {~choices~:[],~error~:{~code~:~503~,~message~:~ down ~}}"; [ch_lf]].
Definition sick_error : Z * bytes := (503%Z, B "upstream event stream carried an error: down").

Lemma sick_cut : cut_done (split_lines (concat [take 100 sick] ++ drop 100 sick)).1 = (sick_lines, Some (line "data: [DONE]")).
Proof. by vm_compute. Qed.

Lemma sick_has_no_token : ¬ occurs terminal_word (concat [take 100 sick] ++ drop 100 sick).
Proof. apply no_token. by vm_compute. Qed.

Lemma sick_closing : closing false (first_error sick_lines) (concat (kept sick_lines)) (line "data: [DONE]") =
  (hello ++ [ch_lf] ++ told sick_error, Some (UpstreamFailure sick_error.1 sick_error.2)).
Proof. by vm_compute. Qed.

Lemma done_stream_witness :
  let '(c, r) := SSECopy (λ _ _, true) [take 100 sick] (drop 100 sick) EOF in
  (written c, r) = (hello ++ [ch_lf] ++ told sick_error, Some (UpstreamFailure sick_error.1 sick_error.2)).
Proof.
  destruct (done_stream_outcome (λ _ _, true) (λ _ _, eq_refl) [take 100 sick] (drop 100 sick) EOF sick_lines (line "data: [DONE]") sick_cut
    ltac:(apply all_steady; by vm_compute) (or_intror sick_has_no_token)) as (t & _ & Ht & Hc).
  assert (Et : t = false) by (destruct t; [destruct (sick_has_no_token (Ht eq_refl))|reflexivity]).
  rewrite Et, sick_closing in Hc. exact Hc.
Defined.

Definition cut : bytes := hello ++ js "data: {~choices~:[{~delta~:{~content~:~wor".

Lemma cut_stream_witness :
  let '(c, r) := SSECopy (λ _ _, true) [cut] [] (Aborted StreamStall) in
  written c = cut ++ [ch_lf; ch_lf] ++ told (504%Z, B "stream stall timeout") ∧ r = Some (ReadFailed StreamStall).
Proof.
  assert (Hcut : cut_done ((split_lines (concat [cut] ++ [])).1 ++ [(split_lines (concat [cut] ++ [])).2]) =
    ((split_lines (concat [cut] ++ [])).1 ++ [(split_lines (concat [cut] ++ [])).2], None)) by by vm_compute.
  assert (Hquiet : quiet ((split_lines (concat [cut] ++ [])).1 ++ [(split_lines (concat [cut] ++ [])).2]) (concat [cut] ++ [])).
  { right. apply no_token. by vm_compute. }
  destruct (cut_stream_outcome (λ _ _, true) (λ _ _, eq_refl) [cut] [] (Aborted StreamStall) Hcut ltac:(apply all_steady; by vm_compute) Hquiet eq_refl)
    as (t & _ & _ & Hc).
  assert (Ew : concat (kept (split_lines (concat [cut] ++ [])).1) ++ (split_lines (concat [cut] ++ [])).2 = cut) by by vm_compute.
  assert (Es : separation cut = [ch_lf; ch_lf]) by by vm_compute. cbv zeta in Hc. rewrite Ew, Es in Hc. exact Hc.
Defined.

End Sample.
