(* ===== verification/SseScanner.v ===== *)
(** * The events of an upstream stream
    ([ScanStream] of [internal/proxy/sse_scanner.go])

    [bufio.Scanner] hands out slices of its buffer, and the reader of events keeps
    the data lines of an event as such slices until the event ends. The buffer is an
    array of a [heap], so that what a later read writes over a held line is seen.
    [ScanStreamWithDeadline], whose bound closes the reader, is not modelled. *)

From S2P Require Import Prelude GoRegexp Json GoText ErrorClassify SseCopy SseRelay.

Local Open Scope nat_scope.

(** ** [bufio.Scanner] over lines *)

(** Part of an array of the heap. *)
Record slice := { arr : nat; off : nat; len : nat }.

Record scanner := {
  heap : list bytes; buf : nat;      (* the arrays; the scanner's own *)
  start : nat; stop : nat;           (* the unread part of the buffer *)
  reads : list bytes;                (* what the reader will return *)
  ended : bool; tooLong : bool
}.

Definition array (h : list bytes) (a : nat) : bytes := default [] (h !! a).
Definition contents (h : list bytes) (s : slice) : bytes := take (len s) (drop (off s) (array h (arr s))).

Definition with_window (a b : nat) (s : scanner) : scanner :=
  {| heap := heap s; buf := buf s; start := a; stop := b; reads := reads s; ended := ended s; tooLong := tooLong s |}.

(** [copy(buf[at:], data)]. *)
Definition overwrite (p : nat) (data b : bytes) : bytes := take p b ++ data ++ drop (p + length data) b.
Definition store (data : bytes) (p : nat) (s : scanner) : list bytes := alter (overwrite p data) (buf s) (heap s).

Fixpoint line_end (s : bytes) : option nat :=
  match s with [] => None | c :: s => if bool_decide (c = ch_lf) then Some 0 else S <$> line_end s end.

(** The length of a line without a carriage return. *)
Definition dropCR (line : bytes) : bytes :=
  match rev line with c :: r => if bool_decide (c = ch_cr) then rev r else line | [] => line end.

Definition unread (s : scanner) : bytes := take (stop s - start s) (drop (start s) (array (heap s) (buf s))).

(** [bufio.ScanLines] on the unread part. *)
Definition next_line (s : scanner) : option (slice * scanner) :=
  let data := unread s in
  let token n := {| arr := buf s; off := start s; len := length (dropCR (take n data)) |} in
  match line_end data with
  | Some i => Some (token i, with_window (start s + S i) (stop s) s)
  | None => if ended s && nonempty data then Some (token (length data), with_window (stop s) (stop s) s) else None
  end.

Definition maxTokenSize : Z := 10 * 1024 * 1024.

(** Move the unread part to the front when there is little room behind it. *)
Definition shift (s : scanner) : scanner :=
  let size := length (array (heap s) (buf s)) in
  if (0 <? start s) && ((stop s =? size) || (Nat.div2 size <? start s)) then
    {| heap := store (unread s) 0 s; buf := buf s; start := 0; stop := stop s - start s; reads := reads s; ended := ended s; tooLong := tooLong s |}
  else s.

(** A full buffer is replaced by one of twice the size. *)
Definition grow (s : scanner) : option scanner :=
  let b := array (heap s) (buf s) in
  if stop s =? length b then
    if (maxTokenSize <=? zlen b)%Z then None
    else
      let size := Z.to_nat (Z.min (2 * zlen b) maxTokenSize) in
      Some {| heap := heap s ++ [overwrite 0 (unread s) (replicate size ch_lf)]; buf := length (heap s); start := 0; stop := stop s - start s;
              reads := reads s; ended := ended s; tooLong := tooLong s |}
  else Some s.

Definition read (s : scanner) : scanner :=
  match reads s with
  | [] => {| heap := heap s; buf := buf s; start := start s; stop := stop s; reads := []; ended := true; tooLong := tooLong s |}
  | chunk :: rest =>
      let room := length (array (heap s) (buf s)) - stop s in
      let data := take room chunk in
      {| heap := store data (stop s) s; buf := buf s; start := start s; stop := stop s + length data;
         reads := match drop room chunk with [] => rest | more => more :: rest end; ended := ended s; tooLong := tooLong s |}
  end.

Fixpoint Scan (fuel : nat) (s : scanner) : option slice * scanner :=
  match next_line s with
  | Some (token, s) => (Some token, s)
  | None =>
      if ended s then (None, with_window 0 0 s)
      else match fuel with
           | O => (None, s)
           | S fuel =>
               match grow (shift s) with
               | None => (None, {| heap := heap s; buf := buf s; start := 0; stop := 0; reads := reads s; ended := ended s; tooLong := true |})
               | Some s => Scan fuel (read s)
               end
           end
  end.

(** ** Events *)

(** A data line without its field name and one blank. *)
Definition narrow (h : list bytes) (token : slice) : slice :=
  let skip := match drop 5 (contents h token) with " "%char :: _ => 6 | _ => 5 end in
  {| arr := arr token; off := off token + skip; len := len token - skip |}.

Definition emit (h : list bytes) (dataLines : list slice) : list bytes :=
  match dataLines with
  | [] => []
  | _ => let payload := join [ch_lf] (map (contents h) dataLines) in if nonempty payload then [payload] else []
  end.

(** The payloads handed to the callback; the flag is the scanner's own error. *)
Fixpoint scan_events (fuel scan_fuel : nat) (s : scanner) (dataLines : list slice) : list bytes * bool :=
  match fuel with
  | O => ([], false)
  | S fuel =>
      match Scan scan_fuel s with
      | (None, s) => (emit (heap s) dataLines, tooLong s)
      | (Some token, s) =>
          match contents (heap s) token with
          | [] => let '(ps, e) := scan_events fuel scan_fuel s [] in (emit (heap s) dataLines ++ ps, e)
          | c :: line =>
              if bool_decide (c = ":"%char) then scan_events fuel scan_fuel s dataLines
              else if has_prefix (B "data:") (c :: line) then scan_events fuel scan_fuel s (dataLines ++ [narrow (heap s) token])
              else scan_events fuel scan_fuel s dataLines
          end
      end
  end.

Definition bufSize : nat := Z.to_nat (64 * 1024).

Definition new_scanner (chunks : list bytes) : scanner :=
  {| heap := [replicate bufSize ch_lf]; buf := 0; start := 0; stop := 0; reads := chunks; ended := false; tooLong := false |}.

Definition ScanStream (chunks : list bytes) : list bytes * bool :=
  scan_events (length (concat chunks) + 2) (length (concat chunks) + length chunks + 1) (new_scanner chunks) [].

Lemma bufSize_value : bufSize = Z.to_nat 65536.
Proof. done. Qed.

Lemma bufSize_half : Nat.div2 bufSize + Nat.div2 bufSize = bufSize ∧ 0 < Nat.div2 bufSize.
Proof.
  set (h := Z.to_nat (32 * 1024)). assert (E : bufSize = 2 * h) by (unfold bufSize, h; lia).
  rewrite E, Nat.div2_double. unfold h. lia.
Qed.

#[local] Opaque bufSize.

(** ** The events of a stream, without a buffer *)

Definition strip_name (line : bytes) : bytes := match drop 5 line with " "%char :: t => t | t => t end.

Definition payload (held : list bytes) : list bytes :=
  match held with [] => [] | _ => let p := join [ch_lf] held in if nonempty p then [p] else [] end.

(** What a run of lines adds: payloads, and the data lines still held. *)
Fixpoint assemble (lines held : list bytes) : list bytes * list bytes :=
  match lines with
  | [] => ([], held)
  | [] :: lines => let '(ps, held') := assemble lines [] in (payload held ++ ps, held')
  | (c :: _) as l :: lines =>
      assemble lines (if negb (bool_decide (c = ":"%char)) && has_prefix (B "data:") l then held ++ [strip_name l] else held)
  end.

(** The text of a line that ends in a line feed. *)
Definition line_text (l : bytes) : bytes := dropCR (removelast l).
Definition events (s : bytes) : list bytes * list bytes := assemble (map line_text (split_lines s).1) [].

(** A read that ends where an event ends. *)
Definition whole_events (c : bytes) : Prop := c ≠ [] ∧ (split_lines c).2 = [] ∧ (events c).2 = [].

(** ** The scanner against it *)

Definition is_line (l : bytes) : Prop := ∃ x, l = x ++ [ch_lf] ∧ ch_lf ∉ x.

Lemma split_lines_are_lines s : Forall is_line (split_lines s).1.
Proof.
  induction s as [|c s IH]; [constructor|]. cbn [split_lines]. destruct (split_lines s) as [ls f]. cbn [fst] in IH.
  case_bool_decide as Hc; [subst c; constructor; [exists []; split; [done|apply not_elem_of_nil]|done]|].
  destruct ls as [|l ls]; cbn; [constructor|]. inversion IH as [|? ? (x & -> & Hx) IH']; subst. constructor; [|done].
  exists (c :: x). split; [done|]. apply not_elem_of_cons. split; [congruence|done].
Qed.

Lemma line_end_line x t : ch_lf ∉ x → line_end (x ++ ch_lf :: t) = Some (length x).
Proof.
  induction x as [|c x IH]; intros Hx; cbn; [done|]. apply not_elem_of_cons in Hx as [Hc Hx].
  rewrite bool_decide_eq_false_2 by congruence. by rewrite IH.
Qed.

Lemma dropCR_prefix x : dropCR x = take (length (dropCR x)) x.
Proof.
  unfold dropCR. destruct (rev x) as [|c r] eqn:E; [by rewrite firstn_all|]. case_bool_decide; [|by rewrite firstn_all].
  assert (Ex : x = rev r ++ [c]) by (by rewrite <- (rev_involutive x), E). by rewrite Ex, take_app_length.
Qed.

Lemma dropCR_id x : ch_cr ∉ x → dropCR x = x.
Proof.
  intros Hx. unfold dropCR. destruct (rev x) as [|c r] eqn:E; [done|]. rewrite bool_decide_eq_false_2; [done|].
  intros ->. apply Hx, elem_of_rev. rewrite E. left.
Qed.

Lemma next_line_line s x t : ch_lf ∉ x → unread s = x ++ ch_lf :: t →
  let token := {| arr := buf s; off := start s; len := length (dropCR x) |} in
  next_line s = Some (token, with_window (start s + S (length x)) (stop s) s) ∧ contents (heap s) token = dropCR x.
Proof.
  intros Hx E token. unfold next_line. rewrite E, line_end_line, take_app_length by done. split; [done|]. unfold contents, token. cbn [len off arr].
  unfold unread in E. set (A := drop (start s) (array (heap s) (buf s))) in *.
  assert (Ht : take (length x) A = x).
  { assert (Hl : length x <= stop s - start s) by (apply (f_equal length) in E; rewrite length_take, length_app in E; cbn in E; lia).
    transitivity (take (length x) (take (stop s - start s) A)); [by rewrite take_take, Nat.min_l by lia|]. by rewrite E, take_app_length. }
  rewrite dropCR_prefix at 2. rewrite <- Ht at 3. rewrite take_take. f_equal. rewrite Nat.min_l; [done|].
  rewrite (dropCR_prefix x). rewrite length_take. lia.
Qed.

Lemma Scan_token s token s' fuel : next_line s = Some (token, s') → Scan fuel s = (Some token, s').
Proof. intros E. destruct fuel; cbn [Scan]; by rewrite E. Qed.

Lemma contents_narrow h token : has_prefix (B "data:") (contents h token) = true → contents h (narrow h token) = strip_name (contents h token).
Proof.
  intros Hp. assert (Hskip : ∀ k, contents h {| arr := arr token; off := off token + k; len := len token - k |} = drop k (contents h token)).
  { intros k. unfold contents. cbn [len off arr]. rewrite <- drop_drop. by rewrite skipn_firstn_comm. }
  unfold narrow, strip_name. rewrite Hskip. destruct (drop 5 (contents h token)) as [|c t] eqn:E; [done|].
  assert (E6 : drop 6 (contents h token) = t) by (change 6 with (5 + 1); by rewrite <- drop_drop, E).
  destruct c as [[] [] [] [] [] [] [] []]; try exact E; exact E6.
Qed.

(** The lines at hand are read without touching the buffer. *)
Lemma available lines : ∀ s held fuel sf, Forall is_line lines → unread s = concat lines → stop s = start s + length (concat lines) →
  ∃ held', map (contents (heap s)) held' = (assemble (map line_text lines) (map (contents (heap s)) held)).2 ∧
    scan_events (length lines + fuel) sf s held =
      let '(ps, e) := scan_events fuel sf (with_window (stop s) (stop s) s) held' in
      ((assemble (map line_text lines) (map (contents (heap s)) held)).1 ++ ps, e).
Proof.
  induction lines as [|l lines IH]; intros s held fuel sf Hl Hu Hs.
  { exists held. split; [done|]. cbn in Hs. rewrite Nat.add_0_r in Hs. cbn.
    assert (Es : with_window (stop s) (stop s) s = s) by (rewrite Hs at 1; by destruct s). rewrite Es.
    by destruct (scan_events fuel sf s held). }
  inversion Hl as [|? ? (x & -> & Hx) Hl']; subst. cbn [concat] in Hu, Hs. rewrite <- app_assoc in Hu.
  destruct (next_line_line s x (concat lines) Hx Hu) as (En & Ec). set (token := Build_slice _ _ _) in *.
  set (s1 := with_window (start s + S (length x)) (stop s) s) in *.
  assert (Hu1 : unread s1 = concat lines).
  { unfold unread, s1. cbn [stop start heap buf with_window]. rewrite <- drop_drop, Nat.sub_add_distr, <- skipn_firstn_comm.
    unfold unread in Hu. rewrite Hu. rewrite drop_app_ge by lia. by replace (S (length x) - length x) with 1 by lia. }
  assert (Hs1 : stop s1 = start s1 + length (concat lines)) by (cbn; rewrite Hs, !length_app; cbn; lia).
  assert (Et : line_text (x ++ [ch_lf]) = dropCR x) by (unfold line_text; by rewrite removelast_last).
  cbn [map length Nat.add scan_events]. rewrite (Scan_token _ _ _ _ En), Et. change (heap s1) with (heap s). rewrite Ec.
  pose proof (λ held, IH s1 held fuel sf Hl' Hu1 Hs1) as IH1. change (heap s1) with (heap s) in IH1.
  change (with_window (stop s1) (stop s1) s1) with (with_window (stop s) (stop s) s) in IH1.
  destruct (dropCR x) as [|c r] eqn:Ed; cbn [assemble].
  - destruct (IH1 []) as (held' & H1 & H2). exists held'. change (map (contents (heap s)) []) with (@nil bytes) in H1, H2.
    destruct (assemble (map line_text lines) []) as [ps h2]. cbn [fst snd] in *. split; [done|]. rewrite H2.
    destruct (scan_events fuel sf _ held') as [ps' e]. f_equal. rewrite app_assoc. f_equal. unfold emit, payload. by destruct held.
  - case_bool_decide as Hc; cbn [negb andb]; [exact (IH1 held)|]. destruct (has_prefix (B "data:") (c :: r)) eqn:Hp; [|exact (IH1 held)].
    specialize (IH1 (held ++ [narrow (heap s) token])). rewrite map_app in IH1. cbn [map] in IH1.
    rewrite contents_narrow in IH1 by (by rewrite Ec). by rewrite Ec in IH1.
Qed.

(** Nothing unread, and the buffer the scanner started with. *)
Record idle (s : scanner) : Prop := {
  i_empty : start s = stop s;
  i_room : stop s <= bufSize;
  i_size : length (array (heap s) (buf s)) = bufSize;
  i_own : is_Some (heap s !! buf s);
  i_going : ended s = false;
  i_ok : tooLong s = false
}.

Lemma next_line_idle s : idle s → next_line s = None.
Proof.
  intros [He _ _ _ Hg _]. unfold next_line, unread. rewrite He, Nat.sub_diag. cbn. by rewrite Hg.
Qed.

Lemma overwrite_length p data b : p + length data <= length b → length (overwrite p data b) = length b.
Proof. intros Hl. unfold overwrite. rewrite !length_app, length_take, length_drop. lia. Qed.

Lemma array_store data p s : is_Some (heap s !! buf s) → array (store data p s) (buf s) = overwrite p data (array (heap s) (buf s)).
Proof. intros [b E]. unfold array, store. by rewrite list_lookup_alter_eq, E. Qed.

Lemma store_own data p s : is_Some (heap s !! buf s) → is_Some (store data p s !! buf s).
Proof. intros [b E]. unfold store. rewrite list_lookup_alter_eq, E. by eexists. Qed.

(** Before a read there is room for half a buffer. *)
Lemma shift_idle s : idle s → ∃ s', grow (shift s) = Some s' ∧ idle s' ∧ stop s' <= Nat.div2 bufSize ∧ reads s' = reads s.
Proof.
  intros Hi. pose proof Hi as [He Hr Hz Ho Hg Hk]. destruct bufSize_half as [Hh Hp]. unfold shift. rewrite Hz.
  destruct ((0 <? start s) && ((stop s =? bufSize) || (Nat.div2 bufSize <? start s))) eqn:Ec.
  - assert (Hu : unread s = []) by (unfold unread; by rewrite He, Nat.sub_diag). rewrite Hu, He, Nat.sub_diag.
    assert (Ha : array (store [] 0 s) (buf s) = array (heap s) (buf s)) by (rewrite array_store by done; done).
    unfold grow. cbn [stop heap buf]. rewrite Ha, Hz. destruct (Nat.eqb_spec 0 bufSize); [lia|]. eexists. split; [done|].
    split; [|cbn; split; [lia|done]]. split; cbn; [done|lia|by rewrite Ha|by apply store_own|done|done].
  - unfold grow. rewrite Hz. apply andb_false_iff in Ec. destruct (Nat.eqb_spec (stop s) bufSize) as [E|E].
    + exfalso. rewrite Nat.ltb_ge, orb_false_iff in Ec. destruct Ec as [Ec|[Ec _]]; [rewrite He in Ec; lia|done].
    + exists s. split; [done|]. split; [done|]. split; [|done]. rewrite Nat.ltb_ge, orb_false_iff, Nat.ltb_ge in Ec. lia.
Qed.

Lemma read_chunk s c rest : idle s → reads s = c :: rest → stop s <= Nat.div2 bufSize → length c <= Nat.div2 bufSize →
  let s' := read s in unread s' = c ∧ stop s' = start s' + length c ∧ reads s' = rest ∧ idle (with_window (stop s') (stop s') s').
Proof.
  intros [He Hr Hz Ho Hg Hk] E Hs Hc. destruct bufSize_half as [Hh _]. unfold read. rewrite E, Hz. cbv zeta.
  rewrite (firstn_all2 c), (skipn_all2 c) by lia. unfold unread. cbn [start stop heap buf reads]. rewrite array_store by done.
  split; [|split; [by rewrite He|split; [done|]]].
  - rewrite He. replace (stop s + length c - stop s) with (length c) by lia. unfold overwrite.
    rewrite drop_app_ge by (rewrite length_take; lia). rewrite length_take, Hz, Nat.min_l by lia. rewrite Nat.sub_diag. apply take_app_length.
  - split; cbn; [done|lia| |by apply store_own|done|done]. rewrite array_store by done. rewrite overwrite_length; lia.
Qed.

Lemma lines_bound s : length (split_lines s).1 <= length s.
Proof.
  induction s as [|c s IH]; [done|]. cbn [split_lines length]. destruct (split_lines s) as [ls f]. cbn [fst] in IH.
  case_bool_decide; [cbn; lia|]. destruct ls; cbn in *; lia.
Qed.

Lemma assemble_app l1 l2 held : assemble (l1 ++ l2) held =
  ((assemble l1 held).1 ++ (assemble l2 (assemble l1 held).2).1, (assemble l2 (assemble l1 held).2).2).
Proof.
  revert held. induction l1 as [|l l1 IH]; intros held; cbn [app assemble fst snd]; [by destruct (assemble l2 held)|].
  destruct l as [|c l]; [|apply IH]. rewrite IH. destruct (assemble l1 []). cbn. by rewrite app_assoc.
Qed.

Lemma scanned_events_app a b : whole_events a → events (a ++ b) = ((events a).1 ++ (events b).1, (events b).2).
Proof.
  intros (_ & Hf & Hh). unfold events in *. rewrite split_lines_app, Hf. cbn [fst app]. by rewrite map_app, assemble_app, Hh.
Qed.

Lemma scan_idle chunks : ∀ s fuel sf, idle s → reads s = chunks → Forall (λ c, whole_events c ∧ length c <= Nat.div2 bufSize) chunks →
  length (concat chunks) < fuel → 0 < sf → scan_events fuel sf s [] = ((events (concat chunks)).1, false).
Proof.
  induction chunks as [|c chunks IH]; intros s fuel sf Hi Hr Hw Hfuel Hsf; (destruct sf as [|sf]; [lia|]);
    destruct (shift_idle s Hi) as (s1 & Eg & Hi1 & Hhalf & Hr1).
  - destruct fuel as [|fuel]; [lia|]. cbn [scan_events Scan]. rewrite next_line_idle, (i_going _ Hi), Eg by done.
    unfold read. rewrite Hr1, Hr. set (s2 := Build_scanner _ _ _ _ _ _ _).
    assert (En : next_line s2 = None) by (unfold next_line, unread; cbn; rewrite (i_empty _ Hi1), Nat.sub_diag; done).
    assert (Es : Scan sf s2 = (None, with_window 0 0 s2)) by (destruct sf; cbn [Scan]; by rewrite En).
    rewrite Es. cbn. by rewrite (i_ok _ Hi1).
  - inversion Hw as [|? ? [Hc Hlen] Hw']; subst. pose proof Hc as (Hne & Hfrag & Hheld).
    destruct (read_chunk s1 c chunks Hi1 ltac:(congruence) Hhalf Hlen) as (Hu & Hs & Hrest & Hi2). set (s2 := read s1) in *.
    pose proof (split_lines_concat c) as Ec. rewrite Hfrag, app_nil_r in Ec.
    pose proof (lines_bound c) as Hb. cbn [concat] in Hfuel. rewrite length_app in Hfuel.
    assert (Hf : fuel = length (split_lines c).1 + (fuel - length (split_lines c).1)) by lia.
    assert (Hstep : scan_events fuel (S sf) s [] = scan_events fuel (S sf) s2 []).
    { destruct fuel as [|fuel]; [lia|]. cbn [scan_events].
      assert (Hline : ∃ token s3, next_line s2 = Some (token, s3)).
      { pose proof (split_lines_are_lines c) as Hl. rewrite <- Ec in Hu. destruct (split_lines c).1 as [|l ls]; [done|].
        apply Forall_inv in Hl as (x & -> & Hx). cbn [concat] in Hu. rewrite <- app_assoc in Hu.
        destruct (next_line_line s2 x _ Hx Hu) as (En & _). by do 2 eexists. }
      destruct Hline as (token & s3 & En). rewrite (Scan_token _ _ _ (S sf) En). cbn [Scan]. rewrite next_line_idle, (i_going _ Hi), Eg by done.
      fold s2. by rewrite (Scan_token _ _ _ sf En). }
    rewrite Hstep, Hf. rewrite <- Ec in Hu, Hs.
    destruct (available _ s2 [] (fuel - length (split_lines c).1) (S sf) (split_lines_are_lines c) Hu Hs) as (held' & Hh' & ->).
    change (map (contents (heap s2)) []) with (@nil bytes) in *. fold (events c) in *. rewrite Hheld in Hh'. destruct held'; [|done].
    rewrite (IH _ _ _ Hi2 Hrest Hw') by lia. change (concat (c :: chunks)) with (c ++ concat chunks). by rewrite scanned_events_app.
Qed.

(** C40. Every event an upstream sends is handed on once, whole and in order, if each read
    ends where an event ends and fits half of the buffer. *)
Theorem events_are_delivered chunks :
  Forall (λ c, whole_events c ∧ length c <= Nat.div2 bufSize) chunks → ScanStream chunks = ((events (concat chunks)).1, false).
Proof.
  intros Hw. unfold ScanStream. apply scan_idle; [|done|done|lia|lia].
  assert (Ha : array (heap (new_scanner chunks)) (buf (new_scanner chunks)) = replicate bufSize ch_lf) by done.
  split; [done|cbn; lia|rewrite Ha; apply length_replicate|by eexists|done|done].
Qed.

(** What is left of a held text [t] when [m], after a line feed, lands on its line. *)
Lemma overwritten_text t m junk : 5 <= length m -> length m <= length t + 5 →
  take (length t) (drop 6 (overwrite 0 (ch_lf :: m) ((B "data: " ++ t ++ [ch_lf]) ++ junk))) = drop 5 m ++ drop (length m - 5) t.
Proof.
  intros H1 H2. unfold overwrite. rewrite take_0. cbn [app length Nat.add]. change (drop 6 (ch_lf :: m ++ ?r)) with (drop 5 (m ++ r)).
  rewrite drop_app_le by lia. rewrite take_app_ge by (rewrite length_drop; lia). f_equal. rewrite length_drop.
  replace (S (length m)) with (6 + (length m - 5)) by lia. rewrite <- drop_drop.
  change (drop 6 ((B "data: " ++ t ++ [ch_lf]) ++ junk)) with ((t ++ [ch_lf]) ++ junk). rewrite <- app_assoc, drop_app_le by lia.
  by rewrite take_app_le, firstn_all2 by (rewrite length_drop; lia).
Qed.

Lemma data_line_text t : ch_lf ∉ t → ch_lf ∉ B "data: " ++ t.
Proof. intros Ht. rewrite not_elem_of_app. split; [by vm_compute; set_solver|done]. Qed.

Lemma first_event t m s : ch_lf ∉ t → dropCR (B "data: " ++ t) = B "data: " ++ t → t ≠ [] →
  head (events ((B "data: " ++ t ++ [ch_lf]) ++ (ch_lf :: m) ++ s)).1 = Some t.
Proof.
  intros Hlf Hcr Ht. unfold events.
  pose proof (data_line_text t Hlf) as Hx.
  replace ((B "data: " ++ t ++ [ch_lf]) ++ (ch_lf :: m) ++ s) with ((B "data: " ++ t) ++ ch_lf :: ch_lf :: m ++ s) by (by rewrite <- !app_assoc).
  rewrite split_lines_fragment by done. cbn [split_lines]. destruct (split_lines (m ++ s)) as [ls f]. rewrite bool_decide_eq_true_2 by done.
  cbn [fst map]. unfold line_text at 1. rewrite removelast_last, Hcr. change (line_text [ch_lf]) with (@nil ascii).
  change (assemble ((B "data: " ++ t) :: [] :: ?l) []) with (let '(ps, held') := assemble l [] in (payload [t] ++ ps, held')).
  destruct (assemble (map line_text ls) []). unfold payload. cbn [join]. by destruct t.
Qed.

(** A scanner that never grew its buffer. *)
Definition on_array (a : bytes) (from to : nat) (rs : list bytes) : scanner :=
  {| heap := [a]; buf := 0; start := from; stop := to; reads := rs; ended := false; tooLong := false |}.

Lemma read_on_array a p from c rs : p + length c <= length a →
  read (on_array a from p (c :: rs)) = on_array (overwrite p c a) from (p + length c) rs.
Proof.
  intros Hl. unfold read. cbn [reads on_array heap buf stop start ended tooLong]. change (array [a] 0) with a.
  rewrite firstn_all2, skipn_all2 by lia. done.
Qed.

Lemma grow_on_array a from to rs : to < length a → grow (on_array a from to rs) = Some (on_array a from to rs).
Proof. intros Hl. unfold grow. cbn [stop on_array heap buf]. change (array [a] 0) with a. destruct (Nat.eqb_spec to (length a)); [lia|done]. Qed.

(** Behind more than half of the buffer, the next read starts at the front. *)
Lemma shift_on_array a p rs : Nat.div2 (length a) < p → shift (on_array a p p rs) = on_array a 0 0 rs.
Proof.
  intros Hp. unfold shift, unread. cbn [stop start on_array heap buf reads ended tooLong]. change (array [a] 0) with a. rewrite Nat.sub_diag.
  assert ((0 <? p) = true) as -> by (apply Nat.ltb_lt; exact (Nat.le_lt_trans _ _ _ (Nat.le_0_l _) Hp)). assert ((Nat.div2 (length a) <? p) = true) as -> by by apply Nat.ltb_lt.
  by rewrite orb_true_r.
Qed.

Lemma unread_on_array a c rs : unread (on_array (overwrite 0 c a) 0 (0 + length c) rs) = c.
Proof.
  unfold unread, overwrite. cbn [stop start on_array heap buf Nat.add]. change (array [?x] 0) with x. rewrite Nat.sub_0_r, take_0. cbn [app drop]. apply take_app_length.
Qed.

Lemma next_line_none a p rs : next_line (on_array a p p rs) = None.
Proof. unfold next_line, unread. cbn [stop start on_array ended]. by rewrite Nat.sub_diag. Qed.

Lemma Scan_read s s1 fuel token s' : next_line s = None → ended s = false → grow (shift s) = Some s1 → next_line (read s1) = Some (token, s') →
  Scan (S fuel) s = (Some token, s').
Proof. intros Hn He Hg Ht. cbn [Scan]. rewrite Hn, He, Hg. by apply Scan_token. Qed.

Lemma scan_data fuel sf s token s' held t : Scan sf s = (Some token, s') → contents (heap s') token = B "data: " ++ t →
  scan_events (S fuel) sf s held = scan_events fuel sf s' (held ++ [narrow (heap s') token]).
Proof. intros Hs Hc. cbn [scan_events]. by rewrite Hs, Hc. Qed.

Lemma scan_blank fuel sf s token s' held : Scan sf s = (Some token, s') → contents (heap s') token = [] →
  (scan_events (S fuel) sf s held).1 = emit (heap s') held ++ (scan_events fuel sf s' []).1.
Proof. intros Hs Hc. cbn [scan_events]. rewrite Hs, Hc. by destruct (scan_events fuel sf s' []). Qed.

Lemma fresh_scanner chunks : new_scanner chunks = on_array (replicate bufSize ch_lf) 0 0 chunks.
Proof. done. Qed.

Lemma replaced_text t m : t ≠ [] → 5 <= length m → nonempty (drop 5 m ++ drop (length m - 5) t) = true.
Proof.
  intros Ht Hm. unfold nonempty. rewrite bool_decide_eq_false_2; [done|]. intros E. apply (f_equal length) in E.
  rewrite length_app, !length_drop in E. cbn in E. assert (0 < length t) by (destruct t; [done|cbn; lia]). lia.
Qed.

(** A data line that takes more than half of the buffer is damaged when its blank
    line comes in a later read: the scanner moves to the front of its buffer, the read
    lands on the line that is still held, and the callback gets the bytes of the
    next event in front of what is left of this one. *)
Theorem held_line_is_overwritten t m rest (chunks := (B "data: " ++ t ++ [ch_lf]) :: (ch_lf :: m) :: rest) :
  ch_lf ∉ t → dropCR (B "data: " ++ t) = B "data: " ++ t → t ≠ [] →
  Nat.div2 bufSize < length t + 7 <= bufSize → 5 <= length m < bufSize → length m <= length t + 5 →
  head (events (concat chunks)).1 = Some t ∧ head (ScanStream chunks).1 = Some (drop 5 m ++ drop (length m - 5) t).
Proof.
  intros Hlf Hcr Ht Hlen Hm Hmt. split; [by apply first_event|]. unfold ScanStream. rewrite fresh_scanner.
  pose proof (data_line_text t Hlf) as Hx. set (x := B "data: " ++ t) in *. set (a := replicate bufSize ch_lf).
  assert (Hza : length a = bufSize) by apply length_replicate. set (l := x ++ [ch_lf]).
  assert (Hl : length l = length t + 7) by (unfold l, x; rewrite !length_app; cbn; lia).
  assert (Hr1 := read_on_array a 0 0 l ((ch_lf :: m) :: rest) ltac:(lia)). set (a1 := overwrite 0 l a) in *.
  assert (Hz1 : length a1 = bufSize) by (unfold a1; rewrite overwrite_length; lia).
  assert (Hr2 := read_on_array a1 0 0 (ch_lf :: m) rest ltac:(cbn; lia)). set (a2 := overwrite 0 (ch_lf :: m) a1) in *.
  assert (Hu1 : unread (on_array a1 0 (0 + length l) ((ch_lf :: m) :: rest)) = x ++ ch_lf :: []) by apply unread_on_array.
  assert (Hu2 : unread (on_array a2 0 (0 + length (ch_lf :: m)) rest) = [] ++ ch_lf :: m) by apply (unread_on_array a1 (ch_lf :: m)).
  destruct (next_line_line _ x [] Hx Hu1) as (En1 & Ec1). destruct (next_line_line _ [] m (not_elem_of_nil _) Hu2) as (En2 & Ec2).
  cbn [heap on_array] in Ec1, Ec2. set (token1 := Build_slice _ _ _) in En1, Ec1. set (token2 := Build_slice _ _ _) in En2, Ec2.
  rewrite Hcr in Ec1. rewrite <- Hr1 in En1. rewrite <- Hr2 in En2.
  replace (length (concat chunks) + 2) with (S (S (length (concat chunks)))) by lia.
  replace (length (concat chunks) + length chunks + 1) with (S (length (concat chunks) + length chunks)) by lia.
  rewrite (scan_data _ _ _ token1 _ [] t
    (Scan_read _ _ _ _ _ (next_line_none a 0 chunks) eq_refl (grow_on_array a 0 0 chunks ltac:(lia)) En1)) by (rewrite Hr1; exact Ec1).
  set (s2 := SseScanner.with_window _ _ _) at 1 2.
  assert (E2 : s2 = on_array a1 (length l) (length l) ((ch_lf :: m) :: rest)).
  { unfold s2. rewrite Hr1. unfold SseScanner.with_window. cbn [start stop heap buf reads ended tooLong on_array Nat.add].
    unfold on_array. f_equal. unfold l. rewrite length_app. cbn. lia. }
  assert (Hg2 : grow (shift s2) = Some (on_array a1 0 0 ((ch_lf :: m) :: rest))).
  { rewrite E2, shift_on_array by (rewrite Hz1; lia). apply grow_on_array. lia. }
  rewrite (scan_blank _ _ _ token2 _ _ (Scan_read s2 _ _ _ _ ltac:(rewrite E2; apply next_line_none) ltac:(by rewrite E2) Hg2 En2)) by (rewrite Hr2; exact Ec2).
  rewrite Hr2. cbn [heap SseScanner.with_window on_array]. unfold SseScanner.emit. cbn [app map join].
  assert (Ec : contents [a2] (narrow (heap s2) token1) = drop 5 m ++ drop (length m - 5) t).
  { rewrite <- (overwritten_text t m (drop (0 + length l) a)) by lia. unfold narrow. rewrite E2. cbn [heap on_array]. rewrite Ec1.
    change (drop 5 x) with (" "%char :: t). unfold contents. cbn [len off arr token1 buf start on_array Nat.add]. change (array [a2] 0) with a2.
    rewrite Hcr. replace (length x - 6) with (length t) by (unfold x; rewrite length_app; cbn; lia).
    by unfold a2. }
  rewrite Ec, (replaced_text t m Ht (proj1 Hm)). reflexivity.
Qed.

Module Sample.

Definition ev (s : string) : bytes := B s ++ [ch_cr; ch_lf; ch_cr; ch_lf].

Lemma short_chunk (c : bytes) : (zlen c <= 32768)%Z → length c <= Nat.div2 bufSize.
Proof. intros Hl. destruct bufSize_half as [Hh _]. rewrite bufSize_value in Hh |- *. unfold zlen in *. lia. Qed.

Lemma events_delivered_witness :
  ScanStream [ev "data: one"; ev ": ping" ++ ev "event: x"; B "data:two" ++ [ch_lf] ++ ev "data: lines"] =
    ([B "one"; B "two" ++ [ch_lf] ++ B "lines"], false).
Proof.
  rewrite events_are_delivered; [by vm_compute|].
  repeat (apply Forall_cons; split; [split; [split; [done|split; by vm_compute]|apply short_chunk; by vm_compute]|]). constructor.
Defined.

Lemma no_cr : ch_cr ∉ B "data: ".
Proof. vm_compute. set_solver. Qed.

(** One event of forty thousand bytes whose blank line comes in the next read. *)
Definition long_text : bytes := replicate (Z.to_nat 40000) "x"%char.

Lemma overwritten_witness :
  head (ScanStream [B "data: " ++ long_text ++ [ch_lf]; ch_lf :: B "data: second" ++ [ch_lf; ch_lf]]).1 =
    Some (B " second" ++ [ch_lf; ch_lf] ++ drop 9 long_text).
Proof.
  destruct bufSize_half as [Hh _]. pose proof bufSize_value as Hb.
  assert (Hl : length long_text = Z.to_nat 40000) by apply length_replicate.
  assert (Hx : ∀ c, c ∈ long_text → c = "x"%char) by (intros c Hc; by apply elem_of_replicate in Hc as [-> _]).
  destruct (held_line_is_overwritten long_text (B "data: second" ++ [ch_lf; ch_lf]) []) as [_ H].
  - intros Hc. by apply Hx in Hc.
  - apply dropCR_id. rewrite not_elem_of_app. split; [exact no_cr|]. intros Hc. by apply Hx in Hc.
  - intros E. rewrite E in Hl. cbn in Hl. lia.
  - rewrite Hl. lia.
  - cbn. lia.
  - rewrite Hl. cbn. lia.
  - exact H.
Defined.

End Sample.
