(* ===== verification/Capabilities.v ===== *)
(** * Request capabilities ([internal/handlers/chat/combo.go],
    [capacity_adapter.go])

    Which modalities the current user turn of a request carries, and the order
    in which the models of a combo that support them are tried. *)

From S2P Require Import Prelude GoRegexp Json.

(** [map[string]bool] whose entries are only ever set to true. *)
Abbreviation caps_set := (gset string) (only parsing).

Definition require (c : string) (r : gset string) : gset string := {[ c ]} ∪ r.

(** ** Reading a request *)

Definition isAssistantRole (role : bytes) : bool :=
  bool_decide (role = B "assistant") || bool_decide (role = B "model").

Definition field (k : string) (j : json) : json :=
  match j with JObj m => obj_get (B k) m | _ => JNull end.

Definition stringOf (m : object) (k : string) : bytes :=
  match obj_get (B k) m with JStr s => s | _ => [] end.

Definition role_of (item : json) : bytes := match item with JObj m => stringOf m "role" | _ => [] end.

(** The items after the last model turn. *)
Fixpoint trailing (rev_list : list json) (acc : list json) : list json :=
  match rev_list with
  | [] => acc
  | x :: l => if isAssistantRole (role_of x) then acc else trailing l (x :: acc)
  end.

Definition trailingUserItems (arr : json) : list json :=
  match arr with JArr l => trailing (rev l) [] | _ => [] end.

(** [any != nil] on a member: absent and null are nil. *)
Definition present (k : string) (m : object) : bool :=
  match obj_get (B k) m with JNull => false | _ => true end.

Definition addByMime (mime : bytes) (r : gset string) : gset string :=
  if bool_decide (mime = []) then r
  else if has_prefix (B "image/") mime then require "vision" r
  else if bool_decide (mime = B "application/pdf") then require "pdf" r
  else if has_prefix (B "audio/") mime then require "audioInput" r
  else if has_prefix (B "video/") mime then require "videoInput" r
  else r.

Definition dataURIMime (url : bytes) : bytes :=
  if has_prefix (B "data:") url then
    let '(mime, _, ok) := cut "," (drop 5 url) in
    if ok then (cut ";" mime).1.1 else []
  else [].

Fixpoint firstString (m : object) (keys : list string) : bytes :=
  match keys with
  | [] => []
  | k :: ks => if bool_decide (stringOf m k = []) then firstString m ks else stringOf m k
  end.

Definition obj_or (j : json) (f : object → option bytes) : option bytes :=
  match j with JObj m => f m | _ => None end.
Definition some_nonempty (s : bytes) : option bytes := if bool_decide (s = []) then None else Some s.

Definition fileBlockMime (b : object) : bytes :=
  let audio := obj_or (obj_get (B "input_audio") b) (λ ia,
    match stringOf ia "format" with [] => None | f => Some (B "audio/" ++ f) end) in
  let file := obj_or (obj_get (B "file") b) (λ f,
    match stringOf f "file_data" with [] => None | d => Some (dataURIMime d) end) in
  let source := obj_or (obj_get (B "source") b) (λ s,
    match stringOf s "media_type" with
    | [] => match stringOf s "data" with [] => None | d => Some (dataURIMime d) end
    | mime => Some mime
    end) in
  match audio, file, source with
  | Some m, _, _ => m
  | None, Some m, _ => m
  | None, None, Some m => m
  | None, None, None => []
  end.

Definition is_one (s : bytes) (l : list string) : bool := existsb (λ k, bool_decide (s = B k)) l.

Definition scanContentBlock (block : json) (r : gset string) : gset string :=
  match block with
  | JObj b =>
      let typ := stringOf b "type" in
      let r :=
        if is_one typ ["image_url"; "image"; "input_image"]%string then require "vision" r
        else if is_one typ ["input_audio"; "audio_url"; "audio"]%string then require "audioInput" r
        else if is_one typ ["input_video"; "video_url"; "video"]%string then require "videoInput" r
        else if is_one typ ["file"; "document"; "input_file"]%string then
          match fileBlockMime b with [] => require "pdf" r | mime => addByMime mime r end
        else r in
      let r := match obj_get (B "inlineData") b with JObj inner => addByMime (stringOf inner "mimeType") r | _ => r end in
      match obj_get (B "fileData") b with JObj inner => addByMime (stringOf inner "mimeType") r | _ => r end
  | _ => r
  end.

Definition scanContentBlocks (content : json) (r : gset string) : gset string :=
  match content with JArr blocks => foldl (λ r b, scanContentBlock b r) r blocks | _ => r end.

Definition scan_attachment (raw : json) (r : gset string) : gset string :=
  match raw with
  | JObj att =>
      let mime := firstString att ["contentType"; "mediaType"]%string in
      let mime := if bool_decide (mime = [])
                  then match obj_get (B "url") att with JStr url => dataURIMime url | _ => [] end
                  else mime in
      if negb (bool_decide (mime = [])) then addByMime mime r
      else if present "url" att || present "data" att then require "vision" r else r
  | _ => r
  end.

Definition arr_of (k : string) (m : object) : list json :=
  match obj_get (B k) m with JArr l => l | _ => [] end.

Definition scanMessage (msg : json) (r : gset string) : gset string :=
  match msg with
  | JObj m =>
      let r := match arr_of "images" m with [] => r | _ => require "vision" r end in
      let attachments := match arr_of "experimental_attachments" m with
                         | [] => arr_of "attachments" m
                         | l => l
                         end in
      let r := foldl (λ r a, scan_attachment a r) r attachments in
      let r := if present "image_url" m || present "image" m then require "vision" r else r in
      let r := if present "audio_url" m || present "audio" m then require "audioInput" r else r in
      let r := scanContentBlocks (obj_get (B "content") m) r in
      match obj_get (B "content") m with
      | JStr s =>
          if contains (B "data:image/") s then require "vision" r
          else if contains (B "data:audio/") s then require "audioInput" r
          else if contains (B "data:application/pdf") s then require "pdf" r
          else r
      | _ => r
      end
  | _ => r
  end.

Definition itemContent (item : json) : json :=
  match item with
  | JObj m => if bool_decide (B "content" ∈ m.*1) then obj_get (B "content") m else obj_get (B "parts") m
  | _ => JNull
  end.
Definition itemParts (item : json) : json := field "parts" item.

Definition is_tool (t : json) : bool :=
  match t with
  | JObj tm => bool_decide (stringOf tm "type" = B "function") || present "function" tm || present "functionDeclarations" tm
  | _ => false
  end.

(** The items of the current user turn in each of the three wire shapes. *)
Definition gemini_contents (m : object) : list json :=
  match arr_of "contents" m with
  | [] => match obj_get (B "request") m with JObj req => arr_of "contents" req | _ => [] end
  | l => l
  end.

Definition detect (m : object) : gset string :=
  let r := foldl (λ r msg, scanMessage msg r) ∅ (trailingUserItems (obj_get (B "messages") m)) in
  let r := foldl (λ r it, scanContentBlocks (itemContent it) r) r (trailingUserItems (obj_get (B "input") m)) in
  let r := foldl (λ r c, scanContentBlocks (itemParts c) r) r (trailingUserItems (JArr (gemini_contents m))) in
  if existsb is_tool (arr_of "tools" m) then require "tools" r else r.

Definition DetectRequiredCapabilities `{JsonCodec} (body : bytes) : gset string :=
  match unmarshal body with
  | Some (JObj m) => detect m
  | _ => ∅   (* null decodes to an empty map, anything else fails *)
  end.

(** ** Ordering the models of a combo *)

Record Capabilities := MkCaps {
  Vision : bool; PDF : bool; AudioInput : bool; VideoInput : bool; ImageOutput : bool;
  AudioOutput : bool; SearchCap : bool; Tools : bool; Reasoning : bool
}.

Definition capabilityFlag (caps : Capabilities) (cap : string) : bool :=
  if bool_decide (cap = "vision"%string) then Vision caps
  else if bool_decide (cap = "pdf"%string) then PDF caps
  else if bool_decide (cap = "audioInput"%string) then AudioInput caps
  else if bool_decide (cap = "videoInput"%string) then VideoInput caps
  else if bool_decide (cap = "imageOutput"%string) then ImageOutput caps
  else if bool_decide (cap = "audioOutput"%string) then AudioOutput caps
  else if bool_decide (cap = "search"%string) then SearchCap caps
  else if bool_decide (cap = "tools"%string) then Tools caps
  else if bool_decide (cap = "reasoning"%string) then Reasoning caps
  else false.

Definition adapterCapabilityKeys : list string := ["vision"; "pdf"; "audioInput"; "videoInput"]%string.

Definition requiredHardCaps (required : gset string) : list string :=
  filter (λ c, c ∈ required) adapterCapabilityKeys.
Definition softCaps (required : gset string) : list string :=
  filter (λ c, c ∉ adapterCapabilityKeys) (elements required).

Section Reorder.
(** The capability catalog. *)
Variable GetCapabilitiesForModel : bytes → bytes → Capabilities.

Definition modelEntryCaps (modelEntry : bytes) : Capabilities :=
  let '(provider, model, _) := cut "/" modelEntry in GetCapabilitiesForModel provider model.

Definition capabilityTier (modelEntry : bytes) (hard soft : list string) : Z :=
  let caps := modelEntryCaps modelEntry in
  if existsb (λ c, negb (capabilityFlag caps c)) hard then 2
  else if existsb (λ c, negb (capabilityFlag caps c)) soft then 1
  else 0.

(** [sort.SliceStable]. *)
Fixpoint insert_stable {A} (key : A → Z) (x : A) (l : list A) : list A :=
  match l with
  | [] => [x]
  | y :: l' => if key x <=? key y then x :: l else y :: insert_stable key x l'
  end.
Definition sort_stable {A} (key : A → Z) (l : list A) : list A := foldr (insert_stable key) [] l.

Definition ReorderByCapabilities (comboModels : list bytes) (required : gset string) : list bytes :=
  if bool_decide (required = ∅) || (length comboModels <=? 1)%nat then comboModels
  else sort_stable (λ m, capabilityTier m (requiredHardCaps required) (softCaps required)) comboModels.

End Reorder.

(** ** Properties *)

Lemma trailing_app l1 : ∀ l2 a acc, isAssistantRole (role_of a) = true →
  trailing (l1 ++ a :: l2) acc = trailing l1 acc.
Proof.
  induction l1 as [|x l1 IH]; intros l2 a acc Ha; cbn; [by rewrite Ha|].
  destruct (isAssistantRole (role_of x)); [done|by apply IH].
Qed.

Lemma trailingUserItems_history pre a post : isAssistantRole (role_of a) = true →
  trailingUserItems (JArr (pre ++ a :: post)) = trailingUserItems (JArr post).
Proof.
  intros Ha. unfold trailingUserItems. rewrite rev_app_distr. cbn [rev]. rewrite <- app_assoc. cbn [app].
  by apply trailing_app.
Qed.

(** Only the current user turn decides: whatever a conversation held up to
    and including a model turn, the capabilities detected are those of the
    request without it. *)
Theorem detection_ignores_history m pre a post :
  isAssistantRole (role_of a) = true → obj_get (B "messages") m = JArr (pre ++ a :: post) →
  detect m = detect (obj_set (B "messages") (JArr post) m).
Proof.
  intros Ha Hm. assert (obj_get (B "messages") m ≠ JNull) as Hn by by rewrite Hm.
  assert (∀ k, k ≠ "messages"%string → obj_get (B k) (obj_set (B "messages") (JArr post) m) = obj_get (B k) m) as Hk.
  { intros k Hk. apply obj_get_set_ne. intros E. apply Hk. unfold B in E.
    by rewrite <- (String.string_of_list_ascii_of_string k), E, String.string_of_list_ascii_of_string. }
  unfold detect, gemini_contents, arr_of. rewrite (Hk "input"%string), (Hk "contents"%string), (Hk "request"%string), (Hk "tools"%string) by done.
  rewrite Hm, obj_get_set by done.
  rewrite trailingUserItems_history by done. reflexivity.
Qed.

Section Facts.
Variable GetCapabilitiesForModel : bytes → bytes → Capabilities.
Abbreviation tier := (capabilityTier GetCapabilitiesForModel).

Lemma existsb_negb_false {A} (f : A → bool) (l : list A) :
  existsb (λ x, negb (f x)) l = false ↔ ∀ x, x ∈ l → f x = true.
Proof.
  induction l as [|x l IH]; cbn; [split; [by intros _ ? ?%elem_of_nil|done]|].
  rewrite orb_false_iff, negb_false_iff, IH. setoid_rewrite elem_of_cons. naive_solver.
Qed.

Lemma tier_cases m hard soft : tier m hard soft = 0 ∨ tier m hard soft = 1 ∨ tier m hard soft = 2.
Proof. unfold capabilityTier. repeat match goal with |- context [existsb ?f ?l] => destruct (existsb f l) end; auto. Qed.

Lemma tier_hard m hard soft : tier m hard soft <= 1 ↔
  ∀ c, c ∈ hard → capabilityFlag (modelEntryCaps GetCapabilitiesForModel m) c = true.
Proof.
  rewrite <- (existsb_negb_false (capabilityFlag (modelEntryCaps GetCapabilitiesForModel m)) hard). unfold capabilityTier.
  repeat match goal with |- context [existsb ?f ?l] => destruct (existsb f l) end; split; intros; try done; lia.
Qed.

Lemma tier_all m hard soft : tier m hard soft = 0 ↔
  (∀ c, c ∈ hard → capabilityFlag (modelEntryCaps GetCapabilitiesForModel m) c = true) ∧
  (∀ c, c ∈ soft → capabilityFlag (modelEntryCaps GetCapabilitiesForModel m) c = true).
Proof.
  rewrite <- (existsb_negb_false (capabilityFlag (modelEntryCaps GetCapabilitiesForModel m)) hard).
  rewrite <- (existsb_negb_false (capabilityFlag (modelEntryCaps GetCapabilitiesForModel m)) soft). unfold capabilityTier. repeat match goal with |- context [existsb ?f ?l] => destruct (existsb f l) end; naive_solver.
Qed.

Definition at_tier {A} (key : A → Z) (t : Z) (l : list A) : list A := filter (λ x, key x = t) l.

Lemma insert_stable_split {A} (key : A → Z) x (l : list A) a b :
  l = a ++ b → (∀ y, y ∈ a → key y < key x) → (∀ y, y ∈ b → key x <= key y) →
  insert_stable key x l = a ++ x :: b.
Proof.
  revert l. induction a as [|y a IH]; intros l -> Ha Hb; cbn.
  - destruct b as [|y b]; [done|]. cbn. rewrite (proj2 (Z.leb_le _ _)); [done|]. apply Hb. by left.
  - rewrite (proj2 (Z.leb_gt _ _)) by (apply Ha; by left). f_equal. apply IH; [done| |done].
    intros z Hz. apply Ha. by right.
Qed.

Lemma at_tier_key {A} (key : A → Z) t (l : list A) y : y ∈ at_tier key t l → key y = t.
Proof. unfold at_tier. by intros [? _]%list_elem_of_filter. Qed.

(** A stable sort by three keys is the concatenation of the three classes. *)
Lemma sort_stable_tiers {A} (key : A → Z) (l : list A) : (∀ x, key x = 0 ∨ key x = 1 ∨ key x = 2) →
  sort_stable key l = at_tier key 0 l ++ at_tier key 1 l ++ at_tier key 2 l.
Proof.
  intros Hk. induction l as [|x l IH]; [done|]. cbn [sort_stable foldr].
  change (foldr (insert_stable key) [] l) with (sort_stable key l). rewrite IH. unfold at_tier at 4 5 6. rewrite !filter_cons.
  assert (∀ y t l, y ∈ at_tier key t l → key y = t) as Hat by (intros *; apply at_tier_key).
  destruct (Hk x) as [E|[E|E]]; rewrite E; repeat case_decide; try lia; cbn [app].
  - apply (insert_stable_split key x _ [] _ eq_refl); [by intros ? ?%elem_of_nil|].
    intros y. rewrite !elem_of_app. naive_solver lia.
  - apply (insert_stable_split key x _ (at_tier key 0 l) _ eq_refl); [naive_solver lia|].
    intros y. rewrite !elem_of_app. naive_solver lia.
  - rewrite app_assoc. rewrite (app_assoc (filter _ l)).
    apply (insert_stable_split key x _ (at_tier key 0 l ++ at_tier key 1 l) _ eq_refl).
    + intros y. rewrite !elem_of_app. naive_solver lia.
    + naive_solver lia.
Qed.

(** With capabilities to satisfy, the models that support all of them come
    first, then those that support every required input modality, then the
    rest; within each group the configured order is kept and no model is
    dropped. *)
Theorem ReorderByCapabilities_stable models required : required ≠ ∅ →
  let key m := tier m (requiredHardCaps required) (softCaps required) in
  ReorderByCapabilities GetCapabilitiesForModel models required =
    at_tier key 0 models ++ at_tier key 1 models ++ at_tier key 2 models ∧
  ReorderByCapabilities GetCapabilitiesForModel models required ≡ₚ models ∧
  (∀ m, key m = 0 ↔ ∀ c, c ∈ required → capabilityFlag (modelEntryCaps GetCapabilitiesForModel m) c = true) ∧
  (∀ m, key m <= 1 ↔ ∀ c, c ∈ required → c ∈ adapterCapabilityKeys →
                       capabilityFlag (modelEntryCaps GetCapabilitiesForModel m) c = true).
Proof.
  intros Hr key. assert (∀ m, key m = 0 ∨ key m = 1 ∨ key m = 2) as Hk by (intros; apply tier_cases).
  assert (ReorderByCapabilities GetCapabilitiesForModel models required =
    at_tier key 0 models ++ at_tier key 1 models ++ at_tier key 2 models) as E.
  { rewrite <- sort_stable_tiers by done. unfold ReorderByCapabilities. rewrite bool_decide_eq_false_2 by done.
    cbn [orb]. by destruct models as [|m1 [|m2 ms]]. }
  split; [done|]. split; [|split].
  - rewrite E. clear E. induction models as [|m ms IH]; [done|]. unfold at_tier in *. rewrite !filter_cons.
    destruct (Hk m) as [Em|[Em|Em]]; rewrite Em; repeat case_decide; try lia; cbn [app].
    + by constructor.
    + rewrite <- Permutation_middle. by constructor.
    + rewrite app_assoc, <- Permutation_middle, <- app_assoc. by constructor.
  - intros m. unfold key. rewrite tier_all. unfold requiredHardCaps, softCaps.
    setoid_rewrite list_elem_of_filter. setoid_rewrite elem_of_elements.
    split; [|naive_solver]. intros [H1 H2] c Hc. destruct (decide (c ∈ adapterCapabilityKeys)); auto.
  - intros m. unfold key. rewrite tier_hard. unfold requiredHardCaps. setoid_rewrite list_elem_of_filter. naive_solver.
Qed.

End Facts.

Definition turn (role : string) (block : json) : json :=
  JObj [(B "role", JStr (B role)); (B "content", JArr [block])].
Definition image_block : json := JObj [(B "type", JStr (B "image_url"))].
Definition text_block : json := JObj [(B "type", JStr (B "text"))].
Definition conversation : object :=
  [(B "model", JStr (B "combo")); (B "messages", JArr [turn "user" image_block; turn "assistant" text_block; turn "user" text_block])].

(** An image in an older turn asks for nothing. *)
Lemma detection_ignores_history_witness : detect conversation = ∅.
Proof.
  transitivity (detect (obj_set (B "messages") (JArr [turn "user" text_block]) conversation)).
  - exact (detection_ignores_history conversation [turn "user" image_block] (turn "assistant" text_block)
             [turn "user" text_block] eq_refl eq_refl).
  - vm_compute. reflexivity.
Defined.

Definition catalog (provider _ : bytes) : Capabilities :=
  MkCaps (bool_decide (provider = B "openai")) false false false false false false true false.

Lemma ReorderByCapabilities_stable_witness :
  ReorderByCapabilities catalog [B "groq/a"; B "openai/b"; B "groq/c"; B "openai/d"] {["vision"%string]} =
    [B "openai/b"; B "openai/d"; B "groq/a"; B "groq/c"].
Proof.
  destruct (ReorderByCapabilities_stable catalog [B "groq/a"; B "openai/b"; B "groq/c"; B "openai/d"] {["vision"%string]}
    (non_empty_singleton_L _)) as [E _].
  etransitivity; [exact E|]. vm_compute. reflexivity.
Defined.
