(* ===== verification/History.v ===== *)
(** * Trimming a conversation for a smaller model
    ([internal/handlers/chat/capacity_adapter_history.go])

    A request rerouted to a capacity-adapter model keeps its system messages,
    the first turns that fit and the current user turn. *)

From Stdlib Require Import SpecFloat.
From S2P Require Import Prelude GoRegexp Json GoText Capabilities.

Definition charsPerToken : Z := 4.
Definition headKeep : nat := 6.

(** 0.8 in binary64. *)
Definition historyBudgetFraction : spec_float := S754_finite false 7205759403792794 (-53).

Definition budget_of (contextWindow : Z) : Z :=
  let window := if contextWindow <=? 0 then 200000 else contextWindow in
  sf_trunc (SFmul 53 1024 (SFmul 53 1024 (sf_of_Z window) historyBudgetFraction) (sf_of_Z charsPerToken)).

Definition text_len (b : json) : Z :=
  match b with
  | JObj bm => match stringOf bm "text" with [] => 50 | s => zlen s end
  | _ => 50
  end.

Definition sum (l : list Z) : Z := foldl Z.add 0 l.

Definition blockLen (content : json) : Z :=
  match content with
  | JStr s => zlen s
  | JArr v => sum (map text_len v)
  | _ => 0
  end.

Definition contentLen (items : list json) : Z := sum (map (λ it, blockLen (itemContent it)) items).

Definition historyArray (req : object) : option (bytes * list json) :=
  match obj_get (B "messages") req, obj_get (B "input") req, obj_get (B "contents") req with
  | JArr l, _, _ => Some (B "messages", l)
  | _, JArr l, _ => Some (B "input", l)
  | _, _, JArr l => Some (B "contents", l)
  | _, _, _ => None
  end.

Definition is_system (item : json) : bool :=
  bool_decide (role_of item = B "system") || bool_decide (role_of item = B "developer").

Definition splitSystemMessages (arr : list json) : list json * list json :=
  (filter (λ x, is_system x = true) arr, filter (λ x, is_system x = false) arr).

(** Head turns dropped from the end while the total exceeds the budget. *)
Fixpoint drop_head (rev_head : list json) (total budget : Z) : list json :=
  match rev_head with
  | [] => []
  | x :: rest => if budget <? total then drop_head rest (total - blockLen (itemContent x)) budget else rev_head
  end.

Definition strip_items (arr : list json) (contextWindow : Z) : option (list json) :=
  let '(systemMsgs, rest) := splitSystemMessages arr in
  match rest with
  | [] => None
  | _ =>
      let tail := trailingUserItems (JArr rest) in
      let older := take (length rest - length tail) rest in
      match older with
      | [] => None
      | _ =>
          let head := take (Nat.min headKeep (length older)) older in
          let total := contentLen systemMsgs + contentLen head + contentLen tail in
          let head := rev (drop_head (rev head) total (budget_of contextWindow)) in
          if (length head =? length older)%nat then None else Some (systemMsgs ++ head ++ tail)
      end
  end.

Section Strip.
Context `{JsonCodec}.

Definition stripHistoryForContext (body : bytes) (contextWindow : Z) : bytes :=
  match unmarshal body with
  | Some (JObj req) =>
      match historyArray req with
      | Some (key, arr) =>
          match strip_items arr contextWindow with
          | Some trimmed => marshal (JObj (obj_set key (JArr trimmed) req))
          | None => body
          end
      | None => body
      end
  | _ => body
  end.

(** The context windows the catalogs declare; zero when they do not. *)
Variable ContextWindow : bytes → bytes → Z.
Variable GetModelTokenLimits : bytes → Z.

Definition adapterContextWindow (modelEntry : bytes) : Z :=
  let '(provider, model, _) := cut "/" modelEntry in
  let model := if bool_decide (model = []) then provider else model in
  if 0 <? ContextWindow provider model then ContextWindow provider model else GetModelTokenLimits model.

Definition adapterTrimmedBody (body entry : bytes) (adapterModels : list bytes) : bytes :=
  if bool_decide (entry ∈ adapterModels) then stripHistoryForContext body (adapterContextWindow entry) else body.

(** [None] is the error of a trimmed body that does not decode to an object;
    a nil map, which a null body decodes to, is [Some None]. *)
Definition adapterTrimmedMap (req : object) (entry : bytes) (adapterModels : list bytes) : option (option object) :=
  if bool_decide (entry ∈ adapterModels) then
    match unmarshal (stripHistoryForContext (marshal (JObj req)) (adapterContextWindow entry)) with
    | Some (JObj m) => Some (Some m)
    | Some JNull => Some None
    | _ => None
    end
  else Some (Some req).

End Strip.

(** ** Properties *)

Lemma sum_acc l : ∀ a, foldl Z.add a l = a + sum l.
Proof.
  unfold sum. induction l as [|x l IH]; intros a; [cbn; lia|].
  change (foldl Z.add (a + x) l = a + foldl Z.add (0 + x) l). rewrite (IH (a + x)), (IH (0 + x)). lia.
Qed.

Lemma sum_app a b : sum (a ++ b) = sum a + sum b.
Proof. unfold sum. by rewrite foldl_app, (sum_acc b). Qed.

Lemma sum_cons x l : sum (x :: l) = x + sum l.
Proof. change (foldl Z.add (0 + x) l = x + sum l). rewrite sum_acc. lia. Qed.

Lemma contentLen_app a b : contentLen (a ++ b) = contentLen a + contentLen b.
Proof. unfold contentLen. by rewrite map_app, sum_app. Qed.

Lemma contentLen_rev a : contentLen (rev a) = contentLen a.
Proof.
  induction a as [|x a IH]; [done|]. cbn [rev]. rewrite contentLen_app, IH. unfold contentLen. cbn [map].
  rewrite !sum_cons. change (sum []) with 0. lia.
Qed.

Lemma drop_head_spec rh : ∀ total budget,
  ∃ k, drop_head rh total budget = drop k rh ∧
    (drop_head rh total budget = [] ∨ total - contentLen (take k rh) <= budget) ∧
    (∀ j, (j < k)%nat → budget < total - contentLen (take j rh)).
Proof.
  induction rh as [|x rh IH]; intros total budget; cbn [drop_head].
  - exists 0%nat. split; [done|]. split; [by left|]. intros j ?. lia.
  - case (Z.ltb_spec budget total); intros Hb.
    + destruct (IH (total - blockLen (itemContent x)) budget) as (k & -> & H2 & H3). exists (S k).
      split; [done|]. split.
      * destruct H2 as [H2|H2]; [by left|right]. cbn [take]. unfold contentLen in *. cbn [map]. rewrite sum_cons. lia.
      * intros [|j] Hj; [cbn [take]; change (contentLen []) with 0; lia|]. cbn [take]. unfold contentLen in *. cbn [map].
        rewrite sum_cons. specialize (H3 j ltac:(lia)). lia.
    + exists 0%nat. split; [done|]. split; [right; cbn [take]; change (contentLen []) with 0; lia|]. intros j ?. lia.
Qed.

Lemma trailing_suffix l : ∀ acc, ∃ p, rev l ++ acc = p ++ trailing l acc.
Proof.
  induction l as [|x l IH]; intros acc; cbn; [by exists []|].
  destruct (isAssistantRole _).
  - exists (rev l ++ [x]). done.
  - destruct (IH (x :: acc)) as [p Hp]. exists p. rewrite <- Hp, <- app_assoc. done.
Qed.

(** The head left of the kept turns, and the length of the turns dropped. *)
Lemma kept_head (kept : list json) k :
  rev (drop k (rev kept)) = take (length kept - k) kept ∧
  contentLen (take k (rev kept)) = contentLen kept - contentLen (take (length kept - k) kept) ∧
  length (take (length kept - k) kept) = (length kept - k)%nat.
Proof.
  assert (rev (drop k (rev kept)) = take (length kept - k) kept) as E by (rewrite skipn_rev, rev_involutive; done).
  split; [done|]. split; [|rewrite length_take; lia].
  rewrite <- E, contentLen_rev, <- (contentLen_rev kept). rewrite <- (take_drop k (rev kept)) at 2.
  rewrite contentLen_app. lia.
Qed.

(** Trimming keeps every system message and the whole current user turn,
    in order, and a prefix of the older turns: at most six, and no more than the
    budget of 80% of the window allows unless none is left to drop; and it drops
    no turn of that prefix that would still have fitted. *)
Theorem strip_items_spec arr contextWindow trimmed : strip_items arr contextWindow = Some trimmed →
  let sys := filter (λ x, is_system x = true) arr in
  let rest := filter (λ x, is_system x = false) arr in
  ∃ head dropped tail,
    trimmed = sys ++ head ++ tail ∧ rest = head ++ dropped ++ tail ∧
    tail = trailingUserItems (JArr rest) ∧ dropped ≠ [] ∧ (length head <= headKeep)%nat ∧
    (head = [] ∨ contentLen trimmed <= budget_of contextWindow) ∧
    (∀ x dropped', dropped = x :: dropped' → (length head < headKeep)%nat →
       budget_of contextWindow < contentLen (sys ++ head ++ [x] ++ tail)).
Proof.
  intros Hs sys rest. unfold strip_items, splitSystemMessages in Hs. cbv beta iota zeta in Hs. fold sys rest in Hs.
  destruct rest as [|r0 rest0] eqn:Er; [done|]. rewrite <- Er in *.
  destruct (trailing_suffix (rev rest) []) as [older Hold]. rewrite app_nil_r, rev_involutive in Hold.
  change (trailing (rev rest) []) with (trailingUserItems (JArr rest)) in Hold.
  set (tail := trailingUserItems (JArr rest)) in *.
  assert (take (length rest - length tail) rest = older) as Et.
  { rewrite Hold at 2. rewrite Hold at 1. rewrite length_app. apply take_app_length'. lia. }
  rewrite Et in Hs. destruct older as [|o0 older0] eqn:Eo; [done|]. rewrite <- Eo in *. clear Et.
  set (kept := take (Nat.min headKeep (length older)) older) in *.
  set (total := contentLen sys + contentLen kept + contentLen tail) in *.
  destruct (drop_head_spec (rev kept) total (budget_of contextWindow)) as (k & Ek & Hfit & Hmin).
  rewrite Ek in *.
  destruct (kept_head kept k) as (Eh & Htk & Hlk). rewrite Eh in Hs.
  set (head := take (length kept - k) kept) in *.
  destruct (length head =? length older)%nat eqn:El; [done|]. injection Hs as <-. apply Nat.eqb_neq in El.
  assert (length kept = Nat.min headKeep (length older)) as Hkl by (unfold kept; rewrite length_take; lia).
  assert (head = take (length head) older) as Ehead.
  { unfold head at 1, kept. rewrite take_take. f_equal. unfold kept in Hlk, Hkl. lia. }
  assert (length head < length older)%nat as Hlo by lia.
  exists head, (drop (length head) older), tail. split; [done|]. split; [|split; [done|split; [|split; [|split]]]].
  - rewrite Hold at 1. rewrite app_assoc. f_equal. by rewrite Ehead at 1; rewrite take_drop.
  - intros E%(f_equal length). rewrite length_drop in E. cbn [length] in E. lia.
  - lia.
  - destruct Hfit as [E|Hfit]; [left|right].
    + apply length_zero_iff_nil. rewrite Hlk. apply (f_equal length) in E. rewrite length_drop, length_rev in E. cbn [length] in E. lia.
    + rewrite Htk in Hfit. unfold total in Hfit. rewrite !contentLen_app. lia.
  - intros x dropped' Hd Hl6.
    assert (older !! length head = Some x) as Hx by (rewrite <- (Nat.add_0_r (length head)), <- lookup_drop, Hd; done).
    assert (length head < length kept)%nat as Hlt by lia.
    assert (kept !! length head = Some x) as Hx' by (unfold kept; rewrite lookup_take_lt; [done|lia]).
    specialize (Hmin (length kept - S (length head))%nat ltac:(lia)).
    destruct (kept_head kept (length kept - S (length head))) as (_ & Htk' & _). rewrite Htk' in Hmin.
    replace (length kept - (length kept - S (length head)))%nat with (S (length head)) in Hmin by lia.
    rewrite (take_S_r _ _ _ Hx') in Hmin.
    assert (take (length head) kept = head) as Eth by (unfold head at 2; f_equal; exact Hlk).
    rewrite Eth in Hmin. unfold total in Hmin. rewrite !contentLen_app in *. lia.
Qed.

(** A system message, a long exchange, and the current turn, in a window of
    twelve tokens. *)
Definition said (role text : string) : json := JObj [(B "role", JStr (B role)); (B "content", JStr (B text))].
Definition long_chat : list json :=
  [said "user" "one two three"; said "assistant" "four five six"; said "system" "be brief"; said "user" "seven eight nine";
   said "assistant" "ten"; said "user" "now?"].

Lemma strip_items_witness :
  strip_items long_chat 12 = Some [said "system" "be brief"; said "user" "one two three"; said "assistant" "four five six"; said "user" "now?"] ∧
  ∃ head dropped tail : list json, [said "system" "be brief"; said "user" "one two three"; said "assistant" "four five six"; said "user" "now?"]
    = filter (λ x, is_system x = true) long_chat ++ head ++ tail ∧ dropped ≠ [] ∧ (length head <= headKeep)%nat.
Proof.
  assert (strip_items long_chat 12 = Some [said "system" "be brief"; said "user" "one two three"; said "assistant" "four five six"; said "user" "now?"]) as E
    by by vm_compute.
  split; [exact E|].
  destruct (strip_items_spec long_chat 12 _ E) as (head & dropped & tail & H1 & _ & _ & H2 & H3 & _).
  exists head, dropped, tail. by auto.
Defined.
