(* ===== verification/ToolCalls.v ===== *)
(** * Tool calls of a request ([internal/handlers/chat/tool_repair.go],
    [internal/translator/tool_dedupe.go])

    Filling in the ids that link a tool call to its result, and dropping
    duplicate tool declarations. *)

From S2P Require Import Prelude GoRegexp Json GoText RetryAfter ErrorClassify Capabilities.

(** ** Repair of tool call ids *)

Definition has_id (m : object) (k : string) : bool := nonempty (stringOf m k).

(** The calls of an assistant message: missing ids are made up, all ids become
    pending. *)
Fixpoint repair_calls (seq k : Z) (tcs : list json) : list json * list bytes :=
  match tcs with
  | [] => ([], [])
  | tc :: tcs' =>
      let '(rest, ids) := repair_calls seq (k + 1) tcs' in
      match tc with
      | JObj m =>
          if has_id m "id" then (JObj m :: rest, stringOf m "id" :: ids)
          else let id := B "call_" ++ itoa seq ++ B "_" ++ itoa k in
               (JObj (obj_put (B "id") (JStr id) m) :: rest, id :: ids)
      | _ => (tc :: rest, ids)
      end
  end.

Fixpoint remove_first (id : bytes) (l : list bytes) : list bytes :=
  match l with
  | [] => []
  | x :: l' => if bool_decide (x = id) then l' else x :: remove_first id l'
  end.

Fixpoint repair_messages (i toolSeq : Z) (pending : list bytes) (msgs : list json) : list json :=
  match msgs with
  | [] => []
  | JObj m :: msgs' =>
      if bool_decide (stringOf m "role" = B "assistant") then
        match arr_of "tool_calls" m with
        | [] => JObj m :: repair_messages (i + 1) toolSeq pending msgs'
        | tcs =>
            let '(tcs', ids) := repair_calls toolSeq 0 tcs in
            JObj (obj_set (B "tool_calls") (JArr tcs') m) ::
              repair_messages (i + 1) (toolSeq + 1) (pending ++ ids) msgs'
        end
      else if bool_decide (stringOf m "role" = B "tool") then
        if has_id m "tool_call_id" then
          JObj m :: repair_messages (i + 1) toolSeq (remove_first (stringOf m "tool_call_id") pending) msgs'
        else
          let '(id, pending') := match pending with
                                 | p :: ps => (p, ps)
                                 | [] => (B "call_tool_" ++ itoa i, [])
                                 end in
          JObj (obj_put (B "tool_call_id") (JStr id) m) :: repair_messages (i + 1) toolSeq pending' msgs'
      else JObj m :: repair_messages (i + 1) toolSeq pending msgs'
  | m :: msgs' => m :: repair_messages (i + 1) toolSeq pending msgs'
  end.

Definition repairToolCallIDsInMap (body : object) : object :=
  match arr_of "messages" body with
  | [] => body
  | msgs => obj_set (B "messages") (JArr (repair_messages 0 0 [] msgs)) body
  end.

Section Dedupe.
Context `{UnicodeCase} `{JsonCodec}.

(** *** Duplicate declarations *)

(** [\([^()]+\)\s*$], removed wherever it matches: as the pattern is anchored at
    the end, at the leftmost place it can. *)
Definition is_paren (c : ascii) : bool := bool_decide (c = "("%char) || bool_decide (c = ")"%char).

Definition override_here (s : bytes) : bool :=
  match s with
  | c :: t =>
      bool_decide (c = "("%char) &&
      let inner := trim_left (λ x, negb (is_paren x)) t in
      negb (length inner =? length t)%nat &&
      match inner with
      | d :: u => bool_decide (d = ")"%char) && forallb (λ x, bool_decide (x ∈ map bz [9; 10; 12; 13; 32])) u
      | [] => false
      end
  | [] => false
  end.

Fixpoint strip_override (s : bytes) : bytes :=
  match s with
  | [] => []
  | c :: t => if override_here s then [] else c :: strip_override t
  end.

Definition after_last (sep : ascii) (s : bytes) : bytes :=
  default [] (last (split_on sep s)).

Definition IsDeepSeekModel (model : bytes) : bool :=
  let clean := trim_space (strip_override model) in
  let clean := after_last "/" clean in
  has_prefix (B "deepseek-") (to_lower clean).

Definition declaredToolName (tool : json) : bytes :=
  match tool with
  | JObj obj =>
      match stringOf obj "name" with
      | [] => match obj_get (B "function") obj with JObj fn => stringOf fn "name" | _ => [] end
      | name => name
      end
  | _ => []
  end.

Fixpoint dedupe_loop (seen : list bytes) (tools : list json) : list json * Z :=
  match tools with
  | [] => ([], 0)
  | tool :: tools' =>
      let name := declaredToolName tool in
      if bool_decide (name = []) then
        let '(kept, dropped) := dedupe_loop seen tools' in (tool :: kept, dropped)
      else if bool_decide (name ∈ seen) then
        let '(kept, dropped) := dedupe_loop seen tools' in (kept, dropped + 1)
      else
        let '(kept, dropped) := dedupe_loop (name :: seen) tools' in (tool :: kept, dropped)
  end.

Definition dedupeToolList (tools : list json) : list json * Z := dedupe_loop [] tools.

(** [marshal_sorted] is the encoder with sorted members. *)
Definition DedupeToolsDeepSeek (marshal_sorted : json → bytes) (body model : bytes) : bytes :=
  if negb (IsDeepSeekModel model) || negb (contains ("034"%char :: B "tools" ++ ["034"%char]) body) then body
  else match unmarshal body with
       | Some (JObj req) =>
           match obj_get (B "tools") req with
           | JArr tools =>
               let '(kept, dropped) := dedupeToolList tools in
               if dropped =? 0 then body else marshal_sorted (JObj (obj_set (B "tools") (JArr kept) req))
           | _ => body
           end
       | _ => body
       end.

End Dedupe.

(** ** Properties *)

(** A call with an id, and a message whose links are filled in. *)
Definition call_ok (tc : json) : bool := match tc with JObj m => has_id m "id" | _ => true end.
Definition message_ok (msg : json) : bool :=
  match msg with
  | JObj m =>
      if bool_decide (stringOf m "role" = B "assistant") then forallb call_ok (arr_of "tool_calls" m)
      else if bool_decide (stringOf m "role" = B "tool") then has_id m "tool_call_id"
      else true
  | _ => true
  end.

(** What repair may change: nothing of a message whose links are filled in, and
    otherwise only [tool_calls] or [tool_call_id]. *)
Definition repaired_from (msg msg' : json) : Prop :=
  if message_ok msg then msg' = msg
  else ∃ m m', msg = JObj m ∧ msg' = JObj m' ∧
         ∀ k, k ≠ "tool_calls"%string → k ≠ "tool_call_id"%string → obj_get (B k) m' = obj_get (B k) m.

Lemma obj_set_same k v m : obj_get k m = v → obj_set k v m = m.
Proof.
  induction m as [|[k' v'] m IH]; cbn; [done|]. case_bool_decide as E; [by intros ->|]. intros Hg. by rewrite IH.
Qed.

Lemma repair_calls_ok seq tcs : ∀ k, forallb call_ok (repair_calls seq k tcs).1 = true ∧
  (forallb call_ok tcs = true → (repair_calls seq k tcs).1 = tcs) ∧
  Forall (λ id, nonempty id = true) (repair_calls seq k tcs).2.
Proof.
  induction tcs as [|tc tcs IH]; intros k; [split_and!; [done|done|constructor]|]. cbn [repair_calls]. specialize (IH (k + 1)).
  destruct (repair_calls seq (k + 1) tcs) as [rest ids]. cbn [fst snd] in IH. destruct IH as (H1 & H2 & H3).
  destruct tc as [| | | | |m]; cbn [forallb call_ok fst snd]; try (rewrite H1; split_and!; [done|intros; by rewrite H2|done]).
  destruct (has_id m "id") eqn:Hid; cbn [forallb call_ok fst snd]; rewrite ?Hid, ?H1.
  - split_and!; [done|intros Hc; by rewrite H2|by constructor].
  - split_and!; [|done|by constructor]. unfold has_id, stringOf. by rewrite obj_get_put_eq.
Qed.

Lemma remove_first_Forall P id l : Forall P l → Forall P (remove_first id l).
Proof. induction 1 as [|x l Hx Hl IH]; cbn; [constructor|]. case_bool_decide; [done|by constructor]. Qed.

Lemma message_ok_same msg : message_ok msg = true → message_ok msg = true ∧ repaired_from msg msg.
Proof. intros Hok. split; [done|]. unfold repaired_from. by rewrite Hok. Qed.

(** A repaired link of a message that lacked it. *)
Lemma message_ok_fixed key v m : (key = "tool_calls" ∨ key = "tool_call_id")%string → message_ok (JObj m) = false →
  (∀ m', obj_get (B key) m' = v → stringOf m' "role" = stringOf m "role" → message_ok (JObj m') = true) →
  ∀ m', obj_get (B key) m' = v → (∀ k, k ≠ key → obj_get (B k) m' = obj_get (B k) m) →
  message_ok (JObj m') = true ∧ repaired_from (JObj m) (JObj m').
Proof.
  intros Hkey Hbad Hok m' Hv Hk. split.
  - apply Hok; [done|]. unfold stringOf. rewrite Hk; [done|]. destruct Hkey as [-> | ->]; done.
  - unfold repaired_from. rewrite Hbad. exists m, m'. split_and!; [done|done|]. intros k ? ?. apply Hk.
    destruct Hkey as [-> | ->]; done.
Qed.

Lemma repair_messages_ok msgs : ∀ i seq pending, Forall (λ id, nonempty id = true) pending →
  Forall2 (λ msg msg', message_ok msg' = true ∧ repaired_from msg msg') msgs (repair_messages i seq pending msgs).
Proof.
  induction msgs as [|msg msgs IH]; intros i seq pending Hpend; [constructor|].
  destruct msg as [| | | | |m]; cbn [repair_messages]; try (constructor; [done|by apply IH]).
  destruct (bool_decide (stringOf m "role" = B "assistant")) eqn:Ea.
  - destruct (arr_of "tool_calls" m) as [|tc tcs] eqn:Et.
    { constructor; [|apply IH; by try apply remove_first_Forall]. apply message_ok_same. cbn [message_ok]. by rewrite Ea, Et. }
    destruct (repair_calls_ok seq (tc :: tcs) 0) as (H1 & H2 & H3).
    destruct (repair_calls seq 0 (tc :: tcs)) as [tcs' ids]. cbn [fst snd] in H1, H2, H3.
    constructor; [|by apply IH, Forall_app].
    assert (obj_get (B "tool_calls") m = JArr (tc :: tcs)) as Eg.
    { unfold arr_of in Et. destruct (obj_get (B "tool_calls") m); try done. by f_equal. }
    destruct (forallb call_ok (tc :: tcs)) eqn:Ec.
    + rewrite H2 by done. rewrite obj_set_same by done. apply message_ok_same. cbn [message_ok]. by rewrite Ea, Et.
    + apply (message_ok_fixed "tool_calls" (JArr tcs') m); [by left|cbn [message_ok]; by rewrite Ea, Et| | |].
      * intros m' Hg Hrole. cbn [message_ok]. rewrite Hrole, Ea. unfold arr_of. by rewrite Hg.
      * apply obj_get_set. by rewrite Eg.
      * intros k Hk. apply obj_get_set_ne. by intros ?%B_inj.
  - destruct (bool_decide (stringOf m "role" = B "tool")) eqn:Eto.
    2:{ constructor; [|apply IH; by try apply remove_first_Forall]. apply message_ok_same. cbn [message_ok]. by rewrite Ea, Eto. }
    destruct (has_id m "tool_call_id") eqn:Hid.
    { constructor; [|apply IH; by try apply remove_first_Forall]. apply message_ok_same. cbn [message_ok]. by rewrite Ea, Eto. }
    assert (∃ id pending', (match pending with p :: ps => (p, ps) | [] => (B "call_tool_" ++ itoa i, []) end) = (id, pending') ∧
      nonempty id = true ∧ Forall (λ id, nonempty id = true) pending') as (id & pending' & Ep & Hne & Hp').
    { destruct pending as [|p ps]; [by eexists _, _|]. apply Forall_cons in Hpend as [? ?]. by eexists _, _. }
    rewrite Ep. constructor; [|by apply IH].
    apply (message_ok_fixed "tool_call_id" (JStr id) m); [by right|cbn [message_ok]; by rewrite Ea, Eto| | |].
    + intros m' Hg Hrole. cbn [message_ok]. rewrite Hrole, Ea, Eto. unfold has_id, stringOf. by rewrite Hg.
    + apply obj_get_put_eq.
    + intros k Hk. apply obj_get_put_ne. by intros ?%B_inj.
Qed.


(** Tool results without ids, after a message of calls, take the ids of the
    calls in order. *)
Definition tool_results (n : nat) : list json := replicate n (JObj [(B "role", JStr (B "tool"))]).

Lemma repair_results_in_order ids : ∀ i seq n, (n <= length ids)%nat →
  repair_messages i seq ids (tool_results n) =
    map (λ id, JObj [(B "role", JStr (B "tool")); (B "tool_call_id", JStr id)]) (take n ids).
Proof.
  induction ids as [|id ids IH]; intros i seq [|n] Hn; cbn [length] in Hn; try done; [lia|].
  cbn [tool_results replicate repair_messages take map]. f_equal. apply IH. lia.
Qed.

(** *** Duplicate declarations *)

Lemma dedupe_loop_spec tools : ∀ seen,
  let '(kept, dropped) := dedupe_loop seen tools in
  kept `sublist_of` tools ∧ dropped = zlen tools - zlen kept ∧ 0 <= dropped ∧
  NoDup (filter (λ n, n ≠ []) (map declaredToolName kept)) ∧
  (∀ n, n ∈ seen → n ≠ [] → n ∉ map declaredToolName kept) ∧
  (∀ t, t ∈ tools → t ∈ kept ∨ declaredToolName t ∈ seen ∨ declaredToolName t ∈ map declaredToolName kept).
Proof.
  induction tools as [|tool tools IH]; intros seen; cbn [dedupe_loop].
  { split_and!; try done; [constructor|intros ? _ _; apply not_elem_of_nil|by intros ? ?%elem_of_nil]. }
  case_bool_decide as En; [|case_bool_decide as Es].
  - specialize (IH seen). destruct (dedupe_loop seen tools) as [kept dropped]. destruct IH as (H1 & H2 & H0 & H3 & H4 & H5).
    split_and!; [by constructor|unfold zlen in *; cbn [length]; lia|done| | |].
    + cbn [map]. rewrite filter_cons_False; [done|by rewrite En; intros []].
    + intros n Hn Hne. cbn [map]. apply not_elem_of_cons. split; [congruence|by apply H4].
    + intros t [->|Ht]%elem_of_cons; [left; left|]. destruct (H5 t Ht) as [?|[?|?]]; [left; by right|by right; left|right; right; by right].
  - specialize (IH seen). destruct (dedupe_loop seen tools) as [kept dropped]. destruct IH as (H1 & H2 & H0 & H3 & H4 & H5).
    split_and!; [by constructor|unfold zlen in *; cbn [length]; lia|lia|done|done|].
    intros t [->|Ht]%elem_of_cons; [by right; left|by apply H5].
  - specialize (IH (declaredToolName tool :: seen)). destruct (dedupe_loop _ tools) as [kept dropped].
    destruct IH as (H1 & H2 & H0 & H3 & H4 & H5).
    split_and!; [by constructor|unfold zlen in *; cbn [length]; lia|done| | |].
    + cbn [map]. rewrite filter_cons_True by done. constructor; [|done]. intros [_ Hin]%list_elem_of_filter.
      apply (H4 (declaredToolName tool)) in Hin; [done|left|done].
    + intros n Hn Hne. cbn [map]. apply not_elem_of_cons. split; [congruence|]. apply H4; [by right|done].
    + intros t [->|Ht]%elem_of_cons; [left; left|]. destruct (H5 t Ht) as [?|[[->|?]%elem_of_cons|?]];
        [left; by right|right; right; left|by right; left|right; right; by right].
Qed.

(** The declarations kept are a subsequence of those sent in which no name
    occurs twice; every declaration dropped has its name on one that is kept,
    and the count is the number dropped. *)
Theorem dedupeToolList_unique tools :
  let '(kept, dropped) := dedupeToolList tools in
  kept `sublist_of` tools ∧ dropped = zlen tools - zlen kept ∧
  NoDup (filter (λ n, n ≠ []) (map declaredToolName kept)) ∧
  (∀ t, t ∈ tools → t ∈ kept ∨ declaredToolName t ∈ map declaredToolName kept).
Proof.
  unfold dedupeToolList. pose proof (dedupe_loop_spec tools []) as Hd. destruct (dedupe_loop [] tools) as [kept dropped].
  destruct Hd as (H1 & H2 & _ & H3 & _ & H5). split_and!; [done..|]. intros t Ht.
  destruct (H5 t Ht) as [?|[?%elem_of_nil|?]]; [by left|done|by right].
Qed.

Example deepseek_samples :
  @IsDeepSeekModel ascii_case (B "openrouter/DeepSeek-chat(max) ") = true ∧
  @IsDeepSeekModel ascii_case (B "glm-5") = false.
Proof. by vm_compute. Qed.

(** An assistant calls a tool twice without ids; the results come without links. *)
Definition unlinked : object :=
  [(B "model", JStr (B "m")); (B "messages", JArr
     [JObj [(B "role", JStr (B "assistant")); (B "tool_calls", JArr [JObj [(B "type", JStr (B "function"))]; JObj []])];
      JObj [(B "role", JStr (B "tool"))]; JObj [(B "role", JStr (B "tool"))]])].

