(* ===== verification/Combo.v ===== *)
(** * Combo failover ([internal/handlers/chat/combo.go])

    Rotation of a combo's models, the loop over models and connections that
    serves a request, and the locking of accounts that failed. *)

From S2P Require Import Prelude GoRegexp Json GoText RetryAfter ErrorClassify Capabilities History ToolCalls.

(** ** Rotation *)

Record comboStickyState := MkSticky { Index : Z; ConsecutiveUseCount : Z; ServingIndex : Z }.

Abbreviation sticky_map := (gmap string comboStickyState) (only parsing).

(** [rotated[i] = models[(servingIndex+i) % len(models)]]. *)
Definition rotated {A} (models : list A) (servingIndex : Z) : list A :=
  omap (λ i, models !! Z.to_nat ((servingIndex + Z.of_nat i) mod zlen models)) (seq 0 (length models)).

Definition is_rotation (strategy : string) : bool :=
  bool_decide (strategy ∈ ["round-robin"; "roundrobin"; "sticky"]%string).

(** The state after a request, and the index that serves it. *)
Definition serve (len stickyLimit : Z) (newTurn : bool) (state : comboStickyState) : comboStickyState * Z :=
  let servingIndex := Index state mod len in
  if newTurn then
    let count := ConsecutiveUseCount state + 1 in
    (if stickyLimit <=? count then MkSticky ((servingIndex + 1) mod len) 0 servingIndex
     else MkSticky (Index state) count servingIndex, servingIndex)
  else (state, ServingIndex state).

Definition applyComboStrategy {A} (strategy : string) (models : list A) (comboName : string)
    (stickyLimit : Z) (newTurn : bool) (sticky : gmap string comboStickyState)
    : gmap string comboStickyState * list A :=
  if (length models <=? 1)%nat then (sticky, models)
  else if is_rotation strategy then
    let stickyLimit := if stickyLimit <=? 0 then 1 else stickyLimit in
    let key := if bool_decide (comboName = "")%string then "__default__"%string else comboName in
    let state := default (MkSticky 0 0 0) (sticky !! key) in
    let '(state', servingIndex) := serve (zlen models) stickyLimit newTurn state in
    (<[key := state']> sticky, rotated models servingIndex)
  else (sticky, models).

Definition ResetComboState (comboName : string) (sticky : gmap string comboStickyState) : gmap string comboStickyState :=
  if bool_decide (comboName = "")%string then ∅ else delete comboName sticky.

(** ** Turn boundaries *)

Record turn_message := MkTurn { tm_Role : bytes; tm_Content : json }.

Definition turn_messages (j : json) : option (list turn_message) :=
  root ← as_struct j;
  l ← arr_field (B "messages") root;
  mapM (λ x, o ← as_struct x; r ← str_field (B "role") o; Some (MkTurn r (obj_get (B "content") o))) l.

(** The content of a message: a string, or a list of parts with a text. *)
Definition contentHasText (content : json) : bool :=
  match content with
  | JStr s => nonempty s
  | JArr l =>
      match mapM (λ p, o ← as_struct p; str_field (B "text") o) l with
      | Some texts => existsb nonempty texts
      | None => false
      end
  | _ => false
  end.

Fixpoint last_turn (rev_msgs : list turn_message) : bool :=
  match rev_msgs with
  | [] => true
  | m :: ms =>
      if bool_decide (tm_Role m = B "tool") then false
      else if negb (bool_decide (tm_Role m = B "user")) then last_turn ms
      else contentHasText (tm_Content m)
  end.

Definition detectNewTurn `{JsonCodec} (body : bytes) : bool :=
  match unmarshal body ≫= turn_messages with
  | Some msgs => last_turn (rev msgs)
  | None => true
  end.

(** ** The services a combo calls *)

Record ModelInfo := MkModel { mi_Provider : bytes; mi_Model : bytes; mi_ConnectionID : bytes }.

(** A forward: where it goes and what it carries. *)
Record forward_request := MkFwd {
  fw_Provider : bytes; fw_Model : bytes; fw_ConnectionID : bytes; fw_Body : bytes; fw_Endpoint : bytes
}.

Inductive forward_result :=
  | FOk
  | FUpstream (ue : upstreamError)
  | FOther (text : bytes).

(** A call that finds a value or nothing, or panics. *)
Inductive call (A : Type) := Found (a : A) | Nothing | Crashed.
#[global] Arguments Found {A} a.
#[global] Arguments Nothing {A}.
#[global] Arguments Crashed {A}.

(** [W] is the rest of the process: repository, catalog, upstreams, client. *)
Class Gateway (W : Type) := {
  resolveModelEntry : W → bytes → W * call ModelInfo;   (* may stamp the account of a custom node *)
  IsProviderAvailable : W → bytes → bytes → bool;
  known_no_auth : bytes → bool;
  getBestConnection : W → bytes → bytes → list bytes → bytes → W * call bytes;
  canonicalLockModel : bytes → bytes → bytes;
  IsConnectionModelLocked : W → bytes → bytes → bool;
  forward : W → forward_request → W * forward_result;
  ctx_done : W → bool;
  hold : W → Z → W * bool;                     (* the wait before a second pass; true: the client left *)
  clock : W → nat → Z;
  is_committed : W → bool;
  IsModelDeprecation : Z → bytes → bool;
  recordModelDeprecation : W → bytes → bytes → bytes → upstreamError → option W;   (* [None]: a panic *)
  is_probe : W → bool;
  GetConnectionBackoffLevel : W → bytes → Z;
  LockConnectionModel : W → bytes → bytes → Z → Z → W;
  RecordConnectionScopedError : W → bytes → bytes → Z → bytes → Z → W;
  LockConnectionRateLimit : W → bytes → Z → Z → Z → bytes → W;
  isModelScopedError : Z → bytes → bytes → bool
}.

Definition StatusClientClosedRequest : Z := 499.
Definition clientClosedBody : bytes :=
  js "{~error~:{~message~:~client closed request~,~type~:~client_closed_request~,~code~:499}}".
Definition pool_limited_error : upstreamError :=
  MkUE 429 (js "{~error~:{~message~:~all connections for this provider are rate-limited~,~type~:~rate_limit_error~,~code~:429}}") [].
Definition upstream_error_502 (text : bytes) : upstreamError :=
  MkUE 502 (js "{~error~:{~message~:~upstream error: " ++ text ++ js "~,~type~:~upstream_error~,~code~:502}}") [].

(** [handlerutil.WriteJSONError]: the members of the error in sorted order. *)
Definition errorTypes (status : Z) : bytes * bytes :=
  match List.find (λ e, e.1.1 =? status)
    [ (400, B "invalid_request_error", B "bad_request"); (401, B "authentication_error", B "invalid_api_key");
      (402, B "billing_error", B "payment_required"); (403, B "permission_error", B "insufficient_quota");
      (404, B "invalid_request_error", B "model_not_found"); (405, B "invalid_request_error", B "method_not_allowed");
      (406, B "invalid_request_error", B "model_not_supported"); (429, B "rate_limit_error", B "rate_limit_exceeded");
      (413, B "invalid_request_error", B "payload_too_large"); (500, B "server_error", B "internal_server_error");
      (502, B "server_error", B "bad_gateway"); (503, B "server_error", B "service_unavailable");
      (504, B "server_error", B "gateway_timeout") ] with
  | Some (_, t, c) => (t, c)
  | None => (B "invalid_request_error", itoa status)
  end.

Definition WriteJSONError `{JsonCodec} (status : Z) (message : bytes) : Response :=
  let '(errType, errCode) := errorTypes status in
  MkResp status None (marshal (JObj [(B "error", JObj [(B "code", JStr errCode); (B "message", JStr message); (B "type", JStr errType)])])).

Definition isGuardrailBlock (e : option upstreamError) : bool :=
  match e with Some ue => ue_StatusCode ue =? 451 | None => false end.

(** ** The loops *)

(** What happened, in order: the forwards with their results, and the starts of
    passes. *)
Inductive combo_event := EvPass | EvForward (req : forward_request) (r : forward_result).

(** What a request body becomes for a combo entry: sent to an endpoint, refused
    with a 400 that ends the request, or a write to a nil map. *)
Inductive prepared := PBody (b endpoint : bytes) | PBad | PPanic.

Section Loops.
Context {W : Type} `{Gateway W} `{UnicodeCase} `{GoTime} `{JsonCodec}.
Variable out_of_range : Z → Z.

Record combo_state := MkCombo {
  cs_world : W;
  excludeIDs : list bytes;
  lastErr : option upstreamError;
  retry : passRetry;
  history : list combo_event
}.

Definition with_world (w : W) (s : combo_state) := MkCombo w (excludeIDs s) (lastErr s) (retry s) (history s).
Definition exclude (c : bytes) (s : combo_state) := MkCombo (cs_world s) (excludeIDs s ++ [c]) (lastErr s) (retry s) (history s).
Definition fail_with (ue : upstreamError) (s : combo_state) := MkCombo (cs_world s) (excludeIDs s) (Some ue) (retry s) (history s).
Definition note_failure (ue : upstreamError) (s : combo_state) :=
  MkCombo (cs_world s) (excludeIDs s) (Some ue) (note (clock (cs_world s)) ue (retry s)) (history s).
Definition log_event (w : W) (e : combo_event) (s : combo_state) :=
  MkCombo w (excludeIDs s) (lastErr s) (retry s) (history s ++ [e]).

(** [None]: [extractErrorText] panicked on the body, before anything was locked. *)
Definition comboLockRetryable (connID provider model : bytes) (ue : upstreamError) (s : combo_state) : option combo_state :=
  let w := cs_world s in
  if is_probe w then Some (exclude connID s)
  else if bool_decide (connID = []) then Some s
  else
    text ← extractErrorText (ue_Body ue);
    let cls := ClassifyError out_of_range (ue_StatusCode ue) text (GetConnectionBackoffLevel w connID) in
    if negb (ShouldFallback cls) || (CooldownMs cls <=? 0) then Some s
    else
      let cooldownSec := retryableCooldownSec (clock w) (ue_StatusCode ue) (CooldownMs cls * 1000000) ue in
      let lockKey := canonicalLockModel provider model in
      let w := LockConnectionModel w connID lockKey cooldownSec (NewBackoffLevel cls) in
      let w := if bool_decide (lockKey = model) then w
               else LockConnectionModel w connID model cooldownSec (NewBackoffLevel cls) in
      let w := if isModelScopedError (ue_StatusCode ue) text model
               then RecordConnectionScopedError w connID model (ue_StatusCode ue) text (NewBackoffLevel cls)
               else LockConnectionRateLimit w connID (clock w 0%nat + cooldownSec * Second)
                      (NewBackoffLevel cls) (ue_StatusCode ue) text in
      Some (exclude connID (with_world w s)).

Definition is_locked (w : W) (connID provider model : bytes) : bool :=
  let lockKey := canonicalLockModel provider model in
  IsConnectionModelLocked w connID lockKey ||
  (negb (bool_decide (lockKey = model)) && IsConnectionModelLocked w connID model).

(** How the loop over connections ends: the request was answered, refused as
    malformed, met a panic, or the entry is exhausted. *)
Inductive entry_end := EServed | EBadRequest | EPanic | EExhausted.

(** What follows a failed forward: the next account, the end of the loop over
    connections, or a panic. *)
Inductive failure_end := FNext | FLeave | FPanic.

Definition handle_failure (info : ModelInfo) (connID : bytes) (noAuth : bool) (r : forward_result)
    (s : combo_state) : combo_state * failure_end :=
  let next := if noAuth then FLeave else FNext in
  if ctx_done (cs_world s) then (fail_with (MkUE StatusClientClosedRequest clientClosedBody []) s, FLeave)
  else match r with
       | FOk => (s, FLeave)
       | FUpstream ue =>
           if isGuardrailBlock (Some ue) then (fail_with ue s, FLeave)
           else if IsModelDeprecation (ue_StatusCode ue) (ue_Body ue) then
             match recordModelDeprecation (cs_world s) (mi_Provider info) (mi_Model info) connID ue with
             | Some w => (note_failure ue (with_world w s), FLeave)
             | None => (s, FPanic)
             end
           else if IsModelFitError (ue_StatusCode ue) (ue_Body ue) then (note_failure ue s, FLeave)
           else
             match (if RetryableStatusCodes (ue_StatusCode ue)
                    then comboLockRetryable connID (mi_Provider info) (mi_Model info) ue s else Some s) with
             | Some s => (note_failure ue s, next)
             | None => (s, FPanic)
             end
       | FOther text => (fail_with (upstream_error_502 text) s, next)
       end.

(** [prepare] is the body of the entry. *)
Fixpoint connection_loop (n : nat) (prepare : prepared) (info : ModelInfo) (s : combo_state)
    : combo_state * entry_end :=
  match n with
  | O => (s, EExhausted)
  | S n' =>
      let noAuth := known_no_auth (mi_Provider info) in
      let '(s, picked) :=
        if noAuth then (s, Found [])
        else let '(w, c) := getBestConnection (cs_world s) (mi_Provider info) (mi_ConnectionID info)
                              (excludeIDs s) (mi_Model info) in
             (with_world w s, c) in
      match picked with
      | Nothing => (s, EExhausted)
      | Crashed => (s, EPanic)
      | Found connID =>
          if negb (bool_decide (connID = [])) && is_locked (cs_world s) connID (mi_Provider info) (mi_Model info)
          then connection_loop n' prepare info (exclude connID s)
          else
            match prepare with
            | PBad => (s, EBadRequest)
            | PPanic => (s, EPanic)
            | PBody body endpoint =>
                let req := MkFwd (mi_Provider info) (mi_Model info) connID body endpoint in
                let '(w, r) := forward (cs_world s) req in
                let s := log_event w (EvForward req r) s in
                match r with
                | FOk => (s, EServed)
                | _ =>
                    let '(s, next) := handle_failure info connID noAuth r s in
                    match next with
                    | FNext => connection_loop n' prepare info s
                    | FLeave => (s, EExhausted)
                    | FPanic => (s, EPanic)
                    end
                end
            end
      end
  end.

(** How a pass over the models ends. *)
Inductive pass_end := PassServed | PassBadRequest | PassPanic | PassFailed.

Definition connAttempts : nat := 10.

Variable prepare : bytes → ModelInfo → prepared.

Fixpoint model_loop (models : list bytes) (s : combo_state) : combo_state * pass_end :=
  match models with
  | [] => (s, PassFailed)
  | entry :: models' =>
      let '(w, found) := resolveModelEntry (cs_world s) entry in
      let s := with_world w s in
      match found with
      | Nothing => model_loop models' s
      | Crashed => (s, PassPanic)
      | Found info =>
          if negb (IsProviderAvailable (cs_world s) (mi_Provider info) (mi_Model info)) then
            model_loop models' (match lastErr s with None => fail_with pool_limited_error s | Some _ => s end)
          else
            let '(s, e) := connection_loop connAttempts (prepare entry info) info s in
            match e with
            | EServed => (s, PassServed)
            | EBadRequest => (s, PassBadRequest)
            | EPanic => (s, PassPanic)
            | EExhausted =>
                if ctx_done (cs_world s) then (s, PassServed)
                else if isGuardrailBlock (lastErr s) then (s, PassFailed)
                else model_loop models' s
            end
      end
  end.

(** The answer of the handler: nothing more is written, an error response, or a
    panic. *)
Inductive combo_answer := Done | ErrorAnswer (r : Response) | Panics.

Definition no_entries : Response := WriteJSONError 502 (B "all combo models failed: no valid entries").
Definition bad_body : Response := WriteJSONError 400 (B "failed to parse request body").

Definition conclude_combo (s : combo_state) : combo_answer :=
  match lastErr s with
  | Some ue => if is_committed (cs_world s) then Done
               else ErrorAnswer (writeError (clock (cs_world s)) (retry s) ue)
  | None => if is_committed (cs_world s) then Done else ErrorAnswer no_entries
  end.

Definition start_pass (w : W) (s : combo_state) : combo_state :=
  MkCombo w [] None pass_reset (history s ++ [EvPass]).

Definition first_pass (w : W) : combo_state := MkCombo w [] None pass_reset [].

Definition run_combo (models : list bytes) (w : W) : combo_state * combo_answer :=
  let '(s1, e1) := model_loop models (first_pass w) in
  match e1 with
  | PassServed => (s1, Done)
  | PassBadRequest => (s1, ErrorAnswer bad_body)
  | PassPanic => (s1, Panics)
  | PassFailed =>
      if isGuardrailBlock (lastErr s1) || bool_decide (lastErr s1 = None) || ctx_done (cs_world s1)
      then (s1, conclude_combo s1)
      else if wait (retry s1) =? 0 then (s1, conclude_combo s1)
      else
        let '(w2, gone) := hold (cs_world s1) (wait (retry s1)) in
        if gone then (with_world w2 s1, Done)
        else
          let '(s2, e2) := model_loop models (start_pass w2 s1) in
          match e2 with
          | PassServed => (s2, Done)
          | PassBadRequest => (s2, ErrorAnswer bad_body)
          | PassPanic => (s2, Panics)
          | PassFailed => (s2, conclude_combo s2)
          end
  end.

End Loops.

(** ** The two handlers

    They differ in the body they send: the chat handler trims, decodes and
    repairs the client's JSON per entry, the messages handler copies a request
    already translated. *)
Section Handlers.
Context {W : Type} `{Gateway W} `{UnicodeCase} `{GoTime} `{JsonCodec}.
Variable out_of_range : Z → Z.
Variable GetCapabilitiesForModel : bytes → bytes → Capabilities.
Variable ContextWindow : bytes → bytes → Z.
Variable GetModelTokenLimits : bytes → Z.

Definition chat_prepare (body : bytes) (adapterModels : list bytes) (entry : bytes) (info : ModelInfo) : prepared :=
  match unmarshal (adapterTrimmedBody ContextWindow GetModelTokenLimits body entry adapterModels) with
  | Some (JObj m) =>
      PBody (marshal (JObj (repairToolCallIDsInMap (obj_put (B "model") (JStr (mi_Model info)) m))))
        (B "/v1/chat/completions")
  | Some JNull => PPanic
  | _ => PBad
  end.

Definition messages_prepare (translatedReq : object) (adapterModels : list bytes) (entry : bytes) (info : ModelInfo) : prepared :=
  match adapterTrimmedMap ContextWindow GetModelTokenLimits translatedReq entry adapterModels with
  | Some (Some m) => PBody (marshal (JObj (obj_put (B "model") (JStr (mi_Model info)) m))) (B "/v1/messages")
  | Some None => PPanic
  | None => PBad
  end.

Definition order_models (body : bytes) (comboModels : list bytes) (strategy comboName : string) (stickyLimit : Z)
    (sticky : gmap string comboStickyState) : gmap string comboStickyState * list bytes * gset string :=
  let '(sticky, models) := applyComboStrategy strategy comboModels comboName stickyLimit (detectNewTurn body) sticky in
  let required := DetectRequiredCapabilities body in
  (sticky, if bool_decide (required = ∅) then models else ReorderByCapabilities GetCapabilitiesForModel models required,
   required).

(** The log line of the chat handler reads the first model. *)
Definition handleComboFallback (body : bytes) (comboModels : list bytes) (strategy comboName : string) (stickyLimit : Z)
    (adapterModels : list bytes) (sticky : gmap string comboStickyState) (w : W)
    : gmap string comboStickyState * (combo_state * combo_answer) :=
  let '(sticky, models, required) := order_models body comboModels strategy comboName stickyLimit sticky in
  if negb (bool_decide (required = ∅)) && bool_decide (models = []) then (sticky, (first_pass w, Panics))
  else (sticky, run_combo out_of_range (chat_prepare body adapterModels) models w).

Definition handleMessagesComboFallback (translatedReq : object) (comboModels : list bytes) (strategy comboName : string)
    (stickyLimit : Z) (adapterModels : list bytes) (sticky : gmap string comboStickyState) (w : W)
    : gmap string comboStickyState * (combo_state * combo_answer) :=
  let bodyJSON := marshal (JObj translatedReq) in
  let '(sticky, models, _) := order_models bodyJSON comboModels strategy comboName stickyLimit sticky in
  (sticky, run_combo out_of_range (messages_prepare translatedReq adapterModels) models w).

End Handlers.

(** ** Properties of the loops *)

Section ComboFacts.
Context {W : Type} `{HG : Gateway W} `{HU : UnicodeCase} `{HT : GoTime} `{HJ : JsonCodec}.
Variable oor : Z → Z.
Variable prepare : bytes → ModelInfo → prepared.
Abbreviation state := (@combo_state W).

Fixpoint forwards (h : list combo_event) : nat :=
  match h with
  | [] => 0
  | EvForward _ _ :: h' => S (forwards h')
  | EvPass :: h' => forwards h'
  end.

Lemma forwards_app h k : forwards (h ++ k) = (forwards h + forwards k)%nat.
Proof. induction h as [|[] h IH]; cbn; lia. Qed.

(** *** What the steps leave alone *)

Lemma comboLockRetryable_keeps c p m ue (s s' : state) : comboLockRetryable oor c p m ue s = Some s' →
  history s' = history s ∧ ∃ ex, excludeIDs s' = excludeIDs s ++ ex.
Proof.
  assert (∃ ex, excludeIDs s = excludeIDs s ++ ex) as Hid by (exists []; by rewrite app_nil_r).
  unfold comboLockRetryable. destruct (is_probe _); [intros [= <-]; split; [done|by eexists]|].
  case_bool_decide; [by intros [= <-]|]. destruct (extractErrorText _); [|done]. cbn [mbind option_bind].
  destruct (_ || _); intros [= <-]; [done|]. split; [done|by eexists].
Qed.

Lemma handle_failure_keeps info c na r (s : state) :
  history (handle_failure oor info c na r s).1 = history s ∧
  ∃ ex, excludeIDs (handle_failure oor info c na r s).1 = excludeIDs s ++ ex.
Proof.
  assert (∃ ex, excludeIDs s = excludeIDs s ++ ex) as Hid by (exists []; by rewrite app_nil_r).
  unfold handle_failure. destruct (ctx_done _); [done|]. destruct r as [|ue|t]; [done| |done].
  destruct (isGuardrailBlock _); [done|]. destruct (IsModelDeprecation _ _); [by destruct (recordModelDeprecation _ _ _ _ _)|].
  destruct (IsModelFitError _ _); [done|]. destruct (RetryableStatusCodes _); [|done].
  destruct (comboLockRetryable _ _ _ _ _ _) as [s'|] eqn:El; [|done]. by apply comboLockRetryable_keeps in El.
Qed.

(** *** A rule of induction for the loops

    [M k] holds with [k] models left to try, [I k n] within an entry with [n]
    attempts left and [k] models after it, [J k e] where the loop over
    connections ends with [e], and [K e] where the loop over models ends. *)
Section LoopInvariant.
Variable M : nat → state → Prop.
Variable I : nat → nat → state → Prop.
Variable J : nat → entry_end → state → Prop.
Variable K : pass_end → state → Prop.

Hypothesis I_world : ∀ k n w s, I k (S n) s → I k (S n) (with_world w s).
Hypothesis I_exclude : ∀ k n c s, I k (S n) s → I k n (exclude c s).
Hypothesis I_exhausted : ∀ k n s, I k n s → J k EExhausted s.
Hypothesis I_bad : ∀ k n s, I k n s → J k EBadRequest s.
Hypothesis I_panic : ∀ k n s, I k n s → J k EPanic s.

(** One forward through connection [c]. *)
Definition forward_step (k n : nat) (info : ModelInfo) (body endpoint c : bytes) (s : state) : Prop :=
  let req := MkFwd (mi_Provider info) (mi_Model info) c body endpoint in
  let '(w, r) := forward (cs_world s) req in
  let s1 := log_event w (EvForward req r) s in
  match r with
  | FOk => J k EServed s1
  | _ =>
      let '(s2, next) := handle_failure oor info c (known_no_auth (mi_Provider info)) r s1 in
      match next with FNext => I k n s2 | FLeave => J k EExhausted s2 | FPanic => J k EPanic s2 end
  end.

(** The connection picked for an attempt, and the state after picking it. *)
Definition picks (info : ModelInfo) (s : state) (c : bytes) (s' : state) : Prop :=
  (known_no_auth (mi_Provider info) = true ∧ c = [] ∧ s' = s) ∨
  ∃ w, (known_no_auth (mi_Provider info) = false ∧
        getBestConnection (cs_world s) (mi_Provider info) (mi_ConnectionID info) (excludeIDs s) (mi_Model info) = (w, Found c)) ∧
       s' = with_world w s.

Hypothesis step : ∀ k n info body endpoint s c s',
  I k (S n) s → picks info s c s' → forward_step k n info body endpoint c s'.

Lemma connection_loop_ind k n p info : ∀ s, I k n s →
  let '(s', e) := connection_loop oor n p info s in J k e s'.
Proof.
  induction n as [|n IH]; intros s Hs; cbn [connection_loop]; [by eapply I_exhausted|].
  destruct (known_no_auth (mi_Provider info)) eqn:Ena.
  - rewrite bool_decide_eq_true_2 by done. cbn [negb andb].
    destruct p as [body endpoint| |]; [|by eapply I_bad|by eapply I_panic].
    pose proof (step k n info body endpoint s [] s Hs ltac:(by left)) as Hf. unfold forward_step in Hf. rewrite Ena in Hf.
    destruct (forward _ _) as [w r]. destruct r; [done| |];
      destruct (handle_failure _ _ _ _ _ _) as [s2 [| |]]; (done || by apply IH).
  - destruct (getBestConnection _ _ _ _ _) as [w [c| |]] eqn:Eg; [|by eapply I_exhausted, I_world|by eapply I_panic, I_world].
    destruct (negb _ && is_locked _ _ _ _); [by apply IH, I_exclude, I_world|].
    destruct p as [body endpoint| |]; [|by eapply I_bad, I_world|by eapply I_panic, I_world].
    pose proof (step k n info body endpoint s c _ Hs ltac:(right; eauto)) as Hf. unfold forward_step in Hf. rewrite Ena in Hf.
    destruct (forward _ _) as [w' r]. destruct r; [done| |];
      destruct (handle_failure _ _ _ _ _ _) as [s2 [| |]]; (done || by apply IH).
Qed.

Hypothesis M_world : ∀ k w s, M k s → M k (with_world w s).
Hypothesis M_skip : ∀ k s, M (S k) s → M k s.
Hypothesis M_fail : ∀ k ue s, M k s → M k (fail_with ue s).
Hypothesis M_enter : ∀ k s, M (S k) s → I k connAttempts s.
Hypothesis M_end : ∀ s, M 0 s → K PassFailed s.
Hypothesis J_served : ∀ k s, J k EServed s → K PassServed s.
Hypothesis J_bad : ∀ k s, J k EBadRequest s → K PassBadRequest s.
Hypothesis J_panic : ∀ k s, J k EPanic s → K PassPanic s.
Hypothesis M_panic : ∀ k s, M (S k) s → K PassPanic s.
Hypothesis J_gone : ∀ k s, J k EExhausted s → ctx_done (cs_world s) = true → K PassServed s.
Hypothesis J_block : ∀ k s, J k EExhausted s → ctx_done (cs_world s) = false →
  isGuardrailBlock (lastErr s) = true → K PassFailed s.
Hypothesis J_next : ∀ k s, J k EExhausted s → ctx_done (cs_world s) = false →
  isGuardrailBlock (lastErr s) = false → M k s.

Lemma model_loop_ind models : ∀ s, M (length models) s →
  let '(s', e) := model_loop oor prepare models s in K e s'.
Proof.
  induction models as [|entry models IH]; intros s Hs; cbn [model_loop]; [by apply M_end|]. cbn [length] in Hs.
  destruct (resolveModelEntry _ _) as [w [info| |]]; [|by apply IH, M_skip, M_world|by eapply M_panic, M_world].
  apply (M_world _ w) in Hs. set (s0 := with_world w s) in *.
  destruct (IsProviderAvailable _ _ _); cbn [negb].
  - pose proof (connection_loop_ind (length models) connAttempts (prepare entry info) info s0 (M_enter _ _ Hs)) as Hc.
    destruct (connection_loop _ _ _ _ _) as [s1 e].
    destruct e; [by eapply J_served|by eapply J_bad|by eapply J_panic|].
    destruct (ctx_done (cs_world s1)) eqn:Ec; [by eapply J_gone|].
    destruct (isGuardrailBlock (lastErr s1)) eqn:Eg; [by eapply J_block|]. by eapply IH, J_next.
  - apply IH. destruct (lastErr s0); [|apply M_fail]; by apply M_skip.
Qed.

End LoopInvariant.

(** *** The number of forwards *)

Lemma log_forwards w req r (s : state) : forwards (history (log_event w (EvForward req r) s)) = S (forwards (history s)).
Proof. cbn [log_event history]. rewrite forwards_app. cbn. lia. Qed.

Lemma model_loop_forwards models (s : state) :
  (forwards (history (model_loop oor prepare models s).1) <= forwards (history s) + 10 * length models)%nat.
Proof.
  set (b := (forwards (history s) + 10 * length models)%nat).
  assert (let '(s', e) := model_loop oor prepare models s in (forwards (history s') <= b)%nat) as Hb;
    [|by destruct (model_loop _ _ _ _)].
  apply (model_loop_ind (λ k s, forwards (history s) + 10 * k <= b)%nat
    (λ k n s, forwards (history s) + n + 10 * k <= b)%nat (λ k _ s, forwards (history s) + 10 * k <= b)%nat
    (λ _ s, forwards (history s) <= b)%nat); unfold connAttempts; cbn [with_world exclude fail_with history]; try (intros; lia).
  intros k n info body endpoint s0 c s1 Hs Hp. unfold forward_step.
  assert (forwards (history s1) = forwards (history s0)) as E by (by destruct Hp as [(_ & _ & ->)|(w & _ & ->)]).
  set (req := MkFwd _ _ _ _ _). destruct (forward _ req) as [w r].
  pose proof (log_forwards w req r s1) as Hl.
  pose proof (handle_failure_keeps info c (known_no_auth (mi_Provider info)) r (log_event w (EvForward req r) s1)) as [Hh _].
  destruct r; [lia| |]; destruct (handle_failure _ _ _ _ _ _) as [s2 [| |]]; cbn [fst] in Hh; rewrite Hh; lia.
Qed.

Lemma run_combo_forwards models (w : W) :
  (forwards (history (run_combo oor prepare models w).1) <= 20 * length models)%nat.
Proof.
  unfold run_combo. pose proof (model_loop_forwards models (first_pass w)) as H1. cbn [first_pass history forwards] in H1.
  destruct (model_loop _ _ _ _) as [s1 e1]. cbn [fst] in H1. destruct e1; cbn [fst]; try lia.
  destruct (_ || _); cbn [fst]; [lia|]. destruct (wait (retry s1) =? 0); cbn [fst]; [lia|].
  destruct (hold _ _) as [w2 [|]]; cbn [fst with_world history]; [lia|].
  pose proof (model_loop_forwards models (start_pass w2 s1)) as H2. cbn [start_pass history] in H2.
  rewrite forwards_app in H2. cbn [forwards] in H2.
  destruct (model_loop _ _ _ _) as [s2 e2]. cbn [fst] in H2. destruct e2; cbn [fst]; lia.
Qed.

(** *** A success and a refusal end the request *)

Definition final (r : forward_result) : Prop :=
  match r with FOk => True | FUpstream ue => ue_StatusCode ue = 451 | FOther _ => False end.

Definition ongoing (h : list combo_event) : Prop := ∀ q r, EvForward q r ∈ h → ¬ final r.
Definition ended (P : forward_result → Prop) (h : list combo_event) : Prop :=
  ∃ h0 q r, h = h0 ++ [EvForward q r] ∧ ongoing h0 ∧ P r.

Lemma ongoing_snoc h q r : ongoing h → ¬ final r → ongoing (h ++ [EvForward q r]).
Proof.
  intros Hh Hr q' r' [Hin|Hin]%elem_of_app; [by eapply Hh|]. apply list_elem_of_singleton in Hin. by injection Hin as -> ->.
Qed.

Lemma ongoing_pass h : ongoing h → ongoing (h ++ [EvPass]).
Proof. intros Hh q r [Hin|Hin]%elem_of_app; [by eapply Hh|]. by apply list_elem_of_singleton in Hin. Qed.

(** The refusal a state holds, or the client's departure. *)
Definition stopped (s : state) (r : forward_result) : Prop :=
  r ≠ FOk ∧ (ctx_done (cs_world s) = true ∨ ∃ ue, r = FUpstream ue ∧ ue_StatusCode ue = 451 ∧ lastErr s = Some ue).

Definition entry_final (e : entry_end) (s : state) : Prop :=
  match e with
  | EServed => ended (λ r, r = FOk) (history s)
  | EExhausted => ongoing (history s) ∨ ended (stopped s) (history s)
  | EBadRequest | EPanic => ongoing (history s)
  end.
Definition pass_final (e : pass_end) (s : state) : Prop :=
  match e with
  | PassServed => ongoing (history s) ∨ ended (λ r, r = FOk ∨ stopped s r) (history s)
  | PassFailed => ongoing (history s) ∨
      ended (λ r, ∃ ue, r = FUpstream ue ∧ ue_StatusCode ue = 451 ∧ lastErr s = Some ue) (history s)
  | PassBadRequest | PassPanic => ongoing (history s)
  end.

Lemma ended_impl (P Q : forward_result → Prop) h : (∀ r, P r → Q r) → ended P h → ended Q h.
Proof. intros HPQ (h0 & q & r & ? & ? & ?). exists h0, q, r. eauto. Qed.

Lemma forward_final info c na q r w (s : state) : ongoing (history s) → r ≠ FOk →
  let s1 := log_event w (EvForward q r) s in
  let '(s2, next) := handle_failure oor info c na r s1 in
  (next = FLeave ∧ entry_final EExhausted s2) ∨ ongoing (history s2).
Proof.
  intros Ho Hr s1. pose proof (handle_failure_keeps info c na r s1) as [Hh _].
  destruct r as [|ue|t]; [done| |].
  - destruct (Z.eq_dec (ue_StatusCode ue) 451) as [E|E].
    + assert (∀ s2 : state, history s2 = history s1 → stopped s2 (FUpstream ue) → entry_final EExhausted s2) as Hend
        by (intros s2 Es2 Hst; right; exists (history s), q, (FUpstream ue); done).
      unfold handle_failure in *. destruct (ctx_done (cs_world s1)) eqn:Ec.
      * left. split; [done|]. apply Hend; [done|]. split; [done|by left].
      * cbn [isGuardrailBlock] in *. rewrite (proj2 (Z.eqb_eq _ _) E). left. split; [done|].
        apply Hend; [done|]. split; [done|right; eauto].
    + destruct (handle_failure _ _ _ _ _ _) as [s2 next]. right. cbn [fst] in Hh. rewrite Hh.
      by apply (ongoing_snoc (history s)).
  - destruct (handle_failure _ _ _ _ _ _) as [s2 next]. right. cbn [fst] in Hh. rewrite Hh.
    apply (ongoing_snoc (history s)); [done|by intros []].
Qed.

Lemma model_loop_final models (s : state) : ongoing (history s) →
  let '(s', e) := model_loop oor prepare models s in pass_final e s'.
Proof.
  intros Hs. apply (model_loop_ind (λ _ s, ongoing (history s)) (λ _ _ s, ongoing (history s))
    (λ _ e s, entry_final e s) pass_final); cbn [with_world exclude fail_with history entry_final pass_final];
    try (intros; done); try (intros; by left).
  - intros k n info body endpoint s0 c s1 H0 Hp. unfold forward_step.
    assert (ongoing (history s1)) as Ho by (by destruct Hp as [(_ & _ & ->)|(w & _ & ->)]).
    set (q := MkFwd _ _ _ _ _). destruct (forward _ q) as [w r].
    pose proof (forward_final info c (known_no_auth (mi_Provider info)) q r w s1 Ho) as Hf.
    destruct r; [by exists (history s1), q, FOk| |];
      (specialize (Hf ltac:(done)); cbv zeta in Hf;
       destruct (handle_failure _ _ _ _ _ _) as [s2 [| |]];
       [by destruct Hf as [[? _]|?]|destruct Hf as [[_ ?]|?]; [done|by left]|by destruct Hf as [[? _]|?]]).
  - intros k s0 H0. right. by eapply ended_impl; [|exact H0]; auto.
  - intros k s0 [H0|H0] _; [by left|right]. by eapply ended_impl; [|exact H0]; auto.
  - intros k s0 [H0|H0] Hc _; [by left|right]. eapply ended_impl; [|exact H0].
    intros r [_ [?|?]]; [congruence|done].
  - intros k s0 [H0|(h0 & q & r & _ & _ & _ & [?|(ue & _ & E & El)])] Hc Hg; [done|congruence|].
    rewrite El in Hg. cbn in Hg. rewrite E in Hg. done.
Qed.

(** C9. A request makes at most twenty forwards per model. The first forward
    that succeeds, or that a guardrail refuses, is the last one: no other model
    or account sees the request; after a success nothing more is written, and a
    refusal is the answer unless the client has left or already has one. *)
Theorem combo_stops_at_answer models w :
  let s := (run_combo oor prepare models w).1 in
  let answer := (run_combo oor prepare models w).2 in
  (forwards (history s) <= 20 * length models)%nat ∧
  ∀ h1 q r h2, history s = h1 ++ EvForward q r :: h2 → final r →
    h2 = [] ∧ (r = FOk → answer = Done) ∧
    (∀ ue, r = FUpstream ue → answer = Done ∨ answer = ErrorAnswer (writeError (clock (cs_world s)) (retry s) ue)).
Proof.
  cbv zeta. pose proof (run_combo_forwards models w) as Hn. unfold run_combo in *.
  pose proof (model_loop_final models (first_pass w) ltac:(by intros q r ?%elem_of_nil)) as H1.
  assert (∀ (s : state) a P, ended P (history s) →
    (∀ r, P r → (r = FOk → a = Done) ∧ (∀ ue, r = FUpstream ue → a = Done ∨ a = ErrorAnswer (writeError (clock (cs_world s)) (retry s) ue))) →
    ∀ h1 q r h2, history s = h1 ++ EvForward q r :: h2 → final r → h2 = [] ∧ (r = FOk → a = Done) ∧
      (∀ ue, r = FUpstream ue → a = Done ∨ a = ErrorAnswer (writeError (clock (cs_world s)) (retry s) ue))) as Hend.
  { intros s a P (h0 & q0 & r0 & Eh & Ho & HP) Ha h1 q r h2 E Hf. rewrite Eh in E.
    destruct h2 as [|x h3 _] using rev_ind.
    - apply List.app_inj_tail in E as [_ [= -> ->]]. split; [done|by apply Ha].
    - rewrite app_comm_cons, app_assoc in E. apply List.app_inj_tail in E as [-> _]. exfalso. eapply Ho, Hf. apply elem_of_app. right. left. }
  assert (∀ (s : state) a, ongoing (history s) →
    ∀ h1 q r h2, history s = h1 ++ EvForward q r :: h2 → final r → h2 = [] ∧ (r = FOk → a = Done) ∧
      (∀ ue, r = FUpstream ue → a = Done ∨ a = ErrorAnswer (writeError (clock (cs_world s)) (retry s) ue))) as Hopen.
  { intros s a Ho h1 q r h2 E Hf. exfalso. eapply Ho, Hf. rewrite E. apply elem_of_app. right. left. }
  assert (∀ (s : state), ongoing (history s) ∨ ended (λ r, ∃ ue, r = FUpstream ue ∧ ue_StatusCode ue = 451 ∧ lastErr s = Some ue) (history s) →
    ∀ h1 q r h2, history s = h1 ++ EvForward q r :: h2 → final r → h2 = [] ∧ (r = FOk → conclude_combo s = Done) ∧
      (∀ ue, r = FUpstream ue → conclude_combo s = Done ∨
         conclude_combo s = ErrorAnswer (writeError (clock (cs_world s)) (retry s) ue))) as Hconcl.
  { intros s [Ho|He]; [by apply Hopen|]. eapply Hend; [exact He|]. intros r (ue & -> & _ & El). split; [done|].
    intros ue' [= ->]. unfold conclude_combo. rewrite El. destruct (is_committed _); auto. }
  assert (∀ (s : state), ongoing (history s) ∨ ended (λ r, r = FOk ∨ stopped s r) (history s) →
    ∀ h1 q r h2, history s = h1 ++ EvForward q r :: h2 → final r → h2 = [] ∧ (r = FOk → Done = Done) ∧
      (∀ ue, r = FUpstream ue → Done = Done ∨ Done = ErrorAnswer (writeError (clock (cs_world s)) (retry s) ue))) as Hserved.
  { intros s [Ho|He]; [by apply Hopen|]. eapply Hend; [exact He|]. auto. }
  destruct (model_loop _ _ _ (first_pass w)) as [s1 e1]. cbn [pass_final] in H1.
  destruct e1; [split; [done|by apply Hserved]|split; [done|by apply Hopen]|split; [done|by apply Hopen]|].
  destruct (_ || _ || _) eqn:Estop; [split; [done|by apply Hconcl]|].
  destruct (wait (retry s1) =? 0); [split; [done|by apply Hconcl]|].
  destruct (hold _ _) as [w2 [|]]; [split; [done|]|].
  - assert (ongoing (history s1)) as Ho1.
    { destruct H1 as [?|(h0 & q & r & _ & _ & ue & _ & E & El)]; [done|]. rewrite El in Estop. cbn in Estop.
      by rewrite E in Estop. }
    by apply (Hopen (with_world w2 s1)).
  - assert (ongoing (history s1)) as Ho1.
    { destruct H1 as [?|(h0 & q & r & _ & _ & ue & _ & E & El)]; [done|]. rewrite El in Estop. cbn in Estop.
      by rewrite E in Estop. }
    pose proof (model_loop_final models (start_pass w2 s1) (ongoing_pass _ Ho1)) as H2.
    destruct (model_loop _ _ _ _) as [s2 e2]. cbn [pass_final] in H2.
    destruct e2; (split; [done|]); [by apply Hserved|by apply Hopen|by apply Hopen|by apply Hconcl].
Qed.

(** *** A limited account is not asked twice *)

(** A failure after which another account should be tried: a retryable status
    of a stored connection. *)
Definition limited (q : forward_request) (r : forward_result) : Prop :=
  fw_ConnectionID q ≠ [] ∧ ∃ ue, r = FUpstream ue ∧ RetryableStatusCodes (ue_StatusCode ue) = true.

(** The forwards since the last pass began. *)
Definition pass_step (acc : list (forward_request * forward_result)) (e : combo_event) :=
  match e with EvPass => [] | EvForward q r => acc ++ [(q, r)] end.
Definition this_pass (h : list combo_event) : list (forward_request * forward_result) := foldl pass_step [] h.

Definition no_reuse (h : list combo_event) : Prop :=
  ∀ h1 q1 r1 h2 q2 r2 h3, h = h1 ++ EvForward q1 r1 :: h2 ++ EvForward q2 r2 :: h3 →
    EvPass ∉ h2 → limited q1 r1 → fw_ConnectionID q2 ≠ fw_ConnectionID q1.

Lemma this_pass_snoc h e : this_pass (h ++ [e]) = pass_step (this_pass h) e.
Proof. unfold this_pass. by rewrite foldl_app. Qed.

Lemma this_pass_elem h1 q r h2 : EvPass ∉ h2 → (q, r) ∈ this_pass (h1 ++ EvForward q r :: h2).
Proof.
  intros Hn. induction h2 as [|e h2 IH] using rev_ind.
  - rewrite this_pass_snoc. cbn. apply elem_of_app. right. left.
  - rewrite app_comm_cons, app_assoc, this_pass_snoc. apply not_elem_of_app in Hn as [Hn He].
    destruct e; [exfalso; apply He; left|]. cbn. apply elem_of_app. left. by apply IH.
Qed.

Lemma no_reuse_pass h : no_reuse h → no_reuse (h ++ [EvPass]).
Proof.
  intros Hr h1 q1 r1 h2 q2 r2 h3 E. destruct h3 as [|e h3 _] using rev_ind.
  - rewrite app_comm_cons, app_assoc in E. by apply List.app_inj_tail in E as [_ ?].
  - rewrite !app_comm_cons, !app_assoc in E. apply List.app_inj_tail in E as [-> _].
    eapply Hr. by rewrite <- app_assoc.
Qed.

Lemma no_reuse_forward h q r : no_reuse h →
  (∀ q1 r1, (q1, r1) ∈ this_pass h → limited q1 r1 → fw_ConnectionID q ≠ fw_ConnectionID q1) →
  no_reuse (h ++ [EvForward q r]).
Proof.
  intros Hr Hq h1 q1 r1 h2 q2 r2 h3 E Hn Hl. destruct h3 as [|e h3 _] using rev_ind.
  - rewrite app_comm_cons, app_assoc in E. apply List.app_inj_tail in E as [-> [= -> ->]].
    eapply Hq, Hl. by apply this_pass_elem.
  - rewrite !app_comm_cons, !app_assoc in E. apply List.app_inj_tail in E as [-> _].
    eapply Hr; [|done..]. by rewrite <- app_assoc.
Qed.

(** What the loops rely on: a picked connection is not an excluded one, backoff
    levels fit their type, and only a 410 retires a model. *)
Hypothesis pick_honours_exclusion : ∀ w p pin ex m w' c, known_no_auth p = false → getBestConnection w p pin ex m = (w', Found c) → c ∉ ex.
Hypothesis backoff_level_range : ∀ w c, - 2 ^ 63 <= GetConnectionBackoffLevel w c < 2 ^ 63 - 1.
Hypothesis deprecation_is_gone : ∀ st b, IsModelDeprecation st b = true → st = 410.

Definition tidy (s : state) : Prop :=
  no_reuse (history s) ∧ ∀ q r, (q, r) ∈ this_pass (history s) → limited q r → fw_ConnectionID q ∈ excludeIDs s.

Lemma retryable_lock_excludes c p m ue (s s' : state) : c ≠ [] → RetryableStatusCodes (ue_StatusCode ue) = true →
  comboLockRetryable oor c p m ue s = Some s' → c ∈ excludeIDs s'.
Proof.
  intros Hc Hr. unfold comboLockRetryable. destruct (is_probe _); [intros [= <-]; cbn; set_solver|].
  rewrite bool_decide_eq_false_2 by done. destruct (extractErrorText _) as [text|]; [|done]. cbn [mbind option_bind].
  destruct (classify_contract oor (ue_StatusCode ue) text (GetConnectionBackoffLevel (cs_world s) c)
    (backoff_level_range _ _)) as (_ & Hcool & Hfb & _).
  specialize (Hfb Hr). destruct (Hcool Hfb) as [[Hpos _] _]. rewrite Hfb. cbn [negb orb].
  rewrite (proj2 (Z.leb_gt _ _)) by done. intros [= <-]. cbn. set_solver.
Qed.

Lemma handle_failure_excludes info na q ue (s : state) : limited q (FUpstream ue) → ctx_done (cs_world s) = false →
  let '(s2, next) := handle_failure oor info (fw_ConnectionID q) na (FUpstream ue) s in
  next ≠ FPanic → fw_ConnectionID q ∈ excludeIDs s2.
Proof.
  intros [Hc (ue' & [= <-] & Hr)] Hctx. unfold handle_failure. rewrite Hctx.
  pose proof Hr as Hst. unfold RetryableStatusCodes in Hst. apply bool_decide_eq_true in Hst.
  assert (isGuardrailBlock (Some ue) = false) as -> by (cbn; apply Z.eqb_neq; intros E; rewrite E in Hst; set_solver).
  assert (IsModelDeprecation (ue_StatusCode ue) (ue_Body ue) = false) as ->.
  { destruct (IsModelDeprecation _ _) eqn:Ed; [|done]. apply deprecation_is_gone in Ed. rewrite Ed in Hst. set_solver. }
  assert (IsModelFitError (ue_StatusCode ue) (ue_Body ue) = false) as ->.
  { unfold IsModelFitError, ModelFitStatusCodes. rewrite !(proj2 (Z.eqb_neq _ _)) by (intros E; rewrite E in Hst; set_solver). done. }
  rewrite Hr. destruct (comboLockRetryable _ _ _ _ _ _) as [s'|] eqn:El; [|done]. intros _.
  cbn [note_failure excludeIDs]. by eapply retryable_lock_excludes.
Qed.

Lemma forward_tidy info na q r w (s : state) : tidy s → r ≠ FOk →
  (∀ q1 r1, (q1, r1) ∈ this_pass (history s) → limited q1 r1 → fw_ConnectionID q ≠ fw_ConnectionID q1) →
  let '(s2, next) := handle_failure oor info (fw_ConnectionID q) na r (log_event w (EvForward q r) s) in
  no_reuse (history s2) ∧ (ctx_done w = false → next ≠ FPanic → tidy s2).
Proof.
  intros [Hn Hex] Hr Hq. set (s1 := log_event w (EvForward q r) s) in *.
  pose proof (handle_failure_keeps info (fw_ConnectionID q) na r s1) as [Hh [ex He]].
  pose proof (λ ue, handle_failure_excludes info na q ue s1) as Hexcl.
  destruct (handle_failure oor info (fw_ConnectionID q) na r s1) as [s2 next] eqn:Ehf. cbn [fst] in Hh, He.
  assert (no_reuse (history s2)) as Hn2 by (rewrite Hh; by apply no_reuse_forward).
  split; [done|]. intros Hctx Hnp. split; [done|]. rewrite Hh. cbn [s1 log_event history]. rewrite this_pass_snoc. cbn [pass_step].
  intros q' r' [Hin|Hin]%elem_of_app Hl.
  - rewrite He. apply elem_of_app. left. by apply (Hex q' r').
  - apply list_elem_of_singleton in Hin as [= -> ->]. destruct Hl as [Hc (ue & -> & Hst)].
    specialize (Hexcl ue ltac:(split; eauto) Hctx). rewrite Ehf in Hexcl. by apply Hexcl.
Qed.

Lemma handle_failure_world_ctx info c na r (s : state) : ctx_done (cs_world s) = true →
  let '(s2, next) := handle_failure oor info c na r s in ctx_done (cs_world s2) = true ∧ next = FLeave.
Proof. intros Hc. unfold handle_failure. by rewrite Hc. Qed.

(** The end of one failed forward, for the rule of the loops. *)
Lemma forward_ends info na q r w (s : state) : tidy s → r ≠ FOk →
  (∀ q1 r1, (q1, r1) ∈ this_pass (history s) → limited q1 r1 → fw_ConnectionID q ≠ fw_ConnectionID q1) →
  let '(s2, next) := handle_failure oor info (fw_ConnectionID q) na r (log_event w (EvForward q r) s) in
  no_reuse (history s2) ∧ (next = FNext → tidy s2) ∧
  (next = FLeave → ctx_done (cs_world s2) = false → tidy s2).
Proof.
  intros Ht Hr Hq. pose proof (forward_tidy info na q r w s Ht Hr Hq) as Hf.
  pose proof (handle_failure_world_ctx info (fw_ConnectionID q) na r (log_event w (EvForward q r) s)) as Hc.
  destruct (handle_failure _ _ _ _ _ _) as [s2 next]. destruct Hf as [Hn Hf]. split; [done|].
  destruct (ctx_done w) eqn:Ew.
  - destruct (Hc Ew) as [Hc1 ->]. split; [done|]. intros _ ?. congruence.
  - split; [intros ->; by apply Hf|intros -> _; by apply Hf].
Qed.

Lemma model_loop_tidy models (s : state) : tidy s →
  let '(s', _) := model_loop oor prepare models s in no_reuse (history s').
Proof.
  intros Hs. apply (model_loop_ind (λ _ s, tidy s) (λ _ _ s, tidy s)
    (λ _ e s, no_reuse (history s) ∧ (e = EExhausted → ctx_done (cs_world s) = false → tidy s)) (λ _ s, no_reuse (history s)));
    try (intros; assumption); try (intros k n s0 Ht0; split; [apply Ht0|done]);
    try (intros s0 [? _]; assumption); try (intros k s0 [? _]; intros; assumption);
    try (intros k s0 [_ Ht0] ? _; by apply Ht0).
  - intros k n c s0 [Hn Hex]. split; [done|]. cbn [exclude history excludeIDs]. intros q r Hin Hl.
    apply elem_of_app. left. by apply (Hex q r).
  - intros k n info body endpoint s0 c s1 [Hn Hex] Hp. unfold forward_step.
    assert (history s1 = history s0 ∧ excludeIDs s1 = excludeIDs s0) as [Eh Ee]
      by (by destruct Hp as [(_ & _ & ->)|(w & _ & ->)]).
    assert (tidy s1) as Ht by (split; rewrite Eh; [done|by rewrite Ee]).
    set (q := MkFwd _ _ c _ _).
    assert (∀ q1 r1, (q1, r1) ∈ this_pass (history s1) → limited q1 r1 → fw_ConnectionID q ≠ fw_ConnectionID q1) as Hq.
    { intros q1 r1 Hin Hl E. pose proof (proj2 Ht q1 r1 Hin Hl) as Hin2. destruct Hl as [Hne _].
      rewrite <- E in Hin2, Hne. cbn in Hin2, Hne. destruct Hp as [(_ & -> & _)|(w & Hg & _)]; [done|].
      rewrite Ee in Hin2. destruct Hg as [Hna Hg]. by apply pick_honours_exclusion in Hg. }
    destruct (forward _ q) as [w r]. destruct r as [|ue|t].
    + split; [|done]. apply (no_reuse_forward (history s1)); [apply Ht|done].
    + pose proof (forward_ends info (known_no_auth (mi_Provider info)) q (FUpstream ue) w s1 Ht ltac:(done) Hq) as Hf.
      cbn [fw_ConnectionID q] in Hf. destruct (handle_failure _ _ _ _ _ _) as [s2 [| |]]; destruct Hf as (Hf1 & Hf2 & Hf3);
        [by apply Hf2|split; [done|intros _; by apply Hf3]|done].
    + pose proof (forward_ends info (known_no_auth (mi_Provider info)) q (FOther t) w s1 Ht ltac:(done) Hq) as Hf.
      cbn [fw_ConnectionID q] in Hf. destruct (handle_failure _ _ _ _ _ _) as [s2 [| |]]; destruct Hf as (Hf1 & Hf2 & Hf3);
        [by apply Hf2|split; [done|intros _; by apply Hf3]|done].
Qed.

Lemma run_combo_no_reuse models w : no_reuse (history (run_combo oor prepare models w).1).
Proof.
  assert (tidy (first_pass w)) as Ht1.
  { split; [|by intros q r ?%elem_of_nil]. intros h1 q1 r1 h2 q2 r2 h3 E. by destruct h1. }
  pose proof (model_loop_tidy models (first_pass w) Ht1) as H1. unfold run_combo.
  destruct (model_loop _ _ _ _) as [s1 e1]. destruct e1; cbn [fst]; try done.
  destruct (_ || _); [done|]. destruct (_ =? 0); [done|]. destruct (hold _ _) as [w2 [|]]; [done|].
  assert (tidy (start_pass w2 s1)) as Ht2.
  { split; [by apply no_reuse_pass|]. cbn [start_pass history]. rewrite this_pass_snoc. by intros q r ?%elem_of_nil. }
  pose proof (model_loop_tidy models (start_pass w2 s1) Ht2) as H2.
  destruct (model_loop _ _ _ _) as [s2 e2]. by destruct e2.
Qed.

(** Within a pass over the models, an account that answered one model with
    a retryable status is not asked again for any other. *)
Theorem limited_account_not_reused models w : no_reuse (history (run_combo oor prepare models w).1).
Proof. apply run_combo_no_reuse. Qed.

(** *** A failure that blames the request *)

(** A failure the loop neither retries on, retires, fits nor refuses, say a
    400 or a 500, excludes nobody: with one account the same request goes to it
    ten times for one model. *)
Theorem request_fault_is_resent m info c ue body endpoint w :
  resolveModelEntry w m = (w, Found info) →
  IsProviderAvailable w (mi_Provider info) (mi_Model info) = true →
  known_no_auth (mi_Provider info) = false →
  (∀ ex, getBestConnection w (mi_Provider info) (mi_ConnectionID info) ex (mi_Model info) = (w, Found c)) →
  is_locked w c (mi_Provider info) (mi_Model info) = false →
  prepare m info = PBody body endpoint →
  let q := MkFwd (mi_Provider info) (mi_Model info) c body endpoint in
  forward w q = (w, FUpstream ue) → ctx_done w = false →
  ue_StatusCode ue ≠ 451 → IsModelDeprecation (ue_StatusCode ue) (ue_Body ue) = false →
  IsModelFitError (ue_StatusCode ue) (ue_Body ue) = false → RetryableStatusCodes (ue_StatusCode ue) = false →
  history (model_loop oor prepare [m] (first_pass w)).1 = replicate 10 (EvForward q (FUpstream ue)).
Proof.
  intros Hres Hav Hna Hget Hlock Hprep q Hfwd Hctx H451 Hdep Hfit Hret. cbn [model_loop first_pass cs_world].
  rewrite Hres. cbn [with_world cs_world]. rewrite Hav. cbn [negb]. rewrite Hprep.
  assert (∀ n (s : state), cs_world s = w →
    let '(s', e) := connection_loop oor n (PBody body endpoint) info s in
    e = EExhausted ∧ cs_world s' = w ∧ history s' = history s ++ replicate n (EvForward q (FUpstream ue))) as Hloop.
  { induction n as [|n IH]; intros s Hw; cbn [connection_loop replicate]; [by rewrite app_nil_r|].
    rewrite Hna. rewrite Hw, Hget. cbn [with_world cs_world]. rewrite Hlock, andb_false_r. fold q. rewrite Hfwd.
    unfold handle_failure. cbn [log_event cs_world]. rewrite Hctx. cbn [isGuardrailBlock].
    rewrite (proj2 (Z.eqb_neq _ _)) by done. rewrite Hdep, Hfit, Hret.
    match goal with |- context [connection_loop _ _ _ _ ?s1] => specialize (IH s1 eq_refl) end.
    destruct (connection_loop _ _ _ _ _) as [s' e]. destruct IH as (-> & ? & E). split_and!; [done..|].
    rewrite E. cbn [note_failure history log_event with_world]. by rewrite <- app_assoc. }
  specialize (Hloop connAttempts (first_pass w) eq_refl). unfold first_pass in Hloop.
  destruct (connection_loop _ _ _ _ _) as [s' e]. destruct Hloop as (-> & Hw & Hh). rewrite Hw, Hctx.
  by destruct (isGuardrailBlock (lastErr s')).
Qed.

End ComboFacts.

(** ** Properties of the rotation *)

Section Rotation.
Context {A : Type}.
Implicit Types models : list A.

(** Requests one after the other, each opening a turn or continuing it. *)
Fixpoint serve_all (strategy name : string) (models : list A) (stickyLimit : Z) (turns : list bool)
    (sticky : gmap string comboStickyState) : list (list A) :=
  match turns with
  | [] => []
  | t :: turns' =>
      let '(sticky', order) := applyComboStrategy strategy models name stickyLimit t sticky in
      order :: serve_all strategy name models stickyLimit turns' sticky'
  end.

Definition new_turns (turns : list bool) : Z := zlen (filter (λ b, b = true) turns).

(** The state after [t] new turns. *)
Definition rotation_state (k len t : Z) : comboStickyState :=
  MkSticky ((t / k) mod len) (t mod k) ((Z.max (t - 1) 0 / k) mod len).

Lemma serve_state k len t (b : bool) : 0 < k → 0 < len → 0 <= t →
  serve len k b (rotation_state k len t) =
    (rotation_state k len (t + if b then 1 else 0), (Z.max (t + (if b then 1 else 0) - 1) 0 / k) mod len).
Proof.
  intros Hk Hlen Ht. unfold serve, rotation_state. cbn [Index ConsecutiveUseCount ServingIndex]. destruct b.
  - rewrite Z.mod_mod by lia. replace (Z.max (t + 1 - 1) 0) with t by lia.
    pose proof (Z.mod_pos_bound t k Hk). pose proof (Z.div_mod t k ltac:(lia)).
    case (Z.leb_spec k (t mod k + 1)); intros Hc.
    + assert (t + 1 = k * (t / k + 1)) as E by lia.
      assert ((t + 1) / k = t / k + 1) as -> by (rewrite E, Z.mul_comm, Z.div_mul; lia).
      assert ((t + 1) mod k = 0) as -> by (rewrite E, Z.mul_comm, Z.mod_mul; lia).
      by rewrite Zplus_mod_idemp_l.
    + assert ((t + 1) / k = t / k) as -> by (symmetry; apply (Z.div_unique _ _ _ (t mod k + 1)); lia).
      assert ((t + 1) mod k = t mod k + 1) as -> by (symmetry; apply (Z.mod_unique _ _ (t / k)); lia). done.
  - by rewrite Z.add_0_r.
Qed.

Lemma new_turns_cons (b : bool) turns : new_turns (b :: turns) = (if b then 1 else 0) + new_turns turns.
Proof. unfold new_turns. rewrite filter_cons. destruct b; case_decide; try done; unfold zlen; cbn [length]; lia. Qed.

(** With a sticky limit of [k], a combo's models take turns: the model
    first in line changes after every [k] new turns, in the configured order and
    round again, and a request that continues a turn keeps the model of that
    turn; the others follow in rotation. *)
Theorem rotation_schedule strategy name models stickyLimit turns i :
  is_rotation strategy = true → (2 <= length models)%nat →
  let k := Z.max stickyLimit 1 in
  let t := new_turns (take (S i) turns) in
  (i < length turns)%nat →
  serve_all strategy name models stickyLimit turns ∅ !! i =
    Some (rotated models ((Z.max (t - 1) 0 / k) mod zlen models)).
Proof.
  intros Hs Hlen k t Hi. set (key := if bool_decide (name = "")%string then "__default__"%string else name).
  assert (0 < zlen models) as Hpos by (unfold zlen; lia).
  assert (∀ turns n sticky j, (j < length turns)%nat → 0 <= n →
    default (MkSticky 0 0 0) (sticky !! key) = rotation_state k (zlen models) n →
    serve_all strategy name models stickyLimit turns sticky !! j =
      Some (rotated models ((Z.max (n + new_turns (take (S j) turns) - 1) 0 / k) mod zlen models))) as Hgen.
  { clear i turns t Hi. induction turns as [|b turns IH]; intros n sticky j Hj Hn Hst; cbn [length] in Hj; [lia|].
    cbn [serve_all]. unfold applyComboStrategy. rewrite (proj2 (Nat.leb_gt _ _)) by lia. rewrite Hs. fold key. rewrite Hst.
    replace (if stickyLimit <=? 0 then 1 else stickyLimit) with k by (unfold k; case (Z.leb_spec stickyLimit 0); lia).
    rewrite serve_state by lia. change (take (S (S j)) (b :: turns)) with (b :: take (S j) turns) || change (take (S j) (b :: turns)) with (b :: take j turns). rewrite new_turns_cons. destruct j as [|j]; cbn [lookup list_lookup].
    - rewrite take_0. change (new_turns []) with 0. do 4 f_equal. lia.
    - rewrite (IH (n + if b then 1 else 0)); [|lia|destruct b; lia|by rewrite lookup_insert_eq].
      do 4 f_equal. destruct b; lia. }
  specialize (Hgen turns 0 ∅ i Hi ltac:(lia)). rewrite Z.add_0_l in Hgen. apply Hgen.
  rewrite lookup_empty. unfold rotation_state. cbn. by rewrite !Z.div_0_l, !Z.mod_0_l by lia.
Qed.

End Rotation.

(** ** A small process, for witnesses

    Two accounts [a] and [b] of one provider; [a] is rate limited, [b] faults. *)
Module Sample.

#[local] Existing Instance ascii_case.
#[local] Existing Instance json_codec.
#[local] Instance calendar : GoTime := {| ParseRFC3339 := λ _, None; FormatRFC3339 := λ _, []; ParseHTTPTime := λ _, None |}.

Definition limited_answer : forward_result := FUpstream (MkUE 429 (B "slow down") (B "60")).
Definition fault : upstreamError := MkUE 500 (B "boom") [].

Definition found {A} (o : option A) : call A := match o with Some a => Found a | None => Nothing end.

#[local] Instance gateway : Gateway nat := {
  resolveModelEntry := λ w e, (w, Found (MkModel (B "p") e []));
  IsProviderAvailable := λ _ _ _, true;
  known_no_auth := λ _, false;
  getBestConnection := λ w _ _ ex _, (w, found (List.find (λ c, negb (bool_decide (c ∈ ex))) [B "a"; B "b"]));
  canonicalLockModel := λ _ m, m;
  IsConnectionModelLocked := λ _ _ _, false;
  forward := λ w q, (w, if bool_decide (fw_ConnectionID q = B "a") then limited_answer else FUpstream fault);
  ctx_done := λ _, false;
  hold := λ w _, (w, false);
  clock := λ _ _, 0;
  is_committed := λ _, false;
  IsModelDeprecation := λ _ _, false;
  recordModelDeprecation := λ w _ _ _ _, Some w;
  is_probe := λ _, false;
  GetConnectionBackoffLevel := λ _ _, 0;
  LockConnectionModel := λ w _ _ _ _, w;
  RecordConnectionScopedError := λ w _ _ _ _ _, w;
  LockConnectionRateLimit := λ w _ _ _ _ _, w;
  isModelScopedError := λ _ _ _, false
}.

Definition send_all (_ : bytes) (_ : ModelInfo) : prepared := PBody (B "{}") (B "/v1/chat/completions").
Definition request (c : string) (m : string) : forward_request :=
  MkFwd (B "p") (B m) (B c) (B "{}") (B "/v1/chat/completions").

Definition run := run_combo saturate send_all [B "m1"; B "m2"] 0%nat.

Lemma find_not_excluded (l ex : list bytes) c :
  List.find (λ c, negb (bool_decide (c ∈ ex))) l = Some c → c ∉ ex.
Proof. intros [_ Hf]%List.find_some. by bsplit. Qed.

(** Every forward ends in [r]. *)
Definition always (r : forward_result) : Gateway nat := {|
  resolveModelEntry := @resolveModelEntry nat gateway;
  IsProviderAvailable := λ _ _ _, true;
  known_no_auth := λ _, false;
  getBestConnection := @getBestConnection nat gateway;
  canonicalLockModel := λ _ m, m;
  IsConnectionModelLocked := λ _ _ _, false;
  forward := λ w _, (w, r);
  ctx_done := λ _, false;
  hold := λ w _, (w, false);
  clock := λ _ _, 0;
  is_committed := λ _, false;
  IsModelDeprecation := λ _ _, false;
  recordModelDeprecation := λ w _ _ _ _, Some w;
  is_probe := λ _, false;
  GetConnectionBackoffLevel := λ _ _, 0;
  LockConnectionModel := λ w _ _ _ _, w;
  RecordConnectionScopedError := λ w _ _ _ _ _, w;
  LockConnectionRateLimit := λ w _ _ _ _ _, w;
  isModelScopedError := λ _ _ _, false
|}.
Definition run_against (r : forward_result) := @run_combo nat (always r) _ _ _ saturate send_all [B "m1"; B "m2"] 0%nat.

Definition blocked : upstreamError := MkUE 451 (B "no") [].

(** The account [b] faults twenty times; a refusal by a guardrail is the only forward
    and the answer. *)
Lemma combo_stops_witness :
  ((forwards (history run.1) <= 40)%nat ∧ forwards (history run.1) = 20%nat) ∧
  history (run_against (FUpstream blocked)).1 = [EvForward (request "a" "m1") (FUpstream blocked)] ∧
  ((run_against (FUpstream blocked)).2 = Done ∨
   (run_against (FUpstream blocked)).2 =
     ErrorAnswer (writeError (@clock nat (always (FUpstream blocked)) (cs_world (run_against (FUpstream blocked)).1)) (retry (run_against (FUpstream blocked)).1) blocked)).
Proof.
  assert (E : history (run_against (FUpstream blocked)).1 = [EvForward (request "a" "m1") (FUpstream blocked)]) by (by vm_compute).
  split; [split; [exact (proj1 (combo_stops_at_answer saturate send_all [B "m1"; B "m2"] 0%nat))|by vm_compute]|]. split; [exact E|].
  destruct (@combo_stops_at_answer nat (always (FUpstream blocked)) _ _ _ saturate send_all [B "m1"; B "m2"] 0%nat) as [_ H].
  destruct (H [] (request "a" "m1") (FUpstream blocked) [] E eq_refl) as (_ & _ & Ha). exact (Ha blocked eq_refl).
Defined.

(** An error page in a legacy encoding makes the handler panic before it locks the
    account. *)
Example page_panics :
  comboLockRetryable saturate (B "a") (B "p") (B "m1") (MkUE 503 legacy_page []) (first_pass 0%nat) = None.
Proof.
  assert (E : extractErrorText legacy_page = None).
  { destruct (@error_text_panics_only_off_ascii ascii_case json_codec) as (_ & H2 & _). exact (H2 eq_refl). }
  unfold comboLockRetryable. cbn [is_probe gateway ue_Body]. rewrite bool_decide_eq_false_2 by done. by rewrite E.
Qed.

Lemma limited_account_witness : no_reuse (history run.1) ∧
  take 2 (history run.1) = [EvForward (request "a" "m1") limited_answer; EvForward (request "b" "m1") (FUpstream fault)].
Proof.
  split; [|vm_compute; reflexivity].
  apply (limited_account_not_reused saturate send_all).
  - intros w p pin ex m w' c _ Hg. apply (find_not_excluded [B "a"; B "b"] ex c). revert Hg. unfold getBestConnection, gateway, found.
    destruct (List.find _ _); [by intros [= _ ->]|done].
  - intros w c. cbn. lia.
  - intros st b Hd. discriminate Hd.
Defined.

(** The account [b] alone. *)
#[local] Instance faulty : Gateway nat := {
  resolveModelEntry := @resolveModelEntry nat gateway;
  IsProviderAvailable := λ _ _ _, true;
  known_no_auth := λ _, false;
  getBestConnection := λ w _ _ _ _, (w, Found (B "b"));
  canonicalLockModel := λ _ m, m;
  IsConnectionModelLocked := λ _ _ _, false;
  forward := λ w _, (w, FUpstream fault);
  ctx_done := λ _, false;
  hold := λ w _, (w, false);
  clock := λ _ _, 0;
  is_committed := λ _, false;
  IsModelDeprecation := λ _ _, false;
  recordModelDeprecation := λ w _ _ _ _, Some w;
  is_probe := λ _, false;
  GetConnectionBackoffLevel := λ _ _, 0;
  LockConnectionModel := λ w _ _ _ _, w;
  RecordConnectionScopedError := λ w _ _ _ _ _, w;
  LockConnectionRateLimit := λ w _ _ _ _ _, w;
  isModelScopedError := λ _ _ _, false
}.

Lemma request_fault_witness :
  history (@model_loop nat faulty _ _ _ saturate send_all [B "m1"] (first_pass 0%nat)).1 =
    replicate 10 (EvForward (request "b" "m1") (FUpstream fault)).
Proof.
  apply (@request_fault_is_resent nat faulty _ _ _ saturate send_all (B "m1") (MkModel (B "p") (B "m1") []) (B "b") fault
    (B "{}") (B "/v1/chat/completions") 0%nat); try reflexivity.
  discriminate.
Defined.

Lemma rotation_schedule_witness :
  serve_all "sticky" "c" [1; 2; 3] 2 [true; false; true; true; true; false] ∅ !! 5%nat = Some (rotated [1; 2; 3] 1) ∧
  rotated [1; 2; 3] 1 = [2; 3; 1].
Proof.
  split; [|reflexivity].
  exact (rotation_schedule "sticky" "c" [1; 2; 3] 2 [true; false; true; true; true; false] 5
    eq_refl ltac:(cbn; lia) ltac:(cbn; lia)).
Defined.

End Sample.
