(* ===== verification/Resolution.v ===== *)
(** * From a model name to a route ([internal/handlers/chat/resolution.go])

    Names with a provider, aliases, the marker of long contexts, nested combos
    and the routing settings of a combo. The recursion over combos carries
    fuel; the theorems say how much is enough. *)

From S2P Require Import Prelude GoRegexp Json GoText.

(** ** Data *)

Record ModelInfo := MkInfo {
  Provider : bytes; Model : bytes; ConnectionID : bytes; ComboModels : list bytes;
  Strategy : bytes; StickyLimit : Z; JudgeModel : bytes
}.

Definition plain (provider model connectionID : bytes) : ModelInfo := MkInfo provider model connectionID [] [] 0 [].

(** The columns of a combo the resolver reads; [combo_Models] is JSON. *)
Record Combo := MkComboRow { combo_Name : bytes; combo_Models : bytes; combo_Strategy : bytes }.

Record ComboStrategy := MkCS { cs_Strategy : bytes; cs_StickyLimit : Z; cs_JudgeModel : bytes }.
Record SettingsData := MkSettings {
  set_ComboStrategy : bytes; set_ComboStickyRoundRobinLimit : Z; set_ComboStrategies : gmap bytes ComboStrategy
}.

(** The repository and the account selection, over the state [W] of the rest
    of the process. A failed query reads as an absent row. *)
Class Repo (W : Type) := {
  has_repo : bool;                                (* [h.Repo != nil] *)
  combos : W → gmap bytes Combo;
  GetModelAlias : W → bytes → bytes;
  GetProviderNodeByPrefix : W → bytes → option bytes;
  active_connections : W → bytes → nat;
  getBestConnection : W → bytes → bytes → list bytes → bytes → W * option bytes;
  GetSettings : W → option SettingsData;
  IsKnownProvider : bytes → bool
}.

Definition ProviderAliasMap : list (string * string) :=
  [
    ("b-ai", "bai"); ("agnes-ai", "agnes"); ("atria-asi", "atria"); ("dahl-inference", "dahl");
    ("thh", "tokenharbor"); ("th", "tokenharbor"); ("aai", "assemblyai"); ("ag", "antigravity");
    ("ali", "alicode"); ("ali-tp", "alitp-intl"); ("alii", "alicode-intl"); ("alitp", "alitp-intl");
    ("ant", "anthropic"); ("ark", "volcengine-ark"); ("az", "azure"); ("bb", "blackbox");
    ("bfl", "black-forest-labs"); ("bpm", "byteplus"); ("brave", "brave-search"); ("br", "bedrock");
    ("aws-bedrock", "bedrock"); ("brx", "bedrock-xai"); ("bedrock-grok", "bedrock-xai"); ("cb", "cerebras");
    ("cbai", "codebuddy-intl"); ("cc", "claude"); ("cd", "codebuddy-cn"); ("cf", "cloudflare-ai");
    ("ch", "chutes"); ("cl", "cline"); ("cmc", "commandcode"); ("cp", "clinepass"); ("cu", "cursor");
    ("cx", "codex"); ("dg", "deepgram"); ("ds", "deepseek"); ("ds-web", "deepseek-web"); ("sp", "sumopod");
    ("el", "elevenlabs"); ("fal", "fal-ai"); ("fb", "freebuff"); ("fish", "fish-audio"); ("fl", "featherless");
    ("fw", "fireworks"); ("gb", "grok-cli"); ("gc", "gemini-cli"); ("gweb", "gemini-web"); ("gcli", "grok-cli");
    ("gh", "github"); ("gl", "gitlab"); ("glmcn", "glm-cn"); ("gpse", "google-pse"); ("gq", "groq");
    ("grok-build", "grok-cli"); ("gw", "grok-web"); ("hf", "huggingface"); ("hyp", "hyperbolic");
    ("if", "iflow"); ("jina", "jina-ai"); ("kc", "kilocode"); ("km", "kimi"); ("kr", "kiro");
    ("mimo", "xiaomi-mimo"); ("mm", "minimax"); ("mmc", "minimax-code"); ("mmg", "minimax-code-global");
    ("mmf", "mimo-free"); ("nb", "nanobanana"); ("muse-ai", "muse"); ("meta-model-api", "muse");
    ("muse-code", "muse"); ("muse-subscription", "muse"); ("systemone", "v1m"); ("ne", "nebius");
    ("nv", "nvidia"); ("oa", "openai"); ("oc", "opencode"); ("ocz", "opencode-zen"); ("or", "openrouter");
    ("pa", "perplexity-agent"); ("polly", "aws-polly"); ("pplx", "perplexity");
    ("pplx-agent", "perplexity-agent"); ("pplx-responses", "perplexity-agent"); ("pw", "perplexity-web");
    ("qd", "qoder"); ("qdcn", "qoder-cn"); ("runway", "runwayml"); ("stability", "stability-ai");
    ("tg", "together"); ("vali", "volcengine-ark"); ("vercel", "vercel-ai-gateway"); ("vn", "venice");
    ("xmtp", "xiaomi-tokenplan"); ("af", "api-airforce"); ("bzl", "bazaarlink"); ("bm", "bluesminds");
    ("cbcn", "codebuddy-cn"); ("dv", "devin-cli"); ("hunyuan", "tencent"); ("kgw", "kilo-gateway");
    ("ps", "poolside"); ("qianfan", "baidu"); ("samba", "sambanova"); ("tr", "trae"); ("voyage", "voyage-ai");
    ("vx", "vertex"); ("vxp", "vertex-partner"); ("ws", "windsurf"); ("xq", "xquik"); ("zd", "zed")
  ]%string.

Definition resolveProviderAlias (alias : bytes) : bytes :=
  match List.find (λ e, bool_decide (B e.1 = alias)) ProviderAliasMap with
  | Some (_, canonical) => B canonical
  | None => alias
  end.

Definition has_slash (s : bytes) : bool := (cut "/" s).2.

(** [strings.EqualFold(suffix, "[1m]")] on four bytes. *)
Definition stripModelContextMarker (modelStr : bytes) : bytes :=
  let trimmed := trim_space modelStr in
  if (length trimmed <? 4)%nat then modelStr
  else
    let n := (length trimmed - 4)%nat in
    let suffix := drop n trimmed in
    if bool_decide (suffix = B "[1m]") || bool_decide (suffix = B "[1M]")
    then trim_space (take n trimmed) else modelStr.

Definition CodexAutoReviewModel : bytes := B "codex-auto-review".

Definition codexOnlyModelSlug `{UnicodeCase} (model : bytes) : bool :=
  let lower := to_lower (trim_space model) in
  if bool_decide (lower = []) then false
  else if bool_decide (lower = CodexAutoReviewModel) then true
  else if (7 <? length lower)%nat && (has_prefix (B "gpt-5.") lower || has_prefix (B "gpt-6.") lower) then true
  else if has_prefix (B "gpt-6-") lower then true
  else has_prefix (B "gpt-daybreak-") lower || has_prefix (B "gpt-reserve") lower.

Section Resolve.
Context {W : Type} `{HR : Repo W} `{HJ : JsonCodec} `{HU : UnicodeCase}.

Definition resolvePrefixProvider (w : W) (prefix model : bytes) : W * option ModelInfo :=
  if negb has_repo then (w, None)
  else match GetProviderNodeByPrefix w prefix with
       | None => (w, None)
       | Some node =>
           match getBestConnection w node [] [] model with
           | (w, Some conn) => (w, Some (plain node model conn))
           | (w, None) => (w, None)
           end
       end.

(** A name with a provider: a custom node by its prefix, then by the canonical
    id, then the node of a prefix whose canonical provider has no account. *)
Definition resolve_slash (w : W) (s : bytes) : W * ModelInfo :=
  let '(prefix, model, _) := cut "/" s in
  match resolvePrefixProvider w prefix model with
  | (w, Some info) => (w, info)
  | (w, None) =>
      let provider := resolveProviderAlias prefix in
      if bool_decide (provider = prefix) then (w, plain provider model [])
      else match resolvePrefixProvider w provider model with
           | (w, Some info) => (w, info)
           | (w, None) =>
               match (if has_repo then GetProviderNodeByPrefix w prefix else None) with
               | Some node =>
                   if (active_connections w provider =? 0)%nat then (w, plain node model [])
                   else (w, plain provider model [])
               | None => (w, plain provider model [])
               end
           end
  end.

(** [json.Unmarshal] into a [[]string]: null decodes to the nil slice and a
    null element to the empty string. *)
Definition string_list (text : bytes) : option (list bytes) :=
  match unmarshal text with
  | Some (JArr l) => mapM (λ x, match x with JStr s => Some s | JNull => Some [] | _ => None end) l
  | Some JNull => Some []
  | _ => None
  end.

(** The combo of a name and its entries, when the name has one that decodes. *)
Definition expand (w : W) (name : bytes) : option (Combo * list bytes) :=
  combo ← combos w !! name;
  if bool_decide (combo_Models combo = []) then None
  else l ← string_list (combo_Models combo); Some (combo, l).

Definition resolveComboRouting (w : W) (comboName fallbackStrategy : bytes) : bytes * Z * bytes :=
  let strategy := if bool_decide (fallbackStrategy = []) then B "fallback" else fallbackStrategy in
  match (if has_repo then GetSettings w else None) with
  | None => (strategy, 1, [])
  | Some settings =>
      match set_ComboStrategies settings !! comboName with
      | Some cs =>
          (if bool_decide (cs_Strategy cs = []) then strategy else cs_Strategy cs,
           if 0 <? cs_StickyLimit cs then cs_StickyLimit cs else 1, cs_JudgeModel cs)
      | None =>
          (if bool_decide (set_ComboStrategy settings = []) then strategy else set_ComboStrategy settings,
           if 0 <? set_ComboStickyRoundRobinLimit settings then set_ComboStickyRoundRobinLimit settings else 1, [])
      end
  end.

Definition with_routing (w : W) (combo : Combo) (models : list bytes) (first : ModelInfo) : ModelInfo :=
  let '(strat, sticky, judge) := resolveComboRouting w (combo_Name combo) (combo_Strategy combo) in
  MkInfo (Provider first) (Model first) (ConnectionID first) models strat sticky judge.

(** [visiting] is the set of combos on the path; the source deletes a name on
    return, which restores the set of the caller. [None]: out of fuel. *)
Fixpoint resolveModelEntryGuarded (fuel : nat) (w : W) (entry : bytes) (visiting : gset bytes)
    : option (W * option ModelInfo) :=
  match fuel with
  | O => None
  | S fuel' =>
      if has_slash entry then let '(w, info) := resolve_slash w entry in Some (w, Some info)
      else if negb has_repo || bool_decide (entry ∈ visiting) then Some (w, None)
      else match expand w entry with
           | Some (combo, m :: ms) =>
               match resolveModelEntryGuarded fuel' w m ({[ entry ]} ∪ visiting) with
               | Some (w, Some first) => Some (w, Some (with_routing w combo (m :: ms) first))
               | Some (w, None) => Some (w, None)
               | None => None
               end
           | _ => Some (w, None)
           end
  end.

(** As many levels as there are combos, and the leaf. *)
Definition combo_depth (w : W) : nat := S (size (combos w)).

Definition resolveModelEntry (w : W) (entry : bytes) : W * option ModelInfo :=
  default (w, None) (resolveModelEntryGuarded (combo_depth w) w entry ∅).

(** [walk]: [seen] is the path, as above; [out] is built in order. *)
Definition push_leaf (out : list bytes) (m : bytes) : list bytes :=
  if bool_decide (last out = Some m) then out else out ++ [m].

Definition leaf_of (w : W) (m : bytes) : bytes :=
  let aliasTarget := GetModelAlias w m in
  if negb (has_slash m) && negb (bool_decide (aliasTarget = [])) && has_slash aliasTarget then aliasTarget else m.

Fixpoint walk (fuel : nat) (w : W) (seen : gset bytes) (ms : list bytes) (out : list bytes) : option (list bytes) :=
  match fuel with
  | O => None
  | S fuel' =>
      (fix go (ms : list bytes) (out : list bytes) : option (list bytes) :=
         match ms with
         | [] => Some out
         | m :: ms' =>
             if has_slash m then go ms' (push_leaf out m)
             else if bool_decide (m ∈ seen) then go ms' out
             else match expand w m with
                  | Some (_, sub) =>
                      match walk fuel' w ({[ m ]} ∪ seen) sub out with
                      | Some out' => go ms' out'
                      | None => None
                      end
                  | None => go ms' (push_leaf out (leaf_of w m))
                  end
         end) ms out
  end.

(** The error is a combo without leaves. *)
Definition flattenComboModels (w : W) (models : list bytes) : option (list bytes) :=
  match walk (combo_depth w) w ∅ models [] with
  | Some (m :: ms) => Some (m :: ms)
  | _ => None
  end.

Inductive resolve_error := MissingModel | NoLeafModels | CouldNotResolve.

Definition has_accounts (w : W) (provider : bytes) : bool := negb (active_connections w provider =? 0)%nat.

(** A bare name that is no combo: a node prefix, a known provider with an
    account, or the first common provider that has one. *)
Definition resolve_bare (w : W) (modelStr : bytes) : W * (ModelInfo + resolve_error) :=
  match resolvePrefixProvider w modelStr [] with
  | (w, Some info) => (w, inl info)
  | (w, None) =>
      if negb has_repo then (w, inr CouldNotResolve)
      else
        let canonical := resolveProviderAlias modelStr in
        if negb (bool_decide (canonical = modelStr)) && IsKnownProvider canonical && has_accounts w canonical
        then (w, inl (plain canonical [] []))
        else if IsKnownProvider modelStr && has_accounts w modelStr then (w, inl (plain modelStr [] []))
        else match List.find (has_accounts w) [B "openai"; B "anthropic"; B "deepseek"] with
             | Some provider => (w, inl (plain provider modelStr []))
             | None => (w, inr CouldNotResolve)
             end
  end.

(** [None]: out of fuel. *)
Fixpoint resolveModel (fuel : nat) (w : W) (modelStr : bytes) : option (W * (ModelInfo + resolve_error)) :=
  match fuel with
  | O => None
  | S fuel' =>
      if bool_decide (modelStr = []) then Some (w, inr MissingModel)
      else
        let modelStr := stripModelContextMarker modelStr in
        if has_slash modelStr then let '(w, info) := resolve_slash w modelStr in Some (w, inl info)
        else if has_repo && has_slash (GetModelAlias w modelStr) then
          let '(w, info) := resolve_slash w (GetModelAlias w modelStr) in Some (w, inl info)
        else if codexOnlyModelSlug modelStr then Some (w, inl (plain (B "codex") modelStr []))
        else
          match (if has_repo then expand w modelStr else None) with
          | Some (combo, m :: ms) =>
              match flattenComboModels w (m :: ms) with
              | None => Some (w, inr NoLeafModels)
              | Some flattened =>
                  let first := default [] (head flattened) in
                  match resolveModelEntry w first with
                  | (w, Some info) => Some (w, inl (with_routing w combo flattened info))
                  | (w, None) =>
                      match resolveModel fuel' w first with
                      | None => None
                      | Some (w, inl info) => Some (w, inl (with_routing w combo flattened info))
                      | Some (w, inr _) => Some (resolve_bare w modelStr)
                      end
                  end
              end
          | _ => Some (resolve_bare w modelStr)
          end
  end.

End Resolve.

(** ** Termination *)

Section Termination.
Context {W : Type} `{HR : Repo W} `{HJ : JsonCodec} `{HU : UnicodeCase}.
Implicit Types w : W.

Lemma expand_dom w m e : expand w m = Some e → m ∈ dom (combos w).
Proof. unfold expand. intros Hm. apply elem_of_dom. destruct (combos w !! m); [by eexists|done]. Qed.

(** Entering a combo that is not on the path leaves fewer to enter. *)
Lemma enter_combo (d seen : gset bytes) m : seen ⊆ d → m ∈ d → m ∉ seen →
  {[ m ]} ∪ seen ⊆ d ∧ (size d - size ({[ m ]} ∪ seen) < size d - size seen)%nat.
Proof.
  intros Hs Hm Hn. assert ({[ m ]} ∪ seen ⊆ d) as Hs' by set_solver. split; [done|].
  pose proof (subseteq_size _ _ Hs') as Hle. rewrite size_union, size_singleton in * by set_solver. lia.
Qed.

Lemma guarded_fuel w : ∀ fuel entry (visiting : gset bytes), visiting ⊆ dom (combos w) →
  (size (dom (combos w)) - size visiting < fuel)%nat → is_Some (resolveModelEntryGuarded fuel w entry visiting).
Proof.
  induction fuel as [|fuel IH]; intros entry visiting Hs Hf; [lia|]. cbn [resolveModelEntryGuarded].
  destruct (has_slash entry); [by destruct (resolve_slash w entry); eexists|].
  destruct (negb has_repo || bool_decide (entry ∈ visiting)) eqn:Ev; [by eexists|]. bsplit.
  destruct (expand w entry) as [[combo [|m ms]]|] eqn:Ee; [by eexists| |by eexists].
  destruct (enter_combo _ visiting entry Hs) as [Hs' Hlt]; [by eapply expand_dom|done|].
  destruct (IH m ({[ entry ]} ∪ visiting)) as [[w' [first|]] ->]; [done|lia|by eexists|by eexists].
Qed.

(** A bare leaf resolves to nothing, and reading it changes nothing. *)
Lemma entry_of_leaf w m : has_slash m = false → expand w m = None → resolveModelEntry w m = (w, None).
Proof.
  intros Hs He. unfold resolveModelEntry, combo_depth. cbn [resolveModelEntryGuarded]. rewrite Hs, He.
  by destruct (negb has_repo || _).
Qed.

(** *** What a combo flattens to *)

(** [path w m p x]: the entry [m] leads to the leaf [x] through the combos [p]. *)
Inductive path w : bytes → list bytes → bytes → Prop :=
  | path_leaf m : has_slash m = true ∨ expand w m = None → path w m [] (leaf_of w m)
  | path_combo m combo sub m' p x :
      has_slash m = false → expand w m = Some (combo, sub) → m' ∈ sub → path w m' p x → path w m (m :: p) x.

Lemma path_suffix w a : ∀ m y b x, path w m (a ++ y :: b) x → path w y (y :: b) x.
Proof.
  induction a as [|z a IH]; intros m y b x Hp; cbn [app] in Hp.
  - inversion Hp; subst. done.
  - inversion Hp; subst. by eapply IH.
Qed.

(** A path that goes through a combo twice can be cut short. *)
Lemma path_simple w m p x : path w m p x → ∃ q, path w m q x ∧ NoDup q.
Proof.
  induction 1 as [m Hm|m combo sub m' p x Hs He Hin Hp (q & Hq & Hnd)]; [by exists []; split; [by constructor|constructor]|].
  destruct (decide (m ∈ q)) as [Hmq|Hmq].
  - apply list_elem_of_split in Hmq as (a & b & ->). exists (m :: b). split; [by eapply path_suffix|].
    by apply NoDup_app in Hnd as (_ & _ & ?).
  - exists (m :: q). split; [by econstructor|by constructor].
Qed.

Definition no_stutter (out : list bytes) : Prop := ∀ i x, out !! i = Some x → out !! S i ≠ Some x.

Lemma push_leaf_spec out m : (∀ x, x ∈ push_leaf out m ↔ x ∈ out ∨ x = m) ∧
  (no_stutter out → no_stutter (push_leaf out m)).
Proof.
  unfold push_leaf. case_bool_decide as Hl.
  - apply last_Some in Hl as [l ->]. split; [|done]. intros x. set_solver.
  - split; [intros x; set_solver|]. intros Hn i x Hi. destruct (decide (S i < length out)%nat) as [Hlt|Hge].
    + rewrite lookup_app_l in Hi |- * by lia. by apply Hn.
    + rewrite lookup_app_r by lia. destruct (decide (S i = length out)) as [E|Hne].
      * rewrite E, Nat.sub_diag. cbn. intros [= ->]. apply Hl. rewrite last_lookup, <- E. cbn.
        by rewrite lookup_app_l in Hi by lia.
      * rewrite lookup_ge_None_2; [done|]. cbn [length]. lia.
Qed.

(** The leaves the walk adds: those on simple paths that avoid [seen]. *)
Definition leads w (seen : gset bytes) (m x : bytes) : Prop :=
  ∃ p, path w m p x ∧ NoDup p ∧ ∀ y, y ∈ p → y ∉ seen.

Lemma leads_leaf w seen m : has_slash m = true ∨ expand w m = None → ∀ x, leads w seen m x ↔ x = leaf_of w m.
Proof.
  intros Hm x. split.
  - intros (p & Hp & _). inversion Hp; subst; [done|]. destruct Hm; congruence.
  - intros ->. exists []. split; [by constructor|]. split; [constructor|]. intros y []%elem_of_nil.
Qed.

Lemma leads_combo w (seen : gset bytes) m combo sub : has_slash m = false → expand w m = Some (combo, sub) → m ∉ seen →
  ∀ x, leads w seen m x ↔ ∃ m', m' ∈ sub ∧ leads w ({[ m ]} ∪ seen) m' x.
Proof.
  intros Hs He Hn x. split.
  - intros (p & Hp & Hnd & Hav). inversion Hp as [? Hl|? ? sub' m' q ? ? He' Hin Hq]; subst; [destruct Hl; congruence|].
    rewrite He in He'. injection He' as -> ->. apply NoDup_cons in Hnd as [Hmq Hnd].
    exists m'. split; [done|]. exists q. split; [done|]. split; [done|]. intros y Hy.
    apply not_elem_of_union. split; [rewrite elem_of_singleton; by intros ->|]. apply Hav. by right.
  - intros (m' & Hin & p & Hp & Hnd & Hav). exists (m :: p). split; [by econstructor|]. split.
    + constructor; [|done]. intros Hmp. apply Hav in Hmp. set_solver.
    + intros y [->|Hy]%elem_of_cons; [done|]. apply Hav in Hy. set_solver.
Qed.

Lemma leads_seen w (seen : gset bytes) m x : has_slash m = false → m ∈ seen → is_Some (expand w m) → ¬ leads w seen m x.
Proof.
  intros Hs Hm [e He] (p & Hp & _ & Hav). inversion Hp as [? Hl|]; subst; [destruct Hl; congruence|].
  apply (Hav m); [left|done].
Qed.

Lemma traverse_spec w : ∀ fuel (seen : gset bytes) ms out,
  (∀ m, m ∈ seen → is_Some (expand w m)) →
  (size (dom (combos w)) - size seen < fuel)%nat →
  ∃ out', walk fuel w seen ms out = Some out' ∧
    (∀ x, x ∈ out' ↔ x ∈ out ∨ ∃ m, m ∈ ms ∧ leads w seen m x) ∧
    (no_stutter out → no_stutter out').
Proof.
  induction fuel as [|fuel IH]; intros seen ms out Hseen Hf; [lia|].
  assert (seen ⊆ dom (combos w)) as Hdom by (intros m [[? ?] Hm]%Hseen; by eapply expand_dom).
  revert out. induction ms as [|m ms IHms]; intros out.
  { exists out. split; [done|]. split; [|done]. intros x. set_solver. }
  (* one entry, and then the rest *)
  assert (∃ mid, (∀ x, x ∈ mid ↔ x ∈ out ∨ leads w seen m x) ∧ (no_stutter out → no_stutter mid) ∧
    walk (S fuel) w seen (m :: ms) out = walk (S fuel) w seen ms mid) as (mid & Hmid & Hst & ->).
  2:{ destruct (IHms mid) as (out' & -> & Hin & Hst'). exists out'. split; [done|]. split; [|by auto].
      intros x. rewrite Hin, Hmid. set_solver. }
  cbn [walk]. destruct (has_slash m) eqn:Es.
  { destruct (push_leaf_spec out (leaf_of w m)) as [Hp Hs']. exists (push_leaf out (leaf_of w m)).
    split; [intros x; by rewrite Hp, (leads_leaf w seen m (or_introl Es))|]. split; [done|].
    unfold leaf_of. by rewrite Es. }
  destruct (bool_decide (m ∈ seen)) eqn:Em; bsplit.
  { exists out. split; [|done]. intros x. split; [by left|]. intros [?|Hl]; [done|].
    exfalso. by eapply leads_seen in Hl; [|done|done|apply Hseen]. }
  destruct (expand w m) as [[combo sub]|] eqn:Ee.
  - destruct (enter_combo _ seen m Hdom) as [Hs' Hlt]; [by eapply expand_dom|done|].
    destruct (IH ({[ m ]} ∪ seen) sub out) as (mid & Hw & Hin & Hst).
    { intros y [->%elem_of_singleton|?]%elem_of_union; [by rewrite Ee|by apply Hseen]. }
    { lia. }
    exists mid. split; [intros x; by rewrite Hin, (leads_combo w seen m combo sub)|]. split; [done|]. by rewrite Hw.
  - destruct (push_leaf_spec out (leaf_of w m)) as [Hp Hs']. exists (push_leaf out (leaf_of w m)).
    split; [intros x; by rewrite Hp, (leads_leaf w seen m (or_intror Ee))|]. done.
Qed.

(** C7. Expanding a combo terminates whatever combos refer to each other, with
    one level of recursion per combo of the table and one for the leaf: for
    every name, a single entry is resolved, and for every list the walk returns
    exactly the leaves that some chain of combos leads to, with no leaf twice in
    a row. *)
Theorem combo_expansion_terminates w :
  (∀ entry, is_Some (resolveModelEntryGuarded (combo_depth w) w entry ∅)) ∧
  (∀ ms, ∃ out, walk (combo_depth w) w ∅ ms [] = Some out ∧
     (∀ x, x ∈ out ↔ ∃ m p, m ∈ ms ∧ path w m p x) ∧ no_stutter out).
Proof.
  split.
  - intros entry. apply guarded_fuel; [set_solver|]. unfold combo_depth. rewrite size_dom. lia.
  - intros ms. destruct (traverse_spec w (combo_depth w) ∅ ms []) as (out & Hw & Hin & Hst); [set_solver| |].
    { unfold combo_depth. rewrite size_dom. lia. }
    exists out. split; [done|]. split; [|by apply Hst].
    intros x. rewrite Hin. split.
    + intros [[]%elem_of_nil|(m & Hm & p & Hp & _)]. by exists m, p.
    + intros (m & p & Hm & (q & Hq & Hnd)%path_simple). right. exists m. split; [done|]. exists q.
      split; [done|]. split; [done|]. set_solver.
Qed.

(** *** Whole names *)

(** Bare entries of combos carry no context marker. *)
Definition unmarked w : Prop :=
  ∀ name combo sub m, expand w name = Some (combo, sub) → m ∈ sub → has_slash m = false → stripModelContextMarker m = m.

Definition unmarked_row (row : Combo) : bool :=
  match string_list (combo_Models row) with
  | Some l => forallb (λ m, has_slash m || bool_decide (stripModelContextMarker m = m)) l
  | None => true
  end.

Lemma unmarked_rows w : forallb (λ e, unmarked_row e.2) (map_to_list (combos w)) = true → unmarked w.
Proof.
  intros Hf name combo sub m He Hin Hs. unfold expand in He.
  destruct (combos w !! name) as [row|] eqn:Er; [|done]. cbn in He. case_bool_decide; [done|].
  destruct (string_list (combo_Models row)) as [l|] eqn:El; [|done]. injection He as <- <-.
  rewrite forallb_forall in Hf. specialize (Hf (name, row)). rewrite <- list_elem_of_In, elem_of_map_to_list in Hf.
  specialize (Hf Er). cbn in Hf. unfold unmarked_row in Hf. rewrite El, forallb_forall in Hf.
  specialize (Hf m). rewrite <- list_elem_of_In, Hs in Hf. specialize (Hf Hin). by apply bool_decide_eq_true in Hf.
Qed.

Lemma path_end w m p x : path w m p x →
  has_slash x = true ∨ has_slash x = false ∧ expand w x = None ∧
    (x = m ∨ ∃ name combo sub, expand w name = Some (combo, sub) ∧ x ∈ sub).
Proof.
  induction 1 as [m Hm|m combo sub m' p x Hs He Hin Hp [IH|(H1 & H2 & [->|H3])]]; [|by left|right..].
  - unfold leaf_of. destruct (has_slash m) eqn:Es; cbn [negb andb]; [by left|]. destruct Hm as [?|Hm]; [done|].
    destruct (negb _ && _) eqn:Ea; bsplit; [by left|right]. by auto.
  - split_and!; [done..|]. right. by exists m, combo, sub.
  - by auto.
Qed.

(** A name that leads to no combo is resolved without recursion. *)
Lemma resolve_leaf w name : stripModelContextMarker name = name → expand w name = None →
  is_Some (resolveModel 1 w name).
Proof.
  intros Hst He. cbn [resolveModel]. case_bool_decide; [by eexists|]. rewrite Hst, He.
  destruct (has_slash name); [by destruct (resolve_slash w name); eexists|].
  destruct (has_repo && _); [by destruct (resolve_slash w _); eexists|].
  destruct (codexOnlyModelSlug name); [by eexists|]. destruct has_repo; by eexists.
Qed.

Lemma flatten_head w combo name m ms flattened : expand w name = Some (combo, m :: ms) →
  flattenComboModels w (m :: ms) = Some flattened →
  let first := default [] (head flattened) in
  has_slash first = true ∨ has_slash first = false ∧ expand w first = None ∧
    ∃ name combo sub, expand w name = Some (combo, sub) ∧ first ∈ sub.
Proof.
  intros He Hf first. unfold flattenComboModels in Hf.
  destruct (traverse_spec w (combo_depth w) ∅ (m :: ms) []) as (out & Hw & Hin & _); [set_solver| |].
  { unfold combo_depth. rewrite size_dom. lia. }
  rewrite Hw in Hf. destruct out as [|x out]; [done|]. injection Hf as <-. cbn in first.
  destruct (proj1 (Hin x)) as [[]%elem_of_nil|(m' & Hm' & p & Hp & _)]; [left|].
  destruct (path_end w m' p x Hp) as [?|(H1 & H2 & [->|H3])]; [by left|right..].
  - split_and!; [done..|]. by exists name, combo, (m :: ms).
  - by auto.
Qed.

Lemma entry_with_slash w m : has_slash m = true → ∃ w' info, resolveModelEntry w m = (w', Some info).
Proof.
  intros Hs. unfold resolveModelEntry, combo_depth. cbn [resolveModelEntryGuarded]. rewrite Hs.
  destruct (resolve_slash w m) as [w' info]. by exists w', info.
Qed.

(** When no bare entry of a combo carries a context marker, every name
    resolves, to a route or an error, with at most one recursive call. *)
Theorem resolveModel_terminates w name : unmarked w → is_Some (resolveModel 2 w name).
Proof.
  intros Hun. remember 1%nat as n1 eqn:En1. cbn [resolveModel]. case_bool_decide; [by eexists|].
  set (s := stripModelContextMarker name).
  destruct (has_slash s); [by destruct (resolve_slash w s); eexists|].
  destruct (has_repo && _); [by destruct (resolve_slash w _); eexists|].
  destruct (codexOnlyModelSlug s); [by eexists|].
  destruct (if has_repo then expand w s else None) as [[combo [|m ms]]|] eqn:Ee; [by eexists| |by eexists].
  destruct has_repo; [|done].
  destruct (flattenComboModels w (m :: ms)) as [flattened|] eqn:Ef; [|by eexists].
  destruct (flatten_head w combo s m ms flattened Ee Ef) as [Hs|(Hs & He & n & c & sub & Hn & Hsub)].
  - destruct (entry_with_slash w _ Hs) as (w' & info & ->). by eexists.
  - rewrite entry_of_leaf by done.
    destruct (resolve_leaf w (default [] (head flattened))) as [[w' [info|]] Hr]; [by eapply Hun|done| |];
      subst n1; rewrite Hr; by eexists.
Qed.

(** A combo whose only entry is its own name with the context marker is
    never resolved: the marker is stripped on each recursive call, which leads
    back to the combo, and no number of calls is enough. *)
Theorem marked_combo_diverges w name marked combo :
  name ≠ [] → marked ≠ [] → has_slash name = false → has_slash marked = false →
  stripModelContextMarker name = name → stripModelContextMarker marked = name →
  has_repo = true → GetModelAlias w name = [] → GetModelAlias w marked = [] → codexOnlyModelSlug name = false →
  expand w name = Some (combo, [marked]) → expand w marked = None →
  ∀ fuel, resolveModel fuel w name = None ∧ resolveModel fuel w marked = None.
Proof.
  intros Hn Hm Hsn Hsm Hstn Hstm Hrepo Han Ham Hcod Hen Hem.
  assert (flattenComboModels w [marked] = Some [marked]) as Hflat.
  { unfold flattenComboModels, combo_depth. cbn [walk]. rewrite Hsm, bool_decide_eq_false_2 by set_solver. rewrite Hem.
    unfold leaf_of. rewrite Hsm, Ham. done. }
  induction fuel as [|fuel [_ IH]]; [done|].
  assert (∀ s, s ≠ [] → stripModelContextMarker s = name → resolveModel (S fuel) w s = None) as Hs; [|auto].
  intros s Hne Hst. cbn [resolveModel]. rewrite bool_decide_eq_false_2, Hst, Hsn, Hrepo, Han, Hcod, Hen, Hflat by done.
  change (default [] (head [marked])) with marked. change (true && has_slash []) with false. cbv beta iota zeta.
  by rewrite entry_of_leaf, IH.
Qed.

End Termination.

(** ** A table of combos *)

Module Sample.

#[local] Existing Instance json_codec.
#[local] Existing Instance ascii_case.

Definition row (name models : string) : bytes * Combo := (B name, MkComboRow (B name) (js models) []).

(** Two combos that refer to each other, and one whose entry is marked. *)
Definition table : gmap bytes Combo :=
  list_to_map [ row "cheap" "[~fast~,~openai/gpt-4o-mini~,~openai/gpt-4o-mini~]";
                row "fast" "[~cheap~,~groq/llama-4~]"; row "long" "[~long[1m]~]" ].

#[local] Instance repo : Repo (gmap bytes Combo) := {|
  has_repo := true; combos := λ w, w; GetModelAlias := λ _ _, []; GetProviderNodeByPrefix := λ _ _, None;
  active_connections := λ _ _, 1%nat; getBestConnection := λ w _ _ _ _, (w, Some (B "acc")); GetSettings := λ _, None;
  IsKnownProvider := λ _, true |}.

Example cyclic_combos :
  flattenComboModels table [B "cheap"] = Some [B "groq/llama-4"; B "openai/gpt-4o-mini"] ∧
  flattenComboModels table [B "fast"] = Some [B "openai/gpt-4o-mini"; B "groq/llama-4"] ∧
  (resolveModelEntry table (B "cheap")).2 = None ∧
  stripModelContextMarker (B "claude-opus-5[1M] ") = B "claude-opus-5" ∧
  resolveProviderAlias (B "cc") = B "claude".
Proof. by vm_compute. Qed.

Lemma marked_combo_witness :
  resolveModel 400 table (B "long") = None ∧ resolveModel 400 table (B "long[1m]") = None.
Proof.
  apply (marked_combo_diverges table (B "long") (B "long[1m]") (MkComboRow (B "long") (js "[~long[1m]~]") []) );
    vm_compute; done.
Defined.

Definition sound_table : gmap bytes Combo := delete (B "long") table.

Lemma resolveModel_terminates_witness :
  is_Some (resolveModel 2 sound_table (B "fast[1m]")) ∧
  (λ r, r.2) <$> resolveModel 2 sound_table (B "fast[1m]") =
    Some (inl (MkInfo (B "groq") (B "llama-4") [] [B "groq/llama-4"; B "openai/gpt-4o-mini"; B "groq/llama-4"]
      (B "fallback") 1 [])).
Proof.
  split; [|by vm_compute]. apply resolveModel_terminates, unmarked_rows. by vm_compute.
Defined.

End Sample.
