(* ===== verification/Access.v ===== *)
(** * The models a key may use
    ([internal/handlers/chat/access.go], [internal/providers/modelpattern.go])

    Allow and deny entries, the union with the entries of a plan, the gate of a
    request and the filter of the model list. The gate asks [Resolution] for the
    provider of a model. *)

From stdpp Require Import gmap.
From S2P Require Import Prelude GoRegexp Json GoText ErrorClassify Capabilities Resolution.

(** ** Patterns *)

(** The orbit of a rune under [unicode.SimpleFold], by a representative:
    [strings.EqualFold] and case-insensitive regular expressions compare these. *)
Class UnicodeFold := {
  fold : Z → Z;
  fold_ascii : ∀ r, 0 <= r < 128 → fold r = ascii_lower r;
  fold_slash : ∀ r, fold r = 47 → r = 47                  (* [/] has no other case *)
}.

(** The runes of a string; an invalid byte is U+FFFD. *)
Fixpoint runes_from (fuel : nat) (s : bytes) : list Z :=
  match fuel, s with
  | S fuel, _ :: _ => rune_value s :: runes_from fuel (drop (rune_width s) s)
  | _, _ => []
  end.
Definition runes (s : bytes) : list Z := runes_from (length s) s.

Section Match.
Context `{UnicodeFold} `{UnicodeCase}.

Definition EqualFold (s t : bytes) : bool := bool_decide (map fold (runes s) = map fold (runes t)).

(** A compiled allow pattern: literal runes and [.*]. *)
Inductive token := Lit (r : Z) | AnyRun.

Definition literal (part : bytes) : list token := map Lit (runes part).

Fixpoint tokens (parts : list bytes) : list token :=
  match parts with
  | [] => []
  | [part] => literal part
  | part :: parts => literal part ++ AnyRun :: tokens parts
  end.

(** [(?i)^...$]; a dot does not match a line feed. *)
Fixpoint glob (ts : list token) (s : list Z) : bool :=
  match ts with
  | [] => bool_decide (s = [])
  | Lit r :: ts => match s with c :: s => bool_decide (fold c = fold r) && glob ts s | [] => false end
  | AnyRun :: ts =>
      (fix run (s : list Z) : bool :=
         glob ts s || match s with c :: s => negb (c =? 10) && run s | [] => false end) s
  end.

Definition MatchAllowPattern (pattern modelID : bytes) : bool :=
  let pattern := trim_space pattern in
  let target := trim_space modelID in
  if bool_decide (pattern = []) || bool_decide (target = []) then false
  else if negb (contains (B "*") pattern) then EqualFold pattern target
  else if bool_decide (pattern = B "*") then true
  else valid_utf8 pattern && glob (tokens (split_on "*"%char pattern)) (runes target).

Definition is_sigil (c : ascii) : bool := bool_decide (c = "!"%char) || bool_decide (c = "-"%char).

(** The term of a deny entry. *)
Definition IsDenyEntry (entry : bytes) : option bytes :=
  match trim_space entry with
  | c :: ((_ :: _) as rest) =>
      if is_sigil c then let term := trim_space rest in if bool_decide (term = []) then None else Some term else None
  | _ => None
  end.

Definition MatchDenyEntry (term candidate : bytes) : bool :=
  let term := trim_space term in
  let candidate := trim_space candidate in
  if bool_decide (term = []) || bool_decide (candidate = []) then false
  else MatchAllowPattern term candidate || contains (to_lower term) (to_lower candidate).

(** ** The decision *)

(** The patterns, the deny terms, and how many entries there were. *)
Fixpoint parseAllowRules (patterns : list bytes) : list bytes * list bytes * nat :=
  match patterns with
  | [] => ([], [], 0%nat)
  | pattern :: patterns =>
      let '(allows, denies, n) := parseAllowRules patterns in
      let pattern := trim_space pattern in
      if bool_decide (pattern = []) then (allows, denies, n)
      else match IsDenyEntry pattern with
           | Some term => (allows, term :: denies, S n)
           | None => (pattern :: allows, denies, S n)
           end
  end.

Definition modelAllowed (patterns candidates : list bytes) : bool :=
  let '(allows, denies, entries) := parseAllowRules patterns in
  if (entries =? 0)%nat then true
  else if existsb (λ deny, existsb (MatchDenyEntry deny) candidates) denies then false
  else match allows with
       | [] => true
       | _ => existsb (λ pattern, existsb (MatchAllowPattern pattern) candidates) allows
       end.

Fixpoint union_from (seen : list bytes) (l : list bytes) : list bytes :=
  match l with
  | [] => []
  | m :: l =>
      let m := trim_space m in
      if bool_decide (m = []) || bool_decide (m ∈ seen) then union_from seen l else m :: union_from (m :: seen) l
  end.

Definition unionModelPatterns (a b : list bytes) : list bytes := union_from [] (a ++ b).

(** ** The gate and the list *)

(** What the gate reads of the database; [None] is an error. *)
Class AccessRepo (W : Type) := {
  GetAllowedModels : W → bytes → option (list bytes);
  GetPlan : W → bytes → option (list bytes);             (* by id: its entries *)
  GetPlansForKeys : W → bytes → option (list bytes)      (* of the key's plan, by one joined read *)
}.

Record api_key := { key_ID : bytes; PlanID : option bytes }.

Section Gate.
Context {W : Type} `{HR : Repo W} `{HJ : JsonCodec} `{HA : AccessRepo W}.

Definition withPlanPatterns (w : W) (keyID : bytes) (planID : option bytes) (own : list bytes) : list bytes :=
  if negb has_repo then own
  else
    let planPatterns :=
      match planID with
      | Some id => if nonempty (trim_space id) then default [] (GetPlan w (trim_space id)) else []
      | None => default [] (GetPlansForKeys w keyID)
      end in
    match planPatterns with [] => own | _ => unionModelPatterns own planPatterns end.

Definition effectiveAllowedModels (w : W) (key : option api_key) : list bytes :=
  match key with
  | Some key =>
      if bool_decide (key_ID key = []) || negb has_repo then []
      else match GetAllowedModels w (key_ID key) with
           | Some patterns => withPlanPatterns w (key_ID key) (PlanID key) patterns
           | None => []
           end
  | None => []
  end.

Definition allowedModelPatterns (w : W) (keyID : bytes) : list bytes :=
  if bool_decide (keyID = []) || negb has_repo then []
  else match GetAllowedModels w keyID with
       | Some patterns => withPlanPatterns w keyID None patterns
       | None => []
       end.

(** [add]: no blanks, no repetitions. *)
Definition add (v : bytes) (out : list bytes) : list bytes := if bool_decide (v = []) || bool_decide (v ∈ out) then out else out ++ [v].

(** [None]: the resolution does not end. *)
Definition accessCandidates (w : W) (modelID : bytes) : option (W * list bytes) :=
  let bare := stripModelContextMarker (trim_space modelID) in
  let out := add modelID (add bare []) in
  '(w, r) ← resolveModel 2 w bare;
  Some (w, match r with
           | inl info => if bool_decide (Provider info = []) then out else add (Provider info ++ B "/" ++ Model info) out
           | inr _ => out
           end).

(** True when the request may go on. *)
Definition checkModelAccess (w : W) (key : option api_key) (modelID : bytes) : option (W * bool) :=
  let patterns := effectiveAllowedModels w key in
  '(w, candidates) ← accessCandidates w modelID;
  Some (w, modelAllowed patterns candidates).

Definition enforceModelAccess (w : W) (key : option api_key) (modelID : bytes) : option (W * bool) :=
  if bool_decide (modelID = []) then Some (w, true) else checkModelAccess w key modelID.

(** An entry of the model list: its id and its owner. *)
Record ModelInfoObject := { entry_ID : bytes; OwnedBy : bytes }.

Definition modelEntryCandidates (m : ModelInfoObject) : list bytes :=
  let owner := trim_space (OwnedBy m) in
  if bool_decide (owner = []) || bool_decide (owner = B "combo") then [entry_ID m] else [entry_ID m; owner ++ B "/" ++ entry_ID m].

Definition filterModelsByAccess (w : W) (key : option api_key) (data : list ModelInfoObject) : list ModelInfoObject :=
  match effectiveAllowedModels w key with
  | [] => data
  | patterns => filter (λ m, modelAllowed patterns (modelEntryCandidates m) = true) data
  end.

End Gate.
End Match.

(** ** The listing of one kind of model *)

Definition kindEntriesAsModelInfo (data : list object) : list ModelInfoObject :=
  map (λ e, let id := stringOf e "id" in let owner := stringOf e "owned_by" in
            {| entry_ID := id; OwnedBy := if nonempty owner then owner else id |}) data.

Definition kindEndpoint (kind : bytes) : bytes :=
  if bool_decide (kind = B "web") then B "/v1/search"
  else if bool_decide (kind = B "image") then B "/v1/images/generations"
  else if bool_decide (kind = B "tts") then B "/v1/audio/speech"
  else if bool_decide (kind = B "stt") then B "/v1/audio/transcriptions"
  else if bool_decide (kind = B "embedding") then B "/v1/embeddings"
  else if bool_decide (kind = B "systemone") then B "/v1/systemone"
  else B "/v1/chat/completions".

Definition kindEntriesFromModelInfo (data : list ModelInfoObject) (kind : bytes) (created : Z) : list object :=
  map (λ m, [(B "id", JStr (entry_ID m)); (B "object", JStr (B "model")); (B "kind", JStr kind); (B "owned_by", JStr (OwnedBy m));
             (B "endpoint", JStr (kindEndpoint kind)); (B "created", JNum (itoa created))]) data.

(** ** The matcher *)

Section Matcher.
Context `{UnicodeFold} `{UnicodeCase}.

(** A target a pattern covers: literal runes up to case, and runs of runes other
    than line feeds. *)
Inductive covers : list token → list Z → Prop :=
  | covers_end : covers [] []
  | covers_lit r c ts s : fold c = fold r → covers ts s → covers (Lit r :: ts) (c :: s)
  | covers_run run ts s : Forall (λ c, c ≠ 10) run → covers ts s → covers (AnyRun :: ts) (run ++ s).

Lemma glob_covers ts s : glob ts s = true ↔ covers ts s.
Proof.
  split.
  - revert s. induction ts as [|[r|] ts IH]; intros s; cbn [glob].
    + rewrite bool_decide_eq_true. intros ->. constructor.
    + destruct s as [|c s]; [done|]. rewrite andb_true_iff, bool_decide_eq_true. intros [Hc Hs]. constructor; [done|by apply IH].
    + induction s as [|c s IHs]; rewrite orb_true_iff.
      * intros [Hg|?]; [|done]. apply (covers_run [] ts []); [done|by apply IH].
      * intros [Hg|[Hc Hs]%andb_true_iff]; [apply (covers_run [] ts (c :: s)); [done|by apply IH]|].
        apply IHs in Hs. inversion Hs as [| |run ? s' Hrun Hts]; subst. apply (covers_run (c :: run) ts s'); [|done].
        constructor; [|done]. apply negb_true_iff, Z.eqb_neq in Hc. done.
  - induction 1 as [|r c ts s Hc Hts IH|run ts s Hrun Hts IH]; [done|cbn [glob]; by rewrite bool_decide_eq_true_2, IH|].
    cbn [glob]. induction Hrun as [|c run Hc Hrun IHr]; cbn [app].
    + destruct s; by rewrite IH.
    + rewrite IHr. rewrite (proj2 (Z.eqb_neq _ _) Hc). by rewrite orb_true_r.
Qed.

(** A pattern with a star covers exactly the ids made of its literal parts, up to case
    and in order from end to end, with runs of any runes but line feeds at its stars;
    one without is compared whole. *)
Theorem allow_pattern_spec pattern modelID (p := trim_space pattern) (t := trim_space modelID) :
  MatchAllowPattern pattern modelID = true ↔
  p ≠ [] ∧ t ≠ [] ∧
  ((contains (B "*") p = false ∧ map fold (runes p) = map fold (runes t)) ∨
   (contains (B "*") p = true ∧ (p = B "*" ∨ valid_utf8 p = true ∧ covers (tokens (split_on "*"%char p)) (runes t)))).
Proof.
  unfold MatchAllowPattern. fold p t. case_bool_decide as Hp; [naive_solver|]. case_bool_decide as Ht; [naive_solver|]. cbn [orb].
  destruct (contains (B "*") p); cbn [negb].
  - case_bool_decide as Hs; [naive_solver|]. rewrite andb_true_iff, glob_covers. naive_solver.
  - unfold EqualFold. rewrite bool_decide_eq_true. naive_solver.
Qed.

(** ** The decision *)

Definition positive (patterns : list bytes) (p : bytes) : Prop :=
  ∃ x, x ∈ patterns ∧ p = trim_space x ∧ p ≠ [] ∧ IsDenyEntry p = None.
Definition deny_term (patterns : list bytes) (t : bytes) : Prop :=
  ∃ x, x ∈ patterns ∧ trim_space x ≠ [] ∧ IsDenyEntry (trim_space x) = Some t.

Definition denied (patterns candidates : list bytes) : Prop :=
  ∃ t c, deny_term patterns t ∧ c ∈ candidates ∧ MatchDenyEntry t c = true.
Definition granted (patterns candidates : list bytes) : Prop :=
  ∃ p c, positive patterns p ∧ c ∈ candidates ∧ MatchAllowPattern p c = true.
Definition no_positive (patterns : list bytes) : Prop := ∀ p, ¬ positive patterns p.

Lemma parse_spec patterns : let '(allows, denies, n) := parseAllowRules patterns in
  (∀ p, p ∈ allows ↔ positive patterns p) ∧ (∀ t, t ∈ denies ↔ deny_term patterns t) ∧ (n = length allows + length denies)%nat.
Proof.
  induction patterns as [|x patterns IH]; cbn [parseAllowRules].
  - split; [|split; [|done]]; intros y; (split; [by intros ?%elem_of_nil|intros (x & Hx & _); by apply elem_of_nil in Hx]).
  - destruct (parseAllowRules patterns) as [[allows denies] n]. destruct IH as (IHa & IHd & IHn).
    assert (Hpos : ∀ p, positive (x :: patterns) p ↔ (p = trim_space x ∧ p ≠ [] ∧ IsDenyEntry p = None) ∨ positive patterns p).
    { intros p. unfold positive. setoid_rewrite elem_of_cons. naive_solver. }
    assert (Hden : ∀ t, deny_term (x :: patterns) t ↔ (trim_space x ≠ [] ∧ IsDenyEntry (trim_space x) = Some t) ∨ deny_term patterns t).
    { intros t. unfold deny_term. setoid_rewrite elem_of_cons. naive_solver. }
    case_bool_decide as Hx; [|destruct (IsDenyEntry (trim_space x)) as [term|] eqn:Ed].
    + split; [|split; [|done]]; intros y; rewrite ?Hpos, ?Hden, ?IHa, ?IHd; naive_solver.
    + split; [|split]; [intros y|intros y|cbn; lia]; rewrite ?elem_of_cons, ?Hpos, ?Hden, ?IHa, ?IHd; naive_solver congruence.
    + split; [|split]; [intros y|intros y|cbn; lia]; rewrite ?elem_of_cons, ?Hpos, ?Hden, ?IHa, ?IHd; naive_solver congruence.
Qed.

Lemma existsb_elem {A} (f : A → bool) l : existsb f l = true ↔ ∃ x, x ∈ l ∧ f x = true.
Proof. rewrite existsb_exists. setoid_rewrite <- list_elem_of_In. done. Qed.

Lemma modelAllowed_spec patterns candidates : modelAllowed patterns candidates = true ↔
  ¬ denied patterns candidates ∧ (no_positive patterns ∨ granted patterns candidates).
Proof.
  unfold modelAllowed. pose proof (parse_spec patterns) as Hp. destruct (parseAllowRules patterns) as [[allows denies] n].
  destruct Hp as (Ha & Hd & Hn).
  assert (Hdenied : existsb (λ deny, existsb (MatchDenyEntry deny) candidates) denies = true ↔ denied patterns candidates).
  { rewrite existsb_elem. setoid_rewrite existsb_elem. unfold denied. setoid_rewrite <- Hd. naive_solver. }
  assert (Hgranted : existsb (λ pattern, existsb (MatchAllowPattern pattern) candidates) allows = true ↔ granted patterns candidates).
  { rewrite existsb_elem. setoid_rewrite existsb_elem. unfold granted. setoid_rewrite <- Ha. naive_solver. }
  assert (Hnone : allows = [] ↔ no_positive patterns).
  { unfold no_positive. setoid_rewrite <- Ha. split; [intros -> p; apply not_elem_of_nil|]. destruct allows as [|p allows]; [done|].
    intros Hno. destruct (Hno p). left. }
  destruct (Nat.eqb_spec n 0) as [E|E].
  - assert (allows = [] ∧ denies = []) as [-> ->]
      by (destruct allows; [destruct denies; [done|cbn in Hn; lia]|cbn in Hn; lia]).
    rewrite <- Hdenied, <- Hnone. cbn. naive_solver.
  - destruct (existsb _ denies) eqn:Ed; [rewrite <- Hdenied; naive_solver|].
    destruct allows as [|p allows']; [rewrite <- Hdenied, <- Hnone; naive_solver|].
    rewrite Hgranted, <- Hdenied, <- Hnone. naive_solver.
Qed.

(** *** The entries of a plan *)

Lemma trim_trim s : trim_space (trim_space s) = trim_space s.
Proof. apply trim_space_idem. Qed.

Lemma union_from_elem seen l y : y ∈ union_from seen l ↔ (∃ x, x ∈ l ∧ y = trim_space x) ∧ y ≠ [] ∧ y ∉ seen.
Proof.
  revert seen. induction l as [|x l IH]; intros seen; cbn [union_from].
  - split; [by intros ?%elem_of_nil|]. intros [(x & Hx & _) _]. by apply elem_of_nil in Hx.
  - setoid_rewrite elem_of_cons. destruct (bool_decide (trim_space x = []) || bool_decide (trim_space x ∈ seen)) eqn:Eb.
    + rewrite IH. apply orb_true_iff in Eb. rewrite !bool_decide_eq_true in Eb. naive_solver congruence.
    + apply orb_false_iff in Eb. rewrite !bool_decide_eq_false in Eb. rewrite elem_of_cons, IH, not_elem_of_cons.
      destruct (decide (y = trim_space x)); naive_solver congruence.
Qed.

Lemma union_elem a b y : y ∈ unionModelPatterns a b ↔ (∃ x, (x ∈ a ∨ x ∈ b) ∧ y = trim_space x) ∧ y ≠ [].
Proof.
  unfold unionModelPatterns. rewrite union_from_elem. setoid_rewrite elem_of_app. split; [naive_solver|].
  intros [Hx Hy]. split; [done|]. split; [done|apply not_elem_of_nil].
Qed.

Lemma union_positive a b p : positive (unionModelPatterns a b) p ↔ positive a p ∨ positive b p.
Proof.
  unfold positive. setoid_rewrite union_elem. split.
  - intros (x & ((y & Hy & ->) & Hne) & -> & Hp & Hd). rewrite trim_trim in *. destruct Hy; [left|right]; by exists y.
  - intros [(x & Hx & -> & Hp & Hd)|(x & Hx & -> & Hp & Hd)]; exists (trim_space x); rewrite trim_trim; (split; [split; [exists x; auto|done]|done]).
Qed.

Lemma union_deny a b t : deny_term (unionModelPatterns a b) t ↔ deny_term a t ∨ deny_term b t.
Proof.
  unfold deny_term. setoid_rewrite union_elem. split.
  - intros (x & ((y & Hy & ->) & Hne) & Hp & Hd). rewrite trim_trim in *. destruct Hy; [left|right]; by exists y.
  - intros [(x & Hx & Hp & Hd)|(x & Hx & Hp & Hd)]; exists (trim_space x); rewrite trim_trim; (split; [split; [exists x; auto|done]|done]).
Qed.

(** The entries of a plan next to those of a key: a deny entry of either refuses, and
    an allow entry of either grants. So a plan adds models to a key that has allow
    entries of its own, and takes models from one that has none: there a plan with
    allow entries refuses everything they do not match. *)
Theorem plan_union_decision own plan candidates (both := modelAllowed (unionModelPatterns own plan) candidates) :
  (both = true ↔ ¬ denied own candidates ∧ ¬ denied plan candidates ∧
     (no_positive own ∧ no_positive plan ∨ granted own candidates ∨ granted plan candidates)) ∧
  (granted own candidates → modelAllowed own candidates = true → (both = true ↔ ¬ denied plan candidates)) ∧
  (no_positive own → ¬ no_positive plan → ¬ granted plan candidates → both = false).
Proof.
  assert (Hd : denied (unionModelPatterns own plan) candidates ↔ denied own candidates ∨ denied plan candidates).
  { unfold denied. setoid_rewrite union_deny. naive_solver. }
  assert (Hg : granted (unionModelPatterns own plan) candidates ↔ granted own candidates ∨ granted plan candidates).
  { unfold granted. setoid_rewrite union_positive. naive_solver. }
  assert (Hn : no_positive (unionModelPatterns own plan) ↔ no_positive own ∧ no_positive plan).
  { unfold no_positive. setoid_rewrite union_positive. naive_solver. }
  assert (Hnone : no_positive own → ¬ granted own candidates) by (unfold no_positive, granted; naive_solver).
  assert (E : both = true ↔ ¬ denied own candidates ∧ ¬ denied plan candidates ∧
     (no_positive own ∧ no_positive plan ∨ granted own candidates ∨ granted plan candidates)).
  { unfold both. rewrite modelAllowed_spec, Hd, Hg, Hn. naive_solver. }
  split; [done|]. rewrite modelAllowed_spec. split; [naive_solver|]. intros H1 H2 H3. apply not_true_iff_false. rewrite E. naive_solver.
Qed.

(** *** Slashes *)

Lemma zb_slash x : zb x = 47 ↔ x = "/"%char.
Proof. split; [|by intros ->]. intros Hx. apply zb_inj. by rewrite Hx. Qed.

Lemma high_not_slash x : 128 <= zb x → x ≠ "/"%char.
Proof. rewrite <- zb_slash. lia. Qed.

(** A rune of several bytes has none below 128, and a value above. *)
Lemma wide_rune c s : rune_width (c :: s) ≠ 1%nat →
  (1 < rune_width (c :: s) <= S (length s))%nat ∧ Forall (λ x, 128 <= zb x) (take (rune_width (c :: s)) (c :: s)) ∧ 128 <= rune_value (c :: s).
Proof.
  unfold rune_value, rune_width, is_cont, in_range.
  destruct s as [|x1 [|x2 [|x3 s]]]; zcases; intros Hw; try done; cbn [length take];
    repeat match goal with H : _ = true |- _ => apply andb_true_iff in H as [? ?] end; bsplit;
    (split; [lia|split; [repeat (constructor; [lia|]); constructor|lia]]).
Qed.

Lemma rune_slash c s (w := rune_width (c :: s)) :
  (rune_value (c :: s) = 47 ↔ c = "/"%char) ∧ ("/"%char ∈ c :: s ↔ c = "/"%char ∨ "/"%char ∈ drop w (c :: s)) ∧ (0 < w <= S (length s))%nat.
Proof.
  destruct (decide (w = 1%nat)) as [E|E].
  - rewrite E. cbn [drop]. rewrite drop_0, elem_of_cons. split; [|split; [naive_solver|lia]].
    unfold w in E. unfold rune_value. rewrite E, <- zb_slash. unfold rune_error. destruct s as [|? [|? [|? ?]]]; zcases.
  - destruct (wide_rune c s E) as (Hw & Hb & Hv). fold w in Hw, Hb. split; [|split; [|lia]].
    + split; [lia|]. intros ->. destruct w as [|w']; [lia|]. cbn in Hb. apply Forall_cons in Hb as [Hb _]. by apply high_not_slash in Hb.
    + rewrite <- (take_drop w (c :: s)) at 1. rewrite elem_of_app. rewrite Forall_forall in Hb. split; [|intros [->|?]; [|by right]].
      * intros [Hx|Hx]; [|by right]. by apply Hb, high_not_slash in Hx.
      * destruct w as [|w']; [lia|]. left. cbn. left.
Qed.

Lemma runes_slash s : 47 ∈ runes s ↔ "/"%char ∈ s.
Proof.
  unfold runes. assert (Hf : (length s <= length s)%nat) by done. revert Hf. generalize (length s) at 2 3 as fuel.
  intros fuel. revert s. induction fuel as [|fuel IH]; intros [|c s] Hf; cbn [runes_from]; try (cbn in Hf; lia);
    try (by split; intros ?%elem_of_nil).
  destruct (rune_slash c s) as (Hv & Hin & Hw). rewrite elem_of_cons, Hin, IH; [naive_solver|].
  rewrite length_drop. cbn [length] in *. lia.
Qed.

Lemma contains_char c s : contains [c] s = true ↔ c ∈ s.
Proof.
  unfold contains. induction s as [|x s IH]; [split; [done|by intros ?%elem_of_nil]|].
  cbn [index_of has_prefix]. rewrite elem_of_cons, andb_true_r. case_bool_decide; [naive_solver|].
  destruct (index_of [c] s); cbn in *; naive_solver.
Qed.

Lemma has_slash_elem s : has_slash s = true ↔ "/"%char ∈ s.
Proof.
  unfold has_slash. induction s as [|x s IH]; cbn; [split; [done|by intros ?%elem_of_nil]|]. rewrite elem_of_cons.
  case_bool_decide; [naive_solver|]. destruct (cut _ s) as [[? ?] ok]. cbn in *. naive_solver.
Qed.

Lemma trim_space_elem x s : x ∈ trim_space s → x ∈ s.
Proof. assert (Hs : Forall (λ x, x ∈ s) (trim_space s)) by (apply Forall_trim_space; by rewrite Forall_forall). rewrite Forall_forall in Hs. auto. Qed.

Lemma slash_not_blank : "/"%char ∉ concat utf8_spaces.
Proof. apply (bool_decide_unpack _). by vm_compute. Qed.

Lemma marker_slash s : "/"%char ∈ stripModelContextMarker s ↔ "/"%char ∈ s.
Proof.
  unfold stripModelContextMarker. destruct (_ <? 4)%nat; [done|]. case_match eqn:E; [|done].
  set (n := (length (trim_space s) - 4)%nat) in *. split.
  - intros Hx%trim_space_elem. apply trim_space_elem. rewrite <- (take_drop n). apply elem_of_app. by left.
  - intros Hx. apply trim_space_keeps; [|apply slash_not_blank]. apply trim_space_keeps in Hx; [|apply slash_not_blank].
    rewrite <- (take_drop n), elem_of_app in Hx. destruct Hx as [Hx|Hx]; [done|].
    apply orb_true_iff in E. rewrite !bool_decide_eq_true in E. exfalso. revert Hx. apply (bool_decide_unpack _).
    destruct E as [-> | ->]; by vm_compute.
Qed.

(** A pattern without stars and slashes covers no id with a slash. *)
Lemma bare_pattern_is_bare p c : "*"%char ∉ p → "/"%char ∉ p → "/"%char ∈ c → MatchAllowPattern p c = false.
Proof.
  intros Hstar Hp Hc. apply not_true_iff_false. rewrite allow_pattern_spec. intros (_ & _ & [[_ Hr]|[Hs _]]).
  - assert (Hin : 47 ∈ runes (trim_space p)); [|rewrite runes_slash in Hin; by apply trim_space_elem in Hin].
    assert (Hf : fold 47 ∈ map fold (runes (trim_space p))).
    { rewrite Hr. apply list_elem_of_fmap_2. rewrite runes_slash. apply trim_space_keeps; [done|apply slash_not_blank]. }
    apply list_elem_of_fmap_1 in Hf as (r & Hr' & Hf). symmetry in Hr'. rewrite (fold_ascii 47) in Hr' by lia.
    by rewrite <- (fold_slash r Hr').
  - apply contains_char, trim_space_elem in Hs. done.
Qed.

End Matcher.

(** ** The gate and the list *)

Section GateAndList.
Context `{UnicodeFold} `{UnicodeCase} {W : Type} `{HR : Repo W} `{HJ : JsonCodec} `{HA : AccessRepo W}.
Implicit Types (w : W) (key : option api_key).

Lemma add_elem v out x : x ∈ add v out ↔ x ∈ out ∨ x = v ∧ x ≠ [].
Proof.
  unfold add. destruct (bool_decide (v = []) || bool_decide (v ∈ out)) eqn:E.
  - apply orb_true_iff in E. rewrite !bool_decide_eq_true in E. naive_solver.
  - apply orb_false_iff in E. rewrite !bool_decide_eq_false in E. rewrite elem_of_app, list_elem_of_singleton. naive_solver.
Qed.

(** A name with a slash is resolved by its prefix. *)
Lemma slashed_candidates w modelID (bare := stripModelContextMarker (trim_space modelID)) : "/"%char ∈ bare →
  ∃ w' out, accessCandidates w modelID = Some (w', out) ∧ Forall (λ c, "/"%char ∈ c) out.
Proof.
  intros Hb. unfold accessCandidates. fold bare. cbn [resolveModel].
  rewrite bool_decide_eq_false_2 by (intros E; rewrite E in Hb; by apply elem_of_nil in Hb).
  rewrite (proj2 (has_slash_elem _)) by (by apply marker_slash).
  destruct (resolve_slash w _) as [w' info]. cbn. eexists _, _. split; [done|].
  assert (Hid : "/"%char ∈ modelID) by by apply trim_space_elem, marker_slash.
  apply Forall_forall. intros c. case_bool_decide; rewrite ?add_elem.
  - intros [[[]%elem_of_nil|[-> _]]|[-> _]]; done.
  - intros [[[[]%elem_of_nil|[-> _]]|[-> _]]|[-> _]]; [done|done|].
    apply elem_of_app. right. left.
Qed.

(** A key whose allow entries are all bare ids (no slash, no star) may call no model by a
    name with a slash: [gpt-4o] does not cover a call of [openai/gpt-4o], whatever
    the name resolves to. *)
Theorem bare_entries_miss_qualified_calls w key modelID (patterns := effectiveAllowedModels w key) :
  "/"%char ∈ stripModelContextMarker (trim_space modelID) → ¬ no_positive patterns →
  (∀ p, positive patterns p → "*"%char ∉ p ∧ "/"%char ∉ p) →
  ∃ w', checkModelAccess w key modelID = Some (w', false).
Proof.
  intros Hb Hsome Hbare. unfold checkModelAccess. fold patterns.
  destruct (slashed_candidates w modelID Hb) as (w' & out & -> & Hout). cbn. exists w'. f_equal. f_equal.
  apply not_true_iff_false. rewrite modelAllowed_spec. intros [_ [?|(p & c & Hp & Hc & Hm)]]; [done|].
  rewrite Forall_forall in Hout. destruct (Hbare p Hp) as [H1 H2]. by rewrite (bare_pattern_is_bare p c H1 H2 (Hout c Hc)) in Hm.
Qed.

(** The entry of the list is kept. *)
Definition listed w key (m : ModelInfoObject) : Prop := m ∈ filterModelsByAccess w key [m].

Lemma listed_spec w key m : listed w key m ↔ modelAllowed (effectiveAllowedModels w key) (modelEntryCandidates m) = true.
Proof.
  unfold listed, filterModelsByAccess. destruct (effectiveAllowedModels w key) as [|p ps]; [split; [done|intros _; left]|].
  rewrite list_elem_of_filter. split; [by intros [? _]|]. intros; split; [done|left].
Qed.

Lemma contains_self t : contains t t = true.
Proof. apply contains_spec. exists [], []. by rewrite app_nil_r. Qed.

Lemma deny_self q : trim_space q ≠ [] → MatchDenyEntry q q = true.
Proof. intros Hq. unfold MatchDenyEntry. rewrite bool_decide_eq_false_2 by done. cbn [orb]. by rewrite contains_self, orb_true_r. Qed.

Lemma allow_self q : trim_space q ≠ [] → "*"%char ∉ q → MatchAllowPattern q q = true.
Proof.
  intros Hq Hs. rewrite allow_pattern_spec. split; [done|]. split; [done|]. left. split; [|done].
  apply not_true_iff_false. rewrite (contains_char "*"%char). by intros ?%trim_space_elem.
Qed.

Section Entry.
Variables (w w' : W) (key : option api_key) (m : ModelInfoObject) (info : ModelInfo).
Let patterns := effectiveAllowedModels w key.
Let q := Provider info ++ B "/" ++ Model info.
Hypothesis Hresolved : resolveModel 2 w (stripModelContextMarker (trim_space (entry_ID m))) = Some (w', inl info).
Hypothesis Hprovider : Provider info ≠ [].

Lemma qualified_not_blank : trim_space q ≠ [].
Proof.
  intros E. apply (not_elem_of_nil "/"%char). rewrite <- E. apply trim_space_keeps; [|apply slash_not_blank].
  apply elem_of_app. right. left.
Qed.

Lemma entry_gate : ∃ out, checkModelAccess w key (entry_ID m) = Some (w', modelAllowed patterns out) ∧
  ∀ c, c ∈ out ↔ (c = stripModelContextMarker (trim_space (entry_ID m)) ∨ c = entry_ID m ∨ c = q) ∧ c ≠ [].
Proof.
  unfold checkModelAccess, accessCandidates. rewrite Hresolved. cbn. rewrite bool_decide_eq_false_2 by done.
  eexists. split; [done|]. intros c. fold q. rewrite !add_elem, elem_of_nil. tauto.
Qed.

(** C29. The gate asks about the id and about the name it resolves to, the list about the id
    and its owner. Where the list asks about just the id and that same name, and the id
    has no marker and no blanks around it, the two agree. Where the only thing a policy
    says is to deny the resolved name, and none of the names the list asks about
    matches it, the model is listed and refused; where the only thing it says is to
    grant that name, given without a star, and none of those names matches it, the model
    is served and not listed. *)
Theorem gate_and_list_decisions :
  (trim_space (entry_ID m) = entry_ID m → stripModelContextMarker (entry_ID m) = entry_ID m → entry_ID m ≠ [] →
   modelEntryCandidates m = [entry_ID m; q] → (listed w key m ↔ checkModelAccess w key (entry_ID m) = Some (w', true))) ∧
  (no_positive patterns → (∀ t, deny_term patterns t ↔ t = q) → (∀ c, c ∈ modelEntryCandidates m → MatchDenyEntry q c = false) →
   listed w key m ∧ checkModelAccess w key (entry_ID m) = Some (w', false)) ∧
  ((∀ t, ¬ deny_term patterns t) → (∀ p, positive patterns p ↔ p = q) → "*"%char ∉ q →
   (∀ c, c ∈ modelEntryCandidates m → MatchAllowPattern q c = false) →
   ¬ listed w key m ∧ checkModelAccess w key (entry_ID m) = Some (w', true)).
Proof.
  destruct entry_gate as (out & -> & Hout). rewrite listed_spec. fold patterns. pose proof qualified_not_blank as Hq.
  assert (Hin : q ∈ out) by (apply Hout; split; [auto|]; intros E; rewrite E in Hq; done).
  split; [|split].
  - intros E1 E2 Hne ->. rewrite E1, E2 in Hout. transitivity (modelAllowed patterns out = true); [|by split; [intros ->|intros [=]]].
    assert (Hsame : ∀ c, c ∈ out ↔ c ∈ [entry_ID m; q]).
    { intros c. rewrite Hout, !elem_of_cons, elem_of_nil. assert (Hqn : q ≠ []) by (intros E; by rewrite E in Hq).
      clear -Hne Hqn. naive_solver. }
    rewrite !modelAllowed_spec. unfold denied, granted. by setoid_rewrite Hsame.
  - intros Hno Hd Hc. split; [|f_equal; f_equal; apply not_true_iff_false]; rewrite modelAllowed_spec.
    + split; [|by left]. intros (t & c & ->%Hd & Hin' & Hm). by rewrite Hc in Hm.
    + intros [Hnd _]. apply Hnd. exists q, q. split; [by apply Hd|]. split; [done|by apply deny_self].
  - intros Hno Hp Hs Hc. split; [|f_equal; f_equal]; rewrite modelAllowed_spec.
    + intros [_ [Hn|(p & c & ->%Hp & Hin' & Hm)]]; [by apply (Hn q), Hp|by rewrite Hc in Hm].
    + split; [by intros (t & c & Ht & _); apply (Hno t)|]. right. exists q, q. split; [by apply Hp|]. split; [done|by apply allow_self].
Qed.

End Entry.

End GateAndList.

(** ** Samples *)
Module Sample.

#[local] Existing Instance json_codec.
#[local] Existing Instance ascii_case.

Lemma ascii_fold_slash r : ascii_lower r = 47 → r = 47.
Proof. unfold ascii_lower. zcases. Qed.
#[local] Instance ascii_fold : UnicodeFold := {| fold := ascii_lower; fold_ascii _ _ := eq_refl; fold_slash := ascii_fold_slash |}.

(** The entries of the key and of its plan. *)
Abbreviation world := (list bytes * list bytes)%type (only parsing).
#[local] Instance models : Repo world := {|
  has_repo := true; combos _ := ∅; GetModelAlias _ _ := []; GetProviderNodeByPrefix _ _ := None;
  active_connections _ _ := 1%nat; getBestConnection w _ _ _ _ := (w, Some (B "acc")); GetSettings _ := None;
  IsKnownProvider _ := true |}.
#[local] Instance policies : AccessRepo world := {|
  GetAllowedModels w _ := Some w.1; GetPlan w _ := Some w.2; GetPlansForKeys w _ := Some w.2 |}.

Definition a_key : option api_key := Some {| key_ID := B "k"; PlanID := Some (B " gold ") |}.
Definition policy (own plan : list string) : world := (map B own, map B plan).

Example patterns :
  MatchAllowPattern (B "*claude*") (B "anthropic/Claude-sonnet") = true ∧ MatchAllowPattern (B "oc/*") (B "oc/a/b") = true ∧
  MatchAllowPattern (B "gpt-4.") (B "gpt-4o") = false ∧ MatchAllowPattern (B " GPT-4o ") (B "gpt-4o") = true ∧
  MatchDenyEntry (B "haiku") (B "anthropic/claude-HAIKU-4") = true ∧ IsDenyEntry (B "- haiku ") = Some (B "haiku") ∧ IsDenyEntry (B "!") = None.
Proof. by vm_compute. Qed.

(** A sigil with nothing but blanks behind it is an allow entry that no model matches. *)
Example lone_sigil_refuses_everything : modelAllowed [B "! "] [B "gpt-4o"; B "openai/gpt-4o"] = false.
Proof. by vm_compute. Qed.

(** The key lost the models outside its plan's list when it was put on the plan. *)
Example a_plan_takes_models_away :
  modelAllowed (effectiveAllowedModels (policy [] []) a_key) [B "gpt-4o"] = true ∧
  modelAllowed (effectiveAllowedModels (policy [] ["claude/*"]) a_key) [B "gpt-4o"] = false ∧
  modelAllowed (effectiveAllowedModels (policy ["gpt-4o"] ["-gpt"]) a_key) [B "gpt-4o"] = false.
Proof. by vm_compute. Qed.

Definition opus : ModelInfoObject := {| entry_ID := B "cc/claude-opus-4"; OwnedBy := B "cc" |}.
Definition resolved : ModelInfo := Resolution.plain (B "claude") (B "claude-opus-4") [].

Definition call_of_qualified_name : bytes := B "openai/gpt-4o".
Definition only_bare : world := policy ["gpt-4o"] [].

Lemma bare_entries_witness : ∃ w', checkModelAccess only_bare a_key call_of_qualified_name = Some (w', false).
Proof.
  pose proof (parse_spec (effectiveAllowedModels only_bare a_key)) as Hp. vm_compute parseAllowRules in Hp. destruct Hp as (Ha & _ & _).
  refine (bare_entries_miss_qualified_calls only_bare a_key call_of_qualified_name _ _ _).
  - apply (bool_decide_unpack _). by vm_compute.
  - intros Hno. apply (Hno (B "gpt-4o")), Ha. left.
  - intros p [->|[]%elem_of_nil]%Ha%elem_of_cons. split; apply (bool_decide_unpack _); by vm_compute.
Defined.

Definition denying : world := policy ["!claude/claude-opus-4"] [].
Definition granting : world := policy ["claude/claude-opus-4"] [].

Lemma gate_and_list_witness :
  (listed denying a_key opus ∧ checkModelAccess denying a_key (entry_ID opus) = Some (denying, false)) ∧
  (¬ listed granting a_key opus ∧ checkModelAccess granting a_key (entry_ID opus) = Some (granting, true)).
Proof.
  split.
  - pose proof (parse_spec (effectiveAllowedModels denying a_key)) as Hp. vm_compute parseAllowRules in Hp. destruct Hp as (Ha & Hd & _).
    destruct (gate_and_list_decisions denying denying a_key opus resolved) as (_ & H & _); [by vm_compute|done|]. apply H.
    + intros p Hp. by apply Ha, elem_of_nil in Hp.
    + intros t. rewrite <- Hd, list_elem_of_singleton. done.
    + apply Forall_forall. vm_compute modelEntryCandidates. repeat constructor; by vm_compute.
  - pose proof (parse_spec (effectiveAllowedModels granting a_key)) as Hp. vm_compute parseAllowRules in Hp. destruct Hp as (Ha & Hd & _).
    destruct (gate_and_list_decisions granting granting a_key opus resolved) as (_ & _ & H); [by vm_compute|done|]. apply H.
    + intros t Ht. by apply Hd, elem_of_nil in Ht.
    + intros p. rewrite <- Ha, list_elem_of_singleton. done.
    + apply (bool_decide_unpack _). by vm_compute.
    + apply Forall_forall. vm_compute modelEntryCandidates. repeat constructor; by vm_compute.
Defined.

Lemma plan_union_witness : modelAllowed (unionModelPatterns [] [B "claude/*"]) [B "gpt-4o"] = false.
Proof.
  pose proof (parse_spec [B "claude/*"]) as Hp. vm_compute parseAllowRules in Hp. destruct Hp as (Ha & _ & _).
  destruct (plan_union_decision [] [B "claude/*"] [B "gpt-4o"]) as (_ & _ & H). apply H.
  - intros p (x & Hx & _). by apply elem_of_nil in Hx.
  - intros Hno. apply (Hno (B "claude/*")), Ha. left.
  - intros (p & c & Hp & Hc & Hm). apply Ha, list_elem_of_singleton in Hp as ->. apply list_elem_of_singleton in Hc as ->. by vm_compute in Hm.
Defined.

End Sample.
