(* ===== verification/Rotation.v ===== *)
(** * Persistent rotation of accounts ([internal/db/rotation.go],
    [internal/handlers/chat/connections.go])

    The stamps that order the accounts by recency, the row that is stamped, and
    the choice of the next account. The order of the stamps is the order of
    their text. *)

From S2P Require Import Prelude GoRegexp Json GoText.

(** ** Text order *)

Fixpoint bytes_lt (a b : bytes) : bool :=
  match a, b with
  | [], [] => false
  | [], _ :: _ => true
  | _ :: _, [] => false
  | x :: a', y :: b' => (zb x <? zb y) || ((zb x =? zb y) && bytes_lt a' b')
  end.

Lemma bytes_lt_irrefl a : bytes_lt a a = false.
Proof. induction a as [|x a IH]; [done|]. cbn [bytes_lt]. rewrite IH, Z.ltb_irrefl. by rewrite andb_false_r. Qed.

Lemma bytes_lt_trans a : ∀ b c, bytes_lt a b = true → bytes_lt b c = true → bytes_lt a c = true.
Proof.
  induction a as [|x a IH]; intros [|y b] [|z c]; cbn [bytes_lt]; try done.
  rewrite !orb_true_iff, !andb_true_iff, !Z.ltb_lt, !Z.eqb_eq. intros [?|[? ?]] [?|[? ?]]; try lia.
  right. split; [lia|eauto].
Qed.

Lemma bytes_lt_total a : ∀ b, bytes_lt a b = false → bytes_lt b a = false → a = b.
Proof.
  induction a as [|x a IH]; intros [|y b]; cbn [bytes_lt]; try done.
  rewrite !orb_false_iff, !andb_false_iff, !Z.ltb_ge, !Z.eqb_neq. intros [? H1] [? H2].
  assert (zb x = zb y) as E by lia. rewrite (zb_inj x y E). f_equal. apply IH; naive_solver lia.
Qed.

Lemma bytes_lt_asym a b : bytes_lt a b = true → bytes_lt b a = false.
Proof.
  intros Hab. destruct (bytes_lt b a) eqn:E; [|done].
  pose proof (bytes_lt_trans _ _ _ Hab E) as Haa. by rewrite bytes_lt_irrefl in Haa.
Qed.

Lemma bytes_lt_le_trans a b c : bytes_lt b a = false → bytes_lt b c = true → bytes_lt a c = true.
Proof.
  intros Hba Hbc. destruct (bytes_lt a b) eqn:Hab; [by eapply bytes_lt_trans|].
  by rewrite (bytes_lt_total a b).
Qed.

(** ** The clock

    [rotationTimestampFormat] and the RFC 3339 text of whole seconds, for
    instants in nanoseconds up to the last one with a four-digit year. The laws
    are those of fixed-width text. *)
Definition NsPerSecond : Z := 1000000000.

Class RotationTime := {
  FormatStamp : Z → bytes;
  ParseStamp : bytes → option Z;
  FormatSecond : Z → bytes;
  ParseSecond : bytes → option Z;
  last_instant : Z;
  stamp_nonempty t : FormatStamp t ≠ [];
  stamp_mono s t : 0 <= s < t → t <= last_instant → bytes_lt (FormatStamp s) (FormatStamp t) = true;
  parse_stamp t : 0 <= t <= last_instant → ParseStamp (FormatStamp t) = Some t;
  parse_second t : 0 <= t <= last_instant → ParseStamp (FormatSecond t) = None ∧
    ParseSecond (FormatSecond t) = Some (t / NsPerSecond * NsPerSecond);
  second_before t : 0 <= t → t + NsPerSecond <= last_instant →
    bytes_lt (FormatSecond t) (FormatStamp (t / NsPerSecond * NsPerSecond + NsPerSecond)) = true;
  second_text t : 0 <= t <= last_instant → trim_space (FormatSecond t) ≠ []
}.

(** ** Rows of [providerConnections] *)

Record account := MkAccount {
  ID : bytes; Provider : bytes; IsActive : Z; Data : bytes;
  LastUsedAt : option bytes; ConsecutiveUseCount : option Z
}.

(** The table in the order of the queries: by priority. *)
Abbreviation accounts := (list account) (only parsing).

Section Stamps.
Context `{RotationTime}.

Definition parseRotationStamp (value : bytes) : option Z :=
  if bool_decide (value = []) then None
  else match ParseStamp value with Some t => Some t | None => ParseSecond value end.

Definition nextRotationStamp (now : Z) (previous : bytes) : bytes :=
  let text := FormatStamp now in
  if bool_decide (previous = []) || bytes_lt previous text then text
  else match parseRotationStamp previous with
       | None => text
       | Some prev =>
           let successor := FormatStamp (prev + 1) in
           if bytes_lt previous successor then successor
           else FormatStamp (prev / NsPerSecond * NsPerSecond + NsPerSecond)
       end.

(** [SELECT MAX(lastUsedAt)]; the empty text when no row has a stamp. *)
Definition later (acc : bytes) (a : account) : bytes :=
  match LastUsedAt a with Some s => if bytes_lt acc s then s else acc | None => acc end.
Definition max_stamp (l : accounts) : bytes := foldl later [] l.

Definition stamped (stamp : bytes) (count : Z) (a : account) : account :=
  MkAccount (ID a) (Provider a) (IsActive a) (Data a) (Some stamp) (Some count).

Definition update_row (id : bytes) (f : account → account) (table : accounts) : accounts :=
  map (λ a, if bool_decide (ID a = id) then f a else a) table.

(** The transaction; [fails] is an error of the database, which rolls back. *)
Definition stampConnection (now : Z) (fails : bool) (id : bytes) (consecutive : Z) (increment : bool)
    (table : accounts) : accounts * option bytes :=
  if fails then (table, None)
  else
    let stamp := nextRotationStamp now (max_stamp table) in
    (update_row id (λ a, stamped stamp (if increment then default 0 (ConsecutiveUseCount a) + 1 else consecutive) a) table,
     Some stamp).

Definition TouchConnectionRotation now fails id consecutive := stampConnection now fails id consecutive false.
Definition UpdateConnectionLastUsed now fails id := stampConnection now fails id 0 true.

(** ** The choice of [selectByRecency] *)

(** The row with the largest stamp, the last one of equals. *)
Fixpoint most_recent (i : nat) (best : option (nat * bytes * Z)) (conns : accounts) : option (nat * bytes * Z) :=
  match conns with
  | [] => best
  | c :: conns' =>
      match LastUsedAt c with
      | None => most_recent (S i) best conns'
      | Some s =>
          let this := Some (i, s, default 0 (ConsecutiveUseCount c)) in
          match best with
          | Some (_, t, _) => most_recent (S i) (if negb (bytes_lt s t) then this else best) conns'
          | None => most_recent (S i) this conns'
          end
      end
  end.

(** The first row without a stamp, or the first with the least. *)
Fixpoint least_recent (i : nat) (oldest : option (nat * bytes)) (conns : accounts) : option nat :=
  match conns with
  | [] => fst <$> oldest
  | c :: conns' =>
      match LastUsedAt c with
      | None => Some i
      | Some s =>
          match oldest with
          | None => least_recent (S i) (Some (i, s)) conns'
          | Some (_, t) => least_recent (S i) (if bytes_lt s t then Some (i, s) else oldest) conns'
          end
      end
  end.

(** The winner and its consecutive-use count; no winner is the panic of an
    index of -1. *)
Definition choose (conns : accounts) (stickyLimit : Z) : option (nat * Z) :=
  match most_recent 0 None conns with
  | Some (i, _, count) =>
      if count <? stickyLimit then Some (i, count + 1) else (λ j, (j, 1)) <$> least_recent 0 None conns
  | None => (λ j, (j, 1)) <$> least_recent 0 None conns
  end.

(** The table with the winner's row stamped, and the candidates with the winner
    first. *)
Definition selectByRecency (now : Z) (fails : bool) (table conns : accounts) (stickyLimit : Z)
    : option (accounts * accounts) :=
  '(winner, consecutive) ← choose conns stickyLimit;
  c ← conns !! winner;
  let stamp := nextRotationStamp now (max_stamp conns) in
  let '(table', persisted) := TouchConnectionRotation now fails (ID c) consecutive table in
  Some (table', stamped (default stamp persisted) consecutive c :: take winner conns ++ drop (S winner) conns).

Record ProviderStrategy := MkStrategy {
  ProxyPoolID : bytes; RotateStrategy : bytes; st_StickyLimit : Z; StrictModelAssignment : bool;
  ProxyRotateStrategy : bytes; ConnRotateStrategy : bytes
}.

(** [offset] is the random draw below the number of accounts. *)
Definition applyConnectionStrategy `{UnicodeCase} (now : Z) (fails : bool) (offset : nat) (table conns : accounts)
    (strat : ProviderStrategy) : option (accounts * accounts) :=
  if (length conns <=? 1)%nat then Some (table, conns)
  else
    let s := to_lower (trim_space (RotateStrategy strat)) in
    if bool_decide (s = B "round-robin") || bool_decide (s = B "roundrobin") || bool_decide (s = B "sticky") then
      selectByRecency now fails table conns (if st_StickyLimit strat <=? 0 then 1 else st_StickyLimit strat)
    else if bool_decide (s = B "random") then
      Some (table, rotate offset conns)
    else Some (table, conns).

End Stamps.

(** ** Stamps only grow *)

Section StampFacts.
Context `{RotationTime}.

(** A stamp of either width of an instant up to [b]. *)
Definition stamp_upto (b : Z) (s : bytes) : Prop := ∃ t, 0 <= t <= b ∧ (s = FormatStamp t ∨ s = FormatSecond t).

Lemma stamp_after now b prev : prev = [] ∨ stamp_upto b prev → 0 <= now <= b → b + NsPerSecond <= last_instant →
  bytes_lt prev (nextRotationStamp now prev) = true ∧ stamp_upto (b + NsPerSecond) (nextRotationStamp now prev).
Proof.
  intros Hprev Hnow Hb. assert (NsPerSecond = 1000000000) as Hns by done.
  assert (∀ t, 0 <= t <= b + NsPerSecond → stamp_upto (b + NsPerSecond) (FormatStamp t)) as Hup by (intros t ?; exists t; by auto).
  unfold nextRotationStamp. destruct (bool_decide (prev = [])) eqn:E; bsplit; cbn [orb].
  { subst prev. split; [|apply Hup; lia]. pose proof (stamp_nonempty now). by destruct (FormatStamp now). }
  destruct (bytes_lt prev (FormatStamp now)) eqn:En; [by split; [|apply Hup; lia]|].
  destruct Hprev as [|(t & Ht & Ho)]; [done|]. pose proof (Z.div_mod t NsPerSecond ltac:(done)) as Hd.
  pose proof (Z.mod_pos_bound t NsPerSecond ltac:(done)) as Hm.
  unfold parseRotationStamp. rewrite bool_decide_eq_false_2 by done.
  destruct Ho as [-> | ->].
  - assert (bytes_lt (FormatStamp t) (FormatStamp (t + 1)) = true) as Hlt by (apply stamp_mono; lia).
    rewrite parse_stamp by lia. rewrite Hlt. split; [done|]. apply Hup. lia.
  - destruct (parse_second t) as [-> ->]; [lia|].
    destruct (bytes_lt (FormatSecond t) (FormatStamp (t / NsPerSecond * NsPerSecond + 1))) eqn:Es.
    + split; [done|]. apply Hup. lia.
    + rewrite Z.div_mul by done. split; [apply second_before; lia|].
      apply Hup. lia.
Qed.

Lemma later_cases acc c : (later acc c = acc ∧ ∀ s, LastUsedAt c = Some s → bytes_lt acc s = false) ∨
  ∃ s, LastUsedAt c = Some s ∧ later acc c = s ∧ bytes_lt acc s = true.
Proof.
  unfold later. destruct (LastUsedAt c) as [s|]; [|left; by split].
  destruct (bytes_lt acc s) eqn:E; [right; by exists s|left; split; [done|]]. by intros s' [= <-].
Qed.

Lemma max_stamp_from l : ∀ acc, (foldl later acc l = acc ∨ ∃ a, a ∈ l ∧ LastUsedAt a = Some (foldl later acc l)) ∧
  bytes_lt (foldl later acc l) acc = false ∧
  (∀ a s, a ∈ l → LastUsedAt a = Some s → bytes_lt (foldl later acc l) s = false).
Proof.
  induction l as [|c l IH]; intros acc; cbn [foldl].
  { split; [by left|]. split; [apply bytes_lt_irrefl|]. by intros a s ?%elem_of_nil. }
  destruct (IH (later acc c)) as (H1 & H2 & H3). set (m := foldl later (later acc c) l) in *.
  assert (bytes_lt m acc = false ∧ (∀ s, LastUsedAt c = Some s → bytes_lt m s = false)) as [Hacc Hc].
  { destruct (later_cases acc c) as [[E Hc]|(s & Hs & E & Hlt)]; rewrite E in H2; split; [done| | |].
    - intros s Hs. destruct (bytes_lt m s) eqn:Em; [|done]. pose proof (Hc s Hs) as Hf.
      by rewrite (bytes_lt_le_trans acc m s) in Hf.
    - destruct (bytes_lt m acc) eqn:Em; [|done]. by rewrite (bytes_lt_trans _ _ _ Em Hlt) in H2.
    - intros s'. rewrite Hs. by intros [= <-]. }
  split; [|split; [done|]].
  - destruct H1 as [E|(a & Ha & Hs)]; [|right; exists a; split; [by right|done]].
    rewrite E. destruct (later_cases acc c) as [[-> _]|(s & Hs & -> & _)]; [by left|right]. exists c. by split; [left|].
  - intros a s [->|Ha]%elem_of_cons Hs; [by apply Hc|by eapply H3].
Qed.

(** A table whose stamps are of instants up to [b]. *)
Definition stamps_upto (b : Z) (table : accounts) : Prop :=
  Forall (λ a, match LastUsedAt a with Some s => stamp_upto b s | None => True end) table.

(** The next stamp of a table is after every stamp in it. *)
Lemma table_stamp now b table : stamps_upto b table → 0 <= now <= b → b + NsPerSecond <= last_instant →
  let stamp := nextRotationStamp now (max_stamp table) in
  stamp_upto (b + NsPerSecond) stamp ∧ ∀ a s, a ∈ table → LastUsedAt a = Some s → bytes_lt s stamp = true.
Proof.
  intros Ht Hnow Hb stamp. destruct (max_stamp_from table []) as (H1 & _ & H3). fold (max_stamp table) in *.
  destruct (stamp_after now b (max_stamp table)) as [Hlt Hup]; [|done..|].
  { destruct H1 as [->|(a & Ha & Hs)]; [by left|right]. unfold stamps_upto in Ht. rewrite Forall_forall in Ht.
    specialize (Ht a Ha). by rewrite Hs in Ht. }
  split; [done|]. intros a s Ha Hs. eapply bytes_lt_le_trans; [|exact Hlt]. by eapply H3.
Qed.

End StampFacts.

(** ** Rotation as a queue

    The accounts of a pool from the least to the most recently used. A pick
    takes the front and puts it at the end, or repeats the end while its window
    of consecutive uses is open. *)

Definition key_lt (i : nat) (a : account) (j : nat) (b : account) : Prop :=
  match LastUsedAt a, LastUsedAt b with
  | None, None => (i < j)%nat
  | None, Some _ => True
  | Some s, Some t => bytes_lt s t = true
  | Some _, None => False
  end.

Definition precedes (conns : accounts) (x y : bytes) : Prop :=
  ∃ i a j b, conns !! i = Some a ∧ ID a = x ∧ conns !! j = Some b ∧ ID b = y ∧ key_lt i a j b.

Definition ordered (conns : accounts) (q : list bytes) : Prop :=
  ∀ i j x y, (i < j)%nat → q !! i = Some x → q !! j = Some y → precedes conns x y.

Record represents (conns : accounts) (q : list bytes) : Prop := {
  rep_nodup : NoDup (map ID conns);
  rep_perm : q ≡ₚ map ID conns;
  rep_ordered : ordered conns q
}.

Definition rot {A} (q : list A) : list A := match q with [] => [] | x :: q' => q' ++ [x] end.

Fixpoint abstract_turns (n : nat) (k : Z) (q : list bytes) (w : option Z) : list bytes :=
  match n with
  | O => []
  | S n' =>
      if (match w with Some m => m <? k | None => false end)
      then default [] (last q) :: abstract_turns n' k q ((λ m, m + 1) <$> w)
      else default [] (head q) :: abstract_turns n' k (rot q) (Some 1)
  end.

(** The count of the open or closed window. *)
Definition window (conns : accounts) : option Z := snd <$> most_recent 0 None conns.

(** *** The two scans *)

Lemma least_recent_spec conns : ∀ pre oldest,
  match oldest with
  | None => pre = []
  | Some (k, t) => ∃ a, pre !! k = Some a ∧ LastUsedAt a = Some t ∧
      ∀ j b, pre !! j = Some b → ∃ s, LastUsedAt b = Some s ∧ bytes_lt s t = false
  end →
  pre ++ conns = [] ∨ ∃ r a, least_recent (length pre) oldest conns = Some r ∧ (pre ++ conns) !! r = Some a ∧
    ∀ j b, (pre ++ conns) !! j = Some b → ¬ key_lt j b r a.
Proof.
  induction conns as [|c conns IH]; intros pre oldest Hinv; cbn [least_recent].
  { rewrite app_nil_r. destruct oldest as [[k t]|]; [right|by left]. destruct Hinv as (a & Ha & Ht & Hall).
    exists k, a. split; [done|]. split; [done|]. intros j b Hb. destruct (Hall j b Hb) as (s & Hs & Hlt).
    unfold key_lt. rewrite Hs, Ht, Hlt. done. }
  destruct (LastUsedAt c) as [s|] eqn:Ec.
  - replace (pre ++ c :: conns) with ((pre ++ [c]) ++ conns) by by rewrite <- app_assoc.
    replace (S (length pre)) with (length (pre ++ [c])) by (rewrite length_app; cbn; lia).
    assert (∀ l k a, l !! k = Some a → (l ++ [c]) !! k = Some a) as Hl by (intros; by apply lookup_app_l_Some).
    assert ((pre ++ [c]) !! length pre = Some c) as Hlc by (by apply list_lookup_middle).
    destruct oldest as [[k t]|]; [destruct (bytes_lt s t) eqn:Est|]; apply IH.
    + exists c. split; [done|]. split; [done|]. intros j b [Hb|[_ Hb]]%lookup_app_Some.
      * destruct Hinv as (a & Ha & Ht & Hall). destruct (Hall j b Hb) as (s' & Hs' & Hlt). exists s'. split; [done|].
        destruct (bytes_lt s' s) eqn:E; [|done]. by rewrite (bytes_lt_trans _ _ _ E Est) in Hlt.
      * apply list_lookup_singleton_Some in Hb as [_ <-]. exists s. split; [done|apply bytes_lt_irrefl].
    + destruct Hinv as (a & Ha & Ht & Hall). exists a. split; [by apply Hl|]. split; [done|].
      intros j b [Hb|[_ Hb]]%lookup_app_Some; [by eapply Hall|].
      apply list_lookup_singleton_Some in Hb as [_ <-]. by exists s.
    + exists c. split; [done|]. split; [done|]. subst pre. intros j b Hb.
      apply list_lookup_singleton_Some in Hb as [_ <-]. exists s. split; [done|apply bytes_lt_irrefl].
  - right. exists (length pre), c. split; [done|]. split; [by apply list_lookup_middle|].
    intros j b Hb. unfold key_lt. rewrite Ec. destruct (LastUsedAt b) eqn:Eb; [by intros []|]. intros Hj.
    rewrite lookup_app_l in Hb by done. destruct oldest as [[k t]|]; [|subst pre; by destruct j].
    destruct Hinv as (a & _ & _ & Hall). destruct (Hall j b Hb) as (s & Hs & _). congruence.
Qed.

Definition recent_of (l : accounts) (best : option (nat * bytes * Z)) : Prop :=
  match best with
  | None => ∀ a, a ∈ l → LastUsedAt a = None
  | Some (k, t, n) => ∃ a, l !! k = Some a ∧ LastUsedAt a = Some t ∧ n = default 0 (ConsecutiveUseCount a) ∧
      ∀ j b s, l !! j = Some b → LastUsedAt b = Some s → bytes_lt t s = false
  end.

Lemma most_recent_from conns : ∀ pre best, recent_of pre best →
  recent_of (pre ++ conns) (most_recent (length pre) best conns).
Proof.
  induction conns as [|c conns IH]; intros pre best Hinv; cbn [most_recent]; [by rewrite app_nil_r|].
  replace (pre ++ c :: conns) with ((pre ++ [c]) ++ conns) by by rewrite <- app_assoc.
  replace (S (length pre)) with (length (pre ++ [c])) by (rewrite length_app; cbn; lia).
  assert ((pre ++ [c]) !! length pre = Some c) as Hlc by (by apply list_lookup_middle).
  destruct (LastUsedAt c) as [s|] eqn:Ec; [destruct best as [[[k t] n]|]; [destruct (bytes_lt s t) eqn:Est|]|]; apply IH; cbn [negb recent_of].
  - destruct Hinv as (a & Ha & Ht & Hn & Hall). exists a. split; [by apply lookup_app_l_Some|]. split_and!; [done..|].
    intros j b s' [Hb|[_ Hb]]%lookup_app_Some Hs'; [by eapply Hall|].
    apply list_lookup_singleton_Some in Hb as [_ <-]. rewrite Ec in Hs'. injection Hs' as <-. by apply bytes_lt_asym.
  - destruct Hinv as (a & Ha & Ht & Hn & Hall). exists c. split_and!; [done..|].
    intros j b s' [Hb|[_ Hb]]%lookup_app_Some Hs'.
    + specialize (Hall j b s' Hb Hs'). destruct (bytes_lt s s') eqn:E; [|done]. by rewrite (bytes_lt_le_trans t s s') in Hall.
    + apply list_lookup_singleton_Some in Hb as [_ <-]. rewrite Ec in Hs'. injection Hs' as <-. apply bytes_lt_irrefl.
  - exists c. split_and!; [done..|]. intros j b s' [Hb|[_ Hb]]%lookup_app_Some Hs'.
    + apply list_elem_of_lookup_2, Hinv in Hb. congruence.
    + apply list_lookup_singleton_Some in Hb as [_ <-]. rewrite Ec in Hs'. injection Hs' as <-. apply bytes_lt_irrefl.
  - destruct best as [[[k t] n]|]; cbn [recent_of] in *.
    + destruct Hinv as (a & Ha & Ht & Hn & Hall). exists a. split; [by apply lookup_app_l_Some|]. split_and!; [done..|].
      intros j b s' [Hb|[_ Hb]]%lookup_app_Some Hs'; [by eapply Hall|].
      apply list_lookup_singleton_Some in Hb as [_ <-]. congruence.
    + intros a [Ha|Ha]%elem_of_app; [by apply Hinv|]. by apply list_elem_of_singleton in Ha as ->.
Qed.

Lemma most_recent_spec conns : recent_of conns (most_recent 0 None conns).
Proof. apply (most_recent_from conns [] None). by intros a ?%elem_of_nil. Qed.

(** *** A pick against the queue *)

Lemma same_index conns i j a b : NoDup (map ID conns) → conns !! i = Some a → conns !! j = Some b → ID a = ID b → i = j.
Proof.
  intros Hnd Ha Hb E. eapply (NoDup_lookup (map ID conns) i j (ID a)); [done|..];
    change (map ID conns) with (ID <$> conns); rewrite list_lookup_fmap; [by rewrite Ha|by rewrite Hb, E].
Qed.

Lemma choose_abstract conns q k : represents conns q → q ≠ [] →
  ∃ r c n, choose conns k = Some (r, n) ∧ conns !! r = Some c ∧
    if (match window conns with Some m => m <? k | None => false end)
    then last q = Some (ID c) ∧ n = default 0 (window conns) + 1 else head q = Some (ID c) ∧ n = 1.
Proof.
  intros [Hnd Hperm Hord] Hq. unfold choose, window.
  assert (∃ r c, least_recent 0 None conns = Some r ∧ conns !! r = Some c ∧ head q = Some (ID c)) as (r0 & c0 & Hl & Hr0 & Hh).
  { destruct (least_recent_spec conns [] None eq_refl) as [E|(r & a & Hr & Ha & Hmin)]; cbn [app length] in *.
    { subst conns. symmetry in Hperm. by apply Permutation_nil in Hperm. }
    exists r, a. split_and!; [done..|]. destruct q as [|x q]; [done|]. cbn.
    assert (ID a ∈ x :: q) as [E|Hin]%elem_of_cons.
    { rewrite Hperm. apply list_elem_of_fmap. exists a. split; [done|by eapply list_elem_of_lookup_2]. }
    - by rewrite E.
    - apply list_elem_of_lookup in Hin as [j Hj]. destruct (Hord 0%nat (S j) x (ID a)) as (i1 & b & i2 & b' & Hb & Eb & Hb' & Eb' & Hlt);
        [lia|done|done|]. assert (i2 = r) as <- by by eapply same_index.
      assert (b' = a) as -> by congruence. by eapply Hmin in Hb. }
  pose proof (most_recent_spec conns) as Hm. destruct (most_recent 0 None conns) as [[[i t] n]|] eqn:Em; cbn [recent_of fmap option_fmap option_map snd] in *.
  - destruct (Z.ltb_spec n k).
    + destruct Hm as (a & Ha & Ht & Hn & Hall). exists i, a, (n + 1). split; [done|]. split; [done|]. split; [|done].
      destruct (last q) as [y|] eqn:El; [|by apply last_None in El].
      apply last_Some in El as [q0 ->].
      assert (ID a ∈ q0 ++ [y]) as [Hin|Hin]%elem_of_app.
      { rewrite Hperm. apply list_elem_of_fmap. exists a. split; [done|by eapply list_elem_of_lookup_2]. }
      2:{ by apply list_elem_of_singleton in Hin as ->. }
      apply list_elem_of_lookup in Hin as [j Hj]. pose proof (lookup_lt_Some _ _ _ Hj).
      destruct (Hord j (length q0) (ID a) y) as (i1 & b & i2 & b' & Hb & Eb & Hb' & Eb' & Hlt); [done|by apply lookup_app_l_Some|by apply list_lookup_middle|].
      assert (i1 = i) as <- by by eapply same_index. assert (b = a) as -> by congruence.
      unfold key_lt in Hlt. rewrite Ht in Hlt. destruct (LastUsedAt b') as [s|] eqn:Es; [|done].
      by rewrite (Hall i2 b' s) in Hlt.
    + rewrite Hl. by exists r0, c0, 1.
  - rewrite Hl. by exists r0, c0, 1.
Qed.

Lemma update_row_lookup x f (conns : accounts) i :
  update_row x f conns !! i = (λ a, if bool_decide (ID a = x) then f a else a) <$> conns !! i.
Proof. unfold update_row. change (map ?g conns) with (g <$> conns). apply list_lookup_fmap. Qed.

Lemma update_row_ids x stamp n (conns : accounts) : map ID (update_row x (stamped stamp n) conns) = map ID conns.
Proof. unfold update_row. rewrite map_map. apply map_ext. intros a. by case_bool_decide. Qed.

Lemma touch_represents conns q0 x stamp n :
  NoDup (map ID conns) → q0 ++ [x] ≡ₚ map ID conns → ordered conns q0 →
  (∀ a s, a ∈ conns → LastUsedAt a = Some s → bytes_lt s stamp = true) →
  let conns' := update_row x (stamped stamp n) conns in
  represents conns' (q0 ++ [x]) ∧ window conns' = Some n.
Proof.
  intros Hnd Hperm Hord Hmax conns'.
  assert (NoDup (q0 ++ [x])) as Hndq by by rewrite Hperm. apply NoDup_app in Hndq as (_ & Hx0 & _).
  assert (∃ i a, conns !! i = Some a ∧ ID a = x) as (ix & ax & Hax & Hidx).
  { assert (x ∈ map ID conns) as (a & -> & Ha)%list_elem_of_fmap by (rewrite <- Hperm; set_solver).
    apply list_elem_of_lookup in Ha as [i Ha]. by exists i, a. }
  assert (conns' !! ix = Some (stamped stamp n ax)) as Hnew.
  { unfold conns'. rewrite update_row_lookup, Hax. cbn. by rewrite bool_decide_eq_true_2. }
  assert (∀ i b, conns !! i = Some b → ID b ≠ x → conns' !! i = Some b) as Hold.
  { intros i b Hb Hne. unfold conns'. rewrite update_row_lookup, Hb. cbn. by rewrite bool_decide_eq_false_2. }
  assert (∀ i b, conns' !! i = Some b → ID b ≠ x → conns !! i = Some b) as Hinv.
  { intros i b. unfold conns'. rewrite update_row_lookup. destruct (conns !! i) as [a|]; [|done]. cbn.
    case_bool_decide as E; intros [= <-]; [by rewrite <- E|done]. }
  assert (∀ y, y ∈ q0 → y ≠ x) as Hne by (intros y Hy ->; apply (Hx0 x Hy); set_solver).
  split; [split|].
  - unfold conns'. by rewrite update_row_ids.
  - unfold conns'. by rewrite update_row_ids.
  - intros i j y z Hij Hy Hz. assert (i < length q0)%nat as Hi.
    { apply lookup_lt_Some in Hz. rewrite length_app in Hz. cbn in Hz. lia. }
    rewrite lookup_app_l in Hy by done. apply lookup_app_Some in Hz as [Hz|[_ Hz]].
    + destruct (Hord i j y z Hij Hy Hz) as (i1 & b & i2 & b' & Hb & <- & Hb' & <- & Hlt).
      exists i1, b, i2, b'. apply list_elem_of_lookup_2, Hne in Hy, Hz. by auto.
    + apply list_lookup_singleton_Some in Hz as [_ <-].
      assert (∃ i1 b, conns !! i1 = Some b ∧ ID b = y) as (i1 & b & Hb & <-).
      { assert (y ∈ map ID conns) as (a & -> & Ha)%list_elem_of_fmap.
        { rewrite <- Hperm. apply elem_of_app. left. by eapply list_elem_of_lookup_2. }
        apply list_elem_of_lookup in Ha as [i1 Ha]. by exists i1, a. }
      exists i1, b, ix, (stamped stamp n ax). apply list_elem_of_lookup_2, Hne in Hy. split_and!; [by auto..| |].
      * done.
      * unfold key_lt. cbn [LastUsedAt stamped]. destruct (LastUsedAt b) as [s|] eqn:Es; [|done].
        eapply Hmax; [by eapply list_elem_of_lookup_2|done].
  - unfold window. pose proof (most_recent_spec conns') as Hm.
    destruct (most_recent 0 None conns') as [[[i t] m]|]; cbn [recent_of] in Hm.
    2:{ by apply list_elem_of_lookup_2, Hm in Hnew. }
    destruct Hm as (a & Ha & Ht & -> & Hall). cbn. specialize (Hall ix _ stamp Hnew eq_refl).
    destruct (decide (ID a = x)) as [E|Hna].
    + assert (i = ix) as ->.
      { eapply (same_index conns' i ix); [unfold conns'; by rewrite update_row_ids|done|done|]. cbn. by rewrite E. }
      rewrite Hnew in Ha. by injection Ha as <-.
    + apply Hinv in Ha; [|done]. rewrite (Hmax a t) in Hall; [done|by eapply list_elem_of_lookup_2|done].
Qed.

(** *** The queue in closed form *)

Lemma rot_lookup {A} (q : list A) i : (i < length q)%nat → rot q !! i = q !! (S i `mod` length q)%nat.
Proof.
  destruct q as [|x q]; cbn [rot length]; [lia|]. intros Hi. destruct (decide (i < length q)%nat) as [Hlt|Hge].
  - rewrite lookup_app_l by done. by rewrite Nat.mod_small by lia.
  - replace i with (length q) by lia. rewrite list_lookup_middle by done. by rewrite Nat.Div0.mod_same.
Qed.

Lemma length_rot {A} (q : list A) : length (rot q) = length q.
Proof. destruct q; [done|]. cbn. rewrite length_app. cbn. lia. Qed.

Lemma rot_lookup_mod {A} (q : list A) i : q ≠ [] → rot q !! (i `mod` length q)%nat = q !! (S i `mod` length q)%nat.
Proof.
  intros Hq. assert (length q ≠ 0%nat) by by intros ?%length_zero_iff_nil.
  rewrite rot_lookup by (apply Nat.mod_upper_bound; lia). f_equal.
  rewrite <- (Nat.add_1_l (i `mod` _)), <- (Nat.add_1_l i). by rewrite Nat.Div0.add_mod_idemp_r.
Qed.

(** While the window is open at [m] uses, the [t]th pick from here is found by
    counting uses. *)
Lemma abstract_open (k : nat) : (1 <= k)%nat → ∀ n q m t, (1 <= m <= k)%nat → q ≠ [] → (t < n)%nat →
  abstract_turns n (Z.of_nat k) q (Some (Z.of_nat m)) !! t = q !! (((t + m) `div` k + (length q - 1)) `mod` length q)%nat.
Proof.
  intros Hk. induction n as [|n IH]; intros q m t Hm Hq Ht; [lia|]. cbn [abstract_turns].
  assert (length q ≠ 0%nat) by by intros ?%length_zero_iff_nil.
  case (Z.ltb_spec (Z.of_nat m) (Z.of_nat k)); intros Hmk.
  - destruct t as [|t]; cbn [lookup list_lookup].
    + rewrite Nat.div_small by lia. rewrite Nat.mod_small by lia. rewrite last_lookup.
      replace (0 + (length q - 1))%nat with (pred (length q)) by lia.
      destruct (lookup_lt_is_Some_2 q (pred (length q))) as [x ->]; [lia|done].
    + cbn. replace (Z.of_nat m + 1) with (Z.of_nat (S m)) by lia. rewrite IH by (done || lia).
      by replace (t + S m)%nat with (S t + m)%nat by lia.
  - assert (m = k) as -> by lia. destruct t as [|t]; cbn [lookup list_lookup].
    + change (0 + k)%nat with k. rewrite Nat.div_same by lia. replace (1 + (length q - 1))%nat with (length q) by lia.
      rewrite Nat.Div0.mod_same. by destruct q.
    + change (Some 1) with (Some (Z.of_nat 1)). rewrite IH; [|lia|by destruct q as [|? []]|lia].
      rewrite length_rot, rot_lookup_mod by done. f_equal. f_equal.
      replace (S t + k)%nat with (t + 1 + 1 * k)%nat by lia. rewrite Nat.div_add by lia. lia.
Qed.

Lemma abstract_closed (k : nat) n q w t : (1 <= k)%nat → q ≠ [] → (t < n)%nat →
  (match w with Some m => Z.of_nat k <= m | None => True end) →
  abstract_turns n (Z.of_nat k) q w !! t = q !! ((t `div` k) `mod` length q)%nat.
Proof.
  intros Hk Hq Ht Hw. destruct n as [|n]; [lia|]. cbn [abstract_turns].
  assert (length q ≠ 0%nat) by by intros ?%length_zero_iff_nil.
  replace (match w with Some m => m <? Z.of_nat k | None => false end) with false
    by (destruct w; [symmetry; apply Z.ltb_ge; lia|done]).
  destruct t as [|t]; cbn [lookup list_lookup].
  - rewrite Nat.Div0.div_0_l, Nat.Div0.mod_0_l. by destruct q.
  - change (Some 1) with (Some (Z.of_nat 1)). rewrite (abstract_open k); [|lia|lia|by destruct q as [|? []]|lia].
    rewrite length_rot, rot_lookup_mod by done. f_equal.
    replace (S ((t + 1) `div` k + (length q - 1)))%nat with (S t `div` k + 1 * length q)%nat
      by (replace (t + 1)%nat with (S t) by lia; lia).
    by rewrite Nat.Div0.mod_add.
Qed.

Lemma rep_nonempty conns q : represents conns q → conns ≠ [] → q ≠ [].
Proof. intros [_ Hp _] Hc ->. apply Hc. apply Permutation_nil in Hp. by apply map_eq_nil in Hp. Qed.

(** ** Serving a sequence of turns *)

Section Turns.
Context `{RotationTime}.
Variable P : account → Prop.
Context `{∀ a, Decision (P a)}.

(** The conditions of a pool do not depend on the rotation columns. *)
Definition stable : Prop := ∀ a stamp n, P (stamped stamp n a) ↔ P a.

Fixpoint serve_turns (nows : list Z) (stickyLimit : Z) (table : accounts) : option (list bytes) :=
  match nows with
  | [] => Some []
  | now :: nows' =>
      '(table', candidates) ← selectByRecency now false table (filter P table) stickyLimit;
      c ← head candidates;
      rest ← serve_turns nows' stickyLimit table';
      Some (ID c :: rest)
  end.

Lemma filter_update x stamp n table : stable →
  filter P (update_row x (stamped stamp n) table) = update_row x (stamped stamp n) (filter P table).
Proof.
  intros Hst. induction table as [|a table IH]; [done|]. unfold update_row in *. cbn [map].
  destruct (decide (P a)) as [Ha|Ha].
  - rewrite !filter_cons_True; [cbn [map]; by rewrite IH|done|case_bool_decide; by try apply Hst].
  - rewrite !filter_cons_False; [by rewrite IH|done|case_bool_decide; [by intros ?%Hst|done]].
Qed.

Lemma stamps_upto_update b x stamp n table : stamps_upto b table → stamp_upto (b + NsPerSecond) stamp →
  stamps_upto (b + NsPerSecond) (update_row x (stamped stamp n) table).
Proof.
  unfold stamps_upto, update_row. intros Ht Hs. rewrite Forall_forall in *. intros a' (a & -> & Ha)%list_elem_of_fmap.
  case_bool_decide; [done|]. specialize (Ht a Ha). destruct (LastUsedAt a); [|done].
  destruct Ht as (t & Ht & ?). exists t. unfold NsPerSecond. split; [lia|done].
Qed.

(** One pick: the queue moves as it should and the table keeps its shape. *)
Lemma pick_refines now b k table q : stable → NoDup (map ID table) →
  represents (filter P table) q → q ≠ [] → stamps_upto b table → 0 <= now <= b → b + NsPerSecond <= last_instant →
  ∃ table' c rest, selectByRecency now false table (filter P table) k = Some (table', c :: rest) ∧
    NoDup (map ID table') ∧ stamps_upto (b + NsPerSecond) table' ∧
    let open := match window (filter P table) with Some m => m <? k | None => false end in
    let q' := if open then q else rot q in
    represents (filter P table') q' ∧ last q' = Some (ID c) ∧
    window (filter P table') = Some (if open then default 0 (window (filter P table)) + 1 else 1).
Proof.
  intros Hst Hnd Hrep Hq Hup Hnow Hb.
  destruct (table_stamp now b table Hup Hnow Hb) as [Hs Hmax]. set (stamp := nextRotationStamp now (max_stamp table)) in *.
  destruct (choose_abstract _ _ k Hrep Hq) as (r & c & n & Hch & Hc & Hpick).
  set (open := match window (filter P table) with Some m => m <? k | None => false end) in *.
  exists (update_row (ID c) (stamped stamp n) table), (stamped stamp n c), (take r (filter P table) ++ drop (S r) (filter P table)).
  assert (∃ q0, (if open then q else rot q) = q0 ++ [ID c] ∧ q0 ++ [ID c] ≡ₚ q ∧ ordered (filter P table) q0 ∧
    n = if open then default 0 (window (filter P table)) + 1 else 1) as (q0 & Eq0 & Hp0 & Ho0 & Hn).
  { destruct Hrep as [_ _ Hord]. destruct open; destruct Hpick as [Hx ->].
    - apply last_Some in Hx as [q0 ->]. exists q0. split_and!; [done..| |done].
      intros i j x y Hij Hx Hy. apply (Hord i j); by try apply lookup_app_l_Some.
    - destruct q as [|x q0]; [done|]. injection Hx as ->. exists q0. split_and!; [done| | |done].
      + by rewrite Permutation_app_comm.
      + intros i j x y Hij Hx Hy. apply (Hord (S i) (S j)); [lia|done..]. }
  destruct (touch_represents (filter P table) q0 (ID c) stamp n) as [Hrep' Hwin'].
  { by destruct Hrep. }
  { rewrite Hp0. by destruct Hrep. }
  { done. }
  { intros a s [_ Ha]%list_elem_of_filter. by apply Hmax. }
  unfold selectByRecency. rewrite Hch. cbn [mbind option_bind]. rewrite Hc. cbn.
  split; [done|]. split; [by rewrite update_row_ids|]. split; [by apply stamps_upto_update|].
  rewrite filter_update by done. rewrite Eq0. split; [done|]. split; [by rewrite last_snoc|]. by rewrite Hwin', Hn.
Qed.

Lemma turns_refine k : stable → ∀ nows b table q,
  NoDup (map ID table) → represents (filter P table) q → q ≠ [] → stamps_upto b table →
  Forall (λ now, 0 <= now <= b) nows → b + zlen nows * NsPerSecond <= last_instant →
  serve_turns nows k table = Some (abstract_turns (length nows) k q (window (filter P table))).
Proof.
  intros Hst. induction nows as [|now nows IH]; intros b table q Hnd Hrep Hq Hup Hnows Hb; [done|].
  apply Forall_cons in Hnows as [Hnow Hnows]. unfold zlen in Hb. cbn [length] in Hb.
  assert (0 < NsPerSecond) by done.
  destruct (pick_refines now b k table q) as (table' & c & rest & Hsel & Hnd' & Hup' & Hrep' & Hlast & Hwin); [done..|nia|].
  cbn [serve_turns length abstract_turns]. rewrite Hsel. cbn [mbind option_bind head].
  set (open := match window (filter P table) with Some m => m <? k | None => false end) in *.
  rewrite (IH (b + NsPerSecond) table' (if open then q else rot q)).
  - cbn [mbind option_bind]. rewrite Hwin. destruct open eqn:Eo.
    + rewrite Hlast. cbn. destruct (window (filter P table)); [done|]. unfold open in Eo. done.
    + destruct q as [|x q]; [done|]. cbn [rot head default]. cbn [rot] in Hlast. rewrite last_snoc in Hlast.
      by injection Hlast as ->.
  - done.
  - done.
  - destruct open; [done|]. by destruct q as [|? []].
  - done.
  - eapply Forall_impl; [exact Hnows|]. cbn. intros ?. lia.
  - unfold zlen. nia.
Qed.

(** C34. Rotation with a sticky limit of [k] serves the accounts of a pool in
    turn: starting with the least recently used, [k] picks each, and round
    again, for any clock readings, also when the clock stands still. *)
Theorem round_robin_serves_in_turn (k : nat) nows b table q t :
  stable → (1 <= k)%nat → NoDup (map ID table) → represents (filter P table) q → filter P table ≠ [] →
  (match window (filter P table) with Some m => Z.of_nat k <= m | None => True end) →
  stamps_upto b table → Forall (λ now, 0 <= now <= b) nows → b + zlen nows * NsPerSecond <= last_instant →
  (t < length nows)%nat →
  (serve_turns nows (Z.of_nat k) table ≫= lookup t) = q !! ((t `div` k) `mod` length q)%nat.
Proof.
  intros Hst Hk Hnd Hrep Hne Hw Hup Hnows Hb Ht.
  pose proof (rep_nonempty _ _ Hrep Hne) as Hq.
  rewrite (turns_refine (Z.of_nat k) Hst nows b table q) by done. cbn [mbind option_bind].
  by apply abstract_closed.
Qed.

End Turns.

(** ** A clock and a pool *)

(** Instants as decimal seconds since the epoch, of fixed width up to 2286: a
    clock with the laws above. *)
Module Sample.

Fixpoint digits (k : nat) (n : Z) : bytes :=
  match k with O => [] | S k' => bz (48 + n / 10 ^ Z.of_nat k') :: digits k' (n mod 10 ^ Z.of_nat k') end.

Fixpoint value (s : bytes) : Z :=
  match s with [] => 0 | c :: s' => (zb c - 48) * 10 ^ zlen s' + value s' end.

Lemma length_digits k : ∀ n, length (digits k n) = k.
Proof. induction k as [|k IH]; intros n; cbn; [done|by rewrite IH]. Qed.

Lemma pow10 k : 0 < 10 ^ Z.of_nat k ∧ 10 ^ Z.of_nat (S k) = 10 * 10 ^ Z.of_nat k.
Proof. split; [apply Z.pow_pos_nonneg; lia|]. rewrite Nat2Z.inj_succ, Z.pow_succ_r by lia. done. Qed.

Lemma leading_digit k n : 0 <= n < 10 ^ Z.of_nat (S k) → zb (bz (48 + n / 10 ^ Z.of_nat k)) = 48 + n / 10 ^ Z.of_nat k.
Proof.
  intros Hn. destruct (pow10 k) as [Hp Hs]. apply zb_bz.
  pose proof (Z.div_pos n _ ltac:(lia) Hp). pose proof (Z.div_lt_upper_bound n (10 ^ Z.of_nat k) 10 ltac:(lia) ltac:(lia)). lia.
Qed.

Lemma value_digits k : ∀ n, 0 <= n < 10 ^ Z.of_nat k → value (digits k n) = n.
Proof.
  induction k as [|k IH]; intros n Hn; cbn [digits value]; [cbn in Hn; lia|].
  destruct (pow10 k) as [Hp Hs]. rewrite leading_digit by done. rewrite IH by (by apply Z.mod_pos_bound).
  unfold zlen. rewrite length_digits. pose proof (Z.div_mod n (10 ^ Z.of_nat k) ltac:(lia)). lia.
Qed.

Lemma digits_mono k : ∀ m n, 0 <= m < n → n < 10 ^ Z.of_nat k → bytes_lt (digits k m) (digits k n) = true.
Proof.
  induction k as [|k IH]; intros m n Hm Hn; cbn [digits bytes_lt]; [cbn in Hn; lia|].
  destruct (pow10 k) as [Hp Hs]. rewrite !leading_digit by lia.
  pose proof (Z.div_mod m _ (not_eq_sym (Z.lt_neq _ _ Hp))). pose proof (Z.div_mod n _ (not_eq_sym (Z.lt_neq _ _ Hp))).
  pose proof (Z.mod_pos_bound m _ Hp). pose proof (Z.mod_pos_bound n _ Hp).
  pose proof (Z.div_le_mono m n _ Hp ltac:(lia)).
  destruct (decide (m / 10 ^ Z.of_nat k = n / 10 ^ Z.of_nat k)) as [E|Hne].
  - rewrite E, Z.ltb_irrefl, Z.eqb_refl. cbn. apply IH; [|lia]. rewrite E in *. lia.
  - rewrite (proj2 (Z.ltb_lt _ _)) by lia. done.
Qed.

Lemma bytes_lt_app a b c d : length a = length b → bytes_lt (a ++ c) (b ++ d) = bytes_lt a b || (bool_decide (a = b) && bytes_lt c d).
Proof.
  revert b. induction a as [|x a IH]; intros [|y b] Hl; try done. injection Hl as Hl. cbn [app bytes_lt].
  rewrite IH by done. destruct (zb x <? zb y) eqn:Elt; [done|]. cbn [orb]. destruct (Z.eqb_spec (zb x) (zb y)) as [E|Hne].
  - rewrite (zb_inj _ _ E) in *. cbn [andb]. f_equal. f_equal. apply bool_decide_ext. naive_solver.
  - cbn [andb orb]. rewrite bool_decide_eq_false_2; [done|]. by intros [= -> _].
Qed.

Definition stamp_of (t : Z) : bytes := digits 10 (t / NsPerSecond) ++ B "." ++ digits 9 (t mod NsPerSecond).
Definition second_of (t : Z) : bytes := digits 10 (t / NsPerSecond) ++ B "Z".
Definition end_of_time : Z := 10 ^ 10 * NsPerSecond - 1.

Lemma in_time t : 0 <= t <= end_of_time →
  0 <= t / NsPerSecond < 10 ^ Z.of_nat 10 ∧ 0 <= t mod NsPerSecond < 10 ^ Z.of_nat 9 ∧
  t = t / NsPerSecond * NsPerSecond + t mod NsPerSecond.
Proof.
  intros Ht. assert (NsPerSecond = 10 ^ Z.of_nat 9) as E by done. pose proof (Z.mod_pos_bound t NsPerSecond ltac:(done)).
  pose proof (Z.div_mod t NsPerSecond ltac:(done)). rewrite <- E. split_and!; [apply Z.div_pos; [lia|done]| |lia..].
  apply Z.div_lt_upper_bound; [done|]. unfold end_of_time in Ht. change (10 ^ Z.of_nat 10) with (10 ^ 10). lia.
Qed.

Lemma stamp_of_mono s t : 0 <= s < t → t <= end_of_time → bytes_lt (stamp_of s) (stamp_of t) = true.
Proof.
  intros Hs Ht. destruct (in_time s) as (? & ? & Es); [lia|]. destruct (in_time t) as (? & ? & Et); [lia|].
  unfold stamp_of. rewrite bytes_lt_app by (by rewrite !length_digits).
  pose proof (Z.div_le_mono s t NsPerSecond ltac:(done) ltac:(lia)).
  destruct (decide (s / NsPerSecond = t / NsPerSecond)) as [E|Hne].
  - rewrite E, bool_decide_eq_true_2 by done. cbn [B String.list_ascii_of_string app bytes_lt].
    rewrite Z.ltb_irrefl, Z.eqb_refl. rewrite (digits_mono 9 (s mod NsPerSecond) (t mod NsPerSecond)); [by rewrite orb_true_r| |lia].
    rewrite E in *. lia.
  - rewrite digits_mono by lia. done.
Qed.

Lemma second_of_before t : 0 <= t → t + NsPerSecond <= end_of_time →
  bytes_lt (second_of t) (stamp_of (t / NsPerSecond * NsPerSecond + NsPerSecond)) = true.
Proof.
  intros H0 Ht. assert (NsPerSecond = 1000000000) as E by done. destruct (in_time t) as (? & ? & Et); [lia|].
  assert ((t / NsPerSecond * NsPerSecond + NsPerSecond) / NsPerSecond = t / NsPerSecond + 1) as Hd.
  { replace (_ + _) with ((t / NsPerSecond + 1) * NsPerSecond) by lia. by rewrite Z.div_mul. }
  unfold second_of, stamp_of. rewrite bytes_lt_app by (by rewrite !length_digits). rewrite Hd.
  rewrite digits_mono; [done|lia|]. apply Z.le_lt_trans with ((t + NsPerSecond) / NsPerSecond).
  - replace (t + NsPerSecond) with (t + 1 * NsPerSecond) by lia. rewrite Z.div_add by done. lia.
  - destruct (in_time (t + NsPerSecond)) as (? & _); lia.
Qed.

#[refine] #[local] Instance clock : RotationTime := {|
  FormatStamp := stamp_of;
  ParseStamp s := if (length s =? 20)%nat then Some (value (take 10 s) * NsPerSecond + value (drop 11 s)) else None;
  FormatSecond := second_of;
  ParseSecond s := if (length s =? 11)%nat then Some (value (take 10 s) * NsPerSecond) else None;
  last_instant := end_of_time |}.
Proof.
  - intros t. unfold stamp_of. cbn [digits app]. done.
  - exact stamp_of_mono.
  - intros t Ht. destruct (in_time t Ht) as (? & ? & Et). unfold stamp_of. rewrite !length_app, !length_digits.
    change (10 + (length (B ".") + 9) =? 20)%nat with true. cbv iota.
    rewrite take_app_length' by by rewrite length_digits. rewrite app_assoc, drop_app_length' by (by rewrite length_app, length_digits).
    rewrite !value_digits by done. by f_equal.
  - intros t Ht. destruct (in_time t Ht) as (? & ? & Et). unfold second_of. rewrite !length_app, !length_digits.
    change (10 + length (B "Z") =? 20)%nat with false. change (10 + length (B "Z") =? 11)%nat with true. cbv iota.
    rewrite take_app_length' by by rewrite length_digits. by rewrite value_digits.
  - exact second_of_before.
  - intros t _ E. assert ("Z"%char ∈ trim_space (second_of t)) as Hz.
    { apply trim_space_keeps; [apply elem_of_app; right; left|]. by eapply bool_decide_eq_false_1; vm_compute. }
    rewrite E in Hz. by apply elem_of_nil in Hz.
Defined.

Definition row (id : string) (stamp : option bytes) (count : option Z) : account :=
  MkAccount (B id) (B "openai") 1 [] stamp count.

(** Two accounts that served, the first in a legacy stamp, and a new one. *)
Definition table : accounts :=
  [row "a" (Some (stamp_of 1700000005000000000)) (Some 2); row "b" (Some (second_of 1700000001000000000)) (Some 1); row "c" None None].

Definition in_pool (a : account) : Prop := Provider a = B "openai" ∧ IsActive a = 1.

Definition frozen : list Z := replicate 7 1700000004000000000.

Lemma table_queue : represents (filter in_pool table) [B "c"; B "b"; B "a"].
Proof.
  assert (filter in_pool table = table) as -> by by vm_compute. split.
  - apply (bool_decide_unpack _). by vm_compute.
  - apply (bool_decide_unpack _). by vm_compute.
  - intros i j x y Hij Hx Hy.
    destruct i as [|[|[|i]]], j as [|[|[|j]]]; try lia; cbn in Hx, Hy; try done; injection Hx as <-; injection Hy as <-.
    + exists 2%nat, (row "c" None None), 1%nat. by eexists.
    + exists 2%nat, (row "c" None None), 0%nat. by eexists.
    + exists 1%nat. eexists _, 0%nat, _. by vm_compute.
Qed.

Lemma round_robin_witness :
  serve_turns in_pool frozen 2 table = Some (map B ["c"; "c"; "b"; "b"; "a"; "a"; "c"]%string) ∧
  (serve_turns in_pool frozen 2 table ≫= lookup 3%nat) = Some (B "b").
Proof.
  split; [by vm_compute|].
  transitivity ([B "c"; B "b"; B "a"] !! ((3 `div` 2) `mod` 3)%nat); [|by vm_compute].
  apply (round_robin_serves_in_turn in_pool 2 frozen 1800000000000000000 table [B "c"; B "b"; B "a"] 3).
  - done.
  - lia.
  - apply (bool_decide_unpack _). by vm_compute.
  - exact table_queue.
  - by vm_compute.
  - by vm_compute.
  - apply Forall_cons_2; [|apply Forall_cons_2; [|apply Forall_cons_2; [done|constructor]]].
    + exists 1700000005000000000. split; [lia|by left].
    + exists 1700000001000000000. split; [lia|by right].
  - unfold frozen. cbn [replicate]. repeat (apply Forall_cons_2; [lia|]). constructor.
  - by vm_compute.
  - cbn. lia.
Defined.

End Sample.
