(* ===== verification/Accounts.v ===== *)
(** * Selection of the account that serves a request
    ([internal/handlers/chat/connections.go], [force_fallback.go],
    [internal/db/accounts.go], [accounts_oauth_lock.go])

    Cooldowns and locks in the data of a connection, the eligibility filters,
    the pin, the strategy, the forced fallback and the data handed to the
    request. The database is the table of rows; reads succeed, and a call reads
    one clock value. *)

From S2P Require Import Prelude GoRegexp Json GoText Rotation Resolution.

(** A row is qualified where [Resolution] has a field of the same name. *)
Abbreviation Provider := Rotation.Provider.

(** ** The data of a connection *)

Section Blobs.
Context `{JsonCodec} `{RotationTime}.

Definition parseConnData (rawData : bytes) : option object :=
  if bool_decide (rawData = []) then None
  else match unmarshal rawData with Some (JObj m) => Some m | Some JNull => Some [] | _ => None end.

(** [time.RFC3339] is the layout of [ParseSecond]. *)
Definition readTimestampField (raw : object) (key : string) : option Z :=
  match obj_get (B key) raw with
  | JStr value => if bool_decide (trim_space value = []) then None else ParseSecond value
  | _ => None
  end.

Definition ConnectionCooldownUntil (rawData : bytes) : option Z :=
  raw ← parseConnData rawData; readTimestampField raw "rateLimitedUntil".
Definition ConnectionOAuthLockUntil (rawData : bytes) : option Z :=
  raw ← parseConnData rawData; readTimestampField raw "oauthLockedUntil".

Definition ConnectionBlockedUntil (rawData : bytes) : option Z :=
  raw ← parseConnData rawData;
  let earliest := readTimestampField raw "rateLimitedUntil" in
  match readTimestampField raw "oauthLockedUntil", earliest with
  | Some until, None => Some until
  | Some until, Some e => if until <? e then Some until else earliest
  | None, _ => earliest
  end.

Definition oauthLockBaseDelay : Z := 300 * NsPerSecond.
Definition oauthLockMaxDelay : Z := 24 * 3600 * NsPerSecond.
Definition oauthLockMaxShift : Z := 16.

Definition OAuthLockDelay (failures : Z) : Z :=
  let failures := if failures <? 1 then 1 else failures in
  let failures := if oauthLockMaxShift <? failures then oauthLockMaxShift else failures in
  let delay := int64 (Z.shiftl oauthLockBaseDelay (failures - 1)) in
  if oauthLockMaxDelay <? delay then oauthLockMaxDelay else delay.

Definition row_by_id (table : accounts) (id : bytes) : option account := List.find (λ a, bool_decide (ID a = id)) table.

Definition IsConnectionModelLocked (now : Z) (table : accounts) (connID model : bytes) : bool :=
  match row_by_id table connID with
  | None => false
  | Some a =>
      match unmarshal (Data a) with
      | Some (JObj raw) =>
          match obj_get (B "modelLock_" ++ model) raw with
          | JStr str => if bool_decide (str = []) then false
                        else match ParseSecond str with Some t => now <? t | None => false end
          | _ => false
          end
      | _ => false
      end
  end.

Definition GetProviderConnections (table : accounts) (provider : bytes) : accounts :=
  filter (λ a, (provider ≠ [] → Provider a = provider) ∧ IsActive a = 1) table.

Definition IsProviderAvailable (now : Z) (table : accounts) (provider model : bytes) : bool :=
  if bool_decide (provider = []) then true
  else match GetProviderConnections table provider with
       | [] => true
       | conns => existsb (λ c, negb (IsConnectionModelLocked now table (ID c) model)) conns
       end.

Definition first_nonempty (l : list json) : bytes :=
  match List.find (λ j, match j with JStr (_ :: _) => true | _ => false end) l with Some (JStr s) => s | _ => [] end.

Definition extractAssignedModel (dataStr : bytes) : bytes :=
  match parseConnData dataStr with
  | None => []
  | Some m =>
      let psd := match obj_get (B "providerSpecificData") m with JObj p => p | _ => [] end in
      first_nonempty [obj_get (B "assignedModel") m; obj_get (B "freebuffModel") m;
                      obj_get (B "assignedModel") psd; obj_get (B "freebuffModel") psd]
  end.

(** The fields of [ConnectionData]. *)
Record ConnectionData := MkData {
  APIKey : bytes; AccessToken : bytes; BaseURL : bytes; cd_ProxyPoolID : bytes;
  ConnectionProxyEnabled : bool; ConnectionProxyURL : bytes; ConnectionNoProxy : bytes; StrictProxy : bool;
  ProviderSpecificData : object
}.

Definition bool_field (k : bytes) (m : object) : option bool :=
  match obj_get k m with JNull => Some false | JBool b => Some b | _ => None end.

Definition decodeConnectionData (text : bytes) : option ConnectionData :=
  j ← unmarshal text;
  m ← as_struct j;
  key ← str_field (B "apiKey") m; token ← str_field (B "accessToken") m; url ← str_field (B "baseUrl") m;
  pool ← str_field (B "proxyPoolId") m; enabled ← bool_field (B "connectionProxyEnabled") m;
  proxy ← str_field (B "connectionProxyUrl") m; noproxy ← str_field (B "connectionNoProxy") m;
  strict ← bool_field (B "strictProxy") m; psd ← obj_field (B "providerSpecificData") m;
  Some (MkData key token url pool enabled proxy noproxy strict psd).

Definition no_data : ConnectionData := MkData [] [] [] [] false [] [] false [].

Definition with_pool (pool : bytes) (d : ConnectionData) : ConnectionData :=
  MkData (APIKey d) (AccessToken d) (BaseURL d) pool (ConnectionProxyEnabled d) (ConnectionProxyURL d)
    (ConnectionNoProxy d) (StrictProxy d) (ProviderSpecificData d).
Definition with_url (url : bytes) (d : ConnectionData) : ConnectionData :=
  MkData (APIKey d) (AccessToken d) url (cd_ProxyPoolID d) (ConnectionProxyEnabled d) (ConnectionProxyURL d)
    (ConnectionNoProxy d) (StrictProxy d) (ProviderSpecificData d).

(** The pool and the URL the dashboard stores in [providerSpecificData]. *)
Definition hydrate (d : ConnectionData) : ConnectionData :=
  let d := if negb (bool_decide (cd_ProxyPoolID d = [])) then d
           else match obj_get (B "proxyPoolId") (ProviderSpecificData d) with
                | JStr poolID => if bool_decide (poolID = []) || bool_decide (poolID = B "__none__") then d else with_pool poolID d
                | _ => d
                end in
  if negb (bool_decide (BaseURL d = [])) then d
  else match obj_get (B "baseUrl") (ProviderSpecificData d) with
       | JStr override => if bool_decide (trim_space override = []) then d else with_url (trim_space override) d
       | _ => d
       end.

End Blobs.

(** ** Settings and the process *)

Record SettingsData := MkSettings {
  FallbackStrategy : bytes; StickyRoundRobinLimit : Z; ForceFallback : bool;
  ProviderStrategies : gmap bytes ProviderStrategy
}.

Definition no_strategy : ProviderStrategy := MkStrategy [] [] 0 false [] [].

(** The rows, the round-robin cursors of the proxy pools, and the ids of the
    active pools that have a URL. *)
Record store := MkStore { st_table : accounts; poolRotationCursors : gmap bytes Z; ActivePoolIDs : list bytes }.

(** What a selection reads besides the store: the provider registry, the quota
    caches, the models an account pins, and the environment. *)
Class Registry := {
  IsNoAuth : bytes → bool;                         (* [KnownProviders[id].NoAuth] *)
  GetProviderAlias : bytes → bytes;
  NormalizeAntigravityModel : bytes → bytes;
  IsAntigravityModelBlocked : bytes → bytes → bool;
  IsCodexConnectionExhausted : bytes → bool;
  EnabledModels : bytes → list bytes;
  FORCE_FALLBACK_ON_ALL_UNAVAILABLE : bytes
}.

Section Select.
Context `{HJ : JsonCodec} `{HT : RotationTime} `{HU : UnicodeCase} `{HR : Registry}.

Definition CredentialFallbacks (provider : bytes) : option bytes :=
  (λ e, B e.2) <$> List.find (λ e, bool_decide (B e.1 = provider))
    [("ollama-search", "ollama"); ("zai-search", "glm"); ("cline", "clinepass"); ("clinepass", "cline")]%string.

Definition IsNoAuthProvider (provider : bytes) : bool := IsNoAuth (resolveProviderAlias provider).

Definition proxyPoolCounterpart (provider : bytes) : bytes :=
  if bool_decide (provider = B "cline") then B "clinepass"
  else if bool_decide (provider = B "clinepass") then B "cline" else [].

Definition add_key (keys : list bytes) (key : bytes) : list bytes :=
  if bool_decide (key = []) || bool_decide (key ∈ keys) then keys else keys ++ [key].

Definition providerStrategyKeys (provider : bytes) : list bytes :=
  let keys := add_key [provider] (GetProviderAlias provider) in
  let canon := resolveProviderAlias provider in
  let keys := if bool_decide (canon = []) then keys else add_key (add_key keys canon) (GetProviderAlias canon) in
  let counterpart := proxyPoolCounterpart provider in
  if bool_decide (counterpart = []) then keys
  else add_key (add_key keys counterpart) (GetProviderAlias counterpart).

Definition IsProxyPoolRotation (s : bytes) : bool :=
  bool_decide (to_lower (trim_space s) ∈ [B "round-robin"; B "roundrobin"; B "random"]).

(** [draw] is the random number; the cursor wraps at 64 bits. *)
Definition rotatedActiveProxyPool (draw : nat) (provider strategy : bytes) (s : store) : store * bytes :=
  match ActivePoolIDs s with
  | [] => (s, [])
  | ids =>
      if bool_decide (to_lower (trim_space strategy) = B "random") then (s, nth (draw mod length ids) ids [])
      else
        let key := resolveProviderAlias provider in
        let idx := default 0 (poolRotationCursors s !! key) in
        (MkStore (st_table s) (<[ key := (idx + 1) mod 2 ^ 64 ]> (poolRotationCursors s)) (ActivePoolIDs s),
         nth (Z.to_nat (idx mod zlen ids)) ids [])
  end.

Definition scan_strategy (acc : bytes * bytes) (strat : ProviderStrategy) : bytes * bytes :=
  let '(singleID, rotate) := acc in
  (if bool_decide (singleID = []) && negb (bool_decide (ProxyPoolID strat = [])) && negb (bool_decide (ProxyPoolID strat = B "__none__"))
   then ProxyPoolID strat else singleID,
   if bool_decide (rotate = []) && IsProxyPoolRotation (ProxyRotateStrategy strat) then ProxyRotateStrategy strat else rotate).

Definition ResolveProviderProxyPoolID (draw : nat) (settings : option SettingsData) (provider : bytes) (s : store) : store * bytes :=
  match settings with
  | None => (s, [])
  | Some settings =>
      let '(singleID, rotate) :=
        foldl scan_strategy ([], []) (omap (λ p, ProviderStrategies settings !! p) (providerStrategyKeys provider)) in
      if negb (bool_decide (rotate = [])) && IsNoAuthProvider provider then
        let '(s, id) := rotatedActiveProxyPool draw provider rotate s in
        (s, if bool_decide (id = []) then singleID else id)
      else (s, singleID)
  end.

Definition applyProviderProxyPool (draw : nat) (settings : option SettingsData) (connData : ConnectionData) (provider : bytes)
    (s : store) : store * ConnectionData :=
  if negb (bool_decide (cd_ProxyPoolID connData = [])) then (s, connData)
  else let '(s, poolID) := ResolveProviderProxyPoolID draw settings provider s in
       (s, if bool_decide (poolID = []) then connData else with_pool poolID connData).

Definition connRotationStrategy (settings : option SettingsData) (provider : bytes) : ProviderStrategy :=
  let found := settings ≫= λ st, ProviderStrategies st !! provider in
  let strat := default no_strategy found in
  let strat := if IsNoAuthProvider provider
               then MkStrategy (ProxyPoolID strat) (ConnRotateStrategy strat) (st_StickyLimit strat)
                      (StrictModelAssignment strat) (ProxyRotateStrategy strat) (ConnRotateStrategy strat)
               else strat in
  match settings with
  | Some st =>
      if (bool_decide (found = None) || bool_decide (RotateStrategy strat = [])) &&
         negb (bool_decide (FallbackStrategy st = [])) && negb (bool_decide (FallbackStrategy st = B "fill-first"))
      then MkStrategy (ProxyPoolID strat) (FallbackStrategy st) (StickyRoundRobinLimit st)
             (StrictModelAssignment strat) (ProxyRotateStrategy strat) (ConnRotateStrategy strat)
      else strat
  | None => strat
  end.

(** *** Filters *)

Definition strict_models (settings : option SettingsData) (provider model : bytes) : bool :=
  negb (bool_decide (model = [])) &&
  match settings ≫= λ st, ProviderStrategies st !! provider with Some strat => StrictModelAssignment strat | None => false end.

Definition filterConnectionsForModel (provider : bytes) (connections : accounts) (model : bytes)
    (settings : option SettingsData) : accounts :=
  if strict_models settings provider model
  then filter (λ c, extractAssignedModel (Data c) = model) connections else connections.

Definition codexAccountServesModel (conn : account) (model : bytes) : bool :=
  if negb (bool_decide (Provider conn = B "codex")) || bool_decide (model = []) then true
  else match EnabledModels (Data conn) with
       | [] => true
       | enabled => bool_decide (model ∈ enabled)
       end.

Definition filterConnectionsByEnabledModels (provider : bytes) (conns : accounts) (model : bytes) : accounts :=
  if negb (bool_decide (provider = B "codex")) || bool_decide (model = []) then conns
  else filter (λ c, codexAccountServesModel c model = true) conns.

Definition canonicalLockModel (provider model : bytes) : bytes :=
  if bool_decide (model = []) then []
  else if bool_decide (provider = B "antigravity") then NormalizeAntigravityModel model else model.

Definition quotaCacheBlocked (provider connectionID model : bytes) : bool :=
  if bool_decide (provider = B "antigravity") then IsAntigravityModelBlocked connectionID model
  else if bool_decide (provider = B "codex") then IsCodexConnectionExhausted connectionID else false.

Definition model_locked (now : Z) (table : accounts) (id provider model : bytes) : bool :=
  let lockKey := canonicalLockModel provider model in
  IsConnectionModelLocked now table id lockKey ||
  (negb (bool_decide (lockKey = model)) && IsConnectionModelLocked now table id model).

Definition connectionModelBlocked (now : Z) (table : accounts) (c : account) (provider model : bytes) : bool :=
  if bool_decide (model = []) then false
  else model_locked now table (ID c) provider model || quotaCacheBlocked provider (ID c) model.

Definition in_cooldown (now : Z) (c : account) : option Z :=
  match ConnectionBlockedUntil (Data c) with Some until => if now <? until then Some until else None | None => None end.

Inductive ineligibility := Disabled | Excluded | Cooldown | ModelLock | QuotaCache | NotEnabled | StrictAssignment.

Definition pinnedConnectionIneligible (now : Z) (table : accounts) (settings : option SettingsData) (conn : account)
    (excludeIDs : list bytes) (model : bytes) : option ineligibility :=
  if negb (IsActive conn =? 1) then Some Disabled
  else if bool_decide (ID conn ∈ excludeIDs) then Some Excluded
  else match in_cooldown now conn with
       | Some _ => Some Cooldown
       | None =>
           if bool_decide (model = []) then None
           else if model_locked now table (ID conn) (Provider conn) model then Some ModelLock
           else if quotaCacheBlocked (Provider conn) (ID conn) model then Some QuotaCache
           else if negb (codexAccountServesModel conn model) then Some NotEnabled
           else match filterConnectionsForModel (Provider conn) [conn] model settings with
                | [] => Some StrictAssignment
                | _ => None
                end
       end.

(** The reasons a probe looks past. *)
Definition bypassable (r : ineligibility) : bool :=
  match r with Cooldown | ModelLock | QuotaCache => true | _ => false end.

Definition equal_fold_true (s : bytes) : bool := bool_decide (to_lower s = B "true").

Definition forceFallbackEnabled (settings : option SettingsData) : bool :=
  match settings with Some st => ForceFallback st | None => false end ||
  equal_fold_true (trim_space FORCE_FALLBACK_ON_ALL_UNAVAILABLE).

Definition sooner (now : Z) (excludeIDs : list bytes) (model : bytes) (best : option (account * Z)) (c : account) : option (account * Z) :=
  if bool_decide (ID c ∈ excludeIDs) || negb (codexAccountServesModel c model) then best
  else match in_cooldown now c with
       | None => best
       | Some until =>
           match best with
           | Some (_, bestUntil) => if until <? bestUntil then Some (c, until) else best
           | None => Some (c, until)
           end
       end.

Definition forceMinCooldownConnection (now : Z) (conns : accounts) (excludeIDs : list bytes) (model : bytes)
    (settings : option SettingsData) : option (account * Z) :=
  if negb (forceFallbackEnabled settings) then None else foldl (sooner now excludeIDs model) None conns.

(** The sweep: the first free candidate, and the ones passed over because they
    cool down, with the earliest end. *)
Fixpoint sweep (now : Z) (probe : bool) (table : accounts) (provider model : bytes) (excludeIDs : list bytes)
    (conns inCooldown : accounts) (until : option Z) : option account * accounts * option Z :=
  match conns with
  | [] => (None, inCooldown, until)
  | c :: conns' =>
      if bool_decide (ID c ∈ excludeIDs) || negb (codexAccountServesModel c model) ||
         (negb probe && connectionModelBlocked now table c provider model)
      then sweep now probe table provider model excludeIDs conns' inCooldown until
      else match (if probe then None else in_cooldown now c) with
           | Some u =>
               sweep now probe table provider model excludeIDs conns' (inCooldown ++ [c])
                 (match until with Some v => if u <? v then Some u else until | None => Some u end)
           | None => (Some c, inCooldown, until)
           end
  end.

Inductive select_error :=
  | NotFound | WrongProvider | NoActive | NoAssigned | NoEnabled | AllInCooldown (until : Z) | AllExcluded | BadData | Panic.

(** The virtual account of a provider that needs none. *)
Definition noauth_account (provider : bytes) : account := MkAccount (B "noauth") provider 1 [] None None.

Definition finish (draw : nat) (settings : option SettingsData) (provider : bytes) (conn : account) (s : store)
    : store * (account * ConnectionData + select_error) :=
  match (if bool_decide (Data conn = []) then Some no_data else decodeConnectionData (Data conn)) with
  | None => (s, inr BadData)
  | Some d =>
      let '(s, d) := applyProviderProxyPool draw settings (hydrate d) provider s in (s, inl (conn, d))
  end.

Definition candidates (s : store) (provider : bytes) : accounts :=
  match GetProviderConnections (st_table s) provider with
  | [] => match CredentialFallbacks provider with
          | Some fallbackProvider => GetProviderConnections (st_table s) fallbackProvider
          | None => []
          end
  | conns => conns
  end.

(** The rotation of the candidates, when there is a choice and a strategy. *)
Definition rotate_candidates (now : Z) (fails : bool) (draw : nat) (settings : option SettingsData) (provider : bytes)
    (connections : accounts) (s : store) : option (store * accounts) :=
  let strat := connRotationStrategy settings provider in
  if (1 <? length connections)%nat && bool_decide (is_Some settings) &&
     negb (bool_decide (RotateStrategy strat = [])) && negb (bool_decide (RotateStrategy strat = B "none"))
  then '(table, conns) ← applyConnectionStrategy now fails draw (st_table s) connections strat;
       Some (MkStore table (poolRotationCursors s) (ActivePoolIDs s), conns)
  else Some (s, connections).

Definition select (now : Z) (fails probe : bool) (draw : nat) (settings : option SettingsData) (provider : bytes)
    (excludeIDs : list bytes) (model : bytes) (s : store) : store * (account * ConnectionData + select_error) :=
  match candidates s provider with
  | [] =>
      if IsNoAuth provider then
        let '(s, pool) := ResolveProviderProxyPoolID draw settings provider s in
        (s, inl (noauth_account provider, with_pool pool (MkData [] (B "public") [] [] false [] [] false [])))
      else (s, inr NoActive)
  | connections =>
      match filterConnectionsForModel provider connections model settings with
      | [] => (s, inr NoAssigned)
      | connections =>
          match filterConnectionsByEnabledModels provider connections model with
          | [] => (s, inr NoEnabled)
          | connections =>
              match rotate_candidates now fails draw settings provider connections s with
              | None => (s, inr Panic)
              | Some (s, connections) =>
                  match sweep now probe (st_table s) provider model excludeIDs connections [] None with
                  | (Some conn, _, _) => finish draw settings provider conn s
                  | (None, inCooldown, cooldownUntil) =>
                      match forceMinCooldownConnection now inCooldown excludeIDs model settings with
                      | Some (forced, _) => finish draw settings provider forced s
                      | None => (s, inr match cooldownUntil with Some u => AllInCooldown u | None => AllExcluded end)
                      end
                  end
              end
          end
      end
  end.

Definition getBestConnection (now : Z) (fails probe : bool) (draw : nat) (settings : option SettingsData)
    (provider connectionID : bytes) (excludeIDs : list bytes) (model : bytes) (s : store)
    : store * (account * ConnectionData + select_error) :=
  if bool_decide (connectionID = []) then select now fails probe draw settings provider excludeIDs model s
  else match row_by_id (st_table s) connectionID with
       | None => (s, inr NotFound)
       | Some conn =>
           if negb (bool_decide (Provider conn = provider)) then (s, inr WrongProvider)
           else match pinnedConnectionIneligible now (st_table s) settings conn excludeIDs model with
                | None => finish draw settings provider conn s
                | Some reason =>
                    if probe && (IsActive conn =? 1) && negb (bool_decide (ID conn ∈ excludeIDs)) && bypassable reason
                    then finish draw settings provider conn s
                    else select now fails probe draw settings provider excludeIDs model s
                end
       end.

End Select.

(** ** Which account is selected *)

Section Facts.
Context `{HJ : JsonCodec} `{HT : RotationTime} `{HU : UnicodeCase} `{HR : Registry}.

(** The columns a rotation leaves alone. *)
Definition same_row (a b : account) : Prop :=
  ID a = ID b ∧ Provider a = Provider b ∧ IsActive a = IsActive b ∧ Data a = Data b.

#[local] Instance same_row_equiv : Equivalence same_row.
Proof. unfold same_row. split; [intros ?|intros ???|intros ????? ]; naive_solver congruence. Qed.

Lemma same_row_stamped stamp n a : same_row a (stamped stamp n a).
Proof. by split_and!. Qed.

(** The tests of a candidate read only these columns. *)
Lemma same_row_tests a b : same_row a b →
  (∀ model, codexAccountServesModel a model = codexAccountServesModel b model) ∧
  (∀ now, in_cooldown now a = in_cooldown now b) ∧
  (∀ now table p model, connectionModelBlocked now table a p model = connectionModelBlocked now table b p model).
Proof.
  destruct a as [i1 p1 a1 d1 l1 n1], b as [i2 p2 a2 d2 l2 n2]. intros (H1 & H2 & H3 & H4). cbn in H1, H2, H3, H4. subst.
  done.
Qed.

Definition same_locks (t t' : accounts) : Prop :=
  ∀ now id p model, model_locked now t id p model = model_locked now t' id p model.

Lemma row_by_id_touch (t : accounts) x stamp n id :
  Data <$> row_by_id (update_row x (stamped stamp n) t) id = Data <$> row_by_id t id.
Proof.
  induction t as [|a t IH]; [done|]. unfold row_by_id, update_row in *. cbn [map List.find].
  destruct (bool_decide (ID a = x)); cbn [stamped ID]; destruct (bool_decide (ID a = id)); done || exact IH.
Qed.

Lemma touch_same_locks (t : accounts) x stamp n : same_locks t (update_row x (stamped stamp n) t).
Proof.
  intros now id p model. unfold model_locked. f_equal; [|f_equal]; unfold IsConnectionModelLocked;
    pose proof (row_by_id_touch t x stamp n id) as E; destruct (row_by_id t id), (row_by_id _ id); try done;
    injection E as E; by rewrite E.
Qed.

(** A strategy permutes the candidates and writes only rotation columns. *)
Definition rearranged (l l' : accounts) : Prop :=
  (∀ c, c ∈ l' → ∃ c0, c0 ∈ l ∧ same_row c0 c) ∧ (∀ c0, c0 ∈ l → ∃ c, c ∈ l' ∧ same_row c0 c).

Lemma rearranged_refl l : rearranged l l.
Proof. split; intros c Hc; exists c; done. Qed.

Lemma rearranged_perm l l' : l ≡ₚ l' → rearranged l l'.
Proof. intros Hp. split; intros c Hc; exists c; (split; [|done]); [by rewrite Hp|by rewrite <- Hp]. Qed.

Lemma selectByRecency_rows now fails table conns k table' conns' :
  selectByRecency now fails table conns k = Some (table', conns') → same_locks table table' ∧ rearranged conns conns'.
Proof.
  unfold selectByRecency. destruct (choose conns k) as [[r n]|]; [|done]. cbn [mbind option_bind].
  destruct (conns !! r) as [c|] eqn:Ec; [|done]. cbn [mbind option_bind].
  unfold TouchConnectionRotation, stampConnection. intros Hs.
  assert (∃ stamp, conns' = stamped stamp n c :: take r conns ++ drop (S r) conns) as [stamp ->]
    by (destruct fails; injection Hs as _ <-; by eexists).
  split.
  - destruct fails; injection Hs as <- _; [done|apply touch_same_locks].
  - rewrite <- (take_drop_middle _ _ _ Ec) at 1. split.
    + intros c' [->|Hin]%elem_of_cons; [exists c; split; [set_solver|apply same_row_stamped]|].
      exists c'. split; [|done]. set_solver.
    + intros c0 [Hin|[->|Hin]%elem_of_cons]%elem_of_app.
      * exists c0. split; [set_solver|done].
      * exists (stamped stamp n c). split; [left|apply same_row_stamped].
      * exists c0. split; [set_solver|done].
Qed.

Lemma rotate_candidates_rows now fails draw settings provider conns s s' conns' :
  rotate_candidates now fails draw settings provider conns s = Some (s', conns') →
  same_locks (st_table s) (st_table s') ∧ rearranged conns conns'.
Proof.
  unfold rotate_candidates. destruct (_ && _); [|intros [= <- <-]; split; [done|apply rearranged_refl]].
  destruct (applyConnectionStrategy _ _ _ _ _ _) as [[table conns2]|] eqn:Ea; [|done]. intros [= <- <-]. cbn [st_table].
  unfold applyConnectionStrategy in Ea. destruct (_ <=? _)%nat; [injection Ea as <- <-; split; [done|apply rearranged_refl]|].
  destruct (_ || _); [by eapply selectByRecency_rows|].
  case_bool_decide; injection Ea as <- <-; (split; [done|]); [|apply rearranged_refl].
  apply rearranged_perm. unfold rotate. rewrite Permutation_app_comm. by rewrite take_drop.
Qed.

(** *** The sweep and the forced pick *)

Definition passes now (probe : bool) table provider model (excludeIDs : list bytes) (c : account) : Prop :=
  ID c ∉ excludeIDs ∧ codexAccountServesModel c model = true ∧
  (probe = false → connectionModelBlocked now table c provider model = false).

Lemma sweep_spec now probe table provider model excludeIDs conns : ∀ cd until,
  match sweep now probe table provider model excludeIDs conns cd until with
  | (Some c, _, _) => c ∈ conns ∧ passes now probe table provider model excludeIDs c ∧ (probe = true ∨ in_cooldown now c = None)
  | (None, cd', _) => (∀ c, c ∈ cd' → c ∈ cd ∨ c ∈ conns ∧ passes now probe table provider model excludeIDs c) ∧
      (∀ c, c ∈ conns → passes now probe table provider model excludeIDs c → c ∈ cd' ∧ is_Some (in_cooldown now c)) ∧
      (∀ c, c ∈ cd → c ∈ cd')
  end.
Proof.
  induction conns as [|c conns IH]; intros cd until; cbn [sweep].
  { split; [by left|]. split; [by intros c ?%elem_of_nil|done]. }
  destruct (_ || (_ && _)) eqn:Et.
  - specialize (IH cd until). destruct (sweep _ _ _ _ _ _ _ _ _) as [[[c'|] cd'] u].
    + destruct IH as (H1 & H2). split; [by right|done].
    + destruct IH as (H1 & H2 & H3). split; [|split; [|done]].
      * intros c' [?|[? ?]]%H1; [by left|right; split; [by right|done]].
      * intros c' [->|Hin]%elem_of_cons Hp; [|by apply H2]. exfalso. destruct Hp as (Hx & Hs & Hb).
        rewrite bool_decide_eq_false_2, Hs in Et by done. cbn [negb orb] in Et. apply andb_prop in Et as [Hpr Hbl].
        apply negb_true_iff in Hpr. by rewrite Hb in Hbl.
  - assert (passes now probe table provider model excludeIDs c) as Hp.
    { bsplit. split; [done|]. split; [done|]. intros ->. match goal with H : negb false && _ = false |- _ => exact H end. }
    destruct (if probe then None else in_cooldown now c) as [u|] eqn:Eu.
    + destruct probe; [done|]. specialize (IH (cd ++ [c]) (match until with Some v => if u <? v then Some u else until | None => Some u end)).
      destruct (sweep _ _ _ _ _ _ _ _ _) as [[[c'|] cd'] u'].
      * destruct IH as (H1 & H2). split; [by right|done].
      * destruct IH as (H1 & H2 & H3). split; [|split].
        -- intros c' Hc'. apply H1 in Hc' as [Hc'|[? ?]]; [|right; split; [by right|done]].
           apply elem_of_app in Hc' as [?|Hc']; [by left|]. apply list_elem_of_singleton in Hc' as ->. right. split; [left|done].
        -- intros c' [->|Hin]%elem_of_cons Hpc; [|by apply H2]. split; [apply H3; set_solver|by rewrite Eu].
        -- intros c' Hc'. apply H3. set_solver.
    + split; [left|]. split; [done|]. destruct probe; [by left|by right].
Qed.

Lemma sooner_cases now excludeIDs model best c :
  (∃ v, ID c ∉ excludeIDs ∧ codexAccountServesModel c model = true ∧ in_cooldown now c = Some v ∧
     (∀ b u, best = Some (b, u) → v < u) ∧ sooner now excludeIDs model best c = Some (c, v)) ∨
  (sooner now excludeIDs model best c = best ∧
     ∀ v, ID c ∉ excludeIDs → codexAccountServesModel c model = true → in_cooldown now c = Some v →
       ∃ b u, best = Some (b, u) ∧ u <= v).
Proof.
  unfold sooner. destruct (bool_decide (ID c ∈ excludeIDs) || negb (codexAccountServesModel c model)) eqn:Et.
  { right. split; [done|]. intros v Hx Hs _. by rewrite bool_decide_eq_false_2, Hs in Et. }
  bsplit. destruct (in_cooldown now c) as [v|] eqn:Ev; [|right; by split].
  destruct best as [[b u]|]; [case (Z.ltb_spec v u); intros Hv|].
  - left. exists v. split_and!; [done..| |done]. intros b' u' [= <- <-]. done.
  - right. split; [done|]. intros v' _ _ [= <-]. by exists b, u.
  - left. by exists v.
Qed.

Lemma forced_spec now excludeIDs model conns : ∀ best,
  (∀ b u, best = Some (b, u) → in_cooldown now b = Some u) →
  match foldl (sooner now excludeIDs model) best conns with
  | Some (b, u) => (best = Some (b, u) ∨ b ∈ conns ∧ ID b ∉ excludeIDs ∧ codexAccountServesModel b model = true) ∧
      in_cooldown now b = Some u ∧ (∀ b' u', best = Some (b', u') → u <= u') ∧
      (∀ c v, c ∈ conns → ID c ∉ excludeIDs → codexAccountServesModel c model = true → in_cooldown now c = Some v → u <= v)
  | None => best = None
  end.
Proof.
  induction conns as [|c conns IH]; intros best Hbest; cbn [foldl].
  { destruct best as [[b u]|]; [|done].
    split_and!; [by left|by apply Hbest|by intros ? ? [= <- <-]|by intros ? ? ?%elem_of_nil]. }
  destruct (sooner_cases now excludeIDs model best c) as [(v & Hx & Hs & Hv & Hlt & E)|[E Hskip]]; rewrite E.
  - specialize (IH (Some (c, v))). destruct (foldl _ (Some (c, v)) conns) as [[b u]|].
    2:{ by discriminate IH; intros ? ? [= <- <-]. }
    destruct IH as (H1 & H2 & H3 & H4); [by intros ? ? [= <- <-]|]. specialize (H3 c v eq_refl). split_and!; [|done| |].
    + right. destruct H1 as [[= -> ->]|(? & ? & ?)]; (split_and!; [|done..]); [left|by right].
    + intros b' u' Hb. specialize (Hlt b' u' Hb). lia.
    + intros c' v' [->|Hin]%elem_of_cons Hx' Hs' Hv'; [|by eapply H4]. rewrite Hv in Hv'. by injection Hv' as <-.
  - specialize (IH best Hbest). destruct (foldl _ best conns) as [[b u]|]; [|done].
    destruct IH as (H1 & H2 & H3 & H4). split_and!; [|done|done|].
    + destruct H1 as [?|(? & ? & ?)]; [by left|right]. split_and!; [by right|done..].
    + intros c' v [->|Hin]%elem_of_cons Hx Hs Hv; [|by eapply H4].
      destruct (Hskip v Hx Hs Hv) as (b' & u' & Hb & Hle). specialize (H3 b' u' Hb). lia.
Qed.

(** *** The selected account *)

(** What must hold of a candidate for a request that is not a probe. *)
Definition eligible now table settings provider model (excludeIDs : list bytes) (c : account) : Prop :=
  IsActive c = 1 ∧ passes now false table provider model excludeIDs c ∧
  (strict_models settings provider model = true → extractAssignedModel (Data c) = model).

Definition soonest now settings (pool : account → Prop) (row : account) : Prop :=
  ∃ u, forceFallbackEnabled settings = true ∧ in_cooldown now row = Some u ∧
    ∀ other, pool other → ∃ v, in_cooldown now other = Some v ∧ u <= v.

Lemma candidates_active s provider c : c ∈ candidates s provider → IsActive c = 1.
Proof.
  unfold candidates. destruct (GetProviderConnections (st_table s) provider) as [|a l] eqn:E.
  - destruct (CredentialFallbacks provider); [|by intros ?%elem_of_nil]. by intros [[_ ?] _]%list_elem_of_filter.
  - rewrite <- E. by intros [[_ ?] _]%list_elem_of_filter.
Qed.

Lemma pool_spec provider conns model settings c :
  c ∈ filterConnectionsByEnabledModels provider (filterConnectionsForModel provider conns model settings) model →
  c ∈ conns ∧ (strict_models settings provider model = true → extractAssignedModel (Data c) = model).
Proof.
  unfold filterConnectionsByEnabledModels, filterConnectionsForModel. intros Hc.
  assert (c ∈ (if strict_models settings provider model then filter (λ c, extractAssignedModel (Data c) = model) conns else conns)) as Hf
    by (destruct (_ || _); [done|by apply list_elem_of_filter in Hc as [_ ?]]).
  destruct (strict_models settings provider model); [|by split]. apply list_elem_of_filter in Hf as [? ?]. by split.
Qed.

Lemma pool_complete provider conns model settings c :
  c ∈ conns → codexAccountServesModel c model = true →
  (strict_models settings provider model = true → extractAssignedModel (Data c) = model) →
  c ∈ filterConnectionsByEnabledModels provider (filterConnectionsForModel provider conns model settings) model.
Proof.
  intros Hc Hs Hm. unfold filterConnectionsByEnabledModels, filterConnectionsForModel.
  assert (c ∈ (if strict_models settings provider model then filter (λ c, extractAssignedModel (Data c) = model) conns else conns)) as Hf
    by (destruct (strict_models settings provider model); [apply list_elem_of_filter; by auto|done]).
  destruct (_ || _); [done|]. by apply list_elem_of_filter.
Qed.

Lemma finish_row draw settings provider conn s s' c d : finish draw settings provider conn s = (s', inl (c, d)) → c = conn.
Proof.
  unfold finish. destruct (if bool_decide _ then _ else _); [|done].
  destruct (applyProviderProxyPool _ _ _ _ _). by intros [= _ <- _].
Qed.

Lemma passes_same now t t' p model excl a b : same_row a b → same_locks t t' →
  passes now false t' p model excl b → passes now false t p model excl a.
Proof.
  intros Hr Hl (H1 & H2 & H3). destruct (same_row_tests a b Hr) as (E1 & E2 & E3). destruct Hr as (Ei & _).
  split_and!; [by rewrite Ei|by rewrite E1|]. intros _. rewrite E3. specialize (H3 eq_refl).
  unfold connectionModelBlocked in *. by rewrite Hl.
Qed.

Lemma same_locks_sym t t' : same_locks t t' → same_locks t' t.
Proof. intros Hl now id p model. by rewrite Hl. Qed.

Lemma select_spec now fails draw settings provider excludeIDs model s s' conn d :
  select now fails false draw settings provider excludeIDs model s = (s', inl (conn, d)) →
  (conn = noauth_account provider ∧ IsNoAuth provider = true ∧ candidates s provider = []) ∨
  ∃ row, row ∈ candidates s provider ∧ same_row row conn ∧
    eligible now (st_table s) settings provider model excludeIDs row ∧
    (in_cooldown now row = None ∨ soonest now settings (λ other, other ∈ candidates s provider ∧
       eligible now (st_table s) settings provider model excludeIDs other) row).
Proof.
  unfold select. destruct (candidates s provider) as [|c0 cs] eqn:Ec.
  { destruct (IsNoAuth provider); [|done]. destruct (ResolveProviderProxyPoolID _ _ _ _). intros [= _ <- _]. by left. }
  rewrite <- Ec. intros Hsel. right.
  pose proof (pool_spec provider (candidates s provider) model settings) as Hpool.
  pose proof (pool_complete provider (candidates s provider) model settings) as Hall.
  destruct (filterConnectionsForModel provider (candidates s provider) model settings) as [|a l] eqn:Ef; [done|].
  rewrite <- Ef in *. clear Ef a l.
  destruct (filterConnectionsByEnabledModels _ _ model) as [|a l] eqn:Eb in Hsel; [done|]. rewrite <- Eb in Hsel. clear Eb a l.
  set (pool := filterConnectionsByEnabledModels provider (filterConnectionsForModel provider (candidates s provider) model settings) model) in *.
  destruct (rotate_candidates now fails draw settings provider pool s) as [[s1 conns]|] eqn:Er; [|done].
  destruct (rotate_candidates_rows _ _ _ _ _ _ _ _ _ Er) as [Hlocks [Hback Hforth]].
  (* a row of the pool behind a candidate that passes *)
  assert (∀ c, c ∈ conns → passes now false (st_table s1) provider model excludeIDs c → ∃ row, row ∈ candidates s provider ∧
    same_row row c ∧ eligible now (st_table s) settings provider model excludeIDs row) as Hrow.
  { intros c Hc Hp. destruct (Hback c Hc) as (row & Hin & Hsame). exists row. destruct (Hpool row Hin) as [Hcand Hstrict].
    split; [done|]. split; [done|]. split; [by eapply candidates_active|]. split; [by eapply passes_same|done]. }
  pose proof (sweep_spec now false (st_table s1) provider model excludeIDs conns [] None) as Hsw.
  destruct (sweep _ _ _ _ _ _ _ _ _) as [[[c|] cd] u].
  - apply finish_row in Hsel as ->. destruct Hsw as (Hin & Hp & [?|Hfree]); [done|].
    destruct (Hrow c Hin Hp) as (row & Hc & Hsame & Hel). exists row. split_and!; [done..|]. left.
    destruct (same_row_tests row c Hsame) as (_ & E & _). by rewrite E.
  - unfold forceMinCooldownConnection in Hsel. destruct (forceFallbackEnabled settings) eqn:Eforce; [|done]. cbn [negb] in Hsel.
    pose proof (forced_spec now excludeIDs model cd None ltac:(done)) as Hf.
    destruct (foldl _ _ cd) as [[b v]|]; [|done]. apply finish_row in Hsel as ->.
    destruct Hf as ([?|(Hb & Hx & Hs)] & Hv & _ & Hmin); [done|]. destruct Hsw as (Hcd & Hcov & _).
    destruct (Hcd b Hb) as [?%elem_of_nil|[Hin Hp]]; [done|].
    destruct (Hrow b Hin Hp) as (row & Hc & Hsame & Hel). exists row. split_and!; [done..|]. right.
    destruct (same_row_tests row b Hsame) as (_ & E & _). exists v. split; [done|]. split; [by rewrite E|].
    intros other [Hoc (Hact & Hop & Hos)]. destruct Hop as (Hox & Hosv & Hob).
    destruct (Hforth other (Hall other Hoc Hosv Hos)) as (c & Hcin & Hcs).
    assert (passes now false (st_table s1) provider model excludeIDs c) as Hpc.
    { eapply (passes_same _ _ (st_table s)); [by symmetry|by apply same_locks_sym|done]. }
    destruct (Hcov c Hcin Hpc) as [Hccd [v' Hv']]. exists v'.
    destruct (same_row_tests other c Hcs) as (_ & E2 & _). split; [by rewrite E2|].
    destruct Hpc as (? & ? & _). by eapply Hmin.
Qed.

Lemma best_spec now fails draw settings provider connectionID excludeIDs model s s' conn d :
  getBestConnection now fails false draw settings provider connectionID excludeIDs model s = (s', inl (conn, d)) →
  (conn = noauth_account provider ∧ IsNoAuth provider = true ∧ candidates s provider = []) ∨
  ∃ row, row ∈ candidates s provider ∧ same_row row conn ∧
    eligible now (st_table s) settings provider model excludeIDs row ∧
    (in_cooldown now row = None ∨ soonest now settings (λ other, other ∈ candidates s provider ∧
       eligible now (st_table s) settings provider model excludeIDs other) row).
Proof.
  unfold getBestConnection. case_bool_decide; [apply select_spec|].
  destruct (row_by_id (st_table s) connectionID) as [row|] eqn:Er; [|done].
  destruct (bool_decide (Provider row = provider)) eqn:Ep; [|done]. bsplit. cbn [negb].
  unfold row_by_id in Er. apply List.find_some in Er as [Hin _]. rewrite <- list_elem_of_In in Hin.
  unfold pinnedConnectionIneligible. destruct (Z.eqb_spec (IsActive row) 1) as [Eact|]; [|apply select_spec]. cbn [negb].
  destruct (bool_decide (ID row ∈ excludeIDs)) eqn:Ex; [apply select_spec|]. bsplit.
  destruct (in_cooldown now row) as [u|] eqn:Ecool; [apply select_spec|].
  assert (row ∈ candidates s provider) as Hcand.
  { unfold candidates. assert (row ∈ GetProviderConnections (st_table s) provider) as Hg by (by apply list_elem_of_filter).
    destruct (GetProviderConnections _ _); [by apply elem_of_nil in Hg|done]. }
  assert (finish draw settings provider row s = (s', inl (conn, d)) →
    eligible now (st_table s) settings provider model excludeIDs row →
    ∃ row, row ∈ candidates s provider ∧ same_row row conn ∧ eligible now (st_table s) settings provider model excludeIDs row ∧
    (in_cooldown now row = None ∨ soonest now settings (λ other, other ∈ candidates s provider ∧
       eligible now (st_table s) settings provider model excludeIDs other) row)) as Hdone.
  { intros ->%finish_row Hel. exists row. split_and!; [done..|by left]. }
  destruct (bool_decide (model = [])) eqn:Em; bsplit.
  - subst model. intros Hf. right. apply (Hdone Hf). split; [done|]. split; [|done].
    split; [done|]. split; [|done]. unfold codexAccountServesModel. rewrite (bool_decide_eq_true_2 (_ = [])) by done.
    by rewrite orb_true_r.
  - destruct (model_locked now (st_table s) (ID row) (Provider row) model) eqn:El; [apply select_spec|].
    destruct (quotaCacheBlocked (Provider row) (ID row) model) eqn:Eq; [apply select_spec|].
    destruct (codexAccountServesModel row model) eqn:Es; [|apply select_spec]. cbn [negb].
    destruct (filterConnectionsForModel (Provider row) [row] model settings) as [|r l] eqn:Ef; [apply select_spec|].
    intros Hf. right. apply (Hdone Hf). split; [done|]. split.
    + split; [done|]. split; [done|]. intros _. unfold connectionModelBlocked. rewrite bool_decide_eq_false_2 by done.
      by rewrite Ep in El, Eq; rewrite El, Eq.
    + intros Hst. unfold filterConnectionsForModel in Ef. rewrite Ep, Hst in Ef.
      destruct (decide (extractAssignedModel (Data row) = model)); [done|]. by rewrite filter_cons_False, filter_nil in Ef.
Qed.

(** C5. The account a request gets is a row that may serve it: active, of the
    provider (or of the one whose credentials it shares, when it has none), not
    among the excluded ones, enabled for the model, assigned to it under strict
    assignment, without a lock or a spent quota for it; and not cooling down,
    unless the forced fallback takes the one that is free first while every
    other one cools down at least as long. The one exception is the virtual
    account of a provider that needs none. *)
Theorem selected_account_is_eligible now fails draw settings provider connectionID excludeIDs model s s' conn d :
  getBestConnection now fails false draw settings provider connectionID excludeIDs model s = (s', inl (conn, d)) →
  (conn = noauth_account provider ∧ IsNoAuth provider = true ∧ candidates s provider = []) ∨
  ∃ row, row ∈ candidates s provider ∧ same_row row conn ∧
    eligible now (st_table s) settings provider model excludeIDs row ∧
    (in_cooldown now row = None ∨ soonest now settings (λ other, other ∈ candidates s provider ∧
       eligible now (st_table s) settings provider model excludeIDs other) row).
Proof. apply best_spec. Qed.

(** Only the virtual account can be one of the excluded, in a probe too. *)
Lemma select_not_excluded now fails probe draw settings provider excludeIDs model s s' conn d :
  IsNoAuth provider = false → select now fails probe draw settings provider excludeIDs model s = (s', inl (conn, d)) →
  ID conn ∉ excludeIDs.
Proof.
  intros Hna. unfold select. rewrite Hna. destruct (candidates s provider); [done|].
  destruct (filterConnectionsForModel _ _ _ _); [done|]. destruct (filterConnectionsByEnabledModels _ _ _); [done|].
  destruct (rotate_candidates _ _ _ _ _ _ _) as [[s1 conns]|]; [|done].
  pose proof (sweep_spec now probe (st_table s1) provider model excludeIDs conns [] None) as Hs.
  destruct (sweep _ _ _ _ _ _ _ _ _) as [[[c|] cd] until].
  - destruct Hs as (_ & (Hx & _) & _). by intros ->%finish_row.
  - unfold forceMinCooldownConnection. destruct (negb _); [done|].
    pose proof (forced_spec now excludeIDs model cd None ltac:(done)) as Hf.
    destruct (foldl _ None cd) as [[b u]|]; [|done]. destruct Hf as ([?|(_ & Hx & _)] & _); [done|]. by intros ->%finish_row.
Qed.

Lemma pick_not_excluded now fails probe draw settings provider connectionID excludeIDs model s s' conn d :
  IsNoAuth provider = false →
  getBestConnection now fails probe draw settings provider connectionID excludeIDs model s = (s', inl (conn, d)) →
  ID conn ∉ excludeIDs.
Proof.
  intros Hna. unfold getBestConnection. case_bool_decide; [by apply select_not_excluded|].
  destruct (row_by_id _ _) as [row|]; [|done]. destruct (negb _); [done|].
  destruct (pinnedConnectionIneligible _ _ _ _ _ _) as [r|] eqn:Er.
  - destruct (_ && bypassable r) eqn:Eb; [|by apply select_not_excluded]. intros ->%finish_row. by bsplit.
  - intros ->%finish_row. unfold pinnedConnectionIneligible in Er. destruct (negb (IsActive row =? 1)); [done|].
    destruct (bool_decide (ID row ∈ excludeIDs)) eqn:Ex; [done|]. by bsplit.
Qed.

Lemma future_Some now u : is_Some (if now <? u then Some u else None) ↔ now < u.
Proof. case (Z.ltb_spec now u); intros ?; split; try done; lia. Qed.

(** An account cools down until the first of its two cooldowns ends, not
    until both have: it is skipped exactly when some cooldown is readable and
    every readable one is still to come, so an expired quota cooldown left in
    the data lifts the park of an account whose OAuth grant was rejected. *)
Theorem cooldown_ends_with_the_first now c :
  is_Some (in_cooldown now c) ↔
  ∃ raw, parseConnData (Data c) = Some raw ∧
    (∃ k t, k ∈ ["rateLimitedUntil"; "oauthLockedUntil"]%string ∧ readTimestampField raw k = Some t) ∧
    ∀ k t, k ∈ ["rateLimitedUntil"; "oauthLockedUntil"]%string → readTimestampField raw k = Some t → now < t.
Proof.
  unfold in_cooldown, ConnectionBlockedUntil. destruct (parseConnData (Data c)) as [raw|]; cbn [mbind option_bind].
  2:{ split; [by intros []|by intros (? & ? & _)]. }
  assert (∀ (P : string → Prop), (∀ k, k ∈ ["rateLimitedUntil"; "oauthLockedUntil"]%string → P k) ↔
    P "rateLimitedUntil"%string ∧ P "oauthLockedUntil"%string) as Hall by (intros P; set_solver).
  transitivity ((is_Some (readTimestampField raw "rateLimitedUntil") ∨ is_Some (readTimestampField raw "oauthLockedUntil")) ∧
    (∀ t, readTimestampField raw "rateLimitedUntil" = Some t → now < t) ∧
    (∀ t, readTimestampField raw "oauthLockedUntil" = Some t → now < t)).
  - destruct (readTimestampField raw "oauthLockedUntil") as [u|], (readTimestampField raw "rateLimitedUntil") as [e|]; cbn.
    + case (Z.ltb_spec u e); intros ?; rewrite future_Some; (split; [intros ?; split; [by left|split; intros ? [= <-]; lia]|]);
        intros (_ & H1 & H2); specialize (H1 _ eq_refl); specialize (H2 _ eq_refl); lia.
    + rewrite future_Some. split; [intros ?; split; [by right|split; [done|by intros ? [= <-]]]|]. intros (_ & _ & H2). by apply H2.
    + rewrite future_Some. split; [intros ?; split; [by left|split; [by intros ? [= <-]|done]]|]. intros (_ & H1 & _). by apply H1.
    + split; [by intros []|]. by intros [[[]|[]] _].
  - split.
    + intros (Hs & Hlt). exists raw. split; [done|]. split; [|intros k t Hk; revert t; revert k Hk; apply (Hall (λ k, ∀ t, readTimestampField raw k = Some t → now < t)); exact Hlt].
      destruct Hs as [[t Ht]|[t Ht]]; eexists _, t; (split; [|exact Ht]); set_solver.
    + intros (raw' & [= <-] & (k & t & Hk & Ht) & Hlt). split; [|split; intros t'; apply Hlt; set_solver].
      set_unfold in Hk. destruct Hk as [->|[->|[]]]; [left|right]; by eexists.
Qed.

Lemma OAuthLockDelay_bounds n : oauthLockBaseDelay <= OAuthLockDelay n <= oauthLockMaxDelay.
Proof.
  unfold OAuthLockDelay. set (m := if n <? 1 then 1 else n). assert (1 <= m) by (unfold m; zcases).
  set (k := if oauthLockMaxShift <? m then oauthLockMaxShift else m).
  assert (1 <= k <= 16) as Hk by (unfold k, oauthLockMaxShift; zcases).
  assert (k ∈ map Z.of_nat (seq 1 16)) as Hin.
  { apply list_elem_of_fmap. exists (Z.to_nat k). split; [lia|]. apply elem_of_seq. lia. }
  cbn in Hin. set_unfold in Hin.
  repeat (destruct Hin as [->|Hin]; [by vm_compute|]). done.
Qed.

End Facts.

(** ** A table of accounts *)

Module Sample.

#[local] Existing Instance json_codec.
#[local] Existing Instance ascii_case.
#[local] Existing Instance Rotation.Sample.clock.

#[local] Instance registry : Registry := {|
  IsNoAuth _ := false; GetProviderAlias p := p; NormalizeAntigravityModel m := m;
  IsAntigravityModelBlocked _ _ := false; IsCodexConnectionExhausted _ := false; EnabledModels _ := [];
  FORCE_FALLBACK_ON_ALL_UNAVAILABLE := [] |}.

Definition row (id data : string) : account := MkAccount (B id) (B "deepseek") 1 (js data) None None.

(** Locked for the model, cooling down, free. *)
Definition table : accounts :=
  [row "locked" "{~modelLock_v4~:~1700000900Z~}"; row "cooling" "{~rateLimitedUntil~:~1700000060Z~}";
   row "parked" "{~rateLimitedUntil~:~1699999000Z~,~oauthLockedUntil~:~1700000900Z~}"; row "free" "{~apiKey~:~sk~}"].

Definition process (t : accounts) : store := MkStore t ∅ [].
Definition now : Z := 1700000000 * NsPerSecond.
Definition settings (forced : bool) : option SettingsData := Some (MkSettings [] 0 forced ∅).

Definition picked (r : store * (account * ConnectionData + select_error)) : bytes + select_error :=
  match r.2 with inl (c, _) => inl (ID c) | inr e => inr e end.

Example picks :
  picked (getBestConnection now false false 0 (settings false) (B "deepseek") [] [] (B "v4") (process (take 2 table)))
    = inr (AllInCooldown (1700000060 * NsPerSecond)) ∧
  picked (getBestConnection now false false 0 (settings true) (B "deepseek") [] [] (B "v4") (process (take 2 table)))
    = inl (B "cooling") ∧
  picked (getBestConnection now false false 0 (settings false) (B "deepseek") [] [B "free"; B "parked"] (B "v4") (process table))
    = inr (AllInCooldown (1700000060 * NsPerSecond)).
Proof. by vm_compute. Qed.

(** The account whose OAuth grant is parked for another fifteen minutes is
    selected, before the free one, because its quota cooldown is over. *)
Example parked_account_selected :
  picked (getBestConnection now false false 0 (settings false) (B "deepseek") [] [] (B "v4") (process table)) = inl (B "parked") ∧
  ConnectionOAuthLockUntil (Data (row "parked" "{~rateLimitedUntil~:~1699999000Z~,~oauthLockedUntil~:~1700000900Z~}"))
    = Some (1700000900 * NsPerSecond).
Proof. by vm_compute. Qed.

Lemma selected_account_witness :
  ∃ row, row ∈ candidates (process table) (B "deepseek") ∧ ID row = B "parked" ∧
    eligible now table (settings false) (B "deepseek") (B "v4") [B "x"] row.
Proof.
  destruct (getBestConnection now false false 0 (settings false) (B "deepseek") [] [B "x"] (B "v4") (process table))
    as [s' [[conn d]|e]] eqn:E; [|by vm_compute in E].
  assert (ID conn = B "parked") as Hid.
  { transitivity (default [] (match (getBestConnection now false false 0 (settings false) (B "deepseek") [] [B "x"] (B "v4") (process table)).2
      with inl (c, _) => Some (ID c) | _ => None end)); [by rewrite E|by vm_compute]. }
  destruct (selected_account_is_eligible now false 0 (settings false) (B "deepseek") [] [B "x"] (B "v4") (process table) s' conn d E)
    as [(_ & H & _)|(row & Hin & (Hi & _) & Hel & _)]; [by vm_compute in H|].
  exists row. split; [done|]. split; [by rewrite Hi|exact Hel].
Defined.

(** A probe that is pinned to an account in cooldown gets it although strict
    assignment reserves it for another model. *)
Definition strict : option SettingsData :=
  Some (MkSettings [] 0 false {[ B "deepseek" := MkStrategy [] [] 0 true [] [] ]}).

Definition reserved (data : string) : store := process [row "one" data].

Example probe_skips_assignment :
  let probe data := picked (getBestConnection now false true 0 strict (B "deepseek") (B "one") [] (B "v4") (reserved data)) in
  probe "{~assignedModel~:~r1~}"%string = inr NoAssigned ∧
  probe "{~assignedModel~:~r1~,~rateLimitedUntil~:~1700000060Z~}"%string = inl (B "one").
Proof. by vm_compute. Qed.

End Sample.
