(* ===== verification/Deprecation.v ===== *)
(** * Retired models ([internal/providers/deprecation.go])

    When a failure means that the model is gone, what the payload says to use
    instead, and the keys retirements are filed under. *)

From S2P Require Import Prelude GoRegexp Json GoText ErrorClassify.

(** ** Keys *)

Section Keys.
Context `{UnicodeCase}.

Definition slash : bytes := B "/".

Definition DeprecationKey (provider model : bytes) : bytes := to_lower provider ++ slash ++ to_lower model.

(** The cut at the first slash, with a part on each side. *)
Definition cut_key (s : bytes) : option (bytes * bytes) :=
  match index_of slash s with
  | Some i => if (i =? 0)%nat || (i =? length s - 1)%nat then None else Some (take i s, drop (i + 1) s)
  | None => None
  end.

Definition SplitDeprecationKey (key : bytes) : option (bytes * bytes) := cut_key key.

Definition DeprecationKeyForEntry (entry : bytes) : option bytes :=
  '(provider, model) ← cut_key entry; Some (DeprecationKey provider model).

End Keys.

(** ** The payload *)

Record deprecationErrorPayload := MkPayload { dp_Error : json; dp_Message : bytes; dp_Type : bytes }.
Record deprecationObject := MkDepObj {
  do_Type : bytes; do_Code : json; do_Message : bytes; do_Detail : bytes; do_Status : bytes;
  do_Successor : bytes; do_ReplacedBy : bytes; do_Replacement : bytes
}.

Definition deprecationMarkers : list bytes := map B [
  "modeldeprecated"; "model_deprecated"; "model-deprecated"; "modelnotfound"; "model_not_found"; "model-retired";
  "modelretired"; "modelnotavailable"; "model_not_available"; "modelunavailable"; "model_unavailable";
  "model is deprecated"; "model has been deprecated"; "model was deprecated"; "model is retired"; "model was retired";
  "model is no longer available"; "model is not available"; "model has been retired" ]%string.

Section Payload.
Context `{JsonCodec} `{UnicodeCase}.
Variable out_of_range : Z → Z.

Definition decodeDeprecation (body : bytes) : option deprecationErrorPayload :=
  if bool_decide (body = []) then None
  else m ← unmarshal body ≫= as_struct;
       msg ← str_field (B "message") m; type ← str_field (B "type") m;
       Some (MkPayload (obj_get (B "error") m) msg type).

Definition is_null (j : json) : bool := match j with JNull => true | _ => false end.

(** Encoding a decoded value and decoding it again is the identity. *)
Definition deprecationObjectOf (errValue : json) : option deprecationObject :=
  if is_null errValue then None
  else m ← as_struct errValue;
       type ← str_field (B "type") m; msg ← str_field (B "message") m; detail ← str_field (B "detail") m;
       status ← str_field (B "status") m; successor ← str_field (B "successor") m;
       replaced ← str_field (B "replaced_by") m; replacement ← str_field (B "replacement") m;
       let code := obj_get (B "code") m in
       if forallb (λ s, negb (nonempty s)) [type; msg; status; detail; successor; replaced; replacement] && is_null code
       then None
       else Some (MkDepObj type code msg detail status successor replaced replacement).

Definition deprecationCodeString (code : json) : bytes :=
  match code with
  | JStr v => v
  | JNum v => itoa (number_int out_of_range v)
  | _ => []
  end.

(** The texts the reason is looked for in, and the reason. *)
Definition reason_text (payload : deprecationErrorPayload) : bytes :=
  to_lower (join (B " ") ([dp_Type payload; dp_Message payload] ++
    match deprecationObjectOf (dp_Error payload) with
    | Some obj => [do_Type obj; deprecationCodeString (do_Code obj); do_Status obj; do_Message obj]
    | None => []
    end)).

Definition deprecationReason (body : bytes) : bytes :=
  match decodeDeprecation body with
  | None => []
  | Some payload => default [] (List.find (λ marker, contains marker (reason_text payload)) deprecationMarkers)
  end.

Definition hasErrorEnvelope (body : bytes) : bool :=
  match decodeDeprecation body with
  | None => false
  | Some payload =>
      nonempty (dp_Message payload) || nonempty (dp_Type payload) ||
      match dp_Error payload with JNull => false | JStr s => nonempty s | _ => true end
  end.

Definition IsModelDeprecation (statusCode : Z) (body : bytes) : bool :=
  (statusCode =? 410) && (nonempty (deprecationReason body) || negb (hasErrorEnvelope body)).

(** ** The successor

    Offsets are found in a lower-cased copy and cut the original: [None] is the
    slice out of range. *)

Definition trim_set (set : bytes) (s : bytes) : bytes :=
  trim_right (λ c, bool_decide (c ∈ set)) (trim_left (λ c, bool_decide (c ∈ set)) s).

Definition clause_tails : list bytes := map B [" instead"; " rather"; " going forward"; " now"]%string.
Definition leads : list bytes := map B ["use "; "try "; "migrate to "; "replaced by "; "replacement:"]%string.
Definition quotes : bytes := B "'`" ++ ["034"%char].

Fixpoint cut_tails (tails : list bytes) (s : bytes) : option (option bytes) :=
  match tails with
  | [] => Some None
  | tail :: tails' =>
      match index_of tail (to_lower s) with
      | Some (S i) => Some <$> slice_opt s 0 (S i)
      | _ => cut_tails tails' s
      end
  end.

Definition cutAtClauseEnd (s : bytes) : option bytes :=
  found ← cut_tails clause_tails s;
  Some match found with
       | Some t => t
       | None =>
           match index_of (B ", ") s with
           | Some (S i) => take (S i) s
           | _ => trim_right (λ c, bool_decide (c ∈ B ".,;:!?)]}" ++ ["034"; "'"]%char)) s
           end
       end.

Fixpoint named_after (ls : list bytes) (msg : bytes) : option bytes :=
  match ls with
  | [] => Some []
  | lead :: ls' =>
      match index_of lead (to_lower msg) with
      | None => named_after ls' msg
      | Some idx =>
          rest ← slice_opt msg (idx + length lead) (length msg);
          clause ← cutAtClauseEnd (trim_space rest);
          let candidate := trim_set (B " " ++ quotes) clause in
          if nonempty candidate && negb (existsb (λ c, bool_decide (c ∈ [" "; "009"]%char)) candidate)
          then Some candidate else named_after ls' msg
      end
  end.

Definition successorFromMessage (msg : bytes) : option bytes := named_after leads msg.

Definition firstString (values : list bytes) : bytes :=
  default [] (List.find nonempty (map trim_space values)).

Definition ParseModelDeprecation (body : bytes) : option (bytes * bytes) :=
  match decodeDeprecation body with
  | None => Some ([], [])
  | Some payload =>
      let '(msg, successor) :=
        match deprecationObjectOf (dp_Error payload) with
        | Some obj => (firstString [do_Message obj; do_Detail obj; dp_Message payload],
                       firstString [do_Successor obj; do_ReplacedBy obj; do_Replacement obj])
        | None => (dp_Message payload, [])
        end in
      if nonempty successor then Some (msg, successor)
      else (λ s, (msg, s)) <$> successorFromMessage msg
  end.

End Payload.

(** ** Keys *)

Section KeyFacts.
Context `{UnicodeCase}.

Lemma index_of_slash p m : Forall (λ c, c ≠ "/"%char) p → index_of slash (p ++ slash ++ m) = Some (length p).
Proof.
  induction 1 as [|c p Hc Hp IH]; cbn; [done|]. rewrite bool_decide_eq_false_2 by congruence.
  cbn [app] in IH. change (B "/" ++ m) with ("/"%char :: m) in IH. cbn in IH |- *. by rewrite IH.
Qed.

Lemma cut_key_slash p m : p ≠ [] → m ≠ [] → Forall (λ c, c ≠ "/"%char) p → cut_key (p ++ slash ++ m) = Some (p, m).
Proof.
  intros Hp Hm Hs. unfold cut_key. rewrite index_of_slash by done. rewrite !length_app. change (length slash) with 1%nat.
  destruct p as [|c p], m as [|d m]; try done. cbn [length].
  rewrite (proj2 (Nat.eqb_neq _ _)) by lia. rewrite (proj2 (Nat.eqb_neq _ _)) by lia. cbn [orb]. f_equal. f_equal.
  - change (S (length p)) with (length (c :: p)). by rewrite take_app_length.
  - change (S (length p)) with (length (c :: p)). rewrite Nat.add_1_r, drop_app_ge by lia.
    by replace (S (length (c :: p)) - length (c :: p))%nat with 1%nat by lia.
Qed.

Lemma to_lower_nonempty s : s ≠ [] → to_lower s ≠ [].
Proof.
  destruct s as [|c s]; [done|]. intros _. unfold to_lower. cbn [length lower_runes]. unfold utf8_encode.
  by repeat destruct (_ <? _).
Qed.

Lemma to_lower_no_slash s : is_ascii s → Forall (λ c, c ≠ "/"%char) s → Forall (λ c, c ≠ "/"%char) (to_lower s).
Proof.
  induction s as [|c s IH]; intros Ha Hs; [by constructor|]. inversion Ha; inversion Hs; subst.
  rewrite to_lower_ascii_cons by done. constructor; [|by apply IH]. intros E%(f_equal zb).
  pose proof (zb_range c). change (zb "/"%char) with 47 in E. unfold ascii_lower in E.
  destruct ((65 <=? zb c) && (zb c <=? 90)) eqn:Eu; rewrite zb_bz in E by lia.
  - apply andb_prop in Eu as [?%Z.leb_le ?%Z.leb_le]. lia.
  - match goal with Hn : c ≠ _ |- _ => apply Hn end. by apply zb_inj.
Qed.

(** The key of a combo entry is the key of its two parts, and gives them back
    in lower case. *)
Theorem deprecation_key_roundtrip provider model :
  provider ≠ [] → model ≠ [] → is_ascii provider → Forall (λ c, c ≠ "/"%char) provider →
  DeprecationKeyForEntry (provider ++ slash ++ model) = Some (DeprecationKey provider model) ∧
  SplitDeprecationKey (DeprecationKey provider model) = Some (to_lower provider, to_lower model).
Proof.
  intros Hp Hm Ha Hs. unfold DeprecationKeyForEntry, SplitDeprecationKey, DeprecationKey.
  rewrite cut_key_slash by done. cbn. split; [done|].
  apply cut_key_slash; [by apply to_lower_nonempty..|by apply to_lower_no_slash].
Qed.

End KeyFacts.

(** ** Successors *)

Section SuccessorFacts.
Context `{JsonCodec} `{UnicodeCase}.

Definition infix (s t : bytes) : Prop := ∃ a b, t = a ++ s ++ b.

#[local] Instance infix_preorder : PreOrder infix.
Proof.
  split; [by intros s; exists [], []; rewrite app_nil_r|].
  intros s t u (a & b & ->) (c & d & ->). exists (c ++ a), (b ++ d). by rewrite !app_assoc.
Qed.

Lemma infix_take n s : infix (take n s) s.
Proof. exists [], (drop n s). by rewrite take_drop. Qed.
Lemma infix_drop n s : infix (drop n s) s.
Proof. exists (take n s), []. by rewrite app_nil_r, take_drop. Qed.
Lemma infix_rev s t : infix s t → infix (rev s) (rev t).
Proof. intros (a & b & ->). exists (rev b), (rev a). by rewrite !rev_app_distr, app_assoc. Qed.

Lemma infix_trim_left f s : infix (trim_left f s) s.
Proof.
  induction s as [|c s IH]; cbn; [done|]. destruct (f c); [|done]. etransitivity; [exact IH|]. exact (infix_drop 1 (c :: s)).
Qed.
Lemma infix_trim_right f s : infix (trim_right f s) s.
Proof. unfold trim_right. rewrite <- (rev_involutive s) at 2. apply infix_rev, infix_trim_left. Qed.

Lemma infix_trim_runes n sps s : infix (trim_runes n sps s) s.
Proof.
  revert s. induction n as [|n IH]; intros s; cbn; [done|]. destruct (List.find _ _) as [p|]; [|done].
  etransitivity; [apply IH|apply infix_drop].
Qed.
Lemma infix_trim_space s : infix (trim_space s) s.
Proof.
  unfold trim_space. etransitivity; [apply infix_rev, infix_trim_runes|]. rewrite rev_involutive. apply infix_trim_runes.
Qed.

Lemma infix_slice s a b t : slice_opt s a b = Some t → infix t s.
Proof.
  unfold slice_opt. destruct (_ && _); [|done]. intros [= <-]. etransitivity; [apply infix_take|apply infix_drop].
Qed.

Lemma cut_tails_infix tails s t : cut_tails tails s = Some (Some t) → infix t s.
Proof.
  induction tails as [|tail tails IH]; cbn; [done|]. destruct (index_of _ _) as [[|i]|]; [exact IH| |exact IH].
  destruct (slice_opt s 0 (S i)) eqn:E; [|done]. intros [= <-]. by eapply infix_slice.
Qed.

Lemma cutAtClauseEnd_infix s t : cutAtClauseEnd s = Some t → infix t s.
Proof.
  unfold cutAtClauseEnd. destruct (cut_tails clause_tails s) as [[u|]|] eqn:E; [|intros [= <-]|done].
  - intros [= <-]. by eapply cut_tails_infix.
  - destruct (index_of _ _) as [[|i]|]; [apply infix_trim_right|apply infix_take|apply infix_trim_right].
Qed.

Lemma slice_opt_some s a b : (a <= b)%nat → (b <= length s)%nat → is_Some (slice_opt s a b).
Proof. intros Ha Hb. unfold slice_opt. rewrite (proj2 (Nat.leb_le a b)), (proj2 (Nat.leb_le b _)) by lia. by eexists. Qed.

Lemma lower_index_bound p s i : is_ascii s → index_of p (to_lower s) = Some i → (i + length p <= length s)%nat.
Proof. intros Ha Hi. apply index_of_bound in Hi as [Hi _]. by rewrite to_lower_ascii_length in Hi. Qed.

Lemma infix_ascii s t : infix s t → is_ascii t → is_ascii s.
Proof. intros (a & b & ->). unfold is_ascii. rewrite !Forall_app. by intros (_ & ? & _). Qed.

Lemma cutAtClauseEnd_some s : is_ascii s → is_Some (cutAtClauseEnd s).
Proof.
  intros Ha. unfold cutAtClauseEnd. assert (is_Some (cut_tails clause_tails s)) as [u ->]; [|by eexists].
  induction clause_tails as [|tail tails IH]; cbn; [by eexists|].
  destruct (index_of tail (to_lower s)) as [[|i]|] eqn:E; [exact IH| |exact IH].
  apply lower_index_bound in E; [|done]. destruct (slice_opt_some s 0 (S i)) as [t ->]; [lia..|by eexists].
Qed.

Lemma named_after_spec ls msg :
  (is_ascii msg → is_Some (named_after ls msg)) ∧
  (∀ s, named_after ls msg = Some s → s = [] ∨
     infix s msg ∧ Forall (λ c, c ≠ " "%char) s ∧ ∃ lead, lead ∈ ls ∧ is_Some (index_of lead (to_lower msg))).
Proof.
  induction ls as [|lead ls [IH1 IH2]]; cbn [named_after].
  { split; [by eexists|]. intros s [= <-]. by left. }
  assert (∀ s, named_after ls msg = Some s → s = [] ∨
     infix s msg ∧ Forall (λ c, c ≠ " "%char) s ∧ ∃ l, l ∈ lead :: ls ∧ is_Some (index_of l (to_lower msg))) as Hskip.
  { intros s [?|(? & ? & l & ? & ?)]%IH2; [by left|right]. split; [done|split; [done|]]. exists l. split; [by right|done]. }
  destruct (index_of lead (to_lower msg)) as [i|] eqn:Ei; [|done]. split.
  - intros Ha. pose proof (lower_index_bound _ _ _ Ha Ei).
    destruct (slice_opt_some msg (i + length lead) (length msg)) as [rest Er]; [lia..|]. rewrite Er. cbn [mbind option_bind].
    destruct (cutAtClauseEnd_some (trim_space rest)) as [clause ->].
    { eapply infix_ascii; [|exact Ha]. etransitivity; [apply infix_trim_space|by eapply infix_slice]. }
    cbn [mbind option_bind]. destruct (_ && _); [by eexists|by apply IH1].
  - intros s. destruct (slice_opt _ _ _) as [rest|] eqn:Er; [|done]. cbn [mbind option_bind].
    destruct (cutAtClauseEnd _) as [clause|] eqn:Ec; [|done]. cbn [mbind option_bind].
    destruct (nonempty _ && _) eqn:Et; [|exact (Hskip s)]. intros [= <-]. right. split; [|split].
    + apply cutAtClauseEnd_infix in Ec. apply infix_slice in Er. unfold trim_set.
      etransitivity; [apply infix_trim_right|]. etransitivity; [apply infix_trim_left|].
      etransitivity; [exact Ec|]. etransitivity; [apply infix_trim_space|exact Er].
    + apply andb_prop in Et as [_ Et%negb_true_iff]. apply Forall_forall. intros c Hc ->.
      apply not_true_iff_false in Et. apply Et, existsb_exists. exists " "%char. split; [by apply list_elem_of_In|done].
    + exists lead. split; [left|by rewrite Ei].
Qed.

(** Reading the successor out of a message never fails on ASCII text, and
    never invents one: what it returns stands in the message as one word, and
    one of the phrases that introduce a replacement occurs there too. *)
Theorem successor_is_named msg :
  (is_ascii msg → is_Some (successorFromMessage msg)) ∧
  (∀ s, successorFromMessage msg = Some s → s = [] ∨
     infix s msg ∧ Forall (λ c, c ≠ " "%char) s ∧ ∃ lead, lead ∈ leads ∧ is_Some (index_of lead (to_lower msg))).
Proof. apply named_after_spec. Qed.

Lemma gone_only out_of_range status body :
  IsModelDeprecation out_of_range status body = true → status = 410.
Proof. unfold IsModelDeprecation. by intros [?%Z.eqb_eq _]%andb_prop. Qed.

End SuccessorFacts.

(** ** Examples *)

Module Sample.

(** A table with the one letter of two bytes whose lower case takes three. *)
#[local] Instance stroke_case : UnicodeCase :=
  {| unicode_lower r := if r =? 570 then 11365 else r; unicode_lower_error := eq_refl |}.
#[local] Existing Instance json_codec.

Definition retired : bytes :=
  js "{~error~:{~type~:~ModelError~,~code~:410,~message~:~mimo-v2.5-free is deprecated: model has been retired, use mimo-v2.6-flash instead.~}}".
Definition expired_session : bytes := js "{~error~:~session expired~}".

Example deprecation_samples :
  IsModelDeprecation id 410 retired = true ∧ IsModelDeprecation id 404 retired = false ∧
  IsModelDeprecation id 410 expired_session = false ∧ IsModelDeprecation id 410 (B "Gone") = true ∧
  option_map snd (ParseModelDeprecation retired) = Some (B "mimo-v2.6-flash").
Proof. by vm_compute. Qed.

(** Four of these letters push the offset found in the lower-cased copy past
    the end of the message. *)
Example wide_lower_case_panics :
  successorFromMessage (concat (replicate 4 (map bz [200; 186])) ++ B "use x") = None.
Proof. by vm_compute. Qed.

End Sample.
