(* ===== verification/Locks.v ===== *)
(** * Locks and cooldowns of an account ([internal/db/accounts.go],
    [accounts_oauth_lock.go], the settling of a served request in
    [internal/handlers/chat/fallback.go])

    The writes of the members of a row's data that [Accounts] reads. SQLite's
    [json_set] is a parameter with its documented behaviour; the time a row was
    updated at is not kept. *)

From S2P Require Import Prelude GoRegexp Json GoText RetryAfter Rotation Accounts.

(** ** [json_set] *)

(** The label of a path [$.name] or [$."name"]. *)
Inductive label := Plain (k : bytes) | Quoted (k : bytes).

Definition dquote : ascii := "034"%char.

Definition member (l : label) : bytes := match l with Plain k => k | Quoted k => k end.
Definition path_text (l : label) : bytes :=
  B "$." ++ match l with Plain k => k | Quoted k => dquote :: k ++ [dquote] end.

Definition plain_name (k : bytes) : bool :=
  negb (bool_decide (k = [])) && forallb (λ c, negb (bool_decide (c ∈ ["."; "["; dquote]%char))) k.
Definition quotable (k : bytes) : bool := forallb (λ c, negb (bool_decide (c = dquote)) && negb (bool_decide (c = "\"%char))) k.
Definition well_named (l : label) : bool := match l with Plain k => plain_name k | Quoted k => quotable k end.

(** A NULL and a JSON null are the same member. *)
Abbreviation edits := (list (label * json)) (only parsing).

Definition apply_edits (es : edits) (m : object) : object := foldl (λ m e, obj_put (member e.1) e.2 m) m es.
Definition edit_paths (es : edits) : list (bytes * json) := map (λ e, (path_text e.1, e.2)) es.

(** A path with a dot in an unquoted label names a member of a member. *)
Class SqliteJson `{JsonCodec} := {
  json_set : bytes → list (bytes * json) → option bytes;
  json_set_members data m es : unmarshal data = Some (JObj m) → Forall (λ e, well_named e.1 = true) es →
    ∃ data', json_set data (edit_paths es) = Some data' ∧ unmarshal data' = Some (JObj (apply_edits es m));
  json_set_dotted data m a b v es data' : unmarshal data = Some (JObj m) → plain_name a = true →
    Forall (λ e, well_named e.1 = true) es →
    json_set data ((path_text (Plain a) ++ B "." ++ b, v) :: edit_paths es) = Some data' →
    ∃ m', unmarshal data' = Some (JObj m') ∧
      ∀ k, k ≠ a → k ∉ map (λ e, member e.1) es → obj_get k m' = obj_get k m
}.

(** ** The writes *)

Section Writes.
Context `{HJ : JsonCodec} `{HS : !SqliteJson} `{HT : RotationTime}.

Definition with_data (a : account) (d : bytes) : account :=
  MkAccount (ID a) (Provider a) (IsActive a) d (LastUsedAt a) (ConsecutiveUseCount a).

(** [UPDATE providerConnections SET data = json_set(data, ...) WHERE id = ?];
    [None] is a row whose data is not JSON. *)
Definition set_data (connID : bytes) (paths : list (bytes * json)) (t : accounts) : option accounts :=
  mapM (λ a, if bool_decide (ID a = connID) then with_data a <$> json_set (Data a) paths else Some a) t.

Definition modelLockPrefix : bytes := B "modelLock_".
Definition modelLockDataKey (model : bytes) : label := Quoted (modelLockPrefix ++ model).
Definition backoff_edit (level : Z) : label * json := (Plain (B "backoffLevel"), JNum (itoa level)).

(** The end of a lock, at the precision of a second. *)
Definition lock_end (now durationSec : Z) : Z := now + seconds durationSec.

Definition LockConnectionModel (now : Z) (connID model : bytes) (durationSec backoffLevel : Z) (t : accounts) : option accounts :=
  set_data connID (edit_paths
    [(modelLockDataKey model, JStr (FormatSecond (lock_end now durationSec))); backoff_edit backoffLevel]) t.

Definition UnlockConnectionModel (connID model : bytes) (t : accounts) : option accounts :=
  set_data connID (edit_paths [(modelLockDataKey model, JNull); backoff_edit 0]) t.

(** The last error of a row; encoding a text that is not UTF-8 fails. *)
Definition last_error (now status : Z) (errText model source : bytes) : option json :=
  if valid_utf8 errText && valid_utf8 model && valid_utf8 source then
    Some (JObj ([(B "status", JNum (itoa status)); (B "message", JStr errText); (B "timestamp", JStr (FormatSecond now))] ++
                (if bool_decide (model = []) then [] else [(B "model", JStr model)]) ++
                (if bool_decide (source = []) then [] else [(B "source", JStr source)])))
  else None.

Definition RecordConnectionScopedError (now : Z) (connID model source : bytes) (status : Z) (errText : bytes)
    (backoffLevel : Z) (t : accounts) : option accounts :=
  payload ← last_error now status errText model source;
  set_data connID (edit_paths
    [backoff_edit backoffLevel; (Plain (B "lastError"), payload); (Plain (B "status"), JStr (B "error"))]) t.

Definition RecordConnectionError (now : Z) (connID : bytes) (status : Z) (errText : bytes) (backoffLevel : Z)
    (t : accounts) : option accounts :=
  RecordConnectionScopedError now connID [] [] status errText backoffLevel t.

Definition LockConnectionRateLimit (now : Z) (connID : bytes) (until backoffLevel status : Z) (errText : bytes)
    (t : accounts) : option accounts :=
  payload ← last_error now status errText [] [];
  set_data connID (edit_paths
    [(Plain (B "rateLimitedUntil"), JStr (FormatSecond until)); backoff_edit backoffLevel;
     (Plain (B "lastError"), payload); (Plain (B "status"), JStr (B "error"))]) t.

Definition ClearConnectionRateLimit (connID : bytes) (t : accounts) : option accounts :=
  set_data connID (edit_paths
    [(Plain (B "rateLimitedUntil"), JNull); (Plain (B "lastError"), JNull); (Plain (B "status"), JStr (B "active"));
     backoff_edit 0]) t.

(** [int(v)] of a number outside [int] depends on the machine. *)
Variable out_of_range : Z → Z.

Definition row_object (connID : bytes) (t : accounts) : option object :=
  a ← row_by_id t connID; unmarshal (Data a) ≫= as_struct.

Definition GetConnectionBackoffLevel (connID : bytes) (t : accounts) : Z :=
  match row_object connID t with
  | Some raw => match obj_get (B "backoffLevel") raw with JNum n => number_int out_of_range n | _ => 0 end
  | None => 0
  end.

(** *** The park of an account whose grant was rejected *)

(** The end of the park and the count; [None] is the zero time, which no
    present instant precedes. *)
Definition connectionOAuthState (connID : bytes) (t : accounts) : option Z * Z :=
  if bool_decide (connID = []) then (None, 0)
  else match row_by_id t connID ≫= λ a, parseConnData (Data a) with
       | None => (None, 0)
       | Some raw =>
           (readTimestampField raw "oauthLockedUntil",
            match obj_get (B "oauthFailureCount") raw with
            | JNum n => if has_prefix (B "-") n then 0 else number_int out_of_range n
            | _ => 0
            end)
       end.

Definition GetConnectionOAuthFailures (connID : bytes) (t : accounts) : Z := (connectionOAuthState connID t).2.

Definition RecordConnectionOAuthFailure (now : Z) (connID : bytes) (status : Z) (errText : bytes) (t : accounts)
    : option (accounts * (Z * Z)) :=
  if bool_decide (connID = []) then Some (t, (0, 0))
  else
    let '(lockedUntil, failures) := connectionOAuthState connID t in
    let failures := if match lockedUntil with Some u => now <? u | None => false end then failures else int64 (failures + 1) in
    let until := now + OAuthLockDelay failures in
    lastError ← last_error now status errText [] [];
    t ← set_data connID (edit_paths
      [(Plain (B "oauthLockedUntil"), JStr (FormatSecond until)); (Plain (B "oauthFailureCount"), JNum (itoa failures));
       (Plain (B "lastError"), lastError)]) t;
    Some (t, (until, failures)).

Definition ClearConnectionOAuthLock (connID : bytes) (t : accounts) : option accounts :=
  if bool_decide (connID = []) then Some t
  else set_data connID (edit_paths
         [(Plain (B "oauthLockedUntil"), JNull); (Plain (B "oauthFailureCount"), JNum (B "0"))]) t.

(** *** Resetting *)

(** Writing to the nil map a [null] decodes to panics. *)
Inductive reset_result := ResetDone (t : accounts) | ResetError | ResetPanics.

Definition is_lock_key (k : bytes) : bool := has_prefix modelLockPrefix k.

Definition reset_members (m : object) : object :=
  map (λ kv, if is_lock_key kv.1 then (kv.1, JNull) else kv)
    (apply_edits [(Plain (B "errorCode"), JNull); (Plain (B "rateLimitedUntil"), JNull); (Plain (B "oauthLockedUntil"), JNull);
                  (Plain (B "oauthFailureCount"), JNum (B "0")); (Plain (B "backoffLevel"), JNum (B "0"))] m).

Definition ResetConnectionHealthState (connID : bytes) (t : accounts) : reset_result :=
  match row_by_id t connID with
  | None => ResetError
  | Some a =>
      match unmarshal (Data a) with
      | Some (JObj m) => ResetDone (map (λ a, if bool_decide (ID a = connID) then with_data a (marshal (JObj (reset_members m))) else a) t)
      | Some JNull => ResetPanics
      | _ => ResetError
      end
  end.

(** The resets do not quote. *)
Definition unquoted_path (field : bytes) : bytes := path_text (Plain field).

Definition checkConnectionModelLock (now : Z) (data model : bytes) : bool :=
  match unmarshal data with
  | Some (JObj raw) =>
      match obj_get (modelLockPrefix ++ model) raw with
      | JStr str => if bool_decide (str = []) then false else match ParseSecond str with Some u => now <? u | None => false end
      | _ => false
      end
  | _ => false
  end.

Definition listModelLockJSONKeys (data : bytes) : list bytes :=
  match unmarshal data with
  | Some (JObj raw) => filter (λ k, (length modelLockPrefix < length k)%nat ∧ is_lock_key k = true) raw.*1
  | _ => []
  end.

Definition reset_paths (fields : list bytes) : list (bytes * json) :=
  map (λ f, (unquoted_path f, JNull)) fields ++ edit_paths [backoff_edit 0].

Definition clearConnectionModelLocks (id data : bytes) (t : accounts) : option accounts :=
  match listModelLockJSONKeys data with
  | [] => Some t
  | fields => set_data id (reset_paths fields) t
  end.

(** The rows are read as the query began; the first error ends the loop. *)
Fixpoint reset_rows (clear : account → accounts → option accounts) (rows : accounts) (t : accounts) : accounts * bool :=
  match rows with
  | [] => (t, true)
  | a :: rows' => match clear a t with Some t' => reset_rows clear rows' t' | None => (t, false) end
  end.

Definition clearAllModelLocks (t : accounts) : accounts * bool :=
  reset_rows (λ a, clearConnectionModelLocks (ID a) (Data a)) t t.

Definition clearProviderModelLocks (provider : bytes) (t : accounts) : accounts * bool :=
  reset_rows (λ a, clearConnectionModelLocks (ID a) (Data a)) (filter (λ a, Provider a = provider) t) t.

Definition clearSpecificModelLock (now : Z) (provider model : bytes) (t : accounts) : accounts * bool :=
  reset_rows (λ a t, if checkConnectionModelLock now (Data a) model
                     then set_data (ID a) (reset_paths [modelLockPrefix ++ model]) t else Some t)
    (filter (λ a, Provider a = provider) t) t.

Definition ResetProviderHealth (now : Z) (provider model : bytes) (t : accounts) : accounts * bool :=
  if bool_decide (provider = []) && bool_decide (model = []) then clearAllModelLocks t
  else if bool_decide (model = []) then clearProviderModelLocks provider t
  else clearSpecificModelLock now provider model t.

(** *** A served request *)

(** A write that fails is logged. *)
Definition attempt (f : accounts → option accounts) (t : accounts) : accounts := default t (f t).

Definition settle_served `{Registry} (probe : bool) (connID provider model : bytes) (t : accounts) : accounts :=
  if probe then t
  else
    let lockKey := canonicalLockModel provider model in
    let t := attempt (UnlockConnectionModel connID lockKey) t in
    let t := if bool_decide (lockKey = model) then t else attempt (UnlockConnectionModel connID model) t in
    attempt (ClearConnectionRateLimit connID) t.

End Writes.

(** ** What the selector reads of an account

    The specification of the writes: an account is healthy or not through the
    ends of its locks, cooldown and park, and two counts. *)

Record health := MkHealth {
  h_lock : bytes → option Z; h_cooldown : option Z; h_park : option Z; h_failures : Z; h_level : Z
}.

#[export] Instance health_equiv : Equiv health := λ g h,
  (∀ model, h_lock g model = h_lock h model) ∧ h_cooldown g = h_cooldown h ∧ h_park g = h_park h ∧
  h_failures g = h_failures h ∧ h_level g = h_level h.

#[export] Instance health_equivalence : Equivalence (≡@{health}).
Proof. unfold equiv, health_equiv. split; [intros ?|intros ???|intros ?????]; naive_solver congruence. Qed.

Section Health.
Context `{HJ : JsonCodec} `{HT : RotationTime}.
Variable out_of_range : Z → Z.

Definition floor_sec (t : Z) : Z := t / NsPerSecond * NsPerSecond.

Definition lock_in (m : object) (model : bytes) : option Z :=
  match obj_get (modelLockPrefix ++ model) m with
  | JStr str => if bool_decide (str = []) then None else ParseSecond str
  | _ => None
  end.

Definition count_in (m : object) : Z :=
  match obj_get (B "oauthFailureCount") m with
  | JNum n => if has_prefix (B "-") n then 0 else number_int out_of_range n
  | _ => 0
  end.

Definition level_in (m : object) : Z :=
  match obj_get (B "backoffLevel") m with JNum n => number_int out_of_range n | _ => 0 end.

Definition health_of (m : object) : health :=
  MkHealth (lock_in m) (readTimestampField m "rateLimitedUntil") (readTimestampField m "oauthLockedUntil") (count_in m) (level_in m).

Definition health_at (t : accounts) (c : bytes) : option health :=
  match row_by_id t c ≫= λ a, unmarshal (Data a) with Some (JObj m) => Some (health_of m) | _ => None end.

Definition pending (now : Z) (end_ : option Z) : bool := match end_ with Some u => now <? u | None => false end.

Definition blocked_until (h : health) : option Z :=
  match h_park h, h_cooldown h with
  | Some u, Some v => Some (Z.min u v)
  | Some u, None => Some u
  | None, v => v
  end.

Inductive write :=
  | WLock (now : Z) (model : bytes) (sec level : Z)
  | WUnlock (model : bytes)
  | WLimit (now until level status : Z) (text : bytes)
  | WClear
  | WRecord (now : Z) (model source : bytes) (status : Z) (text : bytes) (level : Z)
  | WPark (now status : Z) (text : bytes)
  | WUnpark.

Definition spec_write (w : write) (h : health) : health :=
  match w with
  | WLock now model sec level =>
      MkHealth (λ x, if bool_decide (x = model) then Some (floor_sec (lock_end now sec)) else h_lock h x)
        (h_cooldown h) (h_park h) (h_failures h) level
  | WUnlock model =>
      MkHealth (λ x, if bool_decide (x = model) then None else h_lock h x) (h_cooldown h) (h_park h) (h_failures h) 0
  | WLimit _ until level _ _ => MkHealth (h_lock h) (Some (floor_sec until)) (h_park h) (h_failures h) level
  | WClear => MkHealth (h_lock h) None (h_park h) (h_failures h) 0
  | WRecord _ _ _ _ _ level => MkHealth (h_lock h) (h_cooldown h) (h_park h) (h_failures h) level
  | WPark now _ _ =>
      let failures := if pending now (h_park h) then h_failures h else h_failures h + 1 in
      MkHealth (h_lock h) (h_cooldown h) (Some (floor_sec (now + OAuthLockDelay failures))) failures (h_level h)
  | WUnpark => MkHealth (h_lock h) (h_cooldown h) None 0 (h_level h)
  end.

(** The instants a write stores can be written, its texts encoded, its level is
    one the classification gives. *)
Definition writable (w : write) (h : health) : Prop :=
  let instant u := 0 <= u <= last_instant in
  match w with
  | WLock now model sec level => instant (lock_end now sec) ∧ quotable model = true ∧ 0 <= level <= 15
  | WUnlock model => quotable model = true
  | WLimit now until level _ text => instant until ∧ valid_utf8 text = true ∧ 0 <= level <= 15
  | WRecord now model source _ text level => valid_utf8 text = true ∧ valid_utf8 model = true ∧ valid_utf8 source = true ∧ 0 <= level <= 15
  | WPark now _ text => instant (now + OAuthLockDelay (h_failures h)) ∧ instant (now + OAuthLockDelay (h_failures h + 1)) ∧
      valid_utf8 text = true ∧ 0 <= h_failures h < 1000
  | WClear | WUnpark => True
  end.

End Health.

Section HealthFacts.
Context `{HJ : JsonCodec} `{HS : !SqliteJson} `{HT : RotationTime}.
Variable out_of_range : Z → Z.
Abbreviation health_at := (health_at out_of_range).
Abbreviation health_of := (health_of out_of_range).

Definition exec_write (w : write) (c : bytes) (t : accounts) : option accounts :=
  match w with
  | WLock now model sec level => LockConnectionModel now c model sec level t
  | WUnlock model => UnlockConnectionModel c model t
  | WLimit now until level status text => LockConnectionRateLimit now c until level status text t
  | WClear => ClearConnectionRateLimit c t
  | WRecord now model source status text level => RecordConnectionScopedError now c model source status text level t
  | WPark now status text => fst <$> RecordConnectionOAuthFailure out_of_range now c status text t
  | WUnpark => ClearConnectionOAuthLock c t
  end.

(** Ids are unique and the data of every row is an object. *)
Definition sound (t : accounts) : Prop :=
  NoDup (ID <$> t) ∧ ∀ a, a ∈ t → ∃ m, unmarshal (Data a) = Some (JObj m).

(** *** The readers *)

Lemma health_at_row t c h : health_at t c = Some h →
  ∃ a m, row_by_id t c = Some a ∧ unmarshal (Data a) = Some (JObj m) ∧ h = health_of m ∧ parseConnData (Data a) = Some m.
Proof.
  unfold Locks.health_at. destruct (row_by_id t c) as [a|]; [|done]. cbn [mbind option_bind].
  destruct (unmarshal (Data a)) as [[]|] eqn:Eu; try done. intros [= <-]. exists a, m. split_and!; [done..|].
  unfold parseConnData. rewrite Eu, bool_decide_eq_false_2; [done|]. intros E. by rewrite E, unmarshal_nil in Eu.
Qed.

Lemma readers_of_health t c h : health_at t c = Some h →
  (∀ now model, IsConnectionModelLocked now t c model = pending now (h_lock h model)) ∧
  (∀ now model, checkConnectionModelLock now (default [] (Data <$> row_by_id t c)) model = pending now (h_lock h model)) ∧
  (∀ a, row_by_id t c = Some a → ConnectionBlockedUntil (Data a) = blocked_until h) ∧
  GetConnectionBackoffLevel out_of_range c t = h_level h ∧
  (c ≠ [] → connectionOAuthState out_of_range c t = (h_park h, h_failures h)).
Proof.
  intros (a & m & Hr & Hu & -> & Hp)%health_at_row. split_and!.
  - intros now model. unfold IsConnectionModelLocked. rewrite Hr, Hu. cbn. unfold lock_in, pending.
    change (B "modelLock_" ++ model) with (modelLockPrefix ++ model).
    destruct (obj_get _ m) as [| | |s| |]; try done. by case_bool_decide.
  - intros now model. rewrite Hr. cbn. unfold checkConnectionModelLock. rewrite Hu. unfold lock_in, pending.
    destruct (obj_get _ m) as [| | |s| |]; try done. by case_bool_decide.
  - intros a' Ha. rewrite Hr in Ha. injection Ha as <-. unfold ConnectionBlockedUntil, blocked_until. rewrite Hp. cbn.
    destruct (readTimestampField m "oauthLockedUntil") as [u|], (readTimestampField m "rateLimitedUntil") as [v|]; try done.
    case (Z.ltb_spec u v); intros ?; f_equal; lia.
  - unfold GetConnectionBackoffLevel, row_object. rewrite Hr. cbn [mbind option_bind]. by rewrite Hu.
  - intros Hc. unfold connectionOAuthState. rewrite bool_decide_eq_false_2, Hr by done. cbn [mbind option_bind]. by rewrite Hp.
Qed.

(** *** The writes *)

Lemma row_by_id_find t c a : row_by_id t c = Some a → a ∈ t ∧ ID a = c.
Proof. unfold row_by_id. by intros [?%list_elem_of_In ?%bool_decide_eq_true]%List.find_some. Qed.

(** One row changes. *)
Lemma set_data_sound t c paths :
  sound t → (∀ a m, a ∈ t → ID a = c → unmarshal (Data a) = Some (JObj m) →
    ∃ d m', json_set (Data a) paths = Some d ∧ unmarshal d = Some (JObj m')) →
  ∃ t', set_data c paths t = Some t' ∧ sound t' ∧
    Forall2 (λ a a', ID a' = ID a ∧ Provider a' = Provider a ∧ IsActive a' = IsActive a ∧
      (ID a ≠ c → a' = a) ∧ (ID a = c → Some (Data a') = json_set (Data a) paths)) t t'.
Proof.
  intros [Hnd Hobj] Hset. assert (∃ t', set_data c paths t = Some t' ∧ (∀ a, a ∈ t' → ∃ m, unmarshal (Data a) = Some (JObj m)) ∧
    Forall2 (λ a a', ID a' = ID a ∧ Provider a' = Provider a ∧ IsActive a' = IsActive a ∧
      (ID a ≠ c → a' = a) ∧ (ID a = c → Some (Data a') = json_set (Data a) paths)) t t') as (t' & Ht & Ho & Hf).
  - clear Hnd. induction t as [|a t IH]; [exists []; split_and!; [done|by intros ? ?%elem_of_nil|by constructor]|].
    destruct IH as (t' & Ht & Ho & Hf); [set_solver|set_solver|]. unfold set_data in *. cbn [mapM].
    destruct (Hobj a) as [m Hm]; [left|]. case_bool_decide as Ec.
    + destruct (Hset a m) as (d & m' & Hd & Hm'); [left|done..|]. rewrite Hd. cbn [fmap option_fmap option_map mbind option_bind].
      rewrite Ht. cbn. eexists. split; [done|]. split; [|constructor; [|done]; by split_and!].
      intros a' [->|?]%elem_of_cons; [by exists m'|by apply Ho].
    + cbn [mbind option_bind]. rewrite Ht. cbn. eexists. split; [done|]. split; [|constructor; [|done]; by split_and!].
      intros a' [->|?]%elem_of_cons; [by exists m|by apply Ho].
  - exists t'. split; [done|]. split; [|done]. split; [|done].
    assert (ID <$> t' = ID <$> t) as ->; [|done]. clear -Hf. induction Hf as [|a a' t t' Ha _ IH]; [done|].
    cbn. by destruct Ha as (-> & _); f_equal.
Qed.

Lemma row_by_id_rows (R : account → account → Prop) t t' c :
  (∀ a a', R a a' → ID a' = ID a) → Forall2 R t t' → option_Forall2 R (row_by_id t c) (row_by_id t' c).
Proof.
  intros HR. unfold row_by_id. induction 1 as [|a a' t t' Ha _ IH]; cbn; [constructor|].
  rewrite (HR _ _ Ha). destruct (bool_decide _); [by constructor|done].
Qed.

(** A write of top-level members. *)
Lemma edit_health t c es h :
  sound t → Forall (λ e, well_named e.1 = true) es → health_at t c = Some h →
  ∃ t' m, set_data c (edit_paths es) t = Some t' ∧ sound t' ∧ health_of m = h ∧
    health_at t' c = Some (health_of (apply_edits es m)) ∧ (∀ x, x ≠ c → health_at t' x = health_at t x).
Proof.
  intros Hs Hes Hh. destruct (set_data_sound t c (edit_paths es)) as (t' & Ht & Hs' & Hf); [done| |].
  { intros a m _ _ Hm. destruct (json_set_members _ _ es Hm Hes) as (d & ? & ?). by exists d, (apply_edits es m). }
  apply health_at_row in Hh as (a & m & Hr & Hm & -> & _).
  exists t', m. split_and!; [done..| |].
  - pose proof (λ P, row_by_id_rows _ _ _ c P Hf) as H. specialize (H ltac:(by intros ? ? [? _])). rewrite Hr in H.
    inversion H as [b a' HP Eb E|]; subst. destruct HP as (_ & _ & _ & _ & Hd). unfold Locks.health_at. rewrite <- E. cbn [mbind option_bind].
    destruct (json_set_members _ _ es Hm Hes) as (d & Hset & Hu). destruct (row_by_id_find _ _ _ Hr) as [_ Hc].
    rewrite Hset in Hd. specialize (Hd Hc). injection Hd as ->. by rewrite Hu.
  - intros x Hx. pose proof (λ P, row_by_id_rows _ _ _ x P Hf) as H. specialize (H ltac:(by intros ? ? [? _])).
    unfold Locks.health_at. inversion H as [b b' HP E1 E2|E1 E2]; [|done]. destruct HP as (_ & _ & _ & Hne & _). cbn [mbind option_bind].
    rewrite Hne; [done|]. symmetry in E1. apply row_by_id_find in E1 as [_ ->]. done.
Qed.

(** *** Reading the members back *)

Lemma small_int n : 0 <= n <= 1000 → number_int out_of_range (itoa n) = n ∧ has_prefix (B "-") (itoa n) = false.
Proof.
  intros Hn. assert (forallb (λ n, (number_int out_of_range (itoa n) =? n) && negb (has_prefix (B "-") (itoa n)))
    (map Z.of_nat (seq 0 1001)) = true) as Hall by by vm_compute.
  assert (n ∈ map Z.of_nat (seq 0 1001)) as Hin
    by (apply list_elem_of_fmap; exists (Z.to_nat n); split; [lia|apply elem_of_seq; lia]).
  rewrite forallb_forall in Hall. specialize (Hall n (proj1 (list_elem_of_In _ _) Hin)).
  by apply andb_prop in Hall as [?%Z.eqb_eq ?%negb_true_iff].
Qed.

Lemma second_read_back u : 0 <= u <= last_instant →
  ParseSecond (FormatSecond u) = Some (floor_sec u) ∧ FormatSecond u ≠ [] ∧ trim_space (FormatSecond u) ≠ [].
Proof.
  intros Hu. pose proof (second_text u Hu). destruct (parse_second u Hu) as [_ ->]. split_and!; [done| |done].
  intros E. by rewrite E in H.
Qed.

Lemma lock_key_inj x y : modelLockPrefix ++ x = modelLockPrefix ++ y → x = y.
Proof. apply app_inv_head. Qed.

Lemma model_key model : quotable model = true → well_named (modelLockDataKey model) = true.
Proof. intros Hq. unfold well_named, modelLockDataKey, quotable in *. by rewrite forallb_app, Hq. Qed.

(** Members of different names. *)
Ltac other_member := first [ done | by apply not_eq_sym; cbn; congruence | by cbn; congruence ].
Ltac read_members :=
  unfold apply_edits; cbn [foldl fst snd member modelLockDataKey backoff_edit];
  repeat first [ rewrite obj_get_put_eq | rewrite obj_get_put_ne by other_member ].

Ltac read_health :=
  split_and!; cbn [h_lock h_cooldown h_park h_failures h_level Locks.health_of];
    [intros ?x; unfold lock_in|unfold readTimestampField|unfold readTimestampField|unfold count_in|unfold level_in];
    read_members; try done.

Lemma lock_after_edit model v m x :
  obj_get (modelLockPrefix ++ x) (obj_put (modelLockPrefix ++ model) v m) =
  if bool_decide (x = model) then v else obj_get (modelLockPrefix ++ x) m.
Proof.
  case_bool_decide as E; [subst; apply obj_get_put_eq|]. apply obj_get_put_ne. by intros ?%lock_key_inj.
Qed.

Lemma level_after_edit level m : 0 <= level <= 15 → level_in out_of_range (obj_put (B "backoffLevel") (JNum (itoa level)) m) = level.
Proof. intros Hl. unfold level_in. rewrite obj_get_put_eq. apply small_int. lia. Qed.

Lemma lock_write v u model level m :
  0 <= level <= 15 → match v with JStr str => if bool_decide (str = []) then None else ParseSecond str | _ => None end = u →
  health_of (apply_edits [(modelLockDataKey model, v); backoff_edit level] m) ≡
    MkHealth (λ x, if bool_decide (x = model) then u else lock_in m x)
      (readTimestampField m "rateLimitedUntil") (readTimestampField m "oauthLockedUntil") (count_in out_of_range m) level.
Proof.
  intros Hl Hv. unfold apply_edits. cbn [foldl fst snd member modelLockDataKey backoff_edit].
  split_and!; cbn [h_lock h_cooldown h_park h_failures h_level Locks.health_of].
  - intros x. unfold lock_in. rewrite obj_get_put_ne by other_member. rewrite lock_after_edit. by case_bool_decide.
  - unfold readTimestampField. by read_members.
  - unfold readTimestampField. by read_members.
  - unfold count_in. by read_members.
  - by apply level_after_edit.
Qed.

Definition steps_to (t : accounts) (c : bytes) (h' : health) (r : option accounts) : Prop :=
  ∃ t', r = Some t' ∧ sound t' ∧ health_at t' c ≡ Some h' ∧ ∀ x, x ≠ c → health_at t' x = health_at t x.

Lemma edit_steps t c es h h' :
  sound t → Forall (λ e, well_named e.1 = true) es → health_at t c = Some h →
  (∀ m, health_of m = h → health_of (apply_edits es m) ≡ h') → steps_to t c h' (set_data c (edit_paths es) t).
Proof.
  intros Hs Hes Hh Hm. destruct (edit_health t c es h Hs Hes Hh) as (t' & m & Ht & Hs' & Em & Hc & Hx).
  exists t'. split_and!; [done..| |done]. rewrite Hc. constructor. by apply Hm.
Qed.

Lemma limit_write m u level e :
  0 <= u <= last_instant → 0 <= level <= 15 →
  health_of (apply_edits [(Plain (B "rateLimitedUntil"), JStr (FormatSecond u)); backoff_edit level;
     (Plain (B "lastError"), e); (Plain (B "status"), JStr (B "error"))] m) ≡
  MkHealth (lock_in m) (Some (floor_sec u)) (readTimestampField m "oauthLockedUntil") (count_in out_of_range m) level.
Proof.
  intros Hu Hl. destruct (second_read_back u Hu) as (Hp & _ & Hb).
  read_health.
  - by rewrite bool_decide_eq_false_2.
  - apply small_int. lia.
Qed.

Lemma park_write m u n e :
  0 <= u <= last_instant → 0 <= n <= 1000 →
  health_of (apply_edits [(Plain (B "oauthLockedUntil"), JStr (FormatSecond u)); (Plain (B "oauthFailureCount"), JNum (itoa n));
     (Plain (B "lastError"), e)] m) ≡
  MkHealth (lock_in m) (readTimestampField m "rateLimitedUntil") (Some (floor_sec u)) n (level_in out_of_range m).
Proof.
  intros Hu Hn. destruct (second_read_back u Hu) as (Hp & _ & Hb). destruct (small_int n Hn) as [Hi Hneg].
  read_health.
  - by rewrite bool_decide_eq_false_2.
  - by rewrite Hneg.
Qed.

Lemma last_error_some now status text model source :
  valid_utf8 text = true → valid_utf8 model = true → valid_utf8 source = true → ∃ e, last_error now status text model source = Some e.
Proof. intros Ht Hm Hs. unfold last_error. rewrite Ht, Hm, Hs. by eexists. Qed.

Lemma park_steps t c h now status text :
  c ≠ [] → sound t → health_at t c = Some h → writable (WPark now status text) h →
  steps_to t c (spec_write (WPark now status text) h) (exec_write (WPark now status text) c t).
Proof.
  intros Hc Hs Hh (Hi1 & Hi2 & Ht & Hf). cbn [exec_write]. unfold RecordConnectionOAuthFailure.
  destruct (readers_of_health t c h Hh) as (_ & _ & _ & _ & Hst). rewrite bool_decide_eq_false_2, Hst by done.
  destruct (last_error_some now status text [] [] Ht eq_refl eq_refl) as [e ->]. cbn [mbind option_bind].
  change (match h_park h with Some u => now <? u | None => false end) with (pending now (h_park h)).
  replace (int64 (h_failures h + 1)) with (h_failures h + 1) by (symmetry; apply int64_id; lia).
  cbn [spec_write]. set (n := if pending now (h_park h) then h_failures h else h_failures h + 1).
  assert (0 <= n <= 1000 ∧ 0 <= now + OAuthLockDelay n <= last_instant) as [Hn Hi] by (unfold n; destruct (pending _ _); split; done || lia).
  assert (steps_to t c (MkHealth (h_lock h) (h_cooldown h) (Some (floor_sec (now + OAuthLockDelay n))) n (h_level h))
    (set_data c (edit_paths [(Plain (B "oauthLockedUntil"), JStr (FormatSecond (now + OAuthLockDelay n)));
       (Plain (B "oauthFailureCount"), JNum (itoa n)); (Plain (B "lastError"), e)]) t)) as (t' & Et & H').
  { eapply edit_steps; [done|by repeat constructor|exact Hh|]. intros m Hm.
    transitivity (MkHealth (lock_in m) (readTimestampField m "rateLimitedUntil") (Some (floor_sec (now + OAuthLockDelay n))) n
      (level_in out_of_range m)); [by apply (park_write m _ _ e)|by rewrite <- Hm]. }
  exists t'. split; [|exact H']. by rewrite Et.
Qed.

Lemma write_steps t c h w :
  c ≠ [] → sound t → health_at t c = Some h → writable w h → steps_to t c (spec_write w h) (exec_write w c t).
Proof.
  intros Hc Hs Hh Hw. destruct w as [now model sec level|model|now until level status text| |now model source status text level|now status text|];
    cbn [exec_write spec_write writable] in *.
  - destruct Hw as (Hi & Hq & Hl). eapply edit_steps; [done| |exact Hh|].
    + repeat constructor. by apply model_key.
    + intros m <-. destruct (second_read_back _ Hi) as (Hp & Hne & _). apply lock_write; [done|].
      by rewrite bool_decide_eq_false_2.
  - eapply edit_steps; [done| |exact Hh|]; [repeat constructor; by apply model_key|]. intros m <-. by apply lock_write.
  - destruct Hw as (Hi & Ht & Hl). unfold LockConnectionRateLimit.
    destruct (last_error_some now status text [] [] Ht eq_refl eq_refl) as [e ->]. eapply edit_steps; [done| |exact Hh|]; [by repeat constructor|].
    intros m <-. by apply limit_write.
  - eapply edit_steps; [done| |exact Hh|]; [by repeat constructor|]. intros m <-.
    read_health.
  - destruct Hw as (Ht & Hm & Hsrc & Hl). unfold RecordConnectionScopedError.
    destruct (last_error_some now status text model source Ht Hm Hsrc) as [e ->].
    eapply edit_steps; [done| |exact Hh|]; [by repeat constructor|]. intros m <-.
    read_health.
    apply small_int. lia.
  - by apply park_steps.
  - unfold ClearConnectionOAuthLock. rewrite bool_decide_eq_false_2 by done.
    eapply edit_steps; [done| |exact Hh|]; [by repeat constructor|]. intros m <-.
    read_health.
Qed.

(** A write whose error is only logged. *)
Lemma attempt_write t c h w :
  c ≠ [] → sound t → health_at t c = Some h → writable w h →
  sound (attempt (exec_write w c) t) ∧ ∃ h', health_at (attempt (exec_write w c) t) c = Some h' ∧ h' ≡ spec_write w h.
Proof.
  intros Hc Hs Hh Hw. destruct (write_steps t c h w Hc Hs Hh Hw) as (t' & Et & Hs' & Hh' & _). unfold attempt. rewrite Et.
  split; [done|]. inversion Hh' as [h1 h2 He E1 E2|]; subst. by exists h1.
Qed.

(** The rows of the others are left as they are, and of the account's only the data
    changes. *)
Definition same_rows (c : bytes) (t t' : accounts) : Prop := Forall2 (λ a a', a' = if bool_decide (ID a = c) then with_data a (Data a') else a) t t'.

Lemma set_data_rows c paths t t' : set_data c paths t = Some t' → same_rows c t t'.
Proof.
  unfold set_data. revert t'. induction t as [|a t IH]; intros t'; cbn [mapM]; [intros [= <-]; constructor|].
  case_bool_decide as E; [destruct (json_set (Data a) paths) as [d|]; [|done]|]; cbn [mbind option_bind fmap option_map option_fmap];
    (destruct (mapM _ t) as [t0|] eqn:Et; [|done]); intros [= <-]; constructor; rewrite ?bool_decide_eq_true_2, ?bool_decide_eq_false_2 by done; auto; by apply IH.
Qed.

Lemma same_rows_refl c t : same_rows c t t.
Proof. apply Forall_Forall2_diag, Forall_forall. intros a _. case_bool_decide; [by destruct a|done]. Qed.

Lemma write_rows c w t t' : exec_write w c t = Some t' → same_rows c t t'.
Proof.
  destruct w; cbn [exec_write]; unfold LockConnectionModel, UnlockConnectionModel, LockConnectionRateLimit, ClearConnectionRateLimit,
    RecordConnectionScopedError, RecordConnectionOAuthFailure, ClearConnectionOAuthLock; try apply set_data_rows.
  - destruct (last_error _ _ _ _ _); [apply set_data_rows|done].
  - destruct (last_error _ _ _ _ _); [apply set_data_rows|done].
  - case_bool_decide; [intros [= <-]; apply same_rows_refl|]. destruct (connectionOAuthState _ _ _) as [until n]. cbv zeta.
    destruct (last_error _ _ _ _ _); [|done]. cbn [mbind option_bind]. destruct (set_data _ _ t) as [t0|] eqn:E; [|done].
    cbn [fmap option_map option_fmap]. intros [= <-]. by eapply set_data_rows.
  - case_bool_decide; [intros [= <-]; apply same_rows_refl|apply set_data_rows].
Qed.

(** C3. Each of the seven writes that follow a request (the lock of a model and its end,
    the cooldown and its end, the record of an error, the park and its end) refines its
    specification on what the selector reads of the account: locks, cooldown, park,
    failures and level change as specified, every other row stays as it is, and of this
    one only the data changes. The write is assumed to be one the code makes: instants
    within the calendar, UTF-8 texts, model names that can be quoted, levels from 0 to 15
    and fewer than 1000 failures. The resets of a whole account are not among them. *)
Theorem writes_refine_health t c h w :
  c ≠ [] → sound t → health_at t c = Some h → writable w h →
  steps_to t c (spec_write w h) (exec_write w c t) ∧ ∀ t', exec_write w c t = Some t' → same_rows c t t'.
Proof. intros. split; [by apply write_steps|apply write_rows]. Qed.

(** *** Resets *)

Lemma set_data_lookup t c paths t' x a : set_data c paths t = Some t' → row_by_id t x = Some a →
  ∃ a', row_by_id t' x = Some a' ∧ (ID a ≠ c → a' = a) ∧ (ID a = c → json_set (Data a) paths = Some (Data a')).
Proof.
  unfold set_data. revert t'. induction t as [|b t IH]; intros t'; [done|]. cbn [mapM].
  destruct (if bool_decide (ID b = c) then _ else _) as [b'|] eqn:Eb; [|done]. cbn [mbind option_bind].
  destruct (mapM _ t) as [t0|] eqn:Et; [|done]. cbn. intros [= <-] Hr.
  assert (ID b' = ID b ∧ (ID b ≠ c → b' = b) ∧ (ID b = c → json_set (Data b) paths = Some (Data b'))) as (Eid & H1 & H2).
  { clear Hr. case_bool_decide; [|by simplify_eq]. destruct (json_set (Data b) paths) as [d|] eqn:Ed; simplify_eq/=. by split_and!. }
  unfold row_by_id in *. cbn [List.find] in *. rewrite Eid. destruct (bool_decide (ID b = x)); [|by apply IH].
  injection Hr as <-. by exists b'.
Qed.

(** An unquoted path with a dot leaves the member of that name alone. *)
Lemma dotted_step t t' id c a b h :
  plain_name (modelLockPrefix ++ a) = true → health_at t c = Some h →
  set_data id (reset_paths [modelLockPrefix ++ a ++ B "." ++ b]) t = Some t' →
  ∃ h', health_at t' c = Some h' ∧ h_lock h' (a ++ B "." ++ b) = h_lock h (a ++ B "." ++ b).
Proof.
  intros Hn (r & m & Hr & Hm & -> & _)%health_at_row Hset.
  destruct (set_data_lookup _ _ _ _ c r Hset Hr) as (r' & Hr' & Hne & Heq). unfold Locks.health_at. rewrite Hr'. cbn [mbind option_bind].
  destruct (decide (ID r = id)) as [E|E]; [|rewrite (Hne E), Hm; by eexists]. specialize (Heq E).
  unfold reset_paths in Heq. cbn [map app] in Heq. unfold unquoted_path, path_text in Heq. rewrite !app_assoc in Heq.
  rewrite <- (app_assoc _ (B ".") b) in Heq.
  destruct (json_set_dotted (Data r) m (modelLockPrefix ++ a) b JNull [backoff_edit 0] (Data r')) as (m' & Hm' & Hget); [done|done|by repeat constructor| |].
  { rewrite <- Heq. unfold path_text. by rewrite !app_assoc. }
  rewrite Hm'. eexists. split; [done|]. cbn [h_lock Locks.health_of]. unfold lock_in.
  rewrite Hget; [done| |].
  - intros E'. apply (f_equal length) in E'. rewrite !length_app in E'. cbn in E'. lia.
  - cbn. by intros [? ?]%elem_of_cons + intros [E'|?%elem_of_nil]%elem_of_cons.
Qed.

(** The health reset of one model does not lift its lock when the name of
    the model has a dot: whatever the outcome of the call, the lock of every
    account reads as before, because the reset writes to an unquoted path. *)
Theorem reset_keeps_dotted_lock now provider a b t c h :
  plain_name (modelLockPrefix ++ a) = true → health_at t c = Some h →
  ∃ h', health_at (ResetProviderHealth now provider (a ++ B "." ++ b) t).1 c = Some h' ∧
    h_lock h' (a ++ B "." ++ b) = h_lock h (a ++ B "." ++ b).
Proof.
  intros Hn. unfold ResetProviderHealth. rewrite (bool_decide_eq_false_2 (a ++ B "." ++ b = [])), andb_false_r by (by destruct a).
  unfold clearSpecificModelLock. generalize (filter (λ r, Provider r = provider) t). intros rows.
  revert t h. induction rows as [|r rows IH]; intros t h Hh; cbn [reset_rows]; [by exists h|].
  destruct (if checkConnectionModelLock _ _ _ then _ else _) as [t'|] eqn:Et; [|by exists h].
  destruct (checkConnectionModelLock _ _ _); [|injection Et as <-; by apply IH].
  destruct (dotted_step t t' (ID r) c a b h Hn Hh Et) as (h1 & Hh1 & E1). destruct (IH t' h1 Hh1) as (h2 & Hh2 & E2).
  exists h2. split; [done|]. by rewrite E2.
Qed.

End HealthFacts.

(** ** A store *)

Module Sample.

#[local] Existing Instance Strokes.codec.
#[local] Existing Instance Rotation.Sample.clock.

(** The label a path names, when it is one label. *)
Definition label_of (path : bytes) : option bytes :=
  match path with
  | "$"%char :: "."%char :: k =>
      match k with
      | c :: k' => if bool_decide (c = dquote) then
                     match rev k' with q :: r => if bool_decide (q = dquote) && quotable (rev r) then Some (rev r) else None | [] => None end
                   else if plain_name k then Some k else None
      | [] => None
      end
  | _ => None
  end.

Definition put_path (m : object) (p : bytes * json) : object :=
  match label_of p.1 with Some k => obj_put k p.2 m | None => m end.

Lemma label_of_path l : well_named l = true → label_of (path_text l) = Some (member l).
Proof.
  destruct l as [k|k]; cbn [well_named member path_text].
  - intros Hk. destruct k as [|c k]; [done|]. cbn -[plain_name]. rewrite bool_decide_eq_false_2; [by rewrite Hk|].
    intros ->. unfold plain_name in Hk. cbn [forallb] in Hk. apply andb_prop in Hk as [_ [Hk _]%andb_prop]. by vm_compute in Hk.
  - intros Hk. cbn -[quotable]. rewrite rev_app_distr. cbn -[quotable]. by rewrite rev_involutive, Hk.
Qed.

Lemma put_paths (es : edits) : ∀ m, Forall (λ e, well_named e.1 = true) es → foldl put_path m (edit_paths es) = apply_edits es m.
Proof.
  induction es as [|[l v] es IH]; intros m; [done|]. inversion 1 as [|? ? Hl Hes]; subst. cbn [edit_paths map foldl].
  unfold put_path at 2. cbn [fst snd]. rewrite label_of_path by exact Hl. by apply IH.
Qed.

Lemma get_put_paths es k : ∀ m, Forall (λ e, well_named e.1 = true) es → k ∉ map (λ e, member e.1) es →
  obj_get k (apply_edits es m) = obj_get k m.
Proof.
  induction es as [|[l v] es IH]; intros m; [done|]. inversion 1; subst. intros Hk. cbn [map] in Hk.
  apply not_elem_of_cons in Hk as [Hk1 Hk2]. change (obj_get k (apply_edits es (obj_put (member l) v m)) = obj_get k m).
  rewrite IH by done. by apply obj_get_put_ne.
Qed.

#[refine] #[local] Instance store_json : SqliteJson := {|
  json_set data paths := match unmarshal data with Some (JObj m) => Some (marshal (JObj (foldl put_path m paths))) | _ => None end
|}.
Proof.
  - intros data m es -> Hes. eexists. split; [done|]. rewrite put_paths by done. apply Strokes.read_encode.
  - intros data m a b v es data' -> Ha Hes [= <-].
    set (m' := foldl put_path m ((path_text (Plain a) ++ B "." ++ b, v) :: edit_paths es)).
    exists m'. split; [exact (Strokes.read_encode (JObj m'))|]. unfold m'. cbn [foldl].
    intros k Hk Hes'. rewrite put_paths by done. rewrite get_put_paths by done. unfold put_path. cbn [fst snd].
    destruct (label_of (path_text (Plain a) ++ B "." ++ b)) as [k'|] eqn:El; [|done]. exfalso.
    destruct a as [|c a]; [done|]. unfold plain_name in Ha. cbn -[plain_name] in Ha, El. apply andb_prop in Ha as [Hc Ha].
    assert (bool_decide (c = dquote) = false) as Hq by (apply bool_decide_eq_false; intros ->; by vm_compute in Hc).
    rewrite Hq in El. unfold plain_name in El. cbn [bool_decide negb andb forallb] in El. rewrite forallb_app in El. cbn [forallb] in El.
    replace (negb (bool_decide ("."%char ∈ ["."; "["; dquote]%char))) with false in El by done.
    by rewrite !andb_false_r in El.
Defined.

Definition row (id provider : string) (m : object) : account := MkAccount (B id) (B provider) 1 (marshal (JObj m)) None None.
Definition now : Z := 1700000000 * NsPerSecond.

(** Locks of a model with a dot in its name and of one without. *)
Definition locked_row : object :=
  [(B "apiKey", JStr (B "sk")); (B "modelLock_gpt-4.1", JStr (B "1700000900Z")); (B "modelLock_o3", JStr (B "1700000900Z"))].
Definition table : accounts := [row "a" "openai" locked_row; row "b" "openai" [(B "apiKey", JStr (B "sk"))]].

Lemma health_row t c id provider m :
  row_by_id t c = Some (row id provider m) → health_at Datatypes.id t c = Some (health_of Datatypes.id m).
Proof. unfold health_at. intros ->. cbn [mbind option_bind].
  change (unmarshal (Data (row id provider m))) with (Strokes.read (Strokes.encode (JObj m))). by rewrite Strokes.read_encode.
Qed.

Lemma reset_dotted_witness :
  IsConnectionModelLocked now table (B "a") (B "gpt-4.1") = true ∧
  IsConnectionModelLocked now (ResetProviderHealth now (B "openai") (B "gpt-4.1") table).1 (B "a") (B "gpt-4.1") = true ∧
  IsConnectionModelLocked now (ResetProviderHealth now (B "openai") (B "o3") table).1 (B "a") (B "o3") = false.
Proof.
  split; [by vm_compute|]. split; [|by vm_compute].
  destruct (reset_keeps_dotted_lock id now (B "openai") (B "gpt-4") (B "1") table (B "a") (health_of id locked_row) eq_refl
    (health_row table (B "a") "a" "openai" locked_row eq_refl))
    as (h' & Hh & El).
  destruct (readers_of_health id _ _ _ Hh) as (Hr & _). change (B "gpt-4.1") with (B "gpt-4" ++ B "." ++ B "1").
  rewrite Hr. rewrite El. by vm_compute.
Defined.

Lemma writes_refine_witness :
  steps_to id table (B "b") (spec_write (WLock now (B "gpt-4.1") 120 3) (health_of id [(B "apiKey", JStr (B "sk"))]))
    (LockConnectionModel now (B "b") (B "gpt-4.1") 120 3 table) ∧
  IsConnectionModelLocked (now + 119 * NsPerSecond) (attempt (LockConnectionModel now (B "b") (B "gpt-4.1") 120 3) table) (B "b") (B "gpt-4.1") = true ∧
  IsConnectionModelLocked (now + 120 * NsPerSecond) (attempt (LockConnectionModel now (B "b") (B "gpt-4.1") 120 3) table) (B "b") (B "gpt-4.1") = false.
Proof.
  split; [|by vm_compute]. refine (proj1 (writes_refine_health id table (B "b") _ (WLock now (B "gpt-4.1") 120 3) _ _ _ _)).
  - by vm_compute.
  - split; [|intros a [->|[->|?%elem_of_nil]%elem_of_cons]%elem_of_cons; [eexists; apply Strokes.read_encode..|done]].
    apply (bool_decide_eq_true_1 (NoDup _)). by vm_compute.
  - apply (health_row table (B "b") "b" "openai" [(B "apiKey", JStr (B "sk"))]). by vm_compute.
  - by vm_compute.
Defined.

(** A rejected grant is counted once per window. *)
Example one_strike_per_window :
  let reject now t := match RecordConnectionOAuthFailure id now (B "b") 401 (B "invalid_grant") t with Some (t, (_, n)) => (t, n) | None => (t, -1) end in
  let '(t1, n1) := reject now table in
  let '(t2, n2) := reject (now + 299 * NsPerSecond) t1 in
  (* the second rejection moved the end of the park: ten seconds later it still holds *)
  let '(t3, n3) := reject (now + 310 * NsPerSecond) t2 in
  (n1, n2, n3) = (1, 1, 1).
Proof. by vm_compute. Qed.

End Sample.
