(* ===== verification/Fallback.v ===== *)
(** * Account fallback of a direct request
    ([handleAccountFallback] and its helpers in
    [internal/handlers/chat/fallback.go], [recordModelDeprecation] in
    [deprecation.go])

    The loop over the accounts of a provider that serves a request which names
    no combo: the selection of [Accounts], the locks of [Locks], the
    classification of [ErrorClassify] and the retirements of [Deprecation]
    composed. Sending one request through one account is a parameter. *)

From S2P Require Import Prelude GoRegexp Json GoText RetryAfter ErrorClassify ToolCalls Resolution Rotation Accounts Deprecation Locks.

(** ** What a failure is about *)

Section Verdicts.
Context `{UnicodeCase} `{UnicodeUpper}.

Definition account_failures : list bytes := map B [
  "no credentials"; "invalid_grant"; "invalid token"; "token type is not supported"; "authentication expired";
  "token expired"; "account suspended"; "account disabled"; "incorrect api key"; "invalid api key";
  "organization is not supported"; "insufficient funds for organization" ]%string.

Definition isAccountAuthFailure (lower : bytes) : bool := existsb (λ t, contains t lower) account_failures.

Definition isModelQuotaText (errorText : bytes) : bool :=
  let upper := to_upper errorText in
  contains (B "QUOTA_EXHAUSTED") upper || contains (B "Individual quota reached") errorText ||
  contains (B "MODEL_CAPACITY_EXHAUSTED") upper.

Definition mentionsGate (lower : bytes) : bool :=
  existsb (λ t, contains t lower)
    (map B ["is not supported"; "not supported"; "model access is disabled"; "endpoint is unavailable"]%string).

Definition isModelScopedError (statusCode : Z) (errorText model : bytes) : bool :=
  if bool_decide (model = []) then false
  else
    let lower := to_lower errorText in
    if isAccountAuthFailure lower then false
    else if ((statusCode =? 429) || (statusCode =? 403) || (statusCode =? 503)) && isModelQuotaText errorText then true
    else if negb (bool_decide (statusCode ∈ [400; 401; 402; 403])) then false
    else if (statusCode =? 402) && (contains (B "insufficient account funds") lower || contains (B "insufficient funds") lower) &&
            negb (contains (B "credits are exhausted") lower) && negb (contains (B "spending limit") lower) then true
    else
      let cleanModel := after_last "/" (to_lower model) in
      (contains cleanModel lower || contains (to_lower model) lower) && mentionsGate lower.

Definition isOpencodeFreeTierRefusal (provider : bytes) (ue : upstreamError) : bool :=
  bool_decide (provider ∈ map B ["opencode"; "opencode-zen"; "opencode-go"]%string) &&
  (ue_StatusCode ue =? 403) && contains (B "FreeTierError") (ue_Body ue).

End Verdicts.

Inductive forward_result := FOk | FUpstream (ue : upstreamError) | FOther (text : bytes).

(** The errors a request ends with. *)
Inductive request_error :=
  | EUpstream (ue : upstreamError)
  | EOther (text : bytes)
  | EPinned (e : select_error)
  | ESelect (e : select_error)
  | ENoKey (connID : bytes)
  | EUnhealthy | ENoActiveConnections | ENoAvailableConnections.

Definition retryAfterSeconds : Z := 30.

Definition opencodeClosureError `{JsonCodec} (provider : bytes) (err : request_error) : request_error :=
  match err with
  | EUpstream ue =>
      if isOpencodeFreeTierRefusal provider ue then
        EUpstream (MkUE 503 (marshal (JObj [(B "error", JObj
          [(B "message", JStr (B "OpenCode's free tier is not serving requests right now. This is an upstream condition rather than a problem with your request or credentials. Retry in about "
              ++ itoa retryAfterSeconds ++ B "s, or use a paid " ++ provider ++ B " key or another provider."));
           (B "type", JStr (B "free_tier_unavailable")); (B "code", JNum (B "503"))])]))
          (itoa retryAfterSeconds))
      else err
  | _ => err
  end.

Definition extractAPIKey (d : ConnectionData) : bytes := if bool_decide (APIKey d = []) then AccessToken d else APIKey d.

Definition repairToolCallIDsInJSON `{JsonCodec} (body : bytes) : bytes :=
  match unmarshal body with
  | Some (JObj m) => if bool_decide (B "messages" ∈ m.*1) then marshal (JObj (repairToolCallIDsInMap m)) else body
  | _ => body
  end.

(** ** The process *)

(** A request sent through an account. *)
Record dial := MkDial { d_Provider : bytes; d_Model : bytes; d_Account : bytes; d_Data : ConnectionData; d_Body : bytes }.

(** [tryForwardWithConnection] and the clock, over the rest [U] of the process:
    the store changes while a request is under way. *)
Class Upstreams (U : Type) := {
  tryForward : dial → U → store → U * store * forward_result;
  clock_at : U → Z;
  stamp_fails : U → bool;
  draw_at : U → nat;
  DefaultAPIKey : bytes → bytes;                     (* of a known provider; empty when it has none *)
  config_key : bytes → ConnectionData → bytes        (* [getProviderConfig]: the default key, empty on error *)
}.

(** Retirements: the cache of recent writes, and what is filed under a key. *)
Record deprecations := MkDeps { deprecationCache : gmap bytes Z; filed : gmap bytes (bytes * bytes * bytes) }.

Definition deprecationRecordTTL : Z := 60 * NsPerSecond.
Definition modelDeprecationCooldownSec : Z := 24 * 60 * 60.

Section Request.
Context {U : Type} `{HG : Upstreams U} `{HJ : JsonCodec} `{HT : RotationTime} `{HC : UnicodeCase} `{HP : UnicodeUpper}
  `{HR : Registry} `{HS : !SqliteJson} `{HGT : GoTime}.
Variable out_of_range : Z → Z.

(** The request: what it asks for, and what the handler reads once. *)
Variables (provider model : bytes) (probe : bool) (settings : option SettingsData).

(** [dials]: the requests sent, with their results, in order. *)
Record process := MkProcess { rest : U; db : store; deps : deprecations; dials : list (dial * forward_result) }.

Definition with_db (d : store) (s : process) : process := MkProcess (rest s) d (deps s) (dials s).
Definition with_table (t : accounts) (s : process) : process :=
  with_db (MkStore t (poolRotationCursors (db s)) (ActivePoolIDs (db s))) s.
Definition table (s : process) : accounts := st_table (db s).
Definition now (s : process) : Z := clock_at (rest s).

(** [getBestConnectionWithContext(ctx, p, connID, nil, model)]. *)
Definition best (p connID : bytes) (s : process) : process * (account * ConnectionData + select_error) :=
  let '(d, r) := getBestConnection (now s) (stamp_fails (rest s)) probe (draw_at (rest s)) settings p connID [] model (db s) in
  (with_db d s, r).

Definition send (connID : bytes) (data : ConnectionData) (body : bytes) (s : process) : process * forward_result :=
  let d := MkDial provider model connID data body in
  let '(u, st, r) := tryForward d (rest s) (db s) in
  (MkProcess u st (deps s) (dials s ++ [(d, r)]), r).

(** How a request ends: answered, with an error for the caller to write, or in
    a panic. *)
Inductive outcome := Served | Failed (e : request_error) | Panicked.

Definition verdict (r : forward_result) : outcome :=
  match r with FOk => Served | FUpstream ue => Failed (EUpstream ue) | FOther text => Failed (EOther text) end.

Definition lock_models (connID : bytes) (sec level : Z) (now : Z) (t : accounts) : accounts :=
  let lockKey := canonicalLockModel provider model in
  let t := attempt (LockConnectionModel now connID lockKey sec level) t in
  if bool_decide (lockKey = model) then t else attempt (LockConnectionModel now connID model sec level) t.

(** *** A retired model *)

Definition deprecationDue (key : bytes) (s : process) : bool :=
  match deprecationCache (deps s) !! key with Some writtenAt => deprecationRecordTTL <=? now s - writtenAt | None => true end.

(** [None]: reading the successor panicked. *)
Definition recordModelDeprecation (connID : bytes) (ue : upstreamError) (s : process) : option process :=
  if probe || bool_decide (provider = []) || bool_decide (model = []) ||
     negb (IsModelDeprecation out_of_range (ue_StatusCode ue) (ue_Body ue)) then Some s
  else
    '(message, successor) ← ParseModelDeprecation (ue_Body ue);
    let s := if bool_decide (connID = []) then s
             else with_table (lock_models connID modelDeprecationCooldownSec 0 (now s) (table s)) s in
    let key := DeprecationKey provider model in
    if negb (deprecationDue key s) then Some s
    else Some (MkProcess (rest s) (db s)
           (MkDeps (<[key := now s]> (deprecationCache (deps s)))
              (<[key := (message, successor, FormatSecond (now s))]> (filed (deps s)))) (dials s)).

(** *** A failure worth another account *)

Definition lock_failed (connID : bytes) (ue : upstreamError) (errorText : bytes) (s : process) : process :=
  let cls := ClassifyError out_of_range (ue_StatusCode ue) errorText (GetConnectionBackoffLevel out_of_range connID (table s)) in
  let cooldownSec := retryableCooldownSec (λ _, now s) (ue_StatusCode ue) (CooldownMs cls * 1000000) ue in
  let t := lock_models connID cooldownSec (NewBackoffLevel cls) (now s) (table s) in
  with_table
    (if isModelScopedError (ue_StatusCode ue) errorText model
     then attempt (RecordConnectionScopedError (now s) connID model (B "chat") (ue_StatusCode ue) errorText (NewBackoffLevel cls)) t
     else attempt (LockConnectionRateLimit (now s) connID (now s + seconds cooldownSec) (NewBackoffLevel cls) (ue_StatusCode ue) errorText) t) s.

(** What the loop does with a failed send: go on to the next account, or end. *)
Inductive after_failure := NextAccount (s : process) | StopWith (o : outcome).

Definition handle_failure (connID : bytes) (r : forward_result) (s : process) : after_failure :=
  match r with
  | FUpstream ue =>
      if IsModelDeprecation out_of_range (ue_StatusCode ue) (ue_Body ue) then
        match recordModelDeprecation connID ue s with Some s => NextAccount s | None => StopWith Panicked end
      else if RetryableStatusCodes (ue_StatusCode ue) then
        if probe || isOpencodeFreeTierRefusal provider ue then NextAccount s
        else match extractErrorText (ue_Body ue) with
             | Some errorText => NextAccount (lock_failed connID ue errorText s)
             | None => StopWith Panicked
             end
      else StopWith (verdict r)
  | _ => StopWith (verdict r)
  end.

(** *** The loop over the accounts *)

Definition usable_key (conn : account) (data : ConnectionData) : bool :=
  negb (bool_decide (extractAPIKey data = [])) || negb (bool_decide (config_key provider data = [])).

Definition keep_first (lastErr : option request_error) (e : request_error) : option request_error :=
  match lastErr with Some _ => lastErr | None => Some e end.

Fixpoint account_loop (body : bytes) (conns : accounts) (excludeIDs : list bytes) (lastErr : option request_error) (s : process)
    : process * outcome :=
  match conns with
  | [] => (s, Failed (match lastErr with Some e => opencodeClosureError provider e | None => ENoAvailableConnections end))
  | c :: conns' =>
      if bool_decide (ID c ∈ excludeIDs) then account_loop body conns' excludeIDs lastErr s
      else
        let '(s, picked) := best provider (ID c) s in
        match picked with
        | inr Panic => (s, Panicked)
        | inr e => account_loop body conns' excludeIDs (keep_first lastErr (ESelect e)) s
        | inl (conn, data) =>
            if negb (usable_key conn data)
            then account_loop body conns' excludeIDs (keep_first lastErr (ENoKey (ID conn))) s
            else
              let '(s, r) := send (ID conn) data body s in
              match r with
              | FOk => (s, Served)
              | FUpstream ue =>
                  match handle_failure (ID conn) r s with
                  | NextAccount s => account_loop body conns' (excludeIDs ++ [ID conn]) (Some (EUpstream ue)) s
                  | StopWith o => (s, o)
                  end
              | FOther _ => (s, verdict r)
              end
        end
  end.

(** *** Providers without an account *)

Inductive borrow := Borrowed (connID key : bytes) | NothingToBorrow | BorrowPanics.

Fixpoint borrow_loop (conns : accounts) (s : process) : process * borrow :=
  match conns with
  | [] => (s, NothingToBorrow)
  | c :: conns' =>
      let '(s, picked) := best (B "opencode-zen") (ID c) s in
      match picked with
      | inl (conn, data) => if bool_decide (extractAPIKey data = []) then borrow_loop conns' s
                            else (s, Borrowed (ID conn) (extractAPIKey data))
      | inr Panic => (s, BorrowPanics)
      | inr _ => borrow_loop conns' s
      end
  end.

Definition borrowZenKeyForGo (s : process) : process * borrow :=
  borrow_loop (GetProviderConnections (table s) (B "opencode-zen")) s.

Definition key_data (key pool : bytes) : ConnectionData := with_pool pool (MkData key [] [] [] false [] [] false []).

Definition send_with_key (connID key body : bytes) (s : process) : process * outcome :=
  let '(d, pool) := ResolveProviderProxyPoolID (draw_at (rest s)) settings provider (db s) in
  let '(s, r) := send connID (key_data key pool) body (with_db d s) in (s, verdict r).

Definition without_accounts (body : bytes) (s : process) : process * outcome :=
  let '(s, borrowed) := if bool_decide (provider = B "opencode-go") then borrowZenKeyForGo s else (s, NothingToBorrow) in
  match borrowed with
  | Borrowed connID key => send_with_key connID key body s
  | BorrowPanics => (s, Panicked)
  | NothingToBorrow =>
      if IsNoAuth provider || negb (bool_decide (DefaultAPIKey provider = []))
      then send_with_key (B "default") (if bool_decide (DefaultAPIKey provider = []) then B "public" else DefaultAPIKey provider) body s
      else (s, Failed ENoActiveConnections)
  end.

Definition handleAccountFallback (pinnedConnectionID body : bytes) (s : process) : process * outcome :=
  let body := repairToolCallIDsInJSON body in
  if negb (bool_decide (pinnedConnectionID = [])) then
    let '(s, picked) := best provider pinnedConnectionID s in
    match picked with
    | inr Panic => (s, Panicked)
    | inr e => (s, Failed (EPinned e))
    | inl (conn, data) => let '(s, r) := send (ID conn) data body s in (s, verdict r)
    end
  else if negb probe && negb (IsProviderAvailable (now s) (table s) provider model) then (s, Failed EUnhealthy)
  else
    match GetProviderConnections (table s) provider with
    | [] => without_accounts body s
    | allConns =>
        match rotate_candidates (now s) (stamp_fails (rest s)) (draw_at (rest s)) settings provider allConns (db s) with
        | None => (s, Panicked)
        | Some (d, conns) => account_loop body conns [] None (with_db d s)
        end
    end.

End Request.

(** ** How a request ends *)

Section Outcomes.
Context {U : Type} `{HG : Upstreams U} `{HJ : JsonCodec} `{HT : RotationTime} `{HC : UnicodeCase} `{HP : UnicodeUpper}
  `{HR : Registry} `{HS : !SqliteJson} `{HGT : GoTime}.
Variable oor : Z → Z.
Variables (provider model : bytes) (probe : bool) (settings : option SettingsData).
Abbreviation process := (@process U).
Abbreviation best := (best model probe settings).
Abbreviation account_loop := (account_loop oor provider model probe settings).
Abbreviation handleAccountFallback := (handleAccountFallback oor provider model probe settings).

(** A failure that says nothing about the other accounts. *)
Definition passed (r : forward_result) : Prop :=
  ∃ ue, r = FUpstream ue ∧
    (RetryableStatusCodes (ue_StatusCode ue) = true ∨ IsModelDeprecation oor (ue_StatusCode ue) (ue_Body ue) = true).

(** How the sends of a request and its end fit together. *)
Definition accounted (ds : list (dial * forward_result)) (o : outcome) : Prop :=
  (∀ pre d r post, ds = pre ++ (d, r) :: post → post ≠ [] → passed r) ∧
  (o = Served ↔ ∃ pre d, ds = pre ++ [(d, FOk)]) ∧
  (∀ pre d r, ds = pre ++ [(d, r)] → ¬ passed r → o = verdict r) ∧
  (∀ pre d ue, ds = pre ++ [(d, FUpstream ue)] → passed (FUpstream ue) →
     o = Panicked ∨ o = Failed (opencodeClosureError provider (EUpstream ue))).

(** *** Steps leave the record of the sends alone *)

Lemma best_dials p connID (s s' : process) r : best p connID s = (s', r) → dials s' = dials s.
Proof. unfold Fallback.best. destruct (getBestConnection _ _ _ _ _ _ _ _ _) as [d x]. by intros [= <- _]. Qed.

Lemma send_dials connID data body (s s' : process) r :
  send provider model connID data body s = (s', r) → dials s' = dials s ++ [(MkDial provider model connID data body, r)].
Proof. unfold send. destruct (tryForward _ _ _) as [[u st] x]. by intros [= <- <-]. Qed.

Lemma record_dials connID ue (s s' : process) : recordModelDeprecation oor provider model probe connID ue s = Some s' → dials s' = dials s.
Proof.
  unfold recordModelDeprecation. destruct (_ || _); [by intros [= <-]|].
  destruct (ParseModelDeprecation _) as [[m x]|]; [|done]. cbn [mbind option_bind].
  destruct (negb _); intros [= <-]; by case_bool_decide.
Qed.

Lemma handle_failure_spec connID r (s : process) :
  match handle_failure oor provider model probe connID r s with
  | NextAccount s' => passed r ∧ dials s' = dials s
  | StopWith o => o = Panicked ∧ passed r ∨ o = verdict r ∧ ¬ passed r
  end.
Proof.
  destruct r as [|ue|]; cbn [handle_failure]; try (right; split; [done|]; by intros (? & ? & _)).
  destruct (IsModelDeprecation oor _ _) eqn:Ed; [|destruct (RetryableStatusCodes _) eqn:Et].
  - destruct (recordModelDeprecation _ _ _ _ _ _ _) as [s0|] eqn:Er; [split; [|by eapply record_dials]|left; split; [done|]];
      exists ue; by auto.
  - destruct (probe || _); [split; [|done]; exists ue; by auto|].
    destruct (extractErrorText _); [split; [|done]|left; split; [done|]]; exists ue; by auto.
  - right. split; [done|]. intros (? & [= <-] & [?|?]); congruence.
Qed.

(** *** Building the record *)

Lemma accounted_nil o : o ≠ Served → accounted [] o.
Proof.
  intros Ho. split_and!; [by intros [|? ?] ???| |by intros [|? ?] ???|by intros [|? ?] ???].
  split; [done|]. by intros ([|? ?] & ? & ?).
Qed.

Lemma passed_not_ok r : passed r → r ≠ FOk.
Proof. by intros (? & -> & _). Qed.

Lemma accounted_stop d r o : o = Panicked ∧ passed r ∨ o = verdict r ∧ ¬ passed r → accounted [(d, r)] o.
Proof.
  intros Ho. split_and!.
  - intros [|? [|? ?]] d' r' post; [by intros [= _ _ <-]|done..].
  - split.
    + intros ->. destruct Ho as [[? _]|[Hv _]]; [done|]. destruct r; [|done..]. by exists [], d.
    + intros ([|? [|? ?]] & d' & E); [|done..]. injection E as -> ->.
      destruct Ho as [[_ Hp]|[-> _]]; [by apply passed_not_ok in Hp|done].
  - intros [|? [|? ?]] d' r' E Hr; [|done..]. injection E as -> ->. by destruct Ho as [[_ ?]|[? _]].
  - intros [|? [|? ?]] d' ue E Hr; [|done..]. injection E as -> ->. by destruct Ho as [[? _]|[_ ?]]; [left|].
Qed.

Lemma accounted_cons d ue ds o :
  passed (FUpstream ue) → accounted ds o →
  (ds = [] → o = Panicked ∨ o = Failed (opencodeClosureError provider (EUpstream ue))) →
  accounted ((d, FUpstream ue) :: ds) o.
Proof.
  intros Hp (H1 & H2 & H3 & H4) Hnil. split_and!.
  - intros [|x pre] d' r' post E Hpost; cbn in E; simplify_eq; [done|by eapply H1].
  - rewrite H2. split; [intros (pre & d' & ->); by exists ((d, FUpstream ue) :: pre), d'|].
    intros ([|x pre] & d' & E); cbn in E; simplify_eq. by exists pre, d'.
  - intros [|x pre] d' r' E Hr; cbn in E; simplify_eq; [done|by eapply H3].
  - intros [|x pre] d' ue' E Hr; cbn in E; simplify_eq; [by apply Hnil|by eapply H4].
Qed.

(** The end of a loop that sends nothing, after the failure [lastErr]. *)
Definition quiet_end (lastErr : option request_error) (o : outcome) : Prop :=
  o ≠ Served ∧ ∀ e, lastErr = Some e → o = Panicked ∨ o = Failed (opencodeClosureError provider e).

Lemma account_loop_accounted body conns : ∀ excl lastErr (s s' : process) o,
  account_loop body conns excl lastErr s = (s', o) →
  ∃ ds, dials s' = dials s ++ ds ∧ (length ds <= length conns)%nat ∧ accounted ds o ∧ (ds = [] → quiet_end lastErr o).
Proof.
  induction conns as [|c conns IH]; intros excl lastErr s s' o.
  { cbn [Fallback.account_loop]. intros [= <- <-]. exists []. rewrite app_nil_r. split_and!; [done|done|by apply accounted_nil|].
    intros _. split; [done|]. intros e ->. by right. }
  assert (∀ excl e s0, dials s0 = dials s → (∀ x, lastErr = Some x → e = Some x) → account_loop body conns excl e s0 = (s', o) →
    ∃ ds, dials s' = dials s ++ ds ∧ (length ds <= length (c :: conns))%nat ∧ accounted ds o ∧ (ds = [] → quiet_end lastErr o)) as Hskip.
  { intros ex e s0 Hs0 He (ds & Hds & Hl & Ha & Hn)%IH. exists ds. rewrite <- Hs0. cbn [length]. split_and!; [done|lia|done|].
    intros [Ho Hq]%Hn. split; [done|]. intros x Hx. by apply Hq, He. }
  assert (∀ d r s0, dials s0 = dials s ++ [(d, r)] → o = Panicked ∧ passed r ∨ o = verdict r ∧ ¬ passed r → s0 = s' →
    ∃ ds, dials s' = dials s ++ ds ∧ (length ds <= length (c :: conns))%nat ∧ accounted ds o ∧ (ds = [] → quiet_end lastErr o)) as Hstop.
  { intros d r s0 Hd Ho <-. exists [(d, r)]. cbn [length]. split_and!; [done|lia|by apply accounted_stop|done]. }
  cbn [Fallback.account_loop]. case_bool_decide; [by eapply Hskip|].
  destruct (best provider (ID c) s) as [s1 [[conn data]|e]] eqn:Eb; pose proof (best_dials _ _ _ _ _ Eb) as Hd1; cycle 1.
  { destruct e; try (by eapply Hskip; [|intros x ->]). intros [= <- <-]. exists []. rewrite app_nil_r. cbn [length].
    split_and!; [done|lia|by apply accounted_nil|]. intros _. by split; [|left]. }
  destruct (negb (usable_key _ _ _)); [by eapply Hskip; [|intros x ->]|].
  destruct (send provider model (ID conn) data body s1) as [s2 r] eqn:Es. pose proof (send_dials _ _ _ _ _ _ Es) as Hd2. rewrite Hd1 in Hd2.
  destruct r as [|ue|text]; [|pose proof (handle_failure_spec (ID conn) (FUpstream ue) s2) as Hf|].
  1, 3: intros [= <- <-]; eapply Hstop; [exact Hd2|right; split; [done|]; by intros (? & ? & _)|done].
  destruct (handle_failure _ _ _ _ _ _ _) as [s3|o'].
  - destruct Hf as [Hp Hd3]. intros (ds & Hds & Hl & Ha & Hn)%IH. exists ((MkDial provider model (ID conn) data body, FUpstream ue) :: ds).
    split_and!; [by rewrite Hds, Hd3, Hd2, <- app_assoc|cbn [length]; lia| |done]. apply accounted_cons; [done..|].
    intros [_ Hq]%Hn. by apply Hq.
  - intros [= <- <-]. by eapply Hstop.
Qed.

(** *** The handler *)

Lemma rotate_candidates_length now fails draw conns d d' conns' :
  rotate_candidates now fails draw settings provider conns d = Some (d', conns') → length conns' = length conns.
Proof.
  unfold rotate_candidates. destruct (_ && _); [|by intros [= _ <-]].
  destruct (applyConnectionStrategy _ _ _ _ _ _) as [[t l]|] eqn:Ea; [|done]. intros [= _ <-].
  unfold applyConnectionStrategy in Ea. destruct (_ <=? _)%nat; [by injection Ea as _ <-|]. destruct (_ || _); [|case_bool_decide; injection Ea as _ <-].
  - unfold selectByRecency in Ea. destruct (choose conns _) as [[r n]|]; [|done]. cbn [mbind option_bind] in Ea.
    destruct (conns !! r) as [c|] eqn:Ec; [|done]. cbn [mbind option_bind] in Ea.
    destruct (TouchConnectionRotation _ _ _ _ _) as [? ?]. injection Ea as _ <-.
    cbn [length]. rewrite length_app, length_take, length_drop. apply lookup_lt_Some in Ec. lia.
  - unfold rotate. rewrite length_app, length_take, length_drop. lia.
  - done.
Qed.

Lemma send_with_key_accounted connID key body (s s' : process) o :
  send_with_key provider model settings connID key body s = (s', o) →
  ∃ d r, dials s' = dials s ++ [(d, r)] ∧ o = verdict r.
Proof.
  unfold send_with_key. destruct (ResolveProviderProxyPoolID _ _ _ _) as [d pool].
  destruct (send _ _ _ _ _ _) as [s1 r] eqn:Es. intros [= <- <-]. apply send_dials in Es. by eexists _, r.
Qed.

Lemma borrow_loop_dials conns : ∀ (s s' : process) b, borrow_loop model probe settings conns s = (s', b) → dials s' = dials s.
Proof.
  induction conns as [|c conns IH]; intros s s' b; cbn [borrow_loop]; [by intros [= <- _]|].
  destruct (best (B "opencode-zen") (ID c) s) as [s1 [[conn data]|e]] eqn:Eb; pose proof (best_dials _ _ _ _ _ Eb) as <-.
  - case_bool_decide; [apply IH|by intros [= <- _]].
  - destruct e; try apply IH. by intros [= <- _].
Qed.

(** A request that no loop serves is sent at most once. *)
Definition sent_once (ds : list (dial * forward_result)) (o : outcome) : Prop :=
  ds = [] ∧ o ≠ Served ∨ ∃ d r, ds = [(d, r)] ∧ o = verdict r.

Lemma without_accounts_once body (s s' : process) o :
  without_accounts provider model probe settings body s = (s', o) → ∃ ds, dials s' = dials s ++ ds ∧ sent_once ds o.
Proof.
  unfold without_accounts. destruct (if bool_decide _ then _ else _) as [s1 b] eqn:Eb.
  assert (dials s1 = dials s) as <-.
  { case_bool_decide; [by eapply borrow_loop_dials|by injection Eb as <- _]. }
  assert (∀ connID key, send_with_key provider model settings connID key body s1 = (s', o) → ∃ ds, dials s' = dials s1 ++ ds ∧ sent_once ds o) as Hkey.
  { intros connID key (d & r & Hd & Ho)%send_with_key_accounted. exists [(d, r)]. split; [done|]. right. by exists d, r. }
  destruct b as [connID key| |].
  - apply Hkey.
  - destruct (_ || _); [apply Hkey|]. intros [= <- <-]. exists []. rewrite app_nil_r. split; [done|]. by left.
  - intros [= <- <-]. exists []. rewrite app_nil_r. split; [done|]. by left.
Qed.

Lemma fallback_run pinned body (s s' : process) o :
  handleAccountFallback pinned body s = (s', o) →
  ∃ ds, dials s' = dials s ++ ds ∧
    if bool_decide (pinned = []) && negb (bool_decide (GetProviderConnections (table s) provider = []))
    then accounted ds o ∧ (length ds <= length (GetProviderConnections (table s) provider))%nat
    else sent_once ds o.
Proof.
  unfold Fallback.handleAccountFallback. case_bool_decide as Ep; cbn [negb andb]; cycle 1.
  { destruct (best provider pinned s) as [s1 [[conn data]|e]] eqn:Eb; pose proof (best_dials _ _ _ _ _ Eb) as <-.
    - destruct (send _ _ _ _ _ _) as [s2 r] eqn:Es. intros [= <- <-]. apply send_dials in Es. eexists. split; [exact Es|]. right. by eexists _, r.
    - intros E. exists []. rewrite app_nil_r. destruct e; injection E as <- <-; (split; [done|by left]). }
  destruct (negb probe && _).
  { intros [= <- <-]. exists []. rewrite app_nil_r. split; [done|]. destruct (negb _); [|by left]. split; [by apply accounted_nil|cbn; lia]. }
  destruct (GetProviderConnections (table s) provider) as [|c conns] eqn:Ec.
  { rewrite bool_decide_eq_true_2 by done. apply without_accounts_once. }
  rewrite bool_decide_eq_false_2 by done. cbn [negb].
  destruct (rotate_candidates _ _ _ _ _ _ _) as [[d l]|] eqn:Er; cycle 1.
  { intros [= <- <-]. exists []. rewrite app_nil_r. split; [done|]. split; [by apply accounted_nil|cbn; lia]. }
  apply rotate_candidates_length in Er as <-. intros (ds & Hds & Hl & Ha & _)%account_loop_accounted. by exists ds.
Qed.

(** C6. How a request for one model ends. With accounts of the provider and no pin:
    every send but the last failed with a status of the retryable table or with a
    retired model; the request is served exactly when the last send was; a last failure
    of another kind is the caller's error as it is, and a last one of these kinds too,
    except that a refusal of OpenCode's free tier is told as a 503 and that reading the
    body may panic; and there are no more sends than active accounts (the same account
    may be asked twice). With a pin, or without accounts, there is at most one send, and
    its result is the outcome. *)
Theorem fallback_outcome pinned body (s s' : process) o :
  handleAccountFallback pinned body s = (s', o) →
  ∃ ds, dials s' = dials s ++ ds ∧
    if bool_decide (pinned = []) && negb (bool_decide (GetProviderConnections (table s) provider = []))
    then accounted ds o ∧ (length ds <= length (GetProviderConnections (table s) provider))%nat
    else sent_once ds o.
Proof. apply fallback_run. Qed.

(** *** The free tier *)

Lemma closure_not_refusal e ue : opencodeClosureError provider e = EUpstream ue → isOpencodeFreeTierRefusal provider ue = false.
Proof.
  destruct e as [u| | | | | | |]; cbn; try done. destruct (isOpencodeFreeTierRefusal provider u) eqn:E; intros [= <-]; [|done].
  unfold isOpencodeFreeTierRefusal. cbn [ue_StatusCode]. by rewrite andb_false_r.
Qed.

Lemma refusal_passed ue : isOpencodeFreeTierRefusal provider ue = true → passed (FUpstream ue).
Proof.
  unfold isOpencodeFreeTierRefusal. intros [[_ E%Z.eqb_eq]%andb_prop _]%andb_prop. exists ue. split; [done|]. left. by rewrite E.
Qed.

Lemma account_loop_refusal body conns : ∀ excl lastErr (s s' : process) ue,
  account_loop body conns excl lastErr s = (s', Failed (EUpstream ue)) → isOpencodeFreeTierRefusal provider ue = false.
Proof.
  induction conns as [|c conns IH]; intros excl lastErr s s' ue; cbn [Fallback.account_loop].
  { destruct lastErr as [e|]; [|done]. intros [= _ E]. by eapply closure_not_refusal. }
  case_bool_decide; [apply IH|]. destruct (best provider (ID c) s) as [s1 [[conn data]|e]].
  - destruct (negb _); [apply IH|]. destruct (send _ _ _ _ _ _) as [s2 [|u|text]]; [done| |done].
    pose proof (handle_failure_spec (ID conn) (FUpstream u) s2) as Hf. destruct (handle_failure _ _ _ _ _ _ _) as [s3|o]; [apply IH|].
    intros [= _ ->]. destruct Hf as [[? _]|[[= ->] Hn]]; [done|]. apply not_true_iff_false. by intros ?%refusal_passed.
  - destruct e; done || apply IH.
Qed.

(** A provider with accounts never answers the caller of a direct request
    with the raw refusal of the OpenCode free tier: when the last account was
    refused, the caller gets a 503 that says when to come back. *)
Theorem free_tier_refusal_not_forwarded body (s s' : process) o :
  GetProviderConnections (table s) provider ≠ [] → handleAccountFallback [] body s = (s', o) →
  (∀ ue, o = Failed (EUpstream ue) → isOpencodeFreeTierRefusal provider ue = false) ∧
  (∀ ds d ue, dials s' = dials s ++ ds ++ [(d, FUpstream ue)] → isOpencodeFreeTierRefusal provider ue = true → o ≠ Panicked →
     ∃ ue', o = Failed (EUpstream ue') ∧ ue_StatusCode ue' = 503 ∧ ue_RetryAfter ue' = B "30").
Proof.
  intros Hne Hrun. split.
  - intros ue ->. revert Hrun. unfold Fallback.handleAccountFallback. rewrite bool_decide_eq_true_2 by done. cbn [negb].
    destruct (negb probe && _); [done|]. destruct (GetProviderConnections _ _) as [|c l]; [done|].
    destruct (rotate_candidates _ _ _ _ _ _ _) as [[d conns]|]; [|done]. apply account_loop_refusal.
  - intros ds d ue Hd Hr Ho. destruct (fallback_run [] body s s' o Hrun) as (ds' & Hds & Hrest).
    rewrite bool_decide_eq_true_2, bool_decide_eq_false_2 in Hrest by done. cbn [andb negb] in Hrest.
    destruct Hrest as ((_ & _ & _ & Hlast) & _). rewrite Hds in Hd. apply app_inv_head in Hd as ->.
    destruct (Hlast ds d ue eq_refl (refusal_passed _ Hr)) as [? | ->]; [done|].
    unfold opencodeClosureError. rewrite Hr. eexists. by split_and!.
Qed.

End Outcomes.

(** ** A failed account sits out

    The writes of a failure, the reads of the selector and the selection
    composed. *)

Section SitsOut.
Context {U : Type} `{HG : Upstreams U} `{HJ : JsonCodec} `{HT : RotationTime} `{HC : UnicodeCase} `{HP : UnicodeUpper}
  `{HR : Registry} `{HS : !SqliteJson} `{HGT : GoTime}.
Variable oor : Z → Z.
Variables (provider model : bytes).
Abbreviation process := (@process U).
Abbreviation health_at := (health_at oor).

(** The lock of a model ends at [until]. *)
Definition lock_ends (t : accounts) (c m : bytes) (until : Z) : Prop :=
  ∃ h, health_at t c = Some h ∧ h_lock h m = Some until.

Lemma lock_models_ends c sec level now (t : accounts) h :
  c ≠ [] → sound t → health_at t c = Some h → quotable model = true → quotable (canonicalLockModel provider model) = true →
  0 <= level <= 15 → 0 <= lock_end now sec <= last_instant →
  let t' := lock_models provider model c sec level now t in
  sound t' ∧ lock_ends t' c (canonicalLockModel provider model) (floor_sec (lock_end now sec)).
Proof.
  intros Hc Hs Hh Hqm Hqk Hl Hi. unfold lock_models. set (key := canonicalLockModel provider model) in *.
  destruct (attempt_write oor t c h (WLock now key sec level) Hc Hs Hh) as (Hs1 & h1 & Hh1 & He1); [done|].
  cbn [exec_write] in *. assert (h_lock h1 key = Some (floor_sec (lock_end now sec))) as Hk1.
  { destruct He1 as (-> & _). cbn [spec_write h_lock]. by rewrite bool_decide_eq_true_2. }
  case_bool_decide as Ek; [split; [done|]; by exists h1|].
  destruct (attempt_write oor _ c h1 (WLock now model sec level) Hc Hs1 Hh1) as (Hs2 & h2 & Hh2 & He2); [done|].
  cbn [exec_write] in *. split; [done|]. exists h2. split; [done|]. destruct He2 as (-> & _). cbn [spec_write h_lock].
  by rewrite bool_decide_eq_false_2.
Qed.

(** The writes that follow keep the locks. *)
Lemma attempt_keeps_lock t c w m until :
  c ≠ [] → sound t → lock_ends t c m until → (∀ h, writable w h) → (∀ h, h_lock (spec_write w h) = h_lock h) →
  lock_ends (attempt (exec_write oor w c) t) c m until.
Proof.
  intros Hc Hs (h & Hh & Hk) Hw Hkeep. destruct (attempt_write oor t c h w Hc Hs Hh (Hw h)) as (_ & h' & Hh' & He).
  exists h'. split; [done|]. destruct He as (-> & _). by rewrite Hkeep.
Qed.

(** A locked account is not selected. *)
Lemma locked_not_selected now fails draw settings connID excl (d d' : store) conn data c until :
  model ≠ [] → c ≠ B "noauth" → lock_ends (st_table d) c (canonicalLockModel provider model) until → now < until →
  getBestConnection now fails false draw settings provider connID excl model d = (d', inl (conn, data)) → ID conn ≠ c.
Proof.
  intros Hm Hna (h & Hh & Hk) Hnow Hbest Hc. destruct (best_spec _ _ _ _ _ _ _ _ _ _ _ _ Hbest) as [(-> & _)|(row & _ & Hsame & Hel & _)].
  - by rewrite <- Hc in Hna.
  - destruct Hel as (_ & (_ & _ & Hfree) & _). specialize (Hfree eq_refl). unfold connectionModelBlocked in Hfree.
    rewrite bool_decide_eq_false_2 in Hfree by done. apply orb_false_elim in Hfree as [Hfree _].
    unfold model_locked in Hfree. apply orb_false_elim in Hfree as [Hfree _].
    destruct Hsame as (Eid & _). rewrite Eid, Hc in Hfree. destruct (readers_of_health oor _ _ _ Hh) as (Hread & _).
    rewrite Hread, Hk in Hfree. cbn [pending] in Hfree. lia.
Qed.

(** How long a failed account is locked. *)
Definition cooldown_of (ue : upstreamError) (text : bytes) (level : Z) (s : process) : Z :=
  if IsModelDeprecation oor (ue_StatusCode ue) (ue_Body ue) then modelDeprecationCooldownSec
  else retryableCooldownSec (λ _, now s) (ue_StatusCode ue) (CooldownMs (ClassifyError oor (ue_StatusCode ue) text level) * 1000000) ue.

(** The lock of [sec] seconds, rounded down to a second. *)
Lemma lock_end_floor now sec : 0 < sec <= 86400 → 0 <= now → now + 86400 * NsPerSecond <= last_instant →
  let until := floor_sec (lock_end now sec) in
  0 <= lock_end now sec <= last_instant ∧ now < until ∧ now + (sec - 1) * NsPerSecond < until <= now + sec * NsPerSecond.
Proof.
  intros Hs Hn Hl. assert (seconds sec = sec * NsPerSecond) as Esec by (unfold seconds, Second, NsPerSecond in *; apply int64_id; lia).
  unfold lock_end. rewrite Esec. split; [unfold NsPerSecond in *; lia|]. unfold floor_sec. rewrite Z.div_add by done. unfold NsPerSecond in *.
  pose proof (Z.div_mod now 1000000000 ltac:(lia)). pose proof (Z.mod_pos_bound now 1000000000 ltac:(lia)). lia.
Qed.

(** The locks a failure leaves on the account. *)
Lemma failure_locks c ue text (s s' : process) h :
  c ≠ [] → provider ≠ [] → model ≠ [] → quotable model = true → quotable (canonicalLockModel provider model) = true →
  sound (table s) → health_at (table s) c = Some h → 0 <= h_level h <= 15 → valid_utf8 text = true → valid_utf8 model = true →
  0 <= now s → now s + 86400 * NsPerSecond <= last_instant →
  isOpencodeFreeTierRefusal provider ue = false → extractErrorText (ue_Body ue) = Some text →
  handle_failure oor provider model false c (FUpstream ue) s = NextAccount s' →
  0 < cooldown_of ue text (h_level h) s <= 86400 ∧
  lock_ends (table s') c (canonicalLockModel provider model) (floor_sec (lock_end (now s) (cooldown_of ue text (h_level h) s))).
Proof.
  intros Hc Hp Hm Hqm Hqk Hs Hh Hlvl Hut Hum Hnow Hlast Hfree Htext. unfold cooldown_of. cbn [handle_failure].
  assert (Hlock : ∀ sec level, 0 <= level <= 15 → 0 < sec <= 86400 → let t' := lock_models provider model c sec level (now s) (table s) in
    sound t' ∧ lock_ends t' c (canonicalLockModel provider model) (floor_sec (lock_end (now s) sec))).
  { intros sec level Hlv Hsec. destruct (lock_end_floor (now s) sec Hsec Hnow Hlast) as (Hi & _). by apply (lock_models_ends c sec level (now s) (table s) h). }
  destruct (IsModelDeprecation oor _ _) eqn:Ed.
  - unfold recordModelDeprecation. rewrite Ed, (bool_decide_eq_false_2 (provider = [])), (bool_decide_eq_false_2 (model = [])) by done.
    cbn [orb negb]. destruct (ParseModelDeprecation _) as [[message successor]|]; [|done]. cbn [mbind option_bind].
    rewrite bool_decide_eq_false_2 by done. destruct (Hlock modelDeprecationCooldownSec 0 ltac:(lia) ltac:(done)) as [_ Hl].
    destruct (negb _); intros [= <-]; done.
  - destruct (RetryableStatusCodes _) eqn:Hst; [|done]. rewrite Hfree, Htext. cbn [orb]. intros [= <-].
    destruct (readers_of_health oor _ _ _ Hh) as (_ & _ & _ & Hback & _).
    unfold lock_failed. rewrite Hback. set (cls := ClassifyError oor (ue_StatusCode ue) text (h_level h)).
    destruct (classify_contract oor (ue_StatusCode ue) text (h_level h)) as (_ & Hfall & Hret & _); [lia|]. fold cls in Hfall, Hret.
    destruct (Hfall (Hret Hst)) as [Hcool Hnew].
    assert (0 <= NewBackoffLevel cls <= 15) as Hlevel by (unfold MaxLevel in Hnew; lia).
    pose proof (retryableCooldown_bounds (λ _, now s) (ue_StatusCode ue) (CooldownMs cls * 1000000) ue ltac:(lia)) as Hsec.
    set (sec := retryableCooldownSec _ _ _ _) in *. split; [lia|]. destruct (Hlock sec (NewBackoffLevel cls) Hlevel ltac:(lia)) as [Hs1 Hl].
    destruct (lock_end_floor (now s) sec ltac:(lia) Hnow Hlast) as (Hi & _).
    assert (seconds sec = sec * NsPerSecond) as Esec by (unfold seconds, Second, NsPerSecond in *; apply int64_id; lia).
    unfold table, with_table. cbn [db with_db st_table]. destruct (isModelScopedError _ _ _).
    + by apply (attempt_keeps_lock _ _ (WRecord (now s) model (B "chat") (ue_StatusCode ue) text (NewBackoffLevel cls))).
    + by apply (attempt_keeps_lock _ _ (WLimit (now s) (now s + seconds sec) (NewBackoffLevel cls) (ue_StatusCode ue) text)).
Qed.

(** C2. When the loop of a request that is no probe goes on past an account whose send
    failed, other than by a refusal of the free tier, the account is locked for the
    model: for a day when the model is retired, else for the cooldown the failure
    classifies to, rounded down to a second of the clock, so for more than that less a
    second. Until then no selection for that provider and model that is no probe yields
    the account: neither through the pin the loop tries next, nor through the strategy
    or the forced fallback. *)
Theorem failed_account_sits_out c ue text (s s' : process) h :
  c ≠ [] → c ≠ B "noauth" → provider ≠ [] → model ≠ [] → quotable model = true → quotable (canonicalLockModel provider model) = true →
  sound (table s) → health_at (table s) c = Some h → 0 <= h_level h <= 15 → valid_utf8 text = true → valid_utf8 model = true →
  0 <= now s → now s + 86400 * NsPerSecond <= last_instant →
  isOpencodeFreeTierRefusal provider ue = false → extractErrorText (ue_Body ue) = Some text →
  handle_failure oor provider model false c (FUpstream ue) s = NextAccount s' →
  let sec := cooldown_of ue text (h_level h) s in
  ∃ until, now s < until ∧ now s + (sec - 1) * NsPerSecond < until <= now s + sec * NsPerSecond ∧
    ∀ later fails draw settings connID excl d' conn data, later < until →
      getBestConnection later fails false draw settings provider connID excl model (db s') = (d', inl (conn, data)) → ID conn ≠ c.
Proof.
  intros Hc Hna Hp Hm Hqm Hqk Hs Hh Hlvl Hut Hum Hnow Hlast Hfree Htext Hnext. cbv zeta.
  destruct (failure_locks c ue text s s' h) as [Hsec Hlock]; [done..|].
  eexists. split; [|split; [|intros later fails draw settings connID excl d' conn data Hlater Hbest; eapply locked_not_selected; [exact Hm|exact Hna|exact Hlock|exact Hlater|exact Hbest]]];
    by apply lock_end_floor.
Qed.

End SitsOut.

(** ** Scripted upstreams *)

Module Sample.

#[local] Existing Instance Strokes.codec.
#[local] Existing Instance Rotation.Sample.clock.
#[local] Existing Instance Locks.Sample.store_json.
#[local] Existing Instance ascii_case.
#[local] Existing Instance Accounts.Sample.registry.
#[local] Instance ascii_upper_case : UnicodeUpper := {| unicode_upper r := r |}.
#[local] Instance no_calendar : GoTime := {| ParseRFC3339 _ := None; FormatRFC3339 _ := []; ParseHTTPTime _ := None |}.

(** The results to come, at a fixed instant; OpenCode's key is public. *)
#[local] Instance scripted : Upstreams (list forward_result) := {|
  tryForward _ script d := match script with r :: script' => (script', d, r) | [] => ([], d, FOther (B "down")) end;
  clock_at _ := Locks.Sample.now;
  stamp_fails _ := false;
  draw_at _ := 0%nat;
  DefaultAPIKey p := if bool_decide (p = B "opencode") then B "public" else [];
  config_key _ _ := [] |}.

Definition start (t : accounts) (script : list forward_result) : process := MkProcess script (MkStore t ∅ []) (MkDeps ∅ ∅) [].
Definition acc (id provider : string) (more : object) : account := Locks.Sample.row id provider ((B "apiKey", JStr (B "sk")) :: more).
Definition cooling : object := [(B "rateLimitedUntil", JStr (B "1700000060Z"))].

Definition limited : forward_result := FUpstream (MkUE 429 (B "slow down") []).
Definition refused : forward_result := FUpstream (MkUE 403 (B "FreeTierError") []).

Abbreviation run provider model t script := (handleAccountFallback id (B provider) (B model) false None [] (B "hi") (start t script)).
Definition dialled (r : @process (list forward_result) * outcome) : list bytes := map (λ e, d_Account e.1) (dials r.1).

Definition pair_table : accounts := [acc "a" "groq" []; acc "b" "groq" []].

Lemma fallback_outcome_witness :
  dialled (run "groq" "llama" pair_table [limited; FOk]) = [B "a"; B "b"] ∧
  accounted id (B "groq") (dials (run "groq" "llama" pair_table [limited; FOk]).1) (run "groq" "llama" pair_table [limited; FOk]).2.
Proof.
  split; [by vm_compute|].
  destruct (run "groq" "llama" pair_table [limited; FOk]) as [s' o] eqn:E.
  destruct (fallback_outcome id (B "groq") (B "llama") false None [] (B "hi") (start pair_table [limited; FOk]) s' o E) as (ds & Hds & H).
  rewrite bool_decide_eq_true_2, bool_decide_eq_false_2 in H by done. cbn [fst snd]. rewrite Hds. apply H.
Defined.

(** Every account of the provider is refused by the free tier. *)
Definition free_table : accounts := [acc "a" "opencode" []; acc "b" "opencode" []].

Lemma free_tier_witness :
  dialled (run "opencode" "big-pickle" free_table [refused; refused]) = [B "a"; B "b"] ∧
  ∃ ue, (run "opencode" "big-pickle" free_table [refused; refused]).2 = Failed (EUpstream ue) ∧ ue_StatusCode ue = 503.
Proof.
  split; [by vm_compute|].
  destruct (run "opencode" "big-pickle" free_table [refused; refused]) as [s' o] eqn:E.
  assert (dials s' = dials (run "opencode" "big-pickle" free_table [refused; refused]).1 ∧
          o = (run "opencode" "big-pickle" free_table [refused; refused]).2) as [Hd Ho] by by rewrite E.
  destruct (free_tier_refusal_not_forwarded id (B "opencode") (B "big-pickle") false None (B "hi")
    (start free_table [refused; refused]) s' o ltac:(done) E) as [_ H2].
  destruct (H2 [(MkDial (B "opencode") (B "big-pickle") (B "a") (key_data (B "sk") []) (B "hi"), refused)] (MkDial (B "opencode") (B "big-pickle") (B "b") (key_data (B "sk") []) (B "hi"))
    (MkUE 403 (B "FreeTierError") [])) as (ue & H & Hst & _).
  - rewrite Hd. by vm_compute.
  - by vm_compute.
  - rewrite Ho. by vm_compute.
  - by exists ue.
Defined.

(** Without an account the free tier is reached with the public key, and its
    refusal reaches the caller as it is. *)
Example keyless_refusal_forwarded :
  (run "opencode" "big-pickle" [] [refused]).2 = Failed (EUpstream (MkUE 403 (B "FreeTierError") [])).
Proof. by vm_compute. Qed.

(** The account that was refused is dialled again when the next candidate cools
    down: the selection is not told which accounts the loop excluded. *)
Example excluded_account_dialled_again :
  dialled (run "opencode" "big-pickle" [acc "a" "opencode" []; acc "b" "opencode" cooling] [refused; refused]) = [B "a"; B "a"].
Proof. by vm_compute. Qed.

(** A retired model is tried on every account. *)
Example retired_model_tried_everywhere :
  dialled (run "groq" "llama" pair_table [FUpstream (MkUE 410 (B "Gone") []); FUpstream (MkUE 410 (B "Gone") [])]) = [B "a"; B "b"].
Proof. by vm_compute. Qed.

Definition slow_down : upstreamError := MkUE 429 (B "slow down") [].
Definition moved_on : @process (list forward_result) :=
  match handle_failure id (B "groq") (B "llama") false (B "a") (FUpstream slow_down) (start pair_table []) with
  | NextAccount s => s | StopWith _ => start [] [] end.

Lemma sits_out_witness :
  ∃ until, Locks.Sample.now + NsPerSecond < until ∧ ∀ later d' conn data, later < until →
    getBestConnection later false false 0 None (B "groq") [] [] (B "llama") (db moved_on) = (d', inl (conn, data)) → ID conn ≠ B "a".
Proof.
  destruct (failed_account_sits_out id (B "groq") (B "llama") (B "a") slow_down [] (start pair_table []) moved_on
    (health_of id [(B "apiKey", JStr (B "sk"))])) as (until & _ & Hu & H).
  1-6, 9-16: by vm_compute.
  - split; [|intros a [->|[->|?%elem_of_nil]%elem_of_cons]%elem_of_cons; [eexists; apply Strokes.read_encode..|done]].
    apply (bool_decide_eq_true_1 (NoDup _)). by vm_compute.
  - apply (Locks.Sample.health_row pair_table (B "a") "a" "groq" [(B "apiKey", JStr (B "sk"))]). by vm_compute.
  - exists until. split; [|intros later d' conn data Hl Hb; by eapply H].
    assert (E : 2 <= cooldown_of id slow_down [] (h_level (health_of id [(B "apiKey", JStr (B "sk"))])) (start pair_table [])) by by vm_compute.
    change (now (start pair_table [])) with Locks.Sample.now in Hu. unfold NsPerSecond in *. lia.
Defined.

End Sample.
