(* ===== verification/Router.v ===== *)
(** * The router: combos over the accounts ([internal/handlers/chat/combo.go])

    [Combo] is stated over an interface, [Gateway]; this file implements it with
    the model resolution of [Resolution], the selection of [Accounts], the locks
    of [Locks] and the retirements of [Deprecation], as the handler composes
    them, and proves what the interface promises of the implementation. *)

From S2P Require Import Prelude GoRegexp Json GoText RetryAfter ErrorClassify ToolCalls Resolution Rotation Accounts Deprecation Locks Fallback Combo.

(** The tables a request reads besides the accounts, and the client. *)
Class Catalog (U : Type) := {
  cat_combos : U → gmap bytes Resolution.Combo;
  cat_alias : U → bytes → bytes;
  cat_node : U → bytes → option bytes;
  cat_settings : U → option Resolution.SettingsData;
  cat_known : bytes → bool
}.

Class Client (U : Type) := {
  cl_done : U → bool;
  cl_hold : U → Z → U * bool;
  cl_committed : U → bool
}.

Section Route.
Context {U : Type} `{HG : Upstreams U} `{HCat : Catalog U} `{HCl : Client U} `{HJ : JsonCodec} `{HT : RotationTime}
  `{HC : UnicodeCase} `{HP : UnicodeUpper} `{HR : Registry} `{HS : !SqliteJson} `{HGT : GoTime}.
Variable out_of_range : Z → Z.
Variables (probe : bool) (settings : option Accounts.SettingsData).

(** The process, the data that came with the last account selected, and whether
    a selection panicked: [resolveModelEntry] calls the selection deep inside,
    nothing recovers there, and the store stays as the panic left it. *)
Record world := MkWorld { proc : @process U; selected : ConnectionData; crashed : bool }.

Definition on_table (f : accounts → option accounts) (w : world) : world :=
  MkWorld (with_table (attempt f (table (proc w))) (proc w)) (selected w) (crashed w).

(** The selection; its error keeps the store it leaves. *)
Definition pick (probe : bool) (w : world) (p pin : bytes) (ex : list bytes) (m : bytes) : world * call bytes :=
  let s := proc w in
  let '(d, r) := Accounts.getBestConnection (now s) (stamp_fails (rest s)) probe (draw_at (rest s)) settings p pin ex m (db s) in
  match r with
  | inl (c, data) => (MkWorld (with_db d s) data (crashed w), Found (ID c))
  | inr Accounts.Panic => (MkWorld (with_db d s) (selected w) true, Crashed)
  | inr _ => (MkWorld (with_db d s) (selected w) (crashed w), Nothing)
  end.

(** The selection as the resolution calls it: after a panic nothing runs. *)
Definition pick_unless_crashed (w : world) (p pin : bytes) (ex : list bytes) (m : bytes) : world * option bytes :=
  if crashed w then (w, None)
  else let '(w, c) := pick false w p pin ex m in (w, match c with Found c => Some c | _ => None end).

#[export] Instance repo_of_process : Repo world := {|
  has_repo := true;
  combos w := cat_combos (rest (proc w));
  Resolution.GetModelAlias w := cat_alias (rest (proc w));
  GetProviderNodeByPrefix w := cat_node (rest (proc w));
  active_connections w p := length (GetProviderConnections (table (proc w)) p);
  Resolution.getBestConnection := pick_unless_crashed;
  Resolution.GetSettings w := cat_settings (rest (proc w));
  IsKnownProvider := cat_known |}.

Definition entry_info (i : Resolution.ModelInfo) : Combo.ModelInfo :=
  MkModel (Resolution.Provider i) (Resolution.Model i) (Resolution.ConnectionID i).

Definition resolve_entry (w : world) (entry : bytes) : world * call Combo.ModelInfo :=
  let '(w, r) := Resolution.resolveModelEntry w entry in
  (w, if crashed w then Crashed else match r with Some i => Found (entry_info i) | None => Nothing end).

(** A keyless provider is reached with its default key. *)
Definition forward_entry (w : world) (req : forward_request) : world * Combo.forward_result :=
  let s := proc w in
  let '(s, data) :=
    if bool_decide (fw_ConnectionID req = []) then
      let '(d, pool) := ResolveProviderProxyPoolID (draw_at (rest s)) settings (fw_Provider req) (db s) in
      (with_db d s, key_data (DefaultAPIKey (fw_Provider req)) pool)
    else (s, selected w) in
  let '(s, r) := send (fw_Provider req) (fw_Model req) (fw_ConnectionID req) data (fw_Body req) s in
  (MkWorld s (selected w) (crashed w),
   match r with Fallback.FOk => FOk | Fallback.FUpstream ue => FUpstream ue | Fallback.FOther t => FOther t end).

(** [None]: reading the successor's name panicked. *)
Definition retire (w : world) (p m c : bytes) (ue : upstreamError) : option world :=
  s ← Fallback.recordModelDeprecation out_of_range p m probe c ue (proc w); Some (MkWorld s (selected w) (crashed w)).

#[export] Instance gateway_of_process : Gateway world := {|
  resolveModelEntry := resolve_entry;
  IsProviderAvailable w p m := Accounts.IsProviderAvailable (now (proc w)) (table (proc w)) p m;
  known_no_auth p := IsNoAuth p || negb (bool_decide (DefaultAPIKey p = []));
  getBestConnection := pick probe;
  canonicalLockModel := Accounts.canonicalLockModel;
  IsConnectionModelLocked w c m := Accounts.IsConnectionModelLocked (now (proc w)) (table (proc w)) c m;
  forward := forward_entry;
  ctx_done w := cl_done (rest (proc w));
  hold w d := let '(u, gone) := cl_hold (rest (proc w)) d in
              (MkWorld (MkProcess u (db (proc w)) (deps (proc w)) (dials (proc w))) (selected w) (crashed w), gone);
  clock w _ := now (proc w);
  is_committed w := cl_committed (rest (proc w));
  IsModelDeprecation := Deprecation.IsModelDeprecation out_of_range;
  recordModelDeprecation := retire;
  is_probe _ := probe;
  GetConnectionBackoffLevel w c := Locks.GetConnectionBackoffLevel out_of_range c (table (proc w));
  LockConnectionModel w c m sec level := on_table (Locks.LockConnectionModel (now (proc w)) c m sec level) w;
  RecordConnectionScopedError w c m status text level :=
    on_table (Locks.RecordConnectionScopedError (now (proc w)) c m (B "chat") status text level) w;
  LockConnectionRateLimit w c until level status text :=
    on_table (Locks.LockConnectionRateLimit (now (proc w)) c until level status text) w;
  isModelScopedError := Fallback.isModelScopedError |}.

(** ** What the interface promises *)

Lemma pick_excludes probe' w p pin ex m w' c : IsNoAuth p = false → pick probe' w p pin ex m = (w', Found c) → c ∉ ex.
Proof.
  intros Hna. unfold pick. destruct (Accounts.getBestConnection _ _ _ _ _ _ _ _ _ _) as [d [[conn data]|e]] eqn:E; [|by destruct e].
  intros [= _ <-]. by eapply pick_not_excluded.
Qed.

Hypothesis out_of_range_int : ∀ z, - 2 ^ 63 <= out_of_range z < 2 ^ 63 - 1.

Lemma backoff_level_int c (t : accounts) : - 2 ^ 63 <= Locks.GetConnectionBackoffLevel out_of_range c t < 2 ^ 63 - 1.
Proof.
  unfold Locks.GetConnectionBackoffLevel. destruct (row_object c t) as [raw|]; [|lia].
  destruct (obj_get _ raw); try lia. by apply number_int_range.
Qed.

(** C10. A combo served by this router does not ask an account that answered
    one of its models with a retryable status again, for any model, before the
    next pass: the selection honours the exclusions, whatever the combo, the
    rows, the settings and the answers of the upstreams are. *)
Theorem router_spares_limited_accounts prepare models (w : world) :
  no_reuse (history (run_combo out_of_range prepare models w).1).
Proof.
  apply run_combo_no_reuse.
  - intros w0 p pin ex m w' c Hna. apply pick_excludes. by apply orb_false_elim in Hna as [? _].
  - intros w0 c. apply backoff_level_int.
  - apply gone_only.
Qed.

End Route.

(** ** A combo over two accounts *)

Module Sample.

#[local] Existing Instance Strokes.codec.
#[local] Existing Instance Rotation.Sample.clock.
#[local] Existing Instance Locks.Sample.store_json.
#[local] Existing Instance ascii_case.
#[local] Existing Instance Accounts.Sample.registry.
#[local] Existing Instance Fallback.Sample.ascii_upper_case.
#[local] Existing Instance Fallback.Sample.no_calendar.
#[local] Existing Instance Fallback.Sample.scripted.

#[local] Instance catalog : Catalog (list Fallback.forward_result) := {|
  cat_combos _ := ∅; cat_alias _ _ := []; cat_node _ _ := None; cat_settings _ := None; cat_known _ := true |}.
#[local] Instance client : Client (list Fallback.forward_result) := {|
  cl_done _ := false; cl_hold u _ := (u, false); cl_committed _ := false |}.

Definition fresh (script : list Fallback.forward_result) : world :=
  MkWorld (Fallback.Sample.start Fallback.Sample.pair_table script) no_data false.

Definition send_all (_ : bytes) (_ : Combo.ModelInfo) : prepared := PBody (B "{}") (B "/v1/chat/completions").
Definition models : list bytes := [B "groq/llama"; B "groq/qwen"].
Definition asked (h : list combo_event) : list (bytes * bytes) :=
  omap (λ e, match e with EvForward q _ => Some (fw_Model q, fw_ConnectionID q) | EvPass => None end) h.

(** The conversion of an amd64. *)
Definition least (_ : Z) : Z := - 2 ^ 63.
Abbreviation run script :=
  (run_combo (H := gateway_of_process least false None) least send_all models (fresh script)) (only parsing).

(** Account [a] is limited for the first model, [b] faults on it and answers the
    second, for which [a] is not asked. *)
Definition script : list Fallback.forward_result :=
  [Fallback.Sample.limited; Fallback.FUpstream (MkUE 404 (B "no such model") []); Fallback.FOther (B "reset")]
  ++ replicate 7 (Fallback.FOther (B "reset")) ++ [Fallback.FOk].

Lemma router_witness :
  no_reuse (history (run script).1) ∧
  take 2 (asked (history (run script).1)) = [(B "llama", B "a"); (B "llama", B "b")] ∧
  last (asked (history (run script).1)) = Some (B "qwen", B "b").
Proof.
  split; [|by vm_compute].
  apply (router_spares_limited_accounts least false None). intros z. unfold least. lia.
Defined.

End Sample.
