(* ===== verification/ClaudeBody.v ===== *)
(** * Requests in the Claude format ([internal/translator/request.go],
    [claude_blocks.go], [claude_trailing_turn.go])

    Cleaning the history of a request before it is passed through to a Claude
    upstream, the repair of its tail, and the placing of the prompt cache
    markers. The decoded request is a tree no part of which is shared, so the
    updates of its maps in place are updates of the tree. *)

From S2P Require Import Prelude GoRegexp Json GoText ErrorClassify Capabilities ToolCalls.

(** ** Members of decoded objects *)

(** [_, exists := m[k]] and [delete(m, k)]. *)
Definition obj_has (k : string) (m : object) : bool := bool_decide (B k ∈ m.*1).
Definition obj_del (k : string) (m : object) : object := filter (λ kv, kv.1 ≠ B k) (m : list _).

(** [json.Unmarshal] into a [map[string]any]: null leaves the nil map. *)
Definition as_map (j : json) : option object :=
  match j with JObj m => Some m | JNull => Some [] | _ => None end.

(** [if l, ok := m[k].([]any); ok { ... }], with the elements updated. *)
Definition on_list (k : string) (f : list json → list json) (m : object) : object :=
  match obj_get (B k) m with JArr l => obj_set (B k) (JArr (f l)) m | _ => m end.

Definition on_object (f : object → object) (j : json) : json :=
  match j with JObj m => JObj (f m) | _ => j end.

(** ** What counts as content *)

Definition claudeBlockText : bytes := B "text".
Definition claudeBlockThinking : bytes := B "thinking".
Definition claudeBlockToolResult : bytes := B "tool_result".
Definition claudeBlockContainerUpload : bytes := B "container_upload".

Definition contentfulBlocks : list bytes :=
  [B "tool_use"; claudeBlockToolResult; B "image"; B "document"; claudeBlockContainerUpload].

Definition block_type (block : object) : bytes := stringOf block "type".

Definition isContentfulBlock (block : object) : bool :=
  if bool_decide (block_type block = claudeBlockText)
  then nonempty (trim_space (stringOf block "text"))
  else bool_decide (block_type block ∈ contentfulBlocks).

Definition contentful_element (b : json) : bool :=
  match b with JObj block => isContentfulBlock block | _ => false end.

Definition isContentfulContent (content : json) : bool :=
  match content with
  | JStr s => nonempty (trim_space s)
  | JArr l => existsb contentful_element l
  | JObj block => isContentfulBlock block
  | _ => false
  end.

Definition hasContent (content : json) : bool :=
  match content with
  | JStr s => nonempty (trim_space s)
  | JArr l => negb (bool_decide (length l = 0%nat))
  | JNull => false
  | _ => true
  end.

(** ** The tail of a conversation *)

Definition TrailingUserPlaceholder : bytes := B "Continue.".

Definition placeholder_turn : json :=
  JObj [(B "role", JStr (B "user"));
        (B "content", JArr [JObj [(B "type", JStr (B "text")); (B "text", JStr TrailingUserPlaceholder)]])].

Definition lastRole (items : list json) : bytes :=
  match last items with Some (JObj obj) => trim_space (stringOf obj "role") | _ => [] end.

(** The branch for an empty last turn appends that turn again to the slice it
    was cut from, so the placeholder comes after it. *)
Definition EnsureTrailingUserTurn (messages : list json) (intentionalPrefill : bool) : list json :=
  if intentionalPrefill then messages
  else match last messages with
       | None => messages
       | Some lastmsg =>
           if bool_decide (lastRole messages = B "assistant") then messages ++ [placeholder_turn]
           else match lastmsg with
                | JObj msg =>
                    if hasContent (obj_get (B "content") msg) then messages
                    else (take (length messages - 1) messages ++ [lastmsg]) ++ [placeholder_turn]
                | _ => messages
                end
       end.

Definition isTrailingUserTurn (messages : list json) (index : nat) : bool :=
  if (length messages - 1 <=? index)%nat then false
  else match messages !! index with
       | Some (JObj obj) => bool_decide (stringOf obj "role" = B "user")
       | _ => false
       end.

(** [reflect.DeepEqual] of decoded values. *)
Fixpoint json_eqb (a b : json) : bool :=
  match a, b with
  | JNull, JNull => true
  | JBool x, JBool y => bool_decide (x = y)
  | JNum x, JNum y => bool_decide (x = y)
  | JStr x, JStr y => bool_decide (x = y)
  | JArr l, JArr k =>
      (fix go l k := match l, k with
                     | [], [] => true
                     | x :: l', y :: k' => json_eqb x y && go l' k'
                     | _, _ => false
                     end) l k
  | JObj m, JObj n =>
      (fix go m n := match m, n with
                     | [], [] => true
                     | kv :: m', kw :: n' => bool_decide (kv.1 = kw.1) && json_eqb kv.2 kw.2 && go m' n'
                     | _, _ => false
                     end) m n
  | _, _ => false
  end.

Definition sameTail (repaired original : list json) : bool :=
  match last repaired, last original with
  | Some (JObj a), Some (JObj b) => json_eqb (JObj a) (JObj b)
  | Some _, Some _ => true
  | _, _ => bool_decide (length repaired = length original)
  end.

(** Whether the filter of [DropNonContentfulClaudeMessages] keeps message [i]. *)
Definition keeps_message (messages : list json) (i : nat) (m : json) : bool :=
  match m with
  | JObj msg =>
      negb (obj_has "content" msg) || isContentfulContent (obj_get (B "content") msg) || isTrailingUserTurn messages i
  | _ => true
  end.

Definition kept_messages (messages : list json) : list json :=
  concat (imap (λ i m, if keeps_message messages i m then [m] else []) messages).

Definition DropNonContentfulClaudeMessages (messages : list json) (intentionalPrefill : bool) : list json * bool :=
  let filtered := kept_messages messages in
  let changed := negb (bool_decide (length filtered = length messages)) in
  let repaired := EnsureTrailingUserTurn filtered intentionalPrefill in
  if negb (bool_decide (length repaired = length filtered)) || negb (sameTail repaired filtered)
  then (repaired, true) else (filtered, changed).

(** ** Cleaning a history *)

(** [^srvtoolu_[a-zA-Z0-9_]+$]. *)
Definition serverToolUseID (id : bytes) : bool :=
  has_prefix (B "srvtoolu_") id &&
  let rest := drop (length (B "srvtoolu_")) id in nonempty rest && forallb is_word rest.

Definition normalizeMessageContent (msg : object) : object :=
  match obj_get (B "content") msg with
  | JObj c => obj_set (B "content") (JArr [JObj (obj_del "cache_control" c)]) msg
  | _ => msg
  end.

Definition claudeMessageKeys : list bytes := [B "role"; B "content"].

Definition dropForeignMessageKeys (msg : object) : object * bool :=
  (filter (λ kv, kv.1 ∈ claudeMessageKeys) (msg : list _), existsb (λ kv, negb (bool_decide (kv.1 ∈ claudeMessageKeys))) msg).

(** The loops over the blocks of every message, with the blocks that stay. *)
Definition filter_blocks (keep : json → bool) (msg : json) : json :=
  on_object (on_list "content" (λ blocks, filter (λ b, keep b = true) blocks)) msg.

Definition blocks_of (msg : json) : list json :=
  match msg with JObj m => arr_of "content" m | _ => [] end.

Definition foreign_server_tool (b : json) : bool :=
  match b with
  | JObj block => bool_decide (block_type block = B "server_tool_use") && negb (serverToolUseID (stringOf block "id"))
  | _ => false
  end.

Definition blank_text (b : json) : bool :=
  match b with
  | JObj block => bool_decide (block_type block = claudeBlockText) && negb (isContentfulBlock block)
  | _ => false
  end.

Definition first_keeps (b : json) : bool := negb (foreign_server_tool b) && negb (blank_text b).

Definition id_of (b : json) : bytes := match b with JObj block => stringOf block "id" | _ => [] end.

Definition dropped_ids (msgs : list json) : list bytes :=
  map id_of (filter (λ b, foreign_server_tool b = true) (concat (map blocks_of msgs))).

Definition orphaned_result (ids : list bytes) (b : json) : bool :=
  match b with
  | JObj block =>
      bool_decide (block_type block ∈ [claudeBlockToolResult; B "web_search_tool_result"]) &&
      bool_decide (stringOf block "tool_use_id" ∈ ids)
  | _ => false
  end.

Definition tidy_message (msg : json) : json :=
  on_object (λ m, (dropForeignMessageKeys (normalizeMessageContent m)).1) msg.

(** The first two passes: the messages with the blocks they keep. *)
Definition scrub (msgs : list json) : list json :=
  let msgs := map tidy_message msgs in
  let ids := dropped_ids msgs in
  let msgs := map (filter_blocks first_keeps) msgs in
  match ids with
  | [] => msgs
  | _ => map (filter_blocks (λ b, negb (orphaned_result ids b))) msgs
  end.

Definition scrub_changes (msgs : list json) : bool :=
  existsb (λ m, match m with JObj m => (dropForeignMessageKeys (normalizeMessageContent m)).2 | _ => false end) msgs ||
  existsb (λ m, existsb (λ b, negb (first_keeps b)) (blocks_of m))
    (map tidy_message msgs).

Definition sanitized (intentionalPrefill : bool) (msgs : list json) : list json * bool :=
  let '(filtered, dropped) := DropNonContentfulClaudeMessages (scrub msgs) intentionalPrefill in
  if dropped then (filtered, true) else (scrub msgs, scrub_changes msgs).

(** A tool without a type is a custom one. *)
Definition default_type (tool : json) : json :=
  on_object (λ m, match obj_get (B "type") m with
                  | JNull | JStr [] => obj_put (B "type") (JStr (B "custom")) m
                  | _ => m
                  end) tool.

Definition untyped (tool : json) : bool :=
  match tool with
  | JObj m => match obj_get (B "type") m with JNull | JStr [] => true | _ => false end
  | _ => false
  end.

Section Bodies.
Context `{JsonCodec}.

Definition ClaudeIntentionalPrefill (rawBody : bytes) : bool :=
  match unmarshal rawBody ≫= as_map with
  | None => false
  | Some body =>
      let role := match lastRole (arr_of "messages" body) with
                  | [] => match obj_get (B "contents") body with
                          | JArr items => lastRole items
                          | _ => lastRole (arr_of "input" body)
                          end
                  | role => role
                  end in
      bool_decide (role = B "assistant") || bool_decide (role = B "model")
  end.

Definition EnsureTrailingUserTurnBody (body : bytes) (intentionalPrefill : bool) : bytes :=
  if intentionalPrefill then body
  else match unmarshal body ≫= as_map with
       | None => body
       | Some req =>
           match obj_get (B "messages") req with
           | JArr messages =>
               let repaired := EnsureTrailingUserTurn messages false in
               if bool_decide (length repaired = length messages) then body
               else marshal (JObj (obj_set (B "messages") (JArr repaired) req))
           | _ => body
           end
       end.

Definition SanitizeClaudePassthrough (body : bytes) (intentionalPrefill : bool) : bytes :=
  match unmarshal body ≫= as_map with
  | None => body
  | Some req =>
      match arr_of "messages" req with
      | [] => body
      | msgs =>
          let '(msgs', changed) := sanitized intentionalPrefill msgs in
          if changed then marshal (JObj (obj_set (B "messages") (JArr msgs') req)) else body
      end
  end.

Definition DefaultClaudeToolType (body : bytes) : bytes :=
  match unmarshal body ≫= as_map with
  | None => body
  | Some req =>
      match arr_of "tools" req with
      | [] => body
      | tools =>
          if existsb untyped tools then marshal (JObj (obj_set (B "tools") (JArr (map default_type tools)) req)) else body
      end
  end.
End Bodies.

(** ** Lemmas *)

Lemma keys_obj_set k v m : (obj_set k v m).*1 = m.*1.
Proof. induction m as [|[k' v'] m IH]; cbn; [done|]. case_bool_decide; cbn; [done|by rewrite IH]. Qed.

(** Removing members leaves the others. *)
Lemma obj_get_filter (P : bytes → Prop) `{∀ k, Decision (P k)} k (m : list (bytes * json)) :
  P k → obj_get k (filter (λ kv, P kv.1) m) = obj_get k m.
Proof.
  intros Hk. induction m as [|[k' v] m IH]; [done|]. rewrite filter_cons. case_decide as Hp; cbn in *.
  - by rewrite IH.
  - rewrite bool_decide_eq_false_2; [done|]. by intros ->.
Qed.

Lemma obj_get_None k (m : object) : k ∉ m.*1 → obj_get k m = JNull.
Proof.
  induction m as [|[k' v] m IH]; cbn; [done|]. intros [? ?]%not_elem_of_cons.
  rewrite bool_decide_eq_false_2 by done. by apply IH.
Qed.

Lemma stringOf_content k f m : k ≠ "content"%string → stringOf (on_list "content" f m) k = stringOf m k.
Proof.
  intros Hk. unfold stringOf, on_list. destruct (obj_get (B "content") m); try done.
  rewrite obj_get_set_ne; [done|]. by intros ?%B_inj.
Qed.

Lemma blocks_of_filter keep msg : blocks_of (filter_blocks keep msg) = filter (λ b, keep b = true) (blocks_of msg).
Proof.
  destruct msg as [| | | | |m]; try done. cbn. unfold arr_of, on_list.
  destruct (obj_get (B "content") m) as [| | | |l|] eqn:E; rewrite ?E; try done.
  rewrite obj_get_set; [done|]. by rewrite E.
Qed.

(** *** What a clean history is *)

(** A block that is no call of a foreign server tool, no blank text, and no
    result of a call in [ids]. *)
Definition clean_block (ids : list bytes) (b : json) : Prop :=
  foreign_server_tool b = false ∧ blank_text b = false ∧ orphaned_result ids b = false.

Definition bare_content (m : object) : bool := match obj_get (B "content") m with JObj _ => true | _ => false end.

Definition clean_message (ids : list bytes) (msg : json) : Prop :=
  match msg with
  | JObj m => Forall (λ k, k ∈ claudeMessageKeys) m.*1 ∧ bare_content m = false ∧ Forall (clean_block ids) (blocks_of msg)
  | _ => True
  end.

(** What a turn may consist of alone, by the blocks of the Messages API: a text that is
    not blank, a call, a result, or a file (an image, a document or an upload). A
    call of a server tool, a thinking block or a block of any other type does not
    count. *)
Inductive content_block (block : object) : Prop :=
  | ContentText : stringOf block "type" = B "text" → trim_space (stringOf block "text") ≠ [] → content_block block
  | ContentCall : stringOf block "type" = B "tool_use" → content_block block
  | ContentResult : stringOf block "type" = B "tool_result" → content_block block
  | ContentImage : stringOf block "type" = B "image" → content_block block
  | ContentDocument : stringOf block "type" = B "document" → content_block block
  | ContentUpload : stringOf block "type" = B "container_upload" → content_block block.

Inductive content : json → Prop :=
  | BareText s : trim_space s ≠ [] → content (JStr s)
  | BareBlock block : content_block block → content (JObj block)
  | SomeBlock l block : JObj block ∈ l → content_block block → content (JArr l).

(** A message with content, or none a filter of content could judge. *)
Inductive carries_content : json → Prop :=
  | HasContent m : content (obj_get (B "content") m) → carries_content (JObj m)
  | NoContentMember m : B "content" ∉ m.*1 → carries_content (JObj m)
  | NoMessage j : (∀ m, j ≠ JObj m) → carries_content j.

Lemma contentful_block_spec block : isContentfulBlock block = true ↔ content_block block.
Proof.
  unfold isContentfulBlock, block_type, claudeBlockText, contentfulBlocks, claudeBlockToolResult, claudeBlockContainerUpload. split.
  - case_bool_decide as E.
    + intros Hn. apply ContentText; [done|]. by intros Ht; rewrite Ht in Hn.
    + intros Hin%bool_decide_eq_true.
      repeat (apply elem_of_cons in Hin as [Hin|Hin]; 
        [first [by apply ContentCall|by apply ContentResult|by apply ContentImage|by apply ContentDocument|by apply ContentUpload]|]).
      by apply elem_of_nil in Hin.
  - intros [E Ht|E|E|E|E|E]; rewrite E; [|done..]. rewrite bool_decide_eq_true_2 by done. by destruct (trim_space _).
Qed.

Lemma contentful_spec j : isContentfulContent j = true ↔ content j.
Proof.
  split.
  - destruct j as [| | |s|l|m]; try done; cbn [isContentfulContent].
    + intros Hs. apply BareText. by intros E; rewrite E in Hs.
    + intros ([| | | | |b] & Hb & Hc)%existsb_exists; try done. apply (SomeBlock l b); [by apply list_elem_of_In|by apply contentful_block_spec].
    + intros Hm. by apply BareBlock, contentful_block_spec.
  - intros [s Hs|b Hb|l b Hin Hb]; cbn [isContentfulContent].
    + by destruct (trim_space s).
    + by apply contentful_block_spec.
    + apply existsb_exists. exists (JObj b). split; [by apply list_elem_of_In|]. by apply contentful_block_spec.
Qed.

(** The code's own test. *)
Definition passes (msg : json) : bool :=
  match msg with
  | JObj m => negb (obj_has "content" m) || isContentfulContent (obj_get (B "content") m)
  | _ => true
  end.

Lemma passes_spec msg : passes msg = true ↔ carries_content msg.
Proof.
  split.
  - destruct msg as [| | | | |m]; try (intros _; by apply NoMessage). cbn. unfold obj_has. case_bool_decide as E; cbn [negb orb].
    + intros Hc. by apply HasContent, contentful_spec.
    + intros _. by apply NoContentMember.
  - intros [m Hc|m Hn|j Hj]; unfold passes.
    + apply contentful_spec in Hc. rewrite Hc. apply orb_true_r.
    + unfold obj_has. by rewrite bool_decide_eq_false_2.
    + destruct j; try done. by destruct (Hj m).
Qed.

#[export] Instance carries_content_dec msg : Decision (carries_content msg).
Proof. refine (cast_if (decide (passes msg = true))); by rewrite <- passes_spec. Defined.

Lemma obj_get_known k m : k ∈ claudeMessageKeys → obj_get k (dropForeignMessageKeys m).1 = obj_get k m.
Proof. intros Hk. exact (obj_get_filter (λ k, k ∈ claudeMessageKeys) k m Hk). Qed.

Lemma tidy_message_clean m :
  match tidy_message m with
  | JObj m' => Forall (λ k, k ∈ claudeMessageKeys) m'.*1 ∧ bare_content m' = false
  | _ => True
  end.
Proof.
  destruct m as [| | | | |m]; try done. cbn [tidy_message on_object]. split.
  - apply Forall_fmap, Forall_forall. intros kv [? _]%list_elem_of_filter. done.
  - unfold bare_content. rewrite obj_get_known by (by right; left).
    unfold normalizeMessageContent. destruct (obj_get (B "content") m) eqn:E; rewrite ?E; try done.
    rewrite obj_get_set; [done|]. by rewrite E.
Qed.

Lemma filter_blocks_clean keep msg :
  match filter_blocks keep msg, msg with
  | JObj m', JObj m => m'.*1 = m.*1 ∧ bare_content m' = bare_content m
  | JObj _, _ => False
  | _, _ => True
  end.
Proof.
  destruct msg as [| | | | |m]; try done. cbn. unfold on_list, bare_content.
  destruct (obj_get (B "content") m) eqn:E; rewrite ?keys_obj_set, ?E; try done.
  split; [done|]. rewrite obj_get_set; [done|]. by rewrite E.
Qed.

Lemma clean_block_filter ids keep bs :
  Forall (clean_block ids) bs → Forall (clean_block ids) (filter (λ b, keep b = true) bs).
Proof. intros Hb. apply Forall_forall. intros b [_ Hin]%list_elem_of_filter. by apply (Forall_forall (clean_block ids) bs). Qed.

Lemma filter_blocks_keys keep ids msg :
  (∀ m, msg = JObj m → Forall (λ k, k ∈ claudeMessageKeys) m.*1 ∧ bare_content m = false) →
  Forall (clean_block ids) (blocks_of (filter_blocks keep msg)) → clean_message ids (filter_blocks keep msg).
Proof.
  intros Hm Hb. pose proof (filter_blocks_clean keep msg) as Hf. destruct msg as [| | | | |m]; try done.
  destruct (filter_blocks keep (JObj m)) as [| | | | |m'] eqn:E; try done.
  destruct Hf as [Hk Hbare]. destruct (Hm m eq_refl) as [H1 H2]. cbn [clean_message]. by rewrite Hk, Hbare.
Qed.

Lemma scrub_clean msgs : Forall (clean_message (dropped_ids (map tidy_message msgs))) (scrub msgs).
Proof.
  unfold scrub. set (ids := dropped_ids (map tidy_message msgs)).
  assert (∀ m, m ∈ map tidy_message msgs → ∀ o, m = JObj o → Forall (λ k, k ∈ claudeMessageKeys) o.*1 ∧ bare_content o = false) as Htidy.
  { intros m (x & -> & _)%list_elem_of_fmap o Ho. pose proof (tidy_message_clean x) as Hc. by rewrite Ho in Hc. }
  assert (∀ m b, b ∈ blocks_of (filter_blocks first_keeps m) → foreign_server_tool b = false ∧ blank_text b = false) as Hfirst.
  { intros m b. rewrite blocks_of_filter. intros [Hb _]%list_elem_of_filter. unfold first_keeps in Hb. by bsplit. }
  destruct ids as [|i ids'] eqn:Ei.
  - apply Forall_fmap, Forall_forall. intros m Hm. apply filter_blocks_keys; [by apply Htidy|].
    apply Forall_forall. intros b Hb. destruct (Hfirst m b Hb). split_and!; try done.
    destruct b; try done. cbn. rewrite (bool_decide_eq_false_2 (_ ∈ [])) by apply not_elem_of_nil. apply andb_false_r.
  - rewrite <- Ei. apply Forall_fmap, Forall_fmap, Forall_forall. intros m Hm.
    pose proof (filter_blocks_clean first_keeps m) as Hf. cbn [compose]. apply filter_blocks_keys.
    + intros o Ho. rewrite Ho in Hf. destruct m as [| | | | |mm]; try done. destruct Hf as [-> ->]. by apply (Htidy (JObj mm)).
    + rewrite blocks_of_filter. apply Forall_forall. intros b [Hb Hin]%list_elem_of_filter.
      destruct (Hfirst m b Hin). apply negb_true_iff in Hb. by split_and!.
Qed.

(** *** Dropping messages *)

Lemma pick_sublist {A} (keep : nat → A → bool) l :
  concat (imap (λ i x, if keep i x then [x] else []) l) `sublist_of` l.
Proof.
  revert keep. induction l as [|x l IH]; intros keep; cbn; [constructor|].
  specialize (IH (λ i, keep (S i))). destruct (keep 0%nat x); cbn; by constructor.
Qed.

Lemma pick_keeps {A} (keep : nat → A → bool) (q : A → bool) l :
  (∀ i x, q x = true → keep i x = true) →
  filter (λ x, q x = true) l `sublist_of` concat (imap (λ i x, if keep i x then [x] else []) l).
Proof.
  revert keep. induction l as [|x l IH]; intros keep Hq; [constructor|]. rewrite imap_cons, filter_cons.
  specialize (IH (λ i, keep (S i)) (λ i, Hq (S i))). case_decide as Hx.
  - rewrite (Hq 0%nat x Hx). cbn. by constructor.
  - destruct (keep 0%nat x); cbn; [by constructor|done].
Qed.

Lemma pick_elem {A} (keep : nat → A → bool) l x :
  x ∈ concat (imap (λ i x, if keep i x then [x] else []) l) ↔ ∃ i, l !! i = Some x ∧ keep i x = true.
Proof.
  revert keep. induction l as [|y l IH]; intros keep.
  { split; [by intros ?%elem_of_nil|by intros (? & ? & ?)]. }
  rewrite imap_cons. cbn [concat]. rewrite elem_of_app. unfold compose. rewrite (IH (λ i, keep (S i))). split.
  - intros [Hx|(i & Hl & Hk)]; [|by exists (S i)]. exists 0%nat. destruct (keep 0%nat y) eqn:E; [|by apply elem_of_nil in Hx].
    by apply list_elem_of_singleton in Hx as ->.
  - intros ([|i] & Hl & Hk); cbn in Hl; [left|right; by exists i]. injection Hl as <-. rewrite Hk. by left.
Qed.

Lemma ensure_cases l prefill :
  EnsureTrailingUserTurn l prefill = l ∨ EnsureTrailingUserTurn l prefill = l ++ [placeholder_turn].
Proof.
  unfold EnsureTrailingUserTurn. destruct prefill; [by left|]. destruct (last l) as [x|] eqn:El; [|by left].
  case_bool_decide; [by right|]. destruct x as [| | | | |m]; try by left. destruct (hasContent _); [by left|right].
  f_equal. apply last_Some in El as [l' ->]. rewrite length_app. cbn [length].
  replace (length l' + 1 - 1)%nat with (length l') by lia. by rewrite take_app_length.
Qed.

Lemma ensure_tail l : EnsureTrailingUserTurn l false = [] ∨ lastRole (EnsureTrailingUserTurn l false) ≠ B "assistant".
Proof.
  destruct (decide (lastRole l = B "assistant")) as [Ha|Ha].
  - right. unfold EnsureTrailingUserTurn. destruct (last l) as [x|] eqn:El.
    + rewrite bool_decide_eq_true_2 by done. unfold lastRole. rewrite last_snoc. by vm_compute.
    + unfold lastRole in Ha. by rewrite El in Ha.
  - destruct (ensure_cases l false) as [-> | ->]; [by right|right]. unfold lastRole. rewrite last_snoc. by vm_compute.
Qed.

Lemma json_eqb_refl j : json_eqb j j = true.
Proof.
  induction j as [| | | |l IH|m IH] using json_nested_ind; cbn [json_eqb]; try by apply bool_decide_eq_true_2.
  - done.
  - induction IH as [|x l Hx _ IH]; [done|]. by rewrite Hx.
  - induction IH as [|x l Hx _ IH]; [done|]. by rewrite Hx, bool_decide_eq_true_2.
Qed.

Lemma sameTail_refl l : sameTail l l = true.
Proof.
  unfold sameTail. destruct (last l) as [x|]; [|by apply bool_decide_eq_true_2].
  destruct x; try done. apply json_eqb_refl.
Qed.

Lemma sublist_eq {A} (l k : list A) : l `sublist_of` k → length l = length k → l = k.
Proof.
  induction 1 as [|x l k Hs IH|x l k Hs IH]; cbn; intros Hl; [done|f_equal; apply IH; lia|].
  apply sublist_length in Hs. lia.
Qed.

Lemma sublist_count {A} (q : A → bool) l k : l `sublist_of` k →
  (length (filter (λ x, q x = true) l) <= length (filter (λ x, q x = true) k))%nat.
Proof.
  induction 1 as [|x l k Hs IH|x l k Hs IH]; [done| |]; rewrite ?filter_cons; case_decide; cbn; lia.
Qed.

Lemma keeps_carrying l i m : passes m = true → keeps_message l i m = true.
Proof. destruct m; try done. cbn. by intros ->. Qed.

(** The list the filter returns, and that its flag says whether it differs. *)
Lemma drop_messages_spec l prefill :
  (DropNonContentfulClaudeMessages l prefill).1 = EnsureTrailingUserTurn (kept_messages l) prefill ∧
  ((DropNonContentfulClaudeMessages l prefill).2 = false ↔ (DropNonContentfulClaudeMessages l prefill).1 = l).
Proof.
  unfold DropNonContentfulClaudeMessages. pose proof (pick_sublist (keeps_message l) l) as Hs. fold (kept_messages l) in Hs.
  destruct (ensure_cases (kept_messages l) prefill) as [E|E]; rewrite E.
  - rewrite bool_decide_eq_true_2, sameTail_refl by done. cbn. split; [done|]. rewrite negb_false_iff, bool_decide_eq_true.
    split; [by apply sublist_eq|by intros ->].
  - rewrite bool_decide_eq_false_2 by (rewrite length_app; cbn; lia). cbn. split; [done|]. split; [done|]. intros Heq. exfalso.
    pose proof (pick_keeps (keeps_message l) passes l (keeps_carrying l)) as Hp. fold (kept_messages l) in Hp.
    apply (sublist_count passes) in Hp. rewrite list_filter_filter_l in Hp by done.
    revert Heq Hp. generalize (kept_messages l). intros k <- Hp. 
    rewrite filter_app, length_app, (filter_cons_True _ placeholder_turn []) in Hp by (by vm_compute). cbn [length] in Hp. lia.
Qed.

Lemma existsb_false {A} (f : A → bool) l : existsb f l = false → Forall (λ x, f x = false) l.
Proof. induction l as [|x l IH]; cbn; [constructor|]. intros [? ?]%orb_false_iff. constructor; [done|by apply IH]. Qed.

Lemma filter_blocks_id keep msg : Forall (λ b, keep b = true) (blocks_of msg) → filter_blocks keep msg = msg.
Proof.
  destruct msg as [| | | | |m]; try done. cbn. unfold arr_of, on_list.
  destruct (obj_get (B "content") m) as [| | | |l|] eqn:E; try done. intros Hl. rewrite filter_id by done.
  f_equal. by apply obj_set_same.
Qed.

Lemma scrub_unchanged msgs : scrub_changes msgs = false → scrub msgs = map (on_object normalizeMessageContent) msgs.
Proof.
  unfold scrub_changes. intros [Hk Hb]%orb_false_iff. apply existsb_false in Hk, Hb.
  assert (map tidy_message msgs = map (on_object normalizeMessageContent) msgs) as Ht.
  { clear Hb. induction Hk as [|m msgs Hm _ IH]; [done|]. cbn [map]. f_equal; [|done].
    destruct m as [| | | | |m]; try done. cbn in Hm |- *. apply existsb_false in Hm. f_equal. apply filter_id.
    eapply Forall_impl; [exact Hm|]. intros kv Hkv. apply negb_false_iff in Hkv. by apply bool_decide_eq_true in Hkv. }
  assert (Forall (λ m, Forall (λ b, first_keeps b = true) (blocks_of m)) (map tidy_message msgs)) as Hf.
  { eapply Forall_impl; [exact Hb|]. cbn. intros m Hm%existsb_false. eapply Forall_impl; [exact Hm|]. cbn.
    intros b. apply negb_false_iff. }
  assert (dropped_ids (map tidy_message msgs) = []) as Hi.
  { unfold dropped_ids. rewrite filter_none; [done|]. clear -Hf. induction Hf as [|m l Hm _ IH]; [constructor|]. cbn [map concat].
    apply Forall_app. split; [|done]. eapply Forall_impl; [exact Hm|]. cbn. unfold first_keeps. intros b Hb. bsplit. congruence. }
  unfold scrub. rewrite Hi, <- Ht. clear -Hf. induction Hf as [|m l Hm _ IH]; [done|]. cbn [map]. by rewrite filter_blocks_id, IH.
Qed.

Lemma sanitized_spec prefill msgs :
  (sanitized prefill msgs).1 = EnsureTrailingUserTurn (kept_messages (scrub msgs)) prefill ∧
  ((sanitized prefill msgs).2 = false → (sanitized prefill msgs).1 = map (on_object normalizeMessageContent) msgs).
Proof.
  unfold sanitized. destruct (drop_messages_spec (scrub msgs) prefill) as [H1 H2].
  destruct (DropNonContentfulClaudeMessages (scrub msgs) prefill) as [out []]; cbn in *; [done|].
  rewrite <- H1. split; [by rewrite (proj1 H2)|]. apply scrub_unchanged.
Qed.

(** ** Properties *)

Section BodyTheorems.
Context `{JsonCodec}.

(** C32. The history of a cleaned Claude request holds no member but role and content, no
    content that is a single object, and in its lists of blocks no call of a foreign
    server tool, no result of a dropped call and no blank text block. Of the messages
    left by this scrubbing, those with content (a text that is not blank, a call, a
    result or a file) stay, in order; one without content stays only when it is a user
    turn, so a turn of nothing but calls of a server tool goes and a blank string of a
    user in the middle stays. Unless the client opened an assistant turn itself, the
    history does not end on one; at most the placeholder is added, at the end. The body
    is re-encoded only when something was taken away or added. *)
Theorem sanitized_history_is_clean body req msgs prefill :
  unmarshal body = Some (JObj req) → obj_get (B "messages") req = JArr msgs → msgs ≠ [] →
  ∃ (out : list json) (changed : bool) (tail : list json),
    SanitizeClaudePassthrough body prefill =
      (if changed then marshal (JObj (obj_set (B "messages") (JArr out) req)) else body) ∧
    (changed = false → out = map (on_object normalizeMessageContent) msgs) ∧
    Forall (clean_message (dropped_ids (map tidy_message msgs))) out ∧
    out = kept_messages (scrub msgs) ++ tail ∧ (tail = [] ∨ tail = [placeholder_turn]) ∧
    filter carries_content (scrub msgs) `sublist_of` kept_messages (scrub msgs) ∧
    kept_messages (scrub msgs) `sublist_of` scrub msgs ∧
    (∀ m, m ∈ out → carries_content m ∨ ∃ o, m = JObj o ∧ stringOf o "role" = B "user") ∧
    (prefill = false → out = [] ∨ lastRole out ≠ B "assistant").
Proof.
  intros Hu Hm Hne. destruct (sanitized_spec prefill msgs) as [H1 H2].
  destruct (sanitized prefill msgs) as [out changed] eqn:Es; cbn in H1, H2.
  assert (∃ tail, out = kept_messages (scrub msgs) ++ tail ∧ (tail = [] ∨ tail = [placeholder_turn])) as (tail & Hout & Htail).
  { rewrite H1. destruct (ensure_cases (kept_messages (scrub msgs)) prefill) as [-> | ->]; eexists;
      [split; [symmetry; apply app_nil_r|by left]|split; [done|by right]]. }
  pose proof (pick_sublist (keeps_message (scrub msgs)) (scrub msgs)) as Hs. fold (kept_messages (scrub msgs)) in Hs.
  exists out, changed, tail. split_and!; try done.
  - unfold SanitizeClaudePassthrough. rewrite Hu. cbn [mbind option_bind as_map]. unfold arr_of. rewrite Hm.
    destruct msgs; [done|]. by rewrite Es.
  - rewrite Hout. apply Forall_app. split.
    + apply Forall_forall. intros m Hin. pose proof (scrub_clean msgs) as Hc. rewrite Forall_forall in Hc. apply Hc.
      by eapply elem_of_sublist.
    + destruct Htail as [-> | ->]; repeat constructor; vm_compute; try done; auto.
  - rewrite (list_filter_iff carries_content (λ m, passes m = true)) by (intros m; by rewrite passes_spec).
    apply pick_keeps, keeps_carrying.
  - intros m. rewrite Hout, elem_of_app. intros [Hin|Hin].
    + apply pick_elem in Hin as (i & Hl & Hk). destruct m as [| | | | |o]; try (left; by apply NoMessage).
      cbn in Hk. destruct (passes (JObj o)) eqn:Ep; [left; by apply passes_spec|right]. cbn in Ep. rewrite Ep in Hk. cbn [orb] in Hk. exists o. split; [done|]. unfold isTrailingUserTurn in Hk.
      rewrite Hl in Hk. destruct (_ <=? _)%nat; [done|]. by apply bool_decide_eq_true in Hk.
    + left. destruct Htail as [-> | ->]; [by apply elem_of_nil in Hin|]. apply list_elem_of_singleton in Hin as ->. apply passes_spec. by vm_compute.
  - intros ->. rewrite H1. apply ensure_tail.
Qed.
End BodyTheorems.

(** A user turn without content survives the filter wherever it stands,
    except at the end of the conversation, where it is dropped: the opposite of
    what the filter spares it for. *)
Theorem empty_user_turn_survives pre m post prefill :
  stringOf m "role" = B "user" → obj_has "content" m = true → isContentfulContent (obj_get (B "content") m) = false →
  (post ≠ [] → JObj m ∈ (DropNonContentfulClaudeMessages (pre ++ JObj m :: post) prefill).1) ∧
  ∃ tail, (DropNonContentfulClaudeMessages (pre ++ [JObj m]) prefill).1 = kept_messages (pre ++ [JObj m]) ++ tail ∧
    (tail = [] ∨ tail = [placeholder_turn]) ∧ kept_messages (pre ++ [JObj m]) `sublist_of` pre.
Proof.
  intros Hr Hh Hc. split.
  - intros Hpost. destruct (drop_messages_spec (pre ++ JObj m :: post) prefill) as [-> _].
    assert (JObj m ∈ kept_messages (pre ++ JObj m :: post)) as Hin.
    { apply pick_elem. exists (length pre). rewrite list_lookup_middle by done. split; [done|].
      cbn [keeps_message]. rewrite Hh, Hc. unfold isTrailingUserTurn. rewrite list_lookup_middle by done. rewrite length_app. cbn.
      destruct post; [done|]. cbn. rewrite (proj2 (Nat.leb_gt _ _)) by lia. by apply bool_decide_eq_true_2. }
    destruct (ensure_cases (kept_messages (pre ++ JObj m :: post)) prefill) as [-> | ->]; [done|].
    apply elem_of_app. by left.
  - destruct (drop_messages_spec (pre ++ [JObj m]) prefill) as [-> _].
    assert (kept_messages (pre ++ [JObj m]) `sublist_of` pre) as Hs.
    { unfold kept_messages. rewrite imap_app, concat_app. cbn [imap concat compose keeps_message]. rewrite Hh, Hc.
      unfold isTrailingUserTurn. rewrite length_app. cbn [length negb orb]. rewrite (proj2 (Nat.leb_le _ _)) by lia.
      cbn [app]. rewrite app_nil_r. apply (pick_sublist (λ i, keeps_message (pre ++ [JObj m]) i)). }
    destruct (ensure_cases (kept_messages (pre ++ [JObj m])) prefill) as [-> | ->];
      [exists []; split_and!; [by rewrite app_nil_r|by left|done]|exists [placeholder_turn]; split_and!; [done|by right|done]].
Qed.

(** ** Samples *)
Module Sample.
#[local] Existing Instance json_codec.

Definition history (s : string) : bytes := js ("{~messages~:[" ++ s ++ "]}").
Arguments history s%_string.

(** A call of a foreign server tool, its result and a foreign member go; the
    last turn is emptied and replaced. *)
Definition dirty : bytes := history "{~role~:~user~,~content~:~hi~},
  {~role~:~assistant~,~reasoning_content~:~x~,~content~:[{~type~:~server_tool_use~,~id~:~call_1~},{~type~:~text~,~text~:~a~}]},
  {~role~:~user~,~content~:[{~type~:~tool_result~,~tool_use_id~:~call_1~}]}".

Example dirty_cleaned : SanitizeClaudePassthrough dirty false =
  history "{~role~:~user~,~content~:~hi~},{~role~:~assistant~,~content~:[{~type~:~text~,~text~:~a~}]},{~role~:~user~,~content~:[{~type~:~text~,~text~:~Continue.~}]}".
Proof. by vm_compute. Qed.

(** The empty user turn in the middle is forwarded, the same turn at the end is
    not. *)
Definition empty_middle : bytes := history "{~role~:~user~,~content~:[]},{~role~:~user~,~content~:~hi~}".

Example empty_middle_forwarded : SanitizeClaudePassthrough empty_middle false = empty_middle.
Proof. by vm_compute. Qed.

(** The repair of a body leaves the empty last turn in place and adds the
    placeholder after it. *)
Example empty_tail_kept :
  EnsureTrailingUserTurnBody (history "{~role~:~user~,~content~:~ ~}") false =
  history "{~role~:~user~,~content~:~ ~},{~role~:~user~,~content~:[{~type~:~text~,~text~:~Continue.~}]}".
Proof. by vm_compute. Qed.

(** A turn that holds only a call of the provider's own server tool counts as
    empty. *)
Example server_tool_turn_dropped :
  SanitizeClaudePassthrough (history "{~role~:~assistant~,~content~:[{~type~:~server_tool_use~,~id~:~srvtoolu_1~}]},{~role~:~user~,~content~:~hi~}") false =
  history "{~role~:~user~,~content~:~hi~}".
Proof. by vm_compute. Qed.

Example prefill_samples :
  ClaudeIntentionalPrefill (js "{~contents~:[{~role~:~model~}]}") = true ∧
  ClaudeIntentionalPrefill (js "{~messages~:[{~role~:~assistant~},{~role~:~user~}]}") = false ∧
  DefaultClaudeToolType (js "{~tools~:[{~name~:~a~}]}") = js "{~tools~:[{~name~:~a~,~type~:~custom~}]}".
Proof. by vm_compute. Qed.

Definition dirty_object : object := match json_decode dirty with Some (JObj m) => m | _ => [] end.

Lemma sanitized_history_witness : json_decode dirty = Some (JObj dirty_object) ∧
  ∃ (out : list json) (changed : bool),
    SanitizeClaudePassthrough dirty false =
      (if changed then json_encode (JObj (obj_set (B "messages") (JArr out) dirty_object)) else dirty) ∧
    Forall (clean_message [B "call_1"]) out ∧ (out = [] ∨ lastRole out ≠ B "assistant").
Proof.
  split; [by vm_compute|].
  destruct (sanitized_history_is_clean dirty dirty_object (arr_of "messages" dirty_object) false)
    as (out & changed & tail & H1 & _ & H3 & _ & _ & _ & _ & _ & H9); [by vm_compute|by vm_compute|by vm_compute|].
  exists out, changed. split; [exact H1|]. split; [|by apply H9].
  replace [B "call_1"] with (dropped_ids (map tidy_message (arr_of "messages" dirty_object))) by (by vm_compute). exact H3.
Defined.

Lemma empty_user_turn_witness : ∃ m,
  JObj m ∈ (DropNonContentfulClaudeMessages ([] ++ JObj m :: [placeholder_turn]) false).1.
Proof.
  exists [(B "role", JStr (B "user")); (B "content", JArr [])].
  by apply (empty_user_turn_survives [] [(B "role", JStr (B "user")); (B "content", JArr [])] [placeholder_turn] false).
Defined.
End Sample.
