(* ===== verification/PromptCache.v ===== *)
(** * Prompt cache markers ([internal/translator/request.go] from
    [LastCacheableToolIndex] on, [claude_blocks.go])

    Which blocks of a Claude request carry [cache_control], and the limit of
    four markers the upstream sets. A pointer to a decoded map, as the code
    collects them, is the place of the map in the request. *)

From S2P Require Import Prelude GoRegexp Json GoText ErrorClassify Capabilities ToolCalls ClaudeBody.

(** ** Markers and their places *)

Definition cacheControlMarkerBudget : nat := 4.

Definition cache_control (m : object) : json := obj_get (B "cache_control") m.

Definition marked (b : json) : bool :=
  match b with JObj m => negb (json_eqb (cache_control m) JNull) | _ => false end.

Definition unmark (b : json) : json := on_object (obj_del "cache_control") b.

Inductive place :=
  | AtSystem (i : nat)
  | AtTool (i : nat)
  | AtBlock (message block : nat).

#[global] Instance place_eq_dec : EqDecision place.
Proof. solve_decision. Defined.

(** The places of the elements of [l] that are marked. *)
Definition marks (at_ : nat → place) (l : list json) : list place :=
  concat (imap (λ i b, if marked b then [at_ i] else []) l).

Definition block_marks (msgs : list json) : list place :=
  concat (imap (λ i m, marks (AtBlock i) (blocks_of m)) msgs).

(** [delete(marker, "cache_control")]. *)
Definition delete_marker (req : object) (p : place) : object :=
  match p with
  | AtSystem i => on_list "system" (alter unmark i) req
  | AtTool i => on_list "tools" (alter unmark i) req
  | AtBlock m i => on_list "messages" (alter (on_object (on_list "content" (alter unmark i))) m) req
  end.

(** ** The code *)

Definition deferred (m : object) : bool := json_eqb (obj_get (B "defer_loading") m) (JBool true).

(** Counting down from the end of the list; [None] is [-1]. *)
Fixpoint last_cacheable (rev_tools : list json) : option nat :=
  match rev_tools with
  | [] => None
  | t :: rest =>
      match t with
      | JObj m => if deferred m then last_cacheable rest else Some (length rest)
      | _ => Some (length rest)
      end
  end.

Definition LastCacheableToolIndex (tools : list json) : option nat := last_cacheable (rev tools).

Definition countCacheControlBlocks (req : object) : nat :=
  length (filter (λ b, marked b = true) (arr_of "system" req)) +
  length (filter (λ b, marked b = true) (arr_of "tools" req)) +
  length (filter (λ b, marked b = true) (concat (map blocks_of (arr_of "messages" req)))).

Definition head_markers (req : object) : list place :=
  let sys := arr_of "system" req in
  let tools := arr_of "tools" req in
  match last sys with Some b => if marked b then [AtSystem (length sys - 1)] else [] | None => [] end ++
  match LastCacheableToolIndex tools with
  | Some i => match tools !! i with Some t => if marked t then [AtTool i] else [] | None => [] end
  | None => []
  end.

Definition rest_markers (req : object) : list place :=
  let sys := arr_of "system" req in
  let tools := arr_of "tools" req in
  marks AtSystem (take (length sys - 1) sys) ++
  filter (λ p, Some p ≠ AtTool <$> LastCacheableToolIndex tools) (marks AtTool tools) ++
  block_marks (arr_of "messages" req).

Definition capCacheControlBlocks (req : object) : object :=
  let keep := (cacheControlMarkerBudget - length (head_markers req))%nat in
  let excess := (length (rest_markers req) - keep)%nat in
  foldl delete_marker req (take excess (rest_markers req)).

Definition ephemeral : json := JObj [(B "type", JStr (B "ephemeral"))].
Definition ephemeral_1h : json := JObj [(B "type", JStr (B "ephemeral")); (B "ttl", JStr (B "1h"))].

Definition anchored_map (m : object) : bool :=
  match cache_control m with
  | JObj cur => json_eqb (obj_get (B "type") cur) (JStr (B "ephemeral")) && json_eqb (obj_get (B "ttl") cur) (JStr (B "1h"))
  | _ => false
  end.

Definition put_anchor (m : object) : object :=
  if anchored_map m then m else obj_put (B "cache_control") ephemeral_1h m.

Definition anchor_tool (lst : option nat) (i : nat) (t : json) : json :=
  on_object (λ m,
    let m := if deferred m then obj_del "cache_control" m else m in
    if bool_decide (Some i = lst) then put_anchor m else obj_del "cache_control" m) t.

Definition anchor_tools (tools : list json) : list json := imap (anchor_tool (LastCacheableToolIndex tools)) tools.

Definition anchor_system (sys : list json) : list json := alter (on_object put_anchor) (length sys - 1)%nat sys.

Definition takes_marker (b : json) : bool :=
  match b with
  | JObj block => negb (bool_decide (block_type block = claudeBlockThinking)) && negb (bool_decide (block_type block = B "redacted_thinking"))
  | _ => false
  end.

(** The index of the last block that takes a marker. *)
Fixpoint last_taking (rev_content : list json) : option nat :=
  match rev_content with
  | [] => None
  | b :: rest => if takes_marker b then Some (length rest) else last_taking rest
  end.

Definition markLastCacheableBlock (content : list json) : list json :=
  match last_taking (rev content) with
  | Some i => alter (on_object (obj_put (B "cache_control") ephemeral)) i content
  | None => content
  end.

Definition is_tool_result (b : json) : bool :=
  match b with JObj block => bool_decide (block_type block = claudeBlockToolResult) | _ => false end.

Definition markFinalToolResults (req : object) : object :=
  let messages := arr_of "messages" req in
  match last messages with
  | Some (JObj lastmsg) =>
      if bool_decide (stringOf lastmsg "role" = B "user") then
        match obj_get (B "content") lastmsg with
        | JArr content =>
            if negb (existsb is_tool_result content) || existsb marked content then req
            else if (cacheControlMarkerBudget <=? countCacheControlBlocks req)%nat then req
            else on_list "messages"
                   (alter (on_object (on_list "content" markLastCacheableBlock)) (length messages - 1)%nat) req
        | _ => req
        end
      else req
  | _ => req
  end.

(** Steps 1 to 3 of [AnchorClaudeCache], and the rest. *)
Definition anchor_heads (req : object) : object :=
  let req := on_list "messages" (map (on_object normalizeMessageContent)) req in
  let req := on_list "tools" anchor_tools req in
  on_list "system" anchor_system req.

Definition spend_budget (req : object) : object :=
  if (cacheControlMarkerBudget <=? countCacheControlBlocks req)%nat then capCacheControlBlocks req
  else capCacheControlBlocks (markFinalToolResults req).

Definition AnchorClaudeCache `{JsonCodec} (body : bytes) : bytes :=
  match unmarshal body ≫= as_map with
  | None => body
  | Some req => marshal (JObj (spend_budget (anchor_heads req)))
  end.

(** ** Lists held by an object *)

Lemma arr_of_on_list k f m : f [] = [] → arr_of k (on_list k f m) = f (arr_of k m).
Proof.
  intros Hf. unfold arr_of, on_list. destruct (obj_get (B k) m) eqn:E; rewrite ?E, ?Hf; try done.
  rewrite obj_get_set; [done|]. by rewrite E.
Qed.

Lemma obj_get_on_list_ne k k2 f m : k ≠ B k2 → obj_get k (on_list k2 f m) = obj_get k m.
Proof. intros Hne. unfold on_list. destruct (obj_get (B k2) m); try done. by apply obj_get_set_ne. Qed.

Lemma arr_of_on_list_ne k k2 f m : k ≠ k2 → arr_of k (on_list k2 f m) = arr_of k m.
Proof. intros Hne. unfold arr_of. rewrite obj_get_on_list_ne; [done|]. by intros ?%B_inj. Qed.

Lemma obj_get_del k m : obj_get (B k) (obj_del k m) = JNull.
Proof. apply obj_get_None. intros (kv & E & [Hne _]%list_elem_of_filter)%list_elem_of_fmap. by rewrite E in Hne. Qed.

Lemma obj_set_twice k v w m : obj_set k v (obj_set k w m) = obj_set k v m.
Proof.
  induction m as [|[k' v'] m IH]; cbn; [done|]. destruct (decide (k = k')) as [->|Hne].
  - rewrite bool_decide_eq_true_2 by done. cbn. by rewrite bool_decide_eq_true_2.
  - rewrite bool_decide_eq_false_2 by done. cbn. rewrite bool_decide_eq_false_2 by done. by rewrite IH.
Qed.

Lemma obj_set_comm k k2 v w m : k ≠ k2 → obj_set k v (obj_set k2 w m) = obj_set k2 w (obj_set k v m).
Proof.
  intros Hne. induction m as [|[k' v'] m IH]; cbn; [done|].
  destruct (decide (k = k')) as [->|Hk]; destruct (decide (k2 = k')) as [->|Hk2]; try done; cbn;
    repeat (first [rewrite bool_decide_eq_true_2 by done|rewrite bool_decide_eq_false_2 by done]; cbn); try done.
  by rewrite IH.
Qed.

Lemma on_list_twice k f g m : on_list k f (on_list k g m) = on_list k (λ l, f (g l)) m.
Proof.
  unfold on_list. destruct (obj_get (B k) m) eqn:E; rewrite ?E; try done.
  rewrite obj_get_set by (by rewrite E). apply obj_set_twice.
Qed.

Lemma on_list_comm k k2 f g m : k ≠ k2 → on_list k f (on_list k2 g m) = on_list k2 g (on_list k f m).
Proof.
  intros Hne. assert (B k ≠ B k2) by (by intros ?%B_inj).
  unfold on_list at 1 3. rewrite !obj_get_on_list_ne by done. unfold on_list.
  destruct (obj_get (B k) m) eqn:E, (obj_get (B k2) m) eqn:E2; rewrite ?E, ?E2; try done.
  by apply obj_set_comm.
Qed.

Lemma on_list_ext k f g m : (∀ l, f l = g l) → on_list k f m = on_list k g m.
Proof. intros Hfg. unfold on_list. destruct (obj_get (B k) m); try done. by rewrite Hfg. Qed.

Lemma on_list_id k f m : f (arr_of k m) = arr_of k m → on_list k f m = m.
Proof.
  unfold arr_of, on_list. destruct (obj_get (B k) m) as [| | | |l|] eqn:E; try done. intros ->. by apply obj_set_same.
Qed.

Lemma unmark_marked b : marked (unmark b) = false.
Proof. destruct b; try done. cbn. unfold cache_control. by rewrite obj_get_del. Qed.

(** ** The marks of a request *)

Lemma marks_cons at_ b l : marks at_ (b :: l) = (if marked b then [at_ 0%nat] else []) ++ marks (λ i, at_ (S i)) l.
Proof. unfold marks. by rewrite imap_cons. Qed.

Lemma marks_length at_ l : length (marks at_ l) = length (filter (λ b, marked b = true) l).
Proof.
  revert at_. induction l as [|b l IH]; intros at_; [done|]. rewrite marks_cons, filter_cons, length_app, IH.
  case_decide as Hb; [by rewrite Hb|]. by destruct (marked b).
Qed.

Lemma marks_elem at_ l p : p ∈ marks at_ l ↔ ∃ i b, p = at_ i ∧ l !! i = Some b ∧ marked b = true.
Proof.
  revert at_. induction l as [|b l IH]; intros at_.
  { split; [by intros ?%elem_of_nil|by intros (? & ? & ? & ? & ?)]. }
  rewrite marks_cons, elem_of_app, IH. split.
  - intros [Hx|(i & c & -> & Hl & Hk)]; [|by exists (S i), c].
    destruct (marked b) eqn:E; [|by apply elem_of_nil in Hx]. apply list_elem_of_singleton in Hx as ->. by exists 0%nat, b.
  - intros ([|i] & c & -> & Hl & Hk); cbn in Hl; [left|right; by exists i, c]. injection Hl as <-. rewrite Hk. by left.
Qed.

Lemma inj_succ (at_ : nat → place) : Inj (=) (=) at_ → Inj (=) (=) (λ i, at_ (S i)).
Proof. intros Hinj i j E%Hinj. by injection E. Qed.

Lemma marks_nodup at_ l : Inj (=) (=) at_ → NoDup (marks at_ l).
Proof.
  revert at_. induction l as [|b l IH]; intros at_ Hinj; [constructor|]. rewrite marks_cons.
  pose proof (IH _ (inj_succ _ Hinj)). destruct (marked b); [|done]. cbn. constructor; [|done].
  intros (i & c & E & _)%marks_elem. by apply Hinj in E.
Qed.

Lemma marks_alter at_ l i : Inj (=) (=) at_ → marks at_ (alter unmark i l) = filter (λ p, p ≠ at_ i) (marks at_ l).
Proof.
  revert at_ i. induction l as [|b l IH]; intros at_ i Hinj; [done|].
  destruct i as [|i]; [change (alter unmark 0%nat (b :: l)) with (unmark b :: l)
                      |change (alter unmark (S i) (b :: l)) with (b :: alter unmark i l)];
    rewrite !marks_cons, filter_app.
  - rewrite unmark_marked, (filter_id _ (marks _ l)).
    + destruct (marked b); [|done]. by rewrite filter_cons_False by auto.
    + apply Forall_forall. intros p (j & c & -> & _)%marks_elem E. by apply Hinj in E.
  - rewrite <- (IH (λ i, at_ (S i)) i (inj_succ _ Hinj)). f_equal. destruct (marked b); [|done].
    rewrite filter_cons_True; [done|]. by intros ?%Hinj.
Qed.

(** Marks of another kind are not concerned. *)
Lemma marks_other at_ l p : (∀ i, at_ i ≠ p) → filter (λ q, q ≠ p) (marks at_ l) = marks at_ l.
Proof. intros Hne. apply filter_id, Forall_forall. intros q (j & c & -> & _)%marks_elem. done. Qed.

(** The mark of one element among those of its list. *)
Lemma marks_at at_ l i : Inj (=) (=) at_ →
  filter (λ p, p = at_ i) (marks at_ l) = match l !! i with Some b => if marked b then [at_ i] else [] | None => [] end.
Proof.
  revert at_ i. induction l as [|b l IH]; intros at_ i Hinj; [done|]. rewrite marks_cons, filter_app. destruct i as [|i]; cbn [lookup list_lookup].
  - rewrite (filter_none _ (marks _ l)), app_nil_r.
    + destruct (marked b); [|done]. by rewrite filter_cons_True.
    + apply Forall_forall. intros p (j & c & -> & _)%marks_elem E. by apply Hinj in E.
  - rewrite (IH (λ i, at_ (S i)) i (inj_succ _ Hinj)). destruct (marked b); [|done].
    rewrite filter_cons_False; [done|]. by intros ?%Hinj.
Qed.

#[global] Instance AtSystem_inj : Inj (=) (=) AtSystem.
Proof. by intros ? ? [=]. Qed.
#[global] Instance AtTool_inj : Inj (=) (=) AtTool.
Proof. by intros ? ? [=]. Qed.
#[global] Instance AtBlock_inj m : Inj (=) (=) (AtBlock m).
Proof. by intros ? ? [=]. Qed.

(** The blocks of all messages, numbered from [n]. *)
Definition block_marks_from (n : nat) (msgs : list json) : list place :=
  concat (imap (λ i m, marks (AtBlock (n + i)) (blocks_of m)) msgs).

Lemma block_marks_cons n m msgs :
  block_marks_from n (m :: msgs) = marks (AtBlock n) (blocks_of m) ++ block_marks_from (S n) msgs.
Proof.
  unfold block_marks_from. rewrite imap_cons. cbn [concat]. rewrite Nat.add_0_r. do 2 f_equal.
  apply imap_ext. intros i x _. unfold compose. by replace (n + S i)%nat with (S n + i)%nat by lia.
Qed.

Lemma block_marks_elem n msgs p : p ∈ block_marks_from n msgs → ∃ i j, p = AtBlock i j ∧ (n <= i)%nat.
Proof.
  revert n. induction msgs as [|m msgs IH]; intros n; [by intros ?%elem_of_nil|].
  rewrite block_marks_cons, elem_of_app. intros [(j & c & -> & _)%marks_elem|(i & j & -> & ?)%IH]; eexists _, _; split; try done; lia.
Qed.

Lemma block_marks_nodup n msgs : NoDup (block_marks_from n msgs).
Proof.
  revert n. induction msgs as [|m msgs IH]; intros n; [constructor|]. rewrite block_marks_cons. apply NoDup_app. split_and!; [|by intros p (j & c & -> & _)%marks_elem (i & j' & [=] & ?)%block_marks_elem; lia|done].
  apply marks_nodup, _.
Qed.

Lemma block_marks_length n msgs :
  length (block_marks_from n msgs) = length (filter (λ b, marked b = true) (concat (map blocks_of msgs))).
Proof.
  revert n. induction msgs as [|m msgs IH]; intros n; [done|]. rewrite block_marks_cons. cbn [map concat].
  by rewrite filter_app, !length_app, marks_length, (IH (S n)).
Qed.

Lemma blocks_of_unmark m i : blocks_of (on_object (on_list "content" (alter unmark i)) m) = alter unmark i (blocks_of m).
Proof. destruct m; try done. cbn. by rewrite arr_of_on_list. Qed.

Lemma block_marks_alter n msgs i j :
  block_marks_from n (alter (on_object (on_list "content" (alter unmark j))) i msgs) =
    filter (λ p, p ≠ AtBlock (n + i) j) (block_marks_from n msgs).
Proof.
  revert n i. induction msgs as [|m msgs IH]; intros n i; [done|]. rewrite block_marks_cons, filter_app. destruct i as [|i].
  - change (alter ?f 0%nat (m :: msgs)) with (f m :: msgs). rewrite block_marks_cons, blocks_of_unmark, Nat.add_0_r, marks_alter by apply _.
    f_equal. symmetry. apply filter_id, Forall_forall. intros p (i & j' & -> & ?)%block_marks_elem [=]. lia.
  - change (alter ?f (S i) (m :: msgs)) with (m :: alter f i msgs). rewrite block_marks_cons, IH, marks_other by (intros ? [=]; lia).
    do 2 f_equal. by replace (S n + i)%nat with (n + S i)%nat by lia.
Qed.

Definition all_marks (req : object) : list place :=
  marks AtSystem (arr_of "system" req) ++ marks AtTool (arr_of "tools" req) ++ block_marks (arr_of "messages" req).

Lemma count_marks req : countCacheControlBlocks req = length (all_marks req).
Proof.
  unfold all_marks, countCacheControlBlocks. change (block_marks ?l) with (block_marks_from 0 l).
  rewrite !length_app, !marks_length, block_marks_length. lia.
Qed.

Lemma all_marks_nodup req : NoDup (all_marks req).
Proof.
  unfold all_marks. change (block_marks ?l) with (block_marks_from 0 l). apply NoDup_app. split_and!.
  - apply marks_nodup, _.
  - intros p (i & c & -> & _)%marks_elem [(j & d & E & _)%marks_elem|(j & k & E & _)%block_marks_elem]%elem_of_app; done.
  - apply NoDup_app. split_and!; [apply marks_nodup, _| |apply block_marks_nodup].
    by intros p (i & c & -> & _)%marks_elem (j & k & E & _)%block_marks_elem.
Qed.

Lemma delete_marks req p : all_marks (delete_marker req p) = filter (λ q, q ≠ p) (all_marks req).
Proof.
  unfold all_marks. change (block_marks ?l) with (block_marks_from 0 l). rewrite !filter_app.
  assert (∀ i, filter (λ q, q ≠ AtSystem i) (block_marks_from 0 (arr_of "messages" req)) = block_marks_from 0 (arr_of "messages" req) ∧
    filter (λ q, q ≠ AtTool i) (block_marks_from 0 (arr_of "messages" req)) = block_marks_from 0 (arr_of "messages" req)) as Hb.
  { intros i. split; apply filter_id, Forall_forall; by intros q (j & k & -> & _)%block_marks_elem. }
  destruct p as [i|i|m i]; cbn [delete_marker].
  - rewrite arr_of_on_list, !arr_of_on_list_ne by done. rewrite marks_alter by apply _. rewrite (marks_other AtTool) by done. by rewrite (proj1 (Hb i)).
  - rewrite arr_of_on_list, !arr_of_on_list_ne by done. rewrite marks_alter by apply _. rewrite (marks_other AtSystem) by done. by rewrite (proj2 (Hb i)).
  - rewrite arr_of_on_list, !arr_of_on_list_ne by done. rewrite !marks_other by done. by rewrite block_marks_alter.
Qed.

Lemma delete_all_marks ps req : all_marks (foldl delete_marker req ps) = filter (λ q, q ∉ ps) (all_marks req).
Proof.
  revert req. induction ps as [|p ps IH]; intros req; cbn [foldl].
  - symmetry. apply filter_id, Forall_forall. intros q _. apply not_elem_of_nil.
  - rewrite IH, delete_marks, list_filter_filter. apply list_filter_iff. intros q. rewrite not_elem_of_cons. tauto.
Qed.

(** The markers the cap looks at are those there are: the heads and the rest. *)
Lemma markers_partition req : all_marks req ≡ₚ head_markers req ++ rest_markers req.
Proof.
  unfold all_marks, head_markers, rest_markers. set (sys := arr_of "system" req). set (tools := arr_of "tools" req).
  assert (marks AtSystem sys ≡ₚ
    match last sys with Some b => if marked b then [AtSystem (length sys - 1)] else [] | None => [] end ++
    marks AtSystem (take (length sys - 1) sys)) as ->.
  { destruct (last sys) as [b|] eqn:El; [|apply last_None in El as ->; done]. apply last_Some in El as [l ->].
    rewrite length_app. cbn [length]. replace (length l + 1 - 1)%nat with (length l) by lia. rewrite take_app_length.
    unfold marks at 1. rewrite imap_app, concat_app. cbn [imap concat]. rewrite Nat.add_0_r, app_nil_r. apply Permutation_app_comm. }
  assert (marks AtTool tools ≡ₚ
    match LastCacheableToolIndex tools with
    | Some i => match tools !! i with Some t => if marked t then [AtTool i] else [] | None => [] end
    | None => [] end ++ filter (λ p, Some p ≠ AtTool <$> LastCacheableToolIndex tools) (marks AtTool tools)) as Ht.
  { destruct (LastCacheableToolIndex tools) as [i|]; cbn [fmap option_fmap option_map].
    - rewrite <- (marks_at AtTool tools i) by apply _.
      rewrite (list_filter_iff (λ p, Some p ≠ Some (AtTool i)) (λ p, ¬ p = AtTool i)) by naive_solver.
      symmetry. apply filter_app_complement.
    - rewrite filter_id; [done|]. by apply Forall_forall. }
  rewrite Ht at 1. solve_Permutation.
Qed.

Definition excess (req : object) : nat :=
  (length (rest_markers req) - (cacheControlMarkerBudget - length (head_markers req)))%nat.

Lemma filter_without (a b c : list place) : NoDup (a ++ b ++ c) → filter (λ q, q ∉ b) (a ++ b ++ c) = a ++ c.
Proof.
  intros (_ & Ha & (_ & Hb & _)%NoDup_app)%NoDup_app. rewrite !filter_app, (filter_none _ b), !filter_id; [done| | |].
  - apply Forall_forall. intros q Hq Hin. by apply (Hb q).
  - apply Forall_forall. intros q Hq Hin. apply (Ha q Hq), elem_of_app. by left.
  - apply Forall_forall. auto.
Qed.

(** The markers that survive the cap: the heads, and the last of the rest. *)
Lemma cap_marks req : all_marks (capCacheControlBlocks req) ≡ₚ head_markers req ++ drop (excess req) (rest_markers req).
Proof.
  unfold capCacheControlBlocks. fold (excess req). rewrite delete_all_marks, (markers_partition req).
  pose proof (all_marks_nodup req) as Hnd. rewrite markers_partition in Hnd.
  pose proof (filter_without (head_markers req) (take (excess req) (rest_markers req)) (drop (excess req) (rest_markers req))) as Hf.
  rewrite take_drop in Hf. by rewrite Hf.
Qed.

Lemma head_markers_two req : (length (head_markers req) <= 2)%nat.
Proof.
  unfold head_markers. rewrite length_app. destruct (last _) as [b|]; [destruct (marked b)|]; cbn;
    (destruct (LastCacheableToolIndex _) as [i|]; [destruct (_ !! i) as [t|]; [destruct (marked t)|]|]; cbn; lia).
Qed.

Lemma count_partition req : countCacheControlBlocks req = (length (head_markers req) + length (rest_markers req))%nat.
Proof. by rewrite count_marks, markers_partition, length_app. Qed.

Lemma cap_count req : countCacheControlBlocks (capCacheControlBlocks req) = (countCacheControlBlocks req `min` 4)%nat.
Proof.
  rewrite count_marks, cap_marks, length_app, length_drop, count_partition. pose proof (head_markers_two req).
  unfold excess, cacheControlMarkerBudget. lia.
Qed.

Lemma cap_id req : (countCacheControlBlocks req <= 4)%nat → capCacheControlBlocks req = req.
Proof.
  rewrite count_partition. intros Hc. unfold capCacheControlBlocks. rewrite (proj2 (Nat.sub_0_le _ _)); [done|].
  unfold cacheControlMarkerBudget. lia.
Qed.

(** *** The marker of the final tool results *)

Lemma last_taking_bound bs i : last_taking (rev bs) = Some i → ∃ b, bs !! i = Some b ∧ takes_marker b = true.
Proof.
  induction bs as [|b bs IH] using rev_ind; [done|]. rewrite rev_unit. cbn [last_taking]. rewrite length_rev.
  destruct (takes_marker b) eqn:E.
  - intros [= <-]. exists b. split; [by apply list_lookup_middle|done].
  - intros (c & Hl & ?)%IH. exists c. split; [|done]. apply lookup_app_l_Some. exact Hl.
Qed.

Lemma last_taking_total bs : existsb takes_marker bs = true → is_Some (last_taking (rev bs)).
Proof.
  induction bs as [|b bs IH] using rev_ind; [done|]. rewrite rev_unit, existsb_app. cbn. destruct (takes_marker b) eqn:E; [by eexists|].
  rewrite !orb_false_r. exact IH.
Qed.

Lemma put_marked m : marked (JObj (obj_put (B "cache_control") ephemeral m)) = true.
Proof. cbn. unfold cache_control. by rewrite obj_get_put_eq. Qed.

Lemma mark_last_marked content : existsb is_tool_result content = true → existsb marked (markLastCacheableBlock content) = true.
Proof.
  intros (b & Hin & Hb)%existsb_exists. assert (is_Some (last_taking (rev content))) as [i Hi].
  { apply last_taking_total, existsb_exists. exists b. split; [done|]. destruct b as [| | | | |m]; try done. cbn in Hb |- *.
    apply bool_decide_eq_true in Hb. by rewrite Hb. }
  unfold markLastCacheableBlock. rewrite Hi. destruct (last_taking_bound _ _ Hi) as (c & Hl & Hc).
  apply existsb_exists. destruct c as [| | | | |m]; try done.
  exists (JObj (obj_put (B "cache_control") ephemeral m)). split; [|apply put_marked].
  apply list_elem_of_In. apply list_elem_of_lookup. exists i. by rewrite list_lookup_alter_eq, Hl.
Qed.

Lemma mark_final_twice req : markFinalToolResults (markFinalToolResults req) = markFinalToolResults req.
Proof.
  assert (markFinalToolResults req = req ∨ ∃ m content, last (arr_of "messages" req) = Some (JObj m) ∧
    obj_get (B "content") m = JArr content ∧ existsb is_tool_result content = true ∧
    markFinalToolResults req = on_list "messages" (alter (on_object (on_list "content" markLastCacheableBlock)) (length (arr_of "messages" req) - 1)%nat) req)
    as [E|(m & content & Hl & Hc & Hr & E)]; [|by rewrite !E|].
  { unfold markFinalToolResults. destruct (last _) as [[| | | | |m]|]; try by left. case_bool_decide; [|by left].
    destruct (obj_get (B "content") m) as [| | | |content|] eqn:Hc; try by left.
    destruct (existsb is_tool_result content) eqn:Hr; [|by left]. destruct (existsb marked content); [by left|].
    cbn [negb orb]. destruct (_ <=? _)%nat; [by left|right]. by exists m, content. }
  rewrite E. unfold markFinalToolResults at 1. rewrite arr_of_on_list by done.
  apply last_Some in Hl as [l Hl]. rewrite Hl, length_app. cbn [length]. replace (length l + 1 - 1)%nat with (length l + 0)%nat by lia.
  rewrite alter_app_r. cbn [alter list_alter]. rewrite last_snoc. cbn [on_object]. case_bool_decide; [|done].
  unfold on_list at 1. rewrite Hc, obj_get_set by (by rewrite Hc). rewrite (mark_last_marked content Hr), orb_true_r. done.
Qed.

(** *** The heads *)

Lemma obj_get_del_ne k k2 m : k ≠ k2 → obj_get (B k) (obj_del k2 m) = obj_get (B k) m.
Proof.
  intros Hne. assert (B k ≠ B k2) as Hk by (by intros ?%B_inj). exact (obj_get_filter (λ k, k ≠ B k2) (B k) m Hk).
Qed.

Lemma obj_del_twice k m : obj_del k (obj_del k m) = obj_del k m.
Proof. unfold obj_del. by rewrite list_filter_filter_l. Qed.

Lemma obj_del_put k v m : obj_del k (obj_put (B k) v m) = obj_del k m.
Proof.
  unfold obj_put, obj_del. case_bool_decide as Hin.
  - clear Hin. induction m as [|[k' v'] m IH]; [done|]. cbn [obj_set]. case_bool_decide as Hk.
    + by rewrite !filter_cons_False by (cbn; auto).
    + rewrite !filter_cons_True by (cbn; auto). by rewrite IH.
  - rewrite filter_app, (filter_cons_False _ _ []) by (cbn; auto). apply app_nil_r.
Qed.

Lemma deferred_del m : deferred (obj_del "cache_control" m) = deferred m.
Proof. unfold deferred. by rewrite obj_get_del_ne. Qed.

Lemma deferred_put m : deferred (put_anchor m) = deferred m.
Proof. unfold put_anchor, deferred. destruct (anchored_map m); [done|]. rewrite obj_get_put_ne; [done|]. by intros ?%B_inj. Qed.

Lemma put_anchor_anchored m : anchored_map (put_anchor m) = true.
Proof.
  unfold put_anchor. destruct (anchored_map m) eqn:E; [done|]. unfold anchored_map, cache_control. rewrite obj_get_put_eq. by vm_compute.
Qed.

Lemma put_anchor_twice m : put_anchor (put_anchor m) = put_anchor m.
Proof. unfold put_anchor at 1. by rewrite put_anchor_anchored. Qed.

Lemma del_put_anchor m : obj_del "cache_control" (put_anchor m) = obj_del "cache_control" m.
Proof. unfold put_anchor. destruct (anchored_map m); [done|apply obj_del_put]. Qed.

Lemma anchored_marked m : anchored_map m = true → marked (JObj m) = true.
Proof. unfold anchored_map. cbn. by destruct (cache_control m). Qed.

Lemma anchor_tool_twice lst i t : anchor_tool lst i (anchor_tool lst i t) = anchor_tool lst i t.
Proof.
  destruct t as [| | | | |m]; try done. unfold anchor_tool. cbn [on_object]. case_bool_decide; destruct (deferred m) eqn:Ed;
    rewrite ?deferred_put, ?deferred_del, ?Ed, ?del_put_anchor, ?obj_del_twice, ?put_anchor_twice; done.
Qed.

(** Tools alike in what decides the last cacheable one. *)
Definition same_defer (t u : json) : Prop :=
  match t, u with
  | JObj m, JObj n => deferred m = deferred n
  | JObj _, _ | _, JObj _ => False
  | _, _ => True
  end.

Lemma last_cacheable_same l k : Forall2 same_defer l k → last_cacheable l = last_cacheable k.
Proof.
  induction 1 as [|t u l k Htu Hlk IH]; [done|]. cbn. rewrite IH, (Forall2_length _ _ _ Hlk).
  destruct t, u; try done. cbn in Htu. by rewrite Htu.
Qed.

Lemma LastCacheable_same l k : Forall2 same_defer l k → LastCacheableToolIndex l = LastCacheableToolIndex k.
Proof. intros Hlk. apply last_cacheable_same. rewrite !rev_alt. by apply Forall2_reverse. Qed.

Lemma Forall2_imap_r {A} (P : A → A → Prop) (f : nat → A → A) l : (∀ i x, P (f i x) x) → Forall2 P (imap f l) l.
Proof. revert f. induction l as [|x l IH]; intros f Hf; [constructor|]. rewrite imap_cons. constructor; [apply Hf|]. apply IH. intros i y. apply Hf. Qed.

Lemma anchor_tools_index tools : LastCacheableToolIndex (anchor_tools tools) = LastCacheableToolIndex tools.
Proof.
  apply LastCacheable_same, Forall2_imap_r. intros i t. destruct t as [| | | | |m]; try done.
  unfold anchor_tool. cbn [on_object same_defer].
  case_bool_decide; destruct (deferred m) eqn:Ed; rewrite ?deferred_put, ?deferred_del; by rewrite ?Ed.
Qed.

Lemma anchor_tools_twice tools : anchor_tools (anchor_tools tools) = anchor_tools tools.
Proof.
  unfold anchor_tools at 1. rewrite anchor_tools_index. unfold anchor_tools. apply list_eq. intros i.
  rewrite !list_lookup_imap. destruct (tools !! i) as [t|]; [|done]. cbn. by rewrite anchor_tool_twice.
Qed.

Lemma anchor_system_twice sys : anchor_system (anchor_system sys) = anchor_system sys.
Proof.
  unfold anchor_system at 1. unfold anchor_system at 1. rewrite length_alter. unfold anchor_system. rewrite list_alter_alter_eq.
  apply list_alter_ext; [|done]. intros [| | | | |m] _; try done. cbn. by rewrite put_anchor_twice.
Qed.

(** *** Requests whose heads are anchored *)

(** The normal form of [anchor_heads]. *)
Definition wrapped (m : json) : Prop := match m with JObj o => bare_content o = false | _ => True end.

Definition heads_anchored (req : object) : Prop :=
  Forall wrapped (arr_of "messages" req) ∧ anchor_tools (arr_of "tools" req) = arr_of "tools" req ∧
  anchor_system (arr_of "system" req) = arr_of "system" req.

Lemma normalize_wrapped m : wrapped (on_object normalizeMessageContent m).
Proof.
  destruct m as [| | | | |m]; try done. cbn. unfold bare_content, normalizeMessageContent.
  destruct (obj_get (B "content") m) eqn:E; rewrite ?E; try done. rewrite obj_get_set; [done|]. by rewrite E.
Qed.

Lemma wrapped_id m : wrapped m → on_object normalizeMessageContent m = m.
Proof.
  destruct m as [| | | | |m]; try done. cbn. unfold bare_content, normalizeMessageContent. by destruct (obj_get (B "content") m).
Qed.

Lemma wrapped_on_list f m : wrapped m → wrapped (on_object (on_list "content" f) m).
Proof.
  destruct m as [| | | | |m]; try done. cbn. unfold bare_content, on_list.
  destruct (obj_get (B "content") m) eqn:E; rewrite ?E; try done. intros _. rewrite obj_get_set; [done|]. by rewrite E.
Qed.

Lemma anchor_heads_anchored req : heads_anchored (anchor_heads req).
Proof.
  unfold heads_anchored, anchor_heads. repeat (rewrite ?arr_of_on_list by done; rewrite ?arr_of_on_list_ne by done).
  split_and!; [|apply anchor_tools_twice|apply anchor_system_twice].
  apply Forall_forall. intros m (x & -> & _)%list_elem_of_fmap. apply normalize_wrapped.
Qed.

Lemma anchored_id req : heads_anchored req → anchor_heads req = req.
Proof.
  intros (Hm & Ht & Hs). unfold anchor_heads. rewrite (on_list_id "messages").
  - rewrite (on_list_id "tools") by done. by apply on_list_id.
  - induction Hm as [|m l Hw _ IH]; [done|]. cbn [map]. by rewrite wrapped_id, IH.
Qed.

Lemma messages_keep_heads f i req : (∀ m, wrapped m → wrapped (f m)) →
  heads_anchored req → heads_anchored (on_list "messages" (alter f i) req).
Proof.
  intros Hf (Hm & Ht & Hs). unfold heads_anchored. rewrite arr_of_on_list, !arr_of_on_list_ne by done. split_and!; [|done|done].
  apply Forall_alter; auto.
Qed.

(** In a request with anchored heads only the last cacheable tool is marked. *)
Lemma anchored_tool_marks tools i t :
  anchor_tools tools = tools → tools !! i = Some t → Some i ≠ LastCacheableToolIndex tools → unmark t = t.
Proof.
  intros Ht Hl Hi. rewrite <- Ht in Hl. unfold anchor_tools in Hl. rewrite list_lookup_imap in Hl.
  destruct (tools !! i) as [u|]; [|done]. cbn in Hl. injection Hl as <-. destruct u as [| | | | |m]; try done.
  unfold anchor_tool, unmark. cbn [on_object]. rewrite bool_decide_eq_false_2 by done. by rewrite obj_del_twice.
Qed.

(** A place that is no head. *)
Definition off_head (req : object) (p : place) : Prop :=
  match p with
  | AtSystem i => (i < length (arr_of "system" req) - 1)%nat
  | AtTool i => Some i ≠ LastCacheableToolIndex (arr_of "tools" req)
  | AtBlock _ _ => True
  end.

Lemma rest_off_head req : Forall (off_head req) (rest_markers req).
Proof.
  apply Forall_forall. intros p. unfold rest_markers. rewrite !elem_of_app.
  intros [(i & b & -> & Hl & Hb)%marks_elem|[[Hne (i & t & -> & Hl & Hb)%marks_elem]%list_elem_of_filter|Hp]].
  - apply lookup_lt_Some in Hl. rewrite length_take in Hl. cbn. lia.
  - cbn. intros E. apply Hne. by rewrite <- E.
  - change (block_marks ?l) with (block_marks_from 0 l) in Hp. by apply block_marks_elem in Hp as (m & j & -> & _).
Qed.

Lemma delete_keeps_heads req p : heads_anchored req → off_head req p →
  heads_anchored (delete_marker req p) ∧ last (arr_of "system" (delete_marker req p)) = last (arr_of "system" req) ∧
  arr_of "tools" (delete_marker req p) = arr_of "tools" req ∧ ∀ q, off_head req q → off_head (delete_marker req p) q.
Proof.
  intros Ha Hp. pose proof Ha as (Hm & Ht & Hs). destruct p as [i|i|m i]; cbn [off_head delete_marker] in *.
  - unfold heads_anchored. rewrite arr_of_on_list, !arr_of_on_list_ne by done. split_and!; try done.
    + rewrite <- Hs at 2. unfold anchor_system. rewrite length_alter. apply list_alter_alter_ne. lia.
    + rewrite !last_lookup, length_alter. apply list_lookup_alter_ne. lia.
    + intros [j|j|j k]; cbn; rewrite ?arr_of_on_list, ?arr_of_on_list_ne, ?length_alter by done; done.
  - rewrite on_list_id; [done|]. apply list_eq. intros j. destruct (decide (j = i)) as [->|].
    + rewrite list_lookup_alter_eq. destruct (arr_of "tools" req !! i) as [t|] eqn:Hl; [|done]. cbn. f_equal.
      by eapply anchored_tool_marks.
    + by rewrite list_lookup_alter_ne.
  - split_and!; [|by rewrite arr_of_on_list_ne|by rewrite arr_of_on_list_ne|].
    + apply messages_keep_heads; [|done]. intros x. apply wrapped_on_list.
    + intros [j|j|j k]; cbn; by rewrite ?arr_of_on_list_ne.
Qed.

Lemma delete_all_heads ps req : heads_anchored req → Forall (off_head req) ps →
  let req' := foldl delete_marker req ps in
  heads_anchored req' ∧ last (arr_of "system" req') = last (arr_of "system" req) ∧ arr_of "tools" req' = arr_of "tools" req.
Proof.
  revert req. induction ps as [|p ps IH]; intros req Ha Hps; [done|]. apply Forall_cons in Hps as [Hp Hps]. cbn [foldl].
  destruct (delete_keeps_heads req p Ha Hp) as (H1 & H2 & H3 & H4). rewrite <- H2, <- H3. apply IH; [done|].
  by eapply Forall_impl.
Qed.

Lemma cap_keeps_heads req : heads_anchored req →
  let req' := capCacheControlBlocks req in
  heads_anchored req' ∧ last (arr_of "system" req') = last (arr_of "system" req) ∧ arr_of "tools" req' = arr_of "tools" req.
Proof. intros Ha. apply delete_all_heads; [done|]. apply Forall_take, rest_off_head. Qed.

Lemma mark_final_cases req : markFinalToolResults req = req ∨ ∃ i,
  markFinalToolResults req = on_list "messages" (alter (on_object (on_list "content" markLastCacheableBlock)) i) req.
Proof.
  unfold markFinalToolResults. destruct (last _) as [[| | | | |m]|]; try by left. case_bool_decide; [|by left].
  destruct (obj_get (B "content") m); try by left. destruct (_ || _); [by left|]. destruct (_ <=? _)%nat; [by left|right; by eexists].
Qed.

Lemma mark_final_keeps_heads req : heads_anchored req →
  let req' := markFinalToolResults req in
  heads_anchored req' ∧ arr_of "system" req' = arr_of "system" req ∧ arr_of "tools" req' = arr_of "tools" req.
Proof.
  intros Ha. cbn. destruct (mark_final_cases req) as [-> | [i ->]]; [done|]. rewrite !arr_of_on_list_ne by done.
  split_and!; [|done|done]. apply messages_keep_heads; [|done]. intros x. apply wrapped_on_list.
Qed.

Lemma spend_keeps_heads req : heads_anchored req →
  let req' := spend_budget req in
  heads_anchored req' ∧ last (arr_of "system" req') = last (arr_of "system" req) ∧ arr_of "tools" req' = arr_of "tools" req.
Proof.
  intros Ha. unfold spend_budget. destruct (_ <=? _)%nat; [by apply cap_keeps_heads|].
  destruct (mark_final_keeps_heads req Ha) as (H1 & H2 & H3). rewrite <- H2, <- H3. by apply cap_keeps_heads.
Qed.

Lemma spend_count req : (countCacheControlBlocks (spend_budget req) <= 4)%nat.
Proof. unfold spend_budget. destruct (_ <=? _)%nat; rewrite cap_count; lia. Qed.

Lemma spend_twice req : spend_budget (spend_budget req) = spend_budget req.
Proof.
  destruct (cacheControlMarkerBudget <=? countCacheControlBlocks req)%nat eqn:E.
  - assert (spend_budget req = capCacheControlBlocks req) as -> by (unfold spend_budget; by rewrite E).
    apply Nat.leb_le in E. unfold spend_budget, cacheControlMarkerBudget in *. rewrite cap_count, (proj2 (Nat.leb_le _ _)) by lia.
    apply cap_id. rewrite cap_count. lia.
  - assert (spend_budget req = capCacheControlBlocks (markFinalToolResults req)) as -> by (unfold spend_budget; by rewrite E).
    unfold spend_budget. destruct (_ <=? countCacheControlBlocks (capCacheControlBlocks _))%nat eqn:E2.
    + apply cap_id. rewrite cap_count. lia.
    + apply Nat.leb_gt in E2. unfold cacheControlMarkerBudget in E2. rewrite cap_count in E2.
      by rewrite (cap_id (markFinalToolResults req)), mark_final_twice, cap_id by lia.
Qed.

(** *** Nothing else changes *)

(** The request without its markers. *)
Definition erase (req : object) : object :=
  on_list "system" (map unmark) (on_list "tools" (map unmark)
    (on_list "messages" (map (on_object (on_list "content" (map unmark)))) req)).

Lemma unmark_twice b : unmark (unmark b) = unmark b.
Proof. destruct b; try done. cbn. by rewrite obj_del_twice. Qed.

Lemma map_alter_same {A B} (g : A → B) (f : A → A) i l : (∀ x, g (f x) = g x) → map g (alter f i l) = map g l.
Proof. intros Hgf. revert i. induction l as [|x l IH]; intros [|i]; try done; cbn; f_equal; [apply Hgf|apply IH]. Qed.

Lemma erase_system f req : (∀ l, map unmark (f l) = map unmark l) → erase (on_list "system" f req) = erase req.
Proof.
  intros Hf. unfold erase. rewrite !(on_list_comm _ "system") by done. rewrite !on_list_twice. by apply on_list_ext.
Qed.

Lemma erase_tools f req : (∀ l, map unmark (f l) = map unmark l) → erase (on_list "tools" f req) = erase req.
Proof.
  intros Hf. unfold erase. rewrite (on_list_comm "messages" "tools") by done. rewrite !on_list_twice. f_equal. by apply on_list_ext.
Qed.

Lemma erase_messages f i req :
  (∀ l, map unmark (f l) = map unmark l) → erase (on_list "messages" (alter (on_object (on_list "content" f)) i) req) = erase req.
Proof.
  intros Hf. unfold erase. rewrite on_list_twice. do 2 f_equal. apply on_list_ext. intros l. apply map_alter_same.
  intros [| | | | |m]; try done. cbn. f_equal. rewrite on_list_twice. by apply on_list_ext.
Qed.

Lemma unmark_put m v : unmark (JObj (obj_put (B "cache_control") v m)) = unmark (JObj m).
Proof. cbn. by rewrite obj_del_put. Qed.

Lemma erase_delete req p : erase (delete_marker req p) = erase req.
Proof.
  destruct p; cbn; [apply erase_system|apply erase_tools|apply erase_messages]; intros l; apply map_alter_same, unmark_twice.
Qed.

Lemma erase_cap req : erase (capCacheControlBlocks req) = erase req.
Proof.
  unfold capCacheControlBlocks. generalize (take (length (rest_markers req) - (cacheControlMarkerBudget - length (head_markers req))) (rest_markers req)).
  intros ps. revert req. induction ps as [|p ps IH]; intros req; [done|]. cbn [foldl]. by rewrite IH, erase_delete.
Qed.

Lemma erase_mark_final req : erase (markFinalToolResults req) = erase req.
Proof.
  destruct (mark_final_cases req) as [-> | [i ->]]; [done|]. apply erase_messages. intros l. unfold markLastCacheableBlock.
  destruct (last_taking _); [|done]. apply map_alter_same. intros [| | | | |m]; try done. apply unmark_put.
Qed.

Lemma erase_spend req : erase (spend_budget req) = erase req.
Proof. unfold spend_budget. destruct (_ <=? _)%nat; by rewrite erase_cap, ?erase_mark_final. Qed.

Lemma unmark_put_anchor m : unmark (JObj (put_anchor m)) = unmark (JObj m).
Proof. cbn. by rewrite del_put_anchor. Qed.

Lemma erase_heads req : erase (anchor_heads req) = erase (on_list "messages" (map (on_object normalizeMessageContent)) req).
Proof.
  unfold anchor_heads. rewrite erase_system, erase_tools; [done| |].
  - intros l. unfold anchor_tools. generalize (LastCacheableToolIndex l). intros lst. apply list_eq. intros i.
    rewrite !list_lookup_fmap, list_lookup_imap. destruct (l !! i) as [[| | | | |m]|]; try done. cbn [option_map fmap option_fmap].
    unfold anchor_tool. cbn [on_object]. f_equal.
    case_bool_decide; destruct (deferred m); cbn; rewrite ?del_put_anchor, ?obj_del_twice; done.
  - intros l. apply map_alter_same. intros [| | | | |m]; try done. apply unmark_put_anchor.
Qed.

Lemma last_cacheable_bound ts i : last_cacheable (rev ts) = Some i →
  ∃ t, ts !! i = Some t ∧ ∀ m, t = JObj m → deferred m = false.
Proof.
  induction ts as [|t ts IH] using rev_ind; [done|]. rewrite rev_unit. cbn [last_cacheable]. rewrite length_rev.
  assert (last_cacheable (rev ts) = Some i → ∃ u, (ts ++ [t]) !! i = Some u ∧ ∀ m, u = JObj m → deferred m = false) as Hrec.
  { intros (u & Hl & ?)%IH. exists u. split; [|done]. apply lookup_app_l_Some. exact Hl. }
  destruct t as [| | | | |m]; try (intros [= <-]; eexists; split; [by apply list_lookup_middle|done]).
  destruct (deferred m) eqn:E; [done|]. intros [= <-]. exists (JObj m). split; [by apply list_lookup_middle|by intros ? [= <-]].
Qed.

Lemma anchored_tools_spec tools i m : anchor_tools tools = tools → tools !! i = Some (JObj m) →
  (if bool_decide (Some i = LastCacheableToolIndex tools) then anchored_map m = true else marked (JObj m) = false) ∧
  (deferred m = true → marked (JObj m) = false).
Proof.
  intros Ht Hl. case_bool_decide as Hi.
  - split.
    + pose proof Hl as Hl2. rewrite <- Ht in Hl2. unfold anchor_tools in Hl2. rewrite list_lookup_imap, Hl in Hl2. cbn in Hl2.
      rewrite bool_decide_eq_true_2 in Hl2 by done. injection Hl2 as E. rewrite <- E. apply put_anchor_anchored.
    + intros Hd. symmetry in Hi. apply last_cacheable_bound in Hi as (t & Hl3 & Hn). rewrite Hl in Hl3. injection Hl3 as <-.
      by rewrite (Hn m) in Hd.
  - rewrite <- (anchored_tool_marks tools i (JObj m)) by done. split; [|intros _]; apply unmark_marked.
Qed.

(** ** Properties *)

Section AnchorTheorems.
Context `{JsonCodec}.

(** C33. The request that goes out has at most four cache markers, among them
    one hour ones on the last system block and on the last tool that can carry
    one; no other tool has a marker, no deferred tool among them; and but for
    markers and the wrapping of bare content nothing in the request changes. *)
Theorem anchored_request_within_budget body req : unmarshal body = Some (JObj req) →
  ∃ req', AnchorClaudeCache body = marshal (JObj req') ∧
    (countCacheControlBlocks req' <= 4)%nat ∧
    (∀ m, last (arr_of "system" req') = Some (JObj m) → anchored_map m = true) ∧
    (∀ i m, arr_of "tools" req' !! i = Some (JObj m) →
       (if bool_decide (Some i = LastCacheableToolIndex (arr_of "tools" req)) then anchored_map m = true
        else marked (JObj m) = false) ∧
       (deferred m = true → marked (JObj m) = false)) ∧
    erase req' = erase (on_list "messages" (map (on_object normalizeMessageContent)) req).
Proof.
  intros Hu. exists (spend_budget (anchor_heads req)).
  pose proof (anchor_heads_anchored req) as Ha. pose proof Ha as (_ & Ht & Hs).
  destruct (spend_keeps_heads _ Ha) as (_ & Hlast & Htools). split_and!.
  - unfold AnchorClaudeCache. by rewrite Hu.
  - apply spend_count.
  - intros m. rewrite Hlast, <- Hs. unfold anchor_system. rewrite last_lookup, length_alter.
    replace (pred (length (arr_of "system" (anchor_heads req)))) with (length (arr_of "system" (anchor_heads req)) - 1)%nat by lia.
    rewrite list_lookup_alter_eq. destruct (_ !! _) as [[| | | | |o]|]; try done. cbn. intros [= <-]. apply put_anchor_anchored.
  - intros i m. rewrite Htools. assert (LastCacheableToolIndex (arr_of "tools" req) = LastCacheableToolIndex (arr_of "tools" (anchor_heads req))) as ->.
    { unfold anchor_heads. rewrite arr_of_on_list_ne, arr_of_on_list, anchor_tools_index, arr_of_on_list_ne by done. done. }
    by apply anchored_tools_spec.
  - by rewrite erase_spend, erase_heads.
Qed.

(** Anchoring is idempotent: a text that decodes to the request sent is
    sent as that request again, no marker moves, is added or is lost. *)
Theorem anchoring_is_idempotent body req : unmarshal body = Some (JObj req) →
  ∃ out, AnchorClaudeCache body = marshal (JObj out) ∧
    ∀ again, unmarshal again = Some (JObj out) → AnchorClaudeCache again = marshal (JObj out).
Proof.
  intros Hu. exists (spend_budget (anchor_heads req)). split; [unfold AnchorClaudeCache; by rewrite Hu|].
  intros again Ha. unfold AnchorClaudeCache. rewrite Ha. cbn [mbind option_bind as_map].
  destruct (spend_keeps_heads _ (anchor_heads_anchored req)) as (Hh & _). by rewrite (anchored_id _ Hh), spend_twice.
Qed.
End AnchorTheorems.

(** ** Samples *)
Module Sample.
#[local] Existing Instance json_codec.

Definition mark_js : string := "~cache_control~:{~type~:~ephemeral~}".

(** Five markers in the messages, a deferred tool at the tail. *)
Definition request : bytes := js ("{~system~:[{~text~:~a~},{~text~:~b~}],~tools~:[{~name~:~t~},{~name~:~u~,~defer_loading~:true," ++ mark_js ++ "}],
  ~messages~:[{~role~:~user~,~content~:[{~type~:~text~," ++ mark_js ++ "},{~type~:~text~," ++ mark_js ++ "},{~type~:~text~," ++ mark_js ++ "}]},
              {~role~:~user~,~content~:{~type~:~tool_result~}}]}").

Definition request_object : object := match json_decode request with Some (JObj m) => m | _ => [] end.

(** The heads are anchored, and of the message markers the last two are left;
    with no room the final tool result gets none. *)
Example request_anchored : json_decode (AnchorClaudeCache request) =
  json_decode (js ("{~system~:[{~text~:~a~},{~text~:~b~,~cache_control~:{~type~:~ephemeral~,~ttl~:~1h~}}],
   ~tools~:[{~name~:~t~,~cache_control~:{~type~:~ephemeral~,~ttl~:~1h~}},{~name~:~u~,~defer_loading~:true}],
   ~messages~:[{~role~:~user~,~content~:[{~type~:~text~},{~type~:~text~," ++ mark_js ++ "},{~type~:~text~," ++ mark_js ++ "}]},
               {~role~:~user~,~content~:[{~type~:~tool_result~}]}]}")).
Proof. by vm_compute. Qed.

(** With room left the final tool result is marked. *)
Example tool_result_marked :
  AnchorClaudeCache (js "{~messages~:[{~role~:~user~,~content~:[{~type~:~tool_result~},{~type~:~thinking~}]}]}") =
  js ("{~messages~:[{~role~:~user~,~content~:[{~type~:~tool_result~," ++ mark_js ++ "},{~type~:~thinking~}]}]}").
Proof. by vm_compute. Qed.

Lemma anchored_request_witness : json_decode request = Some (JObj request_object) ∧
  ∃ req', AnchorClaudeCache request = json_encode (JObj req') ∧ (countCacheControlBlocks req' <= 4)%nat.
Proof.
  split; [by vm_compute|].
  destruct (anchored_request_within_budget request request_object) as (req' & H1 & H2 & _); [by vm_compute|].
  by exists req'.
Defined.

Lemma anchoring_idempotent_witness : ∃ out, AnchorClaudeCache request = json_encode (JObj out).
Proof. destruct (anchoring_is_idempotent request request_object) as (out & H1 & _); [by vm_compute|]. by exists out. Defined.
End Sample.
