(* ===== verification/ClaudeToOpenAI.v ===== *)
(** * From the Claude to the OpenAI request format
    ([internal/translator/request.go] up to line 475, [types.go])

    Decoding of a Claude request into its struct, the conversion of every
    message, and the repair that gives each tool call a response. A
    [jsontext.Value] is the decoded value; its text, where the code reads it, is
    the parameter [raw]. The encoding of the resulting struct is not modelled. *)

From Stdlib Require Import SpecFloat.
From S2P Require Import Prelude GoFloat GoRegexp Json GoText ErrorClassify Capabilities ToolCalls.

(** ** The Claude side *)

Record ClaudeImageSource := { source_type : bytes; media_type : bytes; source_data : bytes }.

Record ClaudeContentBlock := {
  block_type : bytes; block_text : bytes; thinking : bytes; source : option ClaudeImageSource;
  block_id : bytes; block_name : bytes; input : option json; tool_use_id : bytes; block_content : option json
}.

Record ClaudeMessage := { message_role : bytes; message_content : option json }.
Record ClaudeTool := { tool_name : bytes; description : bytes; input_schema : option json; strict : option bool }.
Record ClaudeToolChoice := { choice_type : bytes; disable_parallel_tool_use : bool; choice_name : bytes }.
Record ClaudeThinking := { thinking_type : bytes; budget_tokens : Z }.

Record ClaudeRequest := {
  model : bytes; messages : list ClaudeMessage; system : option json; temperature : option spec_float;
  max_tokens : option Z; thinking_config : option ClaudeThinking; output_effort : option bytes;
  tools : list ClaudeTool; tool_choice : option json; stream : bool
}.

(** ** The OpenAI side *)

(** A content part, by its type: [text], [image_url] or [file]. *)
Inductive OpenAIContentBlock :=
  | TextPart (text : bytes)
  | ImagePart (url : bytes)
  | FilePart (file_data : bytes).

(** [Content any]: absent, a string or parts. *)
Inductive OpenAIContent :=
  | NoContent
  | StringContent (s : bytes)
  | PartsContent (parts : list OpenAIContentBlock).

Record OpenAIToolCall := { call_id : bytes; call_type : bytes; call_name : bytes; call_arguments : bytes }.

Record OpenAIMessage := {
  role : bytes; content : OpenAIContent; reasoning_content : bytes;
  tool_calls : list OpenAIToolCall; tool_call_id : bytes
}.

Record OpenAITool := { function_name : bytes; function_description : bytes; parameters : option json; function_strict : option bool }.

(** [ToolChoice any]: a string or the object that names a function. *)
Inductive OpenAIToolChoice := ChoiceString (s : bytes) | ChoiceFunction (name : bytes).

Record OpenAIRequest := {
  o_model : bytes; o_messages : list OpenAIMessage; o_temperature : option spec_float; o_max_tokens : option Z;
  o_max_completion_tokens : option Z; o_tools : list OpenAITool; o_tool_choice : option OpenAIToolChoice;
  o_parallel_tool_calls : option bool; o_reasoning_effort : bytes; o_stream : bool
}.

(** ** Decoding *)

Definition decode_source (m : object) : option ClaudeImageSource :=
  t ← str_field (B "type") m; mt ← str_field (B "media_type") m; d ← str_field (B "data") m;
  Some {| source_type := t; media_type := mt; source_data := d |}.

Definition decode_block (m : object) : option ClaudeContentBlock :=
  t ← str_field (B "type") m; tx ← str_field (B "text") m; th ← str_field (B "thinking") m;
  src ← ptr_field decode_source (B "source") m; i ← str_field (B "id") m; n ← str_field (B "name") m;
  u ← str_field (B "tool_use_id") m;
  Some {| block_type := t; block_text := tx; thinking := th; source := src; block_id := i; block_name := n;
          input := raw_field "input" m; tool_use_id := u; block_content := raw_field "content" m |}.

(** A system block has only a type and a text. *)
Definition decode_system_block (m : object) : option bytes :=
  _ ← str_field (B "type") m; str_field (B "text") m.

Definition decode_message (m : object) : option ClaudeMessage :=
  r ← str_field (B "role") m; Some {| message_role := r; message_content := raw_field "content" m |}.

(** [UnmarshalStrict]: anything but a boolean (or null, which decodes to false)
    is unset. *)
Definition UnmarshalStrict (v : json) : option bool :=
  match v with JBool b => Some b | JNull => Some false | _ => None end.

Definition decode_tool (m : object) : option ClaudeTool :=
  n ← str_field (B "name") m; d ← str_field (B "description") m;
  Some {| tool_name := n; description := d; input_schema := raw_field "input_schema" m;
          strict := raw_field "strict" m ≫= UnmarshalStrict |}.

Definition decode_choice (m : object) : option ClaudeToolChoice :=
  t ← str_field (B "type") m; d ← bool_field (B "disable_parallel_tool_use") m; n ← str_field (B "name") m;
  Some {| choice_type := t; disable_parallel_tool_use := d; choice_name := n |}.

Definition decode_thinking (m : object) : option ClaudeThinking :=
  t ← str_field (B "type") m; b ← int_field (B "budget_tokens") m;
  Some {| thinking_type := t; budget_tokens := b |}.

Definition slice_field {A} (dec : object → option A) (k : bytes) (m : object) : option (list A) :=
  l ← arr_field k m; mapM (λ j, o ← as_struct j; dec o) l.

Definition decode_request (m : object) : option ClaudeRequest :=
  md ← str_field (B "model") m; ms ← slice_field decode_message (B "messages") m;
  temp ← float_ptr (B "temperature") m; mt ← int_ptr (B "max_tokens") m;
  th ← ptr_field decode_thinking (B "thinking") m; oc ← ptr_field (str_field (B "effort")) (B "output_config") m;
  ts ← slice_field decode_tool (B "tools") m; st ← bool_field (B "stream") m;
  Some {| model := md; messages := ms; system := raw_field "system" m; temperature := temp; max_tokens := mt;
          thinking_config := th; output_effort := oc; tools := ts;
          tool_choice := match obj_get (B "tool_choice") m with JNull => None | v => Some v end; stream := st |}.

(** ** Conversion of messages *)

(** [(?i)^x-anthropic-billing-header:[^\n]*(?:\r?\n)?]. *)
Definition billingHeaderRegex : re :=
  rseq [fold_lit "x-anthropic-billing-header:"; RStar (RClass (λ c, negb (bool_decide (c = ch_lf))));
        ropt (RSeq (ropt (rchar ch_cr)) (rchar ch_lf))].

Definition stripAnthropicBillingHeader (text : bytes) : bytes :=
  match match_len billingHeaderRegex None text with Some n => drop n text | None => text end.

Definition parseSystemPrompt (systemRaw : option json) : bytes :=
  match systemRaw with
  | None => []
  | Some _ =>
      match unmarshal_string systemRaw with
      | Some s => stripAnthropicBillingHeader s
      | None =>
          match unmarshal_slice decode_system_block systemRaw with
          | Some blocks => join [ch_lf] (filter (λ t, t ≠ []) (map stripAnthropicBillingHeader blocks))
          | None => []
          end
      end
  end.

Definition systemReminderText (content : bytes) : bytes :=
  match trim_space content with
  | [] => []
  | text => B "<instructions>" ++ [ch_lf] ++ text ++ [ch_lf] ++ B "</instructions>"
  end.

Definition collapseTextParts (parts : list OpenAIContentBlock) : OpenAIContent :=
  match parts with [TextPart t] => StringContent t | _ => PartsContent parts end.

Definition plain (r : bytes) (c : OpenAIContent) : OpenAIMessage :=
  {| role := r; content := c; reasoning_content := []; tool_calls := []; tool_call_id := [] |}.

Definition tool_message (id : bytes) (c : bytes) : OpenAIMessage :=
  {| role := B "tool"; content := StringContent c; reasoning_content := []; tool_calls := []; tool_call_id := id |}.

(** [[]OpenAIMessage{{Role: "user", Content: rem}}], or nothing. *)
Definition reminder (text : bytes) : list OpenAIMessage :=
  match systemReminderText text with [] => [] | rem => [plain (B "user") (StringContent rem)] end.

Definition convert_system (c : option json) : list OpenAIMessage :=
  match unmarshal_string c with
  | Some s => reminder s
  | None =>
      let blocks := default [] (unmarshal_slice decode_block c) in
      let joined := reminder (join [ch_lf] (map block_text
        (filter (λ b, block_type b = B "text" ∧ block_text b ≠ []) blocks))) in
      match unmarshal_struct decode_block c with
      | Some b => if nonempty (block_text b) then reminder (block_text b) else joined
      | None => joined
      end
  end.

Definition data_url (mt data : bytes) : bytes := B "data:" ++ mt ++ B ";base64," ++ data.

Definition base64_source (b : ClaudeContentBlock) : option ClaudeImageSource :=
  src ← source b; if bool_decide (source_type src = B "base64") then Some src else None.

Section Convert.
(** The text of a raw value. *)
Variable raw : json → bytes.
Definition raw_text (v : option json) : bytes := match v with Some j => raw j | None => [] end.

(** The text and the images of a tool result. *)
Definition tool_result (b : ClaudeContentBlock) : bytes * list OpenAIContentBlock :=
  match unmarshal_string (block_content b) with
  | Some s => (s, [])
  | None =>
      match unmarshal_slice decode_block (block_content b) with
      | Some arr =>
          (join [ch_lf] (map block_text (filter (λ c, block_type c = B "text") arr)),
           omap (λ c, if bool_decide (block_type c = B "image") then
                        src ← base64_source c;
                        Some (ImagePart (data_url (match media_type src with [] => B "image/png" | mt => mt end) (source_data src)))
                      else None) arr)
      | None => (raw_text (block_content b), [])
      end
  end.

(** What the loop over the blocks has gathered. *)
Record gathered := {
  textParts : list OpenAIContentBlock; toolCalls : list OpenAIToolCall;
  toolResults : list OpenAIMessage; reasoningContent : bytes
}.

Definition add_parts (ps : list OpenAIContentBlock) (g : gathered) : gathered :=
  {| textParts := textParts g ++ ps; toolCalls := toolCalls g; toolResults := toolResults g; reasoningContent := reasoningContent g |}.

Definition gather_block (g : gathered) (b : ClaudeContentBlock) : gathered :=
  let t := block_type b in
  if bool_decide (t = B "text") then add_parts [TextPart (block_text b)] g
  else if bool_decide (t = B "thinking") then
    {| textParts := textParts g; toolCalls := toolCalls g; toolResults := toolResults g;
       reasoningContent := reasoningContent g ++ thinking b |}
  else if bool_decide (t = B "image") then
    match base64_source b with
    | Some src => add_parts [ImagePart (data_url (media_type src) (source_data src))] g
    | None => g
    end
  else if bool_decide (t = B "document") then
    match base64_source b with
    | Some src => add_parts [FilePart (data_url (media_type src) (source_data src))] g
    | None => g
    end
  else if bool_decide (t = B "tool_use") then
    {| textParts := textParts g;
       toolCalls := toolCalls g ++ [{| call_id := block_id b; call_type := B "function"; call_name := block_name b;
                                       call_arguments := raw_text (input b) |}];
       toolResults := toolResults g; reasoningContent := reasoningContent g |}
  else if bool_decide (t = B "tool_result") then
    let '(text, images) := tool_result b in
    let g := {| textParts := textParts g; toolCalls := toolCalls g;
                toolResults := toolResults g ++ [tool_message (tool_use_id b) text]; reasoningContent := reasoningContent g |} in
    match images with
    | [] => g
    | _ => add_parts (TextPart (B "[Image from tool result " ++ tool_use_id b ++ B "]") :: images) g
    end
  else g.

Definition nothing : gathered := {| textParts := []; toolCalls := []; toolResults := []; reasoningContent := [] |}.

(** The messages made of the blocks of one message. *)
Definition assemble (r : bytes) (blocks : list ClaudeContentBlock) : list OpenAIMessage :=
  let g := foldl gather_block nothing blocks in
  match toolResults g, toolCalls g, textParts g with
  | (_ :: _) as results, _, [] => results
  | (_ :: _) as results, _, parts => results ++ [plain (B "user") (collapseTextParts parts)]
  | [], (_ :: _) as calls, parts =>
      [{| role := B "assistant"; content := match parts with [] => NoContent | _ => collapseTextParts parts end;
          reasoning_content := reasoningContent g; tool_calls := calls; tool_call_id := [] |}]
  | [], [], (_ :: _) as parts => [plain r (collapseTextParts parts)]
  | [], [], [] => match blocks with [] => [plain r (StringContent [])] | _ => [] end
  end.

Definition message_blocks (c : option json) : option (list ClaudeContentBlock) :=
  match unmarshal_struct decode_block c with
  | Some b => if nonempty (block_type b) || nonempty (block_text b) then Some [b] else unmarshal_slice decode_block c
  | None => unmarshal_slice decode_block c
  end.

(** [None] is an error. *)
Definition convertClaudeMessage (msg : ClaudeMessage) : option (list OpenAIMessage) :=
  if bool_decide (message_role msg = B "system") then Some (convert_system (message_content msg))
  else
    let r := if bool_decide (message_role msg = B "assistant") then B "assistant" else B "user" in
    match unmarshal_string (message_content msg) with
    | Some s => Some [plain r (StringContent s)]
    | None => assemble r <$> message_blocks (message_content msg)
    end.
End Convert.

(** ** Repair of the conversation *)

Definition with_calls (m : OpenAIMessage) (calls : list OpenAIToolCall) : OpenAIMessage :=
  {| role := role m; content := content m; reasoning_content := reasoning_content m; tool_calls := calls; tool_call_id := tool_call_id m |}.
Definition with_call_id (m : OpenAIMessage) (id : bytes) : OpenAIMessage :=
  {| role := role m; content := content m; reasoning_content := reasoning_content m; tool_calls := tool_calls m; tool_call_id := id |}.

Definition is_role (r : string) (m : OpenAIMessage) : bool := bool_decide (role m = B r).

(** An assistant message that calls tools. *)
Definition calling (m : OpenAIMessage) : bool := is_role "assistant" m && negb (bool_decide (length (tool_calls m) = 0%nat)).

Definition number_call (toolSeq : Z) (k : nat) (c : OpenAIToolCall) : OpenAIToolCall :=
  match call_id c with
  | [] => {| call_id := B "call_" ++ itoa toolSeq ++ B "_" ++ itoa (Z.of_nat k); call_type := call_type c;
             call_name := call_name c; call_arguments := call_arguments c |}
  | _ => c
  end.

Fixpoint ensure_ids (i toolSeq : Z) (pending : list bytes) (msgs : list OpenAIMessage) : list OpenAIMessage :=
  match msgs with
  | [] => []
  | m :: msgs' =>
      if calling m then
        let calls := imap (number_call toolSeq) (tool_calls m) in
        with_calls m calls :: ensure_ids (i + 1) (toolSeq + 1) (pending ++ map call_id calls) msgs'
      else if is_role "tool" m then
        if nonempty (tool_call_id m) then
          m :: ensure_ids (i + 1) toolSeq (remove_first (tool_call_id m) pending) msgs'
        else
          match pending with
          | id :: pending' => with_call_id m id :: ensure_ids (i + 1) toolSeq pending' msgs'
          | [] => with_call_id m (B "call_tool_" ++ itoa i) :: ensure_ids (i + 1) toolSeq [] msgs'
          end
      else m :: ensure_ids (i + 1) toolSeq pending msgs'
  end.

Definition EnsureToolCallIDs (messages : list OpenAIMessage) : list OpenAIMessage := ensure_ids 0 0 [] messages.

(** The responses right after a message: the inner loop up to its [break]. *)
Fixpoint tool_run (msgs : list OpenAIMessage) : list OpenAIMessage :=
  match msgs with
  | [] => []
  | m :: msgs' => if is_role "tool" m && nonempty (tool_call_id m) then m :: tool_run msgs' else []
  end.

Definition missing_ids (m : OpenAIMessage) (run : list OpenAIMessage) : list bytes :=
  filter (λ id, id ∉ map tool_call_id run) (map call_id (tool_calls m)).

Definition missing_response (id : bytes) : OpenAIMessage := tool_message id (B "[No response received]").

(** The body of the loop at [i]: the next [i] and the new [result]. *)
Definition fix_step (i : nat) (result : list OpenAIMessage) : nat * list OpenAIMessage :=
  match result !! i with
  | Some msg =>
      if calling msg then
        let run := tool_run (drop (S i) result) in
        let insertPosition := (S i + length run)%nat in
        match missing_ids msg run with
        | [] => (S i, result)
        | missing =>
            ((insertPosition + length missing)%nat,
             take insertPosition result ++ map missing_response missing ++ drop insertPosition result)
        end
      else (S i, result)
  | None => (S i, result)
  end.

(** [None] when the fuel runs out. *)
Fixpoint fix_loop (fuel i : nat) (result : list OpenAIMessage) : option (list OpenAIMessage) :=
  match fuel with
  | O => None
  | S fuel' =>
      if (i <? length result)%nat then let '(i', result') := fix_step i result in fix_loop fuel' i' result'
      else Some result
  end.

Definition fixMissingToolResponsesOpenAI (messages : list OpenAIMessage) : option (list OpenAIMessage) :=
  let messages := EnsureToolCallIDs messages in
  fix_loop (S (length messages)) 0 messages.

(** ** The request *)

Definition budgetToEffort (budget : Z) : bytes :=
  if 20000 <=? budget then B "high" else if 5000 <=? budget then B "medium" else B "low".

Definition convertToolChoice (choiceRaw : option json) : OpenAIToolChoice :=
  match choiceRaw with
  | None => ChoiceString (B "auto")
  | Some _ =>
      match unmarshal_string choiceRaw with
      | Some s => ChoiceString s
      | None =>
          match unmarshal_struct decode_choice choiceRaw with
          | Some c =>
              let t := choice_type c in
              if bool_decide (t = B "auto") then ChoiceString (B "auto")
              else if bool_decide (t = B "any") then ChoiceString (B "required")
              else if bool_decide (t = B "none") then ChoiceString (B "none")
              else if bool_decide (t = B "tool") then ChoiceFunction (choice_name c)
              else ChoiceString (B "auto")
          | None => ChoiceString (B "auto")
          end
      end
  end.

Definition claudeDisablesParallelToolUse (choiceRaw : option json) : bool :=
  match unmarshal_struct decode_choice choiceRaw with
  | Some c => disable_parallel_tool_use c
  | None => false
  end.

Definition convert_tool (t : ClaudeTool) : OpenAITool :=
  {| function_name := tool_name t; function_description := description t; parameters := input_schema t; function_strict := strict t |}.

Inductive translate_error := UnmarshalError | ConvertError (i : nat) | OutOfFuel.

(** The loop over the messages, with the index of the one that fails. *)
Fixpoint convert_all (raw : json → bytes) (i : nat) (msgs : list ClaudeMessage) : translate_error + list OpenAIMessage :=
  match msgs with
  | [] => inr []
  | m :: msgs' =>
      match convertClaudeMessage raw m with
      | None => inl (ConvertError i)
      | Some ms => match convert_all raw (S i) msgs' with inl e => inl e | inr rest => inr (ms ++ rest) end
      end
  end.

Section Translate.
Context `{UnicodeCase} `{JsonCodec}.
Variable raw : json → bytes.

Definition requiresMaxCompletionTokens (m : bytes) : bool :=
  let lower := to_lower m in
  contains (B "gpt-5") lower || contains (B "o1-") lower || contains (B "o3-") lower || contains (B "o4-") lower.

Definition named_effort (effort : bytes) : bytes :=
  let eff := to_lower effort in
  if bool_decide (eff = B "xhigh") || bool_decide (eff = B "auto") then B "high" else eff.

Definition reasoning_effort (creq : ClaudeRequest) : bytes :=
  let configured := match output_effort creq with Some e => e | None => [] end in
  match thinking_config creq with
  | Some th =>
      if bool_decide (thinking_type th = B "enabled") then budgetToEffort (budget_tokens th)
      else if bool_decide (thinking_type th = B "adaptive") then
        match configured with [] => B "high" | e => named_effort e end
      else []
  | None => match configured with [] => [] | e => named_effort e end
  end.

Definition translate_request (creq : ClaudeRequest) : translate_error + OpenAIRequest :=
  let sys := match parseSystemPrompt (system creq) with [] => [] | s => [plain (B "system") (StringContent s)] end in
  match convert_all raw 0 (messages creq) with
  | inl e => inl e
  | inr converted =>
      match fixMissingToolResponsesOpenAI (sys ++ converted) with
      | None => inl OutOfFuel
      | Some msgs =>
          let completion := requiresMaxCompletionTokens (model creq) in
          inr {| o_model := model creq; o_messages := msgs; o_temperature := temperature creq;
                 o_max_tokens := if completion then None else max_tokens creq;
                 o_max_completion_tokens := if completion then max_tokens creq else None;
                 o_tools := map convert_tool (tools creq);
                 o_tool_choice := match tool_choice creq with None => None | c => Some (convertToolChoice c) end;
                 o_parallel_tool_calls := match tool_choice creq with
                                          | None => None
                                          | c => if claudeDisablesParallelToolUse c then Some false else None
                                          end;
                 o_reasoning_effort := reasoning_effort creq; o_stream := stream creq |}
      end
  end.

Definition TranslateClaudeToOpenAI (claudeBody : bytes) : translate_error + OpenAIRequest :=
  match (j ← unmarshal claudeBody; o ← as_struct j; decode_request o) with
  | None => inl UnmarshalError
  | Some creq => translate_request creq
  end.
End Translate.

(** ** A reference for the repair

    From the back: each call gets the responses it lacks after the responses
    that follow it. *)
Fixpoint answer_all (msgs : list OpenAIMessage) : list OpenAIMessage :=
  match msgs with
  | [] => []
  | m :: msgs' =>
      let rest := answer_all msgs' in
      if calling m then
        let run := tool_run rest in
        m :: run ++ map missing_response (missing_ids m run) ++ drop (length run) rest
      else m :: rest
  end.

(** Every call is answered among the responses right after its message. *)
Definition answered (msgs : list OpenAIMessage) : Prop :=
  ∀ i m, msgs !! i = Some m → calling m = true →
    Forall (λ c, call_id c ∈ map tool_call_id (tool_run (drop (S i) msgs))) (tool_calls m).

Definition ids_set (m : OpenAIMessage) : Prop :=
  (calling m = true → Forall (λ c, call_id c ≠ []) (tool_calls m)) ∧ (is_role "tool" m = true → tool_call_id m ≠ []).

(** ** Lemmas *)

Lemma tool_not_calling m : is_role "tool" m = true → calling m = false.
Proof. unfold calling, is_role. intros E%bool_decide_eq_true. rewrite E. by vm_compute. Qed.

Lemma tool_run_app msgs : tool_run msgs ++ drop (length (tool_run msgs)) msgs = msgs.
Proof. induction msgs as [|m msgs IH]; [done|]. cbn. destruct (_ && _); [|done]. cbn. by rewrite IH. Qed.

Lemma tool_run_tools msgs : Forall (λ m, is_role "tool" m = true ∧ tool_call_id m ≠ []) (tool_run msgs).
Proof.
  induction msgs as [|m msgs IH]; [constructor|]. cbn. destruct (is_role "tool" m) eqn:E; [|constructor].
  unfold nonempty. case_bool_decide; cbn; [constructor|by constructor].
Qed.

Lemma tool_run_prefix l k : Forall (λ m, is_role "tool" m = true ∧ tool_call_id m ≠ []) l → tool_run (l ++ k) = l ++ tool_run k.
Proof.
  induction 1 as [|m l [Hr Hi] _ IH]; [done|]. cbn. unfold nonempty. rewrite Hr, bool_decide_eq_false_2, IH by done. done.
Qed.

Lemma answer_all_tools l k : Forall (λ m, is_role "tool" m = true ∧ tool_call_id m ≠ []) l → answer_all (l ++ k) = l ++ answer_all k.
Proof. induction 1 as [|m l [Hr _] _ IH]; [done|]. cbn. by rewrite tool_not_calling, IH. Qed.

(** The repair keeps the responses that lead a list. *)
Lemma tool_run_answer msgs : tool_run (answer_all msgs) = tool_run msgs.
Proof.
  induction msgs as [|m msgs IH]; [done|]. cbn. destruct (is_role "tool" m) eqn:Hr.
  - rewrite tool_not_calling by done. cbn. by rewrite Hr, IH.
  - destruct (calling m); cbn; by rewrite Hr.
Qed.

Lemma fix_loop_spec n : ∀ todo pre fuel, (length todo <= n)%nat → (length todo < fuel)%nat →
  fix_loop fuel (length pre) (pre ++ todo) = Some (pre ++ answer_all todo).
Proof.
  induction n as [|n IH]; intros todo pre fuel Hn Hf; destruct fuel as [|fuel]; try lia; cbn [fix_loop].
  { destruct todo; [|cbn in Hn; lia]. cbn [answer_all]. by rewrite !app_nil_r, Nat.ltb_irrefl. }
  destruct todo as [|m todo]; [cbn [answer_all]; by rewrite !app_nil_r, Nat.ltb_irrefl|]. cbn [length] in Hn, Hf.
  rewrite (proj2 (Nat.ltb_lt _ _)) by (rewrite length_app; cbn; lia).
  assert (fix_loop fuel (S (length pre)) (pre ++ m :: todo) = Some (pre ++ m :: answer_all todo)) as Hnext.
  { replace (pre ++ m :: todo) with ((pre ++ [m]) ++ todo) by (by rewrite <- app_assoc).
    replace (S (length pre)) with (length (pre ++ [m])) by (rewrite length_app; cbn; lia).
    rewrite IH by lia. by rewrite <- app_assoc. }
  unfold fix_step. rewrite list_lookup_middle by done. cbn [answer_all]. cbv zeta. destruct (calling m) eqn:Hc; [|done].
  replace (drop (S (length pre)) (pre ++ m :: todo)) with todo.
  2:{ replace (S (length pre)) with (length pre + 1)%nat by lia. by rewrite <- drop_drop, drop_app_length. }
  rewrite tool_run_answer. set (run := tool_run todo). destruct (missing_ids m run) as [|id ids] eqn:Em.
  - rewrite Hnext. cbn [map app]. do 3 f_equal. subst run. rewrite <- tool_run_answer. symmetry. apply tool_run_app.
  - set (miss := map missing_response (id :: ids)). set (tail := drop (length run) todo).
    assert (todo = run ++ tail) as Htodo by (symmetry; apply tool_run_app).
    assert (Forall (λ m, is_role "tool" m = true ∧ tool_call_id m ≠ []) run) as Hrun by apply tool_run_tools.
    replace (pre ++ m :: todo) with ((pre ++ m :: run) ++ tail) by (rewrite <- app_assoc; cbn; by rewrite <- Htodo).
    replace (S (length pre) + length run)%nat with (length (pre ++ m :: run)) by (rewrite length_app; cbn; lia).
    rewrite take_app_length, drop_app_length, app_assoc.
    replace (length (pre ++ m :: run) + length (id :: ids))%nat with (length ((pre ++ m :: run) ++ miss))
      by (rewrite (length_app (pre ++ m :: run)); unfold miss; by rewrite length_map).
    assert (length tail <= length todo)%nat by (rewrite Htodo, length_app; lia).
    rewrite IH by lia. rewrite Htodo, answer_all_tools, drop_app_length, <- !app_assoc by done. done.
Qed.

Lemma fix_missing_spec msgs : fixMissingToolResponsesOpenAI msgs = Some (answer_all (EnsureToolCallIDs msgs)).
Proof.
  unfold fixMissingToolResponsesOpenAI. generalize (EnsureToolCallIDs msgs). intros l.
  exact (fix_loop_spec (length l) l [] (S (length l)) (le_n _) (le_n _)).
Qed.

Lemma number_call_set seq k c : call_id (number_call seq k c) ≠ [].
Proof. unfold number_call. destruct (call_id c) eqn:E; [done|]. by rewrite E. Qed.

Lemma calling_with_calls m f : calling (with_calls m (imap f (tool_calls m))) = calling m.
Proof. unfold calling, is_role. cbn. by rewrite length_imap. Qed.

Lemma ensure_ids_set msgs : ∀ i seq pending, Forall (λ id, id ≠ []) pending → Forall ids_set (ensure_ids i seq pending msgs).
Proof.
  induction msgs as [|m msgs IH]; intros i seq pending Hp; cbn [ensure_ids]; [constructor|].
  destruct (calling m) eqn:Hc.
  { assert (Forall (λ c, call_id c ≠ []) (imap (number_call seq) (tool_calls m))) as Hn.
    { apply Forall_forall. intros c (k & x & -> & _)%elem_of_lookup_imap_1. apply number_call_set. }
    constructor.
    - split; [done|]. cbn. intros Hr. by rewrite (tool_not_calling m) in Hc.
    - apply IH, Forall_app. split; [done|]. by apply Forall_fmap. }
  destruct (is_role "tool" m) eqn:Hr; [|constructor; [split; congruence|by apply IH]].
  destruct (tool_call_id m) as [|a t] eqn:Ht; cbn [nonempty].
  - destruct pending as [|id pending]; [|apply Forall_cons in Hp as [? ?]]; (constructor; [|by apply IH]);
      (split; [intros Hc'; by rewrite (tool_not_calling (with_call_id _ _)) in Hc'|done]).
  - constructor; [|by apply IH, remove_first_Forall]. split; [congruence|by rewrite Ht].
Qed.

(** The ids are all that is written, and only where there was none. *)
Definition same_but_ids (m m' : OpenAIMessage) : Prop :=
  role m' = role m ∧ content m' = content m ∧ reasoning_content m' = reasoning_content m ∧
  (tool_call_id m ≠ [] → tool_call_id m' = tool_call_id m) ∧
  Forall2 (λ c c', call_name c' = call_name c ∧ call_arguments c' = call_arguments c ∧ (call_id c ≠ [] → c' = c))
    (tool_calls m) (tool_calls m').

Lemma same_but_ids_refl m : same_but_ids m m.
Proof. split_and!; try done. apply Forall_Forall2_diag, Forall_forall. done. Qed.

Lemma ensure_ids_same msgs : ∀ i seq pending, Forall2 same_but_ids msgs (ensure_ids i seq pending msgs).
Proof.
  induction msgs as [|m msgs IH]; intros i seq pending; cbn [ensure_ids]; [constructor|].
  destruct (calling m).
  { constructor; [|apply IH]. split_and!; try done. cbn. apply Forall2_same_length_lookup. split; [by rewrite length_imap|].
    intros k c c' Hl. rewrite list_lookup_imap, Hl. cbn. intros [= <-]. unfold number_call. by destruct (call_id c). }
  destruct (is_role "tool" m); [|constructor; [apply same_but_ids_refl|apply IH]].
  destruct (tool_call_id m) as [|a t] eqn:Ht; cbn [nonempty].
  - destruct pending; (constructor; [|apply IH]); pose proof (same_but_ids_refl m) as (? & ? & ? & _ & ?); split_and!; try done; by rewrite Ht.
  - constructor; [apply same_but_ids_refl|apply IH].
Qed.

Lemma missing_tools m run : Forall (λ c, call_id c ≠ []) (tool_calls m) →
  Forall (λ m, is_role "tool" m = true ∧ tool_call_id m ≠ []) (map missing_response (missing_ids m run)).
Proof.
  intros Hc. apply Forall_fmap, Forall_forall. intros id [_ (c & -> & Hin)%list_elem_of_fmap]%list_elem_of_filter.
  split; [by vm_compute|]. cbn. by apply (Forall_forall (λ c, call_id c ≠ []) (tool_calls m)).
Qed.

Lemma answered_tools l k : Forall (λ m, is_role "tool" m = true ∧ tool_call_id m ≠ []) l → answered (l ++ k) ↔ answered k.
Proof.
  induction 1 as [|x l [Hr _] _ IH]; [done|]. cbn [app]. rewrite <- IH. split.
  - intros Ha i m Hl. apply (Ha (S i) m Hl).
  - intros Ha [|i] m Hl Hc; [|by apply (Ha i m)]. injection Hl as <-. by rewrite tool_not_calling in Hc.
Qed.

Lemma answer_all_answered msgs : Forall ids_set msgs → answered (answer_all msgs).
Proof.
  induction 1 as [|m msgs [Hm _] _ IH]; [by intros i m|]. cbn [answer_all]. cbv zeta. destruct (calling m) eqn:Hc.
  - specialize (Hm eq_refl). set (run := tool_run (answer_all msgs)). pose proof (missing_tools m run Hm) as Hmiss.
    assert (Forall (λ m, is_role "tool" m = true ∧ tool_call_id m ≠ []) run) as Hrun by apply tool_run_tools.
    intros [|i] x Hl Hx.
    + injection Hl as <-. rewrite skipn_cons, skipn_O, tool_run_prefix, tool_run_prefix by done. apply Forall_forall. intros c Hin.
      rewrite !map_app, !elem_of_app. destruct (decide (call_id c ∈ map tool_call_id run)) as [|Hno]; [by left|right; left].
      rewrite map_map. cbn. rewrite map_id. apply list_elem_of_filter. split; [done|]. by apply list_elem_of_fmap_2.
    + assert (answered (run ++ map missing_response (missing_ids m run) ++ drop (length run) (answer_all msgs))) as Ha.
      { rewrite !answered_tools by done. rewrite <- (answered_tools run) by done. unfold run. by rewrite tool_run_app. }
      by apply (Ha i x).
  - intros [|i] x Hl Hx; [|by apply (IH i x)]. injection Hl as <-. congruence.
Qed.

Lemma answer_all_set msgs : Forall ids_set msgs → Forall ids_set (answer_all msgs).
Proof.
  induction 1 as [|m msgs Hm _ IH]; [constructor|]. cbn [answer_all]. cbv zeta. destruct (calling m) eqn:Hc; constructor; try done.
  rewrite <- (tool_run_app (answer_all msgs)), Forall_app in IH. destruct IH as [H1 H2]. rewrite !Forall_app. split_and!; try done.
  destruct Hm as [Hm _]. eapply Forall_impl; [by apply missing_tools, Hm|]. intros x [Hr Hi]. split; [|done].
  intros Hx. by rewrite tool_not_calling in Hx.
Qed.

(** Messages are only added, and only responses to calls that have none. *)
Lemma answer_all_adds msgs : msgs `sublist_of` answer_all msgs ∧
  ∀ x, x ∈ answer_all msgs → x ∈ msgs ∨ ∃ m c, m ∈ msgs ∧ calling m = true ∧ c ∈ tool_calls m ∧ x = missing_response (call_id c).
Proof.
  induction msgs as [|m msgs [IH1 IH2]]; [split; [done|by intros ? ?%elem_of_nil]|]. cbn [answer_all]. cbv zeta.
  assert (∀ x, x ∈ answer_all msgs → x ∈ m :: msgs ∨ ∃ m0 c, m0 ∈ m :: msgs ∧ calling m0 = true ∧ c ∈ tool_calls m0 ∧ x = missing_response (call_id c)) as Hrec.
  { intros x [?|(n & c & ? & ? & ? & ?)]%IH2; [left; by right|right]. exists n, c. by split; [right|]. }
  destruct (calling m) eqn:Hc; (split; [constructor|]).
  - etrans; [exact IH1|]. rewrite <- (tool_run_app (answer_all msgs)) at 1. apply sublist_app; [done|]. by apply sublist_inserts_l.
  - intros x. rewrite elem_of_cons, !elem_of_app. intros [->|[Hx|[Hx|Hx]]].
    + left. by left.
    + apply Hrec. rewrite <- tool_run_app. apply elem_of_app. by left.
    + apply list_elem_of_fmap in Hx as (id & -> & [_ (c & -> & Hin)%list_elem_of_fmap]%list_elem_of_filter).
      right. exists m, c. split_and!; try done. by left.
    + apply Hrec. rewrite <- (tool_run_app (answer_all msgs)). apply elem_of_app. by right.
  - done.
  - intros x [->|Hx]%elem_of_cons; [left; by left|by apply Hrec].
Qed.

(** Comparisons of literals, evaluated. *)
Ltac literals :=
  repeat match goal with
    | |- context [bool_decide (B ?x = B ?y)] =>
        let v := eval vm_compute in (bool_decide (B x = B y)) in change (bool_decide (B x = B y)) with v
    end.

(** Whether a block has type [t]. *)
Tactic Notation "on_type" constr(b) constr(t) :=
  let E := fresh "E" in
  destruct (decide (block_type b = B t)) as [E|E];
  [rewrite ?E; literals|rewrite ?(bool_decide_eq_false_2 _ E)].

Section ConvertLemmas.
Variable raw : json → bytes.

Definition is_block (t : string) (b : ClaudeContentBlock) : bool := bool_decide (block_type b = B t).

(** What the loop keeps of the calls and of the results. *)
Definition call_of (b : ClaudeContentBlock) : OpenAIToolCall :=
  {| call_id := block_id b; call_type := B "function"; call_name := block_name b; call_arguments := raw_text raw (input b) |}.
Definition result_of (b : ClaudeContentBlock) : OpenAIMessage := tool_message (tool_use_id b) (tool_result raw b).1.

Lemma gather_traffic blocks : ∀ g,
  toolCalls (foldl (gather_block raw) g blocks) = toolCalls g ++ map call_of (filter (λ b, is_block "tool_use" b = true) blocks) ∧
  toolResults (foldl (gather_block raw) g blocks) = toolResults g ++ map result_of (filter (λ b, is_block "tool_result" b = true) blocks).
Proof.
  induction blocks as [|b blocks IH]; intros g; cbn [foldl]; [by rewrite !app_nil_r|].
  destruct (IH (gather_block raw g b)) as [-> ->]. rewrite !filter_cons.
  assert (toolCalls (gather_block raw g b) = toolCalls g ++ (if is_block "tool_use" b then [call_of b] else []) ∧
          toolResults (gather_block raw g b) = toolResults g ++ (if is_block "tool_result" b then [result_of b] else [])) as [-> ->].
  { unfold gather_block, is_block.
    on_type b "text"; [by rewrite !app_nil_r|]. on_type b "thinking"; [by rewrite !app_nil_r|].
    on_type b "image"; [destruct (base64_source b); cbn; by rewrite !app_nil_r|].
    on_type b "document"; [destruct (base64_source b); cbn; by rewrite !app_nil_r|].
    on_type b "tool_use"; [by rewrite app_nil_r|]. on_type b "tool_result"; [|by rewrite !app_nil_r].
    unfold result_of. destruct (tool_result raw b) as [text [|im ims]]; cbn; by rewrite ?app_nil_r. }
  rewrite <- !app_assoc. destruct (is_block "tool_use" b), (is_block "tool_result" b);
    repeat (case_decide; try done); cbn; by rewrite ?app_nil_r.
Qed.

Lemma filter_tools_results bs : filter (λ m, is_role "tool" m = true) (map result_of bs) = map result_of bs.
Proof. induction bs as [|b bs IH]; [done|]. cbn [map]. rewrite filter_cons_True by (by vm_compute). by rewrite IH. Qed.

Lemma concat_results bs : concat (map tool_calls (map result_of bs)) = [].
Proof. induction bs; [done|]. done. Qed.

(** What a message becomes: its results and one user message, or else the
    message that calls, or else at most one message. *)
Lemma assemble_shape r blocks :
  let out := assemble raw r blocks in
  let results := filter (λ b, is_block "tool_result" b = true) blocks in
  let calls := map call_of (filter (λ b, is_block "tool_use" b = true) blocks) in
  (∃ user, out = map result_of results ++ user ∧ (user = [] ∨ ∃ c, user = [plain (B "user") c]) ∧ results ≠ []) ∨
  (results = [] ∧
   ((out = [] ∧ calls = []) ∨ (∃ c, out = [plain r c] ∧ calls = []) ∨
    (∃ m, out = [m] ∧ is_role "tool" m = false ∧ calls = tool_calls m))).
Proof.
  cbv zeta. destruct (gather_traffic blocks nothing) as [Hc Hs]. cbn in Hc, Hs. unfold assemble. rewrite Hs, Hc.
  destruct (filter (λ b, is_block "tool_result" b = true) blocks) as [|b bs]; cbn [map].
  - right. split; [done|]. destruct (map call_of _) as [|c cs].
    + destruct (textParts _); [destruct blocks|]; eauto.
    + right. right. by eexists.
  - left. destruct (textParts _) as [|p ps].
    + exists []. split_and!; [by rewrite app_nil_r|by left|done].
    + eexists. split_and!; [done|right; by eexists|done].
Qed.

(** Converting the blocks of a message, every tool result becomes one tool
    message, in order and with its id, ahead of the rest; and unless the message
    has results its calls become the calls of one assistant message, in order,
    with their ids, names and arguments. *)
Theorem conversion_keeps_tool_traffic r blocks : r ≠ B "tool" →
  let out := assemble raw r blocks in
  let results := filter (λ b, is_block "tool_result" b = true) blocks in
  map result_of results `prefix_of` out ∧
  filter (λ m, is_role "tool" m = true) out = map result_of results ∧
  concat (map tool_calls out) = match results with [] => map call_of (filter (λ b, is_block "tool_use" b = true) blocks) | _ => [] end ∧
  (length (filter (λ m, calling m = true) out) <= 1)%nat.
Proof.
  intros Hr. cbv zeta. destruct (assemble_shape r blocks) as [(user & -> & Hu & Hne)|(E & Hout)].
  - assert (filter (λ m, calling m = true) (map result_of (filter (λ b, is_block "tool_result" b = true) blocks)) = []) as Hnc.
    { apply filter_none, Forall_fmap, Forall_forall. intros b _. by vm_compute. }
    rewrite !filter_app, map_app, concat_app, filter_tools_results, concat_results, Hnc. split_and!.
    + by apply prefix_app_r.
    + destruct Hu as [-> | [c ->]]; apply app_nil_r.
    + destruct (filter _ blocks) as [|b bs]; [done|]. by destruct Hu as [-> | [k ->]].
    + destruct Hu as [-> | [c ->]]; cbn [app]; [cbn; lia|]. rewrite filter_cons. case_decide; cbn; lia.
  - rewrite E. assert (∀ c, is_role "tool" (plain r c) = false) as Hp by (intros c; by apply bool_decide_eq_false_2).
    destruct Hout as [(-> & Hc)|[(c & -> & Hc)|(m & -> & Hm & Hc)]]; rewrite Hc; (split; [apply prefix_nil|]).
    + split_and!; [done|done|cbn; lia].
    + split_and!; [by rewrite filter_cons_False by (by rewrite Hp)|done|rewrite filter_cons; case_decide; cbn; lia].
    + cbn [map concat]. rewrite app_nil_r, filter_cons_False by (by rewrite Hm). split_and!; [done|done|].
      rewrite filter_cons. case_decide; cbn; lia.
Qed.
End ConvertLemmas.

(** ** Properties *)

(** C37. The loop that inserts missing responses terminates for every
    conversation and computes the reference repair: it only adds messages, each
    the response to a call that has none, and writes only ids that are missing. *)
Theorem response_repair_is_reference msgs :
  ∃ out, fixMissingToolResponsesOpenAI msgs = Some out ∧ out = answer_all (EnsureToolCallIDs msgs) ∧
    Forall2 same_but_ids msgs (EnsureToolCallIDs msgs) ∧ EnsureToolCallIDs msgs `sublist_of` out ∧
    ∀ x, x ∈ out → x ∈ EnsureToolCallIDs msgs ∨
      ∃ m c, m ∈ EnsureToolCallIDs msgs ∧ calling m = true ∧ c ∈ tool_calls m ∧ x = missing_response (call_id c).
Proof.
  exists (answer_all (EnsureToolCallIDs msgs)). destruct (answer_all_adds (EnsureToolCallIDs msgs)) as [H1 H2].
  split_and!; [|done|apply ensure_ids_same|done|done]. apply fix_missing_spec.
Qed.

Section TranslateTheorems.
Context `{UnicodeCase} `{JsonCodec}.
Variable raw : json → bytes.

(** C31. Every Claude request that decodes and whose messages convert yields an
    OpenAI request in which each tool call has an id and is answered among the
    tool messages that directly follow its message, and each tool message names
    a call. *)
Theorem translated_calls_are_answered body out : TranslateClaudeToOpenAI raw body = inr out →
  answered (o_messages out) ∧ Forall ids_set (o_messages out).
Proof.
  unfold TranslateClaudeToOpenAI, translate_request. destruct (_ ≫= _) as [creq|]; [|done].
  destruct (convert_all raw 0 (messages creq)) as [e|converted]; [done|].
  set (msgs := _ ++ converted).
  rewrite fix_missing_spec.
  intros [= <-]. cbn [o_messages]. assert (Forall ids_set (EnsureToolCallIDs msgs)) by (by apply ensure_ids_set).
  split; [by apply answer_all_answered|by apply answer_all_set].
Qed.
End TranslateTheorems.

Lemma translation_has_fuel `{UnicodeCase} `{JsonCodec} raw body : TranslateClaudeToOpenAI raw body ≠ inl OutOfFuel.
Proof.
  unfold TranslateClaudeToOpenAI, translate_request. destruct (_ ≫= _) as [creq|]; [|done].
  assert (∀ msgs i, convert_all raw i msgs ≠ inl OutOfFuel) as Hc.
  { induction msgs as [|m msgs IH]; intros i; [done|]. cbn. destruct (convertClaudeMessage raw m); [|done].
    specialize (IH (S i)). destruct (convert_all raw (S i) msgs); [congruence|done]. }
  specialize (Hc (messages creq) 0%nat). destruct (convert_all raw 0 (messages creq)) as [e|converted]; [congruence|].
  by rewrite fix_missing_spec.
Qed.

(** ** Samples *)
Module Sample.
#[local] Existing Instance json_codec.
#[local] Existing Instance ascii_case.

Abbreviation translate := (TranslateClaudeToOpenAI json_encode) (only parsing).

(** Two calls, one answered: the other gets a placeholder before the next turn. *)
Definition request : bytes := js "{~model~:~o3-mini~,~max_tokens~:100,~system~:~x-anthropic-billing-header: y\nBe brief~,
  ~thinking~:{~type~:~enabled~,~budget_tokens~:6000},~tool_choice~:{~type~:~any~,~disable_parallel_tool_use~:true},
  ~messages~:[{~role~:~user~,~content~:~hi~},
   {~role~:~assistant~,~content~:[{~type~:~thinking~,~thinking~:~hm~},{~type~:~tool_use~,~id~:~a~,~name~:~f~,~input~:{~x~:1}},{~type~:~tool_use~,~id~:~b~,~name~:~g~,~input~:{}}]},
   {~role~:~user~,~content~:[{~type~:~text~,~text~:~go~},{~type~:~tool_result~,~tool_use_id~:~a~,~content~:[{~type~:~text~,~text~:~ok~}]}]}]}".

Definition call (id name args : string) : OpenAIToolCall :=
  {| call_id := B id; call_type := B "function"; call_name := B name; call_arguments := js args |}.

Definition translated : OpenAIRequest :=
  {| o_model := B "o3-mini";
     o_messages := [plain (B "system") (StringContent (B "Be brief")); plain (B "user") (StringContent (B "hi"));
       {| role := B "assistant"; content := NoContent; reasoning_content := B "hm";
          tool_calls := [call "a" "f" "{~x~:1}"; call "b" "g" "{}"]; tool_call_id := [] |};
       tool_message (B "a") (B "ok"); missing_response (B "b"); plain (B "user") (StringContent (B "go"))];
     o_temperature := None; o_max_tokens := None; o_max_completion_tokens := Some 100; o_tools := [];
     o_tool_choice := Some (ChoiceString (B "required")); o_parallel_tool_calls := Some false;
     o_reasoning_effort := B "medium"; o_stream := false |}.

Example request_translated : translate request = inr translated.
Proof. by vm_compute. Qed.

(** A message without content is refused, with its index. *)
Example no_content_refused : translate (js "{~messages~:[{~role~:~user~,~content~:~a~},{~role~:~user~}]}") = inl (ConvertError 1).
Proof. by vm_compute. Qed.

Lemma translated_calls_witness : translate request = inr translated ∧ answered (o_messages translated).
Proof.
  assert (translate request = inr translated) as E by (by vm_compute).
  split; [exact E|]. apply (translated_calls_are_answered json_encode request translated E).
Defined.

Lemma conversion_witness : B "user" ≠ B "tool" ∧
  concat (map tool_calls (assemble json_encode (B "user") [])) = [].
Proof.
  assert (B "user" ≠ B "tool") as Hne by (by vm_compute). split; [exact Hne|].
  destruct (conversion_keeps_tool_traffic json_encode (B "user") [] Hne) as (_ & _ & H & _). exact H.
Defined.
End Sample.
