(* ===== verification/Usage.v ===== *)
(** * Token counts of a response
    ([OpenAIUsage] of [internal/translator/types.go]; [response.go] lines 43 to
    192 and the session keys of [usage.go])

    The counts an answer reports, read from every shape a provider uses. Claude
    counts cached prompt tokens apart, OpenAI within the prompt: a record is
    normalized once, and carries a mark that it was. *)

From Stdlib Require Import SpecFloat.
From S2P Require Import Prelude GoFloat Json GoText ErrorClassify ClaudeBody.

Record OpenAIUsage := {
  PromptTokens : Z; CompletionTokens : Z; CachedTokens : Z; CacheCreationInputTokens : Z;
  PromptTokensDetails : option Z;       (* its [cached_tokens] *)
  CompletionTokensDetails : option Z;   (* its [reasoning_tokens] *)
  PromptCacheIncluded : bool
}.

Definition no_usage : OpenAIUsage :=
  {| PromptTokens := 0; CompletionTokens := 0; CachedTokens := 0; CacheCreationInputTokens := 0;
     PromptTokensDetails := None; CompletionTokensDetails := None; PromptCacheIncluded := false |}.

Definition GetCachedTokens (u : OpenAIUsage) : Z :=
  if 0 <? CachedTokens u then CachedTokens u
  else match PromptTokensDetails u with
       | Some c => if 0 <? c then c else 0
       | None => 0
       end.

Definition ReasoningTokens (u : option OpenAIUsage) : Z :=
  match u with Some u => default 0 (CompletionTokensDetails u) | None => 0 end.

Definition decode_usage (m : object) : option OpenAIUsage :=
  p ← int_field (B "prompt_tokens") m; c ← int_field (B "completion_tokens") m;
  k ← int_field (B "cached_tokens") m; w ← int_field (B "cache_creation_input_tokens") m;
  pd ← ptr_field (int_field (B "cached_tokens")) (B "prompt_tokens_details") m;
  cd ← ptr_field (int_field (B "reasoning_tokens")) (B "completion_tokens_details") m;
  Some {| PromptTokens := p; CompletionTokens := c; CachedTokens := k; CacheCreationInputTokens := w;
          PromptTokensDetails := pd; CompletionTokensDetails := cd; PromptCacheIncluded := false |}.

(** [u.PromptTokens += n] and the mark. *)
Definition NormalizeClaudeUsage (u : OpenAIUsage) : OpenAIUsage :=
  if PromptCacheIncluded u then u
  else {| PromptTokens := int64 (PromptTokens u + int64 (GetCachedTokens u + CacheCreationInputTokens u));
          CompletionTokens := CompletionTokens u; CachedTokens := CachedTokens u;
          CacheCreationInputTokens := CacheCreationInputTokens u; PromptTokensDetails := PromptTokensDetails u;
          CompletionTokensDetails := CompletionTokensDetails u; PromptCacheIncluded := true |}.

Section Parse.
Context `{JsonCodec}.
Variable out_of_range : Z → Z.

(** [int(x)] of a float; [x >= 0]. *)
Definition float_int (x : spec_float) : Z :=
  let n := match x with S754_finite true _ _ => - sf_trunc (SFopp x) | _ => sf_trunc x end in
  if (- 2 ^ 63 <=? n) && (n <=? 2 ^ 63 - 1024) then n else out_of_range n.

Definition float_nonneg (x : spec_float) : bool :=
  match x with S754_zero _ => true | S754_finite neg _ _ | S754_infinity neg => negb neg | S754_nan => false end.

(** The five places a cached count may stand, in order of precedence. *)
Definition cached_candidates (m : object) : option (list (option spec_float)) :=
  a ← float_ptr (B "cached_tokens") m; b ← float_ptr (B "cache_read_input_tokens") m;
  e ← float_ptr (B "prompt_eval_cached_count") m;
  p ← ptr_field (float_ptr (B "cached_tokens")) (B "prompt_tokens_details") m;
  i ← ptr_field (float_ptr (B "cached_tokens")) (B "input_tokens_details") m;
  Some [a; b; default None p; default None i; e].

Definition first_count (l : list (option spec_float)) : Z :=
  match filter (λ x, float_nonneg x = true) (omap id l) with x :: _ => float_int x | [] => 0 end.

(** [CachedTokensFromJSON], on the decoded value. *)
Definition CachedTokensFromJSON (raw : json) : Z :=
  match m ← as_struct raw; cached_candidates m with Some l => first_count l | None => 0 end.

(** The [usage] member of a body, unless it is absent or null. *)
Definition usage_member (body : bytes) : option json :=
  j ← unmarshal body; m ← as_struct j;
  match raw_field "usage" m with Some JNull | None => None | Some u => Some u end.

Definition ParseClaudeUsage (body : bytes) : option OpenAIUsage :=
  raw ← usage_member body; m ← as_map raw;
  if obj_has "input_tokens" m then
    i ← int_field (B "input_tokens") m; o ← int_field (B "output_tokens") m;
    w ← int_field (B "cache_creation_input_tokens") m;
    Some (NormalizeClaudeUsage
      {| PromptTokens := i; CompletionTokens := o; CachedTokens := CachedTokensFromJSON raw;
         CacheCreationInputTokens := w; PromptTokensDetails := None; CompletionTokensDetails := None;
         PromptCacheIncluded := false |})
  else None.

Definition with_cached (c : Z) (u : OpenAIUsage) : OpenAIUsage :=
  {| PromptTokens := PromptTokens u; CompletionTokens := CompletionTokens u; CachedTokens := c;
     CacheCreationInputTokens := CacheCreationInputTokens u; PromptTokensDetails := PromptTokensDetails u;
     CompletionTokensDetails := CompletionTokensDetails u; PromptCacheIncluded := true |}.

Definition ParseResponseUsage (body : bytes) : option OpenAIUsage :=
  match ParseClaudeUsage body with
  | Some u => Some u
  | None =>
      raw ← usage_member body; m ← as_struct raw; u ← decode_usage m;
      Some (with_cached (CachedTokensFromJSON raw) u)
  end.

Definition ParseOllamaUsage (body : bytes) : option OpenAIUsage :=
  j ← unmarshal body; m ← as_struct j;
  d ← bool_field (B "done") m; p ← int_ptr (B "prompt_eval_count") m; e ← int_ptr (B "eval_count") m;
  c ← int_ptr (B "prompt_eval_cached_count") m;
  match d, p, e with
  | true, None, None | false, _, _ => None
  | true, _, _ =>
      Some {| PromptTokens := default 0 p; CompletionTokens := default 0 e; CachedTokens := default 0 c;
              CacheCreationInputTokens := 0; PromptTokensDetails := None; CompletionTokensDetails := None;
              PromptCacheIncluded := true |}
  end.

(** ** What the parsers answer *)

Lemma normalize_marked u : PromptCacheIncluded (NormalizeClaudeUsage u) = true.
Proof. unfold NormalizeClaudeUsage. by destruct (PromptCacheIncluded u) eqn:E. Qed.

Lemma normalize_id u : PromptCacheIncluded u = true → NormalizeClaudeUsage u = u.
Proof. unfold NormalizeClaudeUsage. by intros ->. Qed.

Lemma claude_fields body u : ParseClaudeUsage body = Some u → ∃ raw m i o w,
  usage_member body = Some raw ∧ as_map raw = Some m ∧ obj_has "input_tokens" m = true ∧
  int_field (B "input_tokens") m = Some i ∧ int_field (B "cache_creation_input_tokens") m = Some w ∧
  u = NormalizeClaudeUsage
        {| PromptTokens := i; CompletionTokens := o; CachedTokens := CachedTokensFromJSON raw;
           CacheCreationInputTokens := w; PromptTokensDetails := None; CompletionTokensDetails := None;
           PromptCacheIncluded := false |}.
Proof.
  unfold ParseClaudeUsage. intros (raw & Er & (m & Em & Ec)%bind_Some)%bind_Some.
  destruct (obj_has "input_tokens" m) eqn:Eh; [|done].
  apply bind_Some in Ec as (i & Ei & (o & _ & (w & Ew & Eu)%bind_Some)%bind_Some). injection Eu as <-.
  by exists raw, m, i, o, w.
Qed.

(** The cached prompt tokens of an answer are counted exactly once: of a
    Claude answer the prompt count is the input tokens plus the cache reads and
    the cache writes, of an OpenAI answer it is the count it reports; both carry
    the mark, so that normalizing the record again, at any later stage, changes
    nothing. *)
Theorem cached_tokens_counted_once body u : ParseResponseUsage body = Some u →
  NormalizeClaudeUsage u = u ∧
  ∃ raw m, usage_member body = Some raw ∧ as_struct raw = Some m ∧ CachedTokens u = CachedTokensFromJSON raw ∧
    (obj_has "input_tokens" m = true → ParseClaudeUsage body = Some u →
       ∃ i w, int_field (B "input_tokens") m = Some i ∧ int_field (B "cache_creation_input_tokens") m = Some w ∧
         PromptTokens u = int64 (i + int64 (Z.max 0 (CachedTokens u) + w))) ∧
    (obj_has "input_tokens" m = false → int_field (B "prompt_tokens") m = Some (PromptTokens u)).
Proof.
  unfold ParseResponseUsage. intros E. destruct (ParseClaudeUsage body) as [u'|] eqn:Ec.
  - injection E as ->. destruct (claude_fields body u Ec) as (raw & m & i & o & w & Er & Em & Eh & Ei & Ew & ->).
    split; [apply normalize_id, normalize_marked|]. exists raw, m. split; [done|]. split; [by destruct raw|].
    split; [done|]. rewrite Eh. split; [|done]. intros _ _. exists i, w. split; [done|]. split; [done|].
    unfold NormalizeClaudeUsage, GetCachedTokens. cbn. f_equal. f_equal. f_equal. f_equal. zcases.
  - apply bind_Some in E as (raw & Er & (m & Em & (v & Ed & E)%bind_Some)%bind_Some). injection E as <-.
    split; [done|]. exists raw, m. do 3 (split; [done|]). split; [done|]. intros _.
    by apply bind_Some in Ed as (p & -> & (? & _ & (? & _ & (? & _ & (? & _ & (? & _ & [= <-])%bind_Some)%bind_Some)%bind_Some)%bind_Some)%bind_Some).
Qed.

End Parse.

Module Sample.

#[local] Existing Instance json_codec.

Definition claude_body : bytes :=
  js "{~usage~:{~input_tokens~:10,~output_tokens~:5,~cache_read_input_tokens~:70,~cache_creation_input_tokens~:3}}".

Definition counts (u : option OpenAIUsage) : option (Z * Z * Z) :=
  (λ u, (PromptTokens u, CompletionTokens u, CachedTokens u)) <$> u.

Example usage_samples :
  counts (ParseResponseUsage id claude_body) = Some (83, 5, 70) ∧
  counts (ParseResponseUsage id (js "{~usage~:{~prompt_tokens~:9,~completion_tokens~:2,~prompt_tokens_details~:{~cached_tokens~:4.0}}}"))
    = None ∧
  counts (ParseResponseUsage id (js "{~usage~:{~prompt_tokens~:9,~completion_tokens~:2,~prompt_tokens_details~:{~cached_tokens~:4}}}"))
    = Some (9, 2, 4) ∧
  counts (ParseResponseUsage id (js "{~usage~:null}")) = None ∧
  counts (ParseOllamaUsage (js "{~done~:true,~prompt_eval_count~:7,~eval_count~:1,~prompt_eval_cached_count~:6}")) = Some (7, 1, 6) ∧
  counts (ParseOllamaUsage (js "{~done~:false,~prompt_eval_count~:7}")) = None.
Proof. by vm_compute. Qed.

Lemma cached_tokens_witness : ∃ u, ParseResponseUsage id claude_body = Some u ∧ PromptTokens u = 83 ∧ NormalizeClaudeUsage u = u.
Proof.
  eexists. split; [by vm_compute|]. split; [by vm_compute|].
  refine (proj1 (cached_tokens_counted_once id claude_body _ _)). by vm_compute.
Defined.

End Sample.
