(* ===== verification/ToolArgs.v ===== *)
(** * Arguments of tool calls, as a client with strict schemas takes them
    ([internal/translator/sanitize.go], [UncloakToolName] of [antigravity.go])

    The map of the arguments is an association list; [order] is the order in
    which one iteration of the run-time visits a map, so a result that depends on
    it is a result for every order. A number keeps the text of its literal. Log
    lines are not modelled. *)

From S2P Require Import Prelude GoRegexp Json GoText ErrorClassify Capabilities ClaudeBody PromptCache.

(** ** [fmt.Sscanf(v, %d, &n)]

    Blanks but no line feed, a sign, at least one digit; what follows the digits
    is not read. *)

Fixpoint skip_blanks (fuel : nat) (s : bytes) : option bytes :=
  match fuel with
  | O => Some s
  | S fuel' =>
      if has_prefix [ch_lf] s || has_prefix [ch_cr; ch_lf] s then None
      else match List.find (λ p, has_prefix p s) utf8_spaces with
           | Some p => skip_blanks fuel' (drop (length p) s)
           | None => Some s
           end
  end.

Definition scan_sign (s : bytes) : bytes * bytes :=
  match s with
  | c :: t => if bool_decide (c = "+"%char) || bool_decide (c = "-"%char) then ([c], t) else ([], s)
  | [] => ([], [])
  end.

Definition sscan_int (s : bytes) : option Z :=
  match skip_blanks (length s) s with
  | Some t => let '(sign, u) := scan_sign t in Atoi (sign ++ (span is_digit u).1)
  | None => None
  end.

(** [UncloakToolName] with no map of names. *)
Definition UncloakToolName (name : bytes) : bytes :=
  let name := trim_prefix (B "proxy_") name in
  if has_suffix (B "_ide") name then take (length name - 4) name else name.

Section Sanitize.
Context `{UnicodeCase} `{JsonCodec}.
Variable out_of_range : Z → Z.
Variable order : object → object.

(** ** Read *)

Definition maxReadLimit : Z := 2000.

Definition put (k : string) (v : json) (args : object) : object := obj_put (B k) v args.
Definition arg (k : string) (args : object) : json := obj_get (B k) args.
Definition jint (n : Z) : json := JNum (itoa n).

(** The integer an argument stands for: a string that scans, or a number. *)
Definition int_arg (v : json) : option Z :=
  match v with JStr s => sscan_int s | JNum lit => Some (number_int out_of_range lit) | _ => None end.

Definition clamp_limit (args : object) : object :=
  if obj_has "limit" args then
    match int_arg (arg "limit" args) with
    | Some n => if maxReadLimit <? n then put "limit" (jint maxReadLimit) args
                else if n <? 1 then obj_del "limit" args
                else put "limit" (jint n) args
    | None => args
    end
  else args.

Definition clamp_offset (args : object) : object :=
  if obj_has "offset" args then
    match int_arg (arg "offset" args) with
    | Some n => put "offset" (jint (if n <? 0 then 0 else n)) args
    | None => args
    end
  else args.

(** [^\d+(-\d+)?$]. *)
Definition pages_regexp : re := rseq [rplus (RClass is_digit); ropt (RSeq (rchar "-"%char) (rplus (RClass is_digit)))].

Definition matches_all (r : re) (s : bytes) : bool :=
  default false (rmatch r None s (λ _ t, if bool_decide (t = []) then Some true else None)).

Definition isValidPdfPagesArg (filePath pages : bytes) : bool :=
  if bool_decide (filePath = []) || bool_decide (pages = []) then false
  else if negb (has_suffix (B ".pdf") (to_lower filePath)) then false
  else matches_all pages_regexp pages.

Definition check_pages (args : object) : object :=
  if obj_has "pages" args then
    if isValidPdfPagesArg (stringOf args "file_path") (stringOf args "pages") then args else obj_del "pages" args
  else args.

Definition sanitizeReadArgs (args : object) : object := check_pages (clamp_offset (clamp_limit args)).

(** ** Bash *)

Definition sanitizeBashArgs (args : object) : object :=
  let args :=
    if obj_has "command" args then args
    else if nonempty (stringOf args "cmd") then put "command" (JStr (stringOf args "cmd")) args
    else if nonempty (stringOf args "CommandLine") then put "command" (JStr (stringOf args "CommandLine")) args
    else args in
  filter (λ kv, kv.1 = B "command") (args : list (bytes * json)).

(** ** Wrappers *)

Definition wrapper_keys : list string := ["input"; "params"; "arguments"; "parameters"]%string.

(** Members of a wrapper the arguments do not have. *)
Definition adopt (args : object) (kv : bytes * json) : object :=
  if bool_decide (kv.1 ∈ args.*1) then args else obj_put kv.1 kv.2 args.

Definition unwrap (args : object) (wrapperKey : string) : object :=
  match arg wrapperKey args with JObj wrapped => foldl adopt args wrapped | _ => args end.

Definition unwrap_all (args : object) : object := foldl unwrap args wrapper_keys.

(** The first of [ks] whose argument is a string with content. *)
Fixpoint first_string (ks : list string) (args : object) : option bytes :=
  match ks with
  | [] => None
  | k :: ks => if nonempty (stringOf args k) then Some (stringOf args k) else first_string ks args
  end.

(** The first string the iteration meets that satisfies [p]. *)
Definition string_value (p : bytes → bool) (args : object) : option bytes :=
  head (omap (λ kv : bytes * json, match kv.2 with JStr s => if p s then Some s else None | _ => None end) (order args : list _)).

(** [strings.Trim] of the blanks and the quotation mark. *)
Definition trim_quotes (s : bytes) : bytes :=
  let cut c := is_json_ws c || bool_decide (c = "034"%char) in trim_right cut (trim_left cut s).

Definition bare_text (orig : bytes) : bool :=
  nonempty orig && negb (bool_decide (orig = B "{}")) && negb (bool_decide (orig = B "null")).

(** ** Fetch *)

Definition url_keys : list string := ["uri"; "link"; "href"; "website"; "target_url"]%string.

Definition looks_like_url (s : bytes) : bool := has_prefix (B "http://") s || has_prefix (B "https://") s.

Definition find_url (orig : bytes) (args : object) : object :=
  if obj_has "url" args then args
  else match first_string url_keys args with
       | Some u => put "url" (JStr u) args
       | None =>
           match string_value looks_like_url args with
           | Some s => put "url" (JStr s) args
           | None =>
               let trimmed := trim_quotes orig in
               if bare_text orig && looks_like_url trimmed then put "url" (JStr trimmed) args else args
           end
       end.

Definition sanitizeFetchArgs (args : object) (orig : bytes) : object :=
  let args := find_url orig (unwrap_all args) in
  if obj_has "url" args then match arg "url" args with JNull => obj_del "url" args | _ => args end else args.

(** ** Search *)

Definition query_keys : list string := ["q"; "search_query"; "search_terms"; "keyword"; "prompt"; "text"]%string.

(** The first query of a list: a string, or (of [queries]) a map with [q] or
    [query]. *)
Definition listed_query (args : object) : option bytes :=
  match arg "queries" args with
  | JArr (first :: _) =>
      match first with
      | JStr s => if nonempty s then Some s else None
      | JObj m => first_string ["q"; "query"]%string m
      | _ => None
      end
  | _ =>
      match arg "search_queries" args with
      | JArr (JStr s :: _) => if nonempty s then Some s else None
      | _ => None
      end
  end.

Definition synonym (args : object) : option bytes :=
  match first_string query_keys args with Some s => Some s | None => listed_query args end.

Definition find_query (args : object) : object :=
  if obj_has "query" args then args
  else match synonym args with Some s => put "query" (JStr s) args | None => args end.

Definition query_of_list (args : object) : object :=
  match arg "query" args with JArr (JStr s :: _) => put "query" (JStr s) args | _ => args end.

Definition trim_query (args : object) : object :=
  match arg "query" args with
  | JStr s => if nonempty s then put "query" (JStr (trim_space s)) args else args
  | _ => args
  end.

Definition sanitizeSearchArgs (args : object) : object := trim_query (query_of_list (find_query (unwrap_all args))).

Definition nonblank (s : bytes) : bool := nonempty (trim_space s).

Definition generic_query (args : object) : object :=
  if obj_has "query" args then args else put "query" (JStr (B "search")) args.

(** No query after the normal pass. *)
Definition missing_query (orig : bytes) (args : object) : object :=
  match string_value nonblank args with
  | Some s => put "query" (JStr (trim_space s)) args
  | None =>
      let trimmed := trim_quotes orig in
      generic_query
        (if bare_text orig && bare_text trimmed && negb (has_prefix (B "{") trimmed) && negb (has_prefix (B "[") trimmed)
         then put "query" (JStr trimmed) args else args)
  end.

(** A query that is not a string with content. *)
Definition empty_query (args : object) : object :=
  let q := arg "query" args in
  match string_value (λ s, nonblank s && negb (json_eqb (JStr s) q)) args with
  | Some s => put "query" (JStr (trim_space s)) args
  | None => generic_query (match q with JNull => obj_del "query" args | _ => args end)
  end.

Definition search_args (args : object) (orig : bytes) : object :=
  let args := sanitizeSearchArgs args in
  if obj_has "query" args then
    match arg "query" args with
    | JStr s => if nonblank s then args else empty_query args
    | _ => empty_query args
    end
  else missing_query orig args.

(** The last look at a query that is null. *)
Definition drop_null_query (args : object) : object :=
  if obj_has "query" args then
    match arg "query" args with
    | JNull => obj_del "queries" (obj_del "q" (obj_del "query" args))
    | _ => args
    end
  else args.

(** ** The whole *)

(** The arguments; [None] when the text is forwarded as it came. *)
Definition decode_args (argsJSON : bytes) : option object :=
  match unmarshal argsJSON with
  | Some (JObj m) => Some m
  | Some JNull => Some []
  | Some (JStr s) => if nonempty s then Some [(B "query", JStr s)] else None
  | _ => None
  end.

Definition is_read_tool (toolName : bytes) : bool :=
  let name := trim_prefix (B "proxy_") toolName in let lower := to_lower name in
  bool_decide (name = B "Read") || bool_decide (lower = B "view_file") || bool_decide (lower = B "read_file").

Definition is_search_tool (toolName : bytes) : bool := contains (B "search") (to_lower (trim_prefix (B "proxy_") toolName)).

Definition is_fetch_tool (toolName : bytes) : bool :=
  let lower := to_lower (trim_prefix (B "proxy_") toolName) in contains (B "fetch") lower || bool_decide (lower = B "read_url").

Definition is_bash_tool (toolName : bytes) : bool :=
  let lower := to_lower (trim_prefix (B "proxy_") toolName) in
  bool_decide (lower = B "bash") || bool_decide (lower = B "run_command") || bool_decide (lower = B "terminal").

Definition sanitize_args (toolName orig : bytes) (args : object) : object :=
  let args :=
    if is_read_tool toolName then sanitizeReadArgs args
    else if is_search_tool toolName then search_args args orig
    else if is_fetch_tool toolName then sanitizeFetchArgs args orig
    else if is_bash_tool toolName then sanitizeBashArgs args
    else args in
  if is_search_tool toolName then drop_null_query args else args.

(** Arguments that are missing count as an empty object. *)
Definition given_text (argsJSON : bytes) : bytes :=
  if bool_decide (argsJSON = []) || bool_decide (argsJSON = B "null") || bool_decide (trim_space argsJSON = [])
  then B "{}" else argsJSON.

Definition sanitizeToolArgs (toolName argsJSON : bytes) : bytes :=
  let argsJSON := given_text argsJSON in
  match decode_args argsJSON with
  | None => argsJSON
  | Some args => marshal (JObj (sanitize_args toolName argsJSON args))
  end.

(** ** Lemmas *)

Lemma sanitize_decoded tool a args : decode_args (given_text a) = Some args →
  sanitizeToolArgs tool a = marshal (JObj (sanitize_args tool (given_text a) args)).
Proof. intros E. unfold sanitizeToolArgs. cbv zeta. by rewrite E. Qed.

Lemma arg_put k v m : arg k (put k v m) = v.
Proof. apply obj_get_put_eq. Qed.

Lemma arg_put_ne k k2 v m : k ≠ B k2 → obj_get k (put k2 v m) = obj_get k m.
Proof. apply obj_get_put_ne. Qed.

Lemma get_del_ne k k2 m : k ≠ B k2 → obj_get k (obj_del k2 m) = obj_get k m.
Proof. intros Hk. exact (obj_get_filter (λ k, k ≠ B k2) k m Hk). Qed.

Lemma arg_absent k m : obj_has k m = false → arg k m = JNull.
Proof. unfold obj_has. intros Hk%bool_decide_eq_false. by apply obj_get_None. Qed.

Lemma keys_put k v (m : object) : (obj_put k v m).*1 = if bool_decide (k ∈ m.*1) then m.*1 else m.*1 ++ [k].
Proof. unfold obj_put. case_bool_decide; [apply keys_obj_set|by rewrite fmap_app]. Qed.

Lemma has_put k v m : obj_has k (put k v m) = true.
Proof. unfold obj_has, put. apply bool_decide_eq_true. rewrite keys_put. case_bool_decide; set_solver. Qed.

Lemma has_del k m : obj_has k (obj_del k m) = false.
Proof.
  apply bool_decide_eq_false. unfold obj_del. intros (kv & E & Hin)%list_elem_of_fmap.
  apply list_elem_of_filter in Hin as [Hne _]. congruence.
Qed.

Lemma key_put k k2 v (m : object) : k ∈ m.*1 → k ∈ (put k2 v m).*1.
Proof. unfold put. rewrite keys_put. case_bool_decide; set_solver. Qed.

Lemma key_put_ne k k2 v (m : object) : k ≠ B k2 → k ∈ (put k2 v m).*1 ↔ k ∈ m.*1.
Proof. intros Hk. unfold put. rewrite keys_put. case_bool_decide; set_solver. Qed.

Lemma key_del_ne k k2 (m : object) : k ≠ B k2 → k ∈ (obj_del k2 m).*1 ↔ k ∈ m.*1.
Proof.
  intros Hk. split; intros (kv & -> & Hin)%list_elem_of_fmap; apply list_elem_of_fmap; exists kv; (split; [done|]).
  - by apply list_elem_of_filter in Hin as [_ ?].
  - by apply list_elem_of_filter.
Qed.

(** The classes of tools do not overlap the way the switch is ordered. *)
Lemma lower_Read : to_lower (B "Read") = B "read".
Proof.
  let l := eval vm_compute in (B "Read") in change (B "Read") with l.
  by rewrite !to_lower_ascii_cons by done.
Qed.

Lemma read_not_search tool : is_read_tool tool = true → is_search_tool tool = false.
Proof.
  unfold is_read_tool, is_search_tool. cbv zeta. intros [[E%bool_decide_eq_true|E%bool_decide_eq_true]%orb_prop|E%bool_decide_eq_true]%orb_prop.
  - by rewrite E, lower_Read.
  - by rewrite E.
  - by rewrite E.
Qed.

Lemma bash_not_other tool : is_bash_tool tool = true →
  is_read_tool tool = false ∧ is_search_tool tool = false ∧ is_fetch_tool tool = false.
Proof.
  intros Hb. assert (is_read_tool tool = true → False) as Hr.
  - revert Hb. unfold is_read_tool, is_bash_tool. cbv zeta. set (name := trim_prefix _ _).
    intros Hb [[E%bool_decide_eq_true|E%bool_decide_eq_true]%orb_prop|E%bool_decide_eq_true]%orb_prop; rewrite ?E, ?lower_Read in Hb; done.
  - split; [by destruct (is_read_tool tool)|]. clear Hr. revert Hb. unfold is_bash_tool, is_search_tool, is_fetch_tool. cbv zeta.
    intros [[E%bool_decide_eq_true|E%bool_decide_eq_true]%orb_prop|E%bool_decide_eq_true]%orb_prop; by rewrite E.
Qed.

(** *** Read *)

(** All but the argument [k] are as they were. *)
Definition same_but (k : string) (m args : object) : Prop :=
  ∀ k', k' ≠ B k → obj_get k' m = obj_get k' args ∧ (k' ∈ m.*1 ↔ k' ∈ args.*1).

Lemma same_put k v args : same_but k (put k v args) args.
Proof. intros k' Hk. split; [by apply arg_put_ne|by apply key_put_ne]. Qed.

Lemma same_del k args : same_but k (obj_del k args) args.
Proof. intros k' Hk. split; [by apply get_del_ne|by apply key_del_ne]. Qed.

Lemma clamp_limit_spec args (m := clamp_limit args) :
  (∀ lit, arg "limit" m = JNum lit → ∃ n, lit = itoa n ∧ 1 <= n <= maxReadLimit) ∧
  (∀ s, arg "limit" m = JStr s → sscan_int s = None ∧ arg "limit" args = JStr s) ∧
  same_but "limit" m args.
Proof.
  assert (Hput : ∀ n, 1 <= n <= maxReadLimit → m = put "limit" (jint n) args →
    (∀ lit, arg "limit" m = JNum lit → ∃ n, lit = itoa n ∧ 1 <= n <= maxReadLimit) ∧
    (∀ s, arg "limit" m = JStr s → sscan_int s = None ∧ arg "limit" args = JStr s) ∧ same_but "limit" m args).
  { intros n Hn ->. rewrite arg_put. split; [intros lit [= <-]; by exists n|]. split; [done|apply same_put]. }
  subst m. unfold clamp_limit in *. destruct (obj_has "limit" args) eqn:Eh.
  2: { rewrite arg_absent by done. done. }
  destruct (int_arg (arg "limit" args)) as [n|] eqn:En.
  - destruct (Z.ltb_spec maxReadLimit n); [by apply (Hput maxReadLimit)|].
    destruct (Z.ltb_spec n 1); [|by apply (Hput n); [lia|]].
    unfold arg at 1 2. rewrite obj_get_del. split; [done|]. split; [done|]. apply same_del.
  - split; [intros lit E; by rewrite E in En|]. split; [|done]. intros s E. by rewrite E in En.
Qed.

Lemma clamp_offset_spec args (m := clamp_offset args) :
  (∀ lit, arg "offset" m = JNum lit → ∃ n, lit = itoa n ∧ 0 <= n) ∧ same_but "offset" m args.
Proof.
  subst m. unfold clamp_offset. destruct (obj_has "offset" args) eqn:Eh.
  2: { rewrite arg_absent by done. done. }
  destruct (int_arg (arg "offset" args)) as [n|] eqn:En; [|split; [intros lit E; by rewrite E in En|done]].
  rewrite arg_put. split; [|apply same_put].
  intros lit [= <-]. exists (if n <? 0 then 0 else n). split; [done|]. zcases.
Qed.

Lemma check_pages_spec args (m := check_pages args) :
  (obj_has "pages" m = true → isValidPdfPagesArg (stringOf m "file_path") (stringOf m "pages") = true) ∧
  same_but "pages" m args.
Proof.
  subst m. unfold check_pages. destruct (obj_has "pages" args) eqn:Eh.
  2: { rewrite Eh. done. }
  destruct (isValidPdfPagesArg _ _) eqn:Ev; [done|]. rewrite has_del. split; [done|apply same_del].
Qed.

(** Whatever the model asked for, the client of a read tool gets a limit
    between 1 and 2000 and an offset that is not negative when they are numbers;
    a string only stays a limit when no integer can be scanned from it; pages are
    only passed with a PDF file and a page or a range of pages. No other argument
    changes. *)
Theorem read_arguments_in_bounds tool a args (m := sanitizeReadArgs args) :
  is_read_tool tool = true → decode_args (given_text a) = Some args →
  sanitizeToolArgs tool a = marshal (JObj m) ∧
  (∀ lit, arg "limit" m = JNum lit → ∃ n, lit = itoa n ∧ 1 <= n <= 2000) ∧
  (∀ s, arg "limit" m = JStr s → sscan_int s = None ∧ arg "limit" args = JStr s) ∧
  (∀ lit, arg "offset" m = JNum lit → ∃ n, lit = itoa n ∧ 0 <= n) ∧
  (obj_has "pages" m = true → isValidPdfPagesArg (stringOf m "file_path") (stringOf m "pages") = true) ∧
  ∀ k, k ∉ [B "limit"; B "offset"; B "pages"] → obj_get k m = obj_get k args ∧ (k ∈ m.*1 ↔ k ∈ args.*1).
Proof.
  intros Hr Ea. split.
  { rewrite (sanitize_decoded tool a args Ea). unfold sanitize_args. by rewrite Hr, read_not_search. }
  destruct (clamp_limit_spec args) as (L1 & L2 & L3). destruct (clamp_offset_spec (clamp_limit args)) as (O1 & O2).
  destruct (check_pages_spec (clamp_offset (clamp_limit args))) as (P1 & P2).
  assert (El : arg "limit" m = arg "limit" (clamp_limit args)).
  { unfold arg, m, sanitizeReadArgs. rewrite (proj1 (P2 (B "limit") ltac:(done))). by rewrite (proj1 (O2 (B "limit") ltac:(done))). }
  assert (Eo : arg "offset" m = arg "offset" (clamp_offset (clamp_limit args))).
  { unfold arg, m, sanitizeReadArgs. by rewrite (proj1 (P2 (B "offset") ltac:(done))). }
  rewrite El, Eo. split; [exact L1|]. split; [exact L2|]. split; [exact O1|]. split; [exact P1|].
  intros k Hk. destruct (P2 k), (O2 k), (L3 k); [set_solver..|]. unfold m, sanitizeReadArgs. split; [congruence|tauto].
Qed.

(** *** Bash *)

(** A shell tool is only ever given its command: the one the model named, or
    the one it gave as [cmd] or [CommandLine]; and sanitizing twice is sanitizing
    once. *)
Theorem bash_keeps_only_the_command tool a args (m := sanitizeBashArgs args) :
  is_bash_tool tool = true → decode_args (given_text a) = Some args →
  sanitizeToolArgs tool a = marshal (JObj m) ∧
  (∀ k, k ∈ m.*1 → k = B "command") ∧
  arg "command" m =
    (if obj_has "command" args then arg "command" args
     else match first_string ["cmd"; "CommandLine"]%string args with Some c => JStr c | None => JNull end) ∧
  sanitizeBashArgs m = m.
Proof.
  intros Hb Ea. split.
  { rewrite (sanitize_decoded tool a args Ea). unfold sanitize_args. destruct (bash_not_other tool Hb) as (-> & -> & ->). by rewrite Hb. }
  assert (Hone : ∀ k, k ∈ m.*1 → k = B "command").
  { intros k (kv & -> & Hin)%list_elem_of_fmap. by apply list_elem_of_filter in Hin as [? _]. }
  split; [done|]. split.
  - unfold m, sanitizeBashArgs, arg.
    match goal with |- obj_get _ (filter _ ?x) = _ => set (y := x) end.
    transitivity (obj_get (B "command") y); [exact (obj_get_filter (λ k, k = B "command") (B "command") y eq_refl)|].
    subst y. destruct (obj_has "command" args) eqn:Eh; [done|]. cbn [first_string].
    destruct (nonempty (stringOf args "cmd")); [apply arg_put|].
    destruct (nonempty (stringOf args "CommandLine")); [apply arg_put|]. by apply arg_absent.
  - assert (Hfil : filter (λ kv, kv.1 = B "command") (m : list (bytes * json)) = m).
    { apply filter_id, Forall_forall. intros kv Hkv. apply Hone, list_elem_of_fmap. eauto. }
    assert (Hstr : ∀ k, B k ≠ B "command" → stringOf m k = []).
    { intros k Hk. unfold stringOf. rewrite obj_get_None; [done|]. intros Hin%Hone. done. }
    unfold sanitizeBashArgs at 1. rewrite !Hstr by done. cbn [nonempty]. by destruct (obj_has "command" m).
Qed.

(** *** Wrappers and strings *)

(** [m] has every member of [args]. *)
Definition extends (args m : object) : Prop := ∀ k, k ∈ args.*1 → k ∈ m.*1 ∧ obj_get k m = obj_get k args.

#[local] Instance extends_preorder : PreOrder extends.
Proof.
  split; [by intros args k Hk|]. intros a b c H1 H2 k Hk. destruct (H1 k Hk) as [Hk' E1], (H2 k Hk') as [? E2].
  split; [done|congruence].
Qed.

Lemma adopt_extends args kv : extends args (adopt args kv).
Proof.
  unfold adopt. case_bool_decide as Hin; [reflexivity|]. intros k Hk. rewrite keys_put, bool_decide_eq_false_2 by done.
  split; [set_solver|]. apply obj_get_put_ne. congruence.
Qed.

Lemma adopt_all_extends args (w : object) : extends args (foldl adopt args w).
Proof.
  revert args. induction w as [|kv w IH]; intros args; cbn; [reflexivity|].
  etransitivity; [apply (adopt_extends args kv)|apply IH].
Qed.

Lemma unwrap_extends args k : extends args (unwrap args k).
Proof. unfold unwrap. destruct (arg k args); try reflexivity. apply adopt_all_extends. Qed.

Lemma unwrap_all_extends args : extends args (unwrap_all args).
Proof. unfold unwrap_all, wrapper_keys. cbn [foldl]. do 4 (etransitivity; [apply unwrap_extends|]). reflexivity. Qed.

Lemma same_but_trans k a b c : same_but k a b → same_but k b c → same_but k a c.
Proof. intros H1 H2 k' Hk. destruct (H1 k' Hk) as [E1 I1], (H2 k' Hk) as [E2 I2]. split; [congruence|tauto]. Qed.

Lemma obj_get_elem k (m : object) v : obj_get k m = v → v ≠ JNull → (k, v) ∈ m.
Proof.
  induction m as [|[k' v'] m IH]; cbn; [by intros <-|]. case_bool_decide as E; [intros -> _; rewrite E; left|].
  intros Hg Hv. right. by apply IH.
Qed.

Lemma string_value_some p m s : string_value p m = Some s → p s = true.
Proof.
  unfold string_value. intros (l & E)%head_Some. assert (s ∈ s :: l) as Hin by left. rewrite <- E in Hin.
  apply list_elem_of_omap in Hin as ([k v] & _ & Hv). cbn in Hv. destruct v as [| | |t| |]; try done.
  by destruct (p t) eqn:Ep; simplify_eq.
Qed.

Lemma string_value_none p m k s : (∀ l, order l ≡ₚ l) → string_value p m = None → (k, JStr s) ∈ m → p s = false.
Proof.
  intros Hperm E Hin. destruct (p s) eqn:Ep; [exfalso|done]. unfold string_value in E. apply head_None in E.
  apply (not_elem_of_nil s). rewrite <- E. apply list_elem_of_omap. exists (k, JStr s). rewrite (Hperm m). cbn. by rewrite Ep.
Qed.

Lemma nonblank_trim s : nonblank s = true → nonblank (trim_space s) = true.
Proof. unfold nonblank. by rewrite trim_space_idem. Qed.

(** *** Search *)

Lemma search_pass_spec args (m := sanitizeSearchArgs args) :
  extends args (unwrap_all args) ∧ same_but "query" m (unwrap_all args) ∧
  (∀ q, arg "query" args = JStr q → nonblank q = true → arg "query" m = JStr (trim_space q)).
Proof.
  split; [apply unwrap_all_extends|]. split.
  - eapply same_but_trans; [|eapply same_but_trans].
    + instantiate (1 := query_of_list (find_query (unwrap_all args))). subst m. unfold sanitizeSearchArgs, trim_query.
      destruct (arg "query" (query_of_list (find_query (unwrap_all args)))) as [| | |s| |]; try done.
      destruct (nonempty s); [apply same_put|done].
    + instantiate (1 := find_query (unwrap_all args)). unfold query_of_list.
      destruct (arg "query" (find_query (unwrap_all args))) as [| | | |[|[| | |s| |] l]|]; try done. apply same_put.
    + unfold find_query. destruct (obj_has _ _); [done|]. destruct (synonym _); [apply same_put|done].
  - intros q Hq Hb. assert (Hin : B "query" ∈ args.*1).
    { destruct (decide (B "query" ∈ args.*1)); [done|]. unfold arg in Hq. by rewrite obj_get_None in Hq. }
    destruct (unwrap_all_extends args (B "query") Hin) as [Hin' E]. fold (arg "query" (unwrap_all args)) in E.
    fold (arg "query" args) in E. rewrite Hq in E.
    subst m. unfold sanitizeSearchArgs, find_query, obj_has. rewrite bool_decide_eq_true_2 by done.
    unfold query_of_list. rewrite E. unfold trim_query. rewrite E. destruct (nonempty q) eqn:En; [apply arg_put|].
    unfold nonempty in En. apply negb_false_iff, bool_decide_eq_true in En. by subst q.
Qed.

(** What the fallbacks make of a query that is missing or has no content. *)
Definition settled (args m : object) : Prop :=
  same_but "query" m args ∧ arg "query" m ≠ JNull ∧
  ((∃ s, arg "query" m = JStr s ∧ nonempty s = true) ∨
   (arg "query" m = arg "query" args ∧ ∀ k s, k ≠ B "query" → obj_get k args = JStr s → nonblank s = false)).

Lemma settled_put args s : nonempty s = true → settled args (put "query" (JStr s) args).
Proof. intros Hs. split; [apply same_put|]. rewrite arg_put. split; [done|]. left. eauto. Qed.

Lemma missing_query_settled orig args : obj_has "query" args = false → settled args (missing_query orig args).
Proof.
  intros Hq. unfold missing_query. destruct (string_value nonblank args) as [s|] eqn:Es.
  { apply settled_put. exact (string_value_some _ _ _ Es). }
  cbv zeta. set (t := trim_quotes orig). destruct (bare_text orig && bare_text t && _ && _) eqn:Eb.
  - unfold generic_query. rewrite has_put. apply settled_put. repeat apply andb_prop in Eb as [Eb ?].
    match goal with Ht : bare_text t = true |- _ => unfold bare_text in Ht; repeat apply andb_prop in Ht as [Ht _]; exact Ht end.
  - unfold generic_query. rewrite Hq. by apply settled_put.
Qed.

Lemma empty_query_settled args : (∀ l, order l ≡ₚ l) → obj_has "query" args = true →
  (∀ q, arg "query" args = JStr q → nonblank q = false) → settled args (empty_query args).
Proof.
  intros Hperm Hq Hblank. unfold empty_query. cbv zeta.
  destruct (string_value _ args) as [s|] eqn:Es.
  { apply settled_put. by apply string_value_some, andb_prop in Es as [? _]. }
  assert (Hnone : ∀ k s, k ≠ B "query" → obj_get k args = JStr s → nonblank s = false).
  { intros k s _ Hg. apply obj_get_elem in Hg; [|done]. pose proof (string_value_none _ _ _ _ Hperm Es Hg) as Hp.
    cbv beta in Hp. destruct (nonblank s) eqn:Eb; [|done]. cbn in Hp.
    destruct (arg "query" args) as [| | |q| |] eqn:Ea; cbn in Hp; try done.
    apply negb_false_iff, bool_decide_eq_true in Hp. subst q. by rewrite Hblank in Eb. }
  destruct (arg "query" args) as [| | |q| |] eqn:Ea.
  { unfold generic_query. rewrite has_del. split.
    - eapply same_but_trans; [apply same_put|apply same_del].
    - rewrite arg_put. split; [done|]. left. by eexists. }
  all: unfold generic_query; rewrite Hq; (split; [done|]); rewrite Ea; (split; [done|right]); done.
Qed.

Lemma search_args_settled orig args : (∀ l, order l ≡ₚ l) →
  let p := sanitizeSearchArgs args in
  settled p (search_args args orig) ∧ (∀ q, arg "query" p = JStr q → nonblank q = true → search_args args orig = p).
Proof.
  intros Hperm p. unfold search_args. fold p. cbv zeta. destruct (obj_has "query" p) eqn:Eh.
  - destruct (arg "query" p) as [| | |q| |] eqn:Eq.
    4: destruct (nonblank q) eqn:Eb.
    4: { split; [|done]. split; [done|]. rewrite Eq. split; [done|]. left. exists q. split; [done|].
         unfold nonblank, nonempty in *. destruct q; [|done]. by vm_compute in Eb. }
    all: split; [apply empty_query_settled; [done|done|rewrite Eq; intros ? [= <-]; done]|congruence].
  - split; [by apply missing_query_settled|]. intros q Hq. by rewrite arg_absent in Hq.
Qed.

Lemma search_not_read tool : is_search_tool tool = true → is_read_tool tool = false.
Proof. intros Hs. destruct (is_read_tool tool) eqn:E; [|done]. apply read_not_search in E. congruence. Qed.

(** A search tool never gets a missing or null query, whatever the model
    wrote and in whatever order its arguments are visited: a query with content is
    kept, trimmed; otherwise the query is made from the other arguments, and only
    stays without content when no other argument is a string with content. The
    other arguments are kept. *)
Theorem search_arguments_have_a_query tool a args (m := search_args args (given_text a)) :
  is_search_tool tool = true → decode_args (given_text a) = Some args → (∀ l, order l ≡ₚ l) →
  sanitizeToolArgs tool a = marshal (JObj m) ∧
  arg "query" m ≠ JNull ∧
  (∀ q, arg "query" args = JStr q → nonblank q = true → arg "query" m = JStr (trim_space q)) ∧
  ((∃ q, arg "query" m = JStr q ∧ nonempty q = true) ∨
   ∀ k s, k ≠ B "query" → obj_get k args = JStr s → nonblank s = false) ∧
  ∀ k, k ≠ B "query" → k ∈ args.*1 → k ∈ m.*1 ∧ obj_get k m = obj_get k args.
Proof.
  intros Hs Ea Hperm. destruct (search_pass_spec args) as (Hext & Hpass & Hq).
  destruct (search_args_settled (given_text a) args Hperm) as [(Hsame & Hnn & Hset) Hkeep]. fold m in Hsame, Hnn, Hset, Hkeep.
  assert (Hall : ∀ k, k ≠ B "query" → k ∈ args.*1 → k ∈ m.*1 ∧ obj_get k m = obj_get k args).
  { intros k Hk Hin. destruct (Hsame k Hk), (Hpass k Hk), (Hext k Hin). split; [tauto|congruence]. }
  split.
  { rewrite (sanitize_decoded tool a args Ea). unfold sanitize_args. rewrite (search_not_read tool Hs), Hs. fold m.
    unfold drop_null_query. destruct (obj_has "query" m); [|done]. by destruct (arg "query" m). }
  split; [done|]. split.
  { intros q E Hb. specialize (Hq q E Hb). by rewrite (Hkeep _ Hq (nonblank_trim q Hb)). }
  split; [|done]. destruct Hset as [?|[_ Hnone]]; [by left|right]. intros k s Hk Hg. apply (Hnone k s Hk).
  rewrite (proj1 (Hpass k Hk)). destruct (decide (k ∈ args.*1)) as [Hin|Hin]; [|by rewrite obj_get_None in Hg].
  by rewrite (proj2 (Hext k Hin)).
Qed.

(** *** Fetch *)

Lemma find_url_spec orig args : (∀ l, order l ≡ₚ l) → let m := find_url orig args in
  same_but "url" m args ∧ (obj_has "url" args = true → m = args) ∧
  ∀ k s, obj_has "url" args = false → obj_get k args = JStr s → looks_like_url s = true →
    ∃ u, arg "url" m = JStr u ∧ nonempty u = true.
Proof.
  intros Hperm. cbv zeta. unfold find_url. destruct (obj_has "url" args) eqn:Eh; [done|].
  destruct (first_string url_keys args) as [u|] eqn:Ef.
  { split; [apply same_put|]. split; [done|]. intros k s _ _ _. exists u. rewrite arg_put. split; [done|].
    revert Ef. unfold url_keys. cbn [first_string]. repeat case_match; naive_solver. }
  destruct (string_value looks_like_url args) as [s|] eqn:Es.
  { split; [apply same_put|]. split; [done|]. intros k s' _ _ _. exists s. rewrite arg_put. split; [done|].
    apply string_value_some in Es. by destruct s. }
  split; [cbv zeta; destruct (_ && _); [apply same_put|done]|]. split; [done|]. intros k s _ Hg Hu.
  apply obj_get_elem in Hg; [|done]. by rewrite (string_value_none _ _ _ _ Hperm Es Hg) in Hu.
Qed.

(** A fetch tool never gets a null URL; one the model gave is kept, and when it
    gave none but some argument is a URL, the tool gets a URL. The other arguments
    are kept. *)
Theorem fetch_arguments_url tool a args (m := sanitizeFetchArgs args (given_text a)) :
  is_fetch_tool tool = true → is_read_tool tool = false → is_search_tool tool = false →
  decode_args (given_text a) = Some args → (∀ l, order l ≡ₚ l) →
  sanitizeToolArgs tool a = marshal (JObj m) ∧
  (obj_has "url" m = true → arg "url" m ≠ JNull) ∧
  (arg "url" args ≠ JNull → arg "url" m = arg "url" args) ∧
  (∀ k s, obj_has "url" (unwrap_all args) = false → obj_get k args = JStr s → looks_like_url s = true →
     ∃ u, arg "url" m = JStr u ∧ nonempty u = true) ∧
  ∀ k, k ≠ B "url" → k ∈ args.*1 → k ∈ m.*1 ∧ obj_get k m = obj_get k args.
Proof.
  intros Hf Hr Hs Ea Hperm. destruct (find_url_spec (given_text a) (unwrap_all args) Hperm) as (Hsame & Hkeep & Hfind).
  pose proof (unwrap_all_extends args) as Hext. set (f := find_url (given_text a) (unwrap_all args)) in *.
  assert (Em : m = if obj_has "url" f then match arg "url" f with JNull => obj_del "url" f | _ => f end else f) by done.
  assert (Hdrop : arg "url" f ≠ JNull → m = f).
  { intros Hn. rewrite Em. destruct (obj_has "url" f); [|done]. by destruct (arg "url" f). }
  clearbody m. split.
  { rewrite (sanitize_decoded tool a args Ea). unfold sanitize_args. rewrite Hr, Hs, Hf.
    unfold sanitizeFetchArgs. fold f. by rewrite <- Em. }
  split.
  { rewrite Em. destruct (obj_has "url" f) eqn:Eh; [|congruence]. destruct (arg "url" f) eqn:E; [|congruence..]. by rewrite has_del. }
  split; [|split].
  - intros Hn. assert (Hin : B "url" ∈ args.*1).
    { destruct (decide (B "url" ∈ args.*1)); [done|]. unfold arg in Hn. by rewrite obj_get_None in Hn. }
    destruct (Hext _ Hin) as [Hin' E]. assert (Ef : f = unwrap_all args) by (apply Hkeep; by apply bool_decide_eq_true).
    unfold arg in *. rewrite <- Ef in E. rewrite Hdrop; [exact E|by rewrite E].
  - intros k s Hno Hg Hu. destruct (Hfind k s Hno) as (u & E & Hne); [|done|].
    { destruct (decide (k ∈ args.*1)) as [Hin|Hin]; [|by rewrite obj_get_None in Hg]. by rewrite (proj2 (Hext k Hin)). }
    exists u. rewrite Hdrop by (by rewrite E). done.
  - intros k Hk Hin. destruct (Hsame k Hk) as [E I], (Hext k Hin) as [Hin' E'].
    assert (Hm : same_but "url" m f).
    { rewrite Em. destruct (obj_has "url" f); [|done]. destruct (arg "url" f); try done. apply same_del. }
    destruct (Hm k Hk) as [E2 I2]. split; [tauto|congruence].
Qed.

End Sanitize.

(** ** Samples *)

Module Sample.

#[local] Existing Instance ascii_case.
#[local] Existing Instance json_codec.

Definition clean (tool args : string) : bytes := sanitizeToolArgs id id (B tool) (js args).

Example read_samples :
  clean "Read" "{~file_path~:~/a.PDF~,~limit~:99999,~offset~:-3,~pages~:~1-4~}" =
    js "{~file_path~:~/a.PDF~,~limit~:2000,~offset~:0,~pages~:~1-4~}" ∧
  clean "read_file" "{~file_path~:~/a.go~,~limit~:~ 12 lines~,~pages~:~1~}" = js "{~file_path~:~/a.go~,~limit~:12}" ∧
  clean "proxy_Read" "{~limit~:0.5,~offset~:~x~}" = js "{~offset~:~x~}".
Proof. by vm_compute. Qed.

Example search_samples :
  clean "WebSearch" "{~input~:{~q~:~ rocq ~}}" = js "{~input~:{~q~:~ rocq ~},~q~:~ rocq ~,~query~:~rocq~}" ∧
  clean "web_search" "null" = js "{~query~:~search~}" ∧
  clean "web_search" "{~query~:null,~site~:~a.org~}" = js "{~query~:~a.org~,~site~:~a.org~}" ∧
  clean "web_search" "~weather~" = js "{~query~:~weather~}".
Proof. by vm_compute. Qed.

(** A query of blanks stays, trimmed to the empty string. *)
Example blank_query_stays : clean "web_search" "{~query~:~  ~}" = js "{~query~:~~}".
Proof. by vm_compute. Qed.

Example other_samples :
  clean "Bash" "{~cmd~:~ls~,~description~:~list~}" = js "{~command~:~ls~}" ∧
  clean "web_fetch" "{~page~:~https://a.org/~,~url~:null}" = js "{~page~:~https://a.org/~}" ∧
  clean "web_fetch" "{~page~:~https://a.org/~}" = js "{~page~:~https://a.org/~,~url~:~https://a.org/~}" ∧
  clean "Edit" "{~old~:1" = js "{~old~:1" ∧
  UncloakToolName (B "proxy_Read_ide") = B "Read".
Proof. by vm_compute. Qed.

Abbreviation args_of s := (match json_decode (js s) with Some (JObj m) => m | _ => [] end).
Abbreviation read_call := "{~file_path~:~/a.pdf~,~limit~:99999,~pages~:~1-4~}"%string.
Abbreviation search_call := "{~query~:~  ~,~site~:~a.org~}"%string.
Abbreviation bash_call := "{~cmd~:~ls~,~description~:~list~}"%string.
Abbreviation fetch_call := "{~page~:~https://a.org/~}"%string.

Lemma read_arguments_witness : sanitizeToolArgs id id (B "Read") (js read_call) =
    js "{~file_path~:~/a.pdf~,~limit~:2000,~pages~:~1-4~}" ∧
  ∀ lit, arg "limit" (sanitizeReadArgs id (args_of read_call)) = JNum lit → ∃ n, lit = itoa n ∧ 1 <= n <= 2000.
Proof.
  split; [by vm_compute|].
  refine (proj1 (proj2 (read_arguments_in_bounds id id (B "Read") (js read_call) (args_of read_call) _ _))); by vm_compute.
Defined.

Lemma bash_command_witness : sanitizeToolArgs id id (B "bash") (js bash_call) = js "{~command~:~ls~}" ∧
  sanitizeBashArgs (sanitizeBashArgs (args_of bash_call)) = sanitizeBashArgs (args_of bash_call).
Proof.
  split; [by vm_compute|].
  refine (proj2 (proj2 (proj2 (bash_keeps_only_the_command id id (B "bash") (js bash_call) (args_of bash_call) _ _)))); by vm_compute.
Defined.

Lemma search_query_witness : sanitizeToolArgs id id (B "web_search") (js search_call) =
    js "{~query~:~a.org~,~site~:~a.org~}" ∧
  arg "query" (search_args id (args_of search_call) (js search_call)) ≠ JNull.
Proof.
  split; [by vm_compute|].
  refine (proj1 (proj2 (search_arguments_have_a_query id id (B "web_search") (js search_call) (args_of search_call) _ _ _)));
    [by vm_compute|by vm_compute|done].
Defined.

Lemma fetch_url_witness : sanitizeToolArgs id id (B "web_fetch") (js fetch_call) =
    js "{~page~:~https://a.org/~,~url~:~https://a.org/~}" ∧
  ∃ u, arg "url" (sanitizeFetchArgs id (args_of fetch_call) (js fetch_call)) = JStr u ∧ nonempty u = true.
Proof.
  split; [by vm_compute|].
  refine (proj1 (proj2 (proj2 (proj2 (fetch_arguments_url id id (B "web_fetch") (js fetch_call) (args_of fetch_call) _ _ _ _ _)))) (B "page")
    (B "https://a.org/") _ _ _); solve [done | by vm_compute].
Defined.

End Sample.
