(* ===== verification/ClaudeStream.v ===== *)
(** * From an OpenAI stream to a Claude stream
    ([internal/translator/response.go], the session store of [usage.go], the types
    of [types.go], and the translating branch of [handleStreamResponse] in
    [internal/handlers/chat/forward.go])

    One chunk is decoded, its session's state is found or made, and the events
    it causes are written. A step also gets the time and the order in which the
    iteration of the run-time visits the map of tool calls. A session is used by
    one stream, so its steps do not interleave with each other. *)

From stdpp Require Import gmap.
From S2P Require Import Prelude GoRegexp Json GoText ErrorClassify Capabilities ClaudeBody ToolArgs Usage.

(** ** The chunks of the upstream *)

Record OpenAIReasoningDetail := { detail_text : bytes; detail_content : bytes }.

Record OpenAIFunctionStream := { function_name : bytes; function_arguments : bytes }.

Record OpenAIToolCallStream := { call_index : option Z; call_id : bytes; call_function : option OpenAIFunctionStream }.

Record OpenAIDelta := {
  delta_content : bytes; delta_reasoning_content : bytes; delta_reasoning : bytes;
  delta_reasoning_details : list OpenAIReasoningDetail; delta_tool_calls : list OpenAIToolCallStream
}.

Record OpenAIChoice := { choice_delta : OpenAIDelta; choice_finish_reason : option bytes }.

Record OpenAIChunk := { chunk_id : bytes; chunk_model : bytes; chunk_choices : list OpenAIChoice; chunk_usage : option OpenAIUsage }.

(** Either shape of a reasoning detail; any other value is an empty one. *)
Definition decode_detail (j : json) : OpenAIReasoningDetail :=
  match j with
  | JStr s => {| detail_text := s; detail_content := [] |}
  | JObj m => {| detail_text := stringOf m "text"; detail_content := stringOf m "content" |}
  | _ => {| detail_text := []; detail_content := [] |}
  end.

Definition decode_function (m : object) : option OpenAIFunctionStream :=
  n ← str_field (B "name") m; a ← str_field (B "arguments") m;
  Some {| function_name := n; function_arguments := a |}.

Definition decode_call (m : object) : option OpenAIToolCallStream :=
  i ← int_ptr (B "index") m; id ← str_field (B "id") m; _ ← str_field (B "type") m;
  f ← ptr_field decode_function (B "function") m;
  Some {| call_index := i; call_id := id; call_function := f |}.

(** A member that is a slice of structs. *)
Definition slice_field {A} (dec : object → option A) (k : bytes) (m : object) : option (list A) :=
  l ← arr_field k m; mapM (λ j, o ← as_struct j; dec o) l.

Definition decode_delta (m : object) : option OpenAIDelta :=
  _ ← str_field (B "role") m; c ← str_field (B "content") m;
  rc ← str_field (B "reasoning_content") m; r ← str_field (B "reasoning") m;
  rd ← arr_field (B "reasoning_details") m; tc ← slice_field decode_call (B "tool_calls") m;
  Some {| delta_content := c; delta_reasoning_content := rc; delta_reasoning := r;
          delta_reasoning_details := map decode_detail rd; delta_tool_calls := tc |}.

Definition decode_stream_choice (m : object) : option OpenAIChoice :=
  _ ← int_field (B "index") m; d ← obj_field (B "delta") m; d ← decode_delta d;
  f ← str_ptr (B "finish_reason") m;
  Some {| choice_delta := d; choice_finish_reason := f |}.

Definition decode_chunk (m : object) : option OpenAIChunk :=
  i ← str_field (B "id") m; md ← str_field (B "model") m;
  cs ← slice_field decode_stream_choice (B "choices") m; u ← ptr_field decode_usage (B "usage") m;
  Some {| chunk_id := i; chunk_model := md; chunk_choices := cs; chunk_usage := u |}.

(** ** The events of the client *)

Inductive block_kind := ThinkingBlock | TextBlock | ToolUseBlock (id name : bytes).
Inductive block_delta := ThinkingDelta (s : bytes) | TextDelta (s : bytes) | InputJsonDelta (s : bytes).

(** The members of the final usage that are written, in the code's order. *)
Definition usage_map := list (bytes * Z).

Inductive event :=
  | MessageStart (id model : bytes)
  | BlockStart (index : Z) (kind : block_kind)
  | BlockDelta (index : Z) (delta : block_delta)
  | BlockStop (index : Z)
  | MessageDelta (stop_reason : bytes) (usage : usage_map)
  | MessageStop.

Definition member (k : string) (v : json) : bytes * json := (B k, v).
Definition text (s : string) : json := JStr (B s).

Definition counts_json (u : usage_map) : json := JObj (map (λ '(k, n), (k, jint n)) u).

Definition block_json (k : block_kind) : json :=
  JObj match k with
       | ThinkingBlock => [member "type" (text "thinking"); member "thinking" (text "")]
       | TextBlock => [member "type" (text "text"); member "text" (text "")]
       | ToolUseBlock id name =>
           [member "type" (text "tool_use"); member "id" (JStr id); member "name" (JStr name); member "input" (JObj [])]
       end.

Definition delta_json (d : block_delta) : json :=
  JObj match d with
       | ThinkingDelta s => [member "type" (text "thinking_delta"); member "thinking" (JStr s)]
       | TextDelta s => [member "type" (text "text_delta"); member "text" (JStr s)]
       | InputJsonDelta s => [member "type" (text "input_json_delta"); member "partial_json" (JStr s)]
       end.

Definition zero_counts : usage_map := [(B "input_tokens", 0); (B "output_tokens", 0)].

Definition event_type (e : event) : bytes :=
  B match e with
    | MessageStart _ _ => "message_start" | BlockStart _ _ => "content_block_start"
    | BlockDelta _ _ => "content_block_delta" | BlockStop _ => "content_block_stop"
    | MessageDelta _ _ => "message_delta" | MessageStop => "message_stop"
    end.

Definition event_json (e : event) : json :=
  JObj (member "type" (JStr (event_type e)) ::
    match e with
    | MessageStart id model =>
        [member "message" (JObj [member "id" (JStr id); member "type" (text "message"); member "role" (text "assistant");
           member "model" (JStr model); member "content" (JArr []); member "stop_reason" JNull;
           member "stop_sequence" JNull; member "usage" (counts_json zero_counts)])]
    | BlockStart i k => [member "index" (jint i); member "content_block" (block_json k)]
    | BlockDelta i d => [member "index" (jint i); member "delta" (delta_json d)]
    | BlockStop i => [member "index" (jint i)]
    | MessageDelta r u =>
        [member "delta" (JObj [member "stop_reason" (JStr r); member "stop_sequence" JNull]); member "usage" (counts_json u)]
    | MessageStop => []
    end).

(** ** The state of a stream *)

Record ToolCallState := { ID : bytes; Name : bytes; BlockIndex : Z }.

Record StreamState := {
  CreatedAt : Z; MessageStartSent : bool; MessageId : bytes; Model : bytes; NextBlockIndex : Z;
  TextBlockStarted : bool; TextBlockClosed : bool; TextBlockIndex : Z;
  ThinkingBlockStarted : bool; ThinkingBlockIndex : Z;
  ToolCalls : gmap Z ToolCallState; ToolArgBuffers : gmap Z bytes;
  FinishReason : bytes; Usage : option OpenAIUsage
}.

Definition fresh_state (created : Z) (id model : bytes) : StreamState :=
  {| CreatedAt := created; MessageStartSent := false; MessageId := id; Model := model; NextBlockIndex := 0;
     TextBlockStarted := false; TextBlockClosed := false; TextBlockIndex := 0; ThinkingBlockStarted := false;
     ThinkingBlockIndex := 0; ToolCalls := ∅; ToolArgBuffers := ∅; FinishReason := []; Usage := None |}.

(** Assignments to the fields. *)
Definition set_start (st : StreamState) : StreamState :=
  {| CreatedAt := CreatedAt st; MessageStartSent := true; MessageId := MessageId st; Model := Model st;
     NextBlockIndex := NextBlockIndex st; TextBlockStarted := TextBlockStarted st; TextBlockClosed := TextBlockClosed st;
     TextBlockIndex := TextBlockIndex st; ThinkingBlockStarted := ThinkingBlockStarted st;
     ThinkingBlockIndex := ThinkingBlockIndex st; ToolCalls := ToolCalls st; ToolArgBuffers := ToolArgBuffers st;
     FinishReason := FinishReason st; Usage := Usage st |}.

Definition with_model (m : bytes) (st : StreamState) : StreamState :=
  {| CreatedAt := CreatedAt st; MessageStartSent := MessageStartSent st; MessageId := MessageId st; Model := m;
     NextBlockIndex := NextBlockIndex st; TextBlockStarted := TextBlockStarted st; TextBlockClosed := TextBlockClosed st;
     TextBlockIndex := TextBlockIndex st; ThinkingBlockStarted := ThinkingBlockStarted st;
     ThinkingBlockIndex := ThinkingBlockIndex st; ToolCalls := ToolCalls st; ToolArgBuffers := ToolArgBuffers st;
     FinishReason := FinishReason st; Usage := Usage st |}.

Definition set_thinking (started : bool) (index next : Z) (st : StreamState) : StreamState :=
  {| CreatedAt := CreatedAt st; MessageStartSent := MessageStartSent st; MessageId := MessageId st; Model := Model st;
     NextBlockIndex := next; TextBlockStarted := TextBlockStarted st; TextBlockClosed := TextBlockClosed st;
     TextBlockIndex := TextBlockIndex st; ThinkingBlockStarted := started; ThinkingBlockIndex := index;
     ToolCalls := ToolCalls st; ToolArgBuffers := ToolArgBuffers st; FinishReason := FinishReason st; Usage := Usage st |}.

Definition set_text (started closed : bool) (index next : Z) (st : StreamState) : StreamState :=
  {| CreatedAt := CreatedAt st; MessageStartSent := MessageStartSent st; MessageId := MessageId st; Model := Model st;
     NextBlockIndex := next; TextBlockStarted := started; TextBlockClosed := closed; TextBlockIndex := index;
     ThinkingBlockStarted := ThinkingBlockStarted st; ThinkingBlockIndex := ThinkingBlockIndex st;
     ToolCalls := ToolCalls st; ToolArgBuffers := ToolArgBuffers st; FinishReason := FinishReason st; Usage := Usage st |}.

Definition set_tools (tools : gmap Z ToolCallState) (buffers : gmap Z bytes) (next : Z) (st : StreamState) : StreamState :=
  {| CreatedAt := CreatedAt st; MessageStartSent := MessageStartSent st; MessageId := MessageId st; Model := Model st;
     NextBlockIndex := next; TextBlockStarted := TextBlockStarted st; TextBlockClosed := TextBlockClosed st;
     TextBlockIndex := TextBlockIndex st; ThinkingBlockStarted := ThinkingBlockStarted st;
     ThinkingBlockIndex := ThinkingBlockIndex st; ToolCalls := tools; ToolArgBuffers := buffers;
     FinishReason := FinishReason st; Usage := Usage st |}.

Definition set_finish (reason : bytes) (usage : option OpenAIUsage) (st : StreamState) : StreamState :=
  {| CreatedAt := CreatedAt st; MessageStartSent := MessageStartSent st; MessageId := MessageId st; Model := Model st;
     NextBlockIndex := NextBlockIndex st; TextBlockStarted := TextBlockStarted st; TextBlockClosed := TextBlockClosed st;
     TextBlockIndex := TextBlockIndex st; ThinkingBlockStarted := ThinkingBlockStarted st;
     ThinkingBlockIndex := ThinkingBlockIndex st; ToolCalls := ToolCalls st; ToolArgBuffers := ToolArgBuffers st;
     FinishReason := reason; Usage := usage |}.

(** What a step makes of the state and the events it writes. *)
Definition step := StreamState → StreamState * list event.

Definition andThen (f g : step) : step := λ st,
  let '(st, es) := f st in let '(st', es') := g st in (st', es ++ es').

Notation "f ;> g" := (andThen f g) (at level 60, right associativity).

Definition skip : step := λ st, (st, []).

(** ** One chunk *)

Definition extractReasoningText (delta : OpenAIDelta) : bytes :=
  if nonempty (delta_reasoning_content delta) then delta_reasoning_content delta
  else if nonempty (delta_reasoning delta) then delta_reasoning delta
  else concat (map (λ d, if nonempty (detail_text d) then detail_text d else detail_content d) (delta_reasoning_details delta)).

Definition stopThinkingBlock : step := λ st,
  if ThinkingBlockStarted st
  then (set_thinking false (ThinkingBlockIndex st) (NextBlockIndex st) st, [BlockStop (ThinkingBlockIndex st)])
  else (st, []).

Definition stopTextBlock : step := λ st,
  if negb (TextBlockStarted st) || TextBlockClosed st then (st, [])
  else (set_text false true (TextBlockIndex st) (NextBlockIndex st) st, [BlockStop (TextBlockIndex st)]).

Definition start_message : step := λ st,
  if MessageStartSent st then (st, []) else (set_start st, [MessageStart (MessageId st) (Model st)]).

Definition start_thinking : step := λ st,
  if ThinkingBlockStarted st then (st, [])
  else (set_thinking true (NextBlockIndex st) (NextBlockIndex st + 1) st, [BlockStart (NextBlockIndex st) ThinkingBlock]).

Definition start_text : step := λ st,
  if TextBlockStarted st then (st, [])
  else (set_text true false (NextBlockIndex st) (NextBlockIndex st + 1) st, [BlockStart (NextBlockIndex st) TextBlock]).

Definition reasoning_step (s : bytes) : step :=
  if nonempty s
  then stopTextBlock ;> start_thinking ;> (λ st, (st, [BlockDelta (ThinkingBlockIndex st) (ThinkingDelta s)]))
  else skip.

Definition content_step (s : bytes) : step :=
  if nonempty s
  then stopThinkingBlock ;> start_text ;> (λ st, (st, [BlockDelta (TextBlockIndex st) (TextDelta s)]))
  else skip.

Definition open_tool (idx : Z) (id name : bytes) : step := λ st,
  let i := NextBlockIndex st in
  (set_tools (<[idx := {| ID := id; Name := name; BlockIndex := i |}]> (ToolCalls st)) (ToolArgBuffers st) (i + 1) st,
   [BlockStart i (ToolUseBlock id name)]).

Definition buffer_arguments (idx : Z) (args : bytes) : step := λ st,
  if nonempty args
  then (set_tools (ToolCalls st) (<[idx := default [] (ToolArgBuffers st !! idx) ++ args]> (ToolArgBuffers st)) (NextBlockIndex st) st, [])
  else (st, []).

Definition tool_call_step (tc : OpenAIToolCallStream) : step := λ st,
  let idx := default 0 (call_index tc) in
  let buffer := buffer_arguments idx (default [] (function_arguments <$> call_function tc)) in
  if nonempty (call_id tc) && bool_decide (ToolCalls st !! idx = None) then
    match call_function tc with
    | None => (st, [])
    | Some f =>
        let toolName := UncloakToolName (function_name f) in
        if nonempty (function_name f) && nonempty toolName
        then (stopThinkingBlock ;> stopTextBlock ;> open_tool idx (call_id tc) toolName ;> buffer) st
        else (st, [])
    end
  else buffer st.

Definition tool_calls_step (tcs : list OpenAIToolCallStream) : step := foldr (λ tc g, tool_call_step tc ;> g) skip tcs.

Definition claude_stop (finishReason : bytes) : bytes :=
  if bool_decide (finishReason = B "length") then B "max_tokens"
  else if bool_decide (finishReason = B "tool_calls") then B "tool_use"
  else if bool_decide (finishReason = B "content_filter") then B "refusal"
  else B "end_turn".

Definition final_usage (u : option OpenAIUsage) : usage_map :=
  match u with
  | None => zero_counts
  | Some u =>
      [(B "input_tokens", PromptTokens u); (B "output_tokens", CompletionTokens u)] ++
      (if 0 <? GetCachedTokens u then [(B "cache_read_input_tokens", GetCachedTokens u)] else []) ++
      (if 0 <? CacheCreationInputTokens u then [(B "cache_creation_input_tokens", CacheCreationInputTokens u)] else [])
  end.

(** The usage of [EnsureStreamClosed] has the two counts only. *)
Definition closing_usage (u : option OpenAIUsage) : usage_map := take 2 (final_usage u).

(** Accumulation of the usage reported by the chunks. *)
Definition positive (n old : Z) : Z := if 0 <? n then n else old.

Definition merge_usage (u : OpenAIUsage) (old : OpenAIUsage) : OpenAIUsage :=
  {| PromptTokens := positive (PromptTokens u) (PromptTokens old);
     CompletionTokens := positive (CompletionTokens u) (CompletionTokens old);
     CachedTokens := positive (GetCachedTokens u) (CachedTokens old);
     CacheCreationInputTokens := positive (CacheCreationInputTokens u) (CacheCreationInputTokens old);
     PromptTokensDetails := PromptTokensDetails old;
     CompletionTokensDetails := match CompletionTokensDetails u with Some d => Some d | None => CompletionTokensDetails old end;
     PromptCacheIncluded := PromptCacheIncluded old |}.

Definition usage_step (u : option OpenAIUsage) : step := λ st,
  match u with
  | Some u => (set_finish (FinishReason st) (Some (merge_usage u (default no_usage (Usage st)))) st, [])
  | None => (st, [])
  end.

(** The time of a step and the orders its iterations over maps take. *)
Record tick := { now : Z; visit : list (Z * ToolCallState) → list (Z * ToolCallState); arg_order : object → object }.

Section Translate.
Context `{UnicodeCase} `{JsonCodec}.
Variable out_of_range : Z → Z.

(** The arguments of one call, held back until the stream finishes. *)
Definition tool_events (t : tick) (buffers : gmap Z bytes) (entry : Z * ToolCallState) : list event :=
  let '(idx, info) := entry in
  [BlockDelta (BlockIndex info)
     (InputJsonDelta (sanitizeToolArgs out_of_range (arg_order t) (Name info) (default [] (buffers !! idx))));
   BlockStop (BlockIndex info)].

Definition flush_tools (t : tick) : step := λ st,
  (st, concat (map (tool_events t (ToolArgBuffers st)) (visit t (map_to_list (ToolCalls st))))).

Definition end_message (reason stop : bytes) (usage : option OpenAIUsage → usage_map) : step := λ st,
  (set_finish reason (Usage st) st, [MessageDelta stop (usage (Usage st)); MessageStop]).

Definition finish_step (t : tick) (reason : option bytes) : step :=
  match reason with
  | Some r => stopThinkingBlock ;> stopTextBlock ;> flush_tools t ;> end_message r (claude_stop r) final_usage
  | None => skip
  end.

Definition choice_step (t : tick) (choice : OpenAIChoice) : step :=
  let delta := choice_delta choice in
  reasoning_step (extractReasoningText delta) ;> content_step (delta_content delta) ;>
  tool_calls_step (delta_tool_calls delta) ;> finish_step t (choice_finish_reason choice).

(** What a chunk does to the state of its session. *)
Definition chunk_step (t : tick) (chunk : OpenAIChunk) : step :=
  usage_step (chunk_usage chunk) ;> start_message ;>
  match chunk_choices chunk with [] => skip | choice :: _ => choice_step t choice end.

Definition close_step (t : tick) : step :=
  (λ st, (set_finish (B "stop") (Usage st) st, [])) ;> start_message ;> stopThinkingBlock ;> stopTextBlock ;>
  flush_tools t ;> end_message (B "stop") (B "end_turn") closing_usage.

(** ** The store of the sessions *)

Record store := { states : gmap bytes StreamState; pendingJSON : gmap bytes (bytes * Z) }.

Definition empty_store : store := {| states := ∅; pendingJSON := ∅ |}.

Definition maxPendingJSON : Z := 2 ^ 20.
Definition stale_after : Z := 10 * 60 * 1000000000.

(** [IsZero] of a creation time does not happen: every writer sets it. *)
Definition fresh (t created : Z) : bool := negb (stale_after <? t - created).

Definition pruneStaleStatesLocked (t : tick) (s : store) : store :=
  if bool_decide (size (states s) < 50)%nat && bool_decide (size (pendingJSON s) < 50)%nat then s
  else
    let kept := filter (λ kv, fresh (now t) (CreatedAt kv.2) = true) (states s) in
    {| states := kept;
       pendingJSON := filter (λ kv, (states s !! kv.1 = None ∨ is_Some (kept !! kv.1)) ∧ fresh (now t) kv.2.2 = true) (pendingJSON s) |}.

Definition put_state (key : bytes) (st : StreamState) (s : store) : store :=
  {| states := <[key := st]> (states s); pendingJSON := pendingJSON s |}.

Definition drop_session (key : bytes) (s : store) : store :=
  {| states := delete key (states s); pendingJSON := delete key (pendingJSON s) |}.

Definition GetStreamUsage (t : tick) (key : bytes) (s : store) : store * option OpenAIUsage :=
  let s := pruneStaleStatesLocked t s in (drop_session key s, st ← states s !! key; Usage st).

Definition ClearStreamState (t : tick) (key : bytes) (s : store) : store := drop_session key (pruneStaleStatesLocked t s).

Definition SeedStreamState (t : tick) (key model : bytes) (s : store) : store :=
  if bool_decide (key = []) || bool_decide (model = []) then s
  else
    let s := pruneStaleStatesLocked t s in
    match states s !! key with
    | Some st => if nonempty (Model st) then s else put_state key (with_model model st) s
    | None => put_state key (fresh_state (now t) [] model) s
    end.

(** ** One line of the upstream *)

(** [isTruncatedJSON] of the error of decoding a chunk. *)
Variable is_truncated : bytes → bool.

Inductive output :=
  | Silent                         (* no bytes, no error *)
  | DoneLine                       (* the terminator *)
  | Written (events : list event)
  | Failed.                        (* an error *)

(** [strings.Replace(s, old, empty, 1)]. *)
Definition remove_first_match (old s : bytes) : bytes :=
  match index_of old s with Some i => take i s ++ drop (i + length old) s | None => s end.

Definition clean_id (t : tick) (id : bytes) : bytes :=
  let c := remove_first_match (B "chatcmpl-") id in
  if bool_decide (c = []) || bool_decide (c = B "chat") then B "msg_" ++ itoa (now t) else c.

Definition clean_model (m : bytes) : bytes := if bool_decide (m = []) then B "claude-3-5-sonnet" else m.

Definition decode_line (data : bytes) : option OpenAIChunk := j ← unmarshal data; m ← as_struct j; decode_chunk m.

Definition with_pending (key : bytes) (fragment : bytes * Z) (s : store) : store :=
  {| states := states s; pendingJSON := <[key := fragment]> (pendingJSON s) |}.

Definition without_pending (key : bytes) (s : store) : store :=
  {| states := states s; pendingJSON := delete key (pendingJSON s) |}.

(** The state the chunk is for, if it may have one. *)
Definition session_state (t : tick) (key : bytes) (chunk : OpenAIChunk) (s : store) : option StreamState :=
  match states s !! key with
  | Some st => Some st
  | None =>
      match chunk_choices chunk with
      | [] => None
      | _ => Some (fresh_state (now t) (clean_id t (chunk_id chunk)) (clean_model (chunk_model chunk)))
      end
  end.

Definition translate_chunk (t : tick) (key : bytes) (chunk : OpenAIChunk) (s : store) : store * output :=
  let key := if nonempty key then key else if nonempty (chunk_id chunk) then chunk_id chunk else B "default-session" in
  let s := pruneStaleStatesLocked t s in
  match session_state t key chunk s with
  | None => (s, Silent)
  | Some st => let '(st, es) := chunk_step t chunk st in (put_state key st s, Written es)
  end.

(** The data of a line, or the terminator. *)
Definition line_data (line : bytes) : option bytes :=
  let trimmed := trim_space line in
  let data := if has_prefix (B "data:") trimmed then trim_space (drop 5 trimmed) else trimmed in
  if bool_decide (data = B "[DONE]") then None else Some data.

Definition TranslateOpenAIToClaudeStreamSession (t : tick) (key line : bytes) (s : store) : store * output :=
  if bool_decide (trim_space line = []) then (s, Silent)
  else match line_data line with
  | None => (s, DoneLine)
  | Some data =>
      let '(data, s) :=
        match (if nonempty key then pendingJSON s !! key else None) with
        | Some (prev, _) => (prev ++ data, without_pending key s)
        | None => (data, s)
        end in
      match decode_line data with
      | Some chunk => translate_chunk t key chunk s
      | None =>
          if nonempty key && is_truncated data && (zlen data <? maxPendingJSON)
          then (with_pending key (data, now t) s, Silent) else (s, Failed)
      end
  end.

Definition TranslateOpenAIToClaudeStream (t : tick) (line : bytes) (s : store) : store * output :=
  TranslateOpenAIToClaudeStreamSession t [] line s.

Definition EnsureStreamClosed (t : tick) (key : bytes) (s : store) : store * list event :=
  if bool_decide (key = []) then (s, [])
  else match states s !! key with
  | None => (s, [])
  | Some st =>
      if nonempty (FinishReason st) then (s, [])
      else let '(st, es) := close_step t st in (put_state key st s, es)
  end.

(** ** The bytes the client gets *)

Definition formatSSE (e : event) : bytes :=
  B "event: " ++ event_type e ++ [ch_lf] ++ B "data: " ++ marshal (event_json e) ++ [ch_lf; ch_lf].

Definition done_line : bytes := B "data: [DONE]" ++ [ch_lf; ch_lf].

Definition render (o : output) : bytes :=
  match o with
  | DoneLine => done_line
  | Written es => concat (map formatSSE es)
  | Silent | Failed => []
  end.

(** The translating branch of [handleStreamResponse]: the session is seeded, every
    chunk of the scanner translated and written, the terminator written when a
    shutdown cut the stream, the usage taken; then the deferred function closes
    the stream and clears the session. *)
Fixpoint run_lines (key : bytes) (lines : list (tick * bytes)) (s : store) : store * list output :=
  match lines with
  | [] => (s, [])
  | (t, line) :: rest =>
      let '(s, o) := TranslateOpenAIToClaudeStreamSession t key line s in
      let '(s, os) := run_lines key rest s in (s, o :: os)
  end.

Record stream_result := { body : bytes; recorded_usage : option OpenAIUsage; after : store }.

Definition handleStreamResponse (key reqModel : bytes) (shutdown_fired : bool) (t0 : tick) (lines : list (tick * bytes))
    (t1 : tick) (s : store) : stream_result :=
  let s := if nonempty reqModel then SeedStreamState t0 key reqModel s else s in
  let '(s, os) := run_lines key lines s in
  let finished := existsb (λ o, contains (B "[DONE]") (render o)) os in
  let cut := if shutdown_fired && negb finished then done_line else [] in
  let '(s, usage) := GetStreamUsage t1 key s in
  let '(s, closing) := EnsureStreamClosed t1 key s in
  {| body := concat (map render os) ++ cut ++ concat (map formatSSE closing);
     recorded_usage := usage; after := ClearStreamState t1 key s |}.

End Translate.
