(* ===== verification/StreamProtocol.v ===== *)
(** * A translated stream is a well-formed Claude stream

    The protocol of the events as an automaton, the simulation of it by the steps
    of [ClaudeStream], and what follows for the handler: a finished stream is
    complete, an interrupted one is left open. *)

From stdpp Require Import gmap.
From S2P Require Import Prelude GoRegexp Json GoText ErrorClassify Capabilities ClaudeBody ToolArgs Usage ClaudeStream.

(** ** The protocol of a Claude stream

    The message is announced once and first; blocks are numbered in the order
    they start; a delta is of the kind of its block, which is open; every block
    is stopped before the message ends; nothing follows the end. *)

Record proto := { p_started : bool; p_next : Z; p_open : gmap Z block_kind; p_phase : nat }.

Definition nothing_sent : proto := {| p_started := false; p_next := 0; p_open := ∅; p_phase := 0 |}.

Definition fits (d : block_delta) (k : block_kind) : bool :=
  match d, k with
  | ThinkingDelta _, ThinkingBlock | TextDelta _, TextBlock | InputJsonDelta _, ToolUseBlock _ _ => true
  | _, _ => false
  end.

Definition accept (p : proto) (e : event) : option proto :=
  match e with
  | MessageStart _ _ =>
      if p_started p then None else Some {| p_started := true; p_next := p_next p; p_open := p_open p; p_phase := p_phase p |}
  | BlockStart i k =>
      if p_started p && (i =? p_next p) && (p_phase p =? 0)%nat
      then Some {| p_started := true; p_next := i + 1; p_open := <[i := k]> (p_open p); p_phase := 0 |} else None
  | BlockDelta i d =>
      match p_open p !! i with Some k => if fits d k && (p_phase p =? 0)%nat then Some p else None | None => None end
  | BlockStop i =>
      match p_open p !! i with
      | Some _ => Some {| p_started := p_started p; p_next := p_next p; p_open := delete i (p_open p); p_phase := p_phase p |}
      | None => None
      end
  | MessageDelta _ _ =>
      if p_started p && (p_phase p =? 0)%nat && bool_decide (p_open p = ∅)
      then Some {| p_started := true; p_next := p_next p; p_open := ∅; p_phase := 1 |} else None
  | MessageStop =>
      if (p_phase p =? 1)%nat then Some {| p_started := true; p_next := p_next p; p_open := p_open p; p_phase := 2 |} else None
  end.

Fixpoint accepts (p : proto) (es : list event) : option proto :=
  match es with
  | [] => Some p
  | e :: es => match accept p e with Some p => accepts p es | None => None end
  end.

Lemma accepts_app p es es' : accepts p (es ++ es') = p ← accepts p es; accepts p es'.
Proof. revert p. induction es as [|e es IH]; intros p; cbn; [done|]. destruct (accept p e); [apply IH|done]. Qed.

Lemma accepts_after p p' es es' : accepts p es = Some p' → accepts p (es ++ es') = accepts p' es'.
Proof. rewrite accepts_app. by intros ->. Qed.

(** A complete stream of events. *)
Definition complete (es : list event) : Prop := ∃ n, accepts nothing_sent es = Some {| p_started := true; p_next := n; p_open := ∅; p_phase := 2 |}.

(** Cases of the small steps. *)
Ltac basic_step := intros ?st; unfold stopThinkingBlock, stopTextBlock, start_thinking, start_text, buffer_arguments, usage_step;
  by repeat case_match.

(** *** The state of the translator and the state of the protocol *)

Definition opened (st : StreamState) (i : Z) (k : block_kind) : Prop :=
  (ThinkingBlockStarted st = true ∧ i = ThinkingBlockIndex st ∧ k = ThinkingBlock) ∨
  (TextBlockStarted st = true ∧ i = TextBlockIndex st ∧ k = TextBlock) ∨
  (∃ idx info, ToolCalls st !! idx = Some info ∧ i = BlockIndex info ∧ k = ToolUseBlock (ID info) (Name info)).

Record tracks (st : StreamState) (p : proto) : Prop := {
  tr_phase : p_phase p = 0%nat;
  tr_started : p_started p = MessageStartSent st;
  tr_next : p_next p = NextBlockIndex st;
  tr_open : ∀ i k, p_open p !! i = Some k ↔ opened st i k;
  tr_below : ∀ i k, opened st i k → i < NextBlockIndex st;
  tr_text : TextBlockStarted st = true → TextBlockClosed st = false;
  tr_inj : ∀ a b x y, ToolCalls st !! a = Some x → ToolCalls st !! b = Some y → BlockIndex x = BlockIndex y → a = b
}.

(** A step that the protocol follows from a state; from every state in which the
    message is announced. *)
Definition ok (f : step) (st : StreamState) (p : proto) : Prop :=
  MessageStartSent (f st).1 = true ∧ ∃ p', accepts p (f st).2 = Some p' ∧ tracks (f st).1 p'.

Definition follows (f : step) : Prop := ∀ st p, tracks st p → MessageStartSent st = true → ok f st p.

Lemma ok_then f g st p : ok f st p →
  (∀ p', tracks (f st).1 p' → MessageStartSent (f st).1 = true → ok g (f st).1 p') → ok (f ;> g) st p.
Proof.
  intros (Hs' & p' & E & Hp') Hg. destruct (Hg p' Hp' Hs') as (Hs'' & p'' & E' & Hp''). unfold ok, andThen in *.
  destruct (f st) as [st' es]. cbn [fst snd] in *. destruct (g st') as [st'' es']. cbn [fst snd] in *.
  split; [done|]. exists p''. by rewrite (accepts_after _ _ _ _ E).
Qed.

Lemma follows_then f g : follows f → follows g → follows (f ;> g).
Proof. intros Hf Hg st p Hp Hs. apply ok_then; [by apply Hf|intros p' ? ?; by apply Hg]. Qed.

Lemma follows_skip : follows skip.
Proof. intros st p Hp Hs. split; [done|]. by exists p. Qed.

Lemma opened_kind st p i k k' : tracks st p → opened st i k → opened st i k' → k = k'.
Proof. intros Hp H1%(tr_open _ _ Hp) H2%(tr_open _ _ Hp). congruence. Qed.

(** Opening the next block. *)
Lemma tracks_start st st' p k : tracks st p → MessageStartSent st = true →
  MessageStartSent st' = true → NextBlockIndex st' = NextBlockIndex st + 1 →
  (∀ j k', opened st' j k' ↔ opened st j k' ∨ (j = NextBlockIndex st ∧ k' = k)) →
  (TextBlockStarted st' = true → TextBlockClosed st' = false) →
  (∀ a b x y, ToolCalls st' !! a = Some x → ToolCalls st' !! b = Some y → BlockIndex x = BlockIndex y → a = b) →
  ∃ p', accepts p [BlockStart (NextBlockIndex st) k] = Some p' ∧ tracks st' p'.
Proof.
  intros Hp Hs Hs' Hn Ho Ht Hi. eexists. split.
  - cbn. by rewrite (tr_started _ _ Hp), Hs, (tr_next _ _ Hp), Z.eqb_refl, (tr_phase _ _ Hp).
  - split; cbn; [done|by rewrite Hs'|lia| |intros j k' [?%(tr_below _ _ Hp)|[-> _]]%Ho; lia|done|done].
    intros j k'. rewrite Ho. destruct (decide (j = NextBlockIndex st)) as [->|Hj].
    + rewrite lookup_insert_eq. split; [intros [= ->]; by right|]. intros [Hold|[_ ->]]; [|done].
      apply (tr_below _ _ Hp) in Hold. lia.
    + rewrite lookup_insert_ne by done. rewrite (tr_open _ _ Hp). naive_solver.
Qed.

(** Closing a block. *)
Lemma tracks_stop st st' p i k : tracks st p → opened st i k →
  MessageStartSent st' = MessageStartSent st → NextBlockIndex st' = NextBlockIndex st →
  (∀ j k', opened st' j k' ↔ opened st j k' ∧ j ≠ i) →
  (TextBlockStarted st' = true → TextBlockClosed st' = false) → ToolCalls st' = ToolCalls st →
  ∃ p', accepts p [BlockStop i] = Some p' ∧ tracks st' p'.
Proof.
  intros Hp Hk Hs Hn Ho Ht Hc. eexists. split.
  - cbn. by rewrite (proj2 (tr_open _ _ Hp i k) Hk).
  - split; cbn; [by apply Hp|by rewrite Hs; apply Hp|by rewrite Hn; apply Hp| | |done|rewrite Hc; apply Hp].
    + intros j k'. rewrite Ho, lookup_delete_Some, (tr_open _ _ Hp). naive_solver.
    + intros j k' [Hj _]%Ho. rewrite Hn. by apply (tr_below _ _ Hp j k').
Qed.

Lemma tracks_same st st' p : tracks st p → MessageStartSent st' = MessageStartSent st → NextBlockIndex st' = NextBlockIndex st →
  (∀ j k, opened st' j k ↔ opened st j k) → TextBlockStarted st' = TextBlockStarted st →
  TextBlockClosed st' = TextBlockClosed st → ToolCalls st' = ToolCalls st → tracks st' p.
Proof.
  intros Hp Hs Hn Ho E1 E2 Hc. split; [apply Hp|by rewrite Hs; apply Hp|by rewrite Hn; apply Hp| | |by rewrite E1, E2; apply Hp|by rewrite Hc; apply Hp].
  - intros i k. by rewrite Ho, (tr_open _ _ Hp).
  - intros i k Hi%Ho. rewrite Hn. by apply (tr_below _ _ Hp i k).
Qed.

Lemma follows_stopThinking : follows stopThinkingBlock.
Proof.
  intros st p Hp Hs. unfold ok, stopThinkingBlock. destruct (ThinkingBlockStarted st) eqn:E; [|split; [done|by exists p]].
  split; [done|]. assert (Hk : opened st (ThinkingBlockIndex st) ThinkingBlock) by by left.
  apply (tracks_stop st _ p _ _ Hp Hk); [done|done| |apply Hp|done].
  intros j k. unfold opened at 1. cbn. split.
  - intros [?|Hj]; [naive_solver|]. assert (opened st j k) as Ho by (by right). split; [done|]. intros ->.
    pose proof (opened_kind _ _ _ _ _ Hp Hk Ho). naive_solver.
  - intros [[(? & -> & ?)|Hj] Hne]; [done|by right].
Qed.

Lemma follows_stopText : follows stopTextBlock.
Proof.
  intros st p Hp Hs. unfold ok, stopTextBlock. destruct (TextBlockStarted st) eqn:E; [|split; [done|by exists p]].
  rewrite (tr_text _ _ Hp E). cbn [negb orb fst snd]. split; [done|].
  assert (Hk : opened st (TextBlockIndex st) TextBlock) by (by right; left).
  apply (tracks_stop st _ p _ _ Hp Hk); [done|done| |done|done].
  intros j k. unfold opened at 1. cbn. split.
  - intros [Hj|[Hj|Hj]]; [|naive_solver|]; (assert (opened st j k) as Ho by (unfold opened; tauto); split; [done|]; intros ->;
      pose proof (opened_kind _ _ _ _ _ Hp Hk Ho); naive_solver).
  - intros [[Hj|[(? & -> & ?)|Hj]] Hne]; [by left|done|by right; right].
Qed.

Lemma follows_start_thinking : follows start_thinking.
Proof.
  intros st p Hp Hs. unfold ok, start_thinking. destruct (ThinkingBlockStarted st) eqn:E; [split; [done|by exists p]|].
  split; [done|]. apply (tracks_start st _ p ThinkingBlock Hp Hs); [done|done| |apply Hp|apply Hp].
  intros j k. unfold opened. cbn. rewrite E. naive_solver.
Qed.

Lemma follows_start_text : follows start_text.
Proof.
  intros st p Hp Hs. unfold ok, start_text. destruct (TextBlockStarted st) eqn:E; [split; [done|by exists p]|].
  split; [done|]. apply (tracks_start st _ p TextBlock Hp Hs); [done|done| |done|apply Hp].
  intros j k. unfold opened. cbn. rewrite E. naive_solver.
Qed.

Lemma follows_open_tool idx id name st p : tracks st p → MessageStartSent st = true → ToolCalls st !! idx = None →
  ok (open_tool idx id name) st p.
Proof.
  intros Hp Hs Hnew. split; [done|]. unfold open_tool. cbn [fst snd].
  apply (tracks_start st _ p (ToolUseBlock id name) Hp Hs); [done|done| |apply Hp|].
  - intros j k. unfold opened. cbn. split.
    + intros [?|[?|(i & info & Hi & -> & ->)]]; [tauto|tauto|]. apply lookup_insert_Some in Hi as [[<- <-]|[Hne Hi]]; [by right|].
      left. right. right. by exists i, info.
    + intros [[?|[?|(i & info & Hi & -> & ->)]]|[-> ->]]; [tauto|tauto| |]; right; right.
      * exists i, info. rewrite lookup_insert_ne by congruence. done.
      * eexists idx, _. by rewrite lookup_insert_eq.
  - cbn. intros a b x y Ha Hb Exy. apply lookup_insert_Some in Ha as [[<- <-]|[Hna Ha]], Hb as [[<- <-]|[Hnb Hb]]; [done| | |].
    + cbn in Exy. assert (BlockIndex y < NextBlockIndex st); [|lia]. apply (tr_below _ _ Hp _ (ToolUseBlock (ID y) (Name y))). right. right. eauto.
    + cbn in Exy. assert (BlockIndex x < NextBlockIndex st); [|lia]. apply (tr_below _ _ Hp _ (ToolUseBlock (ID x) (Name x))). right. right. eauto.
    + exact (tr_inj _ _ Hp a b x y Ha Hb Exy).
Qed.

Lemma thinking_delta_ok st p s : tracks st p → ThinkingBlockStarted st = true →
  accepts p [BlockDelta (ThinkingBlockIndex st) (ThinkingDelta s)] = Some p.
Proof. intros Hp E. cbn. by rewrite (proj2 (tr_open _ _ Hp (ThinkingBlockIndex st) ThinkingBlock)), (tr_phase _ _ Hp); [|left]. Qed.

Lemma text_delta_ok st p s : tracks st p → TextBlockStarted st = true →
  accepts p [BlockDelta (TextBlockIndex st) (TextDelta s)] = Some p.
Proof. intros Hp E. cbn. by rewrite (proj2 (tr_open _ _ Hp (TextBlockIndex st) TextBlock)), (tr_phase _ _ Hp); [|right; left]. Qed.

Lemma started_thinking st : ThinkingBlockStarted (start_thinking st).1 = true.
Proof. unfold start_thinking. by destruct (ThinkingBlockStarted st) eqn:E. Qed.

Lemma started_text st : TextBlockStarted (start_text st).1 = true.
Proof. unfold start_text. by destruct (TextBlockStarted st) eqn:E. Qed.

(** A step followed by a delta of the block it opened. *)
Lemma follows_delta f (d : StreamState → event) : follows f →
  (∀ st p, tracks (f st).1 p → accepts p [d (f st).1] = Some p) → follows (f ;> λ st, (st, [d st])).
Proof.
  intros Hf Hd st p Hp Hs. destruct (Hf st p Hp Hs) as (Hs' & p' & E & Hp'). unfold ok, andThen.
  specialize (Hd st p' Hp'). destruct (f st) as [st' es]. cbn [fst snd] in *. split; [done|]. exists p'. by rewrite (accepts_after _ _ _ _ E).
Qed.

Lemma follows_reasoning s : follows (reasoning_step s).
Proof.
  unfold reasoning_step. destruct (nonempty s); [|apply follows_skip]. apply follows_then; [apply follows_stopText|].
  apply (follows_delta start_thinking (λ st, BlockDelta (ThinkingBlockIndex st) (ThinkingDelta s))); [apply follows_start_thinking|].
  intros st p Hp. by apply thinking_delta_ok, started_thinking.
Qed.

Lemma follows_content s : follows (content_step s).
Proof.
  unfold content_step. destruct (nonempty s); [|apply follows_skip]. apply follows_then; [apply follows_stopThinking|].
  apply (follows_delta start_text (λ st, BlockDelta (TextBlockIndex st) (TextDelta s))); [apply follows_start_text|].
  intros st p Hp. by apply text_delta_ok, started_text.
Qed.

Lemma follows_buffer idx args : follows (buffer_arguments idx args).
Proof.
  intros st p Hp Hs. unfold ok, buffer_arguments. destruct (nonempty args); [|split; [done|by exists p]].
  split; [done|]. exists p. split; [done|]. by apply (tracks_same st).
Qed.

Lemma stop_keeps_tools st : ToolCalls (stopThinkingBlock st).1 = ToolCalls st ∧ ToolCalls (stopTextBlock st).1 = ToolCalls st.
Proof. unfold stopThinkingBlock, stopTextBlock. by destruct (ThinkingBlockStarted st), (negb (TextBlockStarted st) || TextBlockClosed st). Qed.

Lemma follows_tool_call tc : follows (tool_call_step tc).
Proof.
  intros st p Hp Hs. unfold ok, tool_call_step. cbv zeta. set (idx := default 0 (call_index tc)).
  set (buffer := buffer_arguments _ _). assert (Hb : follows buffer) by apply follows_buffer.
  destruct (nonempty (call_id tc) && bool_decide (ToolCalls st !! idx = None)) eqn:E; [|by apply Hb].
  apply andb_prop in E as [_ Hnew%bool_decide_eq_true].
  destruct (call_function tc) as [f|]; [|split; [done|by exists p]].
  destruct (nonempty (function_name f) && _); [|split; [done|by exists p]].
  fold (ok (stopThinkingBlock ;> stopTextBlock ;> open_tool idx (call_id tc) (UncloakToolName (function_name f)) ;> buffer) st p).
  apply ok_then; [by apply follows_stopThinking|]. intros p1 Hp1 Hs1. apply ok_then; [by apply follows_stopText|].
  intros p2 Hp2 Hs2. apply ok_then; [|intros; by apply Hb]. apply follows_open_tool; [done..|].
  by rewrite (proj2 (stop_keeps_tools _)), (proj1 (stop_keeps_tools _)).
Qed.

Lemma follows_tool_calls tcs : follows (tool_calls_step tcs).
Proof. induction tcs as [|tc tcs IH]; [apply follows_skip|]. apply follows_then; [apply follows_tool_call|exact IH]. Qed.

(** *** The end of the message *)

Definition ends (es : list event) (p : proto) : Prop :=
  ∃ n, accepts p es = Some {| p_started := true; p_next := n; p_open := ∅; p_phase := 2 |}.

Definition finishes (f : step) : Prop := ∀ st p, tracks st p → MessageStartSent st = true → ends (f st).2 p.

Lemma ends_then f g st p : ok f st p →
  (∀ p', tracks (f st).1 p' → MessageStartSent (f st).1 = true → ends (g (f st).1).2 p') → ends ((f ;> g) st).2 p.
Proof.
  intros (Hs' & p' & E & Hp') Hg. destruct (Hg p' Hp' Hs') as (n & E'). unfold andThen.
  destruct (f st) as [st' es]. cbn [fst snd] in *. destruct (g st') as [st'' es']. exists n. cbn [snd] in *.
  by rewrite (accepts_after _ _ _ _ E).
Qed.

Lemma finishes_then f g : follows f → finishes g → finishes (f ;> g).
Proof. intros Hf Hg st p Hp Hs. apply ends_then; [by apply Hf|intros p' ? ?; by apply Hg]. Qed.

(** The blocks of the tool calls, and nothing else, are open. *)
Definition open_calls (l : list (Z * ToolCallState)) (p : proto) : Prop :=
  p_phase p = 0%nat ∧ p_started p = true ∧ NoDup (map (BlockIndex ∘ snd) l) ∧
  ∀ i k, p_open p !! i = Some k ↔ ∃ e, e ∈ l ∧ i = BlockIndex e.2 ∧ k = ToolUseBlock (ID e.2) (Name e.2).

Lemma flush_accepts `{UnicodeCase} `{JsonCodec} oor t buffers l p : open_calls l p →
  ∃ n, accepts p (concat (map (tool_events oor t buffers) l)) = Some {| p_started := true; p_next := n; p_open := ∅; p_phase := 0 |}.
Proof.
  revert p. induction l as [|[idx info] l IH]; intros p (Hph & Hst & Hnd & Ho).
  - exists (p_next p). cbn. destruct p as [s n o ph]. cbn in *. subst. f_equal. f_equal. apply map_empty.
    intros i. destruct (o !! i) as [k|] eqn:E; [|done]. apply Ho in E as (e & Hin%elem_of_nil & _). done.
  - apply NoDup_cons in Hnd as [Hni Hnd]. cbn [map concat]. unfold tool_events at 1. rewrite accepts_app. cbn [accepts accept].
    rewrite (proj2 (Ho (BlockIndex info) (ToolUseBlock (ID info) (Name info)))) by (exists (idx, info); split; [left|done]).
    cbn [fits]. rewrite Hph. cbn [Nat.eqb andb accepts accept].
    rewrite (proj2 (Ho (BlockIndex info) (ToolUseBlock (ID info) (Name info)))) by (exists (idx, info); split; [left|done]).
    cbn [mbind option_bind]. apply IH. split; [done|]. split; [done|]. split; [done|]. intros i k. cbn [p_open].
    rewrite lookup_delete_Some, Ho. split.
    + intros [Hne (e & [->|Hin]%elem_of_cons & -> & ->)]; [done|]. by exists e.
    + intros (e & Hin & -> & ->). split; [|exists e; split; [by right|done]].
      intros Heq. apply Hni. cbn in Heq |- *. rewrite Heq. apply list_elem_of_fmap. by exists e.
Qed.

Definition visits (t : tick) : Prop := ∀ l, visit t l ≡ₚ l.

Lemma tracks_calls st p t : visits t → tracks st p → MessageStartSent st = true →
  ThinkingBlockStarted st = false → TextBlockStarted st = false → open_calls (visit t (map_to_list (ToolCalls st))) p.
Proof.
  intros Hv Hp Hs Hth Htx. split; [apply Hp|]. split; [by rewrite (tr_started _ _ Hp)|]. split.
  - rewrite (Hv (map_to_list (ToolCalls st))). apply NoDup_fmap_2_strong; [|apply NoDup_map_to_list].
    intros [a x] [b y] Ha%elem_of_map_to_list Hb%elem_of_map_to_list Exy. cbn in Exy.
    assert (a = b) as -> by exact (tr_inj _ _ Hp a b x y Ha Hb Exy). congruence.
  - intros i k. rewrite (tr_open _ _ Hp). unfold opened. rewrite Hth, Htx. split.
    + intros [[? _]|[[? _]|(idx & info & Hi & -> & ->)]]; [done|done|]. exists (idx, info). rewrite (Hv _). split; [|done].
      by apply elem_of_map_to_list.
    + intros ([idx info] & Hin & -> & ->). rewrite (Hv _) in Hin. apply elem_of_map_to_list in Hin. right. right. eauto.
Qed.

Lemma stopped_thinking st : ThinkingBlockStarted (stopThinkingBlock st).1 = false.
Proof. unfold stopThinkingBlock. by destruct (ThinkingBlockStarted st) eqn:E. Qed.

Lemma stopped_text st p : tracks st p → TextBlockStarted (stopTextBlock st).1 = false ∧
  ThinkingBlockStarted (stopTextBlock st).1 = ThinkingBlockStarted st.
Proof.
  intros Hp. unfold stopTextBlock. destruct (TextBlockStarted st) eqn:E; [|done]. by rewrite (tr_text _ _ Hp E).
Qed.

Section Protocol.
Context `{UnicodeCase} `{JsonCodec}.
Variable out_of_range : Z → Z.

Lemma finishes_end t r s u : visits t →
  finishes (stopThinkingBlock ;> stopTextBlock ;> flush_tools out_of_range t ;> end_message r s u).
Proof.
  intros Hv st p Hp Hs. apply ends_then; [by apply follows_stopThinking|]. intros p1 Hp1 Hs1.
  apply ends_then; [by apply follows_stopText|]. intros p2 Hp2 Hs2. destruct (stopped_text _ _ Hp1) as [Htx Hth].
  pose proof (stopped_thinking st) as Hth1. set (st2 := (stopTextBlock _).1) in *.
  assert (Hc : open_calls (visit t (map_to_list (ToolCalls st2))) p2) by (apply (tracks_calls st2); [done..|congruence|done]).
  destruct (flush_accepts out_of_range t (ToolArgBuffers st2) _ p2 Hc) as [n E3].
  exists n. unfold andThen, flush_tools, end_message. cbn [fst snd]. by rewrite (accepts_after _ _ _ _ E3).
Qed.

(** *** Chunks *)

Definition finishing (chunk : OpenAIChunk) : bool :=
  match chunk_choices chunk with c :: _ => bool_decide (is_Some (choice_finish_reason c)) | [] => false end.

Lemma announce_follows u st p : tracks st p → ok (usage_step u ;> start_message) st p.
Proof.
  intros Hp. assert (Hu : tracks (usage_step u st).1 p ∧ (usage_step u st).2 = []).
  { unfold usage_step. destruct u; [|done]. split; [|done]. by apply (tracks_same st). }
  unfold ok, andThen. destruct (usage_step u st) as [st1 es1]. cbn [fst snd] in Hu. destruct Hu as [Hp1 ->]. clear Hp st.
  unfold start_message. destruct (MessageStartSent st1) eqn:Es; cbn [fst snd app]; [split; [done|by exists p]|].
  split; [done|]. cbn. rewrite (tr_started _ _ Hp1), Es. eexists. split; [done|].
  split; cbn; [apply Hp1|done|apply Hp1|apply Hp1|apply (tr_below _ _ Hp1)|apply Hp1|apply Hp1].
Qed.

Lemma andThen_assoc f g h st : ((f ;> g) ;> h) st = (f ;> g ;> h) st.
Proof. unfold andThen. destruct (f st) as [? ?], (g _) as [? ?], (h _) as [? ?]. by rewrite app_assoc. Qed.

Lemma chunk_announced t chunk st : chunk_step out_of_range t chunk st =
  ((usage_step (chunk_usage chunk) ;> start_message) ;>
   match chunk_choices chunk with [] => skip | c :: _ => choice_step out_of_range t c end) st.
Proof. by rewrite andThen_assoc. Qed.

Lemma chunk_follows t chunk st p : finishing chunk = false → tracks st p → ok (chunk_step out_of_range t chunk) st p.
Proof.
  intros Hf Hp. unfold ok. rewrite chunk_announced. apply ok_then; [by apply announce_follows|]. intros p1 Hp1 Hs1.
  unfold finishing in Hf. destruct (chunk_choices chunk) as [|c cs]; [by apply follows_skip|]. unfold choice_step, finish_step.
  destruct (choice_finish_reason c); [by rewrite bool_decide_eq_true_2 in Hf|].
  revert Hp1 Hs1. generalize ((usage_step (chunk_usage chunk) ;> start_message) st).1. intros st1. revert st1 p1.
  repeat apply follows_then; [apply follows_reasoning|apply follows_content|apply follows_tool_calls|apply follows_skip].
Qed.

Lemma chunk_finishes t chunk st p : finishing chunk = true → visits t → tracks st p →
  ends (chunk_step out_of_range t chunk st).2 p.
Proof.
  intros Hf Hv Hp. rewrite chunk_announced. apply ends_then; [by apply announce_follows|]. intros p1 Hp1 Hs1.
  unfold finishing in Hf. destruct (chunk_choices chunk) as [|c cs]; [done|]. unfold choice_step, finish_step.
  destruct (choice_finish_reason c); [|by rewrite bool_decide_eq_false_2 in Hf by (by intros [])].
  revert Hp1 Hs1. generalize ((usage_step (chunk_usage chunk) ;> start_message) st).1. intros st1. revert st1 p1.
  repeat (apply finishes_then; [first [apply follows_reasoning|apply follows_content|apply follows_tool_calls]|]).
  by apply finishes_end.
Qed.

End Protocol.

Lemma fresh_tracks created id model : tracks (fresh_state created id model) nothing_sent.
Proof.
  split; cbn; try done.
  - intros i k. unfold opened. cbn. rewrite lookup_empty. naive_solver.
  - intros i k Hk. unfold opened in Hk. cbn in Hk. naive_solver.
Qed.

(** The state a stream starts in: the seeded one, or the one its first chunk
    makes. *)
Definition initial (t0 : tick) (reqModel : bytes) (chunks : list (tick * OpenAIChunk)) : StreamState :=
  if nonempty reqModel then fresh_state (now t0) [] reqModel
  else match chunks with
       | (t, c) :: _ => fresh_state (now t) (clean_id t (chunk_id c)) (clean_model (chunk_model c))
       | [] => fresh_state 0 [] []
       end.

Lemma initial_tracks t0 reqModel chunks : tracks (initial t0 reqModel chunks) nothing_sent.
Proof. unfold initial. destruct (nonempty reqModel), chunks as [|[? ?] ?]; apply fresh_tracks. Qed.

Lemma initial_reason t0 reqModel chunks : FinishReason (initial t0 reqModel chunks) = [].
Proof. unfold initial. by destruct (nonempty reqModel), chunks as [|[? ?] ?]. Qed.

Section Streams.
Context `{UnicodeCase} `{JsonCodec}.
Variable out_of_range : Z → Z.
Variable is_truncated : bytes → bool.

(** The steps of the chunks of a stream. *)
Fixpoint chunks_step (l : list (tick * OpenAIChunk)) : step :=
  match l with
  | [] => skip
  | tc :: l => chunk_step out_of_range tc.1 tc.2 ;> chunks_step l
  end.

Definition unfinished (l : list (tick * OpenAIChunk)) : Prop := Forall (λ tc, finishing tc.2 = false) l.
Definition trailers (l : list (tick * OpenAIChunk)) : Prop := Forall (λ tc, chunk_choices tc.2 = []) l.

Lemma then_events f g st : ((f ;> g) st).2 = (f st).2 ++ (g (f st).1).2 ∧ ((f ;> g) st).1 = (g (f st).1).1.
Proof. unfold andThen. destruct (f st) as [? ?]. cbn. by destruct (g _). Qed.

Lemma chunks_app l l' st : chunks_step (l ++ l') st = (chunks_step l ;> chunks_step l') st.
Proof.
  revert st. induction l as [|tc l IH]; intros st; cbn [chunks_step app].
  - unfold andThen, skip. by destruct (chunks_step l' st).
  - rewrite andThen_assoc. unfold andThen at 1 2.
    destruct (chunk_step out_of_range tc.1 tc.2 st) as [st1 es1]. by rewrite IH.
Qed.

Lemma chunks_follow l st p : unfinished l → tracks st p →
  ∃ p', accepts p (chunks_step l st).2 = Some p' ∧ tracks (chunks_step l st).1 p'.
Proof.
  intros Hl. revert st p. induction Hl as [|tc l Hf Hl IH]; intros st p Hp; cbn [chunks_step]; [by exists p|].
 destruct (chunk_follows out_of_range tc.1 tc.2 st p Hf Hp) as (_ & p1 & E1 & Hp1).
  destruct (IH _ p1 Hp1) as (p2 & E2 & Hp2). exists p2.
  destruct (then_events (chunk_step out_of_range tc.1 tc.2) (chunks_step l) st) as [-> ->].
  by rewrite (accepts_after _ _ _ _ E1).
Qed.

Lemma trailers_silent l st : trailers l → MessageStartSent st = true → (chunks_step l st).2 = [].
Proof.
  intros Hl. revert st. induction Hl as [|tc l Hc Hl IH]; intros st Hs; cbn [chunks_step]; [done|].
 destruct (then_events (chunk_step out_of_range tc.1 tc.2) (chunks_step l) st) as [-> _].
  assert (Ht : (chunk_step out_of_range tc.1 tc.2 st).2 = [] ∧ MessageStartSent (chunk_step out_of_range tc.1 tc.2 st).1 = true).
  { unfold chunk_step. rewrite Hc. unfold andThen, usage_step, start_message, skip.
    destruct (chunk_usage tc.2); cbn; by rewrite Hs; cbn. }
  destruct Ht as [-> Hs']. by apply IH.
Qed.

(** What a step leaves alone. *)
Definition keeps {A} (field : StreamState → A) (f : step) : Prop := ∀ st, field (f st).1 = field st.

Lemma keeps_then {A} (field : StreamState → A) f g : keeps field f → keeps field g → keeps field (f ;> g).
Proof. intros Hf Hg st. by rewrite (proj2 (then_events f g st)), Hg, Hf. Qed.

Lemma keeps_skip {A} (field : StreamState → A) : keeps field skip.
Proof. done. Qed.

(** The creation time never changes, only [start_message] announces the message,
    only the end of the message sets its reason. *)
Definition basic (st : StreamState) : Z * bool * bytes := (CreatedAt st, MessageStartSent st, FinishReason st).
Definition calls (st : StreamState) : gmap Z ToolCallState * gmap Z bytes := (ToolCalls st, ToolArgBuffers st).

Lemma keeps_tool_call tc : keeps basic (tool_call_step tc).
Proof.
  intros st. unfold tool_call_step. cbv zeta.
  assert (Hb : ∀ idx args, keeps basic (buffer_arguments idx args)) by (intros; basic_step).
  case_match; [|apply Hb]. case_match; [|done]. case_match; [|done].
  match goal with |- basic (?f st).1 = _ => enough (keeps basic f) as Hk by apply Hk end.
  repeat apply keeps_then; [basic_step|basic_step|done|apply Hb].
Qed.

(** Thinking and text. *)
Lemma keeps_prose {A} (field : StreamState → A) s :
  keeps field stopThinkingBlock → keeps field stopTextBlock → keeps field start_thinking → keeps field start_text →
  keeps field (reasoning_step s) ∧ keeps field (content_step s).
Proof.
  intros H1 H2 H3 H4. unfold reasoning_step, content_step. destruct (nonempty s); [|done].
  split; repeat apply keeps_then; done.
Qed.

Lemma prose_basic s : keeps basic (reasoning_step s) ∧ keeps basic (content_step s).
Proof. apply keeps_prose; basic_step. Qed.

Lemma prose_calls s : keeps calls (reasoning_step s) ∧ keeps calls (content_step s).
Proof. apply keeps_prose; basic_step. Qed.

Definition body_step (delta : OpenAIDelta) : step :=
  reasoning_step (extractReasoningText delta) ;> content_step (delta_content delta) ;> tool_calls_step (delta_tool_calls delta).

Lemma choice_body t c st : choice_step out_of_range t c st =
  (body_step (choice_delta c) ;> finish_step out_of_range t (choice_finish_reason c)) st.
Proof.
  unfold choice_step, body_step, andThen. destruct (reasoning_step _ st) as [st1 es1].
  destruct (content_step _ st1) as [st2 es2]. destruct (tool_calls_step _ st2) as [st3 es3].
  destruct (finish_step _ _ _ st3). by rewrite <- !app_assoc.
Qed.

Lemma body_basic delta : keeps basic (body_step delta).
Proof.
  apply keeps_then; [apply prose_basic|]. apply keeps_then; [apply prose_basic|].
  induction (delta_tool_calls delta) as [|tc tcs IH]; [done|]. apply keeps_then; [apply keeps_tool_call|exact IH].
Qed.

Lemma finish_basic t r st : (basic (finish_step out_of_range t r st).1).1 = (basic st).1 ∧ (r = None → basic (finish_step out_of_range t r st).1 = basic st).
Proof.
  destruct r as [b|]; [split; [|done]|done]. enough (keeps (λ st, (basic st).1) (finish_step out_of_range t (Some b))) as Hk by apply Hk.
  repeat apply keeps_then; [basic_step|basic_step|done|done].
Qed.

Lemma announce_basic u st : basic ((usage_step u ;> start_message) st).1 = (CreatedAt st, true, FinishReason st).
Proof.
  rewrite (proj2 (then_events _ _ _)). unfold usage_step, start_message.
  destruct u; cbn; destruct (MessageStartSent st) eqn:E; unfold basic; cbn; by rewrite ?E.
Qed.

Lemma chunk_basic t c st : let st' := (chunk_step out_of_range t c st).1 in
  CreatedAt st' = CreatedAt st ∧ MessageStartSent st' = true ∧ (finishing c = false → FinishReason st' = FinishReason st).
Proof.
  cbv zeta. rewrite chunk_announced, (proj2 (then_events _ _ _)). pose proof (announce_basic (chunk_usage c) st) as Ha.
  set (st1 := ((usage_step (chunk_usage c) ;> start_message) st).1) in *. unfold finishing.
  destruct (chunk_choices c) as [|ch cs]; [injection Ha; cbn; naive_solver|].
  rewrite choice_body, (proj2 (then_events _ _ _)). pose proof (body_basic (choice_delta ch) st1) as Hb.
  set (st2 := (body_step (choice_delta ch) st1).1) in *. destruct (finish_basic t (choice_finish_reason ch) st2) as [Hf Hn].
  set (st3 := (finish_step _ _ _ st2).1) in *. rewrite Hb, Ha in Hf. unfold basic in *. cbn in Hf.
  injection Hf as -> ->. split; [done|]. split; [done|]. intros Hr%bool_decide_eq_false. rewrite Hb, Ha in Hn.
  destruct (choice_finish_reason ch); [by destruct Hr; eexists|]. by injection (Hn eq_refl).
Qed.

Lemma chunks_created l st : CreatedAt (chunks_step l st).1 = CreatedAt st.
Proof.
  revert st. induction l as [|tc l IH]; intros st; cbn [chunks_step]; [done|].
  rewrite (proj2 (then_events _ _ _)), IH. by apply (chunk_basic tc.1 tc.2 st).
Qed.

Lemma wellformed st l t c rest : tracks st nothing_sent → unfinished l → finishing c = true → visits t → trailers rest →
  complete (chunks_step (l ++ (t, c) :: rest) st).2.
Proof.
  intros Hst Hl Hc Hv Hr. destruct (chunks_follow l _ _ Hl Hst) as (p & E & Hp).
  rewrite chunks_app, (proj1 (then_events _ _ _)). cbn [chunks_step fst snd]. rewrite (proj1 (then_events _ _ _)).
  destruct (chunk_finishes out_of_range t c _ p Hc Hv Hp) as (n & E').
  rewrite (trailers_silent rest), app_nil_r; [|done|].
  - exists n. by rewrite (accepts_after _ _ _ _ E).
  - by apply (chunk_basic t c (chunks_step l st).1).
Qed.

(** *** Lines of a session *)

(** The line holds one chunk, or the terminator. *)
Definition carries (tl : tick * bytes) (tc : tick * OpenAIChunk) : Prop :=
  tl.1 = tc.1 ∧ trim_space tl.2 ≠ [] ∧ ∃ data, line_data tl.2 = Some data ∧ decode_line data = Some tc.2.

Definition terminator (tl : tick * bytes) : Prop := trim_space tl.2 ≠ [] ∧ line_data tl.2 = None.

Definition written (o : output) : list event := match o with Written es => es | _ => [] end.

Abbreviation session := (TranslateOpenAIToClaudeStreamSession out_of_range is_truncated).
Abbreviation run := (run_lines out_of_range is_truncated).

Lemma prune_keeps t key s st : states s !! key = Some st → now t - CreatedAt st <= stale_after →
  states (pruneStaleStatesLocked t s) !! key = Some st.
Proof.
  intros E Ht. unfold pruneStaleStatesLocked. case_match; [done|]. cbn [states]. apply map_lookup_filter_Some.
  split; [done|]. unfold fresh. cbn. by rewrite (proj2 (Z.ltb_ge _ _)).
Qed.

Lemma prune_none t key s : states s !! key = None → states (pruneStaleStatesLocked t s) !! key = None.
Proof. intros E. unfold pruneStaleStatesLocked. case_match; [done|]. cbn [states]. apply map_lookup_filter_None. by left. Qed.

Lemma prune_pending t key s : pendingJSON s !! key = None → pendingJSON (pruneStaleStatesLocked t s) !! key = None.
Proof. intros E. unfold pruneStaleStatesLocked. case_match; [done|]. cbn [pendingJSON]. apply map_lookup_filter_None. by left. Qed.

(** A line of a session that is not waiting for the rest of a fragment. *)
Lemma line_spec key tl tc s st : key ≠ [] → pendingJSON s !! key = None → carries tl tc →
  session_state tc.1 key tc.2 (pruneStaleStatesLocked tc.1 s) = Some st →
  let r := chunk_step out_of_range tc.1 tc.2 st in
  session tl.1 key tl.2 s = (put_state key r.1 (pruneStaleStatesLocked tc.1 s), Written r.2).
Proof.
  intros Hk Hp (-> & Hne & data & Ed & Ec) Hst. cbv zeta. unfold TranslateOpenAIToClaudeStreamSession.
  rewrite bool_decide_eq_false_2, Ed by done. assert (Hn : nonempty key = true) by (by destruct key).
  rewrite Hn, Hp, Ec. unfold translate_chunk. rewrite Hn, Hst. by destruct (chunk_step _ _ _ st).
Qed.

Lemma lines_spec key lines chunks s st : key ≠ [] → states s !! key = Some st → pendingJSON s !! key = None →
  Forall2 carries lines chunks → Forall (λ tc, now tc.1 - CreatedAt st <= stale_after) chunks →
  let r := run key lines s in
  states r.1 !! key = Some (chunks_step chunks st).1 ∧ pendingJSON r.1 !! key = None ∧
  concat (map render r.2) = concat (map formatSSE (chunks_step chunks st).2).
Proof.
  intros Hk Hs Hp Hl. revert s st Hs Hp. induction Hl as [|[t line] tc lines chunks Hc Hl IH]; intros s st Hs Hp Ht; cbv zeta.
  - done.
  - apply Forall_cons in Ht as [Ht1 Ht]. cbn [run_lines chunks_step].
    pose proof (line_spec key (t, line) tc s st Hk Hp Hc) as Hone. cbn [fst snd] in Hone.
    rewrite Hone by (unfold session_state; by rewrite (prune_keeps _ _ _ _ Hs Ht1)).
    destruct (then_events (chunk_step out_of_range tc.1 tc.2) (chunks_step chunks) st) as [-> ->].
    set (r := chunk_step out_of_range tc.1 tc.2 st).
    destruct (IH (put_state key r.1 (pruneStaleStatesLocked tc.1 s)) r.1) as (E1 & E2 & E3).
    + cbn. by rewrite lookup_insert_eq.
    + cbn. by apply prune_pending.
    + eapply Forall_impl; [exact Ht|]. intros tc' Ht'. assert (CreatedAt r.1 = CreatedAt st) as ->; [|done].
      by apply (chunk_basic tc.1 tc.2 st).
    + destruct (run key lines _) as [s' os]. cbn [fst snd map concat] in *. split; [done|]. split; [done|].
      rewrite E3, map_app, concat_app. done.
Qed.

Lemma terminators_spec key dones s : Forall terminator dones →
  run key dones s = (s, replicate (length dones) DoneLine).
Proof.
  induction 1 as [|[t line] dones [Hne Hd] _ IH]; [done|]. cbn [run_lines length replicate].
  unfold TranslateOpenAIToClaudeStreamSession. cbn [snd] in *. by rewrite bool_decide_eq_false_2, Hd, IH by done.
Qed.

Lemma run_app key lines lines' s : run key (lines ++ lines') s =
  (let '(s1, os1) := run key lines s in let '(s2, os2) := run key lines' s1 in (s2, os1 ++ os2)).
Proof.
  revert s. induction lines as [|[t line] lines IH]; intros s; cbn [run_lines app].
  - by destruct (run key lines' s).
  - destruct (session t key line s) as [s1 o]. rewrite IH. destruct (run key lines s1) as [s2 os]. by destruct (run key lines' s2).
Qed.

(** A stream of a new session: its chunks, in time, then terminators. *)
Record stream_of (key reqModel : bytes) (t0 : tick) (lines dones : list (tick * bytes)) (chunks : list (tick * OpenAIChunk)) (s : store) : Prop := {
  so_key : key ≠ [];
  so_new : states s !! key = None ∧ pendingJSON s !! key = None;
  so_lines : Forall2 carries lines chunks;
  so_dones : Forall terminator dones;
  so_first : reqModel = [] → match chunks with [] => False | tc :: _ => chunk_choices tc.2 ≠ [] end;
  so_time : Forall (λ tc, now tc.1 - now t0 <= stale_after) chunks;
  so_clock : match chunks with [] => True | tc :: _ => now t0 <= now tc.1 end
}.

Definition seeded (t0 : tick) (key reqModel : bytes) (s : store) : store :=
  if nonempty reqModel then SeedStreamState t0 key reqModel s else s.

Lemma session_spec key reqModel t0 lines dones chunks s : stream_of key reqModel t0 lines dones chunks s →
  let r := run key (lines ++ dones) (seeded t0 key reqModel s) in
  let q := chunks_step chunks (initial t0 reqModel chunks) in
  states r.1 !! key = Some q.1 ∧
  concat (map render r.2) = concat (map formatSSE q.2) ++ concat (replicate (length dones) done_line).
Proof.
  intros [Hk [Hn Hp] Hl Hd Hf Ht Hclk]. cbv zeta. rewrite run_app.
  enough (∃ s', (run key lines (seeded t0 key reqModel s)).1 = s' ∧
    states s' !! key = Some (chunks_step chunks (initial t0 reqModel chunks)).1 ∧
    concat (map render (run key lines (seeded t0 key reqModel s)).2) = concat (map formatSSE (chunks_step chunks (initial t0 reqModel chunks)).2))
    as (s' & E & Es & Eb).
  { destruct (run key lines _) as [s1 os1]. cbn [fst snd] in *. subst s1. rewrite (terminators_spec key dones s' Hd). cbn [fst snd].
    split; [done|]. rewrite map_app, concat_app, Eb. f_equal.
    generalize (length dones). intros n. induction n as [|n IH]; [done|]. cbn [replicate map concat]. by rewrite IH. }
  eexists. split; [done|]. unfold seeded, initial. destruct (nonempty reqModel) eqn:Er.
  - unfold SeedStreamState. assert (reqModel ≠ []) by (by destruct reqModel). rewrite !bool_decide_eq_false_2 by done. cbn [orb].
    rewrite (prune_none t0 key s Hn).
    destruct (lines_spec key lines chunks (put_state key (fresh_state (now t0) [] reqModel) (pruneStaleStatesLocked t0 s))
      (fresh_state (now t0) [] reqModel) Hk) as (E1 & _ & E3); [by cbn; rewrite lookup_insert_eq|by cbn; apply prune_pending|done|done|].
    done.
  - assert (reqModel = []) as Hr by (by destruct reqModel). specialize (Hf Hr). destruct chunks as [|[t c] chunks]; [done|].
    inversion_clear Hl as [|[t' line] ? lines' ? Hc Hl']. set (st0 := fresh_state _ _ _). cbn [run_lines chunks_step].
    pose proof (line_spec key (t', line) (t, c) s st0 Hk Hp Hc) as Hone. cbn [fst snd] in Hone.
    rewrite Hone by (unfold session_state; rewrite (prune_none _ _ _ Hn); cbn in Hf; by destruct (chunk_choices c)).
    rewrite (proj1 (then_events _ _ _)), (proj2 (then_events _ _ _)). cbn [fst snd].
    set (r := chunk_step out_of_range t c st0).
    destruct (lines_spec key lines' chunks (put_state key r.1 (pruneStaleStatesLocked t s)) r.1 Hk) as (E1 & _ & E3).
    + cbn. by rewrite lookup_insert_eq.
    + cbn. by apply prune_pending.
    + done.
    + apply Forall_cons in Ht as [_ Ht]. eapply Forall_impl; [exact Ht|]. intros tc' Ht'.
      assert (CreatedAt r.1 = now t) as -> by (by apply (chunk_basic t c st0)). cbn in Hclk, Ht' |- *. lia.
    + destruct (run key lines' _) as [s' os]. cbn [fst snd map concat] in *. split; [done|].
      rewrite E3, map_app, concat_app. done.
Qed.

(** *** Closing *)

Lemma chunks_unfinished l st : unfinished l → FinishReason (chunks_step l st).1 = FinishReason st.
Proof.
  intros Hl. revert st. induction Hl as [|tc l Hf Hl IH]; intros st; cbn [chunks_step]; [done|].
  rewrite (proj2 (then_events _ _ _)), IH. by apply (chunk_basic tc.1 tc.2 st).
Qed.

Lemma close_ends t st p : visits t → tracks st p → ends (close_step out_of_range t st).2 p.
Proof.
  intros Hv Hp. unfold close_step. set (mark := λ st, (set_finish (B "stop") (Usage st) st, @nil event)).
  rewrite <- andThen_assoc. apply ends_then; [|intros p' ? ?; by apply finishes_end].
  assert (Hm : tracks (set_finish (B "stop") (Usage st) st) p) by by apply (tracks_same st).
  destruct (announce_follows None _ p Hm) as (Hs & p' & E & Hp'). split; [exact Hs|]. exists p'. split; [exact E|exact Hp'].
Qed.

Lemma close_reason t st : FinishReason (close_step out_of_range t st).1 = B "stop".
Proof. unfold close_step. by rewrite !(proj2 (then_events _ _ _)). Qed.

(** Taking the usage removes the session, so that nothing is left to close. *)
Lemma closing_is_silent t t' key s : (EnsureStreamClosed out_of_range t key (GetStreamUsage t' key s).1).2 = [].
Proof.
  unfold EnsureStreamClosed. case_bool_decide; [done|]. unfold GetStreamUsage. cbn [fst states drop_session].
  by rewrite lookup_delete_eq.
Qed.

Lemma handler_body key reqModel t0 lines t1 s b :
  concat (map render (run key lines (seeded t0 key reqModel s)).2) = b →
  body (handleStreamResponse out_of_range is_truncated key reqModel false t0 lines t1 s) = b.
Proof.
  intros Hb. unfold handleStreamResponse. fold (seeded t0 key reqModel s).
  destruct (run key lines (seeded t0 key reqModel s)) as [s1 os]. cbn [snd] in Hb.
  pose proof (closing_is_silent t1 t1 key s1) as Hc. destruct (GetStreamUsage t1 key s1) as [s2 u]. cbn [fst] in Hc.
  destruct (EnsureStreamClosed out_of_range t1 key s2) as [s3 es]. cbn [snd] in Hc. subst es. cbn. by rewrite app_nil_r.
Qed.

(** Closing an open session, and closing it again. *)
Lemma close_open t key s st : key ≠ [] → states s !! key = Some st → FinishReason st = [] →
  let r := close_step out_of_range t st in
  EnsureStreamClosed out_of_range t key s = (put_state key r.1 s, r.2) ∧
  (EnsureStreamClosed out_of_range t key (put_state key r.1 s)).2 = [].
Proof.
  intros Hk Es Hr. cbv zeta. pose proof (close_reason t st) as Hstop. unfold EnsureStreamClosed.
  rewrite bool_decide_eq_false_2, Es, Hr by done. cbn [nonempty]. destruct (close_step out_of_range t st) as [st' es].
  split; [done|]. cbn [fst snd] in *. assert (E : states (put_state key st' s) !! key = Some st') by apply lookup_insert_eq.
  by rewrite E, Hstop.
Qed.

(** C11. In a session without state left over, an upstream whose chunks hold exactly one
    finish reason, followed at most by chunks without choices, gives the client a
    well-formed Claude stream: the message is announced once and first, blocks are
    numbered in the order they start, deltas go to open blocks of their kind, every
    block is stopped, and the message ends once, last, whatever the order in which
    the tool calls are visited; only terminators follow. A second or an empty finish
    reason, and a stream long enough to lose its session, give another ending (see the
    samples). *)
Theorem translated_stream_is_wellformed key reqModel t0 lines dones pre t c rest t1 s :
  stream_of key reqModel t0 lines dones (pre ++ (t, c) :: rest) s →
  unfinished pre → finishing c = true → visits t → trailers rest →
  ∃ es, complete es ∧
    body (handleStreamResponse out_of_range is_truncated key reqModel false t0 (lines ++ dones) t1 s) =
      concat (map formatSSE es) ++ concat (replicate (length dones) done_line).
Proof.
  intros Hst Hp Hc Hv Hr. destruct (session_spec _ _ _ _ _ _ _ Hst) as [_ Hb].
  eexists. split; [|by apply handler_body]. apply wellformed; [|done..]. apply initial_tracks.
Qed.

(** C13. A stream that ends without a finish reason is left open: the deferred closing
    comes after the usage was taken, which removed the session, so the handler
    writes nothing and the client has blocks or a message that never end. Before
    the usage is taken the closing events would have completed the stream, and
    closing again would have written nothing. *)
Theorem interrupted_stream_is_left_open key reqModel t0 lines dones chunks t1 s :
  stream_of key reqModel t0 lines dones chunks s → unfinished chunks → visits t1 →
  let s' := (run key (lines ++ dones) (seeded t0 key reqModel s)).1 in
  ∃ es, body (handleStreamResponse out_of_range is_truncated key reqModel false t0 (lines ++ dones) t1 s) =
      concat (map formatSSE es) ++ concat (replicate (length dones) done_line) ∧
    ¬ complete es ∧
    complete (es ++ (EnsureStreamClosed out_of_range t1 key s').2) ∧
    (EnsureStreamClosed out_of_range t1 key (EnsureStreamClosed out_of_range t1 key s').1).2 = [].
Proof.
  intros Hst Hu Hv. cbv zeta. destruct (session_spec _ _ _ _ _ _ _ Hst) as [Es Hb]. set (s' := (run key _ _).1) in *.
  set (st := (chunks_step chunks (initial t0 reqModel chunks)).1) in *.
  eexists. split; [by apply handler_body|].
  destruct (chunks_follow chunks _ _ Hu (initial_tracks t0 reqModel chunks)) as (p & E & Hp). fold st in Hp.
  assert (Hr : FinishReason st = []) by (unfold st; rewrite chunks_unfinished by done; apply initial_reason).
  assert (Hk : key ≠ []) by apply Hst. split; [|split].
  - intros (n & E'). rewrite E in E'. injection E' as ->. by pose proof (tr_phase _ _ Hp).
  - rewrite (proj1 (close_open t1 key s' st Hk Es Hr)). destruct (close_ends t1 st p Hv Hp) as (n & E').
    exists n. by rewrite (accepts_after _ _ _ _ E).
  - rewrite (proj1 (close_open t1 key s' st Hk Es Hr)). apply (close_open t1 key s' st Hk Es Hr).
Qed.

End Streams.

(** ** Samples *)

Module Sample.

#[local] Existing Instance ascii_case.
#[local] Existing Instance json_codec.

Definition at_time (n : Z) : tick := {| now := n; visit := id; arg_order := id |}.
Definition truncated (s : bytes) : bool := negb (has_suffix (B "}") s).

Definition no_chunk : OpenAIChunk := {| chunk_id := []; chunk_model := []; chunk_choices := []; chunk_usage := None |}.
Definition chunk_of (s : string) : OpenAIChunk := default no_chunk (decode_line (js s)).
Definition line_of (n : Z) (s : string) : tick * bytes := (at_time n, js s).
Definition step_of (n : Z) (s : string) : tick * OpenAIChunk := (at_time n, chunk_of s).

Definition thinks : string := "{~id~:~chatcmpl-7~,~model~:~m~,~choices~:[{~delta~:{~reasoning_details~:[~h~,{~text~:~m~}]}}]}".
Definition speaks : string := "{~choices~:[{~delta~:{~content~:~hello ~}}]}".
Definition opens_call : string := "{~choices~:[{~delta~:{~tool_calls~:[{~index~:0,~id~:~c1~,~function~:{~name~:~bash~,~arguments~:~{\~cmd\~:~}}]}}]}".
Definition ends_call : string :=
  "{~choices~:[{~delta~:{~tool_calls~:[{~index~:0,~function~:{~arguments~:~\~ls\~}~}}]},~finish_reason~:~tool_calls~}]}".
Definition trailer : string := "{~choices~:[],~usage~:{~prompt_tokens~:5,~completion_tokens~:2}}".
Definition key : bytes := B "stream-1".

Definition unfinished_lines : list (tick * bytes) := [line_of 10 thinks; line_of 20 speaks; line_of 30 opens_call].
Definition unfinished_chunks : list (tick * OpenAIChunk) := [step_of 10 thinks; step_of 20 speaks; step_of 30 opens_call].
Definition the_lines : list (tick * bytes) := unfinished_lines ++ [line_of 40 ends_call; line_of 50 trailer].
Definition the_chunks : list (tick * OpenAIChunk) := unfinished_chunks ++ step_of 40 ends_call :: [step_of 50 trailer].
Definition the_dones : list (tick * bytes) := [line_of 60 "data: [DONE]"].

Definition events (l : list (tick * OpenAIChunk)) : list event := (chunks_step id l (initial (at_time 0) [] l)).2.

Example translated :
  events the_chunks =
    [MessageStart (B "7") (B "m"); BlockStart 0 ThinkingBlock; BlockDelta 0 (ThinkingDelta (B "hm")); BlockStop 0;
     BlockStart 1 TextBlock; BlockDelta 1 (TextDelta (B "hello ")); BlockStop 1;
     BlockStart 2 (ToolUseBlock (B "c1") (B "bash")); BlockDelta 2 (InputJsonDelta (js "{~command~:~ls~}")); BlockStop 2;
     MessageDelta (B "tool_use") [(B "input_tokens", 0); (B "output_tokens", 0)]; MessageStop].
Proof. by vm_compute. Qed.

Example formatted : formatSSE (BlockDelta 1 (TextDelta (B "hi"))) =
  B "event: content_block_delta" ++ [ch_lf] ++
  js "data: {~type~:~content_block_delta~,~index~:1,~delta~:{~type~:~text_delta~,~text~:~hi~}}" ++ [ch_lf; ch_lf].
Proof. by vm_compute. Qed.

(** An empty finish reason ends the message, yet the session counts as open and is
    closed a second time. *)
Definition empty_finish : string := "{~choices~:[{~delta~:{~content~:~hi~},~finish_reason~:~~}]}".
Example empty_reason_ends_twice :
  let s := (run_lines id truncated key [line_of 10 empty_finish] empty_store).1 in
  List.last (written (List.last (run_lines id truncated key [line_of 10 empty_finish] empty_store).2 Silent)) (MessageDelta [] []) = MessageStop ∧
  (EnsureStreamClosed id (at_time 20) key s).2 = [MessageDelta (B "end_turn") zero_counts; MessageStop].
Proof. by vm_compute. Qed.

(** A second finish reason ends the message again. *)
Example second_finish_ends_twice :
  length (filter (λ e, event_type e = B "message_stop") (events (the_chunks ++ [step_of 60 ends_call]))) = 2%nat.
Proof. by vm_compute. Qed.

(** A seeded session announces a message without an id. *)
Example seeded_message_has_no_id :
  (chunks_step id unfinished_chunks (initial (at_time 0) (B "claude-x") unfinished_chunks)).2 !! 0%nat = Some (MessageStart [] (B "claude-x")).
Proof. by vm_compute. Qed.

(** With fifty sessions, one older than ten minutes is dropped while its stream
    still runs, and its message starts again. *)
Definition crowd : store :=
  {| states := list_to_map (map (λ i, (itoa (Z.of_nat i), fresh_state (700 * 1000000000) [] [])) (seq 0 49)); pendingJSON := ∅ |}.
Example long_stream_restarts :
  map event_type (concat (map written (run_lines id truncated key [line_of 0 speaks; line_of (700 * 1000000000) speaks] crowd).2)) =
    map B ["message_start"; "content_block_start"; "content_block_delta"; "message_start"; "content_block_start"; "content_block_delta"]%string.
Proof. by vm_compute. Qed.

(** *** Witnesses *)

Lemma line_carries n s : trim_space (js s) ≠ [] → is_Some (d ← line_data (js s); decode_line d) → line_data (js s) = Some (js s) →
  carries (line_of n s) (step_of n s).
Proof.
  intros Hn [c Hd] Hl. split; [done|]. split; [exact Hn|]. exists (js s). split; [exact Hl|]. rewrite Hl in Hd. cbn [mbind option_bind] in Hd.
  unfold step_of, chunk_of. cbn [snd]. by rewrite Hd.
Qed.

Ltac carried := apply line_carries; [by vm_compute | vm_compute; by eexists | by vm_compute].

Lemma the_stream : stream_of key [] (at_time 0) the_lines the_dones the_chunks empty_store.
Proof.
  split; [done|done| | |by vm_compute|by repeat constructor|by vm_compute].
  - unfold the_lines, the_chunks, unfinished_lines, unfinished_chunks. cbn [app]. repeat (apply Forall2_cons; split; [carried|]).
    apply Forall2_nil_2.
  - repeat constructor; by vm_compute.
Qed.

Lemma cut_stream : stream_of key [] (at_time 0) unfinished_lines the_dones unfinished_chunks empty_store.
Proof.
  split; [done|done| | |by vm_compute|by repeat constructor|by vm_compute].
  - unfold unfinished_lines, unfinished_chunks. repeat (apply Forall2_cons; split; [carried|]). apply Forall2_nil_2.
  - repeat constructor; by vm_compute.
Qed.

Lemma wellformed_stream_witness : ∃ es, complete es ∧
  body (handleStreamResponse id truncated key [] false (at_time 0) (the_lines ++ the_dones) (at_time 70) empty_store) =
    concat (map formatSSE es) ++ concat (replicate 1 done_line).
Proof.
  exact (translated_stream_is_wellformed id truncated key [] (at_time 0) the_lines the_dones unfinished_chunks (at_time 40)
    (chunk_of ends_call) [step_of 50 trailer] (at_time 70) empty_store the_stream
    ltac:(repeat constructor; by vm_compute) ltac:(by vm_compute) (λ l, reflexivity l) ltac:(repeat constructor; by vm_compute)).
Defined.

Lemma interrupted_stream_witness : ∃ es,
  body (handleStreamResponse id truncated key [] false (at_time 0) (unfinished_lines ++ the_dones) (at_time 70) empty_store) =
      concat (map formatSSE es) ++ concat (replicate 1 done_line) ∧ ¬ complete es.
Proof.
  destruct (interrupted_stream_is_left_open id truncated key [] (at_time 0) unfinished_lines the_dones unfinished_chunks (at_time 70)
    empty_store cut_stream ltac:(repeat constructor; by vm_compute) (λ l, reflexivity l)) as (es & E & Hn & _).
  exists es. exact (conj E Hn).
Defined.

End Sample.
