(* ===== verification/StreamAnswer.v ===== *)
(** * What a translated stream says

    Text, thinking and tool arguments of the upstream reach the client once and in
    order; a chunk split over two events is rejoined. *)

From stdpp Require Import gmap.
From S2P Require Import Prelude GoRegexp Json GoText ErrorClassify Capabilities ClaudeBody ToolArgs Usage ClaudeStream StreamProtocol.

Section Answer.
Context `{UnicodeCase} `{JsonCodec}.
Variable out_of_range : Z → Z.
Variable is_truncated : bytes → bool.

Abbreviation session := (TranslateOpenAIToClaudeStreamSession out_of_range is_truncated).
Abbreviation run_chunks := (chunks_step out_of_range).

(** *** What the events say *)

Definition text_of (es : list event) : bytes :=
  concat (map (λ e, match e with BlockDelta _ (TextDelta s) => s | _ => [] end) es).
Definition thinking_of (es : list event) : bytes :=
  concat (map (λ e, match e with BlockDelta _ (ThinkingDelta s) => s | _ => [] end) es).
(** The arguments sent to the block [i]. *)
Definition inputs_of (i : Z) (es : list event) : list bytes :=
  concat (map (λ e, match e with BlockDelta j (InputJsonDelta s) => if j =? i then [s] else [] | _ => [] end) es).

(** What a chunk says: only its first choice counts. *)
Definition first_delta {A} (f : OpenAIDelta → A) (dflt : A) (c : OpenAIChunk) : A :=
  match chunk_choices c with ch :: _ => f (choice_delta ch) | [] => dflt end.

Definition fragments (idx : Z) (l : list (tick * OpenAIChunk)) : list OpenAIToolCallStream :=
  filter (λ tc, default 0 (call_index tc) = idx) (concat (map (λ tc, first_delta delta_tool_calls [] tc.2) l)).

Definition call_args (tc : OpenAIToolCallStream) : bytes := default [] (function_arguments <$> call_function tc).
Definition call_name (tc : OpenAIToolCallStream) : bytes := default [] (function_name <$> call_function tc).

(** A fragment that opens a tool call. *)
Definition opens (tc : OpenAIToolCallStream) : bool :=
  nonempty (call_id tc) && nonempty (call_name tc) && nonempty (UncloakToolName (call_name tc)).

(** A step that sends no text, thinking or arguments. *)
Definition plain_event (e : event) : bool := match e with BlockDelta _ _ => false | _ => true end.

Lemma plain_silent es : Forall (λ e, plain_event e = true) es → text_of es = [] ∧ thinking_of es = [] ∧ ∀ i, inputs_of i es = [].
Proof.
  induction 1 as [|e es He _ IH]; [done|]. destruct IH as (E1 & E2 & E3). unfold text_of, thinking_of, inputs_of in *.
  destruct e; cbn; try done; by rewrite ?E1, ?E2.
Qed.

Lemma text_app es es' : text_of (es ++ es') = text_of es ++ text_of es'.
Proof. unfold text_of. by rewrite map_app, concat_app. Qed.
Lemma thinking_app es es' : thinking_of (es ++ es') = thinking_of es ++ thinking_of es'.
Proof. unfold thinking_of. by rewrite map_app, concat_app. Qed.
Lemma inputs_app i es es' : inputs_of i (es ++ es') = inputs_of i es ++ inputs_of i es'.
Proof. unfold inputs_of. by rewrite map_app, concat_app. Qed.

(** A step that says [x] of text and [y] of thinking, and no arguments. *)
Definition says (x y : bytes) (f : step) : Prop :=
  ∀ st, text_of (f st).2 = x ∧ thinking_of (f st).2 = y ∧ ∀ i, inputs_of i (f st).2 = [].

Lemma says_then x y x' y' f g : says x y f → says x' y' g → says (x ++ x') (y ++ y') (f ;> g).
Proof.
  intros Hf Hg st. rewrite (proj1 (then_events f g st)). destruct (Hf st) as (E1 & E2 & E3), (Hg (f st).1) as (F1 & F2 & F3).
  rewrite text_app, thinking_app, E1, E2, F1, F2. split; [done|]. split; [done|]. intros i. by rewrite inputs_app, E3, F3.
Qed.

Lemma says_plain f : (∀ st, Forall (λ e, plain_event e = true) (f st).2) → says [] [] f.
Proof. intros Hf st. by apply plain_silent. Qed.

Ltac plain_step := apply says_plain; intros ?st; unfold stopThinkingBlock, stopTextBlock, start_message, start_thinking, start_text,
  open_tool, buffer_arguments, usage_step, skip; repeat case_match; repeat constructor.

Lemma says_reasoning s : says [] s (reasoning_step s).
Proof.
  unfold reasoning_step. destruct (nonempty s) eqn:E; [|destruct s; [plain_step|done]].
  apply (says_then [] [] [] s); [plain_step|]. apply (says_then [] [] [] s); [plain_step|].
  intros st. cbn. by rewrite app_nil_r.
Qed.

Lemma says_content s : says s [] (content_step s).
Proof.
  unfold content_step. destruct (nonempty s) eqn:E; [|destruct s; [plain_step|done]].
  apply (says_then [] [] s []); [plain_step|]. apply (says_then [] [] s []); [plain_step|].
  intros st. cbn. by rewrite app_nil_r.
Qed.

Lemma says_nothing_then f g : says [] [] f → says [] [] g → says [] [] (f ;> g).
Proof. apply (says_then [] [] [] []). Qed.

Lemma says_tool_call tc : says [] [] (tool_call_step tc).
Proof.
  intros st. unfold tool_call_step. cbv zeta.
  assert (Hb : ∀ idx args, says [] [] (buffer_arguments idx args)) by (intros; plain_step).
  case_match; [|apply Hb]. case_match; [|done]. case_match; [|done].
  match goal with |- text_of (?f st).2 = _ ∧ _ => enough (says [] [] f) as Hk by apply Hk end.
  repeat apply says_nothing_then; [plain_step|plain_step|plain_step|apply Hb].
Qed.

Lemma says_tool_calls tcs : says [] [] (tool_calls_step tcs).
Proof. induction tcs as [|tc tcs IH]; [plain_step|]. apply says_nothing_then; [apply says_tool_call|exact IH]. Qed.

Lemma says_body d : says (delta_content d) (extractReasoningText d) (body_step d).
Proof.
  unfold body_step. rewrite <- (app_nil_l (delta_content d)), <- (app_nil_r (extractReasoningText d)).
  apply says_then; [rewrite app_nil_r; apply says_reasoning|].
  rewrite <- (app_nil_r (delta_content d)) at 1. rewrite <- (app_nil_r []).
  apply says_then; [apply says_content|apply says_tool_calls].
Qed.

Lemma says_announce u : says [] [] (usage_step u ;> start_message).
Proof. apply says_nothing_then; plain_step. Qed.

(** The end of the message says only the arguments. *)
Lemma flush_says t buffers l : let es := concat (map (tool_events out_of_range t buffers) l) in
  text_of es = [] ∧ thinking_of es = [] ∧
  ∀ i, inputs_of i es = concat (map (λ e, if BlockIndex e.2 =? i
    then [sanitizeToolArgs out_of_range (arg_order t) (Name e.2) (default [] (buffers !! e.1))] else []) l).
Proof.
  cbv zeta. induction l as [|[idx info] l (E1 & E2 & E3)]; [done|]. cbn [map concat].
  rewrite text_app, thinking_app, E1, E2. split; [done|]. split; [done|]. intros i. rewrite inputs_app, E3. cbn.
  by destruct (BlockIndex info =? i).
Qed.

(** *** The fragments of a tool call *)

(** After the fragments [seen] of one index, the first of which opens the call. *)
Definition call_state (idx : Z) (seen : list OpenAIToolCallStream) (st : StreamState) : Prop :=
  match seen with
  | [] => ToolCalls st !! idx = None ∧ ToolArgBuffers st !! idx = None
  | tc :: _ =>
      ∃ i, ToolCalls st !! idx = Some {| ID := call_id tc; Name := UncloakToolName (call_name tc); BlockIndex := i |} ∧
           default [] (ToolArgBuffers st !! idx) = concat (map call_args seen)
  end.

Lemma call_state_same idx seen st st' : calls st' = calls st → call_state idx seen st → call_state idx seen st'.
Proof. unfold calls. intros [= E1 E2]. unfold call_state. by rewrite E1, E2. Qed.

(** The effect of one fragment on the calls: nothing, bytes buffered, or a call
    opened and bytes buffered. *)
Lemma buffer_calls idx args st : calls (buffer_arguments idx args st).1 =
  (ToolCalls st, if nonempty args then <[idx := default [] (ToolArgBuffers st !! idx) ++ args]> (ToolArgBuffers st) else ToolArgBuffers st).
Proof. unfold buffer_arguments, calls. by destruct (nonempty args). Qed.

Lemma tool_call_calls tc st (idx := default 0 (call_index tc)) :
  let buffered st := (buffer_arguments idx (call_args tc) st).1 in
  calls (tool_call_step tc st).1 =
    if nonempty (call_id tc) && bool_decide (ToolCalls st !! idx = None) then
      if opens tc
      then calls (buffered (set_tools (<[idx := {| ID := call_id tc; Name := UncloakToolName (call_name tc);
        BlockIndex := NextBlockIndex (stopTextBlock (stopThinkingBlock st).1).1 |}]> (ToolCalls st)) (ToolArgBuffers st) 0 st))
      else calls st
    else calls (buffered st).
Proof.
  cbv zeta. unfold tool_call_step, opens, call_name, call_args. fold idx. cbv zeta.
  destruct (nonempty (call_id tc)) eqn:Ei; cbn [andb]; [|done]. case_bool_decide; [|done].
  destruct (call_function tc) as [f|]; cbn; [|done].
  destruct (nonempty (function_name f) && nonempty (UncloakToolName (function_name f))); [|done].
  rewrite !(proj2 (then_events _ _ _)), !buffer_calls. unfold open_tool. cbn [fst ToolCalls ToolArgBuffers set_tools].
  assert (Hk : ∀ s, calls (stopTextBlock (stopThinkingBlock s).1).1 = calls s).
  { intros s. unfold stopTextBlock, stopThinkingBlock. by repeat case_match. }
  specialize (Hk st). unfold calls in Hk. injection Hk as -> ->. done.
Qed.

Lemma tool_call_state tc idx seen st :
  (seen = [] → default 0 (call_index tc) = idx → opens tc = true) →
  call_state idx seen st →
  call_state idx (seen ++ (if decide (default 0 (call_index tc) = idx) then [tc] else [])) (tool_call_step tc st).1.
Proof.
  intros Hfirst Hc. pose proof (tool_call_calls tc st) as E. cbv beta zeta in E. set (k := default 0 (call_index tc)) in *.
  destruct (decide (k = idx)) as [Hk|Hk].
  - subst idx. destruct seen as [|tc0 seen]; cbn [app].
    + destruct Hc as [Hc Hb]. specialize (Hfirst eq_refl eq_refl). pose proof Hfirst as Hid. unfold opens in Hid.
      apply andb_prop in Hid as [[Hid _]%andb_prop _]. rewrite Hid, Hfirst, bool_decide_eq_true_2 in E by done. cbn [andb] in E.
      rewrite buffer_calls in E. cbn [ToolCalls ToolArgBuffers set_tools] in E. unfold calls in E. injection E as E1 E2.
      cbn. rewrite E1, E2, lookup_insert_eq, app_nil_r. eexists. split; [done|]. rewrite Hb. cbn.
      destruct (call_args tc); cbn; [by rewrite Hb|by rewrite lookup_insert_eq].
    + destruct Hc as (i & Hc & Hb). rewrite Hc, (bool_decide_eq_false_2 _) in E by done. rewrite andb_false_r, buffer_calls in E.
      unfold calls in E. injection E as E1 E2. cbn [call_state]. rewrite E1, E2. exists i. split; [done|].
      rewrite app_comm_cons, map_app, concat_app, <- Hb. cbn. rewrite app_nil_r.
      destruct (nonempty (call_args tc)) eqn:En; [by rewrite lookup_insert_eq|]. destruct (call_args tc); [by rewrite app_nil_r|done].
  - rewrite app_nil_r. assert (Hsame : ToolCalls (tool_call_step tc st).1 !! idx = ToolCalls st !! idx ∧
      ToolArgBuffers (tool_call_step tc st).1 !! idx = ToolArgBuffers st !! idx).
    { rewrite !buffer_calls in E. cbn [ToolCalls ToolArgBuffers set_tools] in E. unfold calls in E.
      repeat case_match; injection E as E1 E2; rewrite E1, E2; rewrite ?lookup_insert_ne by done; done. }
    destruct Hsame as [E1 E2]. unfold call_state. by rewrite E1, E2.
Qed.

Definition is_index (idx : Z) (tc : OpenAIToolCallStream) : Prop := default 0 (call_index tc) = idx.
#[local] Instance is_index_dec idx tc : Decision (is_index idx tc).
Proof. unfold is_index. apply _. Defined.

Lemma fragments_cons idx tc l : fragments idx (tc :: l) =
  filter (is_index idx) (first_delta delta_tool_calls [] tc.2) ++ fragments idx l.
Proof. unfold fragments. cbn [map concat]. by rewrite filter_app. Qed.

Lemma fragments_app idx l l' : fragments idx (l ++ l') = fragments idx l ++ fragments idx l'.
Proof. unfold fragments. by rewrite map_app, concat_app, filter_app. Qed.

(** The first fragment of the index, in what was seen or is to come, opens the
    call. *)
Definition first_opens (l : list OpenAIToolCallStream) : Prop := match l with [] => True | f :: _ => opens f = true end.

Lemma first_opens_app l l' : first_opens (l ++ l') → first_opens l.
Proof. by destruct l. Qed.

Lemma tool_calls_state idx tcs seen st : first_opens (seen ++ filter (is_index idx) tcs) → call_state idx seen st →
  call_state idx (seen ++ filter (is_index idx) tcs) (tool_calls_step tcs st).1.
Proof.
  revert seen st. induction tcs as [|tc tcs IH]; intros seen st Hf Hc; [by rewrite app_nil_r|]. unfold tool_calls_step. cbn [foldr].
  fold (tool_calls_step tcs). rewrite (proj2 (then_events _ _ _)).
  assert (E : filter (is_index idx) (tc :: tcs) = (if decide (default 0 (call_index tc) = idx) then [tc] else []) ++ filter (is_index idx) tcs).
  { rewrite filter_cons. unfold is_index at 1. by repeat case_decide. }
  rewrite E, app_assoc in *. apply IH; [done|]. apply tool_call_state; [|done]. intros -> Hi.
  rewrite decide_True in Hf by done. exact Hf.
Qed.

Lemma body_calls idx d seen st : first_opens (seen ++ filter (is_index idx) (delta_tool_calls d)) → call_state idx seen st →
  call_state idx (seen ++ filter (is_index idx) (delta_tool_calls d)) (body_step d st).1.
Proof.
  intros Hf Hc. unfold body_step. rewrite !(proj2 (then_events _ _ _)). apply tool_calls_state; [done|].
  eapply call_state_same; [|exact Hc]. by rewrite (proj2 (prose_calls _)), (proj1 (prose_calls _)).
Qed.

Lemma announce_calls u : keeps calls (usage_step u ;> start_message).
Proof. apply keeps_then; intros st; unfold usage_step, start_message; by repeat case_match. Qed.

Lemma finish_calls t r : keeps calls (finish_step out_of_range t r).
Proof. destruct r; [|done]. repeat apply keeps_then; [basic_step|basic_step|done|done]. Qed.

Lemma chunk_calls idx t c seen st : first_opens (seen ++ filter (is_index idx) (first_delta delta_tool_calls [] c)) → call_state idx seen st →
  call_state idx (seen ++ filter (is_index idx) (first_delta delta_tool_calls [] c)) (chunk_step out_of_range t c st).1.
Proof.
  intros Hf Hc. rewrite chunk_announced, (proj2 (then_events _ _ _)).
  assert (Hc1 : call_state idx seen ((usage_step (chunk_usage c) ;> start_message) st).1).
  { eapply call_state_same; [|exact Hc]. apply announce_calls. }
  unfold first_delta in *. destruct (chunk_choices c) as [|ch cs]; [by rewrite app_nil_r|].
  rewrite choice_body, (proj2 (then_events _ _ _)). eapply call_state_same; [apply finish_calls|]. by apply body_calls.
Qed.

Lemma chunks_calls idx l seen st : first_opens (seen ++ fragments idx l) → call_state idx seen st →
  call_state idx (seen ++ fragments idx l) (run_chunks l st).1.
Proof.
  revert seen st. induction l as [|tc l IH]; intros seen st Hf Hc; [by rewrite app_nil_r|]. cbn [chunks_step].
  rewrite (proj2 (then_events _ _ _)). rewrite fragments_cons, app_assoc in *. apply IH; [done|].
  apply chunk_calls; [by apply first_opens_app in Hf|done].
Qed.

(** *** What a chunk, and a stream, says *)

Lemma finish_says t r st : text_of (finish_step out_of_range t r st).2 = [] ∧ thinking_of (finish_step out_of_range t r st).2 = [] ∧
  (r = None → ∀ i, inputs_of i (finish_step out_of_range t r st).2 = []) ∧
  (is_Some r → ∀ i, inputs_of i (finish_step out_of_range t r st).2 =
     concat (map (λ e, if BlockIndex e.2 =? i
       then [sanitizeToolArgs out_of_range (arg_order t) (Name e.2) (default [] (ToolArgBuffers st !! e.1))] else [])
       (visit t (map_to_list (ToolCalls st))))).
Proof.
  destruct r as [r|]; [|cbn; split; [done|split; [done|split; [done|by intros []]]]].
  unfold finish_step. set (stops := stopThinkingBlock ;> stopTextBlock).
  assert (Hs : says [] [] stops) by (apply says_nothing_then; plain_step).
  assert (Hk : keeps calls stops) by (apply keeps_then; basic_step).
  rewrite <- andThen_assoc. fold stops. rewrite !(proj1 (then_events _ _ _)). specialize (Hk st). unfold calls in Hk. injection Hk as E1 E2.
  unfold flush_tools. cbn [fst snd]. rewrite E1, E2. destruct (Hs st) as (S1 & S2 & S3).
  destruct (flush_says t (ToolArgBuffers st) (visit t (map_to_list (ToolCalls st)))) as (F1 & F2 & F3).
  rewrite !text_app, !thinking_app, S1, S2, F1, F2. split; [done|]. split; [done|]. split; [done|].
  intros _ i. rewrite !inputs_app, S3, F3. cbn. by rewrite app_nil_r.
Qed.

Lemma chunk_says t c st : let es := (chunk_step out_of_range t c st).2 in
  text_of es = first_delta delta_content [] c ∧ thinking_of es = first_delta extractReasoningText [] c ∧
  (finishing c = false → ∀ i, inputs_of i es = []).
Proof.
  cbv zeta. rewrite chunk_announced, (proj1 (then_events _ _ _)).
  destruct (says_announce (chunk_usage c) st) as (A1 & A2 & A3).
  rewrite text_app, thinking_app, A1, A2. set (st1 := (_ st).1). unfold first_delta, finishing.
  destruct (chunk_choices c) as [|ch cs]; [split; [done|split; [done|]]; intros _ i; by rewrite inputs_app, A3|].
  rewrite choice_body, (proj1 (then_events _ _ _)), text_app, thinking_app.
  destruct (says_body (choice_delta ch) st1) as (B1 & B2 & B3). rewrite B1, B2. set (st2 := (body_step _ st1).1).
  destruct (finish_says t (choice_finish_reason ch) st2) as (F1 & F2 & F3 & _). rewrite F1, F2, !app_nil_r.
  split; [done|]. split; [done|]. intros Hf%bool_decide_eq_false i. rewrite !inputs_app, A3, B3, F3; [done|].
  destruct (choice_finish_reason ch); [by destruct Hf; eexists|done].
Qed.

Lemma chunks_say l st : let es := (run_chunks l st).2 in
  text_of es = concat (map (λ tc, first_delta delta_content [] tc.2) l) ∧
  thinking_of es = concat (map (λ tc, first_delta extractReasoningText [] tc.2) l) ∧
  (unfinished l → ∀ i, inputs_of i es = []).
Proof.
  cbv zeta. revert st. induction l as [|tc l IH]; intros st; [done|]. cbn [chunks_step map concat].
  rewrite (proj1 (then_events _ _ _)), text_app, thinking_app.
  destruct (chunk_says tc.1 tc.2 st) as (C1 & C2 & C3), (IH (chunk_step out_of_range tc.1 tc.2 st).1) as (I1 & I2 & I3).
  rewrite C1, C2, I1, I2. split; [done|]. split; [done|]. intros [Hf Hl]%Forall_cons i. by rewrite inputs_app, C3, I3.
Qed.

(** An open block was started. *)
Lemma started_before p p' es i k : accepts p es = Some p' → p_open p' !! i = Some k → p_open p !! i = Some k ∨ BlockStart i k ∈ es.
Proof.
  revert p. induction es as [|e es IH]; intros p; cbn [accepts]; [intros [= ->]; by left|].
  destruct (accept p e) as [p1|] eqn:E; [|done]. intros Ha Ho. destruct (IH p1 Ha Ho) as [H1|H1]; [|right; by right].
  destruct e; cbn in E; repeat case_match; simplify_eq; cbn in H1; try (by left); try by rewrite lookup_empty in H1.
  - apply lookup_insert_Some in H1 as [[<- <-]|[_ H1]]; [right|left]; [by left|done].
  - apply lookup_delete_Some in H1 as [_ H1]. by left.
Qed.

Lemma concat_single {A B} (g : A → list B) (h : A → B) (sel : A → bool) (l : list A) (f : A → Z) x :
  (∀ y, g y = if sel y then [h y] else []) → (∀ y, y ∈ l → sel y = true ↔ f y = f x) → NoDup (map f l) → x ∈ l →
  concat (map g l) = [h x].
Proof.
  intros Hg. induction l as [|y l IH]; intros Hsel Hnd Hin; [by apply elem_of_nil in Hin|].
  cbn [map] in Hnd. apply NoDup_cons in Hnd as [Hni Hnd]. cbn [map concat]. rewrite Hg.
  apply elem_of_cons in Hin as [->|Hin].
  - rewrite (proj2 (Hsel y (list_elem_of_here _ _)) eq_refl). cbn [app]. f_equal.
    assert (Hno : ∀ z, z ∈ l → g z = []).
    { intros z Hz. rewrite Hg. destruct (sel z) eqn:E; [|done]. apply Hsel in E; [|by right]. destruct Hni. rewrite <- E.
      apply list_elem_of_fmap. by exists z. }
    clear -Hno. induction l as [|z l IH]; [done|]. cbn. rewrite Hno by left. apply IH. intros w Hw. apply Hno. by right.
  - destruct (sel y) eqn:E; [exfalso|].
    + apply Hsel in E; [|by left]. apply Hni. rewrite E. apply list_elem_of_fmap. by exists x.
    + apply IH; [|done|done]. intros z Hz. apply Hsel. by right.
Qed.

Lemma body_follows d : follows (body_step d).
Proof. repeat apply follows_then; [apply follows_reasoning|apply follows_content|apply follows_tool_calls]. Qed.

(** The arguments of a call are sent once, whole, when the stream finishes. *)
Lemma arguments_sent st p t c idx f fs : tracks st p → finishing c = true → visits t →
  call_state idx (f :: fs) (chunk_step out_of_range t c st).1 →
  ∃ i p', inputs_of i (chunk_step out_of_range t c st).2 =
      [sanitizeToolArgs out_of_range (arg_order t) (UncloakToolName (call_name f)) (concat (map call_args (f :: fs)))] ∧
    (∃ es', (chunk_step out_of_range t c st).2 = es' ++ drop (length es') (chunk_step out_of_range t c st).2 ∧ accepts p es' = Some p') ∧
    p_open p' !! i = Some (ToolUseBlock (call_id f) (UncloakToolName (call_name f))).
Proof.
  intros Hp Hc Hv. rewrite chunk_announced. set (a := usage_step (chunk_usage c) ;> start_message).
  rewrite (proj1 (then_events a _ st)), (proj2 (then_events a _ st)).
  destruct (announce_follows (chunk_usage c) st p Hp) as (Hs1 & p1 & E1 & Hp1). fold a in Hs1, E1, Hp1.
  destruct (says_announce (chunk_usage c) st) as (_ & _ & A3). fold a in A3. set (st1 := (a st).1) in *.
  unfold finishing in Hc. destruct (chunk_choices c) as [|ch cs]; [done|]. apply bool_decide_eq_true in Hc.
  rewrite choice_body, (proj1 (then_events _ _ _)), (proj2 (then_events _ _ _)).
  destruct (body_follows (choice_delta ch) st1 p1 Hp1 Hs1) as (Hs2 & p2 & E2 & Hp2).
  destruct (says_body (choice_delta ch) st1) as (_ & _ & B3). set (st2 := (body_step (choice_delta ch) st1).1) in *.
  intros Hcall. apply (call_state_same _ _ _ st2) in Hcall; [|symmetry; apply finish_calls].
  destruct Hcall as (i & Ht & Hb). exists i, p2.
  destruct (finish_says t (choice_finish_reason ch) st2) as (_ & _ & _ & F4).
  split; [|split].
  - rewrite !inputs_app, A3, B3, (F4 Hc i). cbn [app].
    set (x := (idx, {| ID := call_id f; Name := UncloakToolName (call_name f); BlockIndex := i |})).
    rewrite (concat_single _ (λ e : Z * ToolCallState, sanitizeToolArgs out_of_range (arg_order t) (Name e.2) (default [] (ToolArgBuffers st2 !! e.1)))
      (λ e, BlockIndex e.2 =? i) (visit t (map_to_list (ToolCalls st2))) (λ e, BlockIndex e.2) x).
    + cbn [fst snd Name x]. by rewrite Hb.
    + done.
    + intros y _. cbn [x snd BlockIndex]. apply Z.eqb_eq.
    + rewrite (Hv (map_to_list (ToolCalls st2))). apply NoDup_fmap_2_strong; [|apply NoDup_map_to_list].
      intros [k1 x1] [k2 x2] Hk1%elem_of_map_to_list Hk2%elem_of_map_to_list Exy. cbn in Exy.
      assert (k1 = k2) as -> by exact (tr_inj _ _ Hp2 k1 k2 x1 x2 Hk1 Hk2 Exy). congruence.
    + rewrite (Hv _). by apply elem_of_map_to_list.
  - exists ((a st).2 ++ (body_step (choice_delta ch) st1).2). split.
    + rewrite (app_assoc (a st).2), drop_app_length. done.
    + by rewrite (accepts_after _ _ _ _ E1).
  - apply (tr_open _ _ Hp2). right. right. eexists idx, _. split; [exact Ht|done].
Qed.

(** C12. On decoded chunks of which exactly one finishes, followed at most by chunks
    without choices, nothing is lost or reordered in translation: the text deltas of
    the stream are the content of the chunks, the thinking deltas their reasoning, and
    every tool call whose first fragment names it has a block of its id and name,
    to which the concatenation of the arguments of all its fragments is sent,
    sanitized, exactly once. How the bytes are cut into chunks is not part of this
    ([blank_at_the_cut]). *)
Theorem stream_keeps_the_answer t0 reqModel pre t c rest (chunks := pre ++ (t, c) :: rest) :
  unfinished pre → finishing c = true → visits t → trailers rest →
  let es := (run_chunks chunks (initial t0 reqModel chunks)).2 in
  text_of es = concat (map (λ tc, first_delta delta_content [] tc.2) chunks) ∧
  thinking_of es = concat (map (λ tc, first_delta extractReasoningText [] tc.2) chunks) ∧
  ∀ idx f fs, fragments idx chunks = f :: fs → opens f = true →
    ∃ i, BlockStart i (ToolUseBlock (call_id f) (UncloakToolName (call_name f))) ∈ es ∧
      inputs_of i es = [sanitizeToolArgs out_of_range (arg_order t) (UncloakToolName (call_name f)) (concat (map call_args (f :: fs)))].
Proof.
  intros Hu Hc Hv Hr. cbv zeta. set (st0 := initial t0 reqModel chunks). destruct (chunks_say chunks st0) as (C1 & C2 & _).
  split; [done|]. split; [done|]. intros idx f fs Hfr Hop.
  assert (Htr : tracks st0 nothing_sent) by apply initial_tracks.
  destruct (chunks_follow out_of_range pre st0 _ Hu Htr) as (p & E & Hp).
  destruct (chunks_say pre st0) as (_ & _ & Hpre). specialize (Hpre Hu).
  assert (Hrest : fragments idx rest = []).
  { clear -Hr. induction Hr as [|tc l Htc _ IH]; [done|]. rewrite fragments_cons, IH, app_nil_r. unfold first_delta. by rewrite Htc. }
  assert (Hseen : fragments idx (pre ++ [(t, c)]) = f :: fs).
  { unfold chunks in Hfr. rewrite fragments_app, fragments_cons, Hrest, app_nil_r in Hfr.
    by rewrite fragments_app, fragments_cons, app_nil_r. }
  assert (Hinit : call_state idx [] st0) by (unfold st0, initial; by destruct (nonempty reqModel), chunks as [|[? ?] ?]).
  pose proof (chunks_calls idx (pre ++ [(t, c)]) [] st0) as Hcall. cbn [app] in Hcall. rewrite Hseen in Hcall.
  specialize (Hcall Hop Hinit). rewrite chunks_app, (proj2 (then_events _ _ _)) in Hcall. cbn [chunks_step] in Hcall.
  rewrite (proj2 (then_events _ _ _)) in Hcall. cbn [fst snd skip] in Hcall. unfold skip in Hcall. cbn [fst] in Hcall.
  unfold chunks. rewrite chunks_app, (proj1 (then_events _ _ _)). cbn [chunks_step]. rewrite (proj1 (then_events _ _ _)). cbn [fst snd].
  set (st := (run_chunks pre st0).1) in *.
  rewrite (trailers_silent out_of_range rest), app_nil_r by (done || apply (chunk_basic out_of_range t c st)).
  destruct (arguments_sent st p t c idx f fs Hp Hc Hv Hcall) as (i & p' & Hin & (es' & Ees & E') & Ho).
  exists i. split; [|by rewrite inputs_app, Hpre, Hin].
  destruct (started_before _ _ ((run_chunks pre st0).2 ++ es') i _ (eq_trans (accepts_after _ _ _ _ E) E') Ho) as [H1|H1].
  - cbn in H1. by rewrite lookup_empty in H1.
  - rewrite Ees. rewrite app_assoc. apply elem_of_app. by left.
Qed.

(** *** Fragments of a chunk *)

(** A chunk the upstream split over two events is translated as if it had come
    whole: the first part is held without a word, and the second has the effect of
    the whole, on the session and on the client. Neither part may have blanks at
    the cut, since each is trimmed. *)
Theorem split_chunk_is_rejoined key t1 t2 a b s :
  key ≠ [] → pendingJSON s !! key = None →
  trim_space a ≠ [] → trim_space b ≠ [] → trim_space (a ++ b) ≠ [] →
  line_data a = Some a → line_data b = Some b → line_data (a ++ b) = Some (a ++ b) →
  decode_line a = None → is_truncated a = true → zlen a < maxPendingJSON →
  let session := TranslateOpenAIToClaudeStreamSession out_of_range is_truncated in
  (session t1 key a s).2 = Silent ∧
  (is_Some (decode_line (a ++ b)) → session t2 key b (session t1 key a s).1 = session t2 key (a ++ b) s).
Proof.
  cbv zeta. intros Hk Hp Ha Hb Hab La Lb Lab Da Ta Sa. assert (Hn : nonempty key = true) by (by destruct key).
  assert (E : session t1 key a s = (with_pending key (a, now t1) s, Silent)).
  { unfold TranslateOpenAIToClaudeStreamSession. rewrite bool_decide_eq_false_2, La, Hn, Hp, Da, Ta by done.
    by rewrite (proj2 (Z.ltb_lt _ _)). }
  rewrite E. split; [done|]. cbn [fst]. intros [chunk Dc]. unfold TranslateOpenAIToClaudeStreamSession.
  rewrite !bool_decide_eq_false_2, Lb, Lab, Hn, Hp by done.
  assert (Ep : pendingJSON (with_pending key (a, now t1) s) !! key = Some (a, now t1)) by apply lookup_insert_eq.
  rewrite Ep, Dc. f_equal. unfold without_pending, with_pending. cbn. destruct s as [sts pend]. cbn in *.
  f_equal. by rewrite delete_insert_eq, delete_id.
Qed.

End Answer.

Module Sample.

Import StreamProtocol.Sample.

#[local] Existing Instance ascii_case.
#[local] Existing Instance json_codec.

(** A chunk cut at a blank loses it. *)
Definition whole : string := "{~choices~:[{~delta~:{~content~:~hello world~}}]}".
Example blank_at_the_cut :
  let feed lines := concat (map written (run_lines id truncated key lines empty_store).2) in
  text_of (feed [line_of 10 whole]) = B "hello world" ∧
  text_of (feed [line_of 10 "{~choices~:[{~delta~:{~content~:~hello "; line_of 20 "world~}}]}"]) = B "helloworld".
Proof. by vm_compute. Qed.

Lemma kept_answer_witness : text_of (events the_chunks) = B "hello " ∧
  ∃ i, inputs_of i (events the_chunks) = [js "{~command~:~ls~}"].
Proof.
  destruct (stream_keeps_the_answer id (at_time 0) [] unfinished_chunks (at_time 40) (chunk_of ends_call) [step_of 50 trailer]
    ltac:(repeat constructor; by vm_compute) ltac:(by vm_compute) (λ l, reflexivity l) ltac:(repeat constructor; by vm_compute)) as (Ht & _ & Hi).
  split; [by vm_compute|]. destruct (Hi 0 _ _ eq_refl eq_refl) as (i & _ & Ei). exists i.
  etransitivity; [exact Ei|by vm_compute].
Defined.

Lemma split_chunk_witness : ∃ s,
  TranslateOpenAIToClaudeStreamSession id truncated (at_time 20) key (js "o~}}]}") s =
  TranslateOpenAIToClaudeStreamSession id truncated (at_time 20) key (js "{~choices~:[{~delta~:{~content~:~hello~}}]}") empty_store.
Proof.
  exists (TranslateOpenAIToClaudeStreamSession id truncated (at_time 10) key (js "{~choices~:[{~delta~:{~content~:~hell") empty_store).1.
  refine (proj2 (split_chunk_is_rejoined id truncated key (at_time 10) (at_time 20) (js "{~choices~:[{~delta~:{~content~:~hell") (js "o~}}]}")
    empty_store _ _ _ _ _ _ _ _ _ _ _) _); try (by vm_compute). vm_compute. by eexists.
Defined.

End Sample.
