(* ===== verification/ClaudeAnswer.v ===== *)
(** * From Claude answers to OpenAI answers, and back
    ([internal/translator/claude_response.go]; [TranslateOpenAIToClaude] and
    [UnwrapClineEnvelope] of [response.go])

    The stream of a Claude upstream is rewritten event by event; a whole answer is
    rewritten in either direction. [raw_text] is the text of a JSON value the
    decoder kept raw. *)

From stdpp Require Import gmap.
From S2P Require Import Prelude GoRegexp Json GoText ErrorClassify Capabilities ClaudeBody ToolArgs Usage ClaudeStream.

(** ** The stream *)

Record ClaudeStreamToolCall := { Index : Z; CallID : bytes; CallName : bytes }.

Record ClaudeToOpenAIStreamState := {
  MessageID : bytes; StreamModel : bytes; Created : Z; RoleSent : bool; FinishReasonSent : bool;
  StreamFinishReason : bytes; NextToolCallIndex : Z; StreamToolCalls : gmap Z ClaudeStreamToolCall;
  StreamUsage : option OpenAIUsage
}.

Definition modelUnknown : bytes := B "unknown".

(** What is written: a chunk with the state it is stamped with, or the
    terminator. *)
Inductive piece :=
  | Chunk (stamp : ClaudeToOpenAIStreamState) (delta : object) (finish : option bytes) (usage : option OpenAIUsage)
  | Terminator.

Definition usage_json (u : OpenAIUsage) : json :=
  JObj ([member "prompt_tokens" (jint (PromptTokens u)); member "completion_tokens" (jint (CompletionTokens u));
         member "cached_tokens" (jint (CachedTokens u)); member "cache_creation_input_tokens" (jint (CacheCreationInputTokens u))] ++
        match PromptTokensDetails u with
        | Some c => [member "prompt_tokens_details" (JObj [member "cached_tokens" (jint c)])] | None => [] end ++
        match CompletionTokensDetails u with
        | Some r => [member "completion_tokens_details" (JObj [member "reasoning_tokens" (jint r)])] | None => [] end).

Definition opt_string (s : option bytes) : json := match s with Some s => JStr s | None => JNull end.

Definition chunk_json (st : ClaudeToOpenAIStreamState) (delta : object) (finish : option bytes) (usage : option OpenAIUsage) : json :=
  JObj ([member "id" (JStr (MessageID st)); member "object" (text "chat.completion.chunk"); member "created" (jint (Created st));
         member "model" (JStr (StreamModel st));
         member "choices" (JArr [JObj [member "index" (jint 0); member "delta" (JObj delta); member "finish_reason" (opt_string finish)]])] ++
        match usage with Some u => [member "usage" (usage_json u)] | None => [] end).

(** Assignments to the fields. *)
Definition set_identity (id model : bytes) (usage : option OpenAIUsage) (st : ClaudeToOpenAIStreamState) : ClaudeToOpenAIStreamState :=
  {| MessageID := id; StreamModel := model; Created := Created st; RoleSent := true; FinishReasonSent := FinishReasonSent st;
     StreamFinishReason := StreamFinishReason st; NextToolCallIndex := NextToolCallIndex st; StreamToolCalls := StreamToolCalls st;
     StreamUsage := usage |}.

Definition set_created (c : Z) (st : ClaudeToOpenAIStreamState) : ClaudeToOpenAIStreamState :=
  {| MessageID := MessageID st; StreamModel := StreamModel st; Created := c; RoleSent := RoleSent st;
     FinishReasonSent := FinishReasonSent st; StreamFinishReason := StreamFinishReason st;
     NextToolCallIndex := NextToolCallIndex st; StreamToolCalls := StreamToolCalls st; StreamUsage := StreamUsage st |}.

Definition add_call (block : Z) (call : ClaudeStreamToolCall) (st : ClaudeToOpenAIStreamState) : ClaudeToOpenAIStreamState :=
  {| MessageID := MessageID st; StreamModel := StreamModel st; Created := Created st; RoleSent := RoleSent st;
     FinishReasonSent := FinishReasonSent st; StreamFinishReason := StreamFinishReason st;
     NextToolCallIndex := NextToolCallIndex st + 1; StreamToolCalls := <[block := call]> (StreamToolCalls st);
     StreamUsage := StreamUsage st |}.

Definition set_ending (sent : bool) (reason : bytes) (usage : option OpenAIUsage) (st : ClaudeToOpenAIStreamState) : ClaudeToOpenAIStreamState :=
  {| MessageID := MessageID st; StreamModel := StreamModel st; Created := Created st; RoleSent := RoleSent st;
     FinishReasonSent := sent; StreamFinishReason := reason; NextToolCallIndex := NextToolCallIndex st;
     StreamToolCalls := StreamToolCalls st; StreamUsage := usage |}.

Definition with_completion (n : Z) (u : OpenAIUsage) : OpenAIUsage :=
  {| PromptTokens := PromptTokens u; CompletionTokens := n; CachedTokens := CachedTokens u;
     CacheCreationInputTokens := CacheCreationInputTokens u; PromptTokensDetails := PromptTokensDetails u;
     CompletionTokensDetails := CompletionTokensDetails u; PromptCacheIncluded := PromptCacheIncluded u |}.

(** The reason an OpenAI client gets for a Claude stop reason. *)
Definition openai_finish (stopReason : bytes) : bytes :=
  if bool_decide (stopReason = B "tool_use") then B "tool_calls"
  else if bool_decide (stopReason = B "max_tokens") then B "length"
  else if bool_decide (stopReason = B "refusal") then B "content_filter"
  else B "stop".

Definition tool_delta (n : Z) (id : bytes) (fields : object) (function : object) : object :=
  [member "tool_calls" (JArr [JObj ([member "index" (jint n); member "id" (JStr id)] ++ fields ++ [member "function" (JObj function)])])].

(** [m[k].(map[string]any)]. *)
Definition map_member (k : string) (m : object) : option object := as_obj (obj_get (B k) m).

Section Translate.
Context `{JsonCodec}.
Variable out_of_range : Z → Z.

Definition usageInt (v : json) : Z := match v with JNum l => number_int out_of_range l | _ => 0 end.

Definition on_message_start (nanos : Z) (raw : object) (st : ClaudeToOpenAIStreamState) : ClaudeToOpenAIStreamState * list piece :=
  let msg := default [] (map_member "message" raw) in
  let id := if nonempty (stringOf msg "id") then B "chatcmpl-" ++ stringOf msg "id" else MessageID st in
  let model := if nonempty (stringOf msg "model") then stringOf msg "model" else StreamModel st in
  let usage :=
    match map_member "usage" msg with
    | Some u => Some (NormalizeClaudeUsage
        {| PromptTokens := usageInt (obj_get (B "input_tokens") u); CompletionTokens := 0;
           CachedTokens := CachedTokensFromJSON out_of_range (JObj u);
           CacheCreationInputTokens := usageInt (obj_get (B "cache_creation_input_tokens") u);
           PromptTokensDetails := None; CompletionTokensDetails := None; PromptCacheIncluded := false |})
    | None => StreamUsage st
    end in
  let id := if nonempty id then id else B "chatcmpl-" ++ itoa nanos in
  let model := if nonempty model then model else modelUnknown in
  let st' := set_identity id model usage st in
  (st', if RoleSent st then [] else [Chunk st' [member "role" (text "assistant")] None None]).

Definition on_block_start (raw : object) (st : ClaudeToOpenAIStreamState) : ClaudeToOpenAIStreamState * list piece :=
  match map_member "content_block" raw with
  | Some block =>
      if bool_decide (stringOf block "type" = B "tool_use") then
        let call := {| Index := NextToolCallIndex st; CallID := stringOf block "id"; CallName := stringOf block "name" |} in
        let st' := add_call (usageInt (obj_get (B "index") raw)) call st in
        (st', [Chunk st' (tool_delta (Index call) (CallID call) [member "type" (text "function")]
                 [member "name" (JStr (CallName call)); member "arguments" (text "")]) None None])
      else (st, [])
  | None => (st, [])
  end.

Definition on_block_delta (raw : object) (st : ClaudeToOpenAIStreamState) : list piece :=
  match map_member "delta" raw with
  | Some delta =>
      let t := stringOf delta "type" in
      if bool_decide (t = B "text_delta") then
        if nonempty (stringOf delta "text") then [Chunk st [member "content" (JStr (stringOf delta "text"))] None None] else []
      else if bool_decide (t = B "thinking_delta") then
        if nonempty (stringOf delta "thinking")
        then [Chunk st [member "reasoning_content" (JStr (stringOf delta "thinking"))] None None] else []
      else if bool_decide (t = B "input_json_delta") then
        match obj_get (B "partial_json") delta, StreamToolCalls st !! usageInt (obj_get (B "index") raw) with
        | JStr partial, Some tc => [Chunk st (tool_delta (Index tc) (CallID tc) [] [member "arguments" (JStr partial)]) None None]
        | _, _ => []
        end
      else []
  | None => []
  end.

(** The explanation of a refusal is text the client sees. *)
Definition refusal_text (delta : object) : bytes :=
  match map_member "stop_details" delta with Some d => stringOf d "explanation" | None => [] end.

Definition on_message_delta (raw : object) (st : ClaudeToOpenAIStreamState) : ClaudeToOpenAIStreamState * list piece :=
  let usage :=
    match map_member "usage" raw with
    | Some u => Some (with_completion (usageInt (obj_get (B "output_tokens") u)) (default no_usage (StreamUsage st)))
    | None => StreamUsage st
    end in
  let st := set_ending (FinishReasonSent st) (StreamFinishReason st) usage st in
  match map_member "delta" raw with
  | Some delta =>
      let stopReason := stringOf delta "stop_reason" in
      if nonempty stopReason then
        let finish := openai_finish stopReason in
        let explained := if bool_decide (stopReason = B "refusal") && nonempty (refusal_text delta)
                         then [Chunk st [member "content" (JStr (refusal_text delta))] None None] else [] in
        let st' := set_ending true finish usage st in
        (st', explained ++ [Chunk st' [] (Some finish) usage])
      else (st, [])
  | None => (st, [])
  end.

Definition on_message_stop (st : ClaudeToOpenAIStreamState) : ClaudeToOpenAIStreamState * list piece :=
  if FinishReasonSent st then (st, [Terminator])
  else
    let finish := if nonempty (StreamFinishReason st) then StreamFinishReason st
                  else if bool_decide (StreamToolCalls st = ∅) then B "stop" else B "tool_calls" in
    let st' := set_ending true (StreamFinishReason st) (StreamUsage st) st in
    (st', [Chunk st' [] (Some finish) (StreamUsage st); Terminator]).

(** One decoded event. *)
Definition translate_event (seconds nanos : Z) (raw : object) (st : ClaudeToOpenAIStreamState) : ClaudeToOpenAIStreamState * list piece :=
  let eventType := stringOf raw "type" in
  if bool_decide (eventType = []) || bool_decide (eventType = B "ping") then (st, [])
  else
    let st := if Created st =? 0 then set_created seconds st else st in
    if bool_decide (eventType = B "message_start") then on_message_start nanos raw st
    else if bool_decide (eventType = B "content_block_start") then on_block_start raw st
    else if bool_decide (eventType = B "content_block_delta") then (st, on_block_delta raw st)
    else if bool_decide (eventType = B "message_delta") then on_message_delta raw st
    else if bool_decide (eventType = B "message_stop") then on_message_stop st
    else (st, []).

Definition render_piece (p : piece) : bytes :=
  match p with
  | Chunk st delta finish usage => B "data: " ++ marshal (chunk_json st delta finish usage) ++ [ch_lf; ch_lf]
  | Terminator => done_line
  end.

Definition TranslateClaudeChunkToOpenAI (seconds nanos : Z) (payload : bytes) (st : ClaudeToOpenAIStreamState) : ClaudeToOpenAIStreamState * bytes :=
  let trimmed := trim_space payload in
  if bool_decide (trimmed = []) then (st, [])
  else match unmarshal trimmed ≫= as_map with
       | Some raw => let '(st, ps) := translate_event seconds nanos raw st in (st, concat (map render_piece ps))
       | None => (st, [])
       end.

(** ** Whole answers *)

(** The text of a value that was kept raw. *)
Variable raw_text : json → bytes.

Record answer_block := { ab_type : bytes; ab_text : bytes; ab_thinking : bytes; ab_id : bytes; ab_name : bytes; ab_input : option json }.

Definition decode_answer_block (m : object) : option answer_block :=
  t ← str_field (B "type") m; x ← str_field (B "text") m; th ← str_field (B "thinking") m;
  i ← str_field (B "id") m; n ← str_field (B "name") m;
  Some {| ab_type := t; ab_text := x; ab_thinking := th; ab_id := i; ab_name := n; ab_input := raw_field "input" m |}.

Record claude_answer := {
  ca_id : bytes; ca_model : bytes; ca_content : list answer_block; ca_stop : bytes; ca_usage : OpenAIUsage
}.

(** The counts of [usage], before they are normalized. *)
Definition decode_answer_usage (m : object) : option OpenAIUsage :=
  i ← int_field (B "input_tokens") m; o ← int_field (B "output_tokens") m;
  r ← int_field (B "cache_read_input_tokens") m; c ← int_field (B "cache_creation_input_tokens") m;
  Some {| PromptTokens := i; CompletionTokens := o; CachedTokens := r; CacheCreationInputTokens := c;
          PromptTokensDetails := None; CompletionTokensDetails := None; PromptCacheIncluded := false |}.

Definition decode_answer (m : object) : option claude_answer :=
  i ← str_field (B "id") m; _ ← str_field (B "type") m; _ ← str_field (B "role") m; md ← str_field (B "model") m;
  cs ← slice_field decode_answer_block (B "content") m; s ← str_field (B "stop_reason") m;
  um ← obj_field (B "usage") m; u ← decode_answer_usage um;
  Some {| ca_id := i; ca_model := md; ca_content := cs; ca_stop := s; ca_usage := u |}.

Definition blocks_of_type (t : string) (l : list answer_block) : list answer_block := filter (λ b, ab_type b = B t) l.

Definition input_text (v : option json) : bytes :=
  match v with Some j => if nonempty (raw_text j) then raw_text j else B "{}" | None => B "{}" end.

Definition call_json (id name args : bytes) : json :=
  JObj [member "id" (JStr id); member "type" (text "function");
        member "function" (JObj [member "name" (JStr name); member "arguments" (JStr args)])].

Definition openai_message (a : claude_answer) : object :=
  let content := concat (map ab_text (blocks_of_type "text" (ca_content a))) in
  let reasoning := concat (map ab_thinking (blocks_of_type "thinking" (ca_content a))) in
  let calls := map (λ b, call_json (ab_id b) (ab_name b) (input_text (ab_input b))) (blocks_of_type "tool_use" (ca_content a)) in
  [member "role" (text "assistant"); member "content" (JStr content)] ++
  (if nonempty reasoning then [member "reasoning_content" (JStr reasoning)] else []) ++
  (match calls with [] => [] | _ => [member "tool_calls" (JArr calls)] end).

Definition openai_answer (seconds : Z) (a : claude_answer) : json :=
  let u := NormalizeClaudeUsage (ca_usage a) in
  JObj [member "id" (JStr (B "chatcmpl-" ++ ca_id a)); member "object" (text "chat.completion"); member "created" (jint seconds);
        member "model" (JStr (ca_model a));
        member "choices" (JArr [JObj [member "index" (jint 0); member "message" (JObj (openai_message a));
          member "finish_reason" (JStr (openai_finish (ca_stop a)))]]);
        member "usage" (JObj [member "prompt_tokens" (jint (PromptTokens u)); member "completion_tokens" (jint (CompletionTokens u));
          member "total_tokens" (jint (int64 (PromptTokens u + CompletionTokens u))); member "cached_tokens" (jint (GetCachedTokens u));
          member "cache_creation_input_tokens" (jint (CacheCreationInputTokens u))])].

Definition TranslateClaudeResponseToOpenAI (seconds : Z) (claudeBody : bytes) : option bytes :=
  j ← unmarshal claudeBody; m ← as_struct j; a ← decode_answer m; Some (marshal (openai_answer seconds a)).

(** *** From OpenAI to Claude *)

Context `{UnicodeCase}.
Variable visit_args : object → object.

Record openai_message_in := { om_content : bytes; om_reasoning_content : bytes; om_reasoning : bytes; om_calls : list OpenAIToolCallStream }.

Definition decode_openai_message (m : object) : option openai_message_in :=
  _ ← str_field (B "role") m; c ← str_field (B "content") m; rc ← str_field (B "reasoning_content") m;
  r ← str_field (B "reasoning") m; tc ← slice_field decode_call (B "tool_calls") m;
  Some {| om_content := c; om_reasoning_content := rc; om_reasoning := r; om_calls := tc |}.

Record openai_choice_in := { oc_message : openai_message_in; oc_finish : option bytes }.

Definition decode_openai_choice (m : object) : option openai_choice_in :=
  _ ← int_field (B "index") m; mm ← obj_field (B "message") m; msg ← decode_openai_message mm;
  f ← str_ptr (B "finish_reason") m; Some {| oc_message := msg; oc_finish := f |}.

Record openai_answer_in := { oa_id : bytes; oa_model : bytes; oa_choices : list openai_choice_in; oa_usage : option OpenAIUsage }.

Definition decode_openai_answer (m : object) : option openai_answer_in :=
  i ← str_field (B "id") m; md ← str_field (B "model") m; cs ← slice_field decode_openai_choice (B "choices") m;
  u ← ptr_field decode_usage (B "usage") m;
  Some {| oa_id := i; oa_model := md; oa_choices := cs; oa_usage := u |}.

(** The block of one call; [None] when its arguments are not JSON, which fails the
    encoding of the whole answer. *)
Definition tool_use_block (tc : OpenAIToolCallStream) : option (list json) :=
  match call_function tc with
  | Some f =>
      let toolName := UncloakToolName (function_name f) in
      if nonempty (function_name f) && nonempty toolName then
        input ← (if nonempty (function_arguments f)
                 then unmarshal (sanitizeToolArgs out_of_range visit_args toolName (function_arguments f)) else Some (JObj []));
        Some [JObj [member "type" (text "tool_use"); member "id" (JStr (call_id tc)); member "name" (JStr toolName); member "input" input]]
      else Some []
  | None => Some []
  end.

Definition content_blocks (msg : openai_message_in) : option (list json) :=
  let reasoning := if nonempty (om_reasoning_content msg) then om_reasoning_content msg else om_reasoning msg in
  calls ← mapM tool_use_block (om_calls msg);
  Some ((if nonempty reasoning then [JObj [member "type" (text "thinking"); member "thinking" (JStr reasoning)]] else []) ++
        (if nonempty (om_content msg) then [JObj [member "type" (text "text"); member "text" (JStr (om_content msg))]] else []) ++
        concat calls).

(** The usage handed to the caller, and the one of the body. *)
Definition answer_usage (u : option OpenAIUsage) : OpenAIUsage :=
  let u := default no_usage u in
  {| PromptTokens := PromptTokens u; CompletionTokens := CompletionTokens u; CachedTokens := GetCachedTokens u;
     CacheCreationInputTokens := CacheCreationInputTokens u; PromptTokensDetails := None;
     CompletionTokensDetails := CompletionTokensDetails u; PromptCacheIncluded := true |}.

Definition claude_members (nanos : Z) (a : openai_answer_in) (c : openai_choice_in) (blocks : list json) : object :=
  [member "id" (JStr (clean_id {| now := nanos; visit := id; arg_order := id |} (oa_id a))); member "type" (text "message");
        member "role" (text "assistant"); member "model" (JStr (clean_model (oa_model a))); member "content" (JArr blocks);
        member "stop_reason" (JStr (claude_stop (default [] (oc_finish c)))); member "stop_sequence" JNull;
        member "usage" (counts_json (final_usage (Some (answer_usage (oa_usage a)))))].
Definition claude_message (nanos : Z) (a : openai_answer_in) (c : openai_choice_in) (blocks : list json) : json :=
  JObj (claude_members nanos a c blocks).

Inductive translation_error := EmptyBody | NotAnAnswer | NoChoices | NotEncodable.

Definition read_answer (openaiResp : bytes) : option openai_answer_in :=
  j ← unmarshal openaiResp; m ← as_struct j; decode_openai_answer m.

Definition TranslateOpenAIToClaude (nanos : Z) (openaiResp : bytes) : translation_error + (bytes * OpenAIUsage) :=
  if bool_decide (trim_space openaiResp = []) then inl EmptyBody
  else match read_answer openaiResp with
       | None => inl NotAnAnswer
       | Some a =>
           match oa_choices a with
           | [] => inl NoChoices
           | c :: _ =>
               match content_blocks (oc_message c) with
               | None => inl NotEncodable
               | Some blocks => inr (marshal (claude_message nanos a c blocks), answer_usage (oa_usage a))
               end
           end
       end.

(** [UnwrapClineEnvelope]: the text of [data] when it is an object and the envelope
    says success. *)
Definition UnwrapClineEnvelope (body : bytes) : bytes :=
  match j ← unmarshal body; m ← as_struct j; s ← bool_field (B "success") m; Some (s, raw_field "data" m) with
  | Some (true, Some (JObj d)) => raw_text (JObj d)
  | _ => body
  end.

End Translate.
