(* ===== verification/JsonLaws.v ===== *)
(** * What the JSON codec promises ([encoding/json/v2])

    The documented behaviour of the codec that the components rely on when they
    read back what the program encoded: a value of valid UTF-8 texts and distinct
    names comes back with the same shape, the same texts and the same small
    integers, while other numbers may be spelled anew ([1.50] as [1.5]); what the
    decoder accepts is of that kind. The file also holds how the readers of decoded
    values see a value whose numbers were spelled anew, and a codec that keeps
    these promises, for the witnesses. *)

From stdpp Require Import pretty.
From S2P Require Import Prelude GoRegexp Json GoText Capabilities ToolArgs ClaudeStream ClaudeAnswer.

(** ** Values that can be encoded *)

Definition number_literal (lit : bytes) : bool :=
  match parse_number lit with Some (l, []) => bool_decide (l = lit) | _ => false end.

Fixpoint well_formed (j : json) : bool :=
  match j with
  | JNull | JBool _ => true
  | JNum lit => number_literal lit
  | JStr s => valid_utf8 s
  | JArr l => forallb well_formed l
  | JObj m => bool_decide (NoDup m.*1) && forallb (λ kv, valid_utf8 kv.1 && well_formed kv.2) m
  end.

(** The numbers of a value written by [spell]. *)
Fixpoint respell (spell : bytes → bytes) (j : json) : json :=
  match j with
  | JNum lit => JNum (spell lit)
  | JArr l => JArr (map (respell spell) l)
  | JObj m => JObj (map (λ kv, (kv.1, respell spell kv.2)) m)
  | _ => j
  end.
Definition respell_members (spell : bytes → bytes) (m : object) : object := map (λ kv, (kv.1, respell spell kv.2)) m.

(** ** The promises *)

Section Laws.
Context `{JsonCodec}.

Record sound_codec (spell : bytes → bytes) : Prop := {
  spelled_int : ∀ n, - 2 ^ 53 < n < 2 ^ 53 → spell (itoa n) = itoa n;
  decode_encode : ∀ j, well_formed j = true → unmarshal (marshal j) = Some (respell spell j);
  decoded_well_formed : ∀ b j, unmarshal b = Some j → well_formed j = true;
  object_text : ∀ m, well_formed (JObj m) = true → ∃ t, marshal (JObj m) = "{"%char :: t;
  trimmed_text : ∀ m, well_formed (JObj m) = true → trim_space (marshal (JObj m)) = marshal (JObj m)
}.

Lemma encoded_not_blank spell m : sound_codec spell → well_formed (JObj m) = true → trim_space (marshal (JObj m)) ≠ [].
Proof. intros Hc Hm. rewrite (trimmed_text _ Hc m Hm). by destruct (object_text _ Hc m Hm) as [t ->]. Qed.

End Laws.

(** ** Readers of values spelled anew *)

Section Readers.
Variable spell : bytes → bytes.
Abbreviation again := (respell spell).
Abbreviation members_again := (respell_members spell).

Lemma respell_obj m : again (JObj m) = JObj (members_again m).
Proof. done. Qed.

Lemma respell_names m : (members_again m).*1 = m.*1.
Proof. unfold respell_members. change (map ?f ?l) with (f <$> l). by rewrite <- list_fmap_compose. Qed.

Lemma respell_get k m : obj_get k (members_again m) = again (obj_get k m).
Proof. induction m as [|[k' v] m IH]; [done|]. cbn [respell_members map obj_get fst snd]. by case_bool_decide. Qed.

Lemma respell_raw k m : raw_field k (members_again m) = again <$> raw_field k m.
Proof. unfold raw_field. rewrite respell_names, respell_get. by case_bool_decide. Qed.

Lemma respell_str k m : str_field k (members_again m) = str_field k m.
Proof. unfold str_field. rewrite respell_get. by destruct (obj_get k m). Qed.

Lemma respell_objf k m : obj_field k (members_again m) = members_again <$> obj_field k m.
Proof. unfold obj_field. rewrite respell_get. by destruct (obj_get k m). Qed.

Lemma respell_struct j : as_struct (again j) = members_again <$> as_struct j.
Proof. by destruct j. Qed.

Lemma respell_text m k : stringOf (members_again m) k = stringOf m k.
Proof. unfold stringOf. rewrite respell_get. by destruct (obj_get _ m). Qed.

Lemma respell_app m m' : members_again (m ++ m') = members_again m ++ members_again m'.
Proof. apply map_app. Qed.

End Readers.

(** ** Values that are well formed *)

(** *** Numbers *)

Lemma pretty_go_head x s : (0 < x)%N → ∃ c t, B (pretty_N_go x s) = c :: t ∧ c ≠ "0"%char.
Proof.
  revert s. induction (N.lt_wf_0 x) as [x _ IH]. intros s Hx. rewrite pretty_N_go_step by done.
  assert (Hlt : (x `div` 10 < x)%N) by (apply N.div_lt; lia). destruct (decide (x `div` 10 = 0)%N) as [E|E].
  - rewrite E, pretty_N_go_0. eexists _, _. split; [reflexivity|]. intros Hc.
    assert (Hs : (x < 10)%N) by (apply N.div_small_iff in E; lia). rewrite N.mod_small in Hc by done.
    destruct (digit_char_val x Hs) as [Hv _]. rewrite Hc in Hv. change (digit_val "0"%char) with 0 in Hv. lia.
  - apply IH; [done|by apply N.neq_0_lt_0].
Qed.

Lemma span_digits_all s : Forall (λ c, is_digit c = true) s → span_digits s = (s, []).
Proof. intros Hs. unfold span_digits. rewrite trim_left_all by done. cbn [length]. by rewrite Nat.sub_0_r, firstn_all. Qed.

Lemma digits_literal (c : ascii) t : Forall (λ c, is_digit c = true) (c :: t) → c ≠ "0"%char →
  parse_number (c :: t) = Some (c :: t, []) ∧ parse_number ("-"%char :: c :: t) = Some ("-"%char :: c :: t, []).
Proof.
  intros Hd Hc. assert (Hm : bool_decide (c = "-"%char) = false) by (apply Forall_cons in Hd as [? _]; by apply digit_not).
  unfold parse_number. rewrite Hm. change (bool_decide ("-"%char = "-"%char)) with true. cbv beta iota.
  rewrite (span_digits_all (c :: t)) by done. rewrite (bool_decide_eq_false_2 (c = "0"%char)) by done. cbn. by rewrite !app_nil_r.
Qed.

Lemma itoa_literal n : number_literal (itoa n) = true.
Proof.
  assert (Hpos : ∀ p, ∃ c t, itoa (Z.pos p) = c :: t ∧ Forall (λ c, is_digit c = true) (c :: t) ∧ c ≠ "0"%char).
  { intros p. destruct (pretty_go_head (N.pos p) "") as (c & t & E & Hc); [done|]. exists c, t.
    assert (E' : itoa (Z.pos p) = c :: t) by (rewrite <- E; done). split; [done|]. split; [|done].
    rewrite <- E'. by destruct (itoa_digits (Z.pos p)) as (_ & ? & _). }
  unfold number_literal. destruct n as [|p|p]; [done| |].
  - destruct (Hpos p) as (c & t & -> & Hd & Hc). destruct (digits_literal c t Hd Hc) as [-> _]. by apply bool_decide_eq_true.
  - change (itoa (Z.neg p)) with ("-"%char :: itoa (Z.pos p)). destruct (Hpos p) as (c & t & -> & Hd & Hc).
    destruct (digits_literal c t Hd Hc) as [_ ->]. by apply bool_decide_eq_true.
Qed.

(** *** Texts *)

Definition good_rune (s : bytes) : Prop := ¬ (rune_width s = 1%nat ∧ rune_value s = rune_error).

Lemma rune_width_bound c s : (1 <= rune_width (c :: s) <= S (length s))%nat.
Proof.
  unfold rune_width. cbv zeta. repeat case_match; cbn [length]; lia.
Qed.

(** The first rune of a valid text is not changed by what follows the text. *)
Lemma good_rune_app c s t : good_rune (c :: s) → rune_width (c :: s ++ t) = rune_width (c :: s) ∧ good_rune (c :: s ++ t).
Proof.
  unfold good_rune. intros Hg. assert (Hlow : rune_width (c :: s) = 1%nat → zb c < 128).
  { intros Hw. destruct (Z.ltb_spec (zb c) 128); [lia|]. exfalso. apply Hg. split; [done|]. unfold rune_value. rewrite Hw. by zcases. }
  assert (Hw : rune_width (c :: s ++ t) = rune_width (c :: s)).
  { revert Hlow. unfold rune_width. cbv zeta. clear Hg. destruct (Z.ltb_spec (zb c) 194); [done|].
    destruct s as [|c1 [|c2 [|c3 s]]]; cbn [app]; repeat (case_match; try done); intros Hl; try (specialize (Hl eq_refl); lia). }
  split; [done|]. rewrite Hw. intros [H1 H2]. apply Hlow in H1. revert H2. unfold rune_value. rewrite Hw.
  destruct (rune_width (c :: s)) as [|[|w]] eqn:E; [|zcases; unfold rune_error; lia|].
  - zcases. unfold rune_error. lia.
  - assert (rune_width (c :: s) = 1%nat); [|lia]. unfold rune_width. by zcases.
Qed.

Lemma valid_from_enough s : ∀ n m, (length s <= n)%nat → (length s <= m)%nat → valid_utf8_from n s = valid_utf8_from m s.
Proof.
  induction s as [s IH] using (induction_ltof1 _ (@length ascii)). unfold ltof in IH. intros n m Hn Hm.
  destruct s as [|c s]; [by destruct n, m|]. destruct n as [|n], m as [|m]; cbn [length] in *; try lia. cbn [valid_utf8_from].
  f_equal. pose proof (rune_width_bound c s). apply IH; rewrite length_drop; cbn [length]; lia.
Qed.

Lemma valid_cons c s : valid_utf8 (c :: s) = true ↔ good_rune (c :: s) ∧ valid_utf8 (drop (rune_width (c :: s)) (c :: s)) = true.
Proof.
  unfold valid_utf8 at 1. cbn [length valid_utf8_from]. rewrite andb_true_iff, negb_true_iff, andb_false_iff, Nat.eqb_neq, Z.eqb_neq.
  pose proof (rune_width_bound c s). unfold valid_utf8.
  rewrite (valid_from_enough _ (length s) (length (drop (rune_width (c :: s)) (c :: s)))) by (rewrite ?length_drop; cbn [length]; lia).
  unfold good_rune. destruct (decide (rune_width (c :: s) = 1%nat)), (decide (rune_value (c :: s) = rune_error)); naive_solver.
Qed.

Lemma valid_app s t : valid_utf8 s = true → valid_utf8 t = true → valid_utf8 (s ++ t) = true.
Proof.
  induction s as [s IH] using (induction_ltof1 _ (@length ascii)). unfold ltof in IH. intros Hs Ht.
  destruct s as [|c s]; [done|]. apply valid_cons in Hs as [Hg Hs]. cbn [app]. apply valid_cons.
  destruct (good_rune_app c s t Hg) as [Hw Hg']. split; [done|]. rewrite Hw. pose proof (rune_width_bound c s) as Hb.
  rewrite app_comm_cons, drop_app_le by (cbn [length]; lia). apply IH; [|done|done]. rewrite length_drop. cbn [length]. lia.
Qed.

Lemma valid_concat l : Forall (λ s, valid_utf8 s = true) l → valid_utf8 (concat l) = true.
Proof. induction 1 as [|s l Hs _ IH]; [done|]. cbn [concat]. by apply valid_app. Qed.

(** *** Members *)

Lemma wf_members m : well_formed (JObj m) = true ↔ NoDup m.*1 ∧ ∀ k v, (k, v) ∈ m → valid_utf8 k = true ∧ well_formed v = true.
Proof.
  cbn [well_formed]. rewrite andb_true_iff, bool_decide_eq_true, forallb_forall. apply and_iff_compat_l. split.
  - intros Hm k v Hin. apply list_elem_of_In, Hm, andb_true_iff in Hin. done.
  - intros Hm [k v] Hin. apply list_elem_of_In, Hm in Hin. by apply andb_true_iff.
Qed.

(** On an object given by its members, with distinct literal names. *)
Ltac by_members :=
  apply wf_members; split; [apply (bool_decide_unpack _); by vm_compute|];
  intros ? ? Hin; repeat (apply elem_of_cons in Hin as [[= -> ->]|Hin]; [split; [done|try done; try apply itoa_literal]|]); try (by apply elem_of_nil in Hin).

Lemma wf_items l : well_formed (JArr l) = true ↔ Forall (λ j, well_formed j = true) l.
Proof. cbn [well_formed]. by rewrite forallb_forall, Forall_forall; setoid_rewrite list_elem_of_In. Qed.

Lemma wf_get k m : well_formed (JObj m) = true → well_formed (obj_get k m) = true.
Proof.
  intros [_ Hm]%wf_members. induction m as [|[k' v] m IH]; [done|]. cbn [obj_get]. case_bool_decide.
  - apply (Hm k' v). left.
  - apply IH. intros k2 v2 Hin. apply Hm. by right.
Qed.

Lemma wf_text m k : well_formed (JObj m) = true → valid_utf8 (stringOf m k) = true.
Proof. intros Hm. unfold stringOf. pose proof (wf_get (B k) m Hm) as Hg. by destruct (obj_get (B k) m). Qed.

Lemma wf_obj j : well_formed j = true → well_formed (JObj (default [] (as_obj j))) = true.
Proof. by destruct j. Qed.

Lemma wf_nil : well_formed (JObj []) = true.
Proof. done. Qed.

Lemma wf_member m k : well_formed (JObj m) = true → well_formed (JObj (default [] (map_member k m))) = true.
Proof. intros Hm. apply wf_obj. by apply wf_get. Qed.

Lemma wf_jint n : well_formed (jint n) = true.
Proof. apply itoa_literal. Qed.

(** ** A codec that keeps the promises *)

Module Checked.

Definition read (s : bytes) : option json := j ← Strokes.read s; if well_formed j then Some j else None.

Definition codec : JsonCodec := {| unmarshal := read; marshal := Strokes.encode; unmarshal_nil := eq_refl |}.

Lemma respell_same j : respell id j = j.
Proof.
  induction j as [| | | |l IH|m IH] using json_nested_ind; cbn [respell]; try done; f_equal.
  - induction IH as [|j l E _ IH]; [done|]. cbn [map]. by rewrite E, IH.
  - induction IH as [|[k v] m E _ IH]; [done|]. cbn [map fst snd] in *. by rewrite E, IH.
Qed.

Lemma read_checked j : well_formed j = true → read (Strokes.encode j) = Some j.
Proof. intros Hj. unfold read. rewrite Strokes.read_encode. cbn [mbind option_bind]. by rewrite Hj. Qed.

#[local] Existing Instance codec.

Lemma checked_sound : sound_codec id.
Proof.
  split; [done| | |by intros m _; eexists|].
  - intros j Hj. rewrite respell_same. by apply read_checked.
  - intros b j E. change (read b = Some j) in E. unfold read in E. destruct (Strokes.read b) as [j'|]; [|done]. cbn [mbind option_bind] in E.
    destruct (well_formed j') eqn:Ej; [|done]. by injection E as <-.
  - intros m _. cbn [marshal codec Strokes.encode].
    change (B "}") with ["}"%char]. rewrite app_comm_cons. apply (trim_space_fixed "{"%char _ "}"%char); apply (bool_decide_unpack _); by vm_compute.
Qed.

End Checked.
