(* ===== verification/StreamBridge.v ===== *)
(** * From OpenAI to Claude to OpenAI

    A well-formed Claude stream reaches an OpenAI client whole: the same text,
    reasoning and tool arguments, one finish reason and the terminator last; so
    does an OpenAI stream that was translated to Claude's format on the way. *)

From stdpp Require Import gmap pretty.
From S2P Require Import Prelude GoRegexp Json GoText ErrorClassify Capabilities ClaudeBody ToolArgs Usage ClaudeStream StreamProtocol StreamAnswer ClaudeAnswer.

(** ** The shape of a complete stream *)

Definition body_event (e : event) : bool := match e with MessageDelta _ _ | MessageStop => false | _ => true end.

Lemma quiet_after p es p' : p_started p = true → p_open p = ∅ → p_phase p = 2%nat → accepts p es = Some p' → es = [].
Proof.
  intros Hs Ho Hp. destruct es as [|e es]; [done|]. cbn. destruct e; cbn; rewrite ?Hs, ?Ho, ?Hp; cbn;
    rewrite ?andb_false_r, ?lookup_empty; done.
Qed.

Lemma ends_after p es p' : p_started p = true → p_open p = ∅ → p_phase p = 1%nat → accepts p es = Some p' → p_phase p' = 2%nat →
  es = [MessageStop].
Proof.
  intros Hs Ho Hp Ha Hp'. destruct es as [|e es]; [injection Ha as <-; congruence|].
  cbn in Ha. destruct e; cbn in Ha; rewrite ?Hs, ?Ho, ?Hp in Ha; cbn in Ha; rewrite ?andb_false_r, ?lookup_empty in Ha; try done.
  by apply quiet_after in Ha as ->.
Qed.

Lemma complete_shape p es p' : accepts p es = Some p' → p_phase p = 0%nat → p_phase p' = 2%nat →
  ∃ es0 r u p0, es = es0 ++ [MessageDelta r u; MessageStop] ∧ Forall (λ e, body_event e = true) es0 ∧
    accepts p es0 = Some p0 ∧ p_next p0 = p_next p'.
Proof.
  revert p. induction es as [|e es IH]; intros p Ha Hp Hp'; cbn in Ha; [injection Ha as <-; congruence|].
  destruct (accept p e) as [p1|] eqn:E; [|done]. destruct (body_event e) eqn:Eb.
  - assert (Hp1 : p_phase p1 = 0%nat) by (destruct e; cbn in E; repeat case_match; simplify_eq; done).
    destruct (IH p1 Ha Hp1 Hp') as (es0 & r & u & p0 & -> & Hf & Ha0 & Hn). exists (e :: es0), r, u, p0.
    split; [done|]. split; [by constructor|]. cbn. by rewrite E.
  - destruct e as [| | | |r u|]; try done; cbn in E; [|by rewrite Hp in E].
    destruct (p_started p && (p_phase p =? 0)%nat && bool_decide (p_open p = ∅)) eqn:Ec; [|done]. injection E as <-.
    set (p1 := Build_proto _ _ _ _) in Ha. assert (es = [MessageStop]) as -> by by apply (ends_after p1 es p'). exists [], r, u, p. split; [done|]. split; [done|].
    split; [done|]. subst p1. cbn in Ha. by injection Ha as <-.
Qed.

(** The blocks of a stream are numbered from where the protocol stands. *)
Lemma next_grows p es p' : accepts p es = Some p' → p_next p <= p_next p'.
Proof.
  revert p. induction es as [|e es IH]; intros p; cbn; [intros [= ->]; lia|]. destruct (accept p e) as [p1|] eqn:E; [|done].
  intros Ha%IH. assert (p_next p <= p_next p1); [|lia]. destruct e; cbn in E; repeat case_match; simplify_eq; cbn; try lia.
Qed.

(** ** One event *)

Definition event_object (e : event) : object := default [] (as_obj (event_json e)).

Definition content_of (ps : list piece) : bytes :=
  concat (map (λ p, match p with Chunk _ d _ _ => stringOf d "content" | Terminator => [] end) ps).
Definition reasoning_of (ps : list piece) : bytes :=
  concat (map (λ p, match p with Chunk _ d _ _ => stringOf d "reasoning_content" | Terminator => [] end) ps).
Definition finish_reasons (ps : list piece) : list bytes :=
  omap (λ p, match p with Chunk _ _ f _ => f | Terminator => None end) ps.

(** The arguments a delta carries for the call of an index. *)
Definition delta_arguments (n : Z) (d : object) : bytes :=
  match obj_get (B "tool_calls") d with
  | JArr [JObj c] =>
      match obj_get (B "index") c, obj_get (B "function") c with
      | JNum l, JObj f => if bool_decide (l = itoa n) then stringOf f "arguments" else []
      | _, _ => []
      end
  | _ => []
  end.
Definition arguments_of (n : Z) (ps : list piece) : bytes :=
  concat (map (λ p, match p with Chunk _ d _ _ => delta_arguments n d | Terminator => [] end) ps).

Definition opening_delta (n : Z) (id name : bytes) : object :=
  tool_delta n id [member "type" (text "function")] [member "name" (JStr name); member "arguments" (text "")].

Definition argument_delta (n : Z) (id args : bytes) : object := tool_delta n id [] [member "arguments" (JStr args)].

Section Bridge.
Context `{UnicodeCase} `{JsonCodec}.
Variable out_of_range : Z → Z.
Variables seconds nanos : Z.

Abbreviation on_event e := (translate_event out_of_range seconds nanos (event_object e)).

Definition stamped (st : ClaudeToOpenAIStreamState) : ClaudeToOpenAIStreamState :=
  if Created st =? 0 then set_created seconds st else st.

(** What the translator does with each of the events. *)
Lemma event_dispatch e st : on_event e st =
  match e with
  | MessageStart _ _ => on_message_start out_of_range nanos (event_object e) (stamped st)
  | BlockStart _ _ => on_block_start out_of_range (event_object e) (stamped st)
  | BlockDelta _ _ => (stamped st, on_block_delta out_of_range (event_object e) (stamped st))
  | BlockStop _ => (stamped st, [])
  | MessageDelta _ _ => on_message_delta out_of_range (event_object e) (stamped st)
  | MessageStop => on_message_stop (stamped st)
  end.
Proof. by destruct e. Qed.

(** The calls, the next index and whether the end was announced. *)
Definition core (st : ClaudeToOpenAIStreamState) : gmap Z ClaudeStreamToolCall * Z * bool :=
  (StreamToolCalls st, NextToolCallIndex st, FinishReasonSent st).

Lemma stamped_core st : core (stamped st) = core st.
Proof. unfold stamped. by destruct (Created st =? 0). Qed.

Lemma start_spec id m st : ∃ st', on_event (MessageStart id m) st =
    (st', if RoleSent (stamped st) then [] else [Chunk st' [member "role" (text "assistant")] None None]) ∧ core st' = core st.
Proof.
  rewrite event_dispatch. rewrite <- (stamped_core st). generalize (stamped st). clear st. intros st.
  eexists. split; [reflexivity|done].
Qed.

Lemma index_member e i : match e with BlockStart j _ | BlockDelta j _ => j = i | _ => False end → 0 <= i < 2 ^ 53 →
  usageInt out_of_range (obj_get (B "index") (event_object e)) = i.
Proof.
  intros He Hi. transitivity (number_int out_of_range (itoa i)); [|by apply number_int_itoa].
  destruct e; try done; by rewrite <- He.
Qed.

Lemma block_start_spec i k st : 0 <= i < 2 ^ 53 → on_event (BlockStart i k) st =
  match k with
  | ToolUseBlock id name =>
      let st' := add_call i {| Index := NextToolCallIndex (stamped st); CallID := id; CallName := name |} (stamped st) in
      (st', [Chunk st' (opening_delta (NextToolCallIndex (stamped st)) id name) None None])
  | _ => (stamped st, [])
  end.
Proof.
  intros Hi. rewrite event_dispatch. unfold on_block_start. rewrite (index_member _ i) by done. by destruct k.
Qed.

Lemma block_delta_spec i d st : 0 <= i < 2 ^ 53 → on_event (BlockDelta i d) st =
  (stamped st,
   match d with
   | TextDelta s => if nonempty s then [Chunk (stamped st) [member "content" (JStr s)] None None] else []
   | ThinkingDelta s => if nonempty s then [Chunk (stamped st) [member "reasoning_content" (JStr s)] None None] else []
   | InputJsonDelta s =>
       match StreamToolCalls (stamped st) !! i with
       | Some tc => [Chunk (stamped st) (argument_delta (Index tc) (CallID tc) s) None None]
       | None => []
       end
   end).
Proof.
  intros Hi. rewrite event_dispatch. unfold on_block_delta. rewrite (index_member _ i) by done. by destruct d.
Qed.

Lemma message_delta_spec r u st : nonempty r = true → ∃ st' usage, on_event (MessageDelta r u) st =
  (st', [Chunk st' [] (Some (openai_finish r)) usage]) ∧ FinishReasonSent st' = true.
Proof.
  intros Hr. rewrite event_dispatch. generalize (stamped st). clear st. intros st. unfold on_message_delta.
  cbv zeta. change (map_member "delta" (event_object (MessageDelta r u))) with
    (Some [member "stop_reason" (JStr r); member "stop_sequence" JNull] : option object). cbv beta iota zeta.
  change (stringOf [member "stop_reason" (JStr r); member "stop_sequence" JNull] "stop_reason") with r. rewrite Hr.
  change (refusal_text [member "stop_reason" (JStr r); member "stop_sequence" JNull]) with (@nil ascii).
  rewrite andb_false_r. do 2 eexists. split; [reflexivity|done].
Qed.

Lemma message_stop_spec st : FinishReasonSent st = true → ∃ st', on_event MessageStop st = (st', [Terminator]).
Proof.
  intros Hf. rewrite event_dispatch. unfold on_message_stop. pose proof (stamped_core st) as Hc. unfold core in Hc.
  injection Hc as _ _ Hc. rewrite Hc, Hf. by eexists.
Qed.

(** ** A stream of events *)

Fixpoint translate_events (es : list event) (st : ClaudeToOpenAIStreamState) : ClaudeToOpenAIStreamState * list piece :=
  match es with
  | [] => (st, [])
  | e :: es => let '(st, ps) := on_event e st in let '(st, ps') := translate_events es st in (st, ps ++ ps')
  end.

Lemma events_cons e es st : (translate_events (e :: es) st).2 = (on_event e st).2 ++ (translate_events es (on_event e st).1).2 ∧
  (translate_events (e :: es) st).1 = (translate_events es (on_event e st).1).1.
Proof. cbn [translate_events]. destruct (on_event e st) as [st1 ps1]. cbn [fst snd]. by destruct (translate_events es st1). Qed.

Lemma events_app es es' st : (translate_events (es ++ es') st).2 =
  (translate_events es st).2 ++ (translate_events es' (translate_events es st).1).2 ∧
  (translate_events (es ++ es') st).1 = (translate_events es' (translate_events es st).1).1.
Proof.
  revert st. induction es as [|e es IH]; intros st; [done|]. cbn [app]. rewrite !(proj1 (events_cons _ _ _)), !(proj2 (events_cons _ _ _)).
  destruct (IH (on_event e st).1) as [-> ->]. by rewrite app_assoc.
Qed.

Lemma content_app ps ps' : content_of (ps ++ ps') = content_of ps ++ content_of ps'.
Proof. unfold content_of. by rewrite map_app, concat_app. Qed.
Lemma reasoning_app ps ps' : reasoning_of (ps ++ ps') = reasoning_of ps ++ reasoning_of ps'.
Proof. unfold reasoning_of. by rewrite map_app, concat_app. Qed.
Lemma arguments_app n ps ps' : arguments_of n (ps ++ ps') = arguments_of n ps ++ arguments_of n ps'.
Proof. unfold arguments_of. by rewrite map_app, concat_app. Qed.
Lemma finish_app ps ps' : finish_reasons (ps ++ ps') = finish_reasons ps ++ finish_reasons ps'.
Proof. unfold finish_reasons. by rewrite omap_app. Qed.

(** The indices of the events of a stream. *)
Definition index_small (e : event) : Prop := match e with BlockStart i _ | BlockDelta i _ => 0 <= i < 2 ^ 53 | _ => True end.

(** One event of the body. *)
Lemma body_event_says e st : body_event e = true → index_small e →
  content_of (on_event e st).2 = text_of [e] ∧ reasoning_of (on_event e st).2 = thinking_of [e] ∧
  finish_reasons (on_event e st).2 = [] ∧ Terminator ∉ (on_event e st).2.
Proof.
  intros Hb Hi. assert (Hone : ∀ st d f u, Terminator ∉ [Chunk st d f u]) by (by intros * ?%list_elem_of_singleton).
  assert (Hnone : Terminator ∉ (@nil piece)) by apply not_elem_of_nil.
  destruct e as [id m|i k|i d|i| |]; try done.
  - destruct (start_spec id m st) as (st' & -> & _). cbn [fst snd]. destruct (RoleSent (stamped st)); split_and!; first [done | apply Hnone | apply Hone].
  - rewrite block_start_spec by done. destruct k; split_and!; first [done | apply Hnone | apply Hone].
  - rewrite block_delta_spec by done. destruct d as [s|s|s]; cbn [fst snd]; [destruct s..|destruct (StreamToolCalls (stamped st) !! i)];
      split_and!; first [done | apply Hnone | apply Hone].
Qed.

Lemma body_says es st : Forall (λ e, body_event e = true) es → Forall index_small es →
  let ps := (translate_events es st).2 in
  content_of ps = text_of es ∧ reasoning_of ps = thinking_of es ∧ finish_reasons ps = [] ∧ Terminator ∉ ps.
Proof.
  intros Hb. revert st. induction Hb as [|e es He _ IH]; intros st Hi; [by split_and!; [..|apply not_elem_of_nil]|].
  apply Forall_cons in Hi as [Hi His]. cbv zeta.
  destruct (events_cons e es st) as [-> _]. destruct (body_event_says e st He Hi) as (E1 & E2 & E3 & E4).
  destruct (IH (on_event e st).1 His) as (I1 & I2 & I3 & I4).
  rewrite content_app, reasoning_app, finish_app, E1, E2, E3, I1, I2, I3, not_elem_of_app.
  change (e :: es) with ([e] ++ es). by rewrite text_app, thinking_app.
Qed.

(** *** Tool calls *)

(** The calls of the translator are blocks that were started, with an index each. *)
Definition calls_below (next : Z) (st : ClaudeToOpenAIStreamState) : Prop :=
  (∀ j c, StreamToolCalls st !! j = Some c → j < next ∧ Index c < NextToolCallIndex st) ∧
  (∀ j j' c c', StreamToolCalls st !! j = Some c → StreamToolCalls st !! j' = Some c' → Index c = Index c' → j = j').

Lemma calls_same next next' st st' : core st' = core st → next <= next' → calls_below next st → calls_below next' st'.
Proof.
  unfold core. intros [= E1 E2 _] Hn [H1 H2]. unfold calls_below. rewrite E1, E2. split; [|done].
  intros j c Hj. destruct (H1 j c Hj). lia.
Qed.

Lemma event_calls p p' e st : accept p e = Some p' → body_event e = true → index_small e → calls_below (p_next p) st →
  calls_below (p_next p') (on_event e st).1.
Proof.
  intros Ha Hb Hi Hc. assert (Hs : calls_below (p_next p) (stamped st)).
  { apply (calls_same (p_next p) (p_next p) st); [apply stamped_core|lia|done]. }
  destruct e as [id m|i k|i d|i|r u|]; try done.
  - destruct (start_spec id m st) as (st' & -> & Hc'). cbn in Ha. destruct (p_started p); [done|]. injection Ha as <-. cbn [fst p_next].
    apply (calls_same (p_next p) (p_next p) st); [exact Hc'|lia|done].
  - rewrite block_start_spec by done. cbn in Ha. destruct (p_started p && _ && _) eqn:E; [|done]. injection Ha as <-.
    apply andb_prop in E as [[_ ->%Z.eqb_eq]%andb_prop _]. cbn [p_next].
    destruct k as [| |id name]; [by apply (calls_same (p_next p) (p_next p + 1) (stamped st)); [|lia|]..|].
    cbn [fst]. destruct Hs as [H1 H2]. split.
    + cbn. intros j c [[<- <-]|[Hne Hj]]%lookup_insert_Some; [cbn; lia|]. destruct (H1 j c Hj). lia.
    + cbn. intros j j' c c' [[<- <-]|[Hne Hj]]%lookup_insert_Some [[<- <-]|[Hne' Hj']]%lookup_insert_Some; cbn; intros Ec; [done| | |].
      * destruct (H1 _ _ Hj'). lia.
      * destruct (H1 _ _ Hj). lia.
      * exact (H2 j j' c c' Hj Hj' Ec).
  - rewrite block_delta_spec by done. cbn in Ha. destruct (p_open p !! i); [|done]. destruct (_ && _); [|done]. by injection Ha as <-.
  - rewrite event_dispatch. cbn in Ha. destruct (p_open p !! i); [|done]. by injection Ha as <-.
Qed.

Lemma body_calls_below p p' es st : accepts p es = Some p' → Forall (λ e, body_event e = true) es → Forall index_small es →
  calls_below (p_next p) st → calls_below (p_next p') (translate_events es st).1.
Proof.
  revert p st. induction es as [|e es IH]; intros p st Ha Hb Hi Hc; [by injection Ha as <-|].
  apply Forall_cons in Hb as [Hb Hbs]. apply Forall_cons in Hi as [Hi His]. cbn in Ha. destruct (accept p e) as [p1|] eqn:E; [|done].
  rewrite (proj2 (events_cons e es st)). eapply IH; [exact Ha|done|done|]. by eapply event_calls.
Qed.

Lemma itoa_inj n n' : itoa n = itoa n' → n = n'.
Proof. intros E%B_inj. by apply (inj pretty) in E. Qed.

Lemma argument_delta_spec n m id args : delta_arguments n (argument_delta m id args) = if decide (m = n) then args else [].
Proof.
  unfold delta_arguments. change (obj_get (B "tool_calls") (argument_delta m id args)) with
    (JArr [JObj [member "index" (jint m); member "id" (JStr id); member "function" (JObj [member "arguments" (JStr args)])]]).
  cbv beta iota. change (obj_get (B "index") _) with (JNum (itoa m)). change (obj_get (B "function") _) with (JObj [member "arguments" (JStr args)]).
  cbv beta iota. destruct (decide (m = n)) as [->|Hne]; [by rewrite bool_decide_eq_true_2|].
  rewrite bool_decide_eq_false_2; [done|]. by intros ?%itoa_inj.
Qed.

Lemma opening_delta_spec n m id name : delta_arguments n (opening_delta m id name) = [].
Proof.
  unfold delta_arguments. change (obj_get (B "tool_calls") (opening_delta m id name)) with
    (JArr [JObj [member "index" (jint m); member "id" (JStr id); member "type" (text "function");
       member "function" (JObj [member "name" (JStr name); member "arguments" (text "")])]]).
  cbv beta iota. change (obj_get (B "index") _) with (JNum (itoa m)).
  change (obj_get (B "function") _) with (JObj [member "name" (JStr name); member "arguments" (text "")]).
  cbv beta iota. by destruct (bool_decide _).
Qed.

(** The events of a stream after the call [n] of block [i] was opened. *)
Lemma arguments_after i n c p p' es st : accepts p es = Some p' → Forall (λ e, body_event e = true) es → Forall index_small es →
  calls_below (p_next p) st → StreamToolCalls st !! i = Some c → Index c = n →
  arguments_of n (translate_events es st).2 = concat (inputs_of i es).
Proof.
  revert p st c. induction es as [|e es IH]; intros p st c Ha Hb Hi Hc Hcall Hn; [done|].
  apply Forall_cons in Hb as [Hb Hbs]. apply Forall_cons in Hi as [Hi His]. cbn in Ha. destruct (accept p e) as [p1|] eqn:E; [|done].
  rewrite (proj1 (events_cons e es st)), arguments_app. change (e :: es) with ([e] ++ es). rewrite inputs_app, concat_app.
  pose proof (event_calls p p1 e st E Hb Hi Hc) as Hc1.
  assert (Hst : StreamToolCalls (stamped st) = StreamToolCalls st) by (pose proof (stamped_core st) as Hk; by injection Hk).
  assert (Hkeep : StreamToolCalls (on_event e st).1 !! i = Some c).
  { destruct e as [id m|j k|j d|j|r u|]; try done.
    - destruct (start_spec id m st) as (st' & -> & Hk). injection Hk as Hk _ _. cbn [fst]. by rewrite Hk.
    - rewrite block_start_spec by done. destruct k; cbn [fst]; rewrite ?Hst; try done. cbn. rewrite lookup_insert_ne; [by rewrite Hst|].
      cbn in E. destruct (p_started p && _ && _) eqn:Eb; [|done]. apply andb_prop in Eb as [[_ ->%Z.eqb_eq]%andb_prop _].
      destruct (proj1 Hc i c Hcall). lia.
    - rewrite block_delta_spec by done. cbn [fst]. by rewrite Hst.
    - rewrite event_dispatch. cbn [fst]. by rewrite Hst. }
  f_equal; [|by eapply IH]. destruct e as [id m|j k|j d|j|r u|]; try done.
  - destruct (start_spec id m st) as (st' & -> & _). cbn [snd]. by destruct (RoleSent (stamped st)).
  - rewrite block_start_spec by done. destruct k; try done. unfold arguments_of. cbn [snd map concat]. by rewrite opening_delta_spec.
  - rewrite block_delta_spec by done. destruct d as [s|s|s]; cbn [snd]; [by destruct s|by destruct s|]. rewrite Hst.
    unfold inputs_of. cbn [map concat]. destruct (Z.eqb_spec j i) as [->|Hne].
    + rewrite Hcall. unfold arguments_of. cbn [map concat]. rewrite argument_delta_spec, decide_True by done. done.
    + destruct (StreamToolCalls st !! j) as [c'|] eqn:Ej; [|done]. unfold arguments_of. cbn [map concat].
      rewrite argument_delta_spec, decide_False; [done|]. intros Ei. apply Hne. apply (proj2 Hc j i c' c Ej Hcall). congruence.
Qed.

(** Open blocks have been numbered. *)
Definition open_below (p : proto) : Prop := 0 <= p_next p ∧ ∀ i k, p_open p !! i = Some k → 0 <= i < p_next p.

Lemma open_below_start : open_below nothing_sent.
Proof. split; [done|]. intros i k. cbn. by rewrite lookup_empty. Qed.

Lemma accept_below p e p' : open_below p → accept p e = Some p' → open_below p' ∧
  match e with BlockStart i _ => 0 <= i < p_next p' | BlockDelta i _ => 0 <= i < p_next p' | _ => True end.
Proof.
  intros [Hz Hb] E. destruct e as [id m|j k|j d|j|r u|]; cbn in E.
  - destruct (p_started p); [done|]. by injection E as <-.
  - destruct (p_started p && _ && _) eqn:Eb; [|done]. injection E as <-. apply andb_prop in Eb as [[_ ->%Z.eqb_eq]%andb_prop _].
    cbn. split; [split; [cbn; lia|]|lia]. cbn. intros i k' [[<- _]|[_ Hi]]%lookup_insert_Some; [lia|]. apply Hb in Hi. lia.
  - destruct (p_open p !! j) as [k|] eqn:Ej; [|done]. destruct (_ && _); [|done]. injection E as <-. split; [done|]. by eapply Hb.
  - destruct (p_open p !! j); [|done]. injection E as <-. split; [|done]. split; [done|]. cbn. intros i k [_ Hi]%lookup_delete_Some. by eapply Hb.
  - destruct (_ && _); [|done]. injection E as <-. split; [|done]. split; [done|]. cbn. intros i k. by rewrite lookup_empty.
  - destruct (_ =? _)%nat; [|done]. by injection E as <-.
Qed.

Lemma indices_below p es p' : open_below p → accepts p es = Some p' →
  open_below p' ∧ Forall (λ e, match e with BlockStart i _ | BlockDelta i _ => 0 <= i < p_next p' | _ => True end) es.
Proof.
  revert p. induction es as [|e es IH]; intros p Hb Ha; cbn in Ha; [injection Ha as <-; by split|].
  destruct (accept p e) as [p1|] eqn:E; [|done]. destruct (accept_below p e p1 Hb E) as [Hb1 He]. destruct (IH p1 Hb1 Ha) as [Hb' Hes].
  split; [done|]. constructor; [|done]. pose proof (next_grows p1 es p' Ha). destruct e; try done; lia.
Qed.

Lemma inputs_before p es p' i : open_below p → accepts p es = Some p' → p_next p' <= i → inputs_of i es = [].
Proof.
  intros Hb Ha Hi. apply (indices_below p es p' Hb) in Ha as [_ Hf]. induction Hf as [|e es He _ IH]; [done|].
  change (e :: es) with ([e] ++ es). rewrite inputs_app, IH, app_nil_r. destruct e as [| |j d| | |]; try done. destruct d; try done.
  unfold inputs_of. cbn. by rewrite (proj2 (Z.eqb_neq j i)) by lia.
Qed.

(** Deltas only go to calls that were opened. *)
Lemma arguments_before p es p' st n : accepts p es = Some p' → Forall (λ e, body_event e = true) es → Forall index_small es →
  calls_below (p_next p) st → NextToolCallIndex (translate_events es st).1 <= n →
  NextToolCallIndex st <= n ∧ arguments_of n (translate_events es st).2 = [].
Proof.
  revert p st. induction es as [|e es IH]; intros p st Ha Hb Hi Hc Hn; [done|].
  apply Forall_cons in Hb as [Hb Hbs]. apply Forall_cons in Hi as [Hi His]. cbn in Ha. destruct (accept p e) as [p1|] eqn:E; [|done].
  rewrite (proj1 (events_cons e es st)), arguments_app. rewrite (proj2 (events_cons e es st)) in Hn.
  destruct (IH p1 _ Ha Hbs His (event_calls p p1 e st E Hb Hi Hc) Hn) as [Hn1 ->]. rewrite app_nil_r. clear IH Hn.
  pose proof (stamped_core st) as Hst. unfold core in Hst. injection Hst as Hst Hnx _.
  destruct e as [id m|j k|j d|j|r u|]; try done.
  - destruct (start_spec id m st) as (st' & Es & Hk). rewrite Es in Hn1 |- *. injection Hk as _ Hk _. cbn [fst snd] in *.
    split; [lia|]. by destruct (RoleSent (stamped st)).
  - rewrite block_start_spec in Hn1 |- * by done. destruct k; cbn [fst snd] in *; [split; [lia|done]..|]. cbn in Hn1. split; [lia|].
    unfold arguments_of. cbn [map concat]. by rewrite opening_delta_spec.
  - rewrite block_delta_spec in Hn1 |- * by done. cbn [fst snd] in *. split; [lia|]. destruct d as [s|s|s]; [by destruct s|by destruct s|].
    rewrite Hst. destruct (StreamToolCalls st !! j) as [c|] eqn:Ej; [|done]. unfold arguments_of. cbn [map concat].
    rewrite argument_delta_spec, decide_False; [done|]. destruct (proj1 Hc j c Ej). lia.
  - rewrite event_dispatch in Hn1 |- *. cbn [fst snd] in *. split; [lia|done].
Qed.

(** A stream that has said nothing yet. *)
Definition untouched (st : ClaudeToOpenAIStreamState) : Prop := StreamToolCalls st = ∅ ∧ FinishReasonSent st = false.

Definition reasons_given (es : list event) : Prop := Forall (λ e, match e with MessageDelta r _ => nonempty r = true | _ => True end) es.

(** The reason of the end of the message. *)
Definition stop_reasons (es : list event) : list bytes := omap (λ e, match e with MessageDelta r _ => Some r | _ => None end) es.

Lemma body_reasons es : Forall (λ e, body_event e = true) es → stop_reasons es = [].
Proof. unfold stop_reasons. induction 1 as [|e es He _ IH]; [done|]. by destruct e. Qed.

(** The call of a block. *)
Lemma call_arrives es p st i id name : accepts nothing_sent es = Some p → Forall (λ e, body_event e = true) es → Forall index_small es →
  untouched st → BlockStart i (ToolUseBlock id name) ∈ es →
  ∃ n st', Chunk st' (opening_delta n id name) None None ∈ (translate_events es st).2 ∧
    arguments_of n (translate_events es st).2 = concat (inputs_of i es).
Proof.
  intros Ha Hb Hi Hu (a & b & ->)%list_elem_of_split. rewrite accepts_app in Ha.
  destruct (accepts nothing_sent a) as [pa|] eqn:Ea; [|done]. cbn [mbind option_bind accepts] in Ha.
  destruct (accept pa (BlockStart i (ToolUseBlock id name))) as [pb|] eqn:Eb; [|done].
  apply Forall_app in Hb as [Hba [_ Hbb]%Forall_cons]. apply Forall_app in Hi as [Hia [Hii Hib]%Forall_cons].
  assert (Hz : calls_below (p_next nothing_sent) st).
  { unfold calls_below. rewrite (proj1 Hu). split; intros *; by rewrite lookup_empty. }
  pose proof open_below_start as Hopen.
  set (sta := (translate_events a st).1). pose proof (body_calls_below _ _ a st Ea Hba Hia Hz) as Hca. fold sta in Hca.
  set (e := BlockStart i (ToolUseBlock id name)) in *.
  assert (Ei : i = p_next pa).
  { unfold e in Eb. cbn in Eb. destruct (p_started pa && _ && _) eqn:E; [|done]. by apply andb_prop in E as [[_ ->%Z.eqb_eq]%andb_prop _]. }
  rewrite (proj1 (events_app a (e :: b) st)). fold sta. rewrite (proj1 (events_cons e b sta)).
  pose proof (event_calls pa pb e sta Eb eq_refl Hii Hca) as Hcb.
  pose proof (block_start_spec i (ToolUseBlock id name) sta Hii) as Hs. fold e in Hs. cbv beta iota zeta in Hs.
  set (n := NextToolCallIndex (stamped sta)) in *. set (stb := add_call _ _ _) in *. rewrite Hs in Hcb |- *. cbn [fst snd] in Hcb |- *.
  assert (Hnx : n = NextToolCallIndex sta) by (pose proof (stamped_core sta) as Hk; by injection Hk).
  exists n, stb. split; [apply elem_of_app; right; apply elem_of_app; left; by left|].
  rewrite !arguments_app. change (e :: b) with ([e] ++ b). rewrite !inputs_app, !concat_app.
  rewrite (proj2 (arguments_before nothing_sent a pa st n Ea Hba Hia Hz ltac:(fold sta; lia))).
  rewrite (inputs_before nothing_sent a pa i Hopen Ea) by lia. cbn [app concat].
  rewrite (arguments_after i n {| Index := n; CallID := id; CallName := name |} pb p b stb Ha Hbb Hib Hcb); [|by apply lookup_insert_eq|done].
  unfold arguments_of at 1. cbn [map concat]. by rewrite opening_delta_spec.
Qed.

Lemma bridge es p st : accepts nothing_sent es = Some p → p_phase p = 2%nat → p_next p <= 2 ^ 53 → reasons_given es → untouched st →
  let ps := (translate_events es st).2 in
  content_of ps = text_of es ∧ reasoning_of ps = thinking_of es ∧
  (∀ i id name, BlockStart i (ToolUseBlock id name) ∈ es →
     ∃ n st', Chunk st' (opening_delta n id name) None None ∈ ps ∧ arguments_of n ps = concat (inputs_of i es)) ∧
  finish_reasons ps = map openai_finish (stop_reasons es) ∧ length (finish_reasons ps) = 1%nat ∧
  ∃ ps', ps = ps' ++ [Terminator] ∧ Terminator ∉ ps'.
Proof.
  intros Ha Hp Hn Hr Hu. cbv zeta. destruct (complete_shape _ _ _ Ha eq_refl Hp) as (es0 & r & u & p0 & -> & Hb & Ha0 & Hn0).
  pose proof open_below_start as Hopen.
  assert (Hi : Forall index_small es0).
  { destruct (indices_below _ _ _ Hopen Ha0) as [_ Hf]. eapply Forall_impl; [exact Hf|]. intros e. unfold index_small. destruct e; lia. }
  apply Forall_app in Hr as [_ [Hr _]%Forall_cons]. rewrite (proj1 (events_app es0 _ st)).
  destruct (body_says es0 st Hb Hi) as (B1 & B2 & B3 & B4).
  rewrite (proj1 (events_cons (MessageDelta r u) _ _)). destruct (message_delta_spec r u (translate_events es0 st).1 Hr) as (st1 & usage & -> & Hf1).
  cbn [fst snd]. rewrite (proj1 (events_cons MessageStop _ _)). destruct (message_stop_spec st1 Hf1) as (st2 & ->). cbn [fst snd translate_events].
  rewrite !content_app, !reasoning_app, !finish_app, text_app, thinking_app, B1, B2, B3.
  split; [cbn; by rewrite !app_nil_r|]. split; [cbn; by rewrite !app_nil_r|]. split.
  { intros i id name [Hin|Hin]%elem_of_app; [|by repeat apply elem_of_cons in Hin as [Hin|Hin]; try apply elem_of_nil in Hin].
    destruct (call_arrives es0 p0 st i id name Ha0 Hb Hi Hu Hin) as (n & st' & Hch & Harg). exists n, st'.
    split; [apply elem_of_app; by left|]. rewrite arguments_app, inputs_app, concat_app, Harg. done. }
  unfold stop_reasons. rewrite omap_app. fold (stop_reasons es0). rewrite (body_reasons es0 Hb). split; [done|]. split; [done|].
  exists ((translate_events es0 st).2 ++ [Chunk st1 [] (Some (openai_finish r)) usage]). split; [by rewrite <- app_assoc|].
  apply not_elem_of_app. split; [done|]. by intros ?%list_elem_of_singleton.
Qed.

Lemma next_counts p es p' : accepts p es = Some p' → p_next p' <= p_next p + zlen es.
Proof.
  revert p. induction es as [|e es IH]; intros p; cbn [accepts]; [intros [= ->]; unfold zlen; cbn; lia|].
  destruct (accept p e) as [p1|] eqn:E; [|done]. intros Ha%IH.
  assert (p_next p1 <= p_next p + 1) by (destruct e; cbn in E; repeat case_match; simplify_eq; cbn; lia).
  unfold zlen in *. cbn [length]. lia.
Qed.

(** C14. A complete sequence of Claude events, the message announced without counts and a
    stop reason given, reaches an OpenAI client whole: its content and reasoning are
    the text and the thinking of the events, every tool block becomes one call, with
    an index of its own, its id and name, and its arguments in order; the client is
    told one finish reason, the one the stop reason stands for, and then the
    terminator, once and last. Nothing is said of the chunk that names the role, nor
    of the counts. *)
Theorem claude_stream_reaches_openai es st :
  complete es → zlen es <= 2 ^ 53 → reasons_given es → untouched st →
  let ps := (translate_events es st).2 in
  content_of ps = text_of es ∧ reasoning_of ps = thinking_of es ∧
  (∀ i id name, BlockStart i (ToolUseBlock id name) ∈ es →
     ∃ n st', Chunk st' (opening_delta n id name) None None ∈ ps ∧ arguments_of n ps = concat (inputs_of i es)) ∧
  finish_reasons ps = map openai_finish (stop_reasons es) ∧ length (finish_reasons ps) = 1%nat ∧
  ∃ ps', ps = ps' ++ [Terminator] ∧ Terminator ∉ ps'.
Proof.
  intros [n Ha] Hl Hr Hu. apply (bridge es _ st Ha); [done| |done|done].
  apply next_counts in Ha. cbn in *. lia.
Qed.

End Bridge.

Module Sample.

Import StreamProtocol.Sample.

#[local] Existing Instance ascii_case.
#[local] Existing Instance json_codec.

Definition start_state : ClaudeToOpenAIStreamState :=
  {| MessageID := []; StreamModel := []; Created := 0; RoleSent := false; FinishReasonSent := false; StreamFinishReason := [];
     NextToolCallIndex := 0; StreamToolCalls := ∅; StreamUsage := None |}.

(** Payloads of a Claude upstream, one after the other. *)
Fixpoint feed (payloads : list string) (st : ClaudeToOpenAIStreamState) : bytes :=
  match payloads with
  | [] => []
  | p :: ps => let '(st, out) := TranslateClaudeChunkToOpenAI id 7 9 (js p) st in out ++ feed ps st
  end.

Example translated_payloads :
  feed ["{~type~:~message_start~,~message~:{~id~:~m1~,~model~:~c~,~usage~:{~input_tokens~:3,~cache_read_input_tokens~:4}}}";
        "{~type~:~ping~}";
        "{~type~:~content_block_delta~,~index~:0,~delta~:{~type~:~text_delta~,~text~:~hi~}}";
        "{~type~:~message_delta~,~delta~:{~stop_reason~:~max_tokens~},~usage~:{~output_tokens~:2}}";
        "{~type~:~message_stop~}"]%string start_state =
  let frame s := js "data: {~id~:~chatcmpl-m1~,~object~:~chat.completion.chunk~,~created~:7,~model~:~c~,~choices~:[{~index~:0," ++ js s ++ [ch_lf; ch_lf] in
  frame "~delta~:{~role~:~assistant~},~finish_reason~:null}]}" ++
  frame "~delta~:{~content~:~hi~},~finish_reason~:null}]}" ++
  frame "~delta~:{},~finish_reason~:~length~}],~usage~:{~prompt_tokens~:7,~completion_tokens~:2,~cached_tokens~:4,~cache_creation_input_tokens~:0}}" ++
  done_line.
Proof. by vm_compute. Qed.

Lemma claude_stream_witness :
  content_of (translate_events id 7 9 (events the_chunks) start_state).2 = B "hello " ∧
  finish_reasons (translate_events id 7 9 (events the_chunks) start_state).2 = [B "tool_calls"].
Proof.
  destruct (claude_stream_reaches_openai id 7 9 (events the_chunks) start_state
    ltac:(eexists; vm_compute; reflexivity) ltac:(by vm_compute) ltac:(vm_compute; by repeat constructor) ltac:(done))
    as (Hc & _ & _ & Hf & _).
  split; [etransitivity; [exact Hc|by vm_compute]|etransitivity; [exact Hf|by vm_compute]].
Defined.

End Sample.
