(* ===== verification/AnswerTranslation.v ===== *)
(** * Whole answers, translated

    What the non-streaming translators of [ClaudeAnswer] preserve, when they fail,
    and what happens to the token counts. *)

From Stdlib Require Import SpecFloat.
From stdpp Require Import gmap.
From S2P Require Import Prelude GoRegexp Json GoText ErrorClassify Capabilities ClaudeBody ToolArgs Usage ClaudeStream ClaudeAnswer JsonLaws.

Lemma int_field_jint k n m : obj_get k m = jint n → - 2 ^ 63 <= n < 2 ^ 63 → int_field k m = Some n.
Proof. intros E Hn. unfold int_field. rewrite E. by apply Atoi_itoa. Qed.

Section Facts.
Context `{UnicodeCase} `{JsonCodec}.
Variable out_of_range : Z → Z.
Variable visit_args : object → object.
Variable raw_text : json → bytes.

(** A raw value keeps the text it came in; that of an object begins with its brace. *)
Record raw_values : Prop := {
  decode_raw : ∀ j, well_formed j = true → unmarshal (raw_text j) = Some j;
  raw_object : ∀ m, well_formed (JObj m) = true → ∃ t, raw_text (JObj m) = "{"%char :: t
}.

(** A tool call of an OpenAI answer that becomes a block. *)
Definition named_call (f : OpenAIFunctionStream) : bool := nonempty (function_name f) && nonempty (UncloakToolName (function_name f)).

(** A call whose arguments cannot be sent on. *)
Definition unsendable (tc : OpenAIToolCallStream) : Prop :=
  ∃ f, call_function tc = Some f ∧ named_call f = true ∧ nonempty (function_arguments f) = true ∧
    unmarshal (sanitizeToolArgs out_of_range visit_args (UncloakToolName (function_name f)) (function_arguments f)) = None.

Lemma tool_use_block_none tc : tool_use_block out_of_range visit_args tc = None ↔ unsendable tc.
Proof.
  unfold tool_use_block, unsendable, named_call. destruct (call_function tc) as [f|]; [|split; [done|by intros (? & ? & _)]].
  destruct (nonempty (function_name f) && nonempty (UncloakToolName (function_name f))) eqn:En.
  2: { split; [done|]. intros (f' & [= <-] & E & _). congruence. }
  destruct (nonempty (function_arguments f)) eqn:Ea.
  - destruct (unmarshal _) eqn:Eu; cbn; [|split; [|done]; intros _; by exists f]. split; [done|].
    intros (f' & [= <-] & _ & _ & E). congruence.
  - split; [done|]. intros (f' & [= <-] & _ & E & _). congruence.
Qed.

Lemma content_blocks_none msg : content_blocks out_of_range visit_args msg = None ↔ ∃ tc, tc ∈ om_calls msg ∧ unsendable tc.
Proof.
  unfold content_blocks. destruct (mapM (tool_use_block out_of_range visit_args) (om_calls msg)) as [cs|] eqn:E; cbn [mbind option_bind].
  - split; [done|]. intros (tc & Hin & Hu%tool_use_block_none).
    assert (Hs : is_Some (mapM (tool_use_block out_of_range visit_args) (om_calls msg))) by (rewrite E; by eexists).
    apply mapM_is_Some in Hs. rewrite Forall_forall in Hs. destruct (Hs tc Hin) as [? Hx]. cbn in Hx. congruence.
  - split; [|done]. intros _. apply eq_None_not_Some in E. rewrite mapM_is_Some in E.
    apply not_Forall_Exists in E; [|intros tc; apply _]. apply Exists_exists in E as (tc & Hin & Hn). exists tc. split; [done|].
    apply tool_use_block_none, eq_None_not_Some. exact Hn.
Qed.

(** A whole answer is translated or refused as a whole. The body is refused when
    it is blank, when it is no answer, when it has no choice, and also when a single
    tool call of the first choice carries arguments that are not JSON once
    sanitized, as those of a call cut off by the length limit are: then text and
    reasoning are lost with it. Every other answer is translated, and the usage
    handed on is marked as normalized. *)
Theorem answer_translation_outcome nanos b :
  let r := TranslateOpenAIToClaude out_of_range visit_args nanos b in
  (trim_space b = [] → r = inl EmptyBody) ∧
  (trim_space b ≠ [] → read_answer b = None → r = inl NotAnAnswer) ∧
  (trim_space b ≠ [] → ∀ a, read_answer b = Some a →
     match oa_choices a with
     | [] => r = inl NoChoices
     | c :: _ =>
         (r = inl NotEncodable ↔ ∃ tc, tc ∈ om_calls (oc_message c) ∧ unsendable tc) ∧
         (r = inl NotEncodable ∨ ∃ blocks, r = inr (marshal (claude_message nanos a c blocks), answer_usage (oa_usage a)) ∧
            content_blocks out_of_range visit_args (oc_message c) = Some blocks)
     end).
Proof.
  cbv zeta. unfold TranslateOpenAIToClaude. split; [by intros ->|]. split; [intros Hb E; by rewrite bool_decide_eq_false_2, E by done|].
  intros Hb a E. rewrite bool_decide_eq_false_2, E by done. destruct (oa_choices a) as [|c cs]; [done|].
  pose proof (content_blocks_none (oc_message c)) as Hn. destruct (content_blocks _ _ (oc_message c)) as [blocks|] eqn:Ec.
  - split; [split; [done|intros Hu%Hn; done]|]. right. by exists blocks.
  - split; [split; [by intros _; apply Hn|done]|by left].
Qed.

(** *** The counts of the translated answer *)

(** The members of the usage of a Claude body. *)
Definition usage_object (u : OpenAIUsage) : object := map (λ '(k, n), (k, jint n)) (final_usage (Some u)).

Lemma usage_object_get u (m := usage_object u) : 0 <= CacheCreationInputTokens u → PromptTokensDetails u = None →
  obj_has "input_tokens" m = true ∧ obj_get (B "input_tokens") m = jint (PromptTokens u) ∧
  obj_get (B "output_tokens") m = jint (CompletionTokens u) ∧
  obj_get (B "cache_read_input_tokens") m = (if 0 <? CachedTokens u then jint (CachedTokens u) else JNull) ∧
  (obj_get (B "cache_creation_input_tokens") m = jint (CacheCreationInputTokens u) ∨
   obj_get (B "cache_creation_input_tokens") m = JNull ∧ CacheCreationInputTokens u = 0) ∧
  ∀ k, k ∉ [B "input_tokens"; B "output_tokens"; B "cache_read_input_tokens"; B "cache_creation_input_tokens"] → obj_get k m = JNull.
Proof.
  intros Hw Hd. subst m. unfold usage_object, final_usage, GetCachedTokens. rewrite Hd.
  assert (Habsent : ∀ l k, k ∉ l.*1 → obj_get k (map (λ '(k, n), (k, jint n)) l) = JNull).
  { intros l k Hk. apply obj_get_None. rewrite <- list_fmap_compose. contradict Hk. apply list_elem_of_fmap in Hk as ([k' n] & -> & Hin).
    apply list_elem_of_fmap. by exists (k', n). }
  assert (Eg : (if 0 <? CachedTokens u then CachedTokens u else 0) = Z.max 0 (CachedTokens u)) by zcases. rewrite Eg. clear Eg.
  assert (Em : (0 <? Z.max 0 (CachedTokens u)) = (0 <? CachedTokens u)) by zcases. rewrite Em.
  destruct (Z.ltb_spec 0 (CachedTokens u)) as [Hc|Hc]; [rewrite Z.max_r by lia|]; destruct (Z.ltb_spec 0 (CacheCreationInputTokens u));
    cbn [app]; (do 4 (split; [reflexivity|])); (split; [|intros k Hk; apply Habsent; cbn; set_solver]);
    first [left; reflexivity | right; split; [reflexivity|lia]].
Qed.

Lemma float_int_small n : 0 <= n < 2 ^ 53 → float_int out_of_range (sf_of_Z n) = n ∧ float_nonneg (sf_of_Z n) = true.
Proof.
  intros Hn. pose proof (sf_of_Z_exact n Hn) as E. unfold float_int. destruct (sf_of_Z_form n Hn) as [Es | (k & e & Es)]; rewrite Es in E |- *.
  - cbn in E. by subst n.
  - rewrite E. rewrite (proj2 (Z.leb_le _ _)), (proj2 (Z.leb_le _ _)) by lia. done.
Qed.

Lemma usage_object_cached u : 0 <= CachedTokens u < 2 ^ 53 → 0 <= CacheCreationInputTokens u → PromptTokensDetails u = None →
  CachedTokensFromJSON out_of_range (JObj (usage_object u)) = CachedTokens u.
Proof.
  intros Hc Hw Hd. destruct (usage_object_get u Hw Hd) as (_ & _ & _ & Hr & _ & Hn). set (m := usage_object u) in *.
  assert (Hf : ∀ k, obj_get k m = JNull → float_ptr k m = Some None) by (intros k E; unfold float_ptr; by rewrite E).
  assert (Hp : ∀ k A (dec : object → option A), obj_get k m = JNull → ptr_field dec k m = Some None) by (intros k A dec E; unfold ptr_field; by rewrite E).
  unfold CachedTokensFromJSON. cbn [as_struct mbind option_bind]. unfold cached_candidates.
  rewrite (Hf (B "cached_tokens")), (Hf (B "prompt_eval_cached_count")), !Hp by (apply Hn; vm_compute; set_solver).
  unfold float_ptr. rewrite Hr. destruct (Z.ltb_spec 0 (CachedTokens u)).
  - unfold jint. rewrite parse_float_itoa by lia. cbn [fmap option_fmap option_map mbind option_bind default].
    unfold first_count. cbn [omap list_omap id]. destruct (float_int_small (CachedTokens u) ltac:(lia)) as [E1 E2].
    rewrite filter_cons_True by done. exact E1.
  - cbn. lia.
Qed.

Lemma normalized_prompt p o c w : 0 <= p < 2 ^ 53 → 0 <= c < 2 ^ 53 → 0 <= w < 2 ^ 53 →
  PromptTokens (NormalizeClaudeUsage
    {| PromptTokens := p; CompletionTokens := o; CachedTokens := c; CacheCreationInputTokens := w; PromptTokensDetails := None;
       CompletionTokensDetails := None; PromptCacheIncluded := false |}) = p + c + w.
Proof.
  intros Hp Hc Hw. unfold NormalizeClaudeUsage, GetCachedTokens.
  cbn [PromptCacheIncluded PromptTokens CachedTokens PromptTokensDetails CacheCreationInputTokens].
  assert ((if 0 <? c then c else 0) = c) as -> by zcases. rewrite (int64_id (c + w)) by lia. rewrite int64_id; lia.
Qed.

(** The translated body tells the client more prompt tokens than were used: Claude's
    [input_tokens] excludes the cache, yet the body carries the whole prompt there
    and the cached tokens beside it. A reader of that body as the Claude answer it is
    counts the cached and cache-writing tokens twice, while the usage that is
    recorded has them once. *)
Theorem translated_answer_counts_cache_twice nanos a c blocks body (v := answer_usage (oa_usage a)) :
  unmarshal body = Some (JObj (claude_members nanos a c blocks)) →
  Forall (λ n, 0 <= n < 2 ^ 53) [PromptTokens v; CompletionTokens v; CachedTokens v; CacheCreationInputTokens v] →
  ∃ w, ParseClaudeUsage out_of_range body = Some w ∧
    PromptTokens w = PromptTokens v + CachedTokens v + CacheCreationInputTokens v ∧ PromptCacheIncluded v = true.
Proof.
  intros Hbody Hrange. rewrite !Forall_cons in Hrange. destruct Hrange as (Hp & Ho & Hc & Hw & _).
  assert (Hd : PromptTokensDetails v = None) by done. destruct (usage_object_get v ltac:(lia) Hd) as (Gi & Gp & Go & _ & Gw & _).
  pose proof (usage_object_cached v Hc ltac:(lia) Hd) as Hcached.
  assert (Hu : usage_member body = Some (JObj (usage_object v))) by (unfold usage_member; by rewrite Hbody).
  assert (Hcreate : int_field (B "cache_creation_input_tokens") (usage_object v) = Some (CacheCreationInputTokens v)).
  { destruct Gw as [Gw|[Gw ->]]; [by apply int_field_jint; [|lia]|]. unfold int_field. by rewrite Gw. }
  unfold ParseClaudeUsage. rewrite Hu. cbn [mbind option_bind as_map]. rewrite Gi.
  rewrite (int_field_jint _ _ _ Gp) by lia. cbn [mbind option_bind]. rewrite (int_field_jint _ _ _ Go) by lia. cbn [mbind option_bind].
  rewrite Hcreate, Hcached. cbn [mbind option_bind]. eexists. split; [reflexivity|]. split; [|done].
  by apply normalized_prompt.
Qed.

(** *** There and back *)

Definition tool_blocks (a : claude_answer) : list answer_block := blocks_of_type "tool_use" (ca_content a).
Definition answer_text (a : claude_answer) : bytes := concat (map ab_text (blocks_of_type "text" (ca_content a))).
Definition answer_thinking (a : claude_answer) : bytes := concat (map ab_thinking (blocks_of_type "thinking" (ca_content a))).

Definition call_of (b : answer_block) : OpenAIToolCallStream :=
  {| call_index := None; call_id := ab_id b;
     call_function := Some {| function_name := ab_name b; function_arguments := input_text raw_text (ab_input b) |} |}.

Lemma calls_read (l : list answer_block) :
  mapM (λ j, o ← as_struct j; decode_call o) (map (λ b, call_json (ab_id b) (ab_name b) (input_text raw_text (ab_input b))) l) = Some (map call_of l).
Proof. induction l as [|b l IH]; [done|]. cbn [map mapM]. change (mapM _ _) with (Some (map call_of l)) at 1 || rewrite IH. done. Qed.

Lemma message_get a (m := openai_message raw_text a) :
  str_field (B "role") m = Some (B "assistant") ∧ str_field (B "content") m = Some (answer_text a) ∧
  str_field (B "reasoning_content") m = Some (answer_thinking a) ∧ str_field (B "reasoning") m = Some [] ∧
  arr_field (B "tool_calls") m = Some (map (λ b, call_json (ab_id b) (ab_name b) (input_text raw_text (ab_input b))) (tool_blocks a)).
Proof.
  subst m. unfold openai_message. fold (answer_text a) (answer_thinking a) (tool_blocks a).
  destruct (tool_blocks a) as [|b l], (answer_thinking a) as [|r R]; split_and!; reflexivity.
Qed.

Lemma message_read a : decode_openai_message (openai_message raw_text a) = Some
  {| om_content := answer_text a; om_reasoning_content := answer_thinking a; om_reasoning := []; om_calls := map call_of (tool_blocks a) |}.
Proof.
  destruct (message_get a) as (E1 & E2 & E3 & E4 & E5). unfold decode_openai_message, slice_field.
  by rewrite E1, E2, E3, E4, E5; cbn [mbind option_bind]; rewrite calls_read.
Qed.

Definition small (n : Z) : Prop := - 2 ^ 53 < n < 2 ^ 53.

(** The usage an OpenAI reader finds in the answer. *)
Definition told_usage (a : claude_answer) : OpenAIUsage :=
  let u := NormalizeClaudeUsage (ca_usage a) in
  {| PromptTokens := PromptTokens u; CompletionTokens := CompletionTokens u; CachedTokens := GetCachedTokens u;
     CacheCreationInputTokens := CacheCreationInputTokens u; PromptTokensDetails := None; CompletionTokensDetails := None;
     PromptCacheIncluded := false |}.

Definition told_answer (a : claude_answer) : openai_answer_in :=
  {| oa_id := B "chatcmpl-" ++ ca_id a; oa_model := ca_model a;
     oa_choices := [{| oc_message := {| om_content := answer_text a; om_reasoning_content := answer_thinking a; om_reasoning := [];
                                        om_calls := map call_of (tool_blocks a) |};
                       oc_finish := Some (openai_finish (ca_stop a)) |}];
     oa_usage := Some (told_usage a) |}.

Section Spelling.
Variable spell : bytes → bytes.
Abbreviation members_again := (respell_members spell).

Lemma int_field_again k n m : sound_codec spell → obj_get k m = jint n → small n → int_field k (members_again m) = Some n.
Proof.
  intros Hc E Hn. apply int_field_jint; [|unfold small in Hn; lia]. rewrite respell_get, E. cbn [respell jint].
  by rewrite (spelled_int _ Hc).
Qed.

(** The message has no number. *)
Lemma message_again a : members_again (openai_message raw_text a) = openai_message raw_text a.
Proof.
  unfold openai_message. cbv zeta. rewrite !respell_app.
  assert (Ec : ∀ l : list answer_block, map (respell spell) (map (λ b, call_json (ab_id b) (ab_name b) (input_text raw_text (ab_input b))) l) =
    map (λ b, call_json (ab_id b) (ab_name b) (input_text raw_text (ab_input b))) l) by (induction l as [|b l IH]; [done|]; cbn [map]; by rewrite IH).
  apply (f_equal2 (++)); [done|]. apply (f_equal2 (++)); [by case_match|]. specialize (Ec (blocks_of_type "tool_use" (ca_content a))).
  destruct (map _ (blocks_of_type "tool_use" (ca_content a))) as [|j l]; [done|]. cbn [respell_members map fst snd member respell] in *. by rewrite Ec.
Qed.

Lemma answer_read seconds a :
  Forall small [PromptTokens (told_usage a); CompletionTokens (told_usage a); CachedTokens (told_usage a); CacheCreationInputTokens (told_usage a)] →
  sound_codec spell → well_formed (openai_answer raw_text seconds a) = true →
  read_answer (marshal (openai_answer raw_text seconds a)) = Some (told_answer a).
Proof.
  rewrite !Forall_cons. intros (H1 & H2 & H3 & H4 & _) Hcodec Hwf. unfold read_answer. rewrite (decode_encode _ Hcodec) by done. clear Hwf.
  unfold openai_answer. cbv zeta. set (u := NormalizeClaudeUsage (ca_usage a)) in *. rewrite respell_obj. cbn [mbind option_bind as_struct].
  unfold decode_openai_answer.
  set (usage := [member "prompt_tokens" _; _; _; _; _]). set (choice := [member "index" (jint 0); _; _]).
  match goal with |- context [str_field _ (members_again ?m)] => set (top := m) end.
  change (str_field (B "id") (members_again top)) with (Some (B "chatcmpl-" ++ ca_id a)). change (str_field (B "model") (members_again top)) with (Some (ca_model a)).
  cbn [mbind option_bind]. unfold slice_field. change (arr_field (B "choices") (members_again top)) with (Some [JObj (members_again choice)]).
  cbn [mbind option_bind mapM as_struct].
  assert (Ec : decode_openai_choice (members_again choice) = Some {| oc_message := {| om_content := answer_text a; om_reasoning_content := answer_thinking a;
    om_reasoning := []; om_calls := map call_of (tool_blocks a) |}; oc_finish := Some (openai_finish (ca_stop a)) |}).
  { unfold decode_openai_choice. rewrite (int_field_again (B "index") 0 choice Hcodec) by done.
    change (obj_field (B "message") (members_again choice)) with (Some (members_again (openai_message raw_text a))). cbn [mbind option_bind].
    rewrite message_again, message_read. done. }
  rewrite Ec. cbn [mbind option_bind].
  assert (Eu : decode_usage (members_again usage) = Some (told_usage a)).
  { unfold decode_usage. rewrite (int_field_again (B "prompt_tokens") (PromptTokens u) usage Hcodec) by done.
    rewrite (int_field_again (B "completion_tokens") (CompletionTokens u) usage Hcodec) by done.
    rewrite (int_field_again (B "cached_tokens") (GetCachedTokens u) usage Hcodec) by done.
    rewrite (int_field_again (B "cache_creation_input_tokens") (CacheCreationInputTokens u) usage Hcodec) by done. done. }
  change (ptr_field decode_usage (B "usage") (members_again top)) with (Some <$> decode_usage (members_again usage)). by rewrite Eu.
Qed.

(** The input of a tool block, sanitized, and the block a Claude client gets back. *)
Definition sanitized (b : answer_block) (m : object) : object :=
  sanitize_args out_of_range visit_args (UncloakToolName (ab_name b)) (raw_text (JObj m)) m.
Definition returned_block (b : answer_block) (m : object) : json :=
  let name := UncloakToolName (ab_name b) in
  JObj [member "type" (text "tool_use"); member "id" (JStr (ab_id b)); member "name" (JStr name);
        member "input" (respell spell (JObj (sanitized b m)))].

(** A tool block with a name and an object for its input, both before and after the
    sanitizing a value that can be encoded. *)
Definition proper_tool (b : answer_block) (m : object) : Prop :=
  ab_input b = Some (JObj m) ∧ nonempty (ab_name b) = true ∧ nonempty (UncloakToolName (ab_name b)) = true ∧
  well_formed (JObj m) = true ∧ well_formed (JObj (sanitized b m)) = true.

Lemma raw_object_text m : raw_values → well_formed (JObj m) = true →
  given_text (raw_text (JObj m)) = raw_text (JObj m) ∧ nonempty (raw_text (JObj m)) = true.
Proof.
  intros Hf Hm. destruct (raw_object Hf m Hm) as [t E]. rewrite E. split; [|done]. unfold given_text.
  rewrite !bool_decide_eq_false_2; [done| |done|done]. intros Et.
  assert (Hin : "{"%char ∈ trim_space ("{"%char :: t)) by (apply trim_space_keeps; [left|vm_compute; set_solver]).
  rewrite Et in Hin. by apply elem_of_nil in Hin.
Qed.

Lemma tool_block_returned b m : sound_codec spell → raw_values → proper_tool b m →
  tool_use_block out_of_range visit_args (call_of b) = Some [returned_block b m].
Proof.
  intros Hc Hf (Hin & Hn & Hu & Hm & Hs). destruct (raw_object_text m Hf Hm) as [Hg Hne]. unfold tool_use_block, call_of.
  cbn [call_function function_name function_arguments].
  cbv zeta. rewrite Hn, Hu. cbn [andb]. unfold input_text. rewrite Hin, Hne, Hne. unfold sanitizeToolArgs. cbv zeta. rewrite Hg.
  unfold decode_args. rewrite (decode_raw Hf) by done. fold (sanitized b m). by rewrite (decode_encode _ Hc).
Qed.

Lemma stop_round_trip stop : claude_stop (openai_finish stop) =
  if bool_decide (stop ∈ [B "max_tokens"; B "tool_use"; B "refusal"]) then stop else B "end_turn".
Proof.
  unfold openai_finish.
  destruct (decide (stop = B "tool_use")) as [->|H1]; [done|]. destruct (decide (stop = B "max_tokens")) as [->|H2]; [done|].
  destruct (decide (stop = B "refusal")) as [->|H3]; [done|]. rewrite !bool_decide_eq_false_2; [done|set_solver|done..].
Qed.

(** C30. A Claude answer written as an OpenAI answer and then as a Claude answer again. Its
    content is one thinking block and one text block with all of its thinking and
    text, where it has any, then its tool blocks in order with their ids, their names
    uncloaked, and their inputs, sanitized, in which the encoder may spell numbers
    anew. The model comes back unless it is empty, the id unless it is empty or
    [chat]; of the stop reasons [end_turn], [max_tokens], [tool_use] and [refusal]
    come back and every other, a stop sequence too, comes back as [end_turn]. The
    counts handed on are the normalized ones. This is for answers whose texts and
    inputs can be encoded, whose tool blocks have names and objects for their inputs,
    and whose counts are below 2^53. *)
Theorem claude_answer_round_trip nanos seconds a inputs :
  sound_codec spell → raw_values → well_formed (openai_answer raw_text seconds a) = true → Forall2 proper_tool (tool_blocks a) inputs →
  Forall small [PromptTokens (told_usage a); CompletionTokens (told_usage a); CachedTokens (told_usage a); CacheCreationInputTokens (told_usage a)] →
  ∃ m, TranslateOpenAIToClaude out_of_range visit_args nanos (marshal (openai_answer raw_text seconds a)) =
      inr (marshal (JObj m), answer_usage (Some (told_usage a))) ∧
    obj_get (B "content") m = JArr (
      (if nonempty (answer_thinking a) then [JObj [member "type" (text "thinking"); member "thinking" (JStr (answer_thinking a))]] else []) ++
      (if nonempty (answer_text a) then [JObj [member "type" (text "text"); member "text" (JStr (answer_text a))]] else []) ++
      zip_with returned_block (tool_blocks a) inputs) ∧
    (ca_id a ≠ [] → ca_id a ≠ B "chat" → obj_get (B "id") m = JStr (ca_id a)) ∧
    (ca_model a ≠ [] → obj_get (B "model") m = JStr (ca_model a)) ∧
    obj_get (B "stop_reason") m =
      JStr (if bool_decide (ca_stop a ∈ [B "max_tokens"; B "tool_use"; B "refusal"]) then ca_stop a else B "end_turn").
Proof.
  intros Hcodec Hf Hwf Ht Hr. assert (Hb : mapM (tool_use_block out_of_range visit_args) (map call_of (tool_blocks a)) =
    Some (map (λ x, [x]) (zip_with returned_block (tool_blocks a) inputs))).
  { clear Hr. induction Ht as [|b m bs ms Hbm _ IH]; [done|]. cbn [map mapM zip_with].
    rewrite (tool_block_returned b m Hcodec Hf Hbm). cbn [mbind option_bind]. by rewrite IH. }
  unfold TranslateOpenAIToClaude. rewrite bool_decide_eq_false_2 by by eapply encoded_not_blank.
  rewrite (answer_read seconds a Hr Hcodec Hwf).
  cbn [told_answer oa_choices]. unfold content_blocks. cbn [oc_message om_calls om_reasoning_content om_reasoning om_content].
  rewrite Hb. cbn [mbind option_bind]. eexists. split; [reflexivity|]. split; [|split; [|split]].
  - assert (Econ : concat (map (λ x : json, [x]) (zip_with returned_block (tool_blocks a) inputs)) = zip_with returned_block (tool_blocks a) inputs).
    { generalize (zip_with returned_block (tool_blocks a) inputs). intros l. induction l as [|x l IH]; [done|]. cbn. by rewrite IH. }
    assert (Eth : (if nonempty (answer_thinking a) then answer_thinking a else []) = answer_thinking a) by (by destruct (answer_thinking a)).
    rewrite Econ, Eth. reflexivity.
  - intros H1 H2. match goal with |- obj_get _ ?x = _ => change (obj_get (B "id") x) with
      (JStr (clean_id {| now := nanos; visit := id; arg_order := id |} (B "chatcmpl-" ++ ca_id a))) end.
    unfold clean_id. change (remove_first_match _ _) with (ca_id a). by rewrite !bool_decide_eq_false_2.
  - intros Hm. match goal with |- obj_get _ ?x = _ => change (obj_get (B "model") x) with (JStr (clean_model (ca_model a))) end.
    unfold clean_model. by rewrite bool_decide_eq_false_2.
  - match goal with |- obj_get _ ?x = _ => change (obj_get (B "stop_reason") x) with (JStr (claude_stop (openai_finish (ca_stop a)))) end.
    f_equal. apply stop_round_trip.
Qed.

End Spelling.
End Facts.

(** ** Examples *)

Module Sample.

#[local] Existing Instance ascii_case.
#[local] Existing Instance Checked.codec.

Definition saturated (n : Z) : Z := - 2 ^ 63.

(** The first byte of an encoded value is not white space. *)
Lemma encoding_not_blank j : trim_space (Strokes.encode j) ≠ [].
Proof.
  assert (Hs : ∃ c t, Strokes.encode j = c :: t ∧ c ∈ B "ntf#$[{").
  { destruct j as [|[]| | | |]; eexists _, _; (split; [reflexivity|vm_compute; set_solver]). }
  destruct Hs as (c & t & -> & Hc). intros E. apply (not_elem_of_nil c). rewrite <- E. apply trim_space_keeps; [left|].
  intros Hw. assert (Hno : Forall (λ c, c ∉ concat utf8_spaces) (B "ntf#$[{")) by (repeat constructor; vm_compute; set_solver).
  rewrite Forall_forall in Hno. exact (Hno c Hc Hw).
Qed.

Lemma strokes_raw : raw_values Strokes.encode.
Proof. split; [exact Checked.read_checked|by intros m _; eexists]. Qed.

Definition edit_input : object := [member "path" (text "a.go")].

Definition block (kind : string) (txt thinking : string) : answer_block :=
  {| ab_type := B kind; ab_text := B txt; ab_thinking := B thinking; ab_id := []; ab_name := []; ab_input := None |}.

Definition the_answer : claude_answer :=
  {| ca_id := B "m1"; ca_model := B "claude"; ca_stop := B "tool_use";
     ca_content := [block "thinking" "" "hmm"; block "text" "hello " ""; block "text" "there" "";
       {| ab_type := B "tool_use"; ab_text := []; ab_thinking := []; ab_id := B "c1"; ab_name := B "Edit"; ab_input := Some (JObj edit_input) |}];
     ca_usage := {| PromptTokens := 3; CompletionTokens := 5; CachedTokens := 40; CacheCreationInputTokens := 2;
                    PromptTokensDetails := None; CompletionTokensDetails := None; PromptCacheIncluded := false |} |}.

Definition as_openai : bytes := Strokes.encode (openai_answer Strokes.encode 7 the_answer).

Lemma answer_round_trip_witness : ∃ m, TranslateOpenAIToClaude saturated id 9 as_openai = inr (Strokes.encode (JObj m), answer_usage (Some (told_usage the_answer))) ∧
  obj_get (B "content") m = JArr [JObj [member "type" (text "thinking"); member "thinking" (text "hmm")];
    JObj [member "type" (text "text"); member "text" (text "hello there")];
    JObj [member "type" (text "tool_use"); member "id" (text "c1"); member "name" (text "Edit"); member "input" (JObj edit_input)]].
Proof.
  assert (Hwf : well_formed (openai_answer Strokes.encode 7 the_answer) = true) by by vm_compute.
  assert (Ht : Forall2 (proper_tool saturated id Strokes.encode) (tool_blocks the_answer) [edit_input]).
  { constructor; [|constructor]. split_and!; [by vm_compute..]. }
  assert (Hr : Forall small [PromptTokens (told_usage the_answer); CompletionTokens (told_usage the_answer); CachedTokens (told_usage the_answer);
    CacheCreationInputTokens (told_usage the_answer)]) by (repeat constructor; vm_compute; done).
  pose proof (claude_answer_round_trip saturated id Strokes.encode id 9 7 the_answer [edit_input] Checked.checked_sound strokes_raw Hwf Ht Hr) as (m & E & Hc & _).
  exists m. split; [exact E|]. etransitivity; [exact Hc|]. by vm_compute.
Defined.

(** A stop sequence does not come back. *)
Example stop_sequence_is_lost : claude_stop (openai_finish (B "stop_sequence")) = B "end_turn".
Proof. by vm_compute. Qed.

Definition the_choice : openai_choice_in := default {| oc_message := {| om_content := []; om_reasoning_content := []; om_reasoning := []; om_calls := [] |}; oc_finish := None |}
  (head (oa_choices (told_answer Strokes.encode the_answer))).

(** The answer counts 45 prompt tokens; a reader of the translated body counts 87. *)
Lemma counted_twice_witness : PromptTokens (told_usage the_answer) = 45 ∧
  ∃ body w, marshal (claude_message 9 (told_answer Strokes.encode the_answer) the_choice []) = body ∧
    ParseClaudeUsage saturated body = Some w ∧ PromptTokens w = 87.
Proof.
  split; [by vm_compute|].
  destruct (translated_answer_counts_cache_twice saturated id 9 (told_answer Strokes.encode the_answer) the_choice []
    (marshal (claude_message 9 (told_answer Strokes.encode the_answer) the_choice [])))
    as (w & Ew & Ep & _); [by vm_compute|repeat constructor; vm_compute; done|].
  eexists _, w. split; [reflexivity|]. split; [exact Ew|]. etransitivity; [exact Ep|]. by vm_compute.
Defined.

(** A call cut off in the middle of its arguments. *)
Definition cut_answer : bytes := Strokes.encode (JObj [member "choices" (JArr [JObj [member "message" (JObj [
  member "content" (text "hello"); member "tool_calls" (JArr [call_json (B "c1") (B "Edit") (B "{unfinished")])])]])]).

Lemma outcome_witness : trim_space cut_answer ≠ [] ∧ TranslateOpenAIToClaude saturated id 9 cut_answer = inl NotEncodable.
Proof.
  assert (Hb : trim_space cut_answer ≠ []) by apply encoding_not_blank. split; [exact Hb|].
  destruct (read_answer cut_answer) as [a|] eqn:E; [|vm_compute in E; discriminate E].
  pose proof (proj2 (proj2 (answer_translation_outcome saturated id 9 cut_answer)) Hb a E) as Ho.
  assert (Ea : read_answer cut_answer = Some a) by exact E. vm_compute in Ea. injection Ea as Ea. subst a. cbn [oa_choices] in Ho.
  apply (proj2 (proj1 Ho)). eexists. split; [left|]. eexists. split; [reflexivity|]. split_and!; by vm_compute.
Defined.

End Sample.
