(* ===== verification/AnswerFold.v ===== *)
(** * Whole answers of an upstream
    ([internal/proxy/executor/codebuddy.go], [executor/openai.go],
    [internal/handlers/chat/forward.go], [internal/proxy/empty_success.go])

    An event stream that answers a request for one document is folded into a
    completion; an answer with status 200 that carries none is a failure; what is
    left is filtered, translated for the client and counted. Members of provider
    bodies are matched exactly here: the lenient matching of names in any case is
    not modelled. *)

From stdpp Require Import gmap.
From S2P Require Import Prelude GoRegexp Json GoText RetryAfter ErrorClassify Capabilities GuardEngine ClaudeBody ToolArgs Usage ClaudeStream ClaudeAnswer JsonLaws.

(** ** Answers without an answer *)

(** A member that is there, null included. *)
Definition has (k : string) (m : object) : bool := bool_decide (B k ∈ m.*1).

Definition NoCompletionInStream : bytes := B "upstream event stream carried no completion chunk".

Section Codec.
Context `{JsonCodec}.

Definition UpstreamFailure (code : Z) (message : bytes) : upstreamError :=
  MkUE code (marshal (JObj [member "error" (JObj [member "message" (JStr message); member "type" (text "upstream_error"); member "code" (jint code)])])) [].

Definition LooksLikeSSE (body : bytes) : bool :=
  let trimmed := trim_left is_json_ws body in has_prefix (B "data:") trimmed || has_prefix (B "event:") trimmed.

(** A raw value that holds content. *)
Definition carriesValue (raw : option json) : bool :=
  match raw with
  | None | Some JNull => false
  | Some (JStr s) => negb (bool_decide (trim_space s = []))
  | Some (JArr l) => negb (bool_decide (l = []))
  | Some (JObj m) => negb (bool_decide (m = []))
  | Some _ => true
  end.

Definition answer_members : list string := ["content"; "tool_calls"; "function_call"; "reasoning_content"; "reasoning"; "refusal"]%string.

(** On the members of a message. *)
Definition carriesAnswer (m : object) : bool := existsb (λ k, carriesValue (raw_field k m)) answer_members.

Record choiceProbe := { cp_message : object; cp_delta : object; cp_text : bytes; cp_finish : bytes }.

Definition decode_choice_probe (m : object) : option choiceProbe :=
  msg ← obj_field (B "message") m; d ← obj_field (B "delta") m; t ← str_field (B "text") m; f ← str_field (B "finish_reason") m;
  Some {| cp_message := msg; cp_delta := d; cp_text := t; cp_finish := f |}.

Record completionProbe := {
  p_Error : option json; p_Choices : option json; p_Content : option json; p_Output : option json;
  p_Status : bytes; p_StopReason : bytes
}.

Definition decode_probe (m : object) : option completionProbe :=
  status ← str_field (B "status") m; stop ← str_field (B "stop_reason") m;
  Some {| p_Error := raw_field "error" m; p_Choices := raw_field "choices" m; p_Content := raw_field "content" m;
          p_Output := raw_field "output" m; p_Status := status; p_StopReason := stop |}.

Definition terminalOutputStatus (status : bytes) : bool := is_one status ["incomplete"; "failed"; "cancelled"; "cancelling"]%string.

(** The gap in a body, or nothing when it carries a completion or has a shape the
    probe does not know. *)
Definition missingCompletion (p : completionProbe) : bytes :=
  match p_Choices p, p_Content p, p_Output p with
  | Some choices, _, _ =>
      match unmarshal_slice decode_choice_probe (Some choices) with
      | None => []
      | Some [] => B "choices is empty"
      | Some (c :: _) =>
          if nonempty (cp_text c) then []
          else if carriesAnswer (cp_message c) || carriesAnswer (cp_delta c) then []
          else if bool_decide (cp_finish c = B "length") then []
          else B "the first choice carries no content, tool call or reasoning"
      end
  | None, Some content, _ =>
      if carriesValue (Some content) then []
      else if bool_decide (p_StopReason p = B "max_tokens") then []
      else B "content is empty"
  | None, None, Some output =>
      match output with
      | JNull | JArr [] => if terminalOutputStatus (p_Status p) then [] else B "output is empty"
      | _ => []
      end
  | None, None, None => B "no choices, content or output"
  end.

Definition decode_envelope (m : object) : option (bytes * bytes) :=
  message ← str_field (B "message") m; type ← str_field (B "type") m; Some (message, type).

(** The message of an [error] member, empty when there is none. *)
Definition errorEnvelopeMessage (raw : option json) : bytes :=
  match raw with
  | None | Some JNull => []
  | Some j =>
      match unmarshal_struct decode_envelope (Some j) with
      | Some (message, type) => if nonempty message then message else if nonempty type then type else B "error object"
      | None => match j with JStr s => if nonempty s then s else B "error object" | _ => B "error object" end
      end
  end.

Definition read_probe (body : bytes) : option completionProbe := j ← unmarshal body; m ← as_struct j; decode_probe m.

Section Kind.
Context `{UnicodeCase}.

Definition describeBodyKind (trimmed : bytes) : bytes :=
  let lower := to_lower (take (Z.to_nat 512) trimmed) in
  if contains (B "<html") lower || contains (B "<!doctype") lower then B "an HTML error page" else B "a non-JSON body".

(** The failure a body with status 200 amounts to, if it is one. *)
Definition EmptyUpstreamError (body : bytes) : option upstreamError :=
  let failure message := Some (UpstreamFailure 502 message) in
  let trimmed := trim_space body in
  match trimmed with
  | [] => failure (B "upstream returned an empty body with status 200")
  | c :: _ =>
      if LooksLikeSSE trimmed then None
      else if negb (bool_decide (c = "{"%char)) then
        failure (B "upstream returned " ++ describeBodyKind trimmed ++ B " instead of a completion with status 200")
      else match read_probe trimmed with
           | None => failure (B "upstream returned an unparseable body with status 200")
           | Some p =>
               if nonempty (errorEnvelopeMessage (p_Error p))
               then failure (B "upstream answered 200 with an error: " ++ errorEnvelopeMessage (p_Error p))
               else if nonempty (missingCompletion p)
               then failure (B "upstream answered 200 without a completion: " ++ missingCompletion p)
               else None
           end
  end.

End Kind.

(** ** Folding an event stream *)

(** The payload of a line, but for the terminator. *)
Definition data_payload (line : bytes) : option bytes :=
  let trimmed := trim_space line in
  if has_prefix (B "data:") trimmed then
    let payload := trim_space (drop 5 trimmed) in
    if bool_decide (payload = []) || bool_decide (payload = B "[DONE]") then None else Some payload
  else None.

(** The chunks, a null payload being a nil map, and the object of the last error; an
    error of another shape forgets the one before. *)
Definition read_line (acc : list (option object) * option object) (line : bytes) : list (option object) * option object :=
  match data_payload line with
  | None => acc
  | Some payload =>
      match unmarshal payload with
      | Some (JObj chunk) => if has "error" chunk then (acc.1, as_obj (obj_get (B "error") chunk)) else (acc.1 ++ [Some chunk], acc.2)
      | Some JNull => (acc.1 ++ [None], acc.2)
      | _ => acc
      end
  end.

Definition read_stream (raw : bytes) : list (option object) * option object := foldl read_line ([], None) (split_on ch_lf raw).

(** A tool call as it is put together. *)
Record entry := { entry_id : bytes; entry_name : bytes; entry_args : bytes }.
Definition no_entry : entry := {| entry_id := []; entry_name := []; entry_args := [] |}.

Definition merge_name (existing n : bytes) : bytes :=
  if nonempty n then
    if bool_decide (existing = []) then n
    else if negb (bool_decide (existing = n)) && negb (contains n existing) then existing ++ n
    else existing
  else existing.

Definition merge_args (existing a : bytes) : bytes :=
  if nonempty a then
    if bool_decide (existing = []) then a
    else if negb (bool_decide (existing = a)) && negb (contains a existing) then
      if (0 <? length a)%nat && negb (has_suffix a existing) then existing ++ a else existing
    else existing
  else existing.

Definition merge_call (tc : object) (e : entry) : entry :=
  let id := stringOf tc "id" in
  let id := if nonempty id then id else entry_id e in
  match map_member "function" tc with
  | Some fn => {| entry_id := id; entry_name := merge_name (entry_name e) (stringOf fn "name");
                  entry_args := merge_args (entry_args e) (stringOf fn "arguments") |}
  | None => {| entry_id := id; entry_name := entry_name e; entry_args := entry_args e |}
  end.

(** The entry of an index, which is the same object in the list and in the map; a new
    one comes last. *)
Fixpoint update_call (i : Z) (tc : object) (l : list (Z * entry)) : list (Z * entry) :=
  match l with
  | [] => [(i, merge_call tc no_entry)]
  | (j, e) :: l => if j =? i then (j, merge_call tc e) :: l else (j, e) :: update_call i tc l
  end.

Record folding := { f_content : list bytes; f_reasoning : list bytes; f_calls : list (Z * entry); f_finish : bytes; f_usage : json }.
Definition no_folding : folding := {| f_content := []; f_reasoning := []; f_calls := []; f_finish := B "stop"; f_usage := JNull |}.

Definition some_part (s : bytes) : list bytes := if nonempty s then [s] else [].

Section Numbers.
Variable out_of_range : Z → Z.

Definition take_call (l : list (Z * entry)) (v : json) : list (Z * entry) :=
  let tc := default [] (as_obj v) in update_call (usageInt out_of_range (obj_get (B "index") tc)) tc l.

(** A chunk without choices is left out, its usage too. *)
Definition take_chunk (f : folding) (chunk : object) : folding :=
  match obj_get (B "choices") chunk with
  | JArr (first :: _) =>
      let choice := default [] (as_obj first) in
      let delta := default [] (map_member "delta" choice) in
      {| f_content := f_content f ++ some_part (stringOf delta "content");
         f_reasoning := f_reasoning f ++ some_part (stringOf delta "reasoning_content");
         f_calls := match obj_get (B "tool_calls") delta with JArr tcs => foldl take_call (f_calls f) tcs | _ => f_calls f end;
         f_finish := match obj_get (B "finish_reason") choice with JStr r => r | _ => f_finish f end;
         f_usage := if has "usage" chunk then obj_get (B "usage") chunk else f_usage f |}
  | _ => f
  end.

Definition fold_chunks (chunks : list (option object)) : folding := foldl take_chunk no_folding (map (default []) chunks).

(** The first chunk that is no nil map. *)
Definition first_chunk (chunks : list (option object)) : object := default [] (head (omap id chunks)).

Definition entry_json (e : entry) : json :=
  JObj [member "id" (JStr (entry_id e)); member "type" (text "function");
        member "function" (JObj [member "name" (JStr (entry_name e)); member "arguments" (JStr (entry_args e))])].

(** [keep] picks the calls that are published. *)
Definition folded_message (keep : entry → bool) (f : folding) : object :=
  let content := concat (f_content f) in
  let kept := filter (λ e, keep e = true) (map snd (f_calls f) : list entry) in
  [member "role" (text "assistant");
   member "content" (if nonempty content then JStr content else match f_calls f with [] => JStr [] | _ => JNull end)] ++
  match kept with [] => [] | _ => [member "tool_calls" (JArr (map entry_json kept))] end ++
  match f_reasoning f with [] => [] | _ => [member "reasoning_content" (JStr (concat (f_reasoning f)))] end.

Definition completion (id created model : json) (message : object) (finish : bytes) (usage : list (bytes * json)) : object :=
  [member "id" id; member "object" (text "chat.completion"); member "created" created; member "model" model;
   member "choices" (JArr [JObj [member "index" (jint 0); member "message" (JObj message); member "finish_reason" (JStr finish)]])] ++ usage.

Definition or_else (v d : json) : json := match v with JNull => d | _ => v end.

Definition named (e : entry) : bool := negb (bool_decide (trim_space (entry_name e) = [])).

Definition openai_completion (seconds nanos : Z) (first : object) (f : folding) : object :=
  completion (or_else (obj_get (B "id") first) (JStr (B "chatcmpl-" ++ itoa nanos)))
    (or_else (obj_get (B "created") first) (jint seconds)) (or_else (obj_get (B "model") first) (JStr []))
    (folded_message named f) (f_finish f) (match f_usage f with JNull => [] | u => [member "usage" u] end).

(** The two folds differ in what they do about calls without a name and missing
    members. [None]: nothing to fold. *)
Definition error_body (e : object) : bytes := marshal (JObj [member "error" (JObj e)]).

Definition sseToOpenAIJSON (seconds nanos : Z) (raw : bytes) : option bytes :=
  match read_stream raw with
  | (_, Some e) => Some (error_body e)
  | ([], None) => None
  | (chunks, None) => Some (marshal (JObj (openai_completion seconds nanos (first_chunk chunks) (fold_chunks chunks))))
  end.

Definition string_or (v : json) (d : string) : json := match v with JStr s => if nonempty s then JStr s else text d | _ => text d end.

Definition claude_completion (first : object) (f : folding) : object :=
  let counted := match f_usage f with
                 | JNull => JObj [member "prompt_tokens" (jint 0); member "completion_tokens" (jint (zlen (concat (f_content f)) / 4))]
                 | u => u end in
  completion (string_or (obj_get (B "id") first) "chatcmpl-0")
    (jint (usageInt out_of_range (obj_get (B "created") first))) (string_or (obj_get (B "model") first) "gpt-4o")
    (folded_message (λ _, true) f) (f_finish f) [member "usage" counted].

Definition sseToClaudeJSON (raw : bytes) : option bytes :=
  match read_stream raw with
  | (_, Some e) => Some (error_body e)
  | ([], None) => None
  | (chunks, None) => Some (marshal (JObj (claude_completion (first_chunk chunks) (fold_chunks chunks))))
  end.

End Numbers.
End Codec.

(** ** Answering the client *)

(** What the client is sent with status 200, the counts recorded for the request, the
    text kept for its log and the answer kept in the semantic cache. *)
Record answer := { a_body : bytes; a_usage : option OpenAIUsage; a_logged : bytes; a_cached : option bytes }.

Inductive response :=
  | Answered (a : answer)
  | Failed (e : upstreamError)                  (* nothing was written *)
  | Refused (message : bytes) (logged : bytes).  (* a 502 was written *)

Inductive client := OpenAIClient | ClaudeClient | ResponsesClient.

Definition guardrailBlockedError `{JsonCodec} : upstreamError :=
  MkUE 451 (marshal (JObj [member "error" (JObj [member "message" (JStr (B "Response blocked by a configured guardrail policy."));
    member "type" (text "guardrail_error"); member "code" (jint 451)])])) [].

Section Respond.
Context `{JsonCodec} `{UnicodeCase}.
Variable out_of_range : Z → Z.
Variable visit_args : object → object.
Variable raw_text : json → bytes.
(** [ChatResponseToResponses]. *)
Variable to_responses : bytes → option bytes.
Variables (seconds nanos : Z) (guarded : bool) (policy : option (option Engine)).

(** Without the text of the codec's own error. *)
Definition translation_message (e : translation_error) : bytes :=
  B "failed to translate upstream response to Claude format: " ++
  match e with
  | EmptyBody => B "empty response body" | NotAnAnswer => B "failed to parse OpenAI response"
  | NoChoices => B "no choices in OpenAI response" | NotEncodable => B "marshal Claude response"
  end.

(** The body the client's answer is made from, or the failure. *)
Definition whole_answer (fold : bytes → option bytes) (upstream : bytes) : bytes + upstreamError :=
  let body := UnwrapClineEnvelope raw_text upstream in
  match (if LooksLikeSSE body then fold body else Some body) with
  | None => inr (UpstreamFailure 502 NoCompletionInStream)
  | Some body => match EmptyUpstreamError body with Some e => inr e | None => inl body end
  end.

Definition guard (body : bytes) : bytes + upstreamError :=
  match ApplyBuffered guarded policy body with inl body => inl body | inr _ => inr guardrailBlockedError end.

(** [jsonResponseAsResponses] and [respondAsResponses]: the converted body and its counts,
    or the body as it is. *)
Definition as_responses (body : bytes) : bytes * option OpenAIUsage :=
  match to_responses body with
  | Some converted => (converted, ParseResponseUsage out_of_range body)
  | None => (body, None)
  end.

Definition answered (body : bytes) (usage : option OpenAIUsage) (logged : bytes) (cached : option bytes) : response :=
  Answered {| a_body := body; a_usage := usage; a_logged := logged; a_cached := cached |}.

(** Of the executors. *)
Definition jsonResponse (c : client) (upstream : bytes) : response :=
  match whole_answer (sseToOpenAIJSON out_of_range seconds nanos) upstream with
  | inr e => Failed e
  | inl body =>
      match guard body with
      | inr e => Failed e
      | inl body =>
          match c with
          | ResponsesClient => let '(out, usage) := as_responses body in answered out usage body None
          | ClaudeClient =>
              match TranslateOpenAIToClaude out_of_range visit_args nanos body with
              | inr (translated, usage) => answered translated (Some usage) body None
              | inl _ => answered body None body None
              end
          | OpenAIClient => answered body (ParseResponseUsage out_of_range body) body None
          end
      end
  end.

Definition body_usage (body : bytes) : option OpenAIUsage :=
  match ParseResponseUsage out_of_range body with Some u => Some u | None => ParseOllamaUsage body end.

(** Of the chat handler; [cache] tells whether the semantic cache keeps the answer. The log
    gets the text before the guardrails. *)
Definition handleJSONResponse (c : client) (cache : bool) (upstream : bytes) : response :=
  match whole_answer (sseToClaudeJSON out_of_range) upstream with
  | inr e => Failed e
  | inl logged =>
      match guard logged with
      | inr e => Failed e
      | inl body =>
          let keep (b : bytes) := if cache then Some b else None in
          match c with
          | ResponsesClient =>
              let body := if LooksLikeSSE body then default body (sseToClaudeJSON out_of_range body) else body in
              let '(out, usage) := as_responses body in answered out usage logged None
          | ClaudeClient =>
              match TranslateOpenAIToClaude out_of_range visit_args nanos body with
              | inr (translated, usage) => answered translated (Some usage) logged (keep translated)
              | inl e => Refused (translation_message e) logged
              end
          | OpenAIClient => answered body (body_usage body) logged (keep body)
          end
      end
  end.

End Respond.

(** ** What a folded stream says *)

Section Fold.
Variable out_of_range : Z → Z.

Definition chunk_choice (chunk : object) : object :=
  match obj_get (B "choices") chunk with JArr (first :: _) => default [] (as_obj first) | _ => [] end.
Definition chunk_delta (chunk : object) : object := default [] (map_member "delta" (chunk_choice chunk)).
Definition chunk_calls (chunk : object) : list object :=
  match obj_get (B "tool_calls") (chunk_delta chunk) with JArr tcs => map (λ v, default [] (as_obj v)) tcs | _ => [] end.

(** The same, of a whole stream. *)
Definition said (k : string) (chunks : list object) : bytes := concat (map (λ c, stringOf (chunk_delta c) k) chunks).
Definition call_index (tc : object) : Z := usageInt out_of_range (obj_get (B "index") tc).
Definition parts_of (i : Z) (chunks : list object) : list object :=
  filter (λ tc, call_index tc = i) (concat (map chunk_calls chunks)).
Definition argument_parts (tcs : list object) : list bytes := map (λ tc, stringOf (default [] (map_member "function" tc)) "arguments") tcs.
Definition last_reason (chunks : list object) (d : bytes) : bytes :=
  foldl (λ r c, match obj_get (B "finish_reason") (chunk_choice c) with JStr r' => r' | _ => r end) d chunks.
(** The last of the texts that is not empty. *)
Definition last_text (l : list bytes) : bytes := foldl (λ d s, if nonempty s then s else d) [] l.

Definition names_told (tcs : list object) : list bytes := map (λ tc, stringOf (default [] (map_member "function" tc)) "name") tcs.

Lemma said_app k cs1 cs2 : said k (cs1 ++ cs2) = said k cs1 ++ said k cs2.
Proof. unfold said. by rewrite map_app, concat_app. Qed.

Lemma parts_of_app i cs1 cs2 : parts_of i (cs1 ++ cs2) = parts_of i cs1 ++ parts_of i cs2.
Proof. unfold parts_of. by rewrite map_app, concat_app, filter_app. Qed.

Lemma one_more (l : list object) (c : object) :
  said "content" (l ++ [c]) = said "content" l ++ stringOf (chunk_delta c) "content" ∧
  said "reasoning_content" (l ++ [c]) = said "reasoning_content" l ++ stringOf (chunk_delta c) "reasoning_content" ∧
  (∀ i, chunk_calls c = [] → parts_of i (l ++ [c]) = parts_of i l) ∧
  ∀ d r, obj_get (B "finish_reason") (chunk_choice c) = JStr r → last_reason (l ++ [c]) d = r.
Proof.
  assert (E : ∀ k, said k [c] = stringOf (chunk_delta c) k) by (intros k; unfold said; cbn [map concat]; by rewrite app_nil_r).
  rewrite !said_app, !E. split; [done|]. split; [done|]. split.
  - intros i Hc. rewrite parts_of_app. unfold parts_of at 2. cbn [map concat]. rewrite Hc. by rewrite app_nil_r.
  - intros d r Hr. unfold last_reason. rewrite foldl_app. cbn [foldl]. by rewrite Hr.
Qed.

(** No part of the text occurs in what came before it. *)
Fixpoint fresh (before : bytes) (parts : list bytes) : Prop :=
  match parts with
  | [] => True
  | a :: parts => (a = [] ∨ contains a before = false) ∧ fresh (before ++ a) parts
  end.

Lemma merge_args_spec existing a : merge_args existing a = if nonempty a && negb (contains a existing) then existing ++ a else existing.
Proof.
  unfold merge_args. destruct (nonempty a) eqn:Ea; [|done]. cbn [andb]. case_bool_decide as Ee.
  - subst existing. destruct a; done.
  - case_bool_decide as Eq; cbn [negb andb].
    + subst. by rewrite (proj2 (contains_spec a a)) by (exists [], []; by rewrite app_nil_r).
    + destruct (contains a existing) eqn:Ec; cbn [negb]; [done|]. destruct a as [|c a]; [done|]. cbn [length Nat.ltb Nat.leb andb].
      destruct (has_suffix (c :: a) existing) eqn:Es; [|done]. apply has_suffix_spec in Es as [x ->].
      assert (Hc : contains (c :: a) (x ++ c :: a) = true) by (apply contains_spec; exists x, []; by rewrite app_nil_r). congruence.
Qed.

Lemma merged_length existing parts : (length (foldl merge_args existing parts) <= length existing + length (concat parts))%nat ∧
  ((length existing + length (concat parts) <= length (foldl merge_args existing parts))%nat → fresh existing parts).
Proof.
  revert existing. induction parts as [|a parts IH]; intros existing; cbn [foldl concat fresh length]; [split; [lia|done]|].
  rewrite length_app. rewrite merge_args_spec. destruct (nonempty a) eqn:Ea; cbn [andb].
  - destruct (contains a existing) eqn:Ec; cbn [negb].
    + destruct (IH existing) as [IH1 _]. assert (0 < length a)%nat by (destruct a; [done|cbn; lia]). split; lia.
    + destruct (IH (existing ++ a)) as [IH1 IH2]. rewrite length_app in *. split; [lia|]. intros Hl. split; [by right|]. apply IH2. lia.
  - assert (a = []) as -> by by destruct a. cbn [length] in *. rewrite app_nil_r. destruct (IH existing) as [IH1 IH2].
    split; [lia|]. intros Hl. split; [by left|]. apply IH2. lia.
Qed.

Lemma merged_fresh existing parts : fresh existing parts → foldl merge_args existing parts = existing ++ concat parts.
Proof.
  revert existing. induction parts as [|a parts IH]; intros existing; cbn [foldl concat fresh]; [by rewrite app_nil_r|].
  intros [Ha Hf]. rewrite app_assoc, <- IH by done. f_equal. rewrite merge_args_spec.
  destruct Ha as [-> | ->]; [by rewrite app_nil_r|]. cbn [negb]. rewrite andb_true_r. destruct a; [by rewrite app_nil_r|done].
Qed.

(** The arguments are the concatenation of their parts only when no part repeats. *)
Lemma merged_iff parts : foldl merge_args [] parts = concat parts ↔ fresh [] parts.
Proof.
  split; [|apply merged_fresh]. intros E. apply merged_length. by rewrite E.
Qed.

(** *** The entries *)

Definition entry_at (i : Z) (l : list (Z * entry)) : option entry := snd <$> List.find (λ p, p.1 =? i) l.

Definition merged (tcs : list object) (e : entry) : entry := foldl (λ e tc, merge_call tc e) e tcs.

Lemma update_call_at i j tc l : entry_at i (update_call j tc l) =
  if i =? j then Some (merge_call tc (default no_entry (entry_at i l))) else entry_at i l.
Proof.
  unfold entry_at. induction l as [|[k e] l IH]; cbn.
  - rewrite (Z.eqb_sym j i). by destruct (i =? j).
  - destruct (Z.eqb_spec k j) as [->|Hk]; cbn.
    + rewrite (Z.eqb_sym j i). by destruct (i =? j).
    + destruct (Z.eqb_spec k i) as [->|Hi]; cbn; [|exact IH]. by rewrite (proj2 (Z.eqb_neq i j) Hk).
Qed.

Lemma entries_of_parts i tcs l : entry_at i (foldl (λ l tc, update_call (call_index tc) tc l) l tcs) =
  match filter (λ tc, call_index tc = i) tcs with
  | [] => entry_at i l
  | parts => Some (merged parts (default no_entry (entry_at i l)))
  end.
Proof.
  revert l. induction tcs as [|tc tcs IH]; intros l; cbn [foldl]; [done|]. rewrite IH, update_call_at.
  rewrite filter_cons. destruct (Z.eqb_spec i (call_index tc)) as [E|E].
  - rewrite decide_True by done. cbn [default]. by destruct (filter _ tcs).
  - rewrite decide_False by done. done.
Qed.

Lemma merged_fields tcs e : entry_args (merged tcs e) = foldl merge_args (entry_args e) (argument_parts tcs) ∧
  entry_id (merged tcs e) = foldl (λ d s, if nonempty s then s else d) (entry_id e) (map (λ tc, stringOf tc "id") tcs).
Proof.
  revert e. induction tcs as [|tc tcs IH]; intros e; [done|]. unfold merged, argument_parts in *. cbn [foldl map].
  destruct (IH (merge_call tc e)) as [-> ->]. unfold merge_call. by destruct (map_member "function" tc) as [fn|].
Qed.

(** Indices in the order of their first parts. *)
Definition first_seen (l : list Z) : list Z := foldl (λ acc i, if bool_decide (i ∈ acc) then acc else acc ++ [i]) [] l.

Lemma update_call_keys i tc l : map fst (update_call i tc l) = if bool_decide (i ∈ map fst l) then map fst l else map fst l ++ [i].
Proof.
  induction l as [|[j e] l IH]; cbn; [done|]. destruct (Z.eqb_spec j i) as [->|Hj]; cbn.
  - by rewrite bool_decide_eq_true_2 by left.
  - rewrite IH. case_bool_decide as Hi; case_bool_decide as Hi'; try done.
    + by destruct Hi'; right.
    + apply elem_of_cons in Hi' as [->|?]; done.
Qed.

Lemma call_keys tcs l : map fst (foldl (λ l tc, update_call (call_index tc) tc l) l tcs) =
  foldl (λ acc i, if bool_decide (i ∈ acc) then acc else acc ++ [i]) (map fst l) (map call_index tcs).
Proof. revert l. induction tcs as [|tc tcs IH]; intros l; cbn [foldl map]; [done|]. by rewrite IH, update_call_keys. Qed.

(** *** The fold *)

Lemma some_part_concat s : concat (some_part s) = s.
Proof. unfold some_part. destruct s; [done|]. cbn. by rewrite app_nil_r. Qed.

Definition after (f : folding) (chunk : object) (f' : folding) : Prop :=
  concat (f_content f') = concat (f_content f) ++ stringOf (chunk_delta chunk) "content" ∧
  concat (f_reasoning f') = concat (f_reasoning f) ++ stringOf (chunk_delta chunk) "reasoning_content" ∧
  f_calls f' = foldl (λ l tc, update_call (call_index tc) tc l) (f_calls f) (chunk_calls chunk) ∧
  f_finish f' = match obj_get (B "finish_reason") (chunk_choice chunk) with JStr r' => r' | _ => f_finish f end.

Lemma take_chunk_after f chunk : after f chunk (take_chunk out_of_range f chunk).
Proof.
  unfold after, take_chunk, chunk_calls, chunk_delta, chunk_choice. destruct (obj_get (B "choices") chunk) as [| | | |[|c l]|];
    try (cbn; rewrite !app_nil_r; done).
  cbn [f_content f_reasoning f_calls f_finish]. rewrite !concat_app, !some_part_concat. split; [done|]. split; [done|]. split; [|done].
  destruct (obj_get (B "tool_calls") _) as [| | | |tcs|]; try done. generalize (f_calls f). clear.
  induction tcs as [|tc tcs IH]; intros l; cbn [foldl map]; [done|]. by rewrite IH.
Qed.

Lemma fold_from chunks f (f' := foldl (take_chunk out_of_range) f chunks) :
  concat (f_content f') = concat (f_content f) ++ said "content" chunks ∧
  concat (f_reasoning f') = concat (f_reasoning f) ++ said "reasoning_content" chunks ∧
  f_calls f' = foldl (λ l tc, update_call (call_index tc) tc l) (f_calls f) (concat (map chunk_calls chunks)) ∧
  f_finish f' = last_reason chunks (f_finish f).
Proof.
  unfold f'. clear f'. revert f. induction chunks as [|c chunks IH]; intros f; cbn [foldl]; [by rewrite !app_nil_r|].
  destruct (IH (take_chunk out_of_range f c)) as (-> & -> & -> & ->). destruct (take_chunk_after f c) as (-> & -> & -> & ->).
  unfold said, last_reason. cbn [map concat foldl]. by rewrite foldl_app, !app_assoc.
Qed.

End Fold.

(** ** The verdict on a stream *)

Section Verdict.
Context `{JsonCodec} `{UnicodeCase}.
Variable out_of_range : Z → Z.
Variable visit_args : object → object.
Variable raw_text : json → bytes.
Variable to_responses : bytes → option bytes.
Variables (seconds nanos : Z) (guarded : bool) (policy : option (option Engine)).
Variable spell : bytes → bytes.

(** C19. A folded stream has the text and the reasoning of its chunks, the last finish reason
    they gave, and one call for each index they named, in the order they first named
    it. The arguments of a call are those the upstream sent only if no part of them
    occurs in what came before it: a part that does is taken for a repetition and
    dropped. *)
Theorem folded_stream_says_the_same raw chunks (cs := map (default []) chunks) (f := fold_chunks out_of_range chunks) :
  read_stream raw = (chunks, None) → chunks ≠ [] →
  sseToOpenAIJSON out_of_range seconds nanos raw = Some (marshal (JObj (openai_completion seconds nanos (first_chunk chunks) f))) ∧
  concat (f_content f) = said "content" cs ∧ concat (f_reasoning f) = said "reasoning_content" cs ∧
  f_finish f = last_reason cs (B "stop") ∧
  map fst (f_calls f) = first_seen (map (call_index out_of_range) (concat (map chunk_calls cs))) ∧
  ∀ i e, entry_at i (f_calls f) = Some e →
    let parts := parts_of out_of_range i cs in
    entry_id e = last_text (map (λ tc, stringOf tc "id") parts) ∧
    (entry_args e = concat (argument_parts parts) ↔ fresh [] (argument_parts parts)).
Proof.
  intros Hread Hne. destruct (fold_from out_of_range cs no_folding) as (Hc & Hr & Hcalls & Hf). split.
  { unfold sseToOpenAIJSON. rewrite Hread. by destruct chunks. }
  split; [exact Hc|]. split; [exact Hr|]. split; [exact Hf|]. unfold f, fold_chunks. fold cs. rewrite Hcalls.
  split; [apply call_keys|]. intros i e. rewrite entries_of_parts. unfold parts_of.
  destruct (filter _ _) as [|tc tcs] eqn:E; [done|]. intros [= <-].
  change (merged tcs (merge_call tc no_entry)) with (merged (tc :: tcs) no_entry).
  destruct (merged_fields (tc :: tcs) no_entry) as [-> ->].
  split; [done|apply merged_iff].
Qed.

Definition blank (s : bytes) : bool := bool_decide (trim_space s = []).

(** Something a client can read. *)
Definition says (keep : entry → bool) (f : folding) : bool :=
  negb (blank (concat (f_content f))) || existsb keep (map snd (f_calls f)) || negb (blank (concat (f_reasoning f))).

Definition stream_verdict (keep : entry → bool) (body : bytes) : option upstreamError :=
  match read_stream body with
  | (_, Some e) => Some (UpstreamFailure 502 (B "upstream answered 200 with an error: " ++ errorEnvelopeMessage (Some (JObj e))))
  | ([], None) => Some (UpstreamFailure 502 NoCompletionInStream)
  | (chunks, None) =>
      let f := fold_chunks out_of_range chunks in
      if says keep f || bool_decide (f_finish f = B "length") then None
      else Some (UpstreamFailure 502 (B "upstream answered 200 without a completion: the first choice carries no content, tool call or reasoning"))
  end.

Lemma error_has_message e : nonempty (errorEnvelopeMessage (Some (JObj e))) = true.
Proof.
  unfold errorEnvelopeMessage. destruct (unmarshal_struct _ _) as [[message type]|]; [|done].
  destruct (nonempty message) eqn:E1; [done|]. by destruct (nonempty type) eqn:E2.
Qed.

(** *** What is read and put together is well formed *)

Definition wf_chunk (c : object) : Prop := well_formed (JObj c) = true.

Lemma read_well_formed raw chunks e : sound_codec spell → read_stream raw = (chunks, e) →
  Forall (λ c, wf_chunk (default [] c)) chunks ∧ ∀ o, e = Some o → wf_chunk o.
Proof.
  intros Hc. unfold read_stream. generalize (split_on ch_lf raw) as lines. intros lines. revert chunks e.
  induction lines as [|line lines IH] using rev_ind; intros chunks e; [intros [= <- <-]; by split; [constructor|]|].
  rewrite foldl_app. destruct (foldl read_line ([], None) lines) as [cs o]. destruct (IH cs o eq_refl) as [H1 H2]. cbn [foldl].
  unfold read_line. destruct (data_payload line) as [payload|]; [|by intros [= <- <-]].
  destruct (unmarshal payload) as [j|] eqn:E; [|by intros [= <- <-]]. apply (decoded_well_formed _ Hc) in E.
  destruct j as [| | | | |chunk]; try (by intros [= <- <-]).
  - intros [= <- <-]. cbn [fst snd]. split; [|done]. apply Forall_app. by split; [|repeat constructor].
  - destruct (has "error" chunk).
    + intros [= <- <-]. cbn [fst snd]. split; [done|]. intros o' Ho. pose proof (wf_get (B "error") chunk E) as Hg.
      destruct (obj_get _ chunk); try done. by injection Ho as <-.
    + intros [= <- <-]. cbn [fst snd]. split; [|done]. apply Forall_app. by split; [|repeat constructor].
Qed.

Definition wf_entry (e : entry) : Prop := valid_utf8 (entry_id e) = true ∧ valid_utf8 (entry_name e) = true ∧ valid_utf8 (entry_args e) = true.
Definition wf_folding (f : folding) : Prop :=
  Forall (λ s, valid_utf8 s = true) (f_content f) ∧ Forall (λ s, valid_utf8 s = true) (f_reasoning f) ∧
  Forall (λ p, wf_entry p.2) (f_calls f) ∧ valid_utf8 (f_finish f) = true ∧ well_formed (f_usage f) = true.

Lemma merge_well_formed tc e : wf_chunk tc → wf_entry e → wf_entry (merge_call tc e).
Proof.
  intros Ht (H1 & H2 & H3). pose proof (wf_text tc "id" Ht) as Hi.
  assert (Hid : valid_utf8 (if nonempty (stringOf tc "id") then stringOf tc "id" else entry_id e) = true) by by case_match.
  unfold merge_call. cbv zeta. destruct (map_member "function" tc) as [fn|] eqn:Ef; [|done].
  assert (Hf : wf_chunk fn) by (pose proof (wf_member tc "function" Ht) as Hm; by rewrite Ef in Hm).
  pose proof (wf_text fn "name" Hf). pose proof (wf_text fn "arguments" Hf).
  split; [done|]. split; cbn [entry_name entry_args].
  - unfold merge_name. repeat case_match; by try apply valid_app.
  - unfold merge_args. repeat case_match; by try apply valid_app.
Qed.

Lemma take_call_well_formed l v : Forall (λ p, wf_entry p.2) l → well_formed v = true →
  Forall (λ p, wf_entry p.2) (take_call out_of_range l v).
Proof.
  intros Hl Hv%wf_obj. unfold take_call. cbv zeta. generalize (usageInt out_of_range (obj_get (B "index") (default [] (as_obj v)))) as i.
  intros i. revert Hv. generalize (default [] (as_obj v)) as tc. intros tc Hv.
  induction Hl as [|[j e] l He Hl IH]; cbn [update_call].
  - repeat constructor; by apply merge_well_formed.
  - case_match; constructor; [by apply merge_well_formed|done|done|exact IH].
Qed.

Lemma take_chunk_well_formed f c : wf_folding f → wf_chunk c → wf_folding (take_chunk out_of_range f c).
Proof.
  intros (H1 & H2 & H3 & H4 & H5) Hc. unfold take_chunk. pose proof (wf_get (B "choices") c Hc) as Hch.
  destruct (obj_get (B "choices") c) as [| | | |[|first rest]|] eqn:E; try done.
  apply wf_items, Forall_cons in Hch as [Hch%wf_obj _]. set (choice := default [] (as_obj first)) in *.
  pose proof (wf_member choice "delta" Hch) as Hd. set (delta := default [] (map_member "delta" choice)) in *.
  assert (Hp : ∀ k, Forall (λ s, valid_utf8 s = true) (some_part (stringOf delta k)))
    by (intros k; unfold some_part; case_match; [|constructor]; repeat constructor; by apply wf_text).
  split; [|split; [|split; [|split]]]; cbn [f_content f_reasoning f_calls f_finish f_usage].
  - apply Forall_app. by split.
  - apply Forall_app. by split.
  - pose proof (wf_get (B "tool_calls") delta Hd) as Ht. destruct (obj_get (B "tool_calls") delta) as [| | | |tcs|]; try done.
    apply wf_items in Ht. revert H3. generalize (f_calls f) as l. induction Ht as [|v tcs Hv _ IH]; intros l Hl; [done|].
    cbn [foldl]. by apply IH, take_call_well_formed.
  - pose proof (wf_get (B "finish_reason") choice Hch) as Hf. by destruct (obj_get (B "finish_reason") choice).
  - case_match; [|done]. by apply wf_get.
Qed.

Lemma folding_well_formed chunks : Forall (λ c, wf_chunk (default [] c)) chunks → wf_folding (fold_chunks out_of_range chunks).
Proof.
  unfold fold_chunks. assert (H0' : wf_folding no_folding) by (repeat split; constructor). revert H0'. generalize no_folding as f.
  intros f Hf Hcs. revert f Hf. induction Hcs as [|c cs Hc _ IH]; intros f Hf; [done|]. cbn [map foldl]. by apply IH, take_chunk_well_formed.
Qed.

Lemma first_well_formed chunks : Forall (λ c, wf_chunk (default [] c)) chunks → wf_chunk (first_chunk chunks).
Proof. intros Hcs. induction Hcs as [|[c|] cs Hc _ IH]; [done|exact Hc|exact IH]. Qed.

Lemma message_well_formed keep f : wf_folding f → well_formed (JObj (folded_message keep f)) = true.
Proof.
  intros (H1 & H2 & H3 & _). unfold folded_message. cbv zeta.
  set (content := if nonempty (concat (f_content f)) then JStr (concat (f_content f)) else match f_calls f with [] => JStr [] | _ => JNull end).
  assert (Hcontent : well_formed content = true).
  { unfold content. case_match; [by apply valid_concat|by destruct (f_calls f)]. }
  set (kept := filter (λ e, keep e = true) (map snd (f_calls f))).
  assert (Hkept : well_formed (JArr (map entry_json kept)) = true).
  { apply wf_items. change (map entry_json kept) with (entry_json <$> kept). apply Forall_fmap, Forall_forall.
    intros e He. apply list_elem_of_filter in He as [_ He]. change (map snd (f_calls f)) with (snd <$> f_calls f) in He.
    apply list_elem_of_fmap in He as (p & -> & Hp). rewrite Forall_forall in H3. destruct (H3 p Hp) as (E1 & E2 & E3).
    unfold entry_json. cbn [compose well_formed member text forallb map fst snd]. rewrite E1, E2, E3. by vm_compute. }
  assert (Hr : valid_utf8 (concat (f_reasoning f)) = true) by by apply valid_concat.
  destruct kept as [|e es], (f_reasoning f) as [|x l]; cbn [app];
    (apply wf_members; split; [apply (bool_decide_unpack _); by vm_compute|]);
    intros k v Hin; repeat (apply elem_of_cons in Hin as [[= -> ->]|Hin]; [by split|]); by apply elem_of_nil in Hin.
Qed.

Lemma completion_well_formed id created model message finish usage :
  well_formed id = true → well_formed created = true → well_formed model = true → well_formed (JObj message) = true → valid_utf8 finish = true →
  (usage = [] ∨ ∃ u, usage = [member "usage" u] ∧ well_formed u = true) →
  well_formed (JObj (completion id created model message finish usage)) = true.
Proof.
  intros Hi Hc Hm Hmsg Hf Hu.
  assert (Hch : well_formed (JArr [JObj [member "index" (jint 0); member "message" (JObj message); member "finish_reason" (JStr finish)]]) = true).
  { apply wf_items. repeat constructor. apply wf_members. split; [apply (bool_decide_unpack _); by vm_compute|].
    intros k v Hin. repeat (apply elem_of_cons in Hin as [[= -> ->]|Hin]; [by split|]). by apply elem_of_nil in Hin. }
  apply wf_members. destruct Hu as [-> | (u & -> & Hu)]; (split; [apply (bool_decide_unpack _); by vm_compute|]); unfold completion; cbn [app];
    intros k v Hin; repeat (apply elem_of_cons in Hin as [[= -> ->]|Hin]; [by split|]); by apply elem_of_nil in Hin.
Qed.

(** *** The verdict on an encoded answer *)

Abbreviation members_again := (respell_members spell).

Lemma encoded_object_verdict m : sound_codec spell → well_formed (JObj m) = true → EmptyUpstreamError (marshal (JObj m)) =
  match decode_probe (members_again m) with
  | None => Some (UpstreamFailure 502 (B "upstream returned an unparseable body with status 200"))
  | Some p =>
      if nonempty (errorEnvelopeMessage (p_Error p)) then Some (UpstreamFailure 502 (B "upstream answered 200 with an error: " ++ errorEnvelopeMessage (p_Error p)))
      else if nonempty (missingCompletion p) then Some (UpstreamFailure 502 (B "upstream answered 200 without a completion: " ++ missingCompletion p))
      else None
  end.
Proof.
  intros Hc Hm. unfold EmptyUpstreamError, read_probe. rewrite (trimmed_text _ Hc), (decode_encode _ Hc) by done. cbn [mbind option_bind as_struct respell].
  destruct (object_text _ Hc m Hm) as [t ->]. reflexivity.
Qed.

Lemma carries_again v : carriesValue (respell spell <$> v) = carriesValue v.
Proof. destruct v as [[| | | |[]|[]]|]; try done. Qed.

Lemma answer_again m : carriesAnswer (members_again m) = carriesAnswer m.
Proof. unfold carriesAnswer, answer_members. cbn [existsb]. by rewrite !respell_raw, !carries_again. Qed.

Lemma envelope_again e : errorEnvelopeMessage (Some (JObj (members_again e))) = errorEnvelopeMessage (Some (JObj e)).
Proof. unfold errorEnvelopeMessage, unmarshal_struct, decode_envelope. cbn [mbind option_bind as_struct]. by rewrite !respell_str. Qed.

Lemma kept_calls keep (l : list entry) : existsb keep l = false ↔ filter (λ e, keep e = true) l = [].
Proof.
  induction l as [|e l IH]; [done|]. rewrite filter_cons. cbn [existsb]. destruct (keep e); cbn [orb].
  - rewrite decide_True by done. done.
  - by rewrite decide_False by done.
Qed.

Lemma raw_field_member k k' v m : raw_field k (member k' v :: m) = if String.eqb k k' then Some v else raw_field k m.
Proof.
  unfold raw_field, member. cbn [fmap list_fmap fst obj_get]. destruct (String.eqb_spec k k') as [->|Hk].
  - rewrite bool_decide_eq_true_2 by left. by rewrite bool_decide_eq_true_2.
  - assert (Hb : B k ≠ B k') by by intros ?%B_inj. rewrite (bool_decide_eq_false_2 (B k = B k')) by done.
    case_bool_decide as H1; case_bool_decide as H2; try done; [apply elem_of_cons in H1 as [?|?]|destruct H1; right]; done.
Qed.

Lemma message_answers keep f : carriesAnswer (folded_message keep f) = says keep f.
Proof.
  unfold carriesAnswer, folded_message, says, blank. set (kept := filter _ (map snd (f_calls f))).
  assert (Hk : existsb keep (map snd (f_calls f)) = negb (bool_decide (kept = []))).
  { destruct (existsb keep _) eqn:E; case_bool_decide as Ek; try done; [|by apply kept_calls in E].
    apply kept_calls in Ek. congruence. }
  rewrite Hk. destruct (concat (f_content f)) as [|c l]; destruct kept as [|k kept']; destruct (f_reasoning f) as [|r rs]; destruct (f_calls f);
    cbn [answer_members existsb app nonempty]; unfold nonempty; cbn [bool_decide negb]; rewrite ?raw_field_member; cbn -[trim_space concat];
    by rewrite ?orb_false_r, ?orb_true_r.
Qed.

Lemma missing_in_choice i message finish p :
  p_Choices p = Some (JArr [JObj [member "index" i; member "message" (JObj message); member "finish_reason" (JStr finish)]]) →
  missingCompletion p = if carriesAnswer message || bool_decide (finish = B "length") then []
                        else B "the first choice carries no content, tool call or reasoning".
Proof.
  intros E. unfold missingCompletion. rewrite E. clear E.
  assert (E : decode_choice_probe [member "index" i; member "message" (JObj message); member "finish_reason" (JStr finish)] =
    Some {| cp_message := message; cp_delta := []; cp_text := []; cp_finish := finish |}) by reflexivity.
  unfold unmarshal_slice. cbn [mapM as_struct mbind option_bind]. rewrite E.
  cbn [mret option_ret option_bind mbind cp_text cp_message cp_delta cp_finish].
  assert (carriesAnswer [] = false) as -> by by vm_compute. rewrite orb_false_r. by destruct (carriesAnswer message).
Qed.

Lemma completion_verdict id created model message finish usage (m := completion id created model message finish usage) :
  sound_codec spell → well_formed (JObj m) = true → (usage = [] ∨ ∃ u, usage = [member "usage" u]) →
  EmptyUpstreamError (marshal (JObj m)) =
    if carriesAnswer message || bool_decide (finish = B "length") then None
    else Some (UpstreamFailure 502 (B "upstream answered 200 without a completion: the first choice carries no content, tool call or reasoning")).
Proof.
  intros Hc Hm Hu. rewrite encoded_object_verdict by done. unfold m.
  assert (E : decode_probe (members_again (completion id created model message finish usage)) = Some
    {| p_Error := None;
       p_Choices := Some (JArr [JObj [member "index" (respell spell (jint 0)); member "message" (JObj (members_again message)); member "finish_reason" (JStr finish)]]);
       p_Content := None; p_Output := None; p_Status := []; p_StopReason := [] |}) by (destruct Hu as [-> | [u ->]]; reflexivity).
  rewrite E. cbn [p_Error]. rewrite (missing_in_choice (respell spell (jint 0)) (members_again message) finish) by done. rewrite answer_again.
  by destruct (carriesAnswer message || bool_decide (finish = B "length")).
Qed.

Lemma folded_answer keep id created model usage f (m := completion id created model (folded_message keep f) (f_finish f) usage) :
  sound_codec spell → well_formed (JObj m) = true → (usage = [] ∨ ∃ u, usage = [member "usage" u]) →
  EmptyUpstreamError (marshal (JObj m)) = if says keep f || bool_decide (f_finish f = B "length") then None
    else Some (UpstreamFailure 502 (B "upstream answered 200 without a completion: the first choice carries no content, tool call or reasoning")).
Proof. intros Hc Hm Hu. unfold m. by rewrite completion_verdict, message_answers. Qed.

Lemma error_answer e : sound_codec spell → wf_chunk e → EmptyUpstreamError (error_body e) =
  Some (UpstreamFailure 502 (B "upstream answered 200 with an error: " ++ errorEnvelopeMessage (Some (JObj e)))).
Proof.
  intros Hc He. unfold error_body. rewrite encoded_object_verdict; [|done|].
  2: { apply wf_members. split; [apply (bool_decide_unpack _); by vm_compute|]. by intros k v [= -> ->]%list_elem_of_singleton. }
  change (decode_probe (members_again [member "error" (JObj e)])) with
    (Some {| p_Error := Some (JObj (members_again e)); p_Choices := None; p_Content := None; p_Output := None; p_Status := []; p_StopReason := [] |}).
  cbn [p_Error]. by rewrite envelope_again, error_has_message.
Qed.

Lemma or_else_well_formed v d : well_formed v = true → well_formed d = true → well_formed (or_else v d) = true.
Proof. by destruct v. Qed.

Lemma itoa_valid n : valid_utf8 (itoa n) = true.
Proof.
  assert (Hd : ∀ s, Forall (λ c, is_digit c = true) s → valid_utf8 s = true).
  { induction 1 as [|c s Hc _ IH]; [done|]. change (c :: s) with ([c] ++ s). apply valid_app; [|done].
    destruct c as [[] [] [] [] [] [] [] []]; done. }
  destruct n as [|p|p]; [done|..].
  - apply Hd. by destruct (itoa_digits (Z.pos p)) as (_ & ? & _).
  - change (itoa (Z.neg p)) with (["-"%char] ++ itoa (Z.pos p)). apply valid_app; [done|]. apply Hd. by destruct (itoa_digits (Z.pos p)) as (_ & ? & _).
Qed.

Lemma openai_members_well_formed first : wf_chunk first →
  well_formed (or_else (obj_get (B "id") first) (JStr (B "chatcmpl-" ++ itoa nanos))) = true ∧
  well_formed (or_else (obj_get (B "created") first) (jint seconds)) = true ∧ well_formed (or_else (obj_get (B "model") first) (JStr [])) = true.
Proof.
  intros Hf. split; [|split]; (apply or_else_well_formed; [by apply wf_get|]); [|apply wf_jint|done].
  apply (valid_app (B "chatcmpl-")); [done|apply itoa_valid].
Qed.

Lemma claude_members_well_formed first : wf_chunk first →
  well_formed (string_or (obj_get (B "id") first) "chatcmpl-0") = true ∧
  well_formed (jint (usageInt out_of_range (obj_get (B "created") first))) = true ∧ well_formed (string_or (obj_get (B "model") first) "gpt-4o") = true.
Proof.
  intros Hf. pose proof (wf_get (B "id") first Hf) as Hi. pose proof (wf_get (B "model") first Hf) as Hm.
  split; [|split; [apply wf_jint|]]; unfold string_or; [destruct (obj_get (B "id") first)|destruct (obj_get (B "model") first)]; try done; by case_match.
Qed.

Lemma counted_well_formed n : well_formed (JObj [member "prompt_tokens" (jint 0); member "completion_tokens" (jint n)]) = true.
Proof.
  apply wf_members. split; [apply (bool_decide_unpack _); by vm_compute|].
  intros k x Hin. repeat (apply elem_of_cons in Hin as [[= -> ->]|Hin]; [split; [done|apply wf_jint]|]). by apply elem_of_nil in Hin.
Qed.

(** The verdict on the stream is the failure of the whole answer. *)
Lemma whole_answer_verdict keep fold upstream (body := UnwrapClineEnvelope raw_text upstream) : sound_codec spell → LooksLikeSSE body = true →
  match read_stream body with
  | (_, Some e) => fold body = Some (error_body e)
  | ([], None) => fold body = None
  | (chunks, None) => ∃ id created model usage, (wf_chunk (first_chunk chunks) → well_formed id = true ∧ well_formed created = true ∧ well_formed model = true) ∧
      let f := fold_chunks out_of_range chunks in
      (well_formed (f_usage f) = true → usage = [] ∨ ∃ u, usage = [member "usage" u] ∧ well_formed u = true) ∧
      fold body = Some (marshal (JObj (completion id created model (folded_message keep f) (f_finish f) usage)))
  end →
  match stream_verdict keep body with
  | Some e => whole_answer raw_text fold upstream = inr e
  | None => ∃ folded, whole_answer raw_text fold upstream = inl folded
  end.
Proof.
  intros Hc Hs. unfold stream_verdict, whole_answer. fold body. rewrite Hs. destruct (read_stream body) as [chunks eo] eqn:Er.
  destruct (read_well_formed body chunks eo Hc Er) as [Hwf He]. destruct eo as [e|].
  - specialize (He e eq_refl). destruct chunks; intros ->; by rewrite error_answer.
  - destruct chunks as [|c chunks]; [by intros ->|]. intros (id & created & model & usage & Hm & Hu & E). cbv zeta in E.
    destruct (Hm (first_well_formed _ Hwf)) as (Hm1 & Hm2 & Hm3). pose proof (folding_well_formed _ Hwf) as Hf. destruct (Hf) as (_ & _ & _ & Hf4 & Hf5).
    specialize (Hu Hf5). rewrite E, folded_answer; [|done| |].
    + destruct (_ || _); [by eexists|done].
    + apply completion_well_formed; try done. by apply message_well_formed.
    + destruct Hu as [?|(u & ? & _)]; [by left|right; by eexists].
Qed.

(** C20. What becomes of an event stream that comes in place of a document. It is a failure
    of the upstream, with status 502, when the last error it tells is an object (whatever
    else it says), when it has no chunk, and when its chunks carry no text, no call and no
    reasoning that is not blank, unless their finish reason is [length]: such a stream
    is no failure, though it says nothing. A stream that is no such failure fails
    only by a guardrail; otherwise it is answered or, in the chat handler, refused with
    a 502 by the translation for a Claude client. The chat handler counts calls
    without a name as said, the executors do not. *)
Theorem silent_stream_is_a_failure upstream c cache (body := UnwrapClineEnvelope raw_text upstream) :
  sound_codec spell → LooksLikeSSE body = true →
  (match stream_verdict named body with
   | Some e => jsonResponse out_of_range visit_args raw_text to_responses seconds nanos guarded policy c upstream = Failed e
   | None => ∀ e, jsonResponse out_of_range visit_args raw_text to_responses seconds nanos guarded policy c upstream = Failed e → e = guardrailBlockedError
   end) ∧
  (match stream_verdict (λ _, true) body with
   | Some e => handleJSONResponse out_of_range visit_args raw_text to_responses nanos guarded policy c cache upstream = Failed e
   | None => ∀ e, handleJSONResponse out_of_range visit_args raw_text to_responses nanos guarded policy c cache upstream = Failed e → e = guardrailBlockedError
   end).
Proof.
  intros Hc Hs. split.
  - assert (H1 := whole_answer_verdict named (sseToOpenAIJSON out_of_range seconds nanos) upstream Hc Hs). fold body in H1.
    lazymatch type of H1 with ?A → _ => assert (HA : A); [clear H1|assert (H1' := H1 HA); clear H1 HA] end.
    { unfold sseToOpenAIJSON. destruct (read_stream body) as [[|chunk chunks] [e|]]; try done.
      eexists _, _, _, _. split; [apply openai_members_well_formed|]. split; [|reflexivity].
      intros Hu. destruct (f_usage _); [by left|..]; right; by eexists. }
    unfold jsonResponse. destruct (stream_verdict named body) as [e|]; [by rewrite H1'|]. destruct H1' as [folded ->].
    unfold guard. destruct (ApplyBuffered guarded policy folded) as [b|]; [|by intros e [= <-]].
    destruct c; unfold answered; [done| |by destruct (as_responses _ _ _)]. by destruct (TranslateOpenAIToClaude _ _ _ _) as [|[? ?]].
  - assert (H2 := whole_answer_verdict (λ _, true) (sseToClaudeJSON out_of_range) upstream Hc Hs). fold body in H2.
    lazymatch type of H2 with ?A → _ => assert (HA : A); [clear H2|assert (H2' := H2 HA); clear H2 HA] end.
    { unfold sseToClaudeJSON. destruct (read_stream body) as [[|chunk chunks] [e|]]; try done.
      eexists _, _, _, _. split; [apply claude_members_well_formed|]. split; [|reflexivity].
      intros Hu. right. eexists. split; [reflexivity|]. destruct (f_usage _); [apply counted_well_formed|..]; done. }
    unfold handleJSONResponse. destruct (stream_verdict _ body) as [e|]; [by rewrite H2'|]. destruct H2' as [folded ->].
    unfold guard. destruct (ApplyBuffered guarded policy folded) as [b|]; [|by intros e [= <-]].
    destruct c; unfold answered; [done| |by destruct (as_responses _ _ _)]. by destruct (TranslateOpenAIToClaude _ _ _ _) as [|[? ?]].
Qed.

End Verdict.

(** ** Samples *)
Module Sample.

#[local] Existing Instance ascii_case.

Definition saturated (n : Z) : Z := - 2 ^ 63.

Section Json.
#[local] Existing Instance json_codec.

Definition line (s : string) : bytes := js ("data: " ++ s) ++ [ch_lf; ch_lf].
Definition call_line (args : string) : bytes :=
  line ("{~choices~:[{~delta~:{~tool_calls~:[{~index~:0,~function~:{~arguments~:~" ++ args ++ "~}}]}}]}").

(** The arguments [[1,1]] in four parts, and the counts in a chunk of their own. *)
Definition stream : bytes :=
  line "{~id~:~a~,~choices~:[{~delta~:{~tool_calls~:[{~index~:0,~id~:~c1~,~function~:{~name~:~f~}}]}}]}" ++
  call_line "[1" ++ call_line "," ++ call_line "1" ++ call_line "]" ++
  line "{~choices~:[{~delta~:{},~finish_reason~:~tool_calls~}]}" ++
  line "{~choices~:[],~usage~:{~prompt_tokens~:9}}" ++ line "[DONE]".
Definition chunks : list (option object) := (read_stream stream).1.

(** The second 1 is lost, and so are the counts. *)
Lemma folded_stream_witness :
  match entry_at 0 (f_calls (fold_chunks saturated chunks)) with
  | Some e => entry_id e = B "c1" ∧ entry_args e ≠ B "[1,1]"
  | None => False
  end ∧ f_usage (fold_chunks saturated chunks) = JNull.
Proof.
  split; [|by vm_compute].
  destruct (folded_stream_says_the_same saturated 0 0 stream chunks) as (_ & _ & _ & _ & _ & H); [by vm_compute|by vm_compute|].
  destruct (entry_at 0 _) as [e|] eqn:E; [|by vm_compute in E]. destruct (H 0 e E) as [-> Hf]. split; [by vm_compute|].
  intros Ha. assert (Hfresh : fresh [] (argument_parts (parts_of saturated 0 (map (default []) chunks)))) by (apply Hf; rewrite Ha; by vm_compute).
  vm_compute in Hfresh. by destruct Hfresh as (_ & _ & _ & [?|?] & _).
Defined.

(** A chunk with a null error is dropped, and a plain text error is no error. *)
Example odd_errors :
  read_stream (line "{~error~:null,~choices~:[{~delta~:{~content~:~hi~}}]}") = ([], None) ∧
  read_stream (line "{~error~:{~message~:~down~}}" ++ line "{~error~:~again~}") = ([], None).
Proof. by vm_compute. Qed.

Example verdicts :
  option_map (@ue_StatusCode) (EmptyUpstreamError (B " ")) = Some 502 ∧
  EmptyUpstreamError (js "{~choices~:[{~message~:{~content~:~ ~},~finish_reason~:~length~}]}") = None ∧
  EmptyUpstreamError (js "{~choices~:[{~message~:{~content~:~ ~},~finish_reason~:~stop~}]}") ≠ None ∧
  EmptyUpstreamError (B "<html>") ≠ None ∧ EmptyUpstreamError (js "{~output~:[]}") ≠ None ∧
  EmptyUpstreamError (js "{~output~:[],~status~:~failed~}") = None ∧ EmptyUpstreamError (js "{~content~:[],~error~:{}}") ≠ None.
Proof. repeat split; by vm_compute. Qed.
End Json.

#[local] Existing Instance Checked.codec.

Definition frame (m : object) : bytes := B "data: " ++ marshal (JObj m) ++ [ch_lf; ch_lf].
Definition said_chunk (k : string) (s : string) : object :=
  [member "choices" (JArr [JObj [member "delta" (JObj [member k (text s)])]])].

(** A stream of keep-alives fails over; one with reasoning is served. *)
Definition keep_alive : bytes := frame (said_chunk "content" " ").
Definition thinking : bytes := frame (said_chunk "reasoning_content" "hm").
Definition verdict keep (upstream : bytes) : option upstreamError := stream_verdict saturated keep (UnwrapClineEnvelope marshal upstream).

Lemma silent_stream_witness :
  (∃ e, jsonResponse saturated id marshal (λ _, None) 0 0 false None OpenAIClient keep_alive = Failed e ∧ ue_StatusCode e = 502) ∧
  (∀ e, handleJSONResponse saturated id marshal (λ _, None) 0 false None OpenAIClient false thinking = Failed e → ue_StatusCode e = 451).
Proof.
  assert (E1 : ue_StatusCode <$> verdict named keep_alive = Some 502) by by vm_compute.
  assert (L1 : LooksLikeSSE (UnwrapClineEnvelope marshal keep_alive) = true) by by vm_compute.
  assert (E2 : verdict (λ _, true) thinking = None) by by vm_compute.
  assert (L2 : LooksLikeSSE (UnwrapClineEnvelope marshal thinking) = true) by by vm_compute.
  revert E1 L1 E2 L2. generalize keep_alive, thinking. intros silent loud E1 L1 E2 L2.
  destruct (silent_stream_is_a_failure saturated id marshal (λ _, None) 0 0 false None id silent OpenAIClient false Checked.checked_sound L1) as [H1 _].
  destruct (silent_stream_is_a_failure saturated id marshal (λ _, None) 0 0 false None id loud OpenAIClient false Checked.checked_sound L2) as [_ H2].
  unfold verdict in E1, E2. rewrite E2 in H2. split.
  - destruct (stream_verdict saturated named _) as [e|]; [|done]. exists e. split; [exact H1|]. by injection E1.
  - by intros e ->%H2.
Defined.

End Sample.
