(* ===== verification/CodexStream.v ===== *)
(** * A Responses stream rewritten for Chat Completions
    ([internal/proxy/executor/stream.go], the Codex part)

    Every event of the upstream changes a state and gives at most one chunk; the
    driver writes the chunks to an OpenAI client, translates them for a Claude
    client, or folds them for a client that asked for a document. A client that
    hangs up is not modelled: writes succeed. *)

From stdpp Require Import gmap.
From S2P Require Import Prelude GoRegexp Json GoText RetryAfter ErrorClassify SseCopy SseScanner Capabilities GuardEngine ClaudeBody ToolArgs Usage ClaudeStream ClaudeAnswer AnswerFold.

(** ** The state *)

Record CodexStreamState := {
  OutputLength : Z; ToolCallCount : Z;
  Completed : bool;
  UpstreamErr : bytes;                            (* the encoded failure event *)
  CurrentToolCallID : bytes;
  ToolCallIdx : gmap bytes Z;
  ToolCallNames : option (gmap bytes bytes);      (* nil until the first item *)
  ToolCallArgs : gmap bytes bytes;
  ItemIDToIdx : gmap bytes Z;
  ArgsEmitted : gset Z
}.

Definition fresh_codex : CodexStreamState :=
  {| OutputLength := 0; ToolCallCount := 0; Completed := false; UpstreamErr := []; CurrentToolCallID := [];
     ToolCallIdx := ∅; ToolCallNames := None; ToolCallArgs := ∅; ItemIDToIdx := ∅; ArgsEmitted := ∅ |}.

(** Assignments to the fields. *)
Definition set_output (n : Z) (completed : bool) (err : bytes) (s : CodexStreamState) : CodexStreamState :=
  {| OutputLength := n; ToolCallCount := ToolCallCount s; Completed := completed; UpstreamErr := err; CurrentToolCallID := CurrentToolCallID s;
     ToolCallIdx := ToolCallIdx s; ToolCallNames := ToolCallNames s; ToolCallArgs := ToolCallArgs s; ItemIDToIdx := ItemIDToIdx s; ArgsEmitted := ArgsEmitted s |}.
Definition add_output (n : Z) (s : CodexStreamState) := set_output (OutputLength s + n) (Completed s) (UpstreamErr s) s.
Definition set_failed (err : bytes) (s : CodexStreamState) := set_output (OutputLength s) (Completed s) err s.
Definition set_completed (s : CodexStreamState) := set_output (OutputLength s) true (UpstreamErr s) s.

Definition set_current (id : bytes) (s : CodexStreamState) : CodexStreamState :=
  {| OutputLength := OutputLength s; ToolCallCount := ToolCallCount s; Completed := Completed s; UpstreamErr := UpstreamErr s; CurrentToolCallID := id;
     ToolCallIdx := ToolCallIdx s; ToolCallNames := ToolCallNames s; ToolCallArgs := ToolCallArgs s; ItemIDToIdx := ItemIDToIdx s; ArgsEmitted := ArgsEmitted s |}.
Definition set_names (names : option (gmap bytes bytes)) (s : CodexStreamState) : CodexStreamState :=
  {| OutputLength := OutputLength s; ToolCallCount := ToolCallCount s; Completed := Completed s; UpstreamErr := UpstreamErr s; CurrentToolCallID := CurrentToolCallID s;
     ToolCallIdx := ToolCallIdx s; ToolCallNames := names; ToolCallArgs := ToolCallArgs s; ItemIDToIdx := ItemIDToIdx s; ArgsEmitted := ArgsEmitted s |}.
Definition set_item (itemID : bytes) (idx : Z) (s : CodexStreamState) : CodexStreamState :=
  {| OutputLength := OutputLength s; ToolCallCount := ToolCallCount s; Completed := Completed s; UpstreamErr := UpstreamErr s; CurrentToolCallID := CurrentToolCallID s;
     ToolCallIdx := ToolCallIdx s; ToolCallNames := ToolCallNames s; ToolCallArgs := ToolCallArgs s; ItemIDToIdx := <[itemID := idx]> (ItemIDToIdx s); ArgsEmitted := ArgsEmitted s |}.
Definition set_args (callID args : bytes) (s : CodexStreamState) : CodexStreamState :=
  {| OutputLength := OutputLength s; ToolCallCount := ToolCallCount s; Completed := Completed s; UpstreamErr := UpstreamErr s; CurrentToolCallID := CurrentToolCallID s;
     ToolCallIdx := ToolCallIdx s; ToolCallNames := ToolCallNames s; ToolCallArgs := <[callID := args]> (ToolCallArgs s); ItemIDToIdx := ItemIDToIdx s; ArgsEmitted := ArgsEmitted s |}.
Definition set_emitted (idx : Z) (s : CodexStreamState) : CodexStreamState :=
  {| OutputLength := OutputLength s; ToolCallCount := ToolCallCount s; Completed := Completed s; UpstreamErr := UpstreamErr s; CurrentToolCallID := CurrentToolCallID s;
     ToolCallIdx := ToolCallIdx s; ToolCallNames := ToolCallNames s; ToolCallArgs := ToolCallArgs s; ItemIDToIdx := ItemIDToIdx s; ArgsEmitted := {[ idx ]} ∪ ArgsEmitted s |}.

(** The next index, for a call id. *)
Definition new_index (callID : bytes) (s : CodexStreamState) : CodexStreamState :=
  {| OutputLength := OutputLength s; ToolCallCount := ToolCallCount s + 1; Completed := Completed s; UpstreamErr := UpstreamErr s; CurrentToolCallID := CurrentToolCallID s;
     ToolCallIdx := <[callID := ToolCallCount s]> (ToolCallIdx s); ToolCallNames := ToolCallNames s; ToolCallArgs := ToolCallArgs s; ItemIDToIdx := ItemIDToIdx s; ArgsEmitted := ArgsEmitted s |}.

Definition args_of (callID : bytes) (s : CodexStreamState) : bytes := default [] (ToolCallArgs s !! callID).
Definition name_of (callID : bytes) (s : CodexStreamState) : option bytes := names ← ToolCallNames s; names !! callID.

(** ** Chunks *)

Section Process.
Context `{JsonCodec}.
Variable out_of_range : Z → Z.
Variables (responseID : bytes) (created : Z).

Definition codex_chunk (delta : object) (finish : list (bytes * json)) (usage : list (bytes * json)) : object :=
  [member "id" (JStr responseID); member "object" (text "chat.completion.chunk"); member "created" (jint created);
   member "choices" (JArr [JObj ([member "index" (jint 0); member "delta" (JObj delta)] ++ finish)])] ++ usage.

Definition delta_chunk (delta : object) : object := codex_chunk delta [] [].
Definition call_chunk (call : object) : object := delta_chunk [member "tool_calls" (JArr [JObj call])].

Definition full_call (idx : Z) (callID : bytes) (fn : object) : object :=
  [member "index" (jint idx); member "id" (JStr callID); member "type" (text "function"); member "function" (JObj fn)].

(** The first text that is not empty. *)
Definition either (a b : bytes) : bytes := if nonempty a then a else b.
Definition fabricated (s : CodexStreamState) : bytes := B "call_" ++ itoa (ToolCallCount s).

(** ** Events *)

(** Text under the member of the delta. *)
Definition on_text (key : string) (event : object) (s : CodexStreamState) : CodexStreamState * option object :=
  let delta := stringOf event "delta" in
  if nonempty delta then (add_output (zlen delta) s, Some (delta_chunk [member key (JStr delta)])) else (s, None).

Definition is_call_item (item : object) : bool := is_one (stringOf item "type") ["function_call"; "custom_tool_call"]%string.

Definition on_item_added (event : object) (s : CodexStreamState) : CodexStreamState * option object :=
  match map_member "item" event with
  | Some item =>
      if is_call_item item then
        let name := stringOf item "name" in
        let callID := either (either (stringOf item "call_id") (stringOf item "id")) (fabricated s) in
        let itemID := either (stringOf event "item_id") (stringOf item "id") in
        let known := match ToolCallIdx s !! callID with
                     | Some idx => Some idx
                     | None => if nonempty itemID then ItemIDToIdx s !! itemID else None
                     end in
        let '(idx, s) := match known with Some idx => (idx, s) | None => (ToolCallCount s, new_index callID s) end in
        let s := if nonempty itemID then set_item itemID idx s else s in
        let s := set_names (Some (<[callID := name]> (default ∅ (ToolCallNames s)))) s in
        (set_current callID s, Some (call_chunk (full_call idx callID [member "name" (JStr name); member "arguments" (text "")])))
      else (s, None)
  | None => (s, None)
  end.

(** The call an arguments event belongs to; a call found by its item keeps the id the
    event gives, empty or not. *)
Definition find_call (itemID callID : bytes) (s : CodexStreamState) : CodexStreamState * bytes * Z :=
  let by_item := if nonempty itemID then ItemIDToIdx s !! itemID else None in
  let by_call := if nonempty callID then ToolCallIdx s !! callID else None in
  match by_item, by_call with
  | Some idx, _ | None, Some idx => (s, callID, idx)
  | None, None =>
      let callID := either (either callID (CurrentToolCallID s)) (fabricated s) in
      match ToolCallIdx s !! callID with
      | Some idx => (s, callID, idx)
      | None => (new_index callID s, callID, ToolCallCount s)
      end
  end.

Definition on_args_delta (event : object) (s : CodexStreamState) : CodexStreamState * option object :=
  let delta := stringOf event "delta" in
  if nonempty delta then
    let name := stringOf event "name" in
    let '(s, callID, idx) := find_call (stringOf event "item_id") (stringOf event "call_id") s in
    let s := set_emitted idx (set_args callID (args_of callID s ++ delta) s) in
    let existing := default [] (name_of callID s) in
    let told := nonempty name &&
      (bool_decide (existing = []) || negb (bool_decide (existing = name)) && negb (contains name existing)) in
    (s, Some (call_chunk (full_call idx callID ([member "arguments" (JStr delta)] ++ if told then [member "name" (JStr name)] else []))))
  else (s, None).

Definition on_args_done (event : object) (s : CodexStreamState) : CodexStreamState * option object :=
  let args := stringOf event "arguments" in
  let '(s, callID, idx) := find_call (stringOf event "item_id") (stringOf event "call_id") s in
  let name := either (stringOf event "name") (default [] (name_of callID s)) in
  let s := match ToolCallNames s with
           | Some names => if nonempty name && bool_decide (default [] (name_of callID s) = [])
                           then set_names (Some (<[callID := name]> names)) s else s
           | None => s
           end in
  let existing := args_of callID s in
  if nonempty existing && (bool_decide (existing = args) || contains args existing) then (s, None)
  else
    let args := if nonempty existing && has_prefix existing args then drop (length existing) args else args in
    if nonempty existing && bool_decide (args = []) then (s, None)
    else
      let s := if nonempty args then set_args callID (args_of callID s ++ args) s else s in
      let told := nonempty name &&
        match name_of callID s with
        | None => true
        | Some known => negb (bool_decide (known = name)) && negb (contains name known)
        end in
      let fn := [member "arguments" (JStr args)] ++ if told then [member "name" (JStr name)] else [] in
      if negb told && bool_decide (args = []) then (s, None)
      else (s, Some (call_chunk (full_call idx callID fn))).

Definition on_item_done (event : object) (s : CodexStreamState) : CodexStreamState * option object :=
  match map_member "item" event with
  | Some item =>
      if is_call_item item then
        let s := set_current [] s in
        let itemID := either (stringOf event "item_id") (stringOf item "id") in
        let callID := either (stringOf item "call_id") itemID in
        let idx := default 0 (match (if nonempty itemID then ItemIDToIdx s !! itemID else None) with
                              | Some idx => Some idx
                              | None => if nonempty callID then ToolCallIdx s !! callID else None
                              end) in
        let fullArgs := stringOf item "arguments" in
        if nonempty fullArgs then
          if bool_decide (idx ∈ ArgsEmitted s) then (s, None)
          else if nonempty (args_of callID s) then (s, None)
          else (set_emitted idx (set_args callID fullArgs s),
                Some (call_chunk [member "index" (jint idx); member "function" (JObj [member "arguments" (JStr fullArgs)])]))
        else (s, None)
      else (s, None)
  | None => (s, None)
  end.

Definition codex_count (usage : object) (from to : string) : list (bytes * json) :=
  match obj_get (B from) usage with JNum l => [member to (jint (number_int out_of_range l))] | _ => [] end.

Definition codex_detail (usage : object) (from count to : string) : list (bytes * json) :=
  match map_member from usage with
  | Some details => match codex_count details count count with [] => [] | c => [member to (JObj c)] end
  | None => []
  end.

Definition codexUsageMap (resp : object) : object :=
  match map_member "usage" resp with
  | Some usage =>
      codex_count usage "input_tokens" "prompt_tokens" ++ codex_count usage "output_tokens" "completion_tokens" ++
      codex_count usage "total_tokens" "total_tokens" ++
      codex_detail usage "input_tokens_details" "cached_tokens" "prompt_tokens_details" ++
      codex_detail usage "output_tokens_details" "reasoning_tokens" "completion_tokens_details"
  | None => []
  end.

Definition on_completed (event : object) (s : CodexStreamState) : CodexStreamState * option object :=
  let finish := if 0 <? ToolCallCount s then "tool_calls"%string else "stop"%string in
  let usage := match map_member "response" event with Some resp => codexUsageMap resp | None => [] end in
  (set_completed s, Some (codex_chunk [] [member "finish_reason" (text finish)] (match usage with [] => [] | u => [member "usage" (JObj u)] end))).

Definition normalizeCodexFailureEvent (event : object) : object :=
  match resp ← map_member "response" event; map_member "error" resp with
  | Some e => [member "type" (text "error"); member "error" (JObj e)]
  | None => event
  end.

Definition event_is (event : object) (types : list string) : bool := is_one (stringOf event "type") types.

Definition process_event (event : object) (s : CodexStreamState) : CodexStreamState * option object :=
  if event_is event ["error"]%string then (set_failed (marshal (JObj event)) s, None)
  else if event_is event ["response.failed"]%string then (set_failed (marshal (JObj (normalizeCodexFailureEvent event))) s, None)
  else if event_is event ["response.output_text.delta"; "response.text.delta"]%string then on_text "content" event s
  else if event_is event ["response.reasoning_summary_text.delta"; "response.reasoning_text.delta"; "response.thought.delta"]%string
    then on_text "reasoning_content" event s
  else if event_is event ["response.output_item.added"]%string then on_item_added event s
  else if event_is event ["response.function_call_arguments.delta"; "response.custom_tool_call_input.delta"]%string then on_args_delta event s
  else if event_is event ["response.function_call_arguments.done"]%string then on_args_done event s
  else if event_is event ["response.output_item.done"]%string then on_item_done event s
  else if event_is event ["response.completed"]%string then on_completed event s
  else (s, None).

(** The state, and the chunk that is sent as a frame. *)
Definition ProcessCodexEvent (data : bytes) (s : CodexStreamState) : CodexStreamState * option object :=
  match unmarshal data with
  | Some (JObj event) => process_event event s
  | _ => (s, None)
  end.

Definition toolCallIndex (event : object) (s : CodexStreamState) : CodexStreamState * bytes * Z :=
  let id := either (either (stringOf event "call_id") (CurrentToolCallID s)) (fabricated s) in
  match ToolCallIdx s !! id with
  | Some idx => (s, id, idx)
  | None => (new_index id s, id, ToolCallCount s)
  end.

(** ** The driver *)

Definition codex_frame (chunk : object) : bytes := frame (marshal (JObj chunk)).

(** The payloads up to the terminator, and whether it came. *)
Fixpoint run_events (payloads : list bytes) (s : CodexStreamState) : CodexStreamState * list object * bool :=
  match payloads with
  | [] => (s, [], false)
  | data :: rest =>
      if bool_decide (data = done_mark) then (s, [], true)
      else let '(s, chunk) := ProcessCodexEvent data s in
           let '(s, chunks, seen) := run_events rest s in
           (s, match chunk with Some c => c :: chunks | None => chunks end, seen)
  end.

Section Errors.
Context `{UnicodeCase}.

Definition decode_codex_error (m : object) : option (bytes * bytes) :=
  e ← obj_field (B "error") m; t ← str_field (B "type") e; msg ← str_field (B "message") e; Some (t, msg).

Definition codexEventErrorInfo (raw : bytes) : Z * bytes :=
  match j ← unmarshal raw; m ← as_struct j; decode_codex_error m with
  | Some (t, msg) =>
      let t := to_lower t in
      (if contains (B "freetier") t || contains (B "forbidden") t || contains (B "auth") t then 403 else 502,
       either msg (B "upstream error"))
  | None => (502, B "upstream error")
  end.

Definition codexUpstreamError (raw : bytes) : upstreamError :=
  let '(status, msg) := codexEventErrorInfo raw in
  MkUE status (marshal (JObj [member "error" (JObj [member "message" (JStr msg); member "type" (text "upstream_error"); member "code" (jint status)])])) [].

End Errors.

Definition codexFailedEmptyTurn (s : CodexStreamState) : bool :=
  nonempty (UpstreamErr s) && (OutputLength s =? 0) && (ToolCallCount s =? 0).

(** The tokens of the text as the code guesses them. *)
Definition estimate (s : CodexStreamState) : OpenAIUsage :=
  {| PromptTokens := 0; CompletionTokens := OutputLength s / 4; CachedTokens := 0; CacheCreationInputTokens := 0;
     PromptTokensDetails := None; CompletionTokensDetails := None; PromptCacheIncluded := false |}.

Definition finish_chunk : object := codex_chunk [] [member "finish_reason" (text "stop")] [].

Definition writeSSEFinish (s : CodexStreamState) : bytes :=
  (if Completed s then [] else codex_frame finish_chunk) ++ sseDoneFrame.

(** What was written, the counts recorded last, and the error of the call. *)
Inductive codex_failure := UpstreamSaid (e : upstreamError) | ScanFailed.
Record codex_result := { cx_written : bytes; cx_usage : option OpenAIUsage; cx_error : option codex_failure }.

Section Stream.
Context `{UnicodeCase}.

(** To an OpenAI client. [scan_failed]: the reading ended on an error (a lost connection,
    a line that is too long). *)
Definition stream_to_openai (payloads : list bytes) (scan_failed : bool) : codex_result :=
  let '(s, chunks, seen) := run_events payloads fresh_codex in
  let written := concat (map codex_frame chunks) in
  if codexFailedEmptyTurn s then
    let '(status, msg) := codexEventErrorInfo (UpstreamErr s) in
    {| cx_written := written ++ BuildStreamErrorBytes status msg SSEFormatOpenAI;
       cx_usage := None; cx_error := Some (UpstreamSaid (codexUpstreamError (UpstreamErr s))) |}
  else
    {| cx_written := written ++ writeSSEFinish s; cx_usage := Some (estimate s);
       cx_error := if seen && scan_failed then Some ScanFailed else None |}.

(** To a Claude client: the chunks go through a session of the stream translator.
    [at_step] is the reading of the clock and the map order of each call. *)
Definition stream_to_claude (is_truncated : bytes → bool) (key : bytes) (at_step : nat → tick)
    (payloads : list bytes) (scan_failed : bool) (sessions : store) : codex_result * store :=
  let '(s, chunks, seen) := run_events payloads fresh_codex in
  let n := length chunks in
  let session line t sessions := TranslateOpenAIToClaudeStreamSession out_of_range is_truncated t key line sessions in
  let '(sessions, outs) := run_lines out_of_range is_truncated key (imap (λ i c, (at_step i, codex_frame c)) chunks) sessions in
  let written := concat (map render outs) in
  if codexFailedEmptyTurn s then
    let '(status, msg) := codexEventErrorInfo (UpstreamErr s) in
    ({| cx_written := written ++ BuildStreamErrorBytes status msg SSEFormatClaude;
        cx_usage := Some no_usage; cx_error := Some (UpstreamSaid (codexUpstreamError (UpstreamErr s))) |},
     ClearStreamState (at_step n) key sessions)
  else
    let '(sessions, finish) := if Completed s then (sessions, []) else
                                 let '(sessions, o) := session (codex_frame finish_chunk) (at_step n) sessions in (sessions, render o) in
    let '(sessions, last) := session sseDoneFrame (at_step (n + 1)%nat) sessions in
    let '(sessions, usage) := GetStreamUsage (at_step (n + 2)%nat) key sessions in
    ({| cx_written := written ++ finish ++ render last; cx_usage := Some (default (estimate s) usage);
        cx_error := if scan_failed then Some ScanFailed else None |},
     ClearStreamState (at_step (n + 3)%nat) key sessions).

(** To a client that asked for a document: the frames are collected up to 10 MB, then
    nothing more is read. *)
Definition maxCodexSSEBytes : Z := 10 * 1024 * 1024.

Fixpoint collect_events (payloads : list bytes) (s : CodexStreamState) (size : Z) : CodexStreamState * list bytes :=
  match payloads with
  | [] => (s, [])
  | data :: rest =>
      if bool_decide (data = done_mark) then collect_events rest s size
      else match ProcessCodexEvent data s with
           | (s, None) => collect_events rest s size
           | (s, Some c) =>
               let f := codex_frame c in
               if maxCodexSSEBytes <? size + zlen f then (s, [])
               else let '(s, fs) := collect_events rest s (size + zlen f) in (s, f :: fs)
           end
  end.

Definition answer_document (visit_args : object → object) (raw_text : json → bytes) (to_responses : bytes → option bytes)
    (seconds nanos : Z) (guarded : bool) (policy : option (option Engine)) (c : client) (payloads : list bytes) : response :=
  let '(s, frames) := collect_events payloads fresh_codex 0 in
  if codexFailedEmptyTurn s then Failed (codexUpstreamError (UpstreamErr s))
  else match sseToOpenAIJSON out_of_range seconds nanos (concat frames) with
       | None => Failed (if nonempty (UpstreamErr s) then codexUpstreamError (UpstreamErr s) else UpstreamFailure 502 NoCompletionInStream)
       | Some converted => jsonResponse out_of_range visit_args raw_text to_responses seconds nanos guarded policy c converted
       end.

End Stream.
End Process.
