(* ===== verification/CodexRelay.v ===== *)
(** * What a client gets of a Responses stream

    A well-formed stream reaches an OpenAI client whole; a turn that failed without
    output is told as a failure to every client; a call sent without deltas is
    doubled, and a stream that breaks off is told as a served turn. *)

From stdpp Require Import gmap.
From S2P Require Import Prelude GoRegexp Json GoText RetryAfter ErrorClassify SseCopy SseScanner Capabilities GuardEngine ClaudeBody ToolArgs Usage ClaudeStream ClaudeAnswer JsonLaws AnswerFold CodexStream.

(** ** Streams of an upstream *)

Definition ev (type : string) (fields : object) : object := member "type" (text type) :: fields.

(** An item of the output: text, reasoning, or a call with the parts of its arguments. *)
Inductive codex_item :=
  | Said (deltas : list bytes)
  | Thought (deltas : list bytes)
  | Called (item call name : bytes) (parts : list bytes).

Definition call_item (item call name args : bytes) : object :=
  [member "type" (text "function_call"); member "id" (JStr item); member "call_id" (JStr call); member "name" (JStr name); member "arguments" (JStr args)].

Definition added_event (item call name : bytes) : object := ev "response.output_item.added" [member "item" (JObj (call_item item call name []))].
Definition args_event (item delta : bytes) : object :=
  ev "response.function_call_arguments.delta" [member "item_id" (JStr item); member "delta" (JStr delta)].
Definition done_event (item args : bytes) : object :=
  ev "response.function_call_arguments.done" [member "item_id" (JStr item); member "arguments" (JStr args)].
Definition item_event (item call name args : bytes) : object := ev "response.output_item.done" [member "item" (JObj (call_item item call name args))].
Definition text_event (d : bytes) : object := ev "response.output_text.delta" [member "delta" (JStr d)].
Definition thought_event (d : bytes) : object := ev "response.reasoning_summary_text.delta" [member "delta" (JStr d)].

Definition events_of (i : codex_item) : list object :=
  match i with
  | Said ds => map text_event ds
  | Thought ds => map thought_event ds
  | Called item call name parts =>
      added_event item call name :: map (args_event item) parts ++ [done_event item (concat parts); item_event item call name (concat parts)]
  end.

Definition text_of_item (i : codex_item) : bytes := match i with Said ds => concat ds | _ => [] end.
Definition thought_of_item (i : codex_item) : bytes := match i with Thought ds => concat ds | _ => [] end.
Definition call_of_item (i : codex_item) : option (bytes * bytes * bytes * list bytes) :=
  match i with Called item call name parts => Some (item, call, name, parts) | _ => None end.
Definition calls_of (items : list codex_item) : list (bytes * bytes * bytes * list bytes) := omap call_of_item items.

Definition item_ids (items : list codex_item) : list bytes := map (λ c, c.1.1.1) (calls_of items).
Definition call_ids (items : list codex_item) : list bytes := map (λ c, c.1.1.2) (calls_of items).

(** The ids are their own, no part is empty, and every call has some. *)
Record sound_items (items : list codex_item) : Prop := {
  items_apart : NoDup (item_ids items);
  calls_apart : NoDup (call_ids items);
  ids_given : Forall (λ c, c.1.1.1 ≠ [] ∧ c.1.1.2 ≠ []) (calls_of items);
  parts_given : Forall (λ c, Forall (λ p, p ≠ []) c.2 ∧ c.2 ≠ []) (calls_of items)
}.

Section Relay.
Context `{JsonCodec} `{UnicodeCase}.
Variable out_of_range : Z → Z.
Variables (responseID : bytes) (created : Z).

Abbreviation process := (process_event out_of_range responseID created).
Abbreviation chunk_of_call call := (call_chunk responseID created call).
Abbreviation chunk_of_delta delta := (delta_chunk responseID created delta).

Fixpoint process_all (events : list object) (s : CodexStreamState) : CodexStreamState * list object :=
  match events with
  | [] => (s, [])
  | e :: rest => let '(s, c) := process e s in let '(s, cs) := process_all rest s in (s, option_list c ++ cs)
  end.

Lemma process_all_app es1 es2 s : process_all (es1 ++ es2) s =
  let '(s1, cs1) := process_all es1 s in let '(s2, cs2) := process_all es2 s1 in (s2, cs1 ++ cs2).
Proof.
  revert s. induction es1 as [|e es1 IH]; intros s; cbn; [by destruct (process_all es2 s)|].
  destruct (process e s) as [s' c]. rewrite IH. destruct (process_all es1 s') as [s1 cs1]. destruct (process_all es2 s1) as [s2 cs2].
  by rewrite app_assoc.
Qed.

(** A payload that is an event. *)
Definition carries (payload : bytes) (event : object) : Prop := payload ≠ done_mark ∧ unmarshal payload = Some (JObj event).

Lemma run_carried payloads events s rest : Forall2 carries payloads events →
  run_events out_of_range responseID created (payloads ++ rest) s =
    let '(s1, cs1) := process_all events s in let '(s2, cs2, seen) := run_events out_of_range responseID created rest s1 in (s2, cs1 ++ cs2, seen).
Proof.
  intros Hf. revert s. induction Hf as [|p e ps es [Hp Hu] Hf IH]; intros s; cbn [app run_events process_all].
  - by destruct (run_events _ _ _ rest s) as [[? ?] ?].
  - rewrite bool_decide_eq_false_2 by done. unfold ProcessCodexEvent. rewrite Hu. destruct (process e s) as [s' c].
    rewrite IH. destruct (process_all es s') as [s1 cs1]. destruct (run_events _ _ _ rest s1) as [[? ?] ?]. by destruct c.
Qed.

(** *** The events of an item *)

Lemma text_step d s : process (text_event d) s = on_text responseID created "content" (text_event d) s.
Proof. reflexivity. Qed.
Lemma thought_step d s : process (thought_event d) s = on_text responseID created "reasoning_content" (thought_event d) s.
Proof. reflexivity. Qed.

Definition text_chunks (key : string) (ds : list bytes) : list object :=
  omap (λ d, if nonempty d then Some (chunk_of_delta [member key (JStr d)]) else None) ds.

Definition outputs (ds : list bytes) (s : CodexStreamState) : CodexStreamState :=
  foldl (λ s d, if nonempty d then add_output (zlen d) s else s) s ds.

Lemma deltas_step key mk ds s : (∀ d s, process (mk d) s = on_text responseID created key (mk d) s) → (∀ d, stringOf (mk d) "delta" = d) →
  process_all (map mk ds) s = (outputs ds s, text_chunks key ds).
Proof.
  intros Hp Hd. unfold outputs. revert s. induction ds as [|d ds IH]; intros s; cbn [map process_all foldl]; [done|].
  rewrite Hp. unfold on_text. rewrite Hd. unfold text_chunks. cbn [omap list_omap]. destruct (nonempty d); by rewrite IH.
Qed.

(** The state between items: [n] calls so far. *)
Record settled (n : Z) (s : CodexStreamState) : Prop := {
  settled_count : ToolCallCount s = n;
  settled_emitted : ∀ i, i ∈ ArgsEmitted s → i < n;
  settled_args : ∀ c, c ≠ [] → ToolCallArgs s !! c = None;
  settled_names : name_of [] s = None
}.

(** What only the calls change. *)
Definition same_calls (s s' : CodexStreamState) : Prop :=
  ToolCallCount s' = ToolCallCount s ∧ ToolCallIdx s' = ToolCallIdx s ∧ ToolCallNames s' = ToolCallNames s ∧ ToolCallArgs s' = ToolCallArgs s ∧
  ItemIDToIdx s' = ItemIDToIdx s ∧ ArgsEmitted s' = ArgsEmitted s.

Lemma outputs_same ds s : same_calls s (outputs ds s) ∧ Completed (outputs ds s) = Completed s ∧ UpstreamErr (outputs ds s) = UpstreamErr s.
Proof.
  unfold outputs. revert s. induction ds as [|d ds IH]; intros s; cbn [foldl]; [by repeat split|].
  destruct (nonempty d); [|apply IH]. exact (IH (add_output (zlen d) s)).
Qed.

(** *** A call *)

Definition opened (item call name : bytes) (s : CodexStreamState) : CodexStreamState :=
  set_current call (set_names (Some (<[call := name]> (default ∅ (ToolCallNames s)))) (set_item item (ToolCallCount s) (new_index call s))).

Lemma added_step item call name s : item ≠ [] → call ≠ [] → ItemIDToIdx s !! item = None → ToolCallIdx s !! call = None →
  process (added_event item call name) s =
    (opened item call name s, Some (chunk_of_call (full_call (ToolCallCount s) call [member "name" (JStr name); member "arguments" (text "")]))).
Proof.
  intros Hi Hc Hitem Hcall. change (process (added_event item call name) s) with (on_item_added responseID created (added_event item call name) s).
  unfold on_item_added. change (map_member "item" _) with (Some (call_item item call name [])). cbv beta iota.
  change (is_call_item _) with true. cbv beta iota.
  change (stringOf (call_item _ _ _ _) "name") with name. change (stringOf (call_item _ _ _ _) "call_id") with call.
  change (stringOf (call_item _ _ _ _) "id") with item. change (stringOf (added_event _ _ _) "item_id") with (@nil ascii).
  unfold either. rewrite (nonempty_true call), (nonempty_true call) by done. change (nonempty []) with false. cbv beta iota.
  rewrite Hcall, (nonempty_true item), Hitem by done. reflexivity.
Qed.

Definition grown (n : Z) (parts : list bytes) (s : CodexStreamState) : CodexStreamState :=
  foldl (λ s d, set_emitted n (set_args [] (args_of [] s ++ d) s)) s parts.

Lemma args_step item d n s : item ≠ [] → d ≠ [] → ItemIDToIdx s !! item = Some n →
  process (args_event item d) s =
    (set_emitted n (set_args [] (args_of [] s ++ d) s), Some (chunk_of_call (full_call n [] [member "arguments" (JStr d)]))).
Proof.
  intros Hi Hd Hn. change (process (args_event item d) s) with (on_args_delta responseID created (args_event item d) s).
  unfold on_args_delta. change (stringOf (args_event _ _) "delta") with d. rewrite (nonempty_true d) by done. cbv zeta.
  change (stringOf (args_event _ _) "item_id") with item. change (stringOf (args_event _ _) "call_id") with (@nil ascii).
  change (stringOf (args_event _ _) "name") with (@nil ascii).
  unfold find_call. rewrite (nonempty_true item), Hn by done. reflexivity.
Qed.

Lemma parts_step item n parts s : item ≠ [] → Forall (λ p, p ≠ []) parts → ItemIDToIdx s !! item = Some n →
  process_all (map (args_event item) parts) s =
    (grown n parts s, map (λ d, chunk_of_call (full_call n [] [member "arguments" (JStr d)])) parts).
Proof.
  intros Hi Hf. unfold grown. revert s. induction Hf as [|d ds Hd Hf IH]; intros s Hn; cbn [map process_all foldl]; [done|].
  rewrite (args_step item d n) by done. by rewrite IH by done.
Qed.

Lemma grown_facts n parts s (s' := grown n parts s) :
  args_of [] s' = args_of [] s ++ concat parts ∧ ToolCallCount s' = ToolCallCount s ∧ ToolCallIdx s' = ToolCallIdx s ∧
  ToolCallNames s' = ToolCallNames s ∧ ItemIDToIdx s' = ItemIDToIdx s ∧ Completed s' = Completed s ∧ UpstreamErr s' = UpstreamErr s ∧
  (∀ c, c ≠ [] → ToolCallArgs s' !! c = ToolCallArgs s !! c) ∧
  (∀ i, i ∈ ArgsEmitted s' ↔ i ∈ ArgsEmitted s ∨ i = n ∧ parts ≠ []).
Proof.
  unfold s', grown. clear s'. revert s. induction parts as [|d parts IH]; intros s; cbn [foldl concat].
  - rewrite app_nil_r. repeat split; try done; naive_solver.
  - destruct (IH (set_emitted n (set_args [] (args_of [] s ++ d) s))) as (-> & -> & -> & -> & -> & -> & -> & Ha & He).
    split; [|repeat (split; [done|]); split].
    + unfold args_of at 1. cbn [ToolCallArgs set_emitted set_args]. rewrite lookup_insert_eq. cbn [default]. by rewrite app_assoc.
    + intros c Hc. rewrite Ha by done. cbn [ToolCallArgs set_emitted set_args]. by rewrite lookup_insert_ne.
    + intros i. rewrite He. cbn [ArgsEmitted set_emitted set_args]. rewrite elem_of_union, elem_of_singleton.
      split; [intros [[->|?]|[-> ?]]; auto|intros [?|[-> ?]]; auto].
Qed.

Lemma done_step item args n s : item ≠ [] → args ≠ [] → ItemIDToIdx s !! item = Some n → name_of [] s = None →
  contains args (args_of [] s) = true → process (done_event item args) s = (s, None).
Proof.
  intros Hi Ha Hn Hname Hc. change (process (done_event item args) s) with (on_args_done responseID created (done_event item args) s).
  unfold on_args_done. change (stringOf (done_event _ _) "arguments") with args. change (stringOf (done_event _ _) "item_id") with item.
  change (stringOf (done_event _ _) "call_id") with (@nil ascii). change (stringOf (done_event _ _) "name") with (@nil ascii).
  unfold find_call. rewrite (nonempty_true item), Hn by done. cbv beta iota zeta. rewrite Hname. cbn [default].
  change (either [] []) with (@nil ascii). change (nonempty []) with false. cbn [andb].
  assert (Hs : match ToolCallNames s with Some _ => s | None => s end = s) by by destruct (ToolCallNames s).
  rewrite Hs. assert (He : nonempty (args_of [] s) = true).
  { apply nonempty_true. intros E. rewrite E in Hc. apply contains_spec in Hc as (x & y & E'). destruct x, args; done. }
  by rewrite He, Hc, orb_true_r.
Qed.

Lemma item_step item call name args n s : item ≠ [] → ItemIDToIdx s !! item = Some n → n ∈ ArgsEmitted s →
  process (item_event item call name args) s = (set_current [] s, None).
Proof.
  intros Hi Hn He. change (process (item_event item call name args) s) with (on_item_done responseID created (item_event item call name args) s).
  unfold on_item_done. change (map_member "item" _) with (Some (call_item item call name args)). cbv beta iota.
  change (is_call_item _) with true. cbv beta iota. change (stringOf (call_item _ _ _ _) "id") with item.
  change (stringOf (item_event _ _ _ _) "item_id") with (@nil ascii). change (either [] item) with item.
  change (stringOf (call_item _ _ _ _) "arguments") with args. rewrite (nonempty_true item) by done.
  change (ItemIDToIdx (set_current [] s)) with (ItemIDToIdx s). rewrite Hn. cbn [default].
  change (ArgsEmitted (set_current [] s)) with (ArgsEmitted s). rewrite bool_decide_eq_true_2 by done. by destruct (nonempty args).
Qed.

Definition call_objects (n : Z) (call name : bytes) (parts : list bytes) : list object :=
  full_call n call [member "name" (JStr name); member "arguments" (text "")] ::
  map (λ d, full_call n [] [member "arguments" (JStr d)]) parts.

Lemma called_step item call name parts n s : settled n s → item ≠ [] → call ≠ [] → Forall (λ p, p ≠ []) parts → parts ≠ [] →
  ItemIDToIdx s !! item = None → ToolCallIdx s !! call = None →
  ∃ s', process_all (events_of (Called item call name parts)) s = (s', map (call_chunk responseID created) (call_objects n call name parts)) ∧
    settled (n + 1) s' ∧ ItemIDToIdx s' = <[item := n]> (ItemIDToIdx s) ∧ ToolCallIdx s' = <[call := n]> (ToolCallIdx s) ∧
    Completed s' = Completed s ∧ UpstreamErr s' = UpstreamErr s.
Proof.
  intros [Hn He Ha Hnames] Hi Hc Hf Hne Hitem Hcall. cbn [events_of process_all].
  rewrite added_step, Hn by done. set (s1 := opened item call name s).
  assert (H1 : ItemIDToIdx s1 !! item = Some n) by (cbn; rewrite <- Hn; apply lookup_insert_eq).
  rewrite process_all_app, (parts_step item n) by done. set (s2 := grown n parts s1).
  destruct (grown_facts n parts s1) as (G1 & G2 & G3 & G4 & G5 & G6 & G7 & G8 & G9). fold s2 in G1, G2, G3, G4, G5, G6, G7, G8, G9.
  assert (H2 : ItemIDToIdx s2 !! item = Some n) by by rewrite G5.
  assert (N2 : name_of [] s2 = None).
  { unfold name_of. rewrite G4. cbn [ToolCallNames s1 opened set_current set_names]. cbn [mbind option_bind].
    rewrite lookup_insert_ne by done. unfold name_of in Hnames. destruct (ToolCallNames s); [done|apply lookup_empty]. }
  assert (Hcat : concat parts ≠ []) by (destruct parts as [|p ps]; [done|]; apply Forall_cons in Hf as [Hp _]; cbn; by destruct p).
  cbn [process_all]. rewrite (done_step item (concat parts) n s2), (item_step item call name (concat parts) n s2); try done.
  - exists (set_current [] s2). split; [by cbn; rewrite ?app_nil_r, map_map|]. split; [|by rewrite <- Hn].
    split; [cbn [ToolCallCount set_current]; rewrite G2; cbn; lia|..].
    + intros i [Hin|[-> _]]%G9; [apply He in Hin|]; lia.
    + intros c Hc'. cbn [ToolCallArgs set_current]. rewrite G8 by done. by apply Ha.
    + exact N2.
  - apply G9. right. done.
  - rewrite G1. apply contains_spec. exists (args_of [] s1), []. by rewrite app_nil_r.
Qed.

Lemma texts_step ds s : process_all (map text_event ds) s = (outputs ds s, text_chunks "content" ds).
Proof. by apply deltas_step. Qed.
Lemma thoughts_step ds s : process_all (map thought_event ds) s = (outputs ds s, text_chunks "reasoning_content" ds).
Proof. by apply deltas_step. Qed.

(** *** The items of a stream *)

Fixpoint chunks_of (n : Z) (items : list codex_item) : list object :=
  match items with
  | [] => []
  | Said ds :: items => text_chunks "content" ds ++ chunks_of n items
  | Thought ds :: items => text_chunks "reasoning_content" ds ++ chunks_of n items
  | Called item call name parts :: items => map (call_chunk responseID created) (call_objects n call name parts) ++ chunks_of (n + 1) items
  end.

Lemma settled_same n s s' : same_calls s s' → settled n s → settled n s'.
Proof. intros (E1 & E2 & E3 & E4 & E5 & E6) [H1 H2 H3 H4]. unfold name_of in *. split; unfold name_of; by rewrite ?E1, ?E3, ?E4, ?E6. Qed.

Lemma items_step items n s : settled n s → sound_items items →
  (∀ i, i ∈ item_ids items → ItemIDToIdx s !! i = None) → (∀ c, c ∈ call_ids items → ToolCallIdx s !! c = None) →
  ∃ s', process_all (concat (map events_of items)) s = (s', chunks_of n items) ∧ settled (n + zlen (calls_of items)) s' ∧
    Completed s' = Completed s ∧ UpstreamErr s' = UpstreamErr s.
Proof.
  revert n s. induction items as [|i items IH]; intros n s Hs [Hia Hca Hids Hparts] Hin Hcn; cbn [map concat chunks_of].
  { exists s. split; [done|]. by rewrite Z.add_0_r. }
  rewrite process_all_app. destruct i as [ds|ds|item call name parts]; cbn [events_of].
  1,2: rewrite ?texts_step, ?thoughts_step; destruct (outputs_same ds s) as (Hsame & Hco & Her);
    destruct (IH n (outputs ds s)) as (s' & -> & Hset & E1 & E2); [by eapply settled_same|done|by destruct Hsame as (_ & _ & _ & _ & -> & _)|
      by destruct Hsame as (_ & -> & _)|exists s'; by rewrite E1, E2].
  cbn in Hia, Hca, Hids, Hparts, Hin, Hcn. apply NoDup_cons in Hia as [Hi1 Hi2]. apply NoDup_cons in Hca as [Hc1 Hc2].
  apply Forall_cons in Hids as [[Hi Hc] Hids]. apply Forall_cons in Hparts as [[Hp Hpne] Hparts].
  destruct (called_step item call name parts n s) as (s1 & E1 & Hs1 & Ei & Ec & Hco & Her); [done..|by apply Hin; left|by apply Hcn; left|].
  cbn [events_of] in E1. rewrite E1. destruct (IH (n + 1) s1) as (s' & -> & Hset & E2 & E3); [done|done|..].
  - intros i Hi'. rewrite Ei, lookup_insert_ne; [apply Hin; by right|]. intros ->. done.
  - intros c Hc'. rewrite Ec, lookup_insert_ne; [apply Hcn; by right|]. intros ->. done.
  - exists s'. rewrite E2, E3. split; [done|]. split; [|done]. cbn [calls_of omap list_omap call_of_item length].
    replace (n + zlen _) with (n + 1 + zlen (calls_of items)) by (unfold calls_of, zlen; cbn [length]; lia). exact Hset.
Qed.

(** *** What the chunks say *)

Lemma said_text key k ds : said k (text_chunks key ds) = if String.eqb k key then concat ds else [].
Proof.
  induction ds as [|d ds IH]; [by destruct (String.eqb k key)|]. unfold text_chunks in *. cbn [omap list_omap concat].
  destruct d as [|c d]; [exact IH|]. cbn [nonempty]. change (nonempty (c :: d)) with true. cbv beta iota.
  unfold said in *. cbn [map concat]. rewrite IH.
  assert (E : stringOf (chunk_delta (chunk_of_delta [member key (JStr (c :: d))])) k = if String.eqb k key then c :: d else []).
  { change (chunk_delta _) with [member key (JStr (c :: d))]. unfold stringOf. cbn [obj_get member].
    destruct (String.eqb_spec k key) as [->|Hk]; [by rewrite bool_decide_eq_true_2|]. rewrite bool_decide_eq_false_2; [done|]. by intros ?%B_inj. }
  rewrite E. by destruct (String.eqb k key).
Qed.

Lemma text_parts key ds i : key = "content"%string ∨ key = "reasoning_content"%string → parts_of out_of_range i (text_chunks key ds) = [].
Proof.
  intros Hk. unfold parts_of. assert (E : concat (map chunk_calls (text_chunks key ds)) = []); [|by rewrite E].
  unfold text_chunks. induction ds as [|d ds IH]; [done|]. cbn [omap list_omap]. destruct (nonempty d); [|exact IH]. cbn [map concat].
  rewrite IH. by destruct Hk as [-> | ->].
Qed.

Lemma said_calls k n call name parts : k = "content"%string ∨ k = "reasoning_content"%string →
  said k (map (call_chunk responseID created) (call_objects n call name parts)) = [].
Proof.
  intros Hk. unfold said. induction (call_objects n call name parts) as [|o l IH]; [done|]. cbn [map concat]. rewrite IH. by destruct Hk as [-> | ->].
Qed.

Lemma call_parts n call name parts i : 0 <= n < 2 ^ 53 →
  parts_of out_of_range i (map (call_chunk responseID created) (call_objects n call name parts)) = if n =? i then call_objects n call name parts else [].
Proof.
  intros Hn. unfold parts_of. assert (E : concat (map chunk_calls (map (call_chunk responseID created) (call_objects n call name parts))) = call_objects n call name parts).
  { induction (call_objects n call name parts) as [|o l IH]; [done|]. cbn [map concat]. by rewrite IH. }
  rewrite E. assert (Hi : Forall (λ o, call_index out_of_range o = n) (call_objects n call name parts)).
  { constructor; [exact (number_int_itoa out_of_range n Hn)|]. apply Forall_map, Forall_forall. intros d _. exact (number_int_itoa out_of_range n Hn). }
  destruct (Z.eqb_spec n i) as [->|Hne].
  - apply filter_id. by eapply Forall_impl.
  - apply filter_none. eapply Forall_impl; [exact Hi|]. intros o -> ?. done.
Qed.

(** The objects of the call of an index, in a stream numbered from [n]. *)
Definition numbered (n i : Z) (items : list codex_item) : list object :=
  if n <=? i then match calls_of items !! Z.to_nat (i - n) with Some (_, call, name, parts) => call_objects i call name parts | None => [] end else [].

Lemma codex_chunks_say items n : 0 <= n → n + zlen (calls_of items) <= 2 ^ 53 →
  said "content" (chunks_of n items) = concat (map text_of_item items) ∧
  said "reasoning_content" (chunks_of n items) = concat (map thought_of_item items) ∧
  ∀ i, parts_of out_of_range i (chunks_of n items) = numbered n i items.
Proof.
  revert n. induction items as [|it items IH]; intros n Hn Hl.
  { split; [done|]. split; [done|]. intros i. unfold numbered. cbn. by destruct (n <=? i). }
  destruct it as [ds|ds|item call name parts]; cbn [chunks_of map concat text_of_item thought_of_item].
  1,2: destruct (IH n Hn Hl) as (H1 & H2 & H3); rewrite !said_app, !said_text, H1, H2; split; [done|]; split; [done|];
    intros i; rewrite parts_of_app, text_parts, H3 by auto; done.
  assert (Hl' : zlen (calls_of (Called item call name parts :: items)) = 1 + zlen (calls_of items)) by (unfold zlen, calls_of; cbn [omap list_omap call_of_item length]; lia).
  assert (Hpos := zlen_nonneg (calls_of items)).
  destruct (IH (n + 1) ltac:(lia) ltac:(lia)) as (H1 & H2 & H3). rewrite !said_app, !said_calls, H1, H2 by auto. split; [done|]. split; [done|].
  intros i. rewrite parts_of_app, call_parts, H3 by lia. unfold numbered. cbn [calls_of omap list_omap call_of_item].
  destruct (Z.eqb_spec n i) as [->|Hne].
  - rewrite (proj2 (Z.leb_gt (i + 1) i)), Z.leb_refl, Z.sub_diag by lia. cbn [Z.to_nat lookup list_lookup]. by rewrite app_nil_r.
  - destruct (Z.leb_spec (n + 1) i), (Z.leb_spec n i); try lia; [|done].
    replace (Z.to_nat (i - n)) with (S (Z.to_nat (i - (n + 1)))) by lia. done.
Qed.

(** *** Whole streams *)

Lemma completed_step e s : stringOf e "type" = B "response.completed" → process e s = on_completed out_of_range responseID created e s.
Proof. intros E. unfold process_event, event_is. by rewrite E. Qed.

Lemma settled_fresh : settled 0 fresh_codex.
Proof. split; [done|set_solver|intros; apply lookup_empty|done]. Qed.

(** The last chunk says nothing but the reason. *)
Lemma completed_chunk e s : ∃ c, on_completed out_of_range responseID created e s = (set_completed s, Some c) ∧
  chunk_calls c = [] ∧ (∀ k, stringOf (chunk_delta c) k = []) ∧
  obj_get (B "finish_reason") (chunk_choice c) = text (if 0 <? ToolCallCount s then "tool_calls" else "stop").
Proof.
  unfold on_completed. eexists. split; [reflexivity|]. unfold codex_chunk. by destruct (0 <? ToolCallCount s).
Qed.

(** What the objects of a call say together. *)
Lemma objects_say n call name parts (os := call_objects n call name parts) :
  last_text (map (λ o, stringOf o "id") os) = call ∧ last_text (names_told os) = name ∧ concat (argument_parts os) = concat parts.
Proof.
  assert (Hl : ∀ {A} (f : A → bytes) l d, (∀ x, f x = []) → foldl (λ d s, if nonempty s then s else d) d (map f l) = d).
  { intros A f l d Hf. induction l as [|x l IH]; [done|]. cbn [map foldl]. by rewrite Hf. }
  unfold os, call_objects, names_told, argument_parts. cbn [map]. rewrite !map_map. unfold last_text. cbn [foldl].
  split; [|split].
  - change (stringOf (full_call n call _) "id") with call. rewrite Hl by done. by destruct call.
  - change (stringOf (default [] (map_member "function" (full_call n call [member "name" (JStr name); member "arguments" (text "")]))) "name") with name.
    rewrite Hl by done. by destruct name.
  - change (stringOf (default [] (map_member "function" (full_call n call [member "name" (JStr name); member "arguments" (text "")]))) "arguments") with (@nil ascii).
    cbn [concat app]. f_equal. rewrite <- (map_id parts) at 2. by apply map_ext.
Qed.

(** The end of a stream, with the terminator or without. *)
Lemma run_ending ending s : ending = [] ∨ ending = [done_mark] →
  ∃ seen, run_events out_of_range responseID created ending s = (s, [], seen).
Proof. intros [-> | ->]; [by eexists|]. exists true. cbn [run_events]. by rewrite bool_decide_eq_true_2. Qed.

(** C17. The items of a Responses stream of this form reach a Chat Completions client whole: the
    items come one after another, text and reasoning in deltas, every call with an id of
    its own as the event that adds it, its argument deltas (at least one, none empty) and
    the two events that end it with the same arguments, and [response.completed] ends the stream. Then
    the client gets the text and the reasoning in order, every call once, under the
    number of its place, with its id, its name and its arguments, the right finish
    reason, and one terminator. Calls that take turns, or whose arguments come only in
    the events that end them, are told twice ([whole_call_is_doubled]). *)
Theorem codex_items_reach_client items completed payloads ending :
  sound_items items → zlen (calls_of items) < 2 ^ 53 → stringOf completed "type" = B "response.completed" →
  Forall2 carries payloads (concat (map events_of items) ++ [completed]) → ending = [] ∨ ending = [done_mark] →
  ∃ chunks, let r := stream_to_openai out_of_range responseID created (payloads ++ ending) false in
    cx_written r = concat (map codex_frame chunks) ++ sseDoneFrame ∧ cx_error r = None ∧
    said "content" chunks = concat (map text_of_item items) ∧ said "reasoning_content" chunks = concat (map thought_of_item items) ∧
    (∀ i item call name parts, calls_of items !! i = Some (item, call, name, parts) →
       let os := parts_of out_of_range (Z.of_nat i) chunks in
       last_text (map (λ o, stringOf o "id") os) = call ∧ last_text (names_told os) = name ∧ concat (argument_parts os) = concat parts) ∧
    (∀ i, parts_of out_of_range i chunks ≠ [] → 0 <= i < zlen (calls_of items)) ∧
    last_reason chunks [] = B (match calls_of items with [] => "stop" | _ => "tool_calls" end).
Proof.
  intros Hsound Hlen Hty Hcarry Hend.
  destruct (items_step items 0 fresh_codex settled_fresh Hsound) as (s & Hall & [Hcount _ _ _] & _ & Herr); [intros; apply lookup_empty..|].
  destruct (completed_chunk completed s) as (c & Hc & Hcalls & Hdelta & Hreason).
  destruct (run_ending ending (set_completed s) Hend) as (seen & Hrun).
  assert (Hevents : run_events out_of_range responseID created (payloads ++ ending) fresh_codex = (set_completed s, chunks_of 0 items ++ [c], seen)).
  { rewrite (run_carried _ _ _ _ Hcarry), process_all_app, Hall. cbn [process_all]. by rewrite (completed_step _ _ Hty), Hc, Hrun, app_nil_r. }
  destruct (codex_chunks_say items 0 ltac:(lia) ltac:(lia)) as (H1 & H2 & H3).
  destruct (one_more out_of_range (chunks_of 0 items) c) as (M1 & M2 & M3 & M4). rewrite Z.add_0_l in Hcount.
  exists (chunks_of 0 items ++ [c]). unfold stream_to_openai. rewrite Hevents.
  assert (Hok : codexFailedEmptyTurn (set_completed s) = false) by (unfold codexFailedEmptyTurn; cbn [UpstreamErr set_completed set_output]; by rewrite Herr).
  rewrite Hok. cbv beta iota zeta. cbn [cx_written cx_error]. rewrite andb_false_r.
  split; [done|]. split; [done|]. rewrite M1, M2, !Hdelta, H1, H2, !app_nil_r. split; [done|]. split; [done|]. split; [|split].
  - intros i item call name parts Hi. rewrite M3, H3 by done. unfold numbered. rewrite (proj2 (Z.leb_le 0 _)), Z.sub_0_r, Nat2Z.id, Hi by lia.
    apply objects_say.
  - intros i. rewrite M3, H3 by done. unfold numbered. destruct (Z.leb_spec 0 i); [|done].
    destruct (calls_of items !! _) eqn:E; [|done]. intros _. apply lookup_lt_Some in E. unfold zlen. lia.
  - erewrite M4; [|rewrite Hreason; reflexivity]. rewrite Hcount. destruct (calls_of items) as [|x l]; [done|].
    by rewrite (proj2 (Z.ltb_lt 0 _)) by (unfold zlen; cbn [length]; lia).
Qed.

(** *** Failures *)

(** The events that say something, or end the turn. *)
Definition speaking : list string := [
  "response.output_text.delta"; "response.text.delta"; "response.reasoning_summary_text.delta"; "response.reasoning_text.delta";
  "response.thought.delta"; "response.output_item.added"; "response.function_call_arguments.delta"; "response.custom_tool_call_input.delta";
  "response.function_call_arguments.done"; "response.output_item.done"; "response.completed"]%string.
Definition quiet (e : object) : bool := negb (event_is e speaking).

(** The failure an event tells. *)
Definition failure_of (e : object) : option object :=
  if event_is e ["error"]%string then Some e
  else if event_is e ["response.failed"]%string then Some (normalizeCodexFailureEvent e) else None.
Definition last_failure (es : list object) : option object := last (omap failure_of es).

Definition record_failure (e : object) (s : CodexStreamState) : CodexStreamState :=
  match failure_of e with Some m => set_failed (marshal (JObj m)) s | None => s end.

Lemma quiet_step e s : quiet e = true → process e s = (record_failure e s, None).
Proof.
  unfold quiet, event_is, speaking. intros Hq%negb_true_iff. unfold process_event, record_failure, failure_of, event_is.
  cbn [is_one existsb] in *. repeat (apply orb_false_iff in Hq as [? Hq]).
  repeat match goal with H : bool_decide _ = false |- _ => rewrite H; clear H end. cbn [orb].
  by destruct (bool_decide _ || false); [|destruct (bool_decide _ || false)].
Qed.

Lemma quiet_all es s : Forall (λ e, quiet e = true) es → process_all es s = (foldl (λ s e, record_failure e s) s es, []).
Proof. intros Hq. revert s. induction Hq as [|e es He _ IH]; intros s; cbn [process_all foldl]; [done|]. by rewrite quiet_step, IH. Qed.

(** Only the last failure is kept, and nothing else is. *)
Lemma failures_recorded es s (s' := foldl (λ s e, record_failure e s) s es) :
  OutputLength s' = OutputLength s ∧ ToolCallCount s' = ToolCallCount s ∧ Completed s' = Completed s ∧
  UpstreamErr s' = match last_failure es with Some m => marshal (JObj m) | None => UpstreamErr s end.
Proof.
  unfold s', last_failure. clear s'. induction es as [|e es IH] using rev_ind; [done|].
  rewrite foldl_app, omap_app. cbn [foldl omap list_omap]. destruct IH as (E1 & E2 & E3 & E4). unfold record_failure at 1 3 5 7.
  destruct (failure_of e) as [m|]; [|by rewrite app_nil_r]. rewrite last_snoc. done.
Qed.

Lemma run_quiet payloads es ending : Forall2 carries payloads es → Forall (λ e, quiet e = true) es → ending = [] ∨ ending = [done_mark] →
  ∃ seen, run_events out_of_range responseID created (payloads ++ ending) fresh_codex = (foldl (λ s e, record_failure e s) fresh_codex es, [], seen).
Proof.
  intros Hc Hq He. destruct (run_ending ending (foldl (λ s e, record_failure e s) fresh_codex es) He) as [seen Hr].
  exists seen. by rewrite (run_carried _ _ _ _ Hc), quiet_all, Hr.
Qed.

Lemma collect_quiet payloads es ending s size : Forall2 carries payloads es → Forall (λ e, quiet e = true) es → ending = [] ∨ ending = [done_mark] →
  collect_events out_of_range responseID created (payloads ++ ending) s size = (foldl (λ s e, record_failure e s) s es, []).
Proof.
  intros Hc Hq He. revert s Hq. induction Hc as [|p e ps es [Hp Hu] Hf IH]; intros s Hq.
  - destruct He as [-> | ->]; [done|]. cbn [app collect_events]. by rewrite bool_decide_eq_true_2.
  - apply Forall_cons in Hq as [Hq1 Hq2]. cbn [app collect_events foldl]. rewrite bool_decide_eq_false_2 by done.
    unfold ProcessCodexEvent. by rewrite Hu, quiet_step, IH.
Qed.

(** The status and the text of a failure. *)
Definition refuses_access (t : bytes) : bool := contains (B "freetier") (to_lower t) || contains (B "forbidden") (to_lower t) || contains (B "auth") (to_lower t).

(** A failure the upstream told can be encoded. *)
Lemma failure_well_formed spell payloads es m : sound_codec spell → Forall2 carries payloads es → last_failure es = Some m →
  well_formed (JObj m) = true.
Proof.
  intros Hc Hp. unfold last_failure. intros Hm%last_Some_elem_of. apply list_elem_of_omap in Hm as (e & He & Hf).
  assert (Hwf : well_formed (JObj e) = true).
  { apply list_elem_of_lookup in He as [i Hi]. destruct (Forall2_lookup_r _ _ _ _ _ Hp Hi) as (p & _ & _ & Hu).
    exact (decoded_well_formed _ Hc p _ Hu). }
  unfold failure_of in Hf. destruct (event_is e ["error"]%string); [by injection Hf as <-|].
  destruct (event_is e ["response.failed"]%string); [|done]. injection Hf as <-. unfold normalizeCodexFailureEvent.
  destruct (map_member "response" e) as [resp|] eqn:Er; [|done]. cbn [mbind option_bind].
  destruct (map_member "error" resp) as [err|] eqn:Ee; [|done].
  pose proof (wf_member e "response" Hwf) as H1. rewrite Er in H1. pose proof (wf_member resp "error" H1) as H2. rewrite Ee in H2.
  apply wf_members. split; [apply (bool_decide_unpack _); by vm_compute|].
  intros k v Hin. repeat (apply elem_of_cons in Hin as [[= -> ->]|Hin]; [by split|]). by apply elem_of_nil in Hin.
Qed.

Lemma codex_error_again spell m : decode_codex_error (respell_members spell m) = decode_codex_error m.
Proof.
  unfold decode_codex_error. rewrite respell_objf. destruct (obj_field (B "error") m) as [e|]; [|done].
  cbn [fmap option_fmap option_map mbind option_bind]. by rewrite !respell_str.
Qed.

Lemma failure_info spell m t msg : sound_codec spell → well_formed (JObj m) = true → decode_codex_error m = Some (t, msg) →
  codexEventErrorInfo (marshal (JObj m)) = (if refuses_access t then 403 else 502, either msg (B "upstream error")).
Proof.
  intros Hc Hm E. unfold codexEventErrorInfo. rewrite (decode_encode _ Hc) by done. rewrite respell_obj. cbn [mbind option_bind as_struct].
  by rewrite codex_error_again, E.
Qed.

Lemma failed_state spell es m : sound_codec spell → well_formed (JObj m) = true → last_failure es = Some m →
  codexFailedEmptyTurn (foldl (λ s e, record_failure e s) fresh_codex es) = true ∧
  UpstreamErr (foldl (λ s e, record_failure e s) fresh_codex es) = marshal (JObj m).
Proof.
  intros Hc Hwf Hm. destruct (failures_recorded es fresh_codex) as (E1 & E2 & _ & E4). rewrite Hm in E4.
  split; [|done]. unfold codexFailedEmptyTurn. rewrite E1, E2, E4. destruct (object_text _ Hc m Hwf) as [x ->]. done.
Qed.

Section Clients.
Variables (visit_args : object → object) (is_truncated : bytes → bool) (key : bytes) (at_step : nat → tick) (sessions : store).
Variables (raw_text : json → bytes) (to_responses : bytes → option bytes) (seconds nanos : Z) (guarded : bool) (policy : option (option Engine)).

Abbreviation to_openai payloads scan_failed := (stream_to_openai out_of_range responseID created payloads scan_failed).
Abbreviation to_claude payloads scan_failed := (stream_to_claude out_of_range responseID created is_truncated key at_step payloads scan_failed sessions).1.
Abbreviation document payloads c :=
  (answer_document out_of_range responseID created visit_args raw_text to_responses seconds nanos guarded policy c payloads).

(** C18. A turn of which the upstream said only that it failed is told as a failure to
    every client, with the message of the last failure: the error frame of its format
    and nothing else in a stream, no document, and an error of status 502, or 403
    when the type of the failure speaks of access, for the fallback. *)
Theorem failed_turn_is_reported spell es payloads ending m t msg c scan_failed
    (status := if refuses_access t then 403 else 502) (told := either msg (B "upstream error")) :
  sound_codec spell → Forall2 carries payloads es → Forall (λ e, quiet e = true) es → ending = [] ∨ ending = [done_mark] →
  last_failure es = Some m → decode_codex_error m = Some (t, msg) →
  ∃ e, ue_StatusCode e = status ∧
    to_openai (payloads ++ ending) scan_failed =
      {| cx_written := BuildStreamErrorBytes status told SSEFormatOpenAI; cx_usage := None; cx_error := Some (UpstreamSaid e) |} ∧
    to_claude (payloads ++ ending) scan_failed =
      {| cx_written := BuildStreamErrorBytes status told SSEFormatClaude; cx_usage := Some no_usage; cx_error := Some (UpstreamSaid e) |} ∧
    document (payloads ++ ending) c = Failed e.
Proof.
  intros Hcodec Hc Hq He Hm Hd. destruct (run_quiet payloads es ending Hc Hq He) as [seen Hrun].
  assert (Hwf := failure_well_formed spell payloads es m Hcodec Hc Hm).
  destruct (failed_state spell es m Hcodec Hwf Hm) as [Hf Hu]. exists (codexUpstreamError (marshal (JObj m))).
  assert (Hi := failure_info spell m t msg Hcodec Hwf Hd). split; [unfold codexUpstreamError; by rewrite Hi|].
  unfold stream_to_openai, stream_to_claude, answer_document. rewrite Hrun, (collect_quiet _ es) by done.
  rewrite Hf, Hu, Hi. done.
Qed.

(** *** Streams that break off *)

Definition same_end (s s' : CodexStreamState) : Prop := Completed s' = Completed s ∧ UpstreamErr s' = UpstreamErr s.

(** Every branch, the innermost choice first. *)
Ltac by_cases :=
  repeat match goal with
  | |- context [match ?x with _ => _ end] => lazymatch x with context [match _ with _ => _ end] => fail | _ => destruct x end
  end; done.

Lemma find_call_keeps item call s : same_end s (find_call item call s).1.1.
Proof. unfold find_call. by_cases. Qed.
Lemma on_text_keeps k e s : same_end s (on_text responseID created k e s).1.
Proof. unfold on_text. cbv zeta. by_cases. Qed.
Lemma on_item_added_keeps e s : same_end s (on_item_added responseID created e s).1.
Proof. unfold on_item_added. cbv zeta. by_cases. Qed.
Lemma on_args_delta_keeps e s : same_end s (on_args_delta responseID created e s).1.
Proof.
  unfold on_args_delta. cbv zeta. assert (K := find_call_keeps (stringOf e "item_id") (stringOf e "call_id") s).
  destruct (find_call _ _ s) as [[s' ?] ?]. by_cases.
Qed.
Lemma on_args_done_keeps e s : same_end s (on_args_done responseID created e s).1.
Proof.
  unfold on_args_done. cbv zeta. assert (K := find_call_keeps (stringOf e "item_id") (stringOf e "call_id") s).
  destruct (find_call _ _ s) as [[s' ?] ?]. by_cases.
Qed.
Lemma on_item_done_keeps e s : same_end s (on_item_done responseID created e s).1.
Proof. unfold on_item_done. cbv zeta. by_cases. Qed.

Lemma process_keeps e s : failure_of e = None → event_is e ["response.completed"]%string = false → same_end s (process e s).1.
Proof.
  unfold failure_of. intros Hf Hc. unfold process_event. destruct (event_is e ["error"]%string); [done|].
  destruct (event_is e ["response.failed"]%string); [done|]. rewrite Hc.
  repeat match goal with |- context [if event_is e ?l then _ else _] => destruct (event_is e l) end; [apply on_text_keeps..| | | | |done];
    auto using on_item_added_keeps, on_args_delta_keeps, on_args_done_keeps, on_item_done_keeps.
Qed.

Lemma broken_off es s : Forall (λ e, failure_of e = None ∧ event_is e ["response.completed"]%string = false) es →
  same_end s (process_all es s).1.
Proof.
  intros Hf. revert s. induction Hf as [|e es [Hn Hc] _ IH]; intros s; cbn [process_all]; [done|].
  assert (K := process_keeps e s Hn Hc). destruct (process e s) as [s1 c]. specialize (IH s1). destruct (process_all es s1) as [s2 cs].
  unfold same_end in *. cbn [fst] in *. destruct IH as [-> ->]. exact K.
Qed.

(** C22. A stream that breaks off before [response.completed], without a failure of the upstream
    and without the terminator, is told an OpenAI client as a turn that ended with
    [stop], and the call succeeds even when the reading ended on an error. For a client
    that asked for a document it is refused when none of its events spoke: no text, no
    reasoning and no call, not even a started one. *)
Theorem broken_stream_is_served es payloads c scan_failed (chunks := (process_all es fresh_codex).2) :
  Forall2 carries payloads es → Forall (λ e, failure_of e = None ∧ event_is e ["response.completed"]%string = false) es →
  cx_written (to_openai payloads scan_failed) =
    concat (map codex_frame chunks) ++ codex_frame (finish_chunk responseID created) ++ sseDoneFrame ∧
  cx_error (to_openai payloads scan_failed) = None ∧
  (Forall (λ e, quiet e = true) es → document payloads c = Failed (UpstreamFailure 502 NoCompletionInStream)).
Proof.
  intros Hc Hf. assert (K := broken_off es fresh_codex Hf).
  assert (Hrun : run_events out_of_range responseID created payloads fresh_codex = ((process_all es fresh_codex).1, chunks, false)).
  { rewrite <- (app_nil_r payloads), (run_carried _ _ _ _ Hc). unfold chunks. destruct (process_all es fresh_codex) as [s1 cs]. cbn [run_events fst snd].
    by rewrite app_nil_r. }
  destruct (process_all es fresh_codex) as [s cs] eqn:E. cbn [fst snd] in *. destruct K as [Kc Ku].
  unfold stream_to_openai. rewrite Hrun. unfold codexFailedEmptyTurn, writeSSEFinish. rewrite Ku, Kc. split; [done|]. split; [done|].
  intros Hq. unfold answer_document. rewrite <- (app_nil_r payloads), (collect_quiet _ es) by auto.
  assert (E' := quiet_all es fresh_codex Hq). rewrite E in E'. injection E' as <- _. unfold codexFailedEmptyTurn. rewrite Ku. done.
Qed.

End Clients.

(** *** A call without deltas *)

Lemma untold_args_step item args n s : item ≠ [] → args ≠ [] → ItemIDToIdx s !! item = Some n → name_of [] s = None → args_of [] s = [] →
  process (done_event item args) s = (set_args [] args s, Some (chunk_of_call (full_call n [] [member "arguments" (JStr args)]))).
Proof.
  intros Hi Ha Hn Hname He. change (process (done_event item args) s) with (on_args_done responseID created (done_event item args) s).
  unfold on_args_done. change (stringOf (done_event _ _) "arguments") with args. change (stringOf (done_event _ _) "item_id") with item.
  change (stringOf (done_event _ _) "call_id") with (@nil ascii). change (stringOf (done_event _ _) "name") with (@nil ascii).
  unfold find_call. rewrite (nonempty_true item), Hn by done. cbv beta iota zeta. rewrite Hname. cbn [default].
  change (either [] []) with (@nil ascii). change (nonempty []) with false. cbn [andb].
  assert (Hs : match ToolCallNames s with Some _ => s | None => s end = s) by by destruct (ToolCallNames s).
  rewrite Hs, He. change (nonempty []) with false. cbn [andb negb]. rewrite (nonempty_true args), bool_decide_eq_false_2 by done. done.
Qed.

Lemma untold_item_step item call name args n s : item ≠ [] → call ≠ [] → args ≠ [] → ItemIDToIdx s !! item = Some n → n ∉ ArgsEmitted s →
  args_of call s = [] → ∃ s', process (item_event item call name args) s =
    (s', Some (chunk_of_call [member "index" (jint n); member "function" (JObj [member "arguments" (JStr args)])])) ∧ UpstreamErr s' = UpstreamErr s.
Proof.
  intros Hi Hc Ha Hn He Hargs. change (process (item_event item call name args) s) with (on_item_done responseID created (item_event item call name args) s).
  unfold on_item_done. change (map_member "item" _) with (Some (call_item item call name args)). cbv beta iota.
  change (is_call_item _) with true. cbv beta iota zeta. change (stringOf (call_item _ _ _ _) "id") with item.
  change (stringOf (call_item _ _ _ _) "call_id") with call. change (stringOf (item_event _ _ _ _) "item_id") with (@nil ascii).
  change (either [] item) with item. change (stringOf (call_item _ _ _ _) "arguments") with args.
  unfold either. rewrite (nonempty_true item), (nonempty_true call), (nonempty_true args) by done.
  change (ItemIDToIdx (set_current [] s)) with (ItemIDToIdx s). rewrite Hn. cbn [default].
  change (ArgsEmitted (set_current [] s)) with (ArgsEmitted s). rewrite bool_decide_eq_false_2 by done.
  change (args_of call (set_current [] s)) with (args_of call s). rewrite Hargs. by eexists.
Qed.

(** The arguments of a call that the upstream sends whole, without deltas, reach the client twice: once
    for [function_call_arguments.done], once more for [output_item.done]. *)
Theorem whole_call_is_doubled item call name args completed payloads ending :
  item ≠ [] → call ≠ [] → args ≠ [] → stringOf completed "type" = B "response.completed" →
  Forall2 carries payloads [added_event item call name; done_event item args; item_event item call name args; completed] →
  ending = [] ∨ ending = [done_mark] →
  ∃ chunks, let r := stream_to_openai out_of_range responseID created (payloads ++ ending) false in
    cx_written r = concat (map codex_frame chunks) ++ sseDoneFrame ∧ cx_error r = None ∧
    argument_parts (parts_of out_of_range 0 chunks) = [[]; args; args].
Proof.
  intros Hi Hc Ha Hty Hcarry Hend. set (s1 := opened item call name fresh_codex).
  assert (Hs1 : ItemIDToIdx s1 !! item = Some 0) by apply lookup_insert_eq.
  assert (Hn1 : name_of [] s1 = None) by (change ((<[call:=name]> ∅ : gmap bytes bytes) !! [] = None); by rewrite lookup_insert_ne).
  destruct (untold_item_step item call name args 0 (set_args [] args s1)) as (s2 & Hitem & Herr); [done..|set_solver| |].
  { unfold args_of. cbn [ToolCallArgs set_args]. by rewrite lookup_insert_ne. }
  destruct (completed_chunk completed s2) as (c & Hc2 & Hcalls & _). destruct (run_ending ending (set_completed s2) Hend) as (seen & Hrun).
  eassert (Hevents : run_events out_of_range responseID created (payloads ++ ending) fresh_codex = (set_completed s2, _, seen)).
  { rewrite (run_carried _ _ _ _ Hcarry). cbn [process_all]. rewrite added_step by (done || apply lookup_empty). fold s1.
    rewrite (untold_args_step item args 0) by done. rewrite Hitem, (completed_step _ _ Hty), Hc2, Hrun. reflexivity. }
  unfold stream_to_openai. rewrite Hevents. eexists. cbv beta iota zeta.
  assert (Hok : codexFailedEmptyTurn (set_completed s2) = false) by (unfold codexFailedEmptyTurn; cbn [UpstreamErr set_completed set_output]; by rewrite Herr).
  rewrite Hok, andb_false_r. cbn [cx_written cx_error]. split; [done|]. split; [done|].
  assert (Hz : call_index out_of_range [member "index" (jint 0)] = 0) by exact (number_int_itoa out_of_range 0 ltac:(lia)).
  unfold parts_of. lazymatch goal with |- context [concat (map chunk_calls ?l)] => change (concat (map chunk_calls l)) with
    ([full_call 0 call [member "name" (JStr name); member "arguments" (text "")]; full_call 0 [] [member "arguments" (JStr args)];
      [member "index" (jint 0); member "function" (JObj [member "arguments" (JStr args)])]] ++ chunk_calls c ++ []) end.
  rewrite Hcalls, filter_id; [done|]. repeat (constructor; [exact Hz|]). constructor.
Qed.

End Relay.

Module Sample.

#[local] Existing Instance ascii_case.
#[local] Existing Instance Checked.codec.

Definition saturated (n : Z) : Z := - 2 ^ 63.
Definition id : bytes := B "chatcmpl-1".
Definition encoded (es : list object) : list bytes := map (λ e, marshal (JObj e)) es.

Lemma encoded_carries es : forallb (λ e, well_formed (JObj e)) es = true → Forall2 carries (encoded es) es.
Proof.
  unfold encoded. induction es as [|e es IH]; [constructor|]. intros [He Hes]%andb_true_iff. constructor; [|by apply IH].
  split; [|by apply Checked.read_checked]. by destruct (object_text _ Checked.checked_sound e He) as [t ->].
Qed.

Definition completed : object := ev "response.completed" [].
Definition items : list codex_item :=
  [Thought [B "hm"]; Said [B "Hel"; B ""; B "lo"]; Called (B "fc_1") (B "call_1") (B "read") [B "{"; B "}"]; Called (B "fc_2") (B "call_2") (B "list") [B "[1"; B ",1]"]].

Lemma items_sound : sound_items items.
Proof. split; repeat constructor; try (by vm_compute); set_solver. Qed.

Lemma items_reach_witness : ∃ chunks,
  cx_written (stream_to_openai saturated id 0 (encoded (concat (map events_of items) ++ [completed]) ++ [done_mark]) false) =
    concat (map codex_frame chunks) ++ sseDoneFrame ∧
  said "content" chunks = B "Hello" ∧ concat (argument_parts (parts_of saturated 1 chunks)) = B "[1,1]" ∧
  last_reason chunks [] = B "tool_calls".
Proof.
  assert (Hc := encoded_carries (concat (map events_of items) ++ [completed]) ltac:(by vm_compute)). revert Hc.
  generalize (encoded (concat (map events_of items) ++ [completed])) as payloads. intros payloads Hc.
  destruct (codex_items_reach_client saturated id 0 items completed payloads [done_mark] items_sound) as (chunks & H1 & _ & H3 & _ & H5 & _ & H7);
    [by vm_compute|reflexivity|exact Hc|by right|].
  exists chunks. split; [exact H1|]. split; [rewrite H3; by vm_compute|]. split; [|rewrite H7; by vm_compute].
  destruct (H5 1%nat (B "fc_2") (B "call_2") (B "list") [B "[1"; B ",1]"]) as (_ & _ & E); [reflexivity|]. rewrite <- (eq_refl : Z.of_nat 1 = 1). by rewrite E.
Defined.

(** A failed turn, told in the end of a response that had begun. *)
Definition failure : object := ev "response.failed" [member "response" (JObj [member "error" (JObj [member "type" (text "AuthError"); member "message" (text "no seat")])])].
Definition failed_events : list object := [ev "response.created" []; failure].

Lemma failed_turn_witness : ∃ e, ue_StatusCode e = 403 ∧
  cx_error (stream_to_openai saturated id 0 (encoded failed_events ++ []) true) = Some (UpstreamSaid e) ∧
  answer_document saturated id 0 Datatypes.id marshal (λ _, None) 0 0 false None OpenAIClient (encoded failed_events ++ []) = Failed e.
Proof.
  assert (Hc := encoded_carries failed_events ltac:(by vm_compute)). revert Hc. generalize (encoded failed_events) as payloads. intros payloads Hc.
  destruct (failed_turn_is_reported saturated id 0 Datatypes.id (λ _, false) [] (λ _, {| now := 0; visit := λ l, l; arg_order := λ m, m |}) empty_store marshal (λ _, None) 0 0 false None
    Datatypes.id failed_events payloads [] (normalizeCodexFailureEvent failure) (B "AuthError") (B "no seat") OpenAIClient true Checked.checked_sound Hc)
    as (e & H1 & H2 & _ & H4); [repeat constructor|by left|reflexivity|by vm_compute|].
  exists e. split; [rewrite H1; by vm_compute|]. by rewrite H2.
Defined.

(** A stream that breaks off in the middle of a text, and one that said nothing. *)
Lemma broken_stream_witness :
  cx_error (stream_to_openai saturated id 0 (encoded [text_event (B "Hel")]) true) = None ∧
  answer_document saturated id 0 Datatypes.id marshal (λ _, None) 0 0 false None OpenAIClient (encoded [ev "response.created" []]) =
    Failed (UpstreamFailure 502 NoCompletionInStream).
Proof.
  assert (H1 := encoded_carries [text_event (B "Hel")] ltac:(by vm_compute)). assert (H2 := encoded_carries [ev "response.created" []] ltac:(by vm_compute)). revert H1 H2.
  generalize (encoded [text_event (B "Hel")]), (encoded [ev "response.created" []]). intros broken silent H1 H2.
  destruct (broken_stream_is_served saturated id 0 Datatypes.id marshal (λ _, None) 0 0 false None _ broken OpenAIClient true H1) as (_ & E1 & _);
    [repeat constructor|].
  destruct (broken_stream_is_served saturated id 0 Datatypes.id marshal (λ _, None) 0 0 false None _ silent OpenAIClient true H2) as (_ & _ & E2);
    [repeat constructor|]. split; [exact E1|]. apply E2. repeat constructor.
Defined.

Lemma whole_call_witness : ∃ chunks,
  cx_written (stream_to_openai saturated id 0 (encoded [added_event (B "fc_1") (B "call_1") (B "f"); done_event (B "fc_1") (B "{}");
    item_event (B "fc_1") (B "call_1") (B "f") (B "{}"); completed] ++ []) false) = concat (map codex_frame chunks) ++ sseDoneFrame ∧
  concat (argument_parts (parts_of saturated 0 chunks)) = B "{}{}".
Proof.
  assert (Hc := encoded_carries [added_event (B "fc_1") (B "call_1") (B "f"); done_event (B "fc_1") (B "{}");
    item_event (B "fc_1") (B "call_1") (B "f") (B "{}"); completed] ltac:(by vm_compute)). revert Hc. generalize (encoded [added_event (B "fc_1") (B "call_1") (B "f"); done_event (B "fc_1") (B "{}");
    item_event (B "fc_1") (B "call_1") (B "f") (B "{}"); completed]) as payloads. intros payloads Hc.
  destruct (whole_call_is_doubled saturated id 0 (B "fc_1") (B "call_1") (B "f") (B "{}") completed payloads []) as (chunks & H1 & _ & H3);
    [done|done|done|reflexivity|exact Hc|by left|].
  exists chunks. split; [exact H1|]. by rewrite H3.
Defined.

Abbreviation all := (process_all saturated id 0).

(** The deltas of calls that take turns meet under the empty call id, so the end of each
    call repeats its arguments. *)
Example interleaved_calls_are_doubled :
  concat (argument_parts (parts_of saturated 0 (all [added_event (B "a") (B "ca") (B "f"); added_event (B "b") (B "cb") (B "g");
    args_event (B "a") (B "[1"); args_event (B "b") (B "[2"); args_event (B "a") (B "]"); args_event (B "b") (B "]"); done_event (B "a") (B "[1]")] fresh_codex).2)) = B "[1][1]".
Proof. by vm_compute. Qed.

(** A call told only when it is done has neither id nor name, and the turn ends with [stop]. *)
Example call_told_when_done :
  let chunks := (all [item_event (B "a") (B "ca") (B "f") (B "{}"); completed] fresh_codex).2 in
  parts_of saturated 0 chunks = [[member "index" (jint 0); member "function" (JObj [member "arguments" (text "{}")])]] ∧
  last_reason chunks [] = B "stop".
Proof. by vm_compute. Qed.

(** An incomplete response ends like a complete one. *)
Example incomplete_is_ignored : all [ev "response.incomplete" []] fresh_codex = (fresh_codex, []).
Proof. by vm_compute. Qed.

(** The counts of [response.completed] are replaced by a guess. *)
Example counts_are_guessed :
  cx_usage (stream_to_openai saturated id 0 (encoded [text_event (B "Hello"); ev "response.completed" [member "response" (JObj [member "usage"
    (JObj [member "input_tokens" (jint 700); member "output_tokens" (jint 90)])])]]) false) = Some (estimate (add_output 5 fresh_codex)) ∧
  CompletionTokens (estimate (add_output 5 fresh_codex)) = 1 ∧ PromptTokens (estimate (add_output 5 fresh_codex)) = 0.
Proof. by vm_compute. Qed.

End Sample.
