(* ===== verification/CommandCode.v ===== *)
(** * A CommandCode stream rewritten for Chat Completions
    ([internal/proxy/executor/stream.go], the CommandCode part)

    Lines of JSON, each an event that gives chunks; the driver writes them, and
    refuses the turn when an error comes before anything was written. Writes
    succeed. What a client gets: the items of a well-formed stream whole; calls
    told in one event run together; an error that comes late is told as text. *)

From stdpp Require Import gmap.
From Stdlib Require Import SpecFloat.
From S2P Require Import Prelude GoRegexp Json GoText RetryAfter ErrorClassify SseCopy Capabilities ClaudeBody ToolArgs Usage ClaudeStream ClaudeAnswer JsonLaws AnswerFold.

(** ** The state *)

Record CommandcodeStreamState := {
  ChunkIndex : Z; ToolIndex : Z;
  ToolIndexByID : gmap bytes Z;
  OutputLength : Z;
  FinishReason : bytes;
  Finished : bool
}.

Definition fresh_commandcode : CommandcodeStreamState :=
  {| ChunkIndex := 0; ToolIndex := 0; ToolIndexByID := ∅; OutputLength := 0; FinishReason := []; Finished := false |}.

(** Assignments to the fields. *)
Definition count_text (n : Z) (s : CommandcodeStreamState) : CommandcodeStreamState :=
  {| ChunkIndex := ChunkIndex s; ToolIndex := ToolIndex s; ToolIndexByID := ToolIndexByID s; OutputLength := OutputLength s + n;
     FinishReason := FinishReason s; Finished := Finished s |}.
Definition next_chunk (s : CommandcodeStreamState) : CommandcodeStreamState :=
  {| ChunkIndex := ChunkIndex s + 1; ToolIndex := ToolIndex s; ToolIndexByID := ToolIndexByID s; OutputLength := OutputLength s;
     FinishReason := FinishReason s; Finished := Finished s |}.
Definition next_tool (id : bytes) (s : CommandcodeStreamState) : CommandcodeStreamState :=
  {| ChunkIndex := ChunkIndex s; ToolIndex := ToolIndex s + 1; ToolIndexByID := <[id := ToolIndex s]> (ToolIndexByID s); OutputLength := OutputLength s;
     FinishReason := FinishReason s; Finished := Finished s |}.
Definition finish_with (reason : bytes) (finished : bool) (s : CommandcodeStreamState) : CommandcodeStreamState :=
  {| ChunkIndex := ChunkIndex s; ToolIndex := ToolIndex s; ToolIndexByID := ToolIndexByID s; OutputLength := OutputLength s;
     FinishReason := reason; Finished := finished |}.

(** ** Errors *)

(** The status a number from 400 to 599 stands for, without its fraction. *)
Definition error_status (v : json) : option Z :=
  match v with
  | JNum lit =>
      match parse_float lit with
      | Some (S754_finite false m e) =>
          let '(num, den) := if 0 <=? e then (Z.pos m * 2 ^ e, 1) else (Z.pos m, 2 ^ (- e)) in
          if (400 * den <=? num) && (num <=? 599 * den) then Some (num / den) else None
      | _ => None
      end
  | _ => None
  end.

Section Errors.
Context `{UnicodeCase}.

Definition speaks_of (lower : bytes) (words : list string) : bool := existsb (λ w, contains (B w) lower) words.

Definition status_of_message (message : bytes) : Z :=
  let lower := to_lower message in
  if speaks_of lower ["rate limit"; "too many requests"]%string then 429
  else if speaks_of lower ["unauthorized"; "invalid api key"; "authentication"]%string then 401
  else if speaks_of lower ["payment required"; "billing"]%string then 402
  else if speaks_of lower ["quota"; "forbidden"; "permission"]%string then 403
  else if speaks_of lower ["not found"]%string then 404
  else 503.

Definition or_text (s : bytes) (d : bytes) : bytes := if nonempty s then s else d.

Definition ParseCommandCodeError (event : object) : Z * bytes :=
  let d := B "CommandCode upstream error" in
  let '(status, message) :=
    match raw_field "error" event with
    | Some (JObj e) =>
        (default 503 (match error_status (obj_get (B "statusCode") e) with Some n => Some n | None => error_status (obj_get (B "status") e) end),
         or_text (stringOf e "message") d)
    | Some (JStr s) => (503, or_text s d)
    | Some _ => (503, d)
    | None => (503, or_text (stringOf event "message") d)
    end in
  let status := default status (error_status (obj_get (B "statusCode") event)) in
  (if status =? 503 then status_of_message message else status, message).

(** The message is not escaped. *)
Definition refusal (event : object) : upstreamError :=
  let '(code, msg) := ParseCommandCodeError event in
  MkUE code (js "{~error~:{~message~:~" ++ msg ++ js "~,~code~:" ++ itoa code ++ B "}}") [].

End Errors.

(** ** Events *)

Section Process.
Context `{JsonCodec}.
Variable out_of_range : Z → Z.
Variables (responseID : bytes) (created : Z) (model : bytes).

Definition BuildCommandcodeChunk (delta : object) (finishReason : bytes) : object :=
  [member "id" (JStr responseID); member "object" (text "chat.completion.chunk"); member "created" (jint created); member "model" (JStr model);
   member "choices" (JArr [JObj ([member "index" (jint 0); member "delta" (JObj delta)] ++
     if nonempty finishReason then [member "finish_reason" (JStr finishReason)] else [])])].

Definition role_if_first (s : CommandcodeStreamState) : object := if ChunkIndex s =? 0 then [member "role" (text "assistant")] else [].

Definition on_text_delta (event : object) (s : CommandcodeStreamState) : CommandcodeStreamState * list object :=
  let t := or_text (stringOf event "text") (stringOf event "delta") in
  if nonempty t then
    (next_chunk (count_text (zlen t) s), [BuildCommandcodeChunk (member "content" (JStr t) :: role_if_first s) []])
  else (s, []).

Definition on_reasoning_delta (event : object) (s : CommandcodeStreamState) : CommandcodeStreamState * list object :=
  let t := stringOf event "text" in
  if nonempty t then (next_chunk s, [BuildCommandcodeChunk (member "reasoning_content" (JStr t) :: role_if_first s) []]) else (s, []).

(** An empty [toolCallId] is taken over as it is. *)
Definition start_id (event : object) (s : CommandcodeStreamState) : bytes :=
  let id := stringOf event "id" in
  if nonempty id then id
  else match obj_get (B "toolCallId") event with JStr v => v | _ => B "call_" ++ itoa (ToolIndex s) end.

Definition call_chunk (call : object) (role : object) : object := BuildCommandcodeChunk (member "tool_calls" (JArr [JObj call]) :: role) [].

Definition started_call (idx : Z) (id name : bytes) : object :=
  [member "index" (jint idx); member "id" (JStr id); member "type" (text "function");
   member "function" (JObj [member "name" (JStr name); member "arguments" (text "")])].

Definition on_tool_input_start (event : object) (s : CommandcodeStreamState) : CommandcodeStreamState * list object :=
  let id := start_id event s in
  let s := match ToolIndexByID s !! id with Some _ => s | None => next_tool id s end in
  (s, [call_chunk (started_call (default 0 (ToolIndexByID s !! id)) id (stringOf event "toolName")) []]).

Definition input_part (idx : Z) (id args : bytes) : object :=
  [member "index" (jint idx); member "id" (JStr id); member "function" (JObj [member "arguments" (JStr args)])].

Definition on_tool_input_delta (event : object) (s : CommandcodeStreamState) : CommandcodeStreamState * list object :=
  let id := or_text (stringOf event "id") (stringOf event "toolCallId") in
  match ToolIndexByID s !! id with
  | Some idx => (s, [call_chunk (input_part idx id (stringOf event "delta")) []])
  | None => (s, [])
  end.

Definition call_input (event : object) : bytes :=
  or_text (match raw_field "input" event with Some (JStr t) => t | Some v => marshal v | None => [] end) (B "{}").

(** The index that is given to the call is not told. *)
Definition whole_call (id name args : bytes) : object :=
  [member "id" (JStr id); member "type" (text "function"); member "function" (JObj [member "name" (JStr name); member "arguments" (JStr args)])].

Definition on_tool_call (event : object) (s : CommandcodeStreamState) : CommandcodeStreamState * list object :=
  let id := stringOf event "toolCallId" in
  if nonempty id then
    match ToolIndexByID s !! id with
    | Some _ => (s, [])
    | None => (next_chunk (next_tool id s), [call_chunk (whole_call id (stringOf event "toolName") (call_input event)) (role_if_first s)])
    end
  else (s, []).

Definition on_finish_step (event : object) (s : CommandcodeStreamState) : CommandcodeStreamState * list object :=
  match obj_get (B "finishReason") event with JStr r => (finish_with r (Finished s) s, []) | _ => (s, []) end.

Definition used (total : object) (from to : string) : object :=
  match obj_get (B from) total with JNum l => [member to (jint (number_int out_of_range l))] | _ => [] end.

(** The counts are added to the chunk as it is read back. *)
Definition with_usage (event chunk : object) : object :=
  match map_member "totalUsage" event with
  | Some total =>
      match used total "promptTokens" "prompt_tokens" ++ used total "completionTokens" "completion_tokens" with
      | [] => chunk
      | usage => match unmarshal (marshal (JObj chunk)) with Some (JObj parsed) => obj_put (B "usage") (JObj usage) parsed | _ => chunk end
      end
  | None => chunk
  end.

Definition on_finish (event : object) (s : CommandcodeStreamState) : CommandcodeStreamState * list object :=
  let reason := or_text (FinishReason s) (or_text (stringOf event "finishReason") (B "stop")) in
  (finish_with (FinishReason s) true s, [with_usage event (BuildCommandcodeChunk [] reason)]).

Definition on_error (event : object) (s : CommandcodeStreamState) : CommandcodeStreamState * list object :=
  let msg := or_text (stringOf event "error") (or_text (stringOf event "message") (B "unknown error")) in
  (finish_with (FinishReason s) true s,
   [BuildCommandcodeChunk [member "content" (JStr ([ch_lf; ch_lf] ++ B "[CommandCode error: " ++ msg ++ B "]"))] [];
    BuildCommandcodeChunk [] (B "stop")]).

Definition ProcessCommandcodeEvent (event : object) (s : CommandcodeStreamState) : CommandcodeStreamState * list object :=
  let kind (t : string) := bool_decide (stringOf event "type" = B t) in
  if kind "text-delta" then on_text_delta event s
  else if kind "reasoning-delta" then on_reasoning_delta event s
  else if kind "tool-input-start" then on_tool_input_start event s
  else if kind "tool-input-delta" then on_tool_input_delta event s
  else if kind "tool-call" then on_tool_call event s
  else if kind "finish-step" then on_finish_step event s
  else if kind "finish" then on_finish event s
  else if kind "error" then on_error event s
  else (s, []).

(** ** The driver *)

(** The event of a line. *)
Definition line_event (line : bytes) : option object :=
  let line := trim_space line in
  let data := if has_prefix (B "data:") line then trim_space (drop 5 line) else line in
  if bool_decide (line = []) || bool_decide (data = done_mark) then None
  else match unmarshal data with Some (JObj event) => Some event | _ => None end.

(** The chunks of the lines, or the error that came before the first of them. *)
Fixpoint run_lines (lines : list bytes) (s : CommandcodeStreamState) (headersWritten : bool)
    : (CommandcodeStreamState * list object) + object :=
  match lines with
  | [] => inl (s, [])
  | line :: lines =>
      match line_event line with
      | None => run_lines lines s headersWritten
      | Some event =>
          if bool_decide (stringOf event "type" = B "error") && negb headersWritten then inr event
          else let '(s, chunks) := ProcessCommandcodeEvent event s in
               match run_lines lines s (headersWritten || bool_decide (chunks ≠ [])) with
               | inl (s, more) => inl (s, chunks ++ more)
               | inr e => inr e
               end
      end
  end.

Definition stream_frame (chunk : object) : bytes := frame (marshal (JObj chunk)).

Definition guessed (s : CommandcodeStreamState) : OpenAIUsage :=
  {| PromptTokens := 0; CompletionTokens := OutputLength s / 4; CachedTokens := 0; CacheCreationInputTokens := 0;
     PromptTokensDetails := None; CompletionTokensDetails := None; PromptCacheIncluded := false |}.

(** What is written with status 200, the counts, and whether the reading of lines failed;
    or the refusal, with nothing written. *)
Inductive relayed := Relayed (written : bytes) (usage : OpenAIUsage) (failed : bool) | RefusedTurn (e : upstreamError).

Definition handleCommandcodeStream `{UnicodeCase} (lines : list bytes) (scan_failed : bool) : relayed :=
  match run_lines lines fresh_commandcode false with
  | inr event => RefusedTurn (refusal event)
  | inl (s, chunks) =>
      let chunks := chunks ++ if Finished s then [] else [BuildCommandcodeChunk [] (B "stop")] in
      Relayed (concat (map stream_frame chunks) ++ sseDoneFrame) (guessed s) scan_failed
  end.

End Process.

(** ** Streams of an upstream *)

Definition ev (type : string) (fields : object) : object := member "type" (text type) :: fields.

Inductive cc_item :=
  | Said (deltas : list bytes)
  | Thought (deltas : list bytes)
  | Called (id name : bytes) (parts : list bytes).

Definition text_event (d : bytes) : object := ev "text-delta" [member "text" (JStr d)].
Definition thought_event (d : bytes) : object := ev "reasoning-delta" [member "text" (JStr d)].
Definition start_event (id name : bytes) : object := ev "tool-input-start" [member "id" (JStr id); member "toolName" (JStr name)].
Definition part_event (id d : bytes) : object := ev "tool-input-delta" [member "id" (JStr id); member "delta" (JStr d)].
Definition call_event (id name input : bytes) : object :=
  ev "tool-call" [member "toolCallId" (JStr id); member "toolName" (JStr name); member "input" (JStr input)].
Definition step_event (reason : bytes) : object := ev "finish-step" [member "finishReason" (JStr reason)].
Definition finish_event (prompt completion : Z) : object :=
  ev "finish" [member "totalUsage" (JObj [member "promptTokens" (jint prompt); member "completionTokens" (jint completion)])].

Definition events_of (i : cc_item) : list object :=
  match i with
  | Said ds => map text_event ds
  | Thought ds => map thought_event ds
  | Called id name parts => start_event id name :: map (part_event id) parts ++ [call_event id name (concat parts)]
  end.

Definition text_of_item (i : cc_item) : bytes := match i with Said ds => concat ds | _ => [] end.
Definition thought_of_item (i : cc_item) : bytes := match i with Thought ds => concat ds | _ => [] end.
Definition calls_of (items : list cc_item) : list (bytes * bytes * list bytes) :=
  omap (λ i, match i with Called id name parts => Some (id, name, parts) | _ => None end) items.
Definition call_ids (items : list cc_item) : list bytes := map (λ c, c.1.1) (calls_of items).

Section Relay.
Context `{JsonCodec} `{UnicodeCase}.
Variable out_of_range : Z → Z.
Variables (responseID : bytes) (created : Z) (model : bytes).

Abbreviation process := (ProcessCommandcodeEvent out_of_range responseID created model).
Abbreviation run := (run_lines out_of_range responseID created model).
Abbreviation built := (BuildCommandcodeChunk responseID created model).
Abbreviation call := (call_chunk responseID created model).

Fixpoint process_all (events : list object) (s : CommandcodeStreamState) : CommandcodeStreamState * list object :=
  match events with
  | [] => (s, [])
  | e :: rest => let '(s, cs) := process e s in let '(s, more) := process_all rest s in (s, cs ++ more)
  end.

Lemma cc_process_all_app es1 es2 s : process_all (es1 ++ es2) s =
  let '(s1, cs1) := process_all es1 s in let '(s2, cs2) := process_all es2 s1 in (s2, cs1 ++ cs2).
Proof.
  revert s. induction es1 as [|e es1 IH]; intros s; cbn; [by destruct (process_all es2 s)|].
  destruct (process e s) as [s' c]. rewrite IH. destruct (process_all es1 s') as [s1 cs1]. destruct (process_all es2 s1) as [s2 cs2].
  by rewrite app_assoc.
Qed.

Lemma cc_run_app l1 l2 s w : run (l1 ++ l2) s w =
  match run l1 s w with
  | inl (s1, cs1) => match run l2 s1 (w || bool_decide (cs1 ≠ [])) with inl (s2, cs2) => inl (s2, cs1 ++ cs2) | inr e => inr e end
  | inr e => inr e
  end.
Proof.
  revert s w. induction l1 as [|l l1 IH]; intros s w; cbn [app run_lines].
  - rewrite bool_decide_eq_false_2, orb_false_r by auto. by destruct (run l2 s w) as [[? ?]|].
  - destruct (line_event l) as [e|]; [|apply IH]. destruct (_ && _); [done|]. destruct (process e s) as [s' cs].
    rewrite IH. destruct (run l1 s' _) as [[s1 cs1]|]; [|done].
    replace (w || bool_decide (cs ++ cs1 ≠ [])) with (w || bool_decide (cs ≠ []) || bool_decide (cs1 ≠ []))
      by (destruct cs, cs1; cbn; by rewrite ?orb_true_r, ?orb_false_r).
    destruct (run l2 s1 _) as [[? ?]|]; [by rewrite app_assoc|done].
Qed.

(** Lines that are events, none of them an error. *)
Definition carries (line : bytes) (event : object) : Prop := line_event line = Some event ∧ stringOf event "type" ≠ B "error".

Lemma cc_run_carried lines events s w : Forall2 carries lines events → run lines s w = inl (process_all events s).
Proof.
  intros Hf. revert s w. induction Hf as [|l e ls es [Hl He] _ IH]; intros s w; cbn [run_lines process_all]; [done|].
  rewrite Hl, bool_decide_eq_false_2 by done. cbn [andb]. destruct (process e s) as [s' cs]. rewrite IH. by destruct (process_all es s').
Qed.

(** *** The events of an item *)

(** What chunks say, and the objects of calls among them, by index. *)
Definition tells (content thought : bytes) (parts : Z → list object) (cs : list object) : Prop :=
  said "content" cs = content ∧ said "reasoning_content" cs = thought ∧ ∀ i, parts_of out_of_range i cs = parts i.

Lemma tells_nothing : tells [] [] (λ _, []) [].
Proof. done. Qed.

Lemma tells_app c1 t1 p1 cs1 c2 t2 p2 cs2 : tells c1 t1 p1 cs1 → tells c2 t2 p2 cs2 →
  tells (c1 ++ c2) (t1 ++ t2) (λ i, p1 i ++ p2 i) (cs1 ++ cs2).
Proof.
  intros (E1 & E2 & E3) (F1 & F2 & F3). unfold tells. rewrite !said_app, E1, E2, F1, F2. split; [done|]. split; [done|].
  intros i. by rewrite parts_of_app, E3, F3.
Qed.

(** The fields the text does not change. *)
Definition same_calls (s s' : CommandcodeStreamState) : Prop :=
  ToolIndex s' = ToolIndex s ∧ ToolIndexByID s' = ToolIndexByID s ∧ FinishReason s' = FinishReason s ∧ Finished s' = Finished s.

Lemma said_role k key d role : role = [] ∨ role = [member "role" (text "assistant")] → key = "content"%string ∨ key = "reasoning_content"%string →
  tells (if String.eqb key "content" then d else []) (if String.eqb key "content" then [] else d) (λ _, []) [built (member key (JStr d) :: role) k].
Proof.
  intros Hr Hk. unfold tells, said. cbn [map concat]. rewrite !app_nil_r. split; [|split].
  - by destruct Hk as [-> | ->], Hr as [-> | ->].
  - by destruct Hk as [-> | ->], Hr as [-> | ->].
  - intros i. unfold parts_of. cbn [map concat]. by destruct Hk as [-> | ->], Hr as [-> | ->].
Qed.

Lemma role_cases s : role_if_first s = [] ∨ role_if_first s = [member "role" (text "assistant")].
Proof. unfold role_if_first. destruct (_ =? 0); auto. Qed.

Lemma cc_text_step d s : ∃ s' cs, process (text_event d) s = (s', cs) ∧ tells d [] (λ _, []) cs ∧ same_calls s s' ∧
  OutputLength s' = OutputLength s + zlen d.
Proof.
  change (process (text_event d) s) with (on_text_delta responseID created model (text_event d) s). unfold on_text_delta.
  change (stringOf (text_event d) "text") with d. change (stringOf (text_event d) "delta") with (@nil ascii).
  replace (or_text d []) with d by (unfold or_text; by destruct d). destruct d as [|c d].
  - exists s, []. split; [done|]. split; [done|]. split; [done|]. by rewrite Z.add_0_r.
  - change (nonempty (c :: d)) with true. cbv beta iota. eexists _, _. split; [reflexivity|]. split; [|done].
    apply (said_role [] "content"); [apply role_cases|by left].
Qed.

Lemma cc_thought_step d s : ∃ s' cs, process (thought_event d) s = (s', cs) ∧ tells [] d (λ _, []) cs ∧ same_calls s s' ∧
  OutputLength s' = OutputLength s.
Proof.
  change (process (thought_event d) s) with (on_reasoning_delta responseID created model (thought_event d) s). unfold on_reasoning_delta.
  change (stringOf (thought_event d) "text") with d. destruct d as [|c d].
  - exists s, []. done.
  - change (nonempty (c :: d)) with true. cbv beta iota. eexists _, _. split; [reflexivity|]. split; [|done].
    apply (said_role [] "reasoning_content"); [apply role_cases|by right].
Qed.

Lemma cc_deltas_step (mk : bytes → object) content thought (n : bytes → Z) ds s :
  (∀ d s, ∃ s' cs, process (mk d) s = (s', cs) ∧ tells (content d) (thought d) (λ _, []) cs ∧ same_calls s s' ∧ OutputLength s' = OutputLength s + n d) →
  ∃ s' cs, process_all (map mk ds) s = (s', cs) ∧ tells (concat (map content ds)) (concat (map thought ds)) (λ _, []) cs ∧ same_calls s s' ∧
    OutputLength s' = OutputLength s + foldr (λ d z, n d + z) 0 ds.
Proof.
  intros Hstep. revert s. induction ds as [|d ds IH]; intros s; cbn [map process_all concat foldr].
  - exists s, []. split; [done|]. split; [done|]. split; [done|]. by rewrite Z.add_0_r.
  - destruct (Hstep d s) as (s1 & cs1 & -> & T1 & (A1 & A2 & A3 & A4) & O1). destruct (IH s1) as (s2 & cs2 & -> & T2 & (B1 & B2 & B3 & B4) & O2).
    exists s2, (cs1 ++ cs2). split; [done|]. split; [exact (tells_app _ _ _ _ _ _ _ _ T1 T2)|].
    split; [unfold same_calls; by rewrite B1, B2, B3, B4|]. rewrite O2, O1. lia.
Qed.

(** *** A call *)

Lemma start_step id name s : id ≠ [] → ToolIndexByID s !! id = None →
  process (start_event id name) s = (next_tool id s, [call (started_call (ToolIndex s) id name) []]).
Proof.
  intros Hid Hn. change (process (start_event id name) s) with (on_tool_input_start responseID created model (start_event id name) s).
  unfold on_tool_input_start, start_id. change (stringOf (start_event id name) "id") with id. change (stringOf (start_event id name) "toolName") with name.
  rewrite (nonempty_true id), Hn by done. cbv beta iota zeta. cbn [ToolIndexByID next_tool]. by rewrite lookup_insert_eq.
Qed.

Lemma part_step id d n s : id ≠ [] → ToolIndexByID s !! id = Some n → process (part_event id d) s = (s, [call (input_part n id d) []]).
Proof.
  intros Hid Hn. change (process (part_event id d) s) with (on_tool_input_delta responseID created model (part_event id d) s).
  unfold on_tool_input_delta. change (stringOf (part_event id d) "id") with id. change (stringOf (part_event id d) "delta") with d.
  unfold or_text. by rewrite (nonempty_true id), Hn.
Qed.

Lemma cc_parts_step id parts n s : id ≠ [] → ToolIndexByID s !! id = Some n →
  process_all (map (part_event id) parts) s = (s, map (λ d, call (input_part n id d) []) parts).
Proof.
  intros Hid Hn. induction parts as [|d ds IH]; cbn [map process_all]; [done|]. by rewrite (part_step id d n), IH.
Qed.

(** A call that was told in parts is not told again. *)
Lemma known_call_step id name input n s : id ≠ [] → ToolIndexByID s !! id = Some n → process (call_event id name input) s = (s, []).
Proof.
  intros Hid Hn. change (process (call_event id name input) s) with (on_tool_call responseID created model (call_event id name input) s).
  unfold on_tool_call. change (stringOf (call_event id name input) "toolCallId") with id. by rewrite (nonempty_true id), Hn.
Qed.

Definition call_objects (n : Z) (id name : bytes) (parts : list bytes) : list object := started_call n id name :: map (input_part n id) parts.

(** Chunks with calls of one index. *)
Lemma calls_tell n (os : list (object * object)) :
  Forall (λ p, call_index out_of_range p.1 = n ∧ (p.2 = [] ∨ p.2 = [member "role" (text "assistant")])) os →
  tells [] [] (λ i, if n =? i then map fst os else []) (map (λ p, call p.1 p.2) os).
Proof.
  intros Hf. induction Hf as [|[o role] os [Hi Hr] _ (E1 & E2 & E3)]; cbn [map].
  { split; [done|]. split; [done|]. intros i. by destruct (n =? i). }
  cbn [fst snd] in *. replace (call o role :: map _ os) with ([call o role] ++ map (λ p, call p.1 p.2) os) by done.
  unfold tells. rewrite !said_app, E1, E2. split; [by destruct Hr as [-> | ->]|]. split; [by destruct Hr as [-> | ->]|].
  intros i. rewrite parts_of_app, E3. unfold parts_of. change (concat (map chunk_calls [call o role])) with [o].
  rewrite filter_cons, filter_nil, Hi. destruct (Z.eqb_spec n i) as [->|Hne]; [by rewrite decide_True|by rewrite decide_False].
Qed.

Lemma started_index n id name : 0 <= n < 2 ^ 53 → call_index out_of_range (started_call n id name) = n.
Proof. exact (number_int_itoa out_of_range n). Qed.
Lemma part_index n id d : 0 <= n < 2 ^ 53 → call_index out_of_range (input_part n id d) = n.
Proof. exact (number_int_itoa out_of_range n). Qed.

Lemma cc_called_step id name parts s (n := ToolIndex s) : 0 <= n < 2 ^ 53 → id ≠ [] → ToolIndexByID s !! id = None →
  ∃ cs, process_all (events_of (Called id name parts)) s = (next_tool id s, cs) ∧
    tells [] [] (λ i, if n =? i then call_objects n id name parts else []) cs.
Proof.
  intros Hn Hid Hnew. exists (map (λ o, call o []) (call_objects n id name parts)). cbn [events_of process_all].
  rewrite start_step by done. assert (Hk : ToolIndexByID (next_tool id s) !! id = Some n) by apply lookup_insert_eq.
  rewrite cc_process_all_app, (cc_parts_step id parts n) by done. cbn [process_all]. rewrite (known_call_step id name _ n) by done. split.
  - unfold call_objects. cbn [map]. by rewrite map_map, app_nil_r.
  - assert (T := calls_tell n (map (λ o, (o, [])) (call_objects n id name parts))). rewrite !map_map in T. cbn [fst snd] in T. rewrite map_id in T.
    apply T. apply Forall_map. constructor; [split; [by apply started_index|by left]|].
    apply Forall_map, Forall_forall. intros d _. split; [by apply part_index|by left].
Qed.

(** *** The items of a stream *)

Definition numbered (n i : Z) (items : list cc_item) : list object :=
  if n <=? i then match calls_of items !! Z.to_nat (i - n) with Some (id, name, parts) => call_objects i id name parts | None => [] end else [].

Definition text_length (items : list cc_item) : Z := zlen (concat (map text_of_item items)).

Lemma concat_lengths (ds : list bytes) : foldr (λ d z, zlen d + z) 0 ds = zlen (concat ds).
Proof. induction ds as [|d ds IH]; [done|]. cbn [foldr concat]. by rewrite IH, zlen_app. Qed.

Lemma no_lengths (ds : list bytes) : foldr (λ (_ : bytes) z, 0 + z) 0 ds = 0.
Proof. induction ds as [|d ds IH]; [done|]. cbn [foldr]. by rewrite IH. Qed.

Lemma tells_ext c t p p' cs : (∀ i, p i = p' i) → tells c t p cs → tells c t p' cs.
Proof. intros E (H1 & H2 & H3). split; [done|]. split; [done|]. intros i. by rewrite H3. Qed.

Lemma concat_map_nil {A} (l : list A) : concat (map (λ _, ([] : bytes)) l) = [].
Proof. by induction l. Qed.

Lemma said_step ds s : ∃ s' cs, process_all (map text_event ds) s = (s', cs) ∧ tells (concat ds) [] (λ _, []) cs ∧ same_calls s s' ∧
  OutputLength s' = OutputLength s + zlen (concat ds).
Proof.
  destruct (cc_deltas_step text_event (λ d, d) (λ _, []) zlen ds s cc_text_step) as (s' & cs & H1 & H2 & H3 & H4).
  exists s', cs. rewrite concat_lengths in H4. rewrite map_id, concat_map_nil in H2. done.
Qed.

Lemma cc_thoughts_step ds s : ∃ s' cs, process_all (map thought_event ds) s = (s', cs) ∧ tells [] (concat ds) (λ _, []) cs ∧ same_calls s s' ∧
  OutputLength s' = OutputLength s.
Proof.
  destruct (cc_deltas_step thought_event (λ _, []) (λ d, d) (λ _, 0) ds s) as (s' & cs & H1 & H2 & H3 & H4).
  { intros d s1. destruct (cc_thought_step d s1) as (s2 & cs & E1 & E2 & E3 & E4). exists s2, cs. by rewrite E4, Z.add_0_r. }
  exists s', cs. rewrite no_lengths, Z.add_0_r in H4. rewrite map_id, concat_map_nil in H2. done.
Qed.

Lemma cc_items_step items s (n := ToolIndex s) : 0 <= n → n + zlen (calls_of items) <= 2 ^ 53 →
  NoDup (call_ids items) → Forall (λ id, id ≠ []) (call_ids items) → (∀ id, id ∈ call_ids items → ToolIndexByID s !! id = None) →
  ∃ s' cs, process_all (concat (map events_of items)) s = (s', cs) ∧
    tells (concat (map text_of_item items)) (concat (map thought_of_item items)) (λ i, numbered n i items) cs ∧
    FinishReason s' = FinishReason s ∧ Finished s' = Finished s ∧ OutputLength s' = OutputLength s + text_length items.
Proof.
  unfold n. clear n. revert s. induction items as [|it items IH]; intros s Hn Hl Hd Hid Hnew; cbn [map concat].
  { exists s, []. split; [done|]. split; [|by rewrite Z.add_0_r]. eapply tells_ext; [|apply tells_nothing]. intros i. unfold numbered. cbn. by case_match. }
  rewrite cc_process_all_app. destruct it as [ds|ds|id name parts]; cbn [events_of text_of_item thought_of_item].
  - destruct (said_step ds s) as (s1 & cs1 & E1 & T1 & (A1 & A2 & A3 & A4) & O1). rewrite E1. destruct (IH s1) as (s2 & cs2 & E2 & T2 & B3 & B4 & O2); rewrite ?A1, ?A2; try done. rewrite E2.
    exists s2, (cs1 ++ cs2). split; [done|]. split; [|rewrite B3, B4, O2, O1; unfold text_length; cbn [map concat text_of_item]; rewrite zlen_app; split_and!; [done..|lia]].
    rewrite A1 in T2. exact (tells_app _ _ _ _ _ _ _ _ T1 T2).
  - destruct (cc_thoughts_step ds s) as (s1 & cs1 & E1 & T1 & (A1 & A2 & A3 & A4) & O1). rewrite E1.
    destruct (IH s1) as (s2 & cs2 & E2 & T2 & B3 & B4 & O2); rewrite ?A1, ?A2; try done. rewrite E2.
    exists s2, (cs1 ++ cs2). split; [done|]. split; [|by rewrite B3, B4, O2, O1].
    rewrite A1 in T2. exact (tells_app _ _ _ _ _ _ _ _ T1 T2).
  - cbn in Hd, Hid, Hnew. apply NoDup_cons in Hd as [Hd1 Hd2]. apply Forall_cons in Hid as [Hi Hid].
    assert (Hl' : zlen (calls_of (Called id name parts :: items)) = 1 + zlen (calls_of items)) by (unfold zlen, calls_of; cbn [omap list_omap length]; lia).
    assert (Hpos := zlen_nonneg (calls_of items)).
    destruct (cc_called_step id name parts s) as (cs1 & E1 & T1); [lia|done|by apply Hnew; left|]. cbn [events_of] in E1. rewrite E1.
    destruct (IH (next_tool id s)) as (s2 & cs2 & -> & T2 & B3 & B4 & O2); cbn [ToolIndex next_tool ToolIndexByID]; [lia|lia|done|done|..].
    { intros id' Hin. rewrite lookup_insert_ne; [apply Hnew; by right|]. by intros <-. }
    exists s2, (cs1 ++ cs2). split; [done|]. split; [|done]. eapply tells_ext; [|exact (tells_app _ _ _ _ _ _ _ _ T1 T2)].
    intros i. cbn [ToolIndex next_tool]. unfold numbered. cbn [calls_of omap list_omap].
    destruct (Z.eqb_spec (ToolIndex s) i) as [<-|Hne].
    + rewrite (proj2 (Z.leb_gt _ (ToolIndex s))), Z.leb_refl, Z.sub_diag by lia. cbn [Z.to_nat lookup list_lookup]. by rewrite app_nil_r.
    + destruct (Z.leb_spec (ToolIndex s + 1) i), (Z.leb_spec (ToolIndex s) i); try lia; [|done].
      replace (Z.to_nat (i - ToolIndex s)) with (S (Z.to_nat (i - (ToolIndex s + 1)))) by lia. done.
Qed.

(** *** Whole streams *)

Lemma used_count total from to n : obj_get (B from) total = jint n → 0 <= n < 2 ^ 53 → used out_of_range total from to = [member to (jint n)].
Proof. intros E Hn. unfold used. rewrite E. unfold jint at 1. by rewrite number_int_itoa. Qed.

(** The chunk of the finish is encoded and decoded before the counts are put in. *)
Lemma finish_chunk_facts spell prompt completion reason s : sound_codec spell → 0 <= prompt < 2 ^ 53 → 0 <= completion < 2 ^ 53 → reason ≠ [] →
  valid_utf8 responseID = true → valid_utf8 model = true → valid_utf8 reason = true →
  ∃ c, process_all [step_event reason; finish_event prompt completion] s = (finish_with reason true (finish_with reason (Finished s) s), [c]) ∧
    chunk_calls c = [] ∧ (∀ k, stringOf (chunk_delta c) k = []) ∧ obj_get (B "finish_reason") (chunk_choice c) = JStr reason ∧
    obj_get (B "usage") c = JObj [member "prompt_tokens" (jint prompt); member "completion_tokens" (jint completion)].
Proof.
  intros Hcodec Hp Hc Hr Hv1 Hv2 Hv3. cbn [process_all].
  change (process (step_event reason) s) with (finish_with reason (Finished s) s, @nil object). cbv beta iota.
  set (s1 := finish_with reason (Finished s) s).
  change (process (finish_event prompt completion) s1) with (on_finish out_of_range responseID created model (finish_event prompt completion) s1).
  unfold on_finish. change (FinishReason s1) with reason. unfold or_text. rewrite (nonempty_true reason) by done. cbv beta iota zeta.
  unfold with_usage. change (map_member "totalUsage" _) with (Some [member "promptTokens" (jint prompt); member "completionTokens" (jint completion)]).
  cbv beta iota zeta. rewrite (used_count _ _ _ prompt), (used_count _ _ _ completion) by done. cbn [app].
  assert (Hwf : well_formed (JObj (BuildCommandcodeChunk responseID created model [] reason)) = true).
  { unfold BuildCommandcodeChunk. rewrite (nonempty_true reason) by done. cbn [app]. by_members. apply wf_items. repeat constructor. by_members. }
  rewrite (decode_encode _ Hcodec) by done. rewrite respell_obj. eexists. split; [reflexivity|].
  unfold BuildCommandcodeChunk. rewrite (nonempty_true reason) by done. split; [reflexivity|]. split; [done|]. split; reflexivity.
Qed.

Lemma cc_objects_say n id name parts (os := call_objects n id name parts) : id ≠ [] →
  last_text (map (λ o, stringOf o "id") os) = id ∧ last_text (names_told os) = name ∧ concat (argument_parts os) = concat parts.
Proof.
  intros Hid. unfold os, call_objects, names_told, argument_parts. cbn [map]. rewrite !map_map. unfold last_text. cbn [foldl].
  change (stringOf (started_call n id name) "id") with id. rewrite (nonempty_true id) by done. split; [|split].
  - induction parts as [|p ps IH]; [done|]. cbn [map foldl]. change (stringOf (input_part n id p) "id") with id. by rewrite (nonempty_true id).
  - change (stringOf (default [] (map_member "function" (started_call n id name))) "name") with name.
    assert (E : (if nonempty name then name else []) = name) by by destruct name. rewrite E. by induction parts.
  - cbn [concat app]. change (stringOf (default [] (map_member "function" (started_call n id name))) "arguments") with (@nil ascii).
    cbn [app]. f_equal. rewrite <- (map_id parts) at 2. by apply map_ext.
Qed.

(** C23. The items of a CommandCode stream reach the client whole when every call, under an id of
    its own, is told as a start and parts of its input and then as the whole call: text
    and reasoning, every call told in parts once, under the number of its place, the
    counts in the last chunk, the reason of the upstream as the upstream spells it, and
    one terminator. The counts recorded are not those: a quarter of the length of the
    text. Calls told only as whole calls all go under number 0
    ([whole_calls_run_together]). *)
Theorem commandcode_items_reach_client spell items reason prompt completion lines scan_failed :
  sound_codec spell → valid_utf8 responseID = true → valid_utf8 model = true → valid_utf8 reason = true → NoDup (call_ids items) → Forall (λ id, id ≠ []) (call_ids items) → zlen (calls_of items) < 2 ^ 53 →
  reason ≠ [] → 0 <= prompt < 2 ^ 53 → 0 <= completion < 2 ^ 53 →
  Forall2 carries lines (concat (map events_of items) ++ [step_event reason; finish_event prompt completion]) →
  ∃ chunks final usage,
    handleCommandcodeStream out_of_range responseID created model lines scan_failed =
      Relayed (concat (map stream_frame (chunks ++ [final])) ++ sseDoneFrame) usage scan_failed ∧
    said "content" chunks = concat (map text_of_item items) ∧ said "reasoning_content" chunks = concat (map thought_of_item items) ∧
    (∀ i id name parts, calls_of items !! i = Some (id, name, parts) →
       let os := parts_of out_of_range (Z.of_nat i) chunks in
       last_text (map (λ o, stringOf o "id") os) = id ∧ last_text (names_told os) = name ∧ concat (argument_parts os) = concat parts) ∧
    (∀ i, parts_of out_of_range i chunks ≠ [] → 0 <= i < zlen (calls_of items)) ∧
    last_reason [final] [] = reason ∧
    obj_get (B "usage") final = JObj [member "prompt_tokens" (jint prompt); member "completion_tokens" (jint completion)] ∧
    PromptTokens usage = 0 ∧ CompletionTokens usage = text_length items / 4.
Proof.
  intros Hcodec Hv1 Hv2 Hv3 Hd Hid Hl Hr Hp Hc Hcarry.
  destruct (cc_items_step items fresh_commandcode) as (s & cs & Hall & (T1 & T2 & T3) & _ & _ & HO); [done|cbn [ToolIndex fresh_commandcode]; lia|done|done|intros; apply lookup_empty|].
  destruct (finish_chunk_facts spell prompt completion reason s Hcodec Hp Hc Hr Hv1 Hv2 Hv3) as (c & Hf & F1 & F2 & F3 & F4).
  exists cs, c, (guessed s). unfold handleCommandcodeStream. rewrite (cc_run_carried _ _ _ _ Hcarry), cc_process_all_app, Hall, Hf.
  cbn [Finished finish_with]. rewrite app_nil_r. split; [done|]. split; [done|]. split; [done|]. cbn [ToolIndex fresh_commandcode] in T3. split; [|split; [|split; [|split]]].
  - intros i id name parts Hi. rewrite T3. unfold numbered. rewrite (proj2 (Z.leb_le 0 _)), Z.sub_0_r, Nat2Z.id, Hi by lia. apply cc_objects_say.
    apply (Forall_lookup_1 _ _ i id Hid). unfold call_ids. change (map ?f ?l) with (f <$> l). by rewrite list_lookup_fmap, Hi.
  - intros i. rewrite T3. unfold numbered. destruct (Z.leb_spec 0 i); [|done].
    destruct (calls_of items !! _) eqn:E; [|done]. intros _. apply lookup_lt_Some in E. unfold zlen. lia.
  - unfold last_reason. cbn [foldl]. by rewrite F3.
  - done.
  - split; [done|]. unfold guessed. cbn [CompletionTokens]. by rewrite HO.
Qed.

(** *** Calls told in one event *)

Definition whole (c : bytes * bytes * bytes) : object := let '(id, name, input) := c in whole_call id name (or_text input (B "{}")).

Lemma whole_calls_step calls s : NoDup (map (λ c, c.1.1) calls) → Forall (λ c, c.1.1 ≠ []) calls →
  (∀ c, c ∈ calls → ToolIndexByID s !! c.1.1 = None) →
  ∃ s' os, process_all (map (λ '(id, name, input), call_event id name input) calls) s = (s', map (λ p, call p.1 p.2) os) ∧
    map fst os = map whole calls ∧ Forall (λ p, p.2 = [] ∨ p.2 = [member "role" (text "assistant")]) os ∧ Finished s' = Finished s.
Proof.
  revert s. induction calls as [|[[id name] input] calls IH]; intros s Hd Hid Hnew; cbn [map process_all].
  { by exists s, []. }
  cbn [map fst] in Hd. apply NoDup_cons in Hd as [Hd1 Hd2]. apply Forall_cons in Hid as [Hi Hid]. cbn [fst] in Hi.
  change (process (call_event id name input) s) with (on_tool_call responseID created model (call_event id name input) s).
  unfold on_tool_call. change (stringOf (call_event id name input) "toolCallId") with id. rewrite (nonempty_true id) by done.
  assert (E : ToolIndexByID s !! id = None) by (apply (Hnew (id, name, input)); by left). rewrite E.
  destruct (IH (next_chunk (next_tool id s))) as (s' & os & -> & H1 & H2 & H3); [done|done|..].
  { intros c Hin. cbn [ToolIndexByID next_chunk next_tool]. rewrite lookup_insert_ne; [apply Hnew; by right|].
    intros Heq. apply Hd1. rewrite Heq. change (c.1.1 ∈ (λ c, c.1.1) <$> calls). by apply (list_elem_of_fmap_2 (λ c : bytes * bytes * bytes, c.1.1)). }
  exists s', ((whole (id, name, input), role_if_first s) :: os). split; [done|]. cbn [map fst]. rewrite H1. split; [done|].
  split; [|done]. constructor; [apply role_cases|done].
Qed.

Lemma chunk_calls_of os : concat (map chunk_calls (map (λ p, call p.1 p.2) os ++ [built [] (B "stop")])) = map fst os.
Proof. induction os as [|[o r] os IH]; [done|]. cbn [map app concat fst snd]. by rewrite IH. Qed.

Lemma one_index {A} (f : A → Z) n (l : list A) : Forall (λ x, f x = n) l → l ≠ [] → first_seen (map f l) = [n].
Proof.
  intros Hf Hne. destruct Hf as [|x l Hx Hf]; [done|]. unfold first_seen. cbn [map foldl]. rewrite Hx, bool_decide_eq_false_2 by set_solver.
  clear Hne Hx x. cbn [app]. induction Hf as [|x l Hx _ IH]; [done|]. cbn [map foldl]. rewrite Hx, bool_decide_eq_true_2 by set_solver. exact IH.
Qed.

(** Calls that the upstream tells in one event each carry no index: the client reads
    them all under index 0, and folding the stream makes one call of them. *)
Theorem whole_calls_run_together calls lines scan_failed :
  NoDup (map (λ c, c.1.1) calls) → Forall (λ c, c.1.1 ≠ []) calls → calls ≠ [] →
  Forall2 carries lines (map (λ '(id, name, input), call_event id name input) calls) →
  ∃ chunks usage, handleCommandcodeStream out_of_range responseID created model lines scan_failed =
      Relayed (concat (map stream_frame chunks) ++ sseDoneFrame) usage scan_failed ∧
    parts_of out_of_range 0 chunks = map whole calls ∧
    map fst (f_calls (fold_chunks out_of_range (map Some chunks))) = [0].
Proof.
  intros Hd Hid Hne Hcarry.
  destruct (whole_calls_step calls fresh_commandcode Hd Hid) as (s & os & Hall & Hos & Hroles & Hfin); [intros; apply lookup_empty|].
  exists (map (λ p, call p.1 p.2) os ++ [built [] (B "stop")]), (guessed s).
  unfold handleCommandcodeStream. rewrite (cc_run_carried _ _ _ _ Hcarry), Hall, Hfin. split; [done|].
  assert (Hw : Forall (λ o, call_index out_of_range o = 0) (map whole calls)).
  { apply Forall_map, Forall_forall. by intros [[id name] input] _. }
  split.
  - unfold parts_of. rewrite chunk_calls_of, Hos. by apply filter_id.
  - unfold fold_chunks. rewrite map_map. cbn [default]. rewrite map_id.
    destruct (fold_from out_of_range (map (λ p, call p.1 p.2) os ++ [built [] (B "stop")]) no_folding) as (_ & _ & -> & _).
    rewrite call_keys, chunk_calls_of, Hos. apply (one_index _ 0 _ Hw). by destruct calls.
Qed.

(** *** Errors *)

Lemma error_status_range v n : error_status v = Some n → 400 <= n <= 599.
Proof.
  unfold error_status. destruct v as [| |lit| | |]; try done. destruct (parse_float lit) as [[| | |[] m e]|]; try done.
  assert (Hpow : 0 < 2 ^ (- e) ∨ 0 <= e) by (destruct (Z.le_gt_cases 0 e); [by right|left; apply Z.pow_pos_nonneg; lia]).
  destruct (Z.leb_spec 0 e) as [He|He]; cbv beta iota zeta.
  - destruct (_ && _) eqn:E; [|done]. intros [= <-]. bsplit. rewrite Z.div_1_r. lia.
  - destruct (_ && _) eqn:E; [|done]. intros [= <-]. destruct Hpow as [Hpow|]; [|lia]. bsplit.
    split; [apply Z.div_le_lower_bound; lia|apply Z.div_le_upper_bound; lia].
Qed.

Lemma parsed_status_range e : 400 <= (ParseCommandCodeError e).1 <= 599.
Proof.
  unfold ParseCommandCodeError.
  assert (Hd : ∀ v d, 400 <= d <= 599 → 400 <= default d (error_status v) <= 599).
  { intros v d Hd. destruct (error_status v) eqn:E; [by eapply error_status_range|done]. }
  assert (Hb : ∀ v w, 400 <= default 503 (match error_status v with Some n => Some n | None => error_status w end) <= 599).
  { intros v w. destruct (error_status v) eqn:E; [exact (error_status_range _ _ E)|]. apply Hd. lia. }
  destruct (match raw_field "error" e with Some (JObj _) => _ | _ => _ end) as [status message] eqn:E.
  assert (Hs : 400 <= status <= 599).
  { destruct (raw_field "error" e) as [[| | | | |m]|]; injection E as <- _; try lia. apply Hb. }
  cbv beta iota zeta. cbn [fst]. destruct (_ =? 503); [|by apply Hd].
  unfold status_of_message. repeat case_match; lia.
Qed.

(** C24. An error of the upstream that comes before any output refuses the turn, with a status
    from 400 to 599 and nothing written, whatever follows it. One that comes later is
    told the client as text of the answer, the turn ends with [stop], and the call
    succeeds. *)
Theorem commandcode_error_outcome before s cs line e after scan_failed :
  run before fresh_commandcode false = inl (s, cs) → line_event line = Some e → stringOf e "type" = B "error" →
  (cs = [] → ∃ ue, handleCommandcodeStream out_of_range responseID created model (before ++ line :: after) scan_failed = RefusedTurn ue ∧
     ue_StatusCode ue = (ParseCommandCodeError e).1 ∧ 400 <= ue_StatusCode ue <= 599) ∧
  (cs ≠ [] → ∃ told usage, handleCommandcodeStream out_of_range responseID created model (before ++ [line]) scan_failed =
       Relayed (concat (map stream_frame (cs ++ told)) ++ sseDoneFrame) usage scan_failed ∧
     last_reason told [] = B "stop" ∧
     said "content" told = [ch_lf; ch_lf] ++ B "[CommandCode error: " ++
       or_text (stringOf e "error") (or_text (stringOf e "message") (B "unknown error")) ++ B "]").
Proof.
  intros Hrun Hl He. split; intros Hcs.
  - subst cs. exists (refusal e). unfold handleCommandcodeStream. rewrite cc_run_app, Hrun. cbn [run_lines].
    rewrite Hl, (bool_decide_eq_true_2 _ He), bool_decide_eq_false_2 by auto. cbn [orb negb andb]. split; [done|].
    assert (R := parsed_status_range e). unfold refusal. destruct (ParseCommandCodeError e) as [code msg]. done.
  - unfold handleCommandcodeStream. rewrite cc_run_app, Hrun. cbn [run_lines].
    rewrite Hl, (bool_decide_eq_true_2 _ He), bool_decide_eq_true_2 by done. cbn [orb negb andb].
    assert (E : process e s = on_error responseID created model e s) by (unfold ProcessCommandcodeEvent; by rewrite He).
    rewrite E. unfold on_error. cbv beta iota zeta. cbn [Finished finish_with].
    rewrite !app_nil_r. eexists _, _. split; [reflexivity|]. split; [done|]. unfold said. cbn [map concat].
    by rewrite !app_nil_r.
Qed.

End Relay.

Module Sample.

#[local] Existing Instance ascii_case.
#[local] Existing Instance Checked.codec.

Definition saturated (n : Z) : Z := - 2 ^ 63.
Definition answer := handleCommandcodeStream saturated (B "chatcmpl-1") 0 (B "m").
Definition encoded (es : list object) : list bytes := map (λ e, marshal (JObj e)) es.

(** A line of an encoded event is read as the event. *)
Lemma encoded_line e : well_formed (JObj e) = true → line_event (marshal (JObj e)) = Some e.
Proof.
  intros He. unfold line_event. rewrite (trimmed_text _ Checked.checked_sound) by done. destruct (object_text _ Checked.checked_sound e He) as [t Et].
  assert (Hp : has_prefix (B "data:") (marshal (JObj e)) = false) by (rewrite Et; done). rewrite Hp.
  rewrite (bool_decide_eq_false_2 (marshal (JObj e) = [])) by (by rewrite Et). rewrite (bool_decide_eq_false_2 (marshal (JObj e) = B "[DONE]")) by (by rewrite Et).
  cbn [orb]. rewrite (decode_encode _ Checked.checked_sound) by done. by rewrite Checked.respell_same.
Qed.

Lemma cc_encoded_carries es : forallb (λ e, well_formed (JObj e)) es = true → Forall (λ e, stringOf e "type" ≠ B "error") es → Forall2 carries (encoded es) es.
Proof.
  unfold encoded. intros Hwf He. induction He as [|e es He _ IH]; [constructor|]. apply andb_true_iff in Hwf as [Hw Hwf].
  constructor; [|by apply IH]. split; [by apply encoded_line|done].
Qed.

Definition items : list cc_item := [Thought [B "hm"]; Said [B "Hel"; B ""; B "lo"]; Called (B "c1") (B "read") [B "{"; B "}"]; Called (B "c2") (B "list") [B "[1"; B ",1]"]].
Definition events : list object := concat (map events_of items) ++ [step_event (B "tool-calls"); finish_event 700 90].

(** The reason is not one an OpenAI client knows, and the counts are not recorded. *)
Lemma cc_items_reach_witness : ∃ chunks final usage,
  answer (encoded events) false = Relayed (concat (map stream_frame (chunks ++ [final])) ++ sseDoneFrame) usage false ∧
  said "content" chunks = B "Hello" ∧ concat (argument_parts (parts_of saturated 1 chunks)) = B "[1,1]" ∧
  last_reason [final] [] = B "tool-calls" ∧ PromptTokens usage = 0 ∧ CompletionTokens usage = 1.
Proof.
  assert (Hc : Forall2 carries (encoded events) events).
  { apply cc_encoded_carries; [by vm_compute|]. apply (bool_decide_unpack _). by vm_compute. }
  revert Hc. unfold answer. generalize (encoded events) as lines. intros lines Hc.
  destruct (commandcode_items_reach_client saturated (B "chatcmpl-1") 0 (B "m") id items (B "tool-calls") 700 90 lines false Checked.checked_sound eq_refl eq_refl eq_refl)
    as (chunks & final & usage & H1 & H2 & _ & H4 & _ & H6 & _ & H8 & H9); [apply (bool_decide_unpack _); by vm_compute..|by vm_compute|done|lia|lia|exact Hc|].
  exists chunks, final, usage. split; [exact H1|]. split; [rewrite H2; by vm_compute|].
  split; [destruct (H4 1%nat (B "c2") (B "list") [B "[1"; B ",1]"]) as (_ & _ & E); [reflexivity|]; rewrite <- (eq_refl : Z.of_nat 1 = 1); by rewrite E|].
  split; [exact H6|]. split; [exact H8|]. rewrite H9. by vm_compute.
Defined.

Definition calls : list (bytes * bytes * bytes) := [(B "c1", B "read", B "{}"); (B "c2", B "list", [])].

Lemma whole_calls_witness : ∃ chunks usage,
  answer (encoded (map (λ '(id, name, input), call_event id name input) calls)) false = Relayed (concat (map stream_frame chunks) ++ sseDoneFrame) usage false ∧
  map fst (f_calls (fold_chunks saturated (map Some chunks))) = [0].
Proof.
  assert (Hc := cc_encoded_carries (map (λ '(id, name, input), call_event id name input) calls) ltac:(by vm_compute) ltac:(apply (bool_decide_unpack _); by vm_compute)). revert Hc.
  unfold answer. generalize (encoded (map (λ '(id, name, input), call_event id name input) calls)) as lines. intros lines Hc.
  destruct (whole_calls_run_together saturated (B "chatcmpl-1") 0 (B "m") calls lines false) as (chunks & usage & H1 & _ & H3);
    [apply (bool_decide_unpack _); by vm_compute..|done|exact Hc|]. by exists chunks, usage.
Defined.

Definition overloaded : object := ev "error" [member "error" (JObj [member "message" (text "slow down"); member "status" (jint 529)])].

(** Refused when it comes first, told as text after a text; the message is not told. *)
Lemma error_outcome_witness :
  (∃ ue, answer ([] ++ marshal (JObj overloaded) :: []) false = RefusedTurn ue ∧ ue_StatusCode ue = 529) ∧
  (∃ chunks usage, answer ([marshal (JObj (text_event (B "Hel")))] ++ [marshal (JObj overloaded)]) false =
     Relayed (concat (map stream_frame chunks) ++ sseDoneFrame) usage false).
Proof.
  assert (Hl := encoded_line overloaded ltac:(by vm_compute)).
  assert (Hr := cc_run_carried saturated (B "chatcmpl-1") 0 (B "m") _ _ fresh_commandcode false (cc_encoded_carries [text_event (B "Hel")] ltac:(by vm_compute) ltac:(apply (bool_decide_unpack _); by vm_compute))).
  change (encoded [text_event (B "Hel")]) with [marshal (JObj (text_event (B "Hel")))] in Hr.
  revert Hl Hr. unfold answer. generalize (marshal (JObj overloaded)), (marshal (JObj (text_event (B "Hel")))). intros line before Hl Hr.
  destruct (commandcode_error_outcome saturated (B "chatcmpl-1") 0 (B "m") [] fresh_commandcode [] line overloaded [] false) as [H1 _]; [done|done|done|].
  destruct (process_all _ _ _ _ _ _) as [s cs] eqn:E in Hr.
  destruct (commandcode_error_outcome saturated (B "chatcmpl-1") 0 (B "m") [before] s cs line overloaded [] false) as [_ H2]; [exact Hr|done|done|]. split.
  - destruct (H1 eq_refl) as (ue & E1 & E2 & _). exists ue. split; [exact E1|]. rewrite E2. by vm_compute.
  - destruct H2 as (told & usage & -> & _); [injection E as _ <-; done|]. by exists (cs ++ told), usage.
Defined.

(** The message goes into the body as it is. *)
Example refusal_is_not_json :
  json_decode (ue_Body (refusal (ev "error" [member "message" (JStr (js "model ~m~ is gone"))]))) = None ∧
  is_Some (json_decode (ue_Body (refusal (ev "error" [member "message" (text "model m is gone")])))).
Proof. split; [by vm_compute|]. eexists. by vm_compute. Qed.

End Sample.
