(* ===== verification/KiroStream.v ===== *)
(** * A Kiro stream rewritten for Chat Completions
    ([internal/proxy/executor/stream.go], the Kiro part)

    AWS event frames, read with the reader of [EventStream], become chunks; the
    parts of tool calls are put together at the end of the stream. What a client
    gets of the frames of an upstream, and of a stream cut in the middle of one.
    Writes succeed. *)

From stdpp Require Import gmap.
From S2P Require Import Prelude GoRegexp Json GoText RetryAfter ErrorClassify SseCopy Capabilities GuardEngine ClaudeBody ToolArgs Usage EventStream ClaudeStream ClaudeAnswer JsonLaws AnswerFold CodexStream.

(** ** The state *)

Record kiroToolCall := { k_id : bytes; k_name : bytes; k_inputs : bytes; k_emitted : bool }.

(** The calls begun, and the text so far. *)
Record kiroStreamState := { tools : list kiroToolCall; accumulatedContent : bytes }.
Definition fresh_kiro : kiroStreamState := {| tools := []; accumulatedContent := [] |}.

(** [state.tool(id, name)], and the write to the buffer it gives. *)
Fixpoint tool (id name input : bytes) (l : list kiroToolCall) : list kiroToolCall :=
  match l with
  | [] => [{| k_id := id; k_name := name; k_inputs := input; k_emitted := false |}]
  | c :: l =>
      if bool_decide (k_id c = id)
      then {| k_id := id; k_name := k_name c; k_inputs := k_inputs c ++ input; k_emitted := k_emitted c |} :: l
      else c :: tool id name input l
  end.

(** ** Frames *)

(** How the reading of frames ends. [eof]: the error wraps [io.EOF], as it does when the
    stream ends right behind a prelude. *)
Inductive reading_end := CleanEnd | ReadFailed (eof : bool) | ReaderPanicked.

Definition wraps_eof (stream : bytes) (broken : bool) (msg : string) : bool :=
  negb broken && (length stream =? eventStreamPreludeLen)%nat && bool_decide (msg = "ended mid-frame"%string).

(** A frame takes at least sixteen bytes: the length of the stream is enough fuel. *)
Fixpoint read_frames (fuel : nat) (stream : bytes) (broken : bool) : list EventStreamFrame * reading_end :=
  match fuel with
  | O => ([], CleanEnd)
  | S fuel =>
      match ReadFrame stream broken with
      | Ret (None, _) => ([], CleanEnd)
      | Ret (Some f, rest) => let '(fs, e) := read_frames fuel rest broken in (f :: fs, e)
      | Fail msg => ([], ReadFailed (wraps_eof stream broken msg))
      | Crash => ([], ReaderPanicked)
      end
  end.

Section Process.
Context `{JsonCodec}.
Variables (responseID : bytes) (created : Z).

(** The text a payload carries under the member, when it decodes. *)
Definition payload_text (key : string) (payload : bytes) : bytes :=
  default [] (j ← unmarshal payload; m ← as_struct j; str_field (B key) m).

Definition on_said (key : string) (t : bytes) (s : kiroStreamState) (content : bytes) : kiroStreamState * list object :=
  if nonempty t then ({| tools := tools s; accumulatedContent := accumulatedContent s ++ content |}, [delta_chunk responseID created [member key (JStr t)]])
  else (s, []).

Definition input_text (v : json) : bytes := match v with JStr t => t | JObj m => marshal (JObj m) | _ => [] end.

(** One value of a tool frame; a call without an id gets the next number. *)
Definition on_tool_use (s : kiroStreamState) (v : json) : kiroStreamState :=
  match as_obj v with
  | Some value =>
      let name := trim_space (stringOf value "name") in
      let id := stringOf value "toolUseId" in
      let id := if bool_decide (trim_space id = []) then B "call_" ++ itoa created ++ B "_" ++ itoa (zlen (tools s) + 1) else id in
      if nonempty name
      then {| tools := tool id name (input_text (obj_get (B "input") value)) (tools s); accumulatedContent := accumulatedContent s |}
      else s
  | None => s
  end.

Definition on_frame (f : EventStreamFrame) (s : kiroStreamState) : kiroStreamState * list object :=
  let type := default [] (f_headers f !! ":event-type"%string) in
  let payload := f_payload f in
  if bool_decide (type = B "assistantResponseEvent") then let t := payload_text "content" payload in on_said "content" t s t
  else if bool_decide (type = B "reasoningContentEvent") then on_said "reasoning_content" (payload_text "text" payload) s []
  else if bool_decide (type = B "toolUseEvent") then
    match unmarshal payload with
    | Some raw => (foldl on_tool_use s (match raw with JArr l => l | v => [v] end), [])
    | None => (s, [])
    end
  else (s, []).

Fixpoint on_frames (fs : list EventStreamFrame) (s : kiroStreamState) : kiroStreamState * list object :=
  match fs with
  | [] => (s, [])
  | f :: fs => let '(s, cs) := on_frame f s in let '(s, more) := on_frames fs s in (s, cs ++ more)
  end.

(** *** The end of the stream *)

Definition tool_arguments (c : kiroToolCall) : bytes := let a := trim_space (k_inputs c) in if nonempty a then a else B "{}".

Definition tool_chunk (i : nat) (c : kiroToolCall) : object :=
  CodexStream.call_chunk responseID created
    (full_call (Z.of_nat i) (k_id c) [member "name" (JStr (k_name c)); member "arguments" (JStr (tool_arguments c))]).

Definition finish_chunk (s : kiroStreamState) : object :=
  codex_chunk responseID created [] [member "finish_reason" (text (match tools s with [] => "stop" | _ => "tool_calls" end))] [].

Definition closing_chunks (s : kiroStreamState) : list object :=
  imap tool_chunk (filter (λ c, k_emitted c = false) (tools s)) ++ [finish_chunk s].

Definition kiro_usage (s : kiroStreamState) : OpenAIUsage :=
  {| PromptTokens := 0; CompletionTokens := zlen (accumulatedContent s) / 4; CachedTokens := 0; CacheCreationInputTokens := 0;
     PromptTokensDetails := None; CompletionTokensDetails := None; PromptCacheIncluded := false |}.

(** What is written, the counts, and the end of the reading, which is the error of the
    call unless it was clean. *)
Record kiro_result := { kr_written : bytes; kr_usage : OpenAIUsage; kr_end : reading_end }.

Definition handleKiroStream (stream : bytes) (broken : bool) : kiro_result :=
  let '(fs, e) := read_frames (S (length stream)) stream broken in
  let '(s, cs) := on_frames fs fresh_kiro in
  {| kr_written := concat (map codex_frame (cs ++ closing_chunks s)) ++ sseDoneFrame; kr_usage := kiro_usage s; kr_end := e |}.

(** A request for a document: the frames are folded, unless the reading failed. *)
Inductive kiro_answer := Answer (r : response) | ReadError.

Definition handleKiroNonStream `{UnicodeCase} (out_of_range : Z → Z) (visit_args : object → object) (raw_text : json → bytes)
    (to_responses : bytes → option bytes) (seconds nanos : Z) (guarded : bool) (policy : option (option Engine)) (c : client)
    (stream : bytes) (broken : bool) : kiro_answer :=
  let r := handleKiroStream stream broken in
  match kr_end r with
  | ReaderPanicked | ReadFailed false => ReadError
  | CleanEnd | ReadFailed true =>
      Answer match sseToOpenAIJSON out_of_range seconds nanos (kr_written r) with
             | None => Failed (UpstreamFailure 502 NoCompletionInStream)
             | Some folded => jsonResponse out_of_range visit_args raw_text to_responses seconds nanos guarded policy c folded
             end
  end.

End Process.

(** ** Streams of an upstream *)

Inductive kiro_event :=
  | Said (t : bytes)
  | Thought (t : bytes)
  | Used (id name input : bytes).   (* a part of the arguments of a call *)

Definition type_of (e : kiro_event) : string :=
  match e with Said _ => "assistantResponseEvent" | Thought _ => "reasoningContentEvent" | Used _ _ _ => "toolUseEvent" end.
Definition payload_of (e : kiro_event) : object :=
  match e with
  | Said t => [member "content" (JStr t)]
  | Thought t => [member "text" (JStr t)]
  | Used id name input => [member "name" (JStr name); member "toolUseId" (JStr id); member "input" (JStr input)]
  end.

Definition headers_of (e : kiro_event) : headers := {[ ":event-type"%string := B (type_of e) ]}.

Definition text_of_event (e : kiro_event) : bytes := match e with Said t => t | _ => [] end.
Definition thought_of_event (e : kiro_event) : bytes := match e with Thought t => t | _ => [] end.
Definition parts_told (es : list kiro_event) : list (bytes * bytes * bytes) :=
  omap (λ e, match e with Used id name input => Some (id, name, input) | _ => None end) es.

(** Ids and names that are not blank; payloads of at most 16 MiB, which are read as the
    members of the event. *)
Definition sound_event `{JsonCodec} (e : kiro_event) : Prop :=
  match e with Used id name _ => trim_space id ≠ [] ∧ trim_space name = name ∧ name ≠ [] | _ => True end ∧
  zlen (marshal (JObj (payload_of e))) <= 2 ^ 24 ∧ unmarshal (marshal (JObj (payload_of e))) = Some (JObj (payload_of e)).

(** *** The calls, put together *)

Definition see (acc : list bytes) (id : bytes) : list bytes := if bool_decide (id ∈ acc) then acc else acc ++ [id].
Definition ids_in_order (l : list (bytes * bytes * bytes)) : list bytes := foldl see [] (map (λ p, p.1.1) l).
Definition parts_with (id : bytes) (l : list (bytes * bytes * bytes)) : list (bytes * bytes * bytes) := filter (λ p, p.1.1 = id) l.

(** The call of an id: the name that came first, and all parts of its arguments. *)
Definition call_of (l : list (bytes * bytes * bytes)) (id : bytes) : kiroToolCall :=
  {| k_id := id; k_name := default [] (p ← head (parts_with id l); Some p.1.2); k_inputs := concat (map snd (parts_with id l)); k_emitted := false |}.

Lemma call_of_other l id name input id' : id' ≠ id → call_of (l ++ [(id, name, input)]) id' = call_of l id'.
Proof.
  intros Hne. unfold call_of, parts_with. rewrite filter_app, filter_cons_False by (cbn; congruence). by rewrite filter_nil, app_nil_r.
Qed.

Lemma head_app {A} (l l' : list A) : l ≠ [] → head (l ++ l') = head l.
Proof. by destruct l. Qed.

Lemma ids_known l id : id ∈ ids_in_order l ↔ parts_with id l ≠ [].
Proof.
  unfold ids_in_order, parts_with. induction l as [|[[id' name] input] l IH] using rev_ind; [set_solver|].
  rewrite map_app, foldl_app, filter_app. cbn [map foldl]. unfold see at 1. rewrite filter_cons, filter_nil. cbn [fst].
  set (acc := foldl see [] _) in *. destruct (decide (id' = id)) as [->|Hne].
  - split; [by intros _; destruct (filter _ l)|]. intros _. case_bool_decide; [done|]. set_solver.
  - rewrite app_nil_r, <- IH. case_bool_decide; [done|]. rewrite elem_of_app, list_elem_of_singleton. naive_solver.
Qed.

Lemma ids_distinct l : NoDup (ids_in_order l).
Proof.
  unfold ids_in_order. induction l as [|p l IH] using rev_ind; [constructor|]. rewrite map_app, foldl_app. cbn [map foldl]. unfold see at 1.
  case_bool_decide as E; [done|]. apply NoDup_app. split; [done|]. split; [set_solver|apply NoDup_singleton].
Qed.

Lemma tool_absent id name input (f : bytes → kiroToolCall) ids : (∀ i, k_id (f i) = i) → id ∉ ids →
  tool id name input (map f ids) = map f ids ++ [{| k_id := id; k_name := name; k_inputs := input; k_emitted := false |}].
Proof.
  intros Hf. induction ids as [|i ids IH]; intros Hin; cbn [map tool app]; [done|]. rewrite Hf, bool_decide_eq_false_2 by set_solver.
  rewrite IH by set_solver. done.
Qed.

Lemma tool_present id name input (f g : bytes → kiroToolCall) ids : (∀ i, k_id (f i) = i) → (∀ i, i ≠ id → g i = f i) →
  g id = {| k_id := id; k_name := k_name (f id); k_inputs := k_inputs (f id) ++ input; k_emitted := k_emitted (f id) |} →
  NoDup ids → id ∈ ids → tool id name input (map f ids) = map g ids.
Proof.
  intros Hf Hg Hid Hd. induction Hd as [|i ids Hi Hd IH]; intros Hin; [by apply elem_of_nil in Hin|]. cbn [map tool]. rewrite Hf.
  destruct (decide (i = id)) as [->|Hne].
  - rewrite bool_decide_eq_true_2, Hid by done. f_equal. apply map_ext_in. intros j Hj. symmetry. apply Hg. intros ->. by apply Hi, list_elem_of_In.
  - rewrite bool_decide_eq_false_2, Hg by done. f_equal. apply IH. set_solver.
Qed.

Lemma tools_put_together l : foldl (λ t p, tool p.1.1 p.1.2 p.2 t) [] l = map (call_of l) (ids_in_order l).
Proof.
  induction l as [|[[id name] input] l IH] using rev_ind; [done|]. rewrite foldl_app, IH. cbn [foldl fst snd].
  assert (Hids : ids_in_order (l ++ [(id, name, input)]) = see (ids_in_order l) id) by (unfold ids_in_order; by rewrite map_app, foldl_app).
  rewrite Hids. unfold see. case_bool_decide as Hin.
  - apply tool_present; [done|by intros; apply call_of_other| |apply ids_distinct|done].
    apply ids_known in Hin. unfold call_of, parts_with in *. rewrite filter_app, filter_cons_True, filter_nil by done.
    rewrite map_app, concat_app, head_app by done. cbn [map concat k_name k_inputs k_emitted snd]. by rewrite app_nil_r.
  - rewrite tool_absent by done. rewrite map_app. f_equal.
    + apply map_ext_in. intros i Hi. symmetry. apply call_of_other. intros ->. by apply Hin, list_elem_of_In.
    + cbn [map]. unfold call_of, parts_with. rewrite filter_app, filter_cons_True, filter_nil by done.
      assert (E : filter (λ p : bytes * bytes * bytes, p.1.1 = id) l = []).
      { destruct (filter _ l) eqn:E; [done|]. exfalso. apply Hin, ids_known. unfold parts_with. by rewrite E. }
      rewrite E. cbn [app head map concat snd]. by rewrite app_nil_r.
Qed.

Section Relay.
Context `{JsonCodec} `{UnicodeCase}.
Variable out_of_range : Z → Z.
Variables (responseID : bytes) (created : Z).

Definition frame_of (e : kiro_event) : EventStreamFrame := MkFrame (headers_of e) (marshal (JObj (payload_of e))).
Definition encoded_frame (e : kiro_event) : bytes := EncodeEventFrame (headers_of e) (marshal (JObj (payload_of e))).
Definition stream_of (es : list kiro_event) : bytes := concat (map encoded_frame es).

Lemma sound_fits e : sound_event e → frame_fits (headers_of e) (marshal (JObj (payload_of e))).
Proof.
  intros (_ & Hl & _). assert (Hb : ∀ k, match k with Said _ | Thought _ | Used _ _ _ => zlen (encodeEventHeaders (sorted_headers (headers_of k))) <= 64 end)
    by (intros []; by vm_compute).
  split; [|specialize (Hb e); destruct e; split; unfold MaxEventStreamHeadersBytes, MaxEventStreamMessageBytes; lia].
  destruct e; (apply (bool_decide_unpack _); by vm_compute).
Qed.

Lemma frame_length e : sound_event e → (16 <= length (encoded_frame e))%nat.
Proof.
  intros He. destruct (encoded_parts _ _ (sound_fits e He)) as (E & Hl & _). unfold encoded_frame. rewrite E, Hl.
  assert (B1 := zlen_nonneg (encodeEventHeaders (sorted_headers (headers_of e)))). assert (B2 := zlen_nonneg (marshal (JObj (payload_of e)))). lia.
Qed.

Lemma read_stream_of es rest broken fuel : Forall sound_event es → (length es <= fuel)%nat →
  read_frames fuel (stream_of es ++ rest) broken =
    let '(fs, e) := read_frames (fuel - length es) rest broken in (map frame_of es ++ fs, e).
Proof.
  intros Hs. revert fuel. induction Hs as [|e es He Hs IH]; intros fuel Hf; cbn [length map app] in *.
  - rewrite Nat.sub_0_r. change (stream_of [] ++ rest) with rest. by destruct (read_frames fuel rest broken).
  - destruct fuel as [|fuel]; [lia|]. unfold stream_of. cbn [map concat read_frames]. rewrite <- app_assoc.
    unfold encoded_frame at 1. rewrite read_encoded by by apply sound_fits. cbn [Nat.sub]. fold (stream_of es).
    rewrite IH by lia. by destruct (read_frames (fuel - length es) rest broken).
Qed.

Lemma stream_length es : Forall sound_event es → (length es <= length (stream_of es))%nat.
Proof.
  induction 1 as [|e es He _ IH]; [done|]. unfold stream_of in *. cbn [map concat length]. rewrite length_app. assert (L := frame_length e He). lia.
Qed.

(** *** The chunks *)

Definition chunk_of_event (e : kiro_event) : list object :=
  match e with
  | Said t => if nonempty t then [delta_chunk responseID created [member "content" (JStr t)]] else []
  | Thought t => if nonempty t then [delta_chunk responseID created [member "reasoning_content" (JStr t)]] else []
  | Used _ _ _ => []
  end.

Lemma decoded_text key payload m t : unmarshal payload = Some (JObj m) → str_field (B key) m = Some t → payload_text key payload = t.
Proof. intros Hu Ht. unfold payload_text. rewrite Hu. cbn [mbind option_bind as_struct]. by rewrite Ht. Qed.

Lemma event_step e s : sound_event e →
  on_frame responseID created (frame_of e) s =
    ({| tools := foldl (λ t p, tool p.1.1 p.1.2 p.2 t) (tools s) (parts_told [e]); accumulatedContent := accumulatedContent s ++ text_of_event e |},
     chunk_of_event e).
Proof.
  intros (He & _ & Hd). unfold on_frame, frame_of. cbn [f_headers f_payload]. unfold headers_of. rewrite lookup_singleton_eq. cbn [default].
  destruct e as [t|t|id name input]; cbn [type_of payload_of text_of_event chunk_of_event parts_told omap list_omap foldl] in *.
  - rewrite bool_decide_eq_true_2, (decoded_text _ _ _ t Hd) by done. cbv zeta. unfold on_said. destruct t; [|done].
    change (nonempty []) with false. cbv beta iota. rewrite app_nil_r. by destruct s.
  - rewrite bool_decide_eq_false_2, bool_decide_eq_true_2, (decoded_text _ _ _ t Hd) by done. unfold on_said. rewrite app_nil_r.
    destruct t; [|done]. change (nonempty []) with false. cbv beta iota. by destruct s.
  - rewrite bool_decide_eq_false_2, bool_decide_eq_false_2, bool_decide_eq_true_2 by done. rewrite Hd. cbn [foldl]. rewrite app_nil_r.
    destruct He as (Hid & Hname & Hne). unfold on_tool_use. cbn [as_obj].
    change (stringOf _ "name") with name. change (stringOf _ "toolUseId") with id. change (obj_get (B "input") _) with (JStr input).
    rewrite Hname, bool_decide_eq_false_2 by done. destruct name; done.
Qed.

Lemma events_step es s : Forall sound_event es →
  on_frames responseID created (map frame_of es) s =
    ({| tools := foldl (λ t p, tool p.1.1 p.1.2 p.2 t) (tools s) (parts_told es); accumulatedContent := accumulatedContent s ++ concat (map text_of_event es) |},
     concat (map chunk_of_event es)).
Proof.
  intros Hs. revert s. induction Hs as [|e es He Hs IH]; intros s; cbn [map on_frames concat].
  { rewrite app_nil_r. by destruct s. }
  rewrite event_step, IH by done. cbn [tools accumulatedContent]. rewrite <- app_assoc. do 2 f_equal.
  change (parts_told (e :: es)) with (parts_told ([e] ++ es)). unfold parts_told at 3. rewrite omap_app, foldl_app. done.
Qed.

Lemma kiro_chunks_say es : said "content" (concat (map chunk_of_event es)) = concat (map text_of_event es) ∧
  said "reasoning_content" (concat (map chunk_of_event es)) = concat (map thought_of_event es) ∧
  concat (map chunk_calls (concat (map chunk_of_event es))) = [].
Proof.
  assert (S1 : ∀ t, said "content" [delta_chunk responseID created [member "content" (JStr t)]] = t) by (intros t; apply app_nil_r).
  assert (S2 : ∀ t, said "reasoning_content" [delta_chunk responseID created [member "reasoning_content" (JStr t)]] = t) by (intros t; apply app_nil_r).
  induction es as [|e es (E1 & E2 & E3)]; [done|]. cbn [map concat]. rewrite !said_app, map_app, concat_app, E1, E2, E3, app_nil_r.
  destruct e as [[|c t]|[|c t]|id name input]; cbn [chunk_of_event text_of_event thought_of_event]; try done.
  - change (nonempty (c :: t)) with true. cbv beta iota. by rewrite S1.
  - change (nonempty (c :: t)) with true. cbv beta iota. by rewrite S2.
Qed.

(** The objects of calls, each in its chunk under its place. *)
Definition call_object (i : nat) (c : kiroToolCall) : object :=
  full_call (Z.of_nat i) (k_id c) [member "name" (JStr (k_name c)); member "arguments" (JStr (tool_arguments c))].

Lemma objects_at (k : nat) (l : list kiroToolCall) (i : Z) : Z.of_nat k + zlen l <= 2 ^ 53 →
  filter (λ tc, call_index out_of_range tc = i) (imap (λ j c, call_object (k + j) c) l) =
    if Z.of_nat k <=? i then option_list (call_object (Z.to_nat i) <$> l !! Z.to_nat (i - Z.of_nat k)) else [].
Proof.
  revert k. induction l as [|c l IH]; intros k Hk; [cbn; by case_match|]. rewrite imap_cons, filter_cons.
  assert (Hl : zlen (c :: l) = 1 + zlen l) by (unfold zlen; cbn [length]; lia). assert (Hpos := zlen_nonneg l).
  assert (Hi : call_index out_of_range (call_object (k + 0) c) = Z.of_nat k).
  { rewrite Nat.add_0_r. apply (number_int_itoa out_of_range (Z.of_nat k)). lia. }
  rewrite Hi. rewrite (imap_ext _ (λ j c, call_object (S k + j) c)) by (intros; cbn; f_equal; lia). rewrite IH by lia.
  destruct (decide (Z.of_nat k = i)) as [<-|Hne].
  - rewrite (proj2 (Z.leb_gt _ (Z.of_nat k))), Z.leb_refl, Z.sub_diag, Nat2Z.id, Nat.add_0_r by lia. done.
  - destruct (Z.leb_spec (Z.of_nat (S k)) i), (Z.leb_spec (Z.of_nat k) i); try lia; [|done].
    replace (Z.to_nat (i - Z.of_nat k)) with (S (Z.to_nat (i - Z.of_nat (S k)))) by lia. done.
Qed.

(** *** Whole streams *)

Definition calls_of (es : list kiro_event) : list kiroToolCall := map (call_of (parts_told es)) (ids_in_order (parts_told es)).
Definition chunks_of (es : list kiro_event) : list object :=
  concat (map chunk_of_event es) ++
  closing_chunks responseID created {| tools := calls_of es; accumulatedContent := concat (map text_of_event es) |}.
Definition written_of (es : list kiro_event) : bytes := concat (map codex_frame (chunks_of es)) ++ sseDoneFrame.

Lemma handled es rest broken fs e : Forall sound_event es →
  read_frames (S (length (stream_of es ++ rest)) - length es) rest broken = ([], e) → fs = map frame_of es →
  handleKiroStream responseID created (stream_of es ++ rest) broken =
    {| kr_written := written_of es; kr_usage := kiro_usage {| tools := calls_of es; accumulatedContent := concat (map text_of_event es) |}; kr_end := e |}.
Proof.
  intros Hs Hr ->. unfold handleKiroStream. assert (L := stream_length es Hs).
  rewrite read_stream_of, Hr, app_nil_r by (done || (rewrite length_app; lia)). rewrite events_step by done.
  cbn [tools accumulatedContent fresh_kiro app]. by rewrite tools_put_together.
Qed.

Lemma not_emitted es : filter (λ c, k_emitted c = false) (calls_of es) = calls_of es.
Proof. apply filter_id, Forall_map, Forall_forall. done. Qed.

Lemma tool_chunks l : imap (tool_chunk responseID created) l = map (CodexStream.call_chunk responseID created) (imap call_object l).
Proof. change (map ?f ?m) with (f <$> m). by rewrite fmap_imap. Qed.

Lemma call_chunks_say os (cs := map (CodexStream.call_chunk responseID created) os) :
  said "content" cs = [] ∧ said "reasoning_content" cs = [] ∧ concat (map chunk_calls cs) = os.
Proof.
  unfold cs, said. induction os as [|o os (E1 & E2 & E3)]; [done|]. cbn [map concat]. by rewrite E1, E2, E3.
Qed.

(** C21. The frames of an upstream reach a Chat Completions client whole: the text and the
    reasoning in order, and every call once, under the place of its id, with the name
    that came first and all parts of its arguments, however the frames of the calls
    take turns; the right finish reason, one terminator, and no error. *)
Theorem kiro_frames_reach_client es :
  Forall sound_event es → zlen (calls_of es) <= 2 ^ 53 →
  let r := handleKiroStream responseID created (stream_of es) false in
  ∃ chunks, kr_written r = concat (map codex_frame chunks) ++ sseDoneFrame ∧ kr_end r = CleanEnd ∧
    said "content" chunks = concat (map text_of_event es) ∧ said "reasoning_content" chunks = concat (map thought_of_event es) ∧
    (∀ i id, ids_in_order (parts_told es) !! i = Some id →
       ∃ name rest args, parts_with id (parts_told es) = (id, name, args) :: rest ∧
         parts_of out_of_range (Z.of_nat i) chunks =
           [full_call (Z.of_nat i) id [member "name" (JStr name);
              member "arguments" (JStr (let a := trim_space (args ++ concat (map snd rest)) in if nonempty a then a else B "{}"))]]) ∧
    (∀ i, parts_of out_of_range i chunks ≠ [] → 0 <= i < zlen (calls_of es)) ∧
    last_reason chunks [] = B (match calls_of es with [] => "stop" | _ => "tool_calls" end).
Proof.
  intros Hs Hl. cbv zeta.
  assert (E := handled es [] false (map frame_of es) CleanEnd Hs). rewrite app_nil_r in E. assert (L := stream_length es Hs). rewrite E; [|clear E|done].
  2: { replace (S (length (stream_of es)) - length es)%nat with (S (length (stream_of es) - length es)) by lia. done. }
  clear E. exists (chunks_of es). split; [done|]. split; [done|].
  destruct (kiro_chunks_say es) as (S1 & S2 & S3). unfold chunks_of, closing_chunks. cbn [tools]. rewrite not_emitted, app_assoc.
  set (body := concat (map chunk_of_event es) ++ imap (tool_chunk responseID created) (calls_of es)).
  set (fin := finish_chunk responseID created _).
  assert (Hfin : chunk_calls fin = [] ∧ (∀ k, stringOf (chunk_delta fin) k = []) ∧
    obj_get (B "finish_reason") (chunk_choice fin) = text (match calls_of es with [] => "stop" | _ => "tool_calls" end)) by done.
  destruct Hfin as (F1 & F2 & F3). destruct (one_more out_of_range body fin) as (M1 & M2 & M3 & M4).
  destruct (call_chunks_say (imap call_object (calls_of es))) as (C1 & C2 & C3). rewrite <- tool_chunks in C1, C2, C3.
  assert (Hparts : ∀ i, parts_of out_of_range i (body ++ [fin]) =
    if 0 <=? i then option_list (call_object (Z.to_nat i) <$> calls_of es !! Z.to_nat i) else []).
  { intros i. rewrite M3 by done. unfold parts_of, body. rewrite map_app, concat_app, S3, C3. cbn [app].
    assert (O := objects_at 0 (calls_of es) i ltac:(lia)). cbn [Z.of_nat Nat.add] in O. by rewrite Z.sub_0_r in O. }
  rewrite M1, M2, !F2, !app_nil_r. unfold body at 1 2. rewrite !said_app, S1, S2, C1, C2, !app_nil_r.
  split; [done|]. split; [done|]. split; [|split; [|exact (M4 [] _ F3)]].
  - intros i id Hi. assert (Hin : id ∈ ids_in_order (parts_told es)) by (by eapply list_elem_of_lookup_2). apply ids_known in Hin.
    destruct (parts_with id (parts_told es)) as [|[[id' name] args] rest] eqn:E; [done|].
    assert (Hid : id' = id).
    { assert (Hf : (id', name, args) ∈ parts_with id (parts_told es)) by (rewrite E; by left). by apply list_elem_of_filter in Hf as [Hf _]. }
    subst id'. exists name, rest, args. split; [done|]. rewrite Hparts, (proj2 (Z.leb_le 0 _)), Nat2Z.id by lia. unfold calls_of.
    change (map ?f ?m) with (f <$> m). rewrite list_lookup_fmap, Hi. unfold call_of, call_object, tool_arguments. cbn [fmap option_fmap option_map k_id k_name k_inputs].
    by rewrite E.
  - intros i. rewrite Hparts. destruct (Z.leb_spec 0 i); [|done]. destruct (calls_of es !! _) eqn:E; [|done]. intros _. apply lookup_lt_Some in E. unfold zlen. lia.
Qed.

(** C25. A stream that ends in the middle of a frame is closed for the client like a whole
    one. The call fails, and a request for a document gets no answer, except when the
    stream ends right behind the twelve bytes of a prelude: then the document is what
    the frames before it make. *)
Theorem cut_kiro_stream visit_args raw_text to_responses seconds nanos guarded policy c es e k :
  Forall sound_event es → sound_event e → (0 < k < length (encoded_frame e))%nat →
  let stream := stream_of es ++ take k (encoded_frame e) in
  let document stream := handleKiroNonStream responseID created out_of_range visit_args raw_text to_responses seconds nanos guarded policy c stream false in
  kr_written (handleKiroStream responseID created stream false) = kr_written (handleKiroStream responseID created (stream_of es) false) ∧
  kr_end (handleKiroStream responseID created stream false) = ReadFailed (k =? 12)%nat ∧
  document stream = if (k =? 12)%nat then document (stream_of es) else ReadError.
Proof.
  intros Hs He Hk. cbv zeta. assert (L := stream_length es Hs).
  assert (Hcut : ∀ n, read_frames (S n) (take k (encoded_frame e)) false = ([], ReadFailed (k =? 12)%nat)).
  { intros n. cbn [read_frames]. assert (Hcut : ReadFrame (take k (encoded_frame e)) false = Fail "ended mid-frame")
      by exact (read_cut (headers_of e) (marshal (JObj (payload_of e))) k (sound_fits e He) Hk).
    rewrite Hcut. unfold wraps_eof. rewrite length_take, Nat.min_l by lia. by rewrite andb_true_r. }
  assert (E1 := handled es (take k (encoded_frame e)) false (map frame_of es) (ReadFailed (k =? 12)%nat) Hs).
  rewrite length_app in E1. replace (S (length (stream_of es) + _) - length es)%nat with (S (length (stream_of es) + length (take k (encoded_frame e)) - length es)) in E1 by lia.
  specialize (E1 (Hcut _) eq_refl).
  assert (E2 := handled es [] false (map frame_of es) CleanEnd Hs). rewrite app_nil_r in E2.
  replace (S (length (stream_of es)) - length es)%nat with (S (length (stream_of es) - length es)) in E2 by lia. specialize (E2 eq_refl eq_refl).
  unfold handleKiroNonStream. rewrite E1, E2. cbn [kr_written kr_end]. split; [done|]. split; [done|]. by destruct (k =? 12)%nat.
Qed.

End Relay.

Module Sample.

#[local] Existing Instance ascii_case.
#[local] Existing Instance Checked.codec.

Definition saturated (n : Z) : Z := - 2 ^ 63.
Definition rid : bytes := B "chatcmpl-1".

(** The parts of two calls take turns. *)
Definition events : list kiro_event :=
  [Thought (B "hm"); Said (B "Hi"); Used (B "t1") (B "read") (B "{"); Used (B "t2") (B "list") (B " "); Used (B "t1") (B "read") (B "}")].

Lemma events_sound : Forall sound_event events.
Proof. repeat constructor; try done; by vm_compute. Qed.

Lemma frames_reach_witness : ∃ chunks, kr_written (handleKiroStream rid 0 (stream_of events) false) = concat (map codex_frame chunks) ++ sseDoneFrame ∧
  said "content" chunks = B "Hi" ∧
  parts_of saturated 0 chunks = [full_call 0 (B "t1") [member "name" (text "read"); member "arguments" (text "{}")]] ∧
  parts_of saturated 1 chunks = [full_call 1 (B "t2") [member "name" (text "list"); member "arguments" (text "{}")]].
Proof.
  destruct (kiro_frames_reach_client saturated rid 0 events events_sound) as (chunks & H1 & _ & H3 & _ & H5 & _); [by vm_compute|].
  exists chunks. split; [exact H1|]. split; [rewrite H3; by vm_compute|].
  destruct (H5 0%nat (B "t1")) as (n1 & r1 & a1 & E1 & P1); [reflexivity|]. vm_compute in E1. injection E1 as <- <- <-.
  destruct (H5 1%nat (B "t2")) as (n2 & r2 & a2 & E2 & P2); [reflexivity|]. vm_compute in E2. injection E2 as <- <- <-.
  split; [exact P1|exact P2].
Defined.

Definition document := handleKiroNonStream rid 0 saturated id marshal (λ _, None) 0 0 false None OpenAIClient.

(** Cut behind the prelude of its second frame, the answer is half of what was said. *)
Lemma cut_frames_witness :
  document (stream_of [Said (B "Delete ")] ++ take 12 (encoded_frame (Said (B "nothing")))) false = document (stream_of [Said (B "Delete ")]) false ∧
  document (stream_of [Said (B "Delete ")] ++ take 13 (encoded_frame (Said (B "nothing")))) false = ReadError.
Proof.
  assert (Hs : Forall sound_event [Said (B "Delete ")]) by (repeat constructor; try done; by vm_compute).
  assert (He : sound_event (Said (B "nothing"))) by (split_and!; [done|by vm_compute..]).
  assert (L := frame_length _ He). unfold document.
  destruct (cut_kiro_stream saturated rid 0 id marshal (λ _, None) 0 0 false None OpenAIClient [Said (B "Delete ")] (Said (B "nothing")) 12
    Hs He) as (_ & _ & H1); [revert L; generalize (length (encoded_frame (Said (B "nothing")))); lia|].
  destruct (cut_kiro_stream saturated rid 0 id marshal (λ _, None) 0 0 false None OpenAIClient [Said (B "Delete ")] (Said (B "nothing")) 13
    Hs He) as (_ & _ & H2); [revert L; generalize (length (encoded_frame (Said (B "nothing")))); lia|].
  split; [exact H1|exact H2].
Defined.

(** The parts of a call without an id become calls of their own. *)
Definition part (input : string) : EventStreamFrame :=
  MkFrame {[ ":event-type"%string := B "toolUseEvent" ]} (marshal (JObj [member "name" (text "read"); member "input" (text input)])).
Example parts_without_id_fall_apart :
  map (λ c, (k_id c, k_inputs c)) (tools (on_frames rid 7 [part "{"; part "}"] fresh_kiro).1) = [(B "call_7_1", B "{"); (B "call_7_2", B "}")].
Proof. by vm_compute. Qed.

(** An exception of the upstream ends a turn like an answer. *)
Example exceptions_are_ignored payload :
  on_frame rid 0 (MkFrame (<[":message-type"%string := B "exception"]> {[ ":exception-type"%string := B "ThrottlingException" ]}) payload) fresh_kiro = (fresh_kiro, []).
Proof. by vm_compute. Qed.

End Sample.
