(* ===== verification/GeminiStores.v ===== *)
(** * What the gateway remembers of tool calls it gave to Gemini clients
    ([internal/translator/tool_name_store.go], [thought_signature_store.go])

    Two process-wide tables keyed by the id of a call: the name of its tool, and
    the thought signature to send back. Entries live for an hour and at most 2000
    are kept, the oldest going first. The order list of the first is its keys; the
    order list of the second grows without bound. *)

From stdpp Require Import gmap.
From S2P Require Import Prelude GoRegexp GoText ErrorClassify.

Definition maxMemorySignatures : nat := 2000.
Definition memoryTTL : Z := 3600 * 1000000000.

(** ** Keys *)

(** [strings.LastIndex]. *)
Fixpoint last_index (p s : bytes) : option nat :=
  match s with
  | [] => if has_prefix p s then Some 0%nat else None
  | _ :: t => match last_index p t with Some i => Some (S i) | None => if has_prefix p s then Some 0%nat else None end
  end.

Definition geminiCleanToolCallID (id : bytes) : bytes := match last_index (B "__ts__") id with Some i => take i id | None => id end.

Definition toolCallStoreKeys (toolCallID sessionID : bytes) : list bytes :=
  let cleanID := geminiCleanToolCallID toolCallID in
  let other := negb (bool_decide (cleanID = toolCallID)) in
  let scoped (id : bytes) := sessionID ++ B ":" ++ id in
  [toolCallID] ++ (if other then [cleanID] else []) ++
  (if nonempty sessionID then [scoped toolCallID] ++ (if other then [scoped cleanID] else []) else []).

(** ** Tables *)

(** Entries with their expiry, and the keys in the order they were added. *)
Record table (V : Type) := { entries : gmap bytes (V * Z); order : list bytes }.
Arguments entries {V} _.
Arguments order {V} _.

Definition empty_table {V} : table V := {| entries := ∅; order := [] |}.

Definition live {V} (now : Z) (m : gmap bytes (V * Z)) : gmap bytes (V * Z) := filter (λ kv, now <= kv.2.2) m.

(** The oldest keys go until the list has room. *)
Fixpoint evict {V} (newOrder : list bytes) (m : gmap bytes (V * Z)) : table V :=
  match newOrder with
  | oldest :: rest => if bool_decide (maxMemorySignatures < length newOrder)%nat then evict rest (delete oldest m) else {| entries := m; order := newOrder |}
  | [] => {| entries := m; order := [] |}
  end.

Definition rebuild {V} (m : gmap bytes (V * Z)) (keys : list bytes) : table V := evict (filter (λ k, k ∈ dom m) keys) m.

(** [pruneLocked] of the names: the list is rebuilt when something expired. *)
Definition pruneLocked {V} (now : Z) (s : table V) : table V :=
  let m := live now (entries s) in
  let pruned := negb (bool_decide (size m = size (entries s))) in
  if negb pruned && bool_decide (size m <= maxMemorySignatures)%nat then {| entries := m; order := order s |} else rebuild m (order s).

(** [pruneExpiredLocked] of the signatures: only when the table is full. *)
Definition pruneExpiredLocked {V} (now : Z) (s : table V) : table V :=
  let m := live now (entries s) in
  if bool_decide (maxMemorySignatures < size m)%nat then rebuild m (order s) else {| entries := m; order := order s |}.

Definition put {V} (v : V * Z) (s : table V) (k : bytes) : table V :=
  {| entries := <[k := v]> (entries s); order := match entries s !! k with Some _ => order s | None => order s ++ [k] end |}.

(** The first key with an entry that has not expired and is accepted. *)
Definition find {V} (now : Z) (accept : V → bool) (keys : list bytes) (s : table V) : option V :=
  head (omap (λ k, match entries s !! k with Some (v, exp) => if (now <? exp) && accept v then Some v else None | None => None end) keys).

(** *** Names *)

Definition StoreGeminiToolCallName (now : Z) (toolCallID name sessionID : bytes) (s : table bytes) : table bytes :=
  if nonempty toolCallID && nonempty name
  then foldl (put (name, now + memoryTTL)) (pruneLocked now s) (toolCallStoreKeys toolCallID sessionID)
  else s.

Definition GetGeminiToolCallName (now : Z) (toolCallID sessionID : bytes) (s : table bytes) : bytes :=
  if nonempty toolCallID then default [] (find now (λ _, true) (toolCallStoreKeys toolCallID sessionID) s) else [].

(** *** Signatures *)

Section Signatures.
Context `{UnicodeCase}.

Definition SignatureFamily (model : bytes) : bytes :=
  let m := to_lower (trim_space model) in
  if bool_decide (m = []) then [] else if contains (B "claude") m then B "claude" else if contains (B "gemini") m then B "gemini" else m.

Definition isFamilyCompatible (entryFamily targetFamily : bytes) : bool :=
  bool_decide (entryFamily = []) || bool_decide (targetFamily = []) || bool_decide (entryFamily = targetFamily).

Definition StoreGeminiThoughtSignature (now : Z) (toolCallID signature sessionID model : bytes) (s : table (bytes * bytes)) : table (bytes * bytes) :=
  if nonempty toolCallID && nonempty signature
  then foldl (put ((signature, SignatureFamily model), now + memoryTTL)) (pruneExpiredLocked now s) (toolCallStoreKeys toolCallID sessionID)
  else s.

(** The keys of the session first. *)
Definition lookup_keys (toolCallID sessionID : bytes) : list bytes :=
  let cleanID := geminiCleanToolCallID toolCallID in
  let other := negb (bool_decide (cleanID = toolCallID)) in
  let scoped (id : bytes) := sessionID ++ B ":" ++ id in
  (if nonempty sessionID then [scoped toolCallID] ++ (if other then [scoped cleanID] else []) else []) ++
  [toolCallID] ++ (if other then [cleanID] else []).

Definition GetGeminiThoughtSignature (now : Z) (toolCallID sessionID model : bytes) (s : table (bytes * bytes)) : bytes :=
  if nonempty toolCallID
  then default [] (fst <$> find now (λ v, isFamilyCompatible v.2 (SignatureFamily model)) (lookup_keys toolCallID sessionID) s)
  else [].

End Signatures.

(** ** The order list of the names *)

(** The list is the keys of the table, each once. *)
Record tidy {V} (s : table V) : Prop := {
  order_nodup : NoDup (order s);
  order_keys : ∀ k, k ∈ order s ↔ k ∈ dom (entries s)
}.

Lemma tidy_size {V} (s : table V) : tidy s → length (order s) = size (entries s).
Proof.
  intros [Hd Hk]. rewrite <- size_dom. rewrite <- (size_list_to_set (C := gset bytes)) by done. f_equal. apply set_eq.
  intros k. rewrite elem_of_list_to_set. apply Hk.
Qed.

Lemma put_tidy {V} (v : V * Z) s k : tidy s → tidy (put v s k) ∧ (length (order (put v s k)) <= S (length (order s)))%nat.
Proof.
  intros [Hd Hk]. unfold put. destruct (entries s !! k) as [old|] eqn:E; (split; [split|]); cbn [entries order].
  - done.
  - intros k'. rewrite dom_insert, elem_of_union, elem_of_singleton, Hk. assert (k ∈ dom (entries s)) by by eapply elem_of_dom_2. naive_solver.
  - lia.
  - apply NoDup_app. split; [done|]. split; [|apply NoDup_singleton]. intros k' Hk' ->%list_elem_of_singleton.
    apply Hk, elem_of_dom in Hk' as [? Hx]. congruence.
  - intros k'. rewrite dom_insert, elem_of_union, elem_of_app, elem_of_singleton, list_elem_of_singleton, Hk. naive_solver.
  - rewrite length_app. cbn [length]. lia.
Qed.

Lemma puts_tidy {V} (v : V * Z) keys s : tidy s →
  tidy (foldl (put v) s keys) ∧ (length (order (foldl (put v) s keys)) <= length (order s) + length keys)%nat.
Proof.
  revert s. induction keys as [|k keys IH]; intros s Hs; cbn [foldl length]; [split; [done|lia]|].
  destruct (put_tidy v s k Hs) as [H1 H2]. destruct (IH _ H1) as [H3 H4]. split; [done|lia].
Qed.

Lemma evict_tidy {V} (keys : list bytes) (m : gmap bytes (V * Z)) : NoDup keys → (∀ k, k ∈ keys ↔ k ∈ dom m) →
  tidy (evict keys m) ∧ (length (order (evict keys m)) <= maxMemorySignatures)%nat.
Proof.
  revert m. induction keys as [|k keys IH]; intros m Hd Hk; cbn [evict].
  - split; [by split|cbn; lia].
  - case_bool_decide as Hl; [|split; [by split|cbn [order]; lia]]. apply NoDup_cons in Hd as [Hn Hd]. apply IH; [done|].
    intros k'. rewrite dom_delete, elem_of_difference, elem_of_singleton, <- Hk, elem_of_cons. naive_solver.
Qed.

Lemma live_dom {V} (now : Z) (m : gmap bytes (V * Z)) : dom (live now m) ⊆ dom m.
Proof. apply dom_filter_subseteq. Qed.

Lemma live_same {V} (now : Z) (m : gmap bytes (V * Z)) : size (live now m) = size m → live now m = m.
Proof.
  intros Hs. unfold live in *. apply map_filter_id. intros k [v e] Hk. destruct (decide (now <= e)) as [|Hn]; [done|]. exfalso.
  assert (Hsub : dom (filter (λ kv : bytes * (V * Z), now <= kv.2.2) m) ⊆ dom m ∖ {[k]}).
  { intros k' [x [Hx Hx2]%map_lookup_filter_Some]%elem_of_dom. apply elem_of_difference. split; [by eapply elem_of_dom_2|].
    intros ->%elem_of_singleton. cbn in Hx2. rewrite Hk in Hx. injection Hx as <-. cbn in Hx2. lia. }
  apply subseteq_size in Hsub. rewrite size_difference in Hsub by (apply singleton_subseteq_l; by eapply elem_of_dom_2).
  rewrite size_singleton, !size_dom in Hsub. assert (size m ≠ 0%nat) by (apply map_size_ne_0_lookup; by eexists _, _). lia.
Qed.

Lemma prune_tidy {V} now (s : table V) : tidy s → tidy (pruneLocked now s) ∧ (length (order (pruneLocked now s)) <= maxMemorySignatures)%nat.
Proof.
  intros Hs. unfold pruneLocked. case_bool_decide as Hp; cbn [negb andb].
  - case_bool_decide as Hl.
    + apply live_same in Hp. rewrite Hp. assert (T := tidy_size s Hs). rewrite Hp in Hl. split; [by destruct s|cbn [order]; lia].
    + rewrite (live_same _ _ Hp). destruct Hs as [Hd Hk]. apply evict_tidy; [by apply NoDup_filter|].
      intros k. rewrite list_elem_of_filter, Hk. naive_solver.
  - destruct Hs as [Hd Hk]. apply evict_tidy; [by apply NoDup_filter|].
    intros k. rewrite list_elem_of_filter, Hk. assert (L := live_dom now (entries s)). set_solver.
Qed.

(** ** What the stores promise *)

Inductive name_op := StoreName (now : Z) (toolCallID name sessionID : bytes) | ClearNames.

Definition name_step (s : table bytes) (o : name_op) : table bytes :=
  match o with
  | StoreName now id name session => StoreGeminiToolCallName now id name session s
  | ClearNames => empty_table
  end.

Lemma keys_count id session : (1 <= length (toolCallStoreKeys id session) <= 4)%nat.
Proof. unfold toolCallStoreKeys. cbv zeta. repeat case_match; cbn; lia. Qed.

Lemma store_name_tidy now id name session s : tidy s → (length (order s) <= maxMemorySignatures + 4)%nat →
  let s' := StoreGeminiToolCallName now id name session s in tidy s' ∧ (length (order s') <= maxMemorySignatures + 4)%nat.
Proof.
  intros Hs Hl. unfold StoreGeminiToolCallName. destruct (_ && _); [|done]. destruct (prune_tidy now s Hs) as [H1 H2].
  destruct (puts_tidy (name, now + memoryTTL) (toolCallStoreKeys id session) _ H1) as [H3 H4]. assert (K := keys_count id session).
  split; [done|]. lia.
Qed.

Lemma names_tidy ops : let s := foldl name_step empty_table ops in tidy s ∧ (length (order s) <= maxMemorySignatures + 4)%nat.
Proof.
  cbv zeta. assert (Hg : ∀ s, tidy s → (length (order s) <= maxMemorySignatures + 4)%nat →
    tidy (foldl name_step s ops) ∧ (length (order (foldl name_step s ops)) <= maxMemorySignatures + 4)%nat).
  { induction ops as [|o ops IH]; intros s Hs Hl; [done|]. cbn [foldl]. destruct o as [now id name session|]; cbn [name_step].
    - destruct (store_name_tidy now id name session s Hs Hl). by apply IH.
    - apply IH; [split; [constructor|set_solver]|cbn; lia]. }
  apply Hg; [split; [constructor|set_solver]|cbn; lia].
Qed.

Lemma puts_found {V} (v : V * Z) keys s k : k ∈ keys → entries (foldl (put v) s keys) !! k = Some v.
Proof.
  induction keys as [|k' keys IH] using rev_ind; [set_solver|]. rewrite foldl_app. cbn [foldl put entries]. intros Hin.
  destruct (decide (k = k')) as [->|Hne]; [apply lookup_insert_eq|]. rewrite lookup_insert_ne by done. apply IH. set_solver.
Qed.

Lemma first_found {V} (v : V) exp now accept keys s : keys ≠ [] → (∀ k, k ∈ keys → entries s !! k = Some (v, exp)) → now < exp → accept v = true →
  find now accept keys s = Some v.
Proof.
  destruct keys as [|k keys]; [done|]. intros _ Hk Hn Ha. unfold find. cbn [omap list_omap]. rewrite Hk by by left.
  by rewrite (proj2 (Z.ltb_lt now exp)), Ha.
Qed.

(** C28. The table of tool names is bounded and its list is exact: whatever was stored and
    cleared, and whatever expired meanwhile, the list has each key of the table once
    and nothing else, at most 2004 of them; a name that was just stored is found for
    an hour under its id, with and without the suffix of the signature. *)
Theorem name_table_is_exact ops (s := foldl name_step empty_table ops) :
  NoDup (order s) ∧ (∀ k, k ∈ order s ↔ k ∈ dom (entries s)) ∧ length (order s) = size (entries s) ∧ (size (entries s) <= 2004)%nat ∧
  ∀ now now' id name session, id ≠ [] → name ≠ [] → now' < now + memoryTTL →
    GetGeminiToolCallName now' id session (StoreGeminiToolCallName now id name session s) = name.
Proof.
  destruct (names_tidy ops) as [Ht Hl]. fold s in Ht, Hl. assert (Hs := tidy_size s Ht). rewrite Hs in Hl. destruct Ht as [Hd Hk].
  split; [done|]. split; [done|]. split; [done|]. split; [exact Hl|]. intros now now' id name session Hid Hname Hn.
  unfold GetGeminiToolCallName, StoreGeminiToolCallName. rewrite !nonempty_true by done. cbn [andb].
  assert (K := keys_count id session). rewrite (first_found name (now + memoryTTL)); [done| |by intros; apply puts_found|done|done].
  destruct (toolCallStoreKeys id session); [cbn in K; lia|done].
Qed.

Section Growth.
Context `{UnicodeCase}.

(** The same call, stored again as soon as it has expired. *)
Definition again (id sig : bytes) (n : nat) : table (bytes * bytes) :=
  foldl (λ s i, StoreGeminiThoughtSignature (Z.of_nat i * (memoryTTL + 1)) id sig [] [] s) empty_table (seq 0 n).

Lemma again_state id sig n : id ≠ [] → sig ≠ [] → geminiCleanToolCallID id = id →
  order (again id sig n) = replicate n id ∧
  (n = 0%nat ∧ entries (again id sig n) = ∅ ∨
   n ≠ 0%nat ∧ entries (again id sig n) = {[ id := ((sig, SignatureFamily []), Z.of_nat (n - 1) * (memoryTTL + 1) + memoryTTL) ]}).
Proof.
  intros Hid Hsig Hclean. induction n as [|n [Ho He]]; [split; [done|by left]|].
  unfold again in *. rewrite seq_S, foldl_app. cbn [foldl]. set (s := foldl _ _ (seq 0 n)) in *.
  set (now := Z.of_nat (0 + n) * (memoryTTL + 1)).
  assert (Hp : pruneExpiredLocked now s = {| entries := ∅; order := replicate n id |}).
  { unfold pruneExpiredLocked. assert (Hm : live now (entries s) = ∅).
    { destruct He as [[_ ->] | [Hn ->]]; [done|]. unfold live. apply map_filter_singleton_False. cbn [snd].
      unfold now. replace (Z.of_nat (0 + n)) with (Z.of_nat (n - 1) + 1) by lia. lia. }
    rewrite Hm, Ho. by rewrite bool_decide_eq_false_2 by (rewrite map_size_empty; unfold maxMemorySignatures; lia). }
  unfold StoreGeminiThoughtSignature. rewrite !nonempty_true, Hp by done. cbn [andb].
  assert (Hk : toolCallStoreKeys id [] = [id]) by (unfold toolCallStoreKeys; by rewrite Hclean, bool_decide_eq_true_2).
  rewrite Hk. cbn [foldl put entries order]. rewrite lookup_empty. split; [by rewrite replicate_S_end|]. right. split; [done|].
  rewrite insert_empty. by replace (S n - 1)%nat with (0 + n)%nat by lia.
Qed.

(** The list of the signatures grows without bound: a call that is stored again each
    time it has expired leaves one entry in the table and as many keys in the list as
    it was stored. *)
Theorem signature_list_grows id sig n : id ≠ [] → sig ≠ [] → geminiCleanToolCallID id = id →
  length (order (again id sig n)) = n ∧ (size (entries (again id sig n)) <= 1)%nat.
Proof.
  intros Hid Hsig Hclean. destruct (again_state id sig n Hid Hsig Hclean) as [-> He]. split; [apply length_replicate|].
  destruct He as [[_ ->] | [_ ->]]; [by rewrite map_size_empty; lia|by rewrite map_size_singleton].
Qed.

End Growth.

Lemma signature_list_witness : length (order (again (H := ascii_case) (B "call_1") (B "sig") 50)) = 50%nat ∧
  (size (entries (again (H := ascii_case) (B "call_1") (B "sig") 50)) <= 1)%nat.
Proof. apply signature_list_grows; by vm_compute. Defined.

Example suffixes_are_cleaned :
  toolCallStoreKeys (B "c1__ts__xyz") (B "s") = [B "c1__ts__xyz"; B "c1"; B "s:c1__ts__xyz"; B "s:c1"] ∧
  geminiCleanToolCallID (B "a__ts__b__ts__c") = B "a__ts__b" ∧ geminiCleanToolCallID (B "c1") = B "c1".
Proof. by vm_compute. Qed.
