(* ===== verification/GeminiStream.v ===== *)
(** * Gemini answers in the format of Chat Completions
    ([internal/translator/gemini.go], the way back)

    A whole answer, and the chunks of a stream over a state; both remember the
    calls they hand out in [GeminiStores]. Every object made from one part of a
    chunk takes one reading of the clock. What a stream and a whole answer of the
    same parts say, and where they part. *)

From stdpp Require Import gmap.
From S2P Require Import Prelude GoRegexp Json GoText ErrorClassify SseCopy Capabilities ClaudeBody ToolArgs Usage ClaudeStream ClaudeAnswer AnswerFold GeminiStores.

(** ** Decoding *)

Record gemini_call := { g_name : bytes; g_args : object; g_id : bytes }.
Record gemini_part := { g_text : bytes; g_thought : option bool; g_sig : bytes; g_call : option gemini_call }.
Record gemini_candidate := { g_content : option (list gemini_part); g_finish : bytes }.
Record gemini_usage := { PromptTokenCount : Z; CandidatesTokenCount : Z; CachedContentTokenCount : Z; CachedContentToken : Z; ReasoningTokens : Z }.
Record gemini_chunk := { g_candidates : list gemini_candidate; g_usage : option gemini_usage }.

Definition decode_call (m : object) : option gemini_call :=
  name ← str_field (B "name") m; args ← obj_field (B "args") m; id ← str_field (B "id") m;
  Some {| g_name := name; g_args := args; g_id := id |}.

(** Members of a part that only requests use are decoded for their types. *)
Definition two_texts (k1 k2 : string) (m : object) : option unit := _ ← str_field (B k1) m; _ ← str_field (B k2) m; Some tt.
Definition decode_response (m : object) : option unit := _ ← two_texts "name" "id" m; _ ← obj_field (B "response") m; Some tt.

Definition decode_part (m : object) : option gemini_part :=
  t ← str_field (B "text") m;
  thought ← match obj_get (B "thought") m with JNull => Some None | JBool b => Some (Some b) | _ => None end;
  sig ← str_field (B "thoughtSignature") m; snake ← str_field (B "thought_signature") m;
  call ← ptr_field decode_call (B "functionCall") m;
  _ ← ptr_field decode_response (B "functionResponse") m;
  _ ← ptr_field (two_texts "mimeType" "data") (B "inlineData") m;
  _ ← ptr_field (two_texts "fileUri" "mimeType") (B "fileData") m;
  Some {| g_text := t; g_thought := thought; g_sig := if nonempty sig then sig else snake; g_call := call |}.

Definition decode_content (m : object) : option (list gemini_part) :=
  _ ← str_field (B "role") m; unmarshal_slice decode_part (Some (obj_get (B "parts") m)).

Definition decode_candidate (indexed : bool) (m : object) : option gemini_candidate :=
  content ← ptr_field decode_content (B "content") m; finish ← str_field (B "finishReason") m;
  _ ← (if indexed then int_field (B "index") m else Some 0);
  Some {| g_content := content; g_finish := finish |}.

Definition decode_usage (detailed : bool) (m : object) : option gemini_usage :=
  p ← int_field (B "promptTokenCount") m; c ← int_field (B "candidatesTokenCount") m;
  cached ← int_field (B "cachedContentTokenCount") m; cached2 ← int_field (B "cachedContentToken") m;
  r ← (if detailed then option_map (default 0) (ptr_field (int_field (B "reasoningTokens")) (B "candidatesTokenDetails") m) else Some 0);
  Some {| PromptTokenCount := p; CandidatesTokenCount := c; CachedContentTokenCount := cached; CachedContentToken := cached2; ReasoningTokens := r |}.

(** [GeminiStreamChunk], and [GeminiResponse] without the index. *)
Definition decode_chunk (stream : bool) (m : object) : option gemini_chunk :=
  cs ← unmarshal_slice (decode_candidate stream) (Some (obj_get (B "candidates") m));
  u ← ptr_field (decode_usage (negb stream)) (B "usageMetadata") m;
  Some {| g_candidates := cs; g_usage := u |}.

Definition cached_tokens (u : gemini_usage) : Z := if CachedContentTokenCount u =? 0 then CachedContentToken u else CachedContentTokenCount u.

(** ** Names, ids and reasons *)

Definition drop_suffix (p s : bytes) : bytes := if has_suffix p s then take (length s - length p) s else s.
Definition drop_prefix (p s : bytes) : bytes := if has_prefix p s then drop (length p) s else s.

(** [UncloakToolName] without a map. *)
Definition UncloakToolName (name : bytes) : bytes := drop_suffix (B "_ide") (drop_prefix (B "proxy_") name).

Definition geminiToolCallID (geminiID name : bytes) (nanos index : Z) : bytes :=
  if nonempty geminiID then geminiID else B "call_" ++ name ++ B "_" ++ itoa nanos ++ B "_" ++ itoa index.

Definition signed (id sig : bytes) : bytes := if nonempty sig then id ++ B "__ts__" ++ sig else id.

Definition is_visible (p : gemini_part) : bool := nonempty (g_text p) && negb (default false (g_thought p)).
Definition is_thought (p : gemini_part) : bool := nonempty (g_text p) && default false (g_thought p).

Section Translate.
Context `{JsonCodec} `{UnicodeCase} `{UnicodeUpper}.

Definition geminiFinishToOpenAI (reason : bytes) : string :=
  let r := to_upper reason in
  if bool_decide (r = B "MAX_TOKENS") then "length"
  else if is_one r ["SAFETY"; "RECITATION"; "BLOCKLIST"; "PROHIBITED_CONTENT"]%string then "content_filter"
  else "stop".

Definition function_object (c : gemini_call) : object :=
  [member "name" (JStr (UncloakToolName (g_name c))); member "arguments" (JStr (marshal (JObj (g_args c))))].

(** ** A whole answer *)

Record answer_state := { a_content : bytes; a_reasoning : bytes; a_calls : list (bytes * object); a_last : bytes; a_names : table bytes }.

Definition no_answer (names : table bytes) : answer_state := {| a_content := []; a_reasoning := []; a_calls := []; a_last := []; a_names := names |}.

Definition take_part (nanos : Z) (s : answer_state) (p : gemini_part) : answer_state :=
  let last := if nonempty (g_sig p) then g_sig p else a_last s in
  let content := a_content s ++ if is_visible p then g_text p else [] in
  let reasoning := a_reasoning s ++ if is_thought p then g_text p else [] in
  match g_call p with
  | Some c =>
      let fnName := UncloakToolName (g_name c) in
      let id := geminiToolCallID (g_id c) fnName nanos (zlen (a_calls s)) in
      {| a_content := content; a_reasoning := reasoning; a_last := last;
         a_calls := a_calls s ++ [(signed id (if nonempty (g_sig p) then g_sig p else last), function_object c)];
         a_names := StoreGeminiToolCallName nanos id fnName [] (a_names s) |}
  | None => {| a_content := content; a_reasoning := reasoning; a_calls := a_calls s; a_last := last; a_names := a_names s |}
  end.

(** [at i] is the reading of the clock at part [i]. *)
Fixpoint take_parts (at_ : nat → Z) (i : nat) (ps : list gemini_part) (s : answer_state) : answer_state :=
  match ps with [] => s | p :: ps => take_parts at_ (S i) ps (take_part (at_ i) s p) end.

Definition call_object (c : bytes * object) : json :=
  JObj [member "id" (JStr c.1); member "type" (text "function"); member "function" (JObj c.2)].

Definition answer_reason (calls : list (bytes * object)) (reason : bytes) : string :=
  match calls with [] => geminiFinishToOpenAI reason | _ => "tool_calls" end.

Definition answer_object (id seconds : Z) (s : answer_state) (reason : bytes) (u : option gemini_usage) : object :=
  let count (f : gemini_usage → Z) := match u with Some u => f u | None => 0 end in
  [member "id" (JStr (B "chatcmpl-" ++ itoa id)); member "object" (text "chat.completion"); member "created" (jint seconds); member "model" (text "gemini");
   member "choices" (JArr [JObj [member "index" (jint 0);
     member "message" (JObj ([member "role" (text "assistant"); member "content" (JStr (a_content s))] ++
       (if nonempty (a_reasoning s) then [member "reasoning_content" (JStr (a_reasoning s))] else []) ++
       match a_calls s with [] => [] | l => [member "tool_calls" (JArr (map call_object l))] end));
     member "finish_reason" (text (answer_reason (a_calls s) reason))]]);
   member "usage" (JObj [member "prompt_tokens" (jint (count PromptTokenCount)); member "completion_tokens" (jint (count CandidatesTokenCount));
     member "cached_tokens" (jint (count cached_tokens)); member "completion_tokens_details" (JObj [member "reasoning_tokens" (jint (count ReasoningTokens))])])].

Definition answer_usage (u : option gemini_usage) : OpenAIUsage :=
  let count (f : gemini_usage → Z) := match u with Some u => f u | None => 0 end in
  {| PromptTokens := count PromptTokenCount; CompletionTokens := count CandidatesTokenCount; CachedTokens := count cached_tokens;
     CacheCreationInputTokens := 0; PromptTokensDetails := None; CompletionTokensDetails := Some (count ReasoningTokens); PromptCacheIncluded := false |}.

Inductive gemini_error := NotGemini | NoCandidates.

Definition read_chunk (stream : bool) (body : bytes) : option gemini_chunk := j ← unmarshal body; m ← as_struct j; decode_chunk stream m.

(** [end_] is the reading behind the parts. *)
Definition TranslateGeminiResponseToOpenAI (at_ : nat → Z) (end_ : Z) (body : bytes) (names : table bytes)
    : gemini_error + bytes * OpenAIUsage * table bytes :=
  match read_chunk false body with
  | None => inl NotGemini
  | Some r =>
      match g_candidates r with
      | [] => inl NoCandidates
      | c :: _ =>
          let s := take_parts at_ 0 (default [] (g_content c)) (no_answer names) in
          inr (marshal (JObj (answer_object end_ (end_ / 1000000000) s (g_finish c) (g_usage r))), answer_usage (g_usage r), a_names s)
      end
  end.

(** ** The chunks of a stream *)

Record GeminiStreamState := {
  MessageStartSent : bool; MessageId : bytes; Model : bytes;
  StreamUsage : option OpenAIUsage;
  LastThoughtSignature : bytes;
  ToolCallCount : Z
}.
Definition fresh_gemini : GeminiStreamState :=
  {| MessageStartSent := false; MessageId := []; Model := []; StreamUsage := None; LastThoughtSignature := []; ToolCallCount := 0 |}.

(** The names and the signatures. *)
Record stores := { s_names : table bytes; s_sigs : table (bytes * bytes) }.

Definition chunk_head (s : GeminiStreamState) (seconds : Z) : object :=
  [member "id" (JStr (MessageId s)); member "object" (text "chat.completion.chunk"); member "created" (jint seconds); member "model" (JStr (Model s))].
Definition delta_object (s : GeminiStreamState) (seconds : Z) (delta : object) (reason : json) : object :=
  chunk_head s seconds ++ [member "choices" (JArr [JObj [member "index" (jint 0); member "delta" (JObj delta); member "finish_reason" reason]])].

Definition set_stream (last : bytes) (count : Z) (s : GeminiStreamState) : GeminiStreamState :=
  {| MessageStartSent := MessageStartSent s; MessageId := MessageId s; Model := Model s; StreamUsage := StreamUsage s; LastThoughtSignature := last; ToolCallCount := count |}.
Definition set_usage (u : option OpenAIUsage) (s : GeminiStreamState) : GeminiStreamState :=
  {| MessageStartSent := MessageStartSent s; MessageId := MessageId s; Model := Model s; StreamUsage := u;
     LastThoughtSignature := LastThoughtSignature s; ToolCallCount := ToolCallCount s |}.
(** The id and the model, and that the first chunk is out. *)
Definition begin_stream (nanos : Z) (s : GeminiStreamState) : GeminiStreamState :=
  {| MessageStartSent := true; MessageId := if nonempty (MessageId s) then MessageId s else B "chatcmpl-" ++ itoa nanos;
     Model := if nonempty (Model s) then Model s else B "gemini"; StreamUsage := StreamUsage s;
     LastThoughtSignature := LastThoughtSignature s; ToolCallCount := ToolCallCount s |}.

Definition stream_call (index : Z) (id : bytes) (c : gemini_call) : object :=
  [member "index" (jint index); member "id" (JStr id); member "type" (text "function"); member "function" (JObj (function_object c))].

Definition stream_part (nanos : Z) (s : GeminiStreamState) (st : stores) (p : gemini_part) : GeminiStreamState * stores * list object :=
  let last := if nonempty (g_sig p) then g_sig p else LastThoughtSignature s in
  let texts := (if is_visible p then [member "content" (JStr (g_text p))] else []) ++ (if is_thought p then [member "reasoning_content" (JStr (g_text p))] else []) in
  let emit (s : GeminiStreamState) (delta : object) := match delta with [] => [] | _ => [delta_object s (nanos / 1000000000) delta JNull] end in
  match g_call p with
  | Some c =>
      let fnName := UncloakToolName (g_name c) in
      let id := geminiToolCallID (g_id c) fnName nanos (ToolCallCount s) in
      let sig := if nonempty (g_sig p) then g_sig p else last in
      let names := StoreGeminiToolCallName nanos id fnName (MessageId s) (s_names st) in
      let sigs := if nonempty sig then StoreGeminiThoughtSignature nanos id sig (MessageId s) (Model s) (s_sigs st) else s_sigs st in
      let s' := set_stream last (ToolCallCount s + 1) s in
      (s', {| s_names := names; s_sigs := sigs |},
       emit s' (texts ++ [member "tool_calls" (JArr [JObj (stream_call (ToolCallCount s) (signed id sig) c)])]))
  | None => let s' := set_stream last (ToolCallCount s) s in (s', st, emit s' texts)
  end.

Fixpoint stream_parts (at_ : nat → Z) (i : nat) (ps : list gemini_part) (s : GeminiStreamState) (st : stores) : GeminiStreamState * stores * list object :=
  match ps with
  | [] => (s, st, [])
  | p :: ps => let '(s, st, os) := stream_part (at_ i) s st p in let '(s, st, more) := stream_parts at_ (S i) ps s st in (s, st, os ++ more)
  end.

Definition stream_counts (u : option gemini_usage) : OpenAIUsage :=
  let count (f : gemini_usage → Z) := match u with Some u => f u | None => 0 end in
  {| PromptTokens := count PromptTokenCount; CompletionTokens := count CandidatesTokenCount; CachedTokens := count cached_tokens;
     CacheCreationInputTokens := 0; PromptTokensDetails := None; CompletionTokensDetails := None; PromptCacheIncluded := false |}.

Definition usage_member (u : OpenAIUsage) : bytes * json :=
  member "usage" (JObj [member "prompt_tokens" (jint (PromptTokens u)); member "completion_tokens" (jint (CompletionTokens u));
    member "cached_tokens" (jint (CachedTokens u)); member "total_tokens" (jint (PromptTokens u + CompletionTokens u))]).

Definition stream_reason (s : GeminiStreamState) (reason : bytes) : string :=
  let r := geminiFinishToOpenAI reason in
  if (0 <? ToolCallCount s) && String.eqb r "stop" then "tool_calls" else r.

(** The objects of a chunk; [at_ 0] is read for the first one, [at_ (S i)] for part [i]. *)
Definition stream_chunk (at_ : nat → Z) (end_ : Z) (c : gemini_chunk) (s : GeminiStreamState) (st : stores) : GeminiStreamState * stores * list object :=
  match g_candidates c, g_usage c with
  | [], None => (s, st, [])
  | cs, u =>
      let first := if MessageStartSent s then [] else [delta_object (begin_stream (at_ 0%nat) s) (at_ 0%nat / 1000000000) [member "role" (text "assistant")] JNull] in
      let s := begin_stream (at_ 0%nat) s in
      let seconds := end_ / 1000000000 in
      let counts := stream_counts u in
      match cs with
      | candidate :: _ =>
          let '(s, st, os) := stream_parts at_ 1 (default [] (g_content candidate)) s st in
          let finish := if nonempty (g_finish candidate)
                        then [delta_object s seconds [] (text (stream_reason s (g_finish candidate))) ++ [usage_member counts]] else [] in
          let s := match u with Some _ => set_usage (Some counts) s
                              | None => if nonempty (g_finish candidate) then set_usage (Some counts) s else s end in
          (s, st, first ++ os ++ finish)
      | [] => (set_usage (Some counts) s, st, first ++ [chunk_head s seconds ++ [member "choices" (JArr []); usage_member counts]])
      end
  end.

(** The text that is written for a chunk; nothing when it has no objects. *)
Definition TranslateGeminiChunkToOpenAI (at_ : nat → Z) (end_ : Z) (chunk : bytes) (s : GeminiStreamState) (st : stores)
    : option (GeminiStreamState * stores * bytes) :=
  if bool_decide (trim_space chunk = []) then Some (s, st, [])
  else match read_chunk true chunk with
       | None => None
       | Some c => let '(s, st, os) := stream_chunk at_ end_ c s st in Some (s, st, concat (map (λ o, frame (marshal (JObj o))) os))
       end.

(** ** The handlers, for a client of Chat Completions *)

Variable raw_text : json → bytes.

(** The body in the envelope of the other API, or the body as it is. *)
Definition UnwrapAntigravityResponse (raw : bytes) : bytes :=
  match j ← unmarshal raw; m ← as_struct j; raw_field "response" m with Some v => raw_text v | None => raw end.

(** The events of the scanner; one that cannot be read is left out. [readings] has the
    clock of each event. *)
Fixpoint relay_events (readings : nat → (nat → Z) * Z) (i : nat) (events : list bytes) (s : GeminiStreamState) (st : stores)
    : GeminiStreamState * stores * bytes :=
  match events with
  | [] => (s, st, [])
  | event :: events =>
      let '(s, st, written) :=
        if bool_decide (trim_space event = []) || bool_decide (trim_space event = done_mark) then (s, st, [])
        else default (s, st, []) (TranslateGeminiChunkToOpenAI (readings i).1 (readings i).2 (UnwrapAntigravityResponse event) s st) in
      let '(s, st, more) := relay_events readings (S i) events s st in
      (s, st, written ++ more)
  end.

(** What is written, the counts recorded, and whether the call failed. *)
Definition handleGeminiStream (readings : nat → (nat → Z) * Z) (events : list bytes) (scan_failed : bool) (st : stores)
    : stores * bytes * option OpenAIUsage * bool :=
  let '(s, st, written) := relay_events readings 0 events fresh_gemini st in (st, written ++ sseDoneFrame, StreamUsage s, scan_failed).

(** A body that is no answer is sent as it is; always with status 200. *)
Definition handleGeminiNonStream (at_ : nat → Z) (end_ : Z) (body : bytes) (st : stores) : stores * bytes * option OpenAIUsage :=
  match TranslateGeminiResponseToOpenAI at_ end_ body (s_names st) with
  | inl _ => (st, body, None)
  | inr (answer, u, names) => ({| s_names := names; s_sigs := s_sigs st |}, answer, Some u)
  end.

End Translate.

(** ** What a stream says and what a whole answer says *)

Section Compare.
Context `{HJ : JsonCodec} `{HC : UnicodeCase} `{HP : UnicodeUpper}.
Variable out_of_range : Z → Z.

(** A call as the stream tells it, under its number. *)
Definition call_part (index : Z) (c : bytes * object) : object :=
  [member "index" (jint index); member "id" (JStr c.1); member "type" (text "function"); member "function" (JObj c.2)].

Fixpoint numbered (n : Z) (l : list (bytes * object)) : list object :=
  match l with [] => [] | c :: l => call_part n c :: numbered (n + 1) l end.

Lemma numbered_app n l1 l2 : numbered n (l1 ++ l2) = numbered n l1 ++ numbered (n + zlen l1) l2.
Proof.
  revert n. induction l1 as [|c l1 IH]; intros n; [by rewrite Z.add_0_r|]. cbn [app numbered]. rewrite IH. do 3 f_equal. unfold zlen. cbn [length]. lia.
Qed.

Lemma numbered_parts n l i : 0 <= n → n + zlen l <= 2 ^ 53 →
  filter (λ tc, call_index out_of_range tc = i) (numbered n l) = if n <=? i then match l !! Z.to_nat (i - n) with Some c => [call_part i c] | None => [] end else [].
Proof.
  revert n. induction l as [|c l IH]; intros n Hn Hl; cbn [numbered]; [rewrite filter_nil; by case_match|].
  assert (Hl' : zlen (c :: l) = 1 + zlen l) by (unfold zlen; cbn [length]; lia). assert (Hp := zlen_nonneg l).
  assert (Hi : call_index out_of_range (call_part n c) = n) by (apply (number_int_itoa out_of_range n); lia).
  rewrite filter_cons, Hi, IH by lia. destruct (decide (n = i)) as [->|Hne].
  - rewrite (proj2 (Z.leb_gt (i + 1) i)), Z.leb_refl, Z.sub_diag by lia. done.
  - destruct (Z.leb_spec (n + 1) i), (Z.leb_spec n i); try lia; [|done].
    by replace (Z.to_nat (i - n)) with (S (Z.to_nat (i - (n + 1)))) by lia.
Qed.

(** What objects say, the calls among them, and that none of them ends the turn. *)
Definition says_parts (content thought : bytes) (calls : list object) (os : list object) : Prop :=
  said "content" os = content ∧ said "reasoning_content" os = thought ∧ concat (map chunk_calls os) = calls ∧ ∀ d, last_reason os d = d.

Lemma says_parts_nil : says_parts [] [] [] [].
Proof. done. Qed.

Lemma says_parts_app c1 t1 l1 os1 c2 t2 l2 os2 : says_parts c1 t1 l1 os1 → says_parts c2 t2 l2 os2 → says_parts (c1 ++ c2) (t1 ++ t2) (l1 ++ l2) (os1 ++ os2).
Proof.
  intros (E1 & E2 & E3 & E4) (F1 & F2 & F3 & F4). unfold says_parts. rewrite !said_app, map_app, concat_app, E1, E2, E3, F1, F2, F3.
  split_and!; [done..|]. intros d. specialize (E4 d). specialize (F4 d). unfold last_reason in *. by rewrite foldl_app, E4.
Qed.

Lemma one_delta s seconds delta : says_parts (stringOf delta "content") (stringOf delta "reasoning_content")
  (match obj_get (B "tool_calls") delta with JArr tcs => map (λ v, default [] (as_obj v)) tcs | _ => [] end) [delta_object s seconds delta JNull].
Proof.
  unfold says_parts, said. cbn [map concat]. rewrite !app_nil_r. by split_and!.
Qed.

Definition call_has_id (p : gemini_part) : Prop := match g_call p with Some c => g_id c ≠ [] | None => True end.

(** The stream behind the same parts as the answer. *)
Definition in_step (s : GeminiStreamState) (a : answer_state) : Prop := ToolCallCount s = zlen (a_calls a) ∧ LastThoughtSignature s = a_last a.

(** The answer goes from [a] to [a'] while the stream says [os]. *)
Definition kept_up (named : Prop) (a a' : answer_state) (os : list object) : Prop :=
  ∃ content thought new told, a_content a' = a_content a ++ content ∧ a_reasoning a' = a_reasoning a ++ thought ∧ a_calls a' = a_calls a ++ new ∧
    map snd told = map snd new ∧ (named → told = new) ∧ says_parts content thought (numbered (zlen (a_calls a)) told) os.

Lemma kept_up_refl named a : kept_up named a a [].
Proof. exists [], [], [], []. rewrite !app_nil_r. split_and!; try done. Qed.

Lemma kept_up_trans n1 n2 a1 a2 a3 os1 os2 : kept_up n1 a1 a2 os1 → kept_up n2 a2 a3 os2 → kept_up (n1 ∧ n2) a1 a3 (os1 ++ os2).
Proof.
  intros (c1 & t1 & l1 & o1 & A1 & A2 & A3 & A4 & A5 & A6) (c2 & t2 & l2 & o2 & B1 & B2 & B3 & B4 & B5 & B6).
  exists (c1 ++ c2), (t1 ++ t2), (l1 ++ l2), (o1 ++ o2). rewrite B1, B2, B3, A1, A2, A3, <- !app_assoc, !map_app, A4, B4.
  split_and!; try done; [intros [N1 N2]; by rewrite A5, B5|].
  assert (Hl : length o1 = length l1) by (rewrite <- (length_map snd o1), A4; apply length_map).
  rewrite numbered_app. replace (zlen (a_calls a1) + zlen o1) with (zlen (a_calls a2)); [by apply says_parts_app|].
  rewrite A3, zlen_app. unfold zlen. by rewrite Hl.
Qed.

Lemma kept_up_silent named a a' os os1 os2 : says_parts [] [] [] os1 → says_parts [] [] [] os2 → kept_up named a a' os → kept_up named a a' (os1 ++ os ++ os2).
Proof.
  intros S1 S2 (c & t & l & o & A1 & A2 & A3 & A4 & A5 & A6). exists c, t, l, o. split_and!; try done.
  assert (T := says_parts_app _ _ _ _ _ _ _ _ S1 (says_parts_app _ _ _ _ _ _ _ _ A6 S2)). by rewrite !app_nil_r in T.
Qed.

Lemma part_in_step nanos nanos' p s st a : in_step s a →
  ∃ s' st' os, stream_part nanos s st p = (s', st', os) ∧ in_step s' (take_part nanos' a p) ∧ kept_up (call_has_id p) a (take_part nanos' a p) os.
Proof.
  intros [Hc Hl]. unfold stream_part, take_part, call_has_id. rewrite Hl, Hc.
  set (last := if nonempty (g_sig p) then _ else a_last a). set (sig := if nonempty (g_sig p) then g_sig p else last).
  set (content := if is_visible p then g_text p else []). set (thought := if is_thought p then g_text p else []).
  set (texts := (if is_visible p then [member "content" (JStr (g_text p))] else []) ++ (if is_thought p then [member "reasoning_content" (JStr (g_text p))] else [])).
  assert (Htext : (∀ rest, stringOf rest "content" = [] → stringOf rest "reasoning_content" = [] →
      stringOf (texts ++ rest) "content" = content ∧ stringOf (texts ++ rest) "reasoning_content" = thought ∧
      obj_get (B "tool_calls") (texts ++ rest) = obj_get (B "tool_calls") rest)).
  { intros rest R1 R2. unfold texts, content, thought, is_visible, is_thought.
    destruct (nonempty (g_text p)); [|by split_and!]. destruct (default false (g_thought p)); cbn [andb negb app]; by split_and!. }
  destruct (g_call p) as [c|]; cbv zeta.
  - eexists _, _, _. split; [reflexivity|]. split.
    { split; cbn [ToolCallCount LastThoughtSignature set_stream a_calls a_last]; [rewrite zlen_app|]; done. }
    exists content, thought, [(signed (geminiToolCallID (g_id c) (UncloakToolName (g_name c)) nanos' (zlen (a_calls a))) sig, function_object c)],
      [(signed (geminiToolCallID (g_id c) (UncloakToolName (g_name c)) nanos (zlen (a_calls a))) sig, function_object c)].
    cbn [a_content a_reasoning a_calls]. split_and!; try done.
    { intros Hid. unfold geminiToolCallID. by rewrite nonempty_true. }
    destruct (Htext [member "tool_calls" (JArr [JObj (stream_call (zlen (a_calls a)) (signed (geminiToolCallID (g_id c) (UncloakToolName (g_name c)) nanos (zlen (a_calls a))) sig) c)])]) as (T1 & T2 & T3); [done..|].
    set (delta := texts ++ _) in *. assert (Hd : delta ≠ []) by by destruct texts. destruct delta as [|f rest] eqn:E; [done|]. rewrite <- E in *.
    assert (O := one_delta (set_stream last (zlen (a_calls a) + 1) s) (nanos / 1000000000) delta). by rewrite T1, T2, T3 in O.
  - eexists _, _, _. split; [reflexivity|]. split; [done|]. exists content, thought, [], []. cbn [a_content a_reasoning a_calls]. rewrite app_nil_r.
    split_and!; try done. destruct (Htext []) as (T1 & T2 & T3); [done..|]. rewrite app_nil_r in T1, T2, T3. destruct texts as [|f delta] eqn:E.
    + rewrite <- T1, <- T2. apply says_parts_nil.
    + rewrite <- E in *. assert (O := one_delta (set_stream last (zlen (a_calls a)) s) (nanos / 1000000000) texts). by rewrite T1, T2, T3 in O.
Qed.

Lemma parts_in_step at_ at' i j ps s st a : in_step s a →
  ∃ s' st' os, stream_parts at_ i ps s st = (s', st', os) ∧ in_step s' (take_parts at' j ps a) ∧ kept_up (Forall call_has_id ps) a (take_parts at' j ps a) os.
Proof.
  revert i j s st a. induction ps as [|p ps IH]; intros i j s st a Hs; cbn [stream_parts take_parts].
  { exists s, st, []. split; [done|]. split; [done|]. apply kept_up_refl. }
  destruct (part_in_step (at_ i) (at' j) p s st a Hs) as (s1 & st1 & os1 & -> & H1 & K1).
  destruct (IH (S i) (S j) s1 st1 _ H1) as (s2 & st2 & os2 & -> & H2 & K2). exists s2, st2, (os1 ++ os2). split; [done|]. split; [done|].
  destruct (kept_up_trans _ _ _ _ _ _ _ K1 K2) as (c & t & l & o & A1 & A2 & A3 & A4 & A5 & A6). exists c, t, l, o. split_and!; try done.
  intros Hf. by apply A5, Forall_cons.
Qed.

Lemma take_parts_app at_ i ps1 ps2 a : take_parts at_ i (ps1 ++ ps2) a = take_parts at_ (i + length ps1) ps2 (take_parts at_ i ps1 a).
Proof. revert i a. induction ps1 as [|p ps1 IH]; intros i a; cbn [app length take_parts]; [by rewrite Nat.add_0_r|]. rewrite IH. f_equal. lia. Qed.

(** *** The chunks of a stream *)

Variable raw_text : json → bytes.

Definition candidate_parts (c : gemini_chunk) : list gemini_part := match g_candidates c with cand :: _ => default [] (g_content cand) | [] => [] end.
Definition candidate_reason (c : gemini_chunk) : bytes := match g_candidates c with cand :: _ => g_finish cand | [] => [] end.
(** A chunk that does not end the turn. *)
Definition open_chunk (c : gemini_chunk) : Prop := candidate_reason c = [].

Lemma silent_object s seconds fields : stringOf fields "content" = [] → stringOf fields "reasoning_content" = [] → obj_get (B "tool_calls") fields = JNull →
  says_parts [] [] [] [delta_object s seconds fields JNull].
Proof. intros E1 E2 E3. assert (O := one_delta s seconds fields). by rewrite E1, E2, E3 in O. Qed.

(** The objects of a chunk: those of its parts, and behind them the finish. *)
Lemma chunk_in_step at_ at' end_ j c s st a : in_step s a →
  ∃ s' st' os final, stream_chunk at_ end_ c s st = (s', st', os ++ final) ∧ in_step s' (take_parts at' j (candidate_parts c) a) ∧
    kept_up (Forall call_has_id (candidate_parts c)) a (take_parts at' j (candidate_parts c) a) os ∧
    if nonempty (candidate_reason c)
    then ∃ b seconds, final = [delta_object b seconds [] (text (stream_reason s' (candidate_reason c))) ++ [usage_member (stream_counts (g_usage c))]] ∧
         StreamUsage s' = Some (stream_counts (g_usage c))
    else final = [].
Proof.
  intros Hs. unfold stream_chunk, candidate_parts, candidate_reason. set (s0 := begin_stream (at_ 0%nat) s).
  set (first := if MessageStartSent s then [] else _).
  assert (S1 : says_parts [] [] [] first) by (unfold first; destruct (MessageStartSent s); [apply says_parts_nil|by apply silent_object]).
  assert (H0 : in_step s0 a) by exact Hs.
  destruct (g_candidates c) as [|cand cs] eqn:Ec.
  - destruct (g_usage c) as [u|].
    + eexists _, _, (first ++ [chunk_head s0 (end_ / 1000000000) ++ [member "choices" (JArr []); usage_member (stream_counts (Some u))]]), [].
      cbv zeta. rewrite app_nil_r. split; [reflexivity|]. split; [exact Hs|]. split; [|done].
      apply (kept_up_silent _ _ _ [] first _ S1); [done|apply kept_up_refl].
    + exists s, st, [], []. split; [done|]. split; [done|]. split; [apply kept_up_refl|done].
  - destruct (parts_in_step at_ at' 1 j (default [] (g_content cand)) s0 st a H0) as (s1 & st1 & os & E & H1 & K1). rewrite E. cbv beta iota zeta.
    assert (K := kept_up_silent _ _ _ os first [] S1 says_parts_nil K1). rewrite app_nil_r in K. rewrite app_assoc.
    destruct (nonempty (g_finish cand)) eqn:Ef.
    + destruct (g_usage c) as [u|]; (eexists _, _, (first ++ os), _; split; [reflexivity|]; split; [exact H1|]; split; [exact K|]; by eexists _, _).
    + destruct (g_usage c) as [u|]; (eexists _, _, (first ++ os), []; split; [reflexivity|]; split; [exact H1|]; split; [exact K|done]).
Qed.

(** Events that carry chunks. *)
Definition carries (event : bytes) (c : gemini_chunk) : Prop :=
  let body := UnwrapAntigravityResponse raw_text event in
  trim_space event ≠ [] ∧ trim_space event ≠ done_mark ∧ trim_space body ≠ [] ∧ read_chunk true body = Some c.

Abbreviation relay := (relay_events raw_text).
Definition frames (os : list object) : bytes := concat (map (λ o, frame (marshal (JObj o))) os).

Lemma frames_app os1 os2 : frames (os1 ++ os2) = frames os1 ++ frames os2.
Proof. unfold frames. by rewrite map_app, concat_app. Qed.

Lemma relay_carried readings i event c events s st : carries event c →
  relay readings i (event :: events) s st =
    let '(s, st, os) := stream_chunk (readings i).1 (readings i).2 c s st in
    let '(s, st, more) := relay readings (S i) events s st in (s, st, frames os ++ more).
Proof.
  intros (H1 & H2 & H3 & H4). cbn [relay_events]. rewrite !bool_decide_eq_false_2 by done. cbn [orb].
  unfold TranslateGeminiChunkToOpenAI. rewrite bool_decide_eq_false_2, H4 by done. by destruct (stream_chunk _ _ c s st) as [[? ?] ?].
Qed.

Lemma relay_in_step readings at' i j events chunks s st a : Forall2 carries events chunks → Forall open_chunk chunks → in_step s a →
  let a' := take_parts at' j (concat (map candidate_parts chunks)) a in
  ∃ s' st' os, (∀ tail, relay readings i (events ++ tail) s st = let '(s, st, more) := relay readings (i + length events) tail s' st' in (s, st, frames os ++ more)) ∧
    in_step s' a' ∧ kept_up (Forall call_has_id (concat (map candidate_parts chunks))) a a' os.
Proof.
  intros Hc. revert i j s st a. induction Hc as [|event c events chunks Hec _ IH]; intros i j s st a Ho Hs; cbn [map concat length].
  { exists s, st, []. split; [|split; [done|apply kept_up_refl]]. intros tail. rewrite Nat.add_0_r. cbn [app]. by destruct (relay readings i tail s st) as [[? ?] ?]. }
  apply Forall_cons in Ho as [Hn Ho]. unfold open_chunk in Hn.
  destruct (chunk_in_step (readings i).1 at' (readings i).2 j c s st a Hs) as (s1 & st1 & os1 & final & E & H1 & K1 & F).
  rewrite Hn in F. cbn [nonempty] in F. change (nonempty []) with false in F. rewrite F, app_nil_r in E. rewrite take_parts_app.
  destruct (IH (S i) (j + length (candidate_parts c))%nat s1 st1 _ Ho H1) as (s2 & st2 & os2 & R & H2 & K2).
  exists s2, st2, (os1 ++ os2). split; [|split; [done|]].
  - intros tail. cbn [app]. rewrite (relay_carried _ _ _ _ _ _ _ Hec), E, R. replace (S i + length events)%nat with (i + S (length events))%nat by lia.
    destruct (relay readings _ tail s2 st2) as [[? ?] ?]. by rewrite frames_app, app_assoc.
  - destruct (kept_up_trans _ _ _ _ _ _ _ K1 K2) as (c0 & t & l & o & A1 & A2 & A3 & A4 & A5 & A6). exists c0, t, l, o. split_and!; try done.
    intros Hf. by apply A5, Forall_app.
Qed.

(** *** The whole of both *)

Lemma calls_taken at_ i ps a : zlen (a_calls (take_parts at_ i ps a)) = zlen (a_calls a) + zlen (omap g_call ps).
Proof.
  revert i a. induction ps as [|p ps IH]; intros i a; cbn [take_parts omap list_omap]; [by rewrite Z.add_0_r|]. rewrite IH. unfold take_part.
  destruct (g_call p); cbn [a_calls]; [|done]. rewrite zlen_app. unfold zlen. cbn [length]. lia.
Qed.

(** What a client reads in the answer. *)
Definition message_of (m : object) : object := default [] (map_member "message" (chunk_choice m)).
Definition answer_calls (m : object) : list object :=
  match obj_get (B "tool_calls") (message_of m) with JArr l => map (λ v, default [] (as_obj v)) l | _ => [] end.

Definition call_read (c : bytes * object) : object := [member "id" (JStr c.1); member "type" (text "function"); member "function" (JObj c.2)].

Lemma answer_message id seconds a reason u (m := answer_object id seconds a reason u) :
  stringOf (message_of m) "content" = a_content a ∧ stringOf (message_of m) "reasoning_content" = a_reasoning a ∧
  answer_calls m = map call_read (a_calls a) ∧ stringOf (chunk_choice m) "finish_reason" = B (answer_reason (a_calls a) reason).
Proof.
  unfold m, answer_calls, message_of, answer_object.
  destruct (a_reasoning a) as [|r rs]; (destruct (a_calls a) as [|c cs]; (split; [reflexivity|]; split; [reflexivity|]; split; [|reflexivity]); [reflexivity|]);
    exact (map_map call_object (λ v, default [] (as_obj v)) (c :: cs)).
Qed.

Lemma reasons reason : geminiFinishToOpenAI reason = "length"%string ∨ geminiFinishToOpenAI reason = "content_filter"%string ∨ geminiFinishToOpenAI reason = "stop"%string.
Proof. unfold geminiFinishToOpenAI. cbv zeta. case_bool_decide; [by left|]. destruct (is_one _ _); auto. Qed.

Lemma reasons_agree s a reason : in_step s a → B (answer_reason (a_calls a) reason) = B (stream_reason s reason) ↔ a_calls a = [] ∨ geminiFinishToOpenAI reason = "stop"%string.
Proof.
  intros [Hc _]. unfold stream_reason. rewrite Hc. unfold zlen. destruct (a_calls a) as [|c cs]; cbn [answer_reason length].
  - split; [by left|by intros _].
  - rewrite (proj2 (Z.ltb_lt 0 _)) by lia. cbn [andb]. destruct (reasons reason) as [-> | [-> | ->]]; cbn [String.eqb Ascii.eqb Bool.eqb];
      (split; [first [by right|intros E; exfalso; by vm_compute in E]|intros [?|?]; done]).
Qed.

(** The object that ends the turn. *)
Definition final_object (b : GeminiStreamState) (seconds : Z) (reason : string) (u : OpenAIUsage) : object :=
  delta_object b seconds [] (text reason) ++ [usage_member u].

Lemma final_facts os b seconds reason u (l := os ++ [final_object b seconds reason u]) content thought calls : says_parts content thought calls os →
  said "content" l = content ∧ said "reasoning_content" l = thought ∧ (∀ i, parts_of out_of_range i l = filter (λ tc, call_index out_of_range tc = i) calls) ∧
  ∀ d, last_reason l d = B reason.
Proof.
  intros (E1 & E2 & E3 & E4). destruct (one_more out_of_range os (final_object b seconds reason u)) as (M1 & M2 & M3 & M4).
  unfold l. rewrite M1, M2, E1, E2. split; [apply app_nil_r|]. split; [apply app_nil_r|]. split; [|intros d; by apply M4].
  intros i. rewrite M3 by done. unfold parts_of. by rewrite E3.
Qed.

Definition same_counts (u u' : OpenAIUsage) : Prop :=
  PromptTokens u = PromptTokens u' ∧ CompletionTokens u = CompletionTokens u' ∧ CachedTokens u = CachedTokens u'.

Section Agreement.
Variables (readings : nat → (nat → Z) * Z) (at_ : nat → Z) (end_ : Z) (failed : bool) (st : stores).
Variables (events : list bytes) (chunks : list gemini_chunk) (final_event body : bytes).
Variables (content : option (list gemini_part)) (reason : bytes) (others others' : list gemini_candidate) (u u' : option gemini_usage).
Let parts := concat (map candidate_parts chunks) ++ default [] content.
Hypothesis Hchunks : Forall2 carries events chunks.
Hypothesis Hopen : Forall open_chunk chunks.
Hypothesis Hfinal : carries final_event {| g_candidates := {| g_content := content; g_finish := reason |} :: others; g_usage := u |}.
Hypothesis Hreason : reason ≠ [].
Hypothesis Hbody : read_chunk false body = Some {| g_candidates := {| g_content := Some parts; g_finish := reason |} :: others'; g_usage := u' |}.
Hypothesis Hcounts : stream_counts u = stream_counts u'.

Lemma stream_and_answer : ∃ st1 st2 s os b seconds,
  let a := take_parts at_ 0 parts (no_answer (s_names st)) in
  handleGeminiStream raw_text readings (events ++ [final_event]) failed st =
    (st1, frames (os ++ [final_object b seconds (stream_reason s reason) (stream_counts u)]) ++ sseDoneFrame, Some (stream_counts u), failed) ∧
  handleGeminiNonStream at_ end_ body st = (st2, marshal (JObj (answer_object end_ (end_ / 1000000000) a reason u')), Some (answer_usage u')) ∧
  in_step s a ∧ kept_up (Forall call_has_id parts) (no_answer (s_names st)) a os.
Proof.
  set (c := {| g_candidates := {| g_content := content; g_finish := reason |} :: others; g_usage := u |}) in Hfinal.
  destruct (relay_in_step readings at_ 0 0 events chunks fresh_gemini st (no_answer (s_names st)) Hchunks Hopen) as (s1 & st1 & os1 & R & H1 & K1); [done|].
  destruct (chunk_in_step (readings (0 + length events)%nat).1 at_ (readings (0 + length events)%nat).2 (0 + length (concat (map candidate_parts chunks))) c s1 st1 _ H1)
    as (s2 & st2 & os2 & final & E & H2 & K2 & F).
  change (candidate_reason c) with reason in F. rewrite nonempty_true in F by done. destruct F as (b & seconds & -> & Hu).
  eexists st2, _, s2, (os1 ++ os2), b, seconds. cbv zeta. unfold parts. rewrite take_parts_app.
  change (candidate_parts c) with (default [] content) in H2, K2. split; [|split; [|split; [exact H2|]]].
  - unfold handleGeminiStream. rewrite R, (relay_carried _ _ _ _ _ _ _ Hfinal), E. cbn [relay_events].
    rewrite Hu, app_nil_r, <- frames_app, app_assoc. reflexivity.
  - unfold handleGeminiNonStream, TranslateGeminiResponseToOpenAI. rewrite Hbody, <- take_parts_app. reflexivity.
  - destruct (kept_up_trans _ _ _ _ _ _ _ K1 K2) as (c0 & t & l & o & A1 & A2 & A3 & A4 & A5 & A6). exists c0, t, l, o. split_and!; try done.
    intros Hf. by apply A5, Forall_app.
Qed.

(** C26. A stream of Gemini and a document of Gemini with the same parts give a client of
    Chat Completions the same: the text, the reasoning, the counts, and every call once,
    in its place, with the same name and arguments, and the same id, thought signature
    included, where Gemini names its calls. The reasons agree exactly when there are no
    calls or the turn ended normally: a turn with calls that was cut off or filtered is
    told as such in a stream, and as calls to be made in a document. *)
Theorem gemini_stream_and_answer_agree : zlen (omap g_call parts) < 2 ^ 53 →
  ∃ st1 st2 os usage m usage',
    handleGeminiStream raw_text readings (events ++ [final_event]) failed st = (st1, frames os ++ sseDoneFrame, Some usage, failed) ∧
    handleGeminiNonStream at_ end_ body st = (st2, marshal (JObj m), Some usage') ∧
    said "content" os = stringOf (message_of m) "content" ∧ said "reasoning_content" os = stringOf (message_of m) "reasoning_content" ∧
    (∀ i tc, answer_calls m !! i = Some tc → ∃ o, parts_of out_of_range (Z.of_nat i) os = [o] ∧ map_member "function" o = map_member "function" tc ∧
       (Forall call_has_id parts → stringOf o "id" = stringOf tc "id")) ∧
    (∀ i, parts_of out_of_range i os ≠ [] → 0 <= i < zlen (answer_calls m)) ∧
    (stringOf (chunk_choice m) "finish_reason" = last_reason os [] ↔ answer_calls m = [] ∨ geminiFinishToOpenAI reason = "stop"%string) ∧
    same_counts usage usage'.
Proof.
  intros Hl. destruct stream_and_answer as (st1 & st2 & s & os & b & seconds & E1 & E2 & Hs & (c & t & l & o & A1 & A2 & A3 & A4 & A5 & A6)).
  set (a := take_parts at_ 0 parts (no_answer (s_names st))) in *. eexists st1, st2, _, _, _, _. split; [exact E1|]. split; [exact E2|]. clear E1 E2.
  destruct (final_facts os b seconds (stream_reason s reason) (stream_counts u) _ _ _ A6) as (F1 & F2 & F3 & F4).
  destruct (answer_message end_ (end_ / 1000000000) a reason u') as (M1 & M2 & M3 & M4).
  change (zlen (a_calls (no_answer (s_names st)))) with 0 in F3. cbn [no_answer a_calls a_content a_reasoning app] in A1, A2, A3.
  assert (Hol : zlen o = zlen l) by (unfold zlen; by rewrite <- (length_map snd o), A4, length_map).
  assert (Hal : zlen (a_calls a) = zlen (omap g_call parts)) by (unfold a; by rewrite calls_taken). rewrite A3 in Hal.
  rewrite M1, M2, M3, M4, F1, F2, F4, A1, A2, A3. split; [done|]. split; [done|]. split; [|split; [|split]].
  - intros i tc Hi. change (map ?f ?x) with (f <$> x) in Hi. apply list_lookup_fmap_Some in Hi as ([id fn] & -> & Hi).
    assert (Hsnd : (snd <$> o) !! i = Some fn) by (change (snd <$> o) with (map snd o); rewrite A4; exact (eq_trans (list_lookup_fmap snd l i) (f_equal (fmap snd) Hi))).
    apply list_lookup_fmap_Some in Hsnd as ([id' fn'] & Heq & Ho). cbn [snd] in Heq. subst fn'.
    exists (call_part (Z.of_nat i) (id', fn)). rewrite F3, numbered_parts by lia.
    rewrite (proj2 (Z.leb_le 0 _)), Z.sub_0_r, Nat2Z.id, Ho by lia. split; [done|]. split; [done|].
    intros Hf. specialize (A5 Hf). rewrite A5, Hi in Ho. by injection Ho as ->.
  - intros i. rewrite F3, numbered_parts by lia. destruct (Z.leb_spec 0 i); [|done]. destruct (o !! _) eqn:E; [|done]. intros _.
    apply lookup_lt_Some in E. unfold zlen. rewrite length_map, <- (length_map snd l), <- A4, length_map. lia.
  - rewrite <- A3, (reasons_agree s a reason Hs). split; (intros [E|?]; [left|by right]); [by rewrite E|]. by destruct (a_calls a).
  - rewrite Hcounts. unfold same_counts. by destruct u'.
Qed.

End Agreement.

(** *** Streams without an end *)

(** Nothing of it is told: an error object, a notice that a prompt was blocked. *)
Definition silent (c : gemini_chunk) : bool :=
  match g_candidates c, g_usage c with [], None => true | _, _ => false end.

Lemma silent_chunk at_ end_ c s st : silent c = true → stream_chunk at_ end_ c s st = (s, st, []).
Proof. unfold silent, stream_chunk. by destruct (g_candidates c), (g_usage c). Qed.

Lemma relay_silent readings i events chunks s st : Forall2 carries events chunks → forallb silent chunks = true → relay readings i events s st = (s, st, []).
Proof.
  intros Hc. revert i. induction Hc as [|event c events chunks Hec _ IH]; intros i Hs; [done|]. cbn [forallb] in Hs. apply andb_true_iff in Hs as [H1 H2].
  by rewrite (relay_carried _ _ _ _ _ _ _ Hec), silent_chunk, IH.
Qed.

(** C27. An upstream that breaks a turn off in the middle of a stream, or tells an error in
    it, is not told as one: the client gets what there is, no reason, and the sentinel
    of a whole stream. The call fails exactly when the reading of the stream failed: a
    clean end in the middle of a turn is a success. A stream of errors alone is the
    sentinel alone, without counts; and a document without candidates is sent on as
    Gemini spelled it, with status 200. *)
Theorem cut_gemini_stream readings at_ end_ events chunks failed body u st :
  Forall2 carries events chunks → Forall open_chunk chunks →
  (∃ st' os usage, handleGeminiStream raw_text readings events failed st = (st', frames os ++ sseDoneFrame, usage, failed) ∧ last_reason os [] = [] ∧
     (forallb silent chunks = true → os = [] ∧ usage = None)) ∧
  (read_chunk false body = Some {| g_candidates := []; g_usage := u |} → handleGeminiNonStream at_ end_ body st = (st, body, None)).
Proof.
  intros Hc Ho. split.
  - unfold handleGeminiStream. destruct (forallb silent chunks) eqn:Es.
    + rewrite (relay_silent _ _ _ _ _ _ Hc Es). by exists st, [], None.
    + destruct (relay_in_step readings at_ 0 0 events chunks fresh_gemini st (no_answer (s_names st)) Hc Ho) as (s & st' & os & R & _ & (? & ? & ? & ? & _ & _ & _ & _ & _ & K)); [done|].
      specialize (R []). cbn [relay_events] in R. rewrite app_nil_r in R. rewrite R, app_nil_r. exists st', os, (StreamUsage s). split; [done|]. split; [apply K|done].
  - intros E. unfold handleGeminiNonStream, TranslateGeminiResponseToOpenAI. by rewrite E.
Qed.

End Compare.

(** ** Samples *)
Module Sample.

#[local] Existing Instance ascii_case.
#[local] Instance same_upper : UnicodeUpper := {| unicode_upper r := r |}.
#[local] Existing Instance Strokes.codec.

Definition saturated (n : Z) : Z := - 2 ^ 63.

Definition part_json (fields : object) : json := JObj fields.
Definition chunk_json (parts : list object) (reason : string) (usage : object) : object :=
  [member "candidates" (JArr [JObj ([member "content" (JObj [member "role" (text "model"); member "parts" (JArr (map part_json parts))])] ++
     if String.eqb reason "" then [] else [member "finishReason" (text reason)])])] ++ usage.
Definition counted : object :=
  [member "usageMetadata" (JObj [member "promptTokenCount" (jint 9); member "candidatesTokenCount" (jint 4); member "cachedContentToken" (jint 2)])].

Definition hello : object := [member "text" (text "hi")].
Definition thinking : object := [member "text" (text "hm"); member "thought" (JBool true); member "thought_signature" (text "sig")].
Definition calling : object :=
  [member "functionCall" (JObj [member "name" (text "proxy_run_ide"); member "args" (JObj [member "a" (jint 1)]); member "id" (text "c1")])].

Definition first_chunk : object := chunk_json [thinking] "" [].
Definition last_chunk (reason : string) : object := chunk_json [hello; calling] reason counted.
Definition document (reason : string) : object := chunk_json [thinking; hello; calling] reason counted.
Definition parts_of_first : list gemini_part := [{| g_text := B "hm"; g_thought := Some true; g_sig := B "sig"; g_call := None |}].

Definition no_stores : stores := {| s_names := empty_table; s_sigs := empty_table |}.
Definition chunk_at (c : object) : gemini_chunk := default {| g_candidates := []; g_usage := None |} (decode_chunk true c).

Lemma first_carried : carries marshal (marshal (JObj first_chunk)) (chunk_at first_chunk).
Proof. split_and!; by vm_compute. Qed.

(** A turn with a call that ran into the limit: the stream says it was cut, the document
    asks for the call. *)
Lemma agreement_witness : ∃ st1 st2 os usage m usage',
  handleGeminiStream marshal (λ i, ((λ j, Z.of_nat (i + j)), 7)) [marshal (JObj first_chunk); marshal (JObj (last_chunk "MAX_TOKENS"))] false no_stores =
    (st1, frames os ++ sseDoneFrame, Some usage, false) ∧
  handleGeminiNonStream (λ i, 5) 6 (marshal (JObj (document "MAX_TOKENS"))) no_stores = (st2, marshal (JObj m), Some usage') ∧
  said "reasoning_content" os = stringOf (message_of m) "reasoning_content" ∧
  stringOf (chunk_choice m) "finish_reason" ≠ last_reason os [] ∧ CachedTokens usage = 2.
Proof.
  destruct (gemini_stream_and_answer_agree saturated marshal (λ i, ((λ j, Z.of_nat (i + j)), 7)) (λ i, 5) 6 false no_stores
    [marshal (JObj first_chunk)] [chunk_at first_chunk] (marshal (JObj (last_chunk "MAX_TOKENS"))) (marshal (JObj (document "MAX_TOKENS")))
    (match g_candidates (chunk_at (last_chunk "MAX_TOKENS")) with c :: _ => g_content c | [] => None end) (B "MAX_TOKENS") [] []
    (g_usage (chunk_at (last_chunk "MAX_TOKENS"))) (g_usage (chunk_at (last_chunk "MAX_TOKENS"))))
    as (st1 & st2 & os & usage & m & usage' & E1 & E2 & H1 & H2 & H3 & H4 & H5 & H6).
  - by repeat constructor; apply first_carried.
  - by repeat constructor.
  - split_and!; by vm_compute.
  - by vm_compute.
  - by vm_compute.
  - done.
  - by vm_compute.
  - exists st1, st2, os, usage, m, usage'. split; [exact E1|]. split; [exact E2|]. split; [exact H2|].
    assert (Hu : (handleGeminiStream marshal (λ i, ((λ j, Z.of_nat (i + j)), 7)) [marshal (JObj first_chunk); marshal (JObj (last_chunk "MAX_TOKENS"))] false no_stores).1.2 = Some usage)
      by (change [marshal (JObj first_chunk); marshal (JObj (last_chunk "MAX_TOKENS"))] with ([marshal (JObj first_chunk)] ++ [marshal (JObj (last_chunk "MAX_TOKENS"))]); by rewrite E1).
    split; [|vm_compute in Hu; by injection Hu as <-].
    intros [E|E]%H5; [|by vm_compute in E].
    assert (Hm : (handleGeminiNonStream (λ i, 5) 6 (marshal (JObj (document "MAX_TOKENS"))) no_stores).1.2 = marshal (JObj m)) by by rewrite E2.
    assert (Hd : Some (JObj m) = unmarshal (handleGeminiNonStream (λ i, 5) 6 (marshal (JObj (document "MAX_TOKENS"))) no_stores).1.2)
      by (rewrite Hm; symmetry; apply Strokes.read_encode).
    vm_compute in Hd. injection Hd as ->. by vm_compute in E.
Defined.

(** Names that were never cloaked lose their ends too. *)
Example plain_names_are_uncloaked : UncloakToolName (B "open_ide") = B "open" ∧ UncloakToolName (B "proxy_fetch") = B "fetch".
Proof. by vm_compute. Qed.

Definition error_event : bytes := marshal (JObj [member "error" (JObj [member "code" (jint 503); member "message" (text "overloaded")])]).

(** A stream that breaks off behind a thought, cleanly and by a failed read, and one that
    is an error. *)
Lemma cut_gemini_witness :
  (∃ st os usage, handleGeminiStream marshal (λ i, ((λ j, 0), 0)) [marshal (JObj first_chunk)] false no_stores = (st, frames os ++ sseDoneFrame, usage, false) ∧
     last_reason os [] = []) ∧
  (∃ st os usage, handleGeminiStream marshal (λ i, ((λ j, 0), 0)) [marshal (JObj first_chunk)] true no_stores = (st, frames os ++ sseDoneFrame, usage, true)) ∧
  ∃ st os usage, handleGeminiStream marshal (λ i, ((λ j, 0), 0)) [error_event] false no_stores = (st, frames os ++ sseDoneFrame, usage, false) ∧ os = [] ∧ usage = None.
Proof.
  split; [|split].
  - destruct (cut_gemini_stream marshal (λ i, ((λ j, 0), 0)) (λ i, 0) 0 [marshal (JObj first_chunk)] [chunk_at first_chunk] false [] None no_stores) as [(st & os & usage & E & H1 & _) _].
    + by repeat constructor; apply first_carried.
    + by repeat constructor.
    + by exists st, os, usage.
  - destruct (cut_gemini_stream marshal (λ i, ((λ j, 0), 0)) (λ i, 0) 0 [marshal (JObj first_chunk)] [chunk_at first_chunk] true [] None no_stores) as [(st & os & usage & E & _) _].
    + by repeat constructor; apply first_carried.
    + by repeat constructor.
    + by exists st, os, usage.
  - destruct (cut_gemini_stream marshal (λ i, ((λ j, 0), 0)) (λ i, 0) 0 [error_event] [{| g_candidates := []; g_usage := None |}] false [] None no_stores) as [(st & os & usage & E & _ & H2) _].
    + constructor; [|constructor]. split_and!; by vm_compute.
    + by repeat constructor.
    + exists st, os, usage. split; [exact E|]. by apply H2.
Defined.

End Sample.
